(* ===== verification/_CoqProject ===== *)
-Q . S2P
Prelude.v
GoText.v
Retry.v
Base64.v
JsBase64.v
GoFloat.v
GoTime.v
Json.v
Domain.v
GoAny.v
ConfigYaml.v
ConfigYamlFacts.v
Lru.v
Cache.v
Pagination.v
Sha256.v
AuditChain.v
AuditChainFacts.v
Convert.v
Validation.v
ValidationFacts.v
Auth.v
Jwt.v
RateLimit.v
RateLimitFacts.v
CrossField.v
ValidatorFactory.v
ValidatorFactoryFacts.v
PubSub.v
ConfigStore.v
MemStore.v
MemStoreFacts.v
AuditStore.v
AuditStoreFacts.v
AuditService.v
AuditServiceFacts.v
AuditFindings.v
ConfigService.v
ServiceLemmas.v
ServiceCommits.v
Scenario.v
ServiceTheorems.v
ServiceReads.v
ServiceCache.v
ServiceValidity.v
StoreTheorems.v
Findings.v
SchemaTypes.v
SchemaYaml.v
SchemaYamlFacts.v
CelLint.v
CelLintSpec.v
CelLintFacts.v
SchemaStore.v
SchemaService.v
SchemaFacts.v
SchemaRuns.v
SchemaTheorems.v
SchemaTenants.v
SchemaFactory.v
SchemaScenario.v
SchemaFindings.v
WatchValue.v
Watcher.v
WatcherFacts.v
WatcherTheorems.v
WatcherData.v
WatchGroup.v
WatcherScenario.v
ConfigClient.v
ConfigClientFacts.v
