(* ===== verification/Prelude.v ===== *)
(** * OpenDecree: a verification of the configuration server

    OpenDecree is a multi-tenant configuration service written in Go. A schema
    declares typed fields and rules between them; every tenant of a schema has
    a history of configuration versions; clients write fields, read them at
    any version, compare and roll back versions, and subscribe to changes.
    Every change is recorded in a hash-chained audit log. (The only JavaScript
    files of the repository are two vendored, minified bundles of the Swagger
    UI; the program is its Go code, and that is what is modelled. Of the
    bundles one module is, [base64-js], in [JsBase64].)

    ** The program and its model

    The config service ([internal/config/service.go]) is the centre. A request
    comes with claims that an interceptor of [internal/auth] put in its
    context, is authorized by the guards of [internal/authz], works on a store
    ([internal/config/store.go]), validates values with the validators of the
    tenant's schema, runs the schema's cross-field rules inside the
    transaction, and then drops the tenant's entries of the config cache
    ([internal/cache]) and publishes an event ([internal/pubsub]). The audit
    service ([internal/audit]) reads the log the writes append to, verifies
    its chain and answers how often fields were read. The schema service
    ([internal/schema]) writes the schemas, the tenants bound to their versions
    and the field locks that the config service reads, and tells the validator
    factory when a tenant's binding changes. The rate limiter
    ([internal/ratelimit]) stands before both; the retry engine ([sdk/retry])
    is what a client calls them through, and the watcher ([sdk/configwatcher])
    keeps typed values in a client up to date over a subscription.

    Standard library of Go, as far as the code uses it:
    - [GoText]: bytes, [strconv] integers, [strings], UTF-8;
    - [Base64]: [encoding/base64] with padding;
    - [GoFloat]: [float64], [ParseFloat] and the shortest [FormatFloat];
    - [GoTime]: durations and RFC 3339 timestamps;
    - [Json]: [encoding/json] decoding, and encoding of strings;
    - [GoAny]: values of type [any], their JSON and their [%v];
    - [Sha256]: [crypto/sha256], executable, and [encoding/hex].

    Components, with the Go file each one follows:
    - [Domain]: entities, field types, UUIDs and errors
      ([internal/storage/domain]); an error keeps its gRPC code, its format
      string and its arguments;
    - [Lru]: [internal/cache/lru.go], a linked list with element identities
      and an index into it;
    - [Cache]: [internal/cache/cache.go] (the classes [ConfigCache] and
      [IdempotencyCache]) and [memory.go] ([MemoryCache],
      [MemoryIdempotencyCache]);
    - [Pagination]: [internal/pagination];
    - [Convert]: [internal/config/convert.go], [redact.go], [diff.go];
    - [ConfigYaml]: [internal/config/yaml.go], [parser.go], [parser_v1.go], the
      documents of exports and imports;
    - [Validation]: [internal/validation/validator.go], [limits.go],
      [json_schema.go], the checks of one field;
    - [ValidatorFactory]: [internal/validation/factory.go], [cache.go] and the
      program cache of [internal/schema/cel/compile.go];
    - [Auth]: [internal/auth] (claims, access checks, metadata interceptor) and
      [internal/authz] (tenant scope, role policy and field lock guards);
    - [Jwt]: [internal/auth/jwt.go], the interceptor for tokens;
    - [CrossField]: [internal/schema/dependent_required.go] and
      [internal/schema/cel/activation.go], [eval.go];
    - [PubSub]: [internal/pubsub/pubsub.go], [memory.go]; the publisher is a
      step relation over publishes, deliveries, subscribes and closes;
    - [ConfigStore]: the [Store] interface, the abstract history it stands for
      and the laws [StoreOk] a client relies on;
    - [MemStore]: [internal/config/store_memory.go];
    - [ConfigService]: [internal/config/service.go], all twelve handlers with
      their guards, transactions, retries and side effects;
    - [AuditChain]: [internal/audit/chain.go], [verify.go] and [sortByChain] of
      [store_pg.go];
    - [AuditStore]: [internal/audit/store.go], [store_memory.go]
      ([AuditMemory]) and the appends and reads of the PostgreSQL stores
      ([AuditPg]);
    - [AuditService]: [internal/audit/service.go] and [recorder.go]
      ([UsageRecorder]);
    - [RateLimit]: [internal/ratelimit/limiter.go], [interceptor.go]; buckets
      live in a heap because a caller keeps its pointer after the lock;
    - [SchemaTypes]: the stateless part of [internal/schema]: [convert.go],
      [validate_constraints.go], [validations.go], [limits.go], [seed.go];
    - [SchemaYaml]: [internal/schema/yaml.go], [parser.go], [parser_v1.go], the
      documents of schemas;
    - [CelLint]: [internal/schema/cel/lint.go], [lint_types.go], [env.go], the
      passes over the syntax tree of a rule ([CelLintSpec] says what they look
      for, as relations on trees);
    - [SchemaStore]: [internal/schema/store.go] and [store_memory.go];
    - [SchemaService]: [internal/schema/service.go], all sixteen handlers;
    - [Retry]: [sdk/retry/retry.go];
    - [WatchValue]: [sdk/configclient/typed_value.go] and
      [sdk/configwatcher/value.go], [types.go], one live value, with consumers
      that receive also in the middle of an update;
    - [Watcher]: [sdk/configwatcher/watcher.go], [write.go]; calls and the
      subscription loop are threads over shared memory, a step is one section
      under the mutex or one operation on a value, channel or transport;
    - [WatchGroup]: [sdk/configwatcher/fieldgroups.go];
    - [ConfigClient]: [sdk/configclient], over any transport;
    - [JsBase64]: the module [base64-js] of the two bundles.

    The state of a running service is the record [World] (store, two caches,
    publisher, validators, usage records, clock tick); a handler is a function
    from a world to a result and a world, in the monad [ST]. Its result is
    [Ok] or [Err] of a Go error, and a handler that fails still returns the
    world as it left it. A transaction body runs in the same monad over the
    validators and the transaction's own store; only a body that returns
    without an error is merged back. The handlers of the schema service are
    functions in the same monad over the validator caches and the store.

    ** Parameters

    Code that is not part of the repository is an argument of the definitions
    that use it: [XXHash] (the hash behind checksums), the CEL programs, their
    compiler [CelCompile], the parser [CelParser] and the cost cap [CelCap]
    (cel-go), [YamlLib]
    (yaml.v3, with the law [YamlLibOk] that it reads back the scalars, lists and
    maps it writes) and [SchemaYamlLib] (the same library on schema documents, with
    [SchemaYamlOk]), [Regexp], [JsonSchema], [UrlRest] (the part of a URL after
    its scheme, with [UrlRestOk] on plain addresses), [Jsonb] (how PostgreSQL renders a JSON value). What the Go runtime
    chooses is a parameter too: [MapRange] is the order of a loop over a map
    (any permutation of its entries, [MapRangeOk]; [PendingRange] for the
    buffer of the usage recorder), [SortSlice] the order [sort.Slice] gives
    equal elements ([SortSliceOk]), [Sched] the order in which two concurrent
    reads fail, [CompileRace] whether a compilation beats its deadline,
    [FloatOverflow] the conversion of a float outside the range of an integer,
    [Random] and [Clock] the random source and the clock; the call, the wait
    and the random source of [Retry] are arguments of its loop. [TokenBucket]
    is a bucket of [golang.org/x/time/rate] with its documented law
    [TokenBucketOk]; [JwtLib] is the token library with its documented checks
    [JwtLibOk]; [Transport] and [TransportOk] are what the config client calls
    and relies on, which leaves open how the service shows a stored text;
    [Rendering] is how the server behind the watcher shows a value in a snapshot,
    in a replay and in a live event; [UsageStoreOk] is what the usage recorder
    relies on, upserts that fail included. [Validators] is the
    interface of the validator factory, which [ValidatorFactory] implements
    over the store's schemas; [ValidatorCaches] is what the schema service asks
    of it, discharged in [SchemaFactory]. A theorem that needs a law of a parameter names
    it; [Scenario], with the plain YAML library [PlainYaml] and the real
    factory, [AuditScenario] and [SchemaScenario] instantiate all of them in
    concrete deployments on which the witnesses run.

    ** Theorems

    - [ServiceTheorems], over every store that meets [StoreOk]: what each
      write handler commits, to the row, the checksum and the audit entry
      ([set_field_commits], [set_fields_commits], [rollback_commits],
      [import_commits]); a failed write leaves the contents alone
      ([failed_write_changes_nothing]); every committed snapshot meets the
      tenant's cross-field rules ([committed_snapshot_meets_rules]).
    - [ServiceReads]: no handler answers a caller without access to the tenant
      ([tenant_isolation]); reads are exact with respect to the history
      ([read_your_write], [get_fields_exact], [diff_versions_exact]); paging
      ends and yields every version once ([list_versions_pages]); a
      subscription replays and then sends what is live
      ([subscribe_replay_then_live]).
    - [ServiceCache]: after every sequence of calls of the config service in which
      invalidations do not fail, or no version is asked for before it exists,
      [GetConfig] answers what the store has, and its errors are those of the
      checks and reads ([get_config_never_stale]); otherwise a missed invalidation
      can leave a stale answer ([cached_ahead_stays_stale]).
    - [ServiceValidity]: after any sequence of calls over the validator
      factory every stored version meets the tenant's schema
      ([every_version_meets_schema]).
    - [StoreTheorems]: the in-memory store refines the abstract history.
    - [ValidationFacts], [ValidatorFactoryFacts]: a validator accepts exactly
      the values its schema describes ([validator_accepts_iff]), its errors
      hide sensitive texts where it says so, and the factory's caches answer
      for the tenant's current schema ([factory_answers_current]).
    - [ConfigYamlFacts]: what an import reads from a document, and that an
      export imports to the same values ([export_then_import]), for texts that
      are canonical for their type: JSON as it is marshalled, except strings, null
      and a negative zero.
    - [AuditChainFacts]: two logs that verify and end in one digest say the
      same, or exhibit a SHA-256 collision, and an edited entry is reported at
      its position ([tamper_evident]). [AuditStoreFacts]: the logs of the
      in-memory store verify ([memory_log_verifies]), those of PostgreSQL when
      (created_at, id) grows ([pg_log_verifies]). [AuditServiceFacts]: no read
      is counted twice between recorder, flushes and store, and those of failed
      upserts are all that is lost ([usage_counts_exact]), paging over the
      in-memory store lists every entry once ([query_log_pages]), and tenants are
      kept apart
      ([audit_tenant_isolation]).
    - [SchemaTheorems], after any sequence of calls of the schema service: a
      tenant is bound to a published version ([tenants_bound_to_published]),
      the versions of a schema are numbered without gaps
      ([schema_versions_numbered]), a published version and the fields of any
      version never change ([versions_immutable]), and a call other than
      an import that fails leaves the store alone
      ([failed_schema_call_changes_nothing]). [SchemaTenants]: a caller without
      access to a tenant cannot tell whether it exists
      ([tenant_existence_hidden]); a new tenant holds exactly the defaults of
      its version, all valid for the config service's validators, whose limits
      for JSON schemas must be no lower than the default ones
      ([create_tenant_seeds_defaults]).
    - [SchemaYamlFacts]: which schema documents an import accepts and what it
      reads ([schema_import_reads]), and that the export of a schema that a
      document can express ([exportable]) is read back as the schema it was made
      from, with the same checksum ([schema_export_then_import]).
    - [CelLintFacts]: which rules the lint accepts, against the relations of
      [CelLintSpec] ([lint_accepts_iff]), and that
      it never takes a rule between fields for a native constraint
      ([lint_spares_cross_field]).
    - [SchemaFactory]: the validator factory over the store the schema service
      writes answers as one without caches, however their calls interleave
      ([factory_follows_schema_service]).
    - [RateLimitFacts]: a key is allowed no more than its bucket's rate, also
      across evictions ([limiter_rate_holds]), in bounded memory
      ([limiter_bounded]).
    - [Retry]: the loop ends ([run_ends]) and returns the first success within
      its attempts when the context lives ([run_reaches_success]); the 64-bit
      backoff is the exact one ([backoff_duration_exact]).
    - [WatchValue]: a value's queue of changes is bounded, loses only counted
      old changes and never the latest, whenever its consumers receive
      ([changes_keep_latest]).
      [WatcherTheorems]: in every interleaving of the watcher's calls no
      channel is closed twice and one loop runs at most ([watcher_life_safe]),
      [Close] never deadlocks ([close_always_returns]) and leaves nothing
      running ([close_leaves_nothing_running]), waits stay within the
      configured range ([backoff_in_range]). [WatcherData]: after the replay a value
      is what the loop was told last, and the server's current one when that was
      the last change ([watcher_converges]).
      [WatchGroup]: [fill_reads_values]. [WatcherFacts] holds the invariants
      of the life cycle and of the memory.
    - [ConfigClientFacts]: the write of a successful [Update] replaces the value
      whose shown text it was computed from ([update_replaces_what_it_read]); batch requests are
      determined by their contents ([batch_paths_determined]).
    - [Jwt]: what a token lets in ([jwt_claims_sound]); whichever interceptor
      let a request in, only a superadmin lists all tenants
      ([listing_is_restricted]).
    - [JsBase64]: decoding inverts encoding, the encoder is Go's, the decoder
      is total on any text.
    - [Lru], [Cache], [PubSub], [Auth], [CrossField], [Pagination]: the
      components on their own. The LRU refines an association list in order of
      use; a cache hit is the last value set and not invalidated; an
      idempotency key is granted once; the publisher never sends on a closed
      channel and never exceeds a buffer; the guards allow exactly what the
      policy says; claims from metadata are sound; page tokens round trip.
    - [Findings], [AuditFindings], [SchemaFindings], [WatcherScenario],
      [ConfigClientFacts]: behaviours that a comment or a document of
      the repository describes differently.
    [ServiceLemmas], [ServiceCommits], [MemStoreFacts], [SchemaFacts] and
    [SchemaRuns] hold the lemmas and the predicate transformers ([keeps],
    [atomic], [commits], [upholds]) behind these.

    ** Bounds and fuel

    Versions are [int32] and wrap where Go's do; a theorem about a commit asks
    for room below the largest [int32]. Loops whose recursion is not structural
    take fuel: [format_go] the bit length of the number, [parse_duration_go]
    the number of bytes, the JSON parser more than the number of runes (each
    call consumes one), the decimal search of [GoFloat] the 17 digits that
    determine a binary64 value and a range of exponents that covers all of
    them, [retryOnVersionConflict] the constant number of attempts of the
    code, [follow] (the loop of [sortByChain]) the number of entries, which
    [follow_total] proves enough, [Sha256.blocks] the number of blocks. [Iter]
    has no bound in the code: its fuel is the number of pages, and
    [list_versions_pages] and [query_log_pages] prove that it ends. Usage
    counts are [int64]; their theorem asks for fewer than 2^63 reads.

    ** What is not modelled

    Logging, metrics and tracing; the PostgreSQL and Redis backends, whose
    logic is SQL and Redis commands (the laws of the interfaces are what the
    service relies on), except for the audit chain; the parsing of tokens and
    the refresh of keys, which belong to libraries; generated code; the admin
    client and the gRPC transport of the SDK, which forward calls and convert
    messages, and its tools; server wiring and the command line. An instant is one number: a clock that is set
    back while the process runs, so that Go's wall and monotonic readings
    disagree, is outside the model.
    Handlers are taken one after another except where an interleaving is what
    a theorem is about ([PubSubMachine], [subscribe_replay_then_live],
    [memory_store_loses_update], [usage_counts_exact], [changes_keep_latest],
    [Watcher]). The server behind [Watcher] is not the modelled service but what
    the loop can count on of it: a log of changes, snapshots and replays read
    from it, and live events of which nothing is assumed, since rollbacks send
    none ([rollback_publishes_nothing]) and the publisher drops some. *)
From stdpp Require Export base tactics numbers list gmap strings sorting.
From Stdlib Require Export ZArith Lia.

#[export] Set Default Goal Selector "!".

(** ** Results

    A Go function that returns [(T, error)] is a function into [result E T];
    a function that returns only [error] is a function into [result E unit]. *)
Inductive result (E A : Type) : Type :=
| Ok (a : A)
| Err (e : E).
Global Arguments Ok {E A} a.
Global Arguments Err {E A} e.

Declare Scope go_scope.
Delimit Scope go_scope with go.

Definition result_bind {E A B} (r : result E A) (k : A → result E B) : result E B :=
  match r with
  | Ok a => k a
  | Err e => Err e
  end.

Definition result_map {E A B} (f : A → B) (r : result E A) : result E B :=
  match r with
  | Ok a => Ok (f a)
  | Err e => Err e
  end.

Definition is_Ok {E A} (r : result E A) : bool :=
  match r with Ok _ => true | Err _ => false end.

Notation "'let?' x ':=' r 'in' k" := (result_bind r (λ x, k))
  (at level 10, x name, r at level 100, k at level 200) : go_scope.
Notation "'let?' ' p ':=' r 'in' k" := (result_bind r (λ p, k))
  (at level 10, p pattern, r at level 100, k at level 200) : go_scope.
Open Scope go_scope.

Lemma result_bind_Ok {E A B} (r : result E A) (k : A → result E B) b :
  result_bind r k = Ok b ↔ ∃ a, r = Ok a ∧ k a = Ok b.
Proof. destruct r; simpl; naive_solver. Qed.

Lemma result_bind_Err {E A B} (r : result E A) (k : A → result E B) e :
  result_bind r k = Err e ↔ r = Err e ∨ ∃ a, r = Ok a ∧ k a = Err e.
Proof. destruct r; simpl; naive_solver. Qed.

Global Instance result_eq_dec {E A} `{EqDecision E, EqDecision A} :
  EqDecision (result E A).
Proof. solve_decision. Defined.

(** ** Machine integers

    Go's [int32] and [int64] are kept as [Z] with their wrap-around written
    out; [int] is 64 bits wide. *)
Definition wrap (w x : Z) : Z :=
  (x + 2 ^ (w - 1)) `mod` 2 ^ w - 2 ^ (w - 1).
Definition int32 (x : Z) : Z := wrap 32 x.
Definition int64 (x : Z) : Z := wrap 64 x.
Definition max_int32 : Z := 2 ^ 31 - 1.
Definition min_int32 : Z := - 2 ^ 31.
Definition max_int64 : Z := 2 ^ 63 - 1.
Definition min_int64 : Z := - 2 ^ 63.

Lemma wrap_id w x :
  (0 < w)%Z → (- 2 ^ (w - 1) ≤ x < 2 ^ (w - 1))%Z → wrap w x = x.
Proof.
  intros Hw Hx. unfold wrap.
  assert (2 ^ w = 2 * 2 ^ (w - 1))%Z as E.
  { rewrite <-Z.pow_succ_r by lia. f_equal; lia. }
  rewrite Z.mod_small by lia. lia.
Qed.

Lemma wrap_range w x :
  (0 < w)%Z → (- 2 ^ (w - 1) ≤ wrap w x < 2 ^ (w - 1))%Z.
Proof.
  intros Hw. unfold wrap.
  assert (2 ^ w = 2 * 2 ^ (w - 1))%Z as E.
  { rewrite <-Z.pow_succ_r by lia. f_equal; lia. }
  assert (0 < 2 ^ (w - 1))%Z by (apply Z.pow_pos_nonneg; lia).
  pose proof (Z.mod_pos_bound (x + 2 ^ (w - 1)) (2 ^ w)). lia.
Qed.

Lemma int32_id x : (min_int32 ≤ x ≤ max_int32)%Z → int32 x = x.
Proof. unfold min_int32, max_int32, int32. intros. apply wrap_id; lia. Qed.
Lemma int64_id x : (min_int64 ≤ x ≤ max_int64)%Z → int64 x = x.
Proof. unfold min_int64, max_int64, int64. intros. apply wrap_id; lia. Qed.

(** ** Go maps

    A Go [map[string]T] is a [gmap string T]. Ranging over a map visits its
    entries in an unspecified order: [MapRange] is the order a run of the
    program happens to use, and the only thing known about it is that it is a
    permutation of the map's entries. Definitions that range over a map take
    the instance as a parameter, so their theorems hold for every order. *)
Class MapRange := map_range : ∀ {A : Type}, gmap string A → list (string * A).
Class MapRangeOk `{MapRange} : Prop :=
  map_range_perm : ∀ {A : Type} (m : gmap string A), map_range m ≡ₚ map_to_list m.

(** The order stdpp's own enumeration has, used to run the model. *)
Definition map_to_list_range : MapRange := λ A m, map_to_list m.
Lemma map_to_list_range_ok : @MapRangeOk map_to_list_range.
Proof. intros A m. reflexivity. Qed.

Section map_range.
Context `{MapRangeOk}.

Lemma elem_of_map_range {A} (m : gmap string A) k x :
  (k, x) ∈ map_range m ↔ m !! k = Some x.
Proof. rewrite (map_range_perm m). apply elem_of_map_to_list. Qed.

Lemma NoDup_fst_map_range {A} (m : gmap string A) : NoDup (map_range m).*1.
Proof. rewrite (map_range_perm m). apply NoDup_fst_map_to_list. Qed.

Lemma NoDup_map_range {A} (m : gmap string A) : NoDup (map_range m).
Proof. eapply NoDup_fmap_1, NoDup_fst_map_range. Qed.

Lemma length_map_range {A} (m : gmap string A) : length (map_range m) = size m.
Proof. rewrite (map_range_perm m). apply length_map_to_list. Qed.
End map_range.

(** ** Sorting

    [sort.Slice] with the order of a key: Go compares strings byte by byte. *)
Section sort_on.
Context {A K : Type} (R : relation K) `{!RelDecision R} (key : A → K).

Definition key_le : relation A := λ x y, R (key x) (key y).
Global Instance key_le_dec : RelDecision key_le.
Proof. intros x y. unfold key_le. apply _. Defined.
Definition sort_on : list A → list A := merge_sort key_le.

Lemma sort_on_perm l : sort_on l ≡ₚ l.
Proof. apply merge_sort_Permutation. Qed.

Lemma elem_of_sort_on x l : x ∈ sort_on l ↔ x ∈ l.
Proof. by rewrite sort_on_perm. Qed.

Lemma sort_on_sorted `{!Transitive R, !Total R} l :
  StronglySorted key_le (sort_on l).
Proof.
  assert (Transitive key_le) by (intros x y z; unfold key_le; by etrans).
  assert (Total key_le) by (intros x y; unfold key_le; apply (total R)).
  apply (StronglySorted_merge_sort key_le).
Qed.

Lemma sort_on_keys_sorted `{!Transitive R, !Total R} l : StronglySorted R (key <$> sort_on l).
Proof.
  induction (sort_on_sorted l) as [|x l' _ IH Hx]; [constructor|]. rewrite fmap_cons.
  constructor; [done|]. by apply Forall_fmap.
Qed.

Lemma NoDup_key_inj l x1 x2 : NoDup (key <$> l) → x1 ∈ l → x2 ∈ l → key x1 = key x2 → x1 = x2.
Proof.
  intros Hnd [i Hi]%list_elem_of_lookup [j Hj]%list_elem_of_lookup Hk.
  assert (i = j) as ->; [|congruence].
  eapply (NoDup_lookup (key <$> l)); rewrite ?list_lookup_fmap; [done|by rewrite Hi|].
  rewrite Hj; simpl. by rewrite Hk.
Qed.

(** Among the permutations of a list with distinct keys one is sorted. *)
Lemma sorted_unique `{!AntiSymm (=) R} l1 l2 :
  l1 ≡ₚ l2 → StronglySorted key_le l1 → StronglySorted key_le l2 → NoDup (key <$> l1) → l1 = l2.
Proof.
  intros Hp Hs1 Hs2 Hnd. apply (StronglySorted_unique_strong key_le); [|done..].
  intros x1 x2 Hx1 Hx2 H1 H2. rewrite <-Hp in Hx2.
  apply (NoDup_key_inj l1); [done..|]. by apply (anti_symm R).
Qed.

Lemma sort_on_unique `{!Transitive R, !Total R, !AntiSymm (=) R} l1 l2 :
  l1 ≡ₚ l2 → NoDup (key <$> l1) → sort_on l1 = sort_on l2.
Proof.
  intros Hp Hnd. apply sorted_unique; [by rewrite !sort_on_perm|apply sort_on_sorted..|by rewrite sort_on_perm].
Qed.
End sort_on.

(** ** Lists *)
Lemma list_filter_ext_in {A} (P Q : A → Prop) `{!∀ x, Decision (P x), !∀ x, Decision (Q x)} (l : list A) :
  (∀ x, x ∈ l → P x ↔ Q x) → filter P l = filter Q l.
Proof.
  induction l as [|x l IH]; intros Hl; [done|]. rewrite !filter_cons.
  rewrite IH by (intros; apply Hl; by right).
  pose proof (Hl x ltac:(by left)). repeat case_decide; tauto.
Qed.
Lemma list_filter_all {A} (P : A → Prop) `{!∀ x, Decision (P x)} (l : list A) :
  (∀ x, x ∈ l → P x) → filter P l = l.
Proof.
  induction l as [|x l IH]; intros Hl; [done|].
  rewrite filter_cons_True by (apply Hl; by left). f_equal. apply IH. intros. apply Hl. by right.
Qed.

Lemma sublist_StronglySorted {A} (R : relation A) (l1 l2 : list A) :
  StronglySorted R l2 → l1 `sublist_of` l2 → StronglySorted R l1.
Proof.
  intros Hs Hsub. induction Hsub as [|x l1 l2 Hsub IH|x l1 l2 Hsub IH];
    [constructor|..]; apply StronglySorted_inv in Hs as [Hs Hx]; [|by apply IH].
  constructor; [by apply IH|]. rewrite Forall_forall in *. intros y Hy. apply Hx.
  by eapply elem_of_sublist.
Qed.

Lemma StronglySorted_keys {A K} (R : relation K) (key : A → K) (l : list A) :
  StronglySorted R (key <$> l) → StronglySorted (λ x y, R (key x) (key y)) l.
Proof.
  induction l as [|x l IH]; [constructor|]. rewrite fmap_cons. intros [Hl Hx]%StronglySorted_inv.
  constructor; [by apply IH|]. exact (proj1 (Forall_fmap _ _ _) Hx).
Qed.
Lemma sort_on_eq {A K} (R : relation K) `{!RelDecision R, !Transitive R, !Total R, !AntiSymm (=) R} (key : A → K) l l' :
  l' ≡ₚ l → StronglySorted R (key <$> l') → NoDup (key <$> l) → l' = sort_on R key l.
Proof.
  intros Hp Hs Hnd. apply (sorted_unique R key); [by rewrite sort_on_perm| |apply sort_on_sorted; apply _|by rewrite Hp].
  by apply (StronglySorted_keys R key).
Qed.
Lemma merge_sort_idem {A} (R : relation A) `{!RelDecision R, !Transitive R, !Total R, !AntiSymm (=) R} l :
  merge_sort R (merge_sort R l) = merge_sort R l.
Proof.
  apply (StronglySorted_unique R); [by apply StronglySorted_merge_sort..|]. by rewrite merge_sort_Permutation.
Qed.
(** Entries written one after another into a map, with distinct keys. *)
Lemma foldl_insert_perm {A V} (k : A → string) (v : A → V) l :
  NoDup (k <$> l) →
  map_to_list (foldl (λ m x, <[k x := v x]> m) ∅ l : gmap string V) ≡ₚ (λ x, (k x, v x)) <$> l.
Proof.
  induction l as [|x l IH] using rev_ind; intros Hnd; [simpl; by rewrite map_to_list_empty|].
  rewrite foldl_snoc. rewrite !fmap_app in *. apply NoDup_app in Hnd as (Hnd & Hx & _).
  rewrite map_to_list_insert.
  - rewrite (IH Hnd). simpl. by rewrite Permutation_cons_append.
  - destruct (_ !! k x) as [w|] eqn:E; [|done]. apply elem_of_map_to_list in E. rewrite (IH Hnd) in E.
    apply list_elem_of_fmap in E as (y & [= E _] & Hy). destruct (Hx (k y)); [by apply list_elem_of_fmap_2|].
    rewrite <-E. set_solver.
Qed.
Lemma StronglySorted_seq m n : StronglySorted lt (seq m n).
Proof.
  revert m. induction n as [|n IH]; intros m; constructor; [apply IH|].
  apply Forall_forall. intros x [? _]%elem_of_seq. lia.
Qed.

(** A sorted list without repeated keys is strictly sorted. *)
Lemma StronglySorted_strict {A K} (R R' : relation A) (key : A → K) (l : list A) :
  (∀ x y, R x y → key x ≠ key y → R' x y) → NoDup (key <$> l) →
  StronglySorted R l → StronglySorted R' l.
Proof.
  intros HR. induction l as [|x l IH]; intros Hnd Hs; [constructor|].
  apply StronglySorted_inv in Hs as [Hs Hx]. rewrite fmap_cons, NoDup_cons in Hnd.
  destruct Hnd as [Hn Hnd]. constructor; [by apply IH|]. rewrite Forall_forall in *.
  intros y Hy. apply HR; [by apply Hx|]. intros E. apply Hn. rewrite E. apply list_elem_of_fmap. eauto.
Qed.

(** ** Pointers to strings

    [*string] is [option string]; these are the three helpers every package
    of the server uses. *)
Definition opt_str_eqb (a : option string) (s : string) : bool :=
  match a with Some x => bool_decide (x = s) | None => false end.

(** ** [sort.Slice]

    The order of elements neither of which is less than the other is
    unspecified: [SortSlice] is the order a run happens to produce, and all
    that is known is that it is a permutation, with no descent provided [less]
    is a strict weak order. *)
Class SortSlice := sort_slice : ∀ {A : Type}, (A → A → bool) → list A → list A.
Definition strict_weak {A} (less : A → A → bool) : Prop :=
  (∀ x, less x x = false)
  ∧ (∀ x y z, less x y = true → less y z = true → less x z = true)
  ∧ (∀ x y z, less y x = false → less z y = false → less z x = false).
Class SortSliceOk `{SortSlice} : Prop := {
  sort_slice_perm : ∀ {A} (less : A → A → bool) l, sort_slice less l ≡ₚ l;
  sort_slice_sorted : ∀ {A} (less : A → A → bool) l, strict_weak less →
    StronglySorted (λ x y, less y x = false) (sort_slice less l) }.

(** A sort that keeps the order of equals, used to run the model. *)
Definition stable_sort : SortSlice := λ A less,
  @merge_sort A (λ x y, less y x = false) (λ x y, bool_eq_dec (less y x) false).
Lemma stable_sort_ok : @SortSliceOk stable_sort.
Proof.
  split; intros A less l; [apply merge_sort_Permutation|]. intros (Hi & Ht & Hw).
  assert (Transitive (λ x y, less y x = false)) by (intros x y z; apply Hw).
  assert (Total (λ x y, less y x = false)).
  { intros x y. destruct (less y x) eqn:E1; [|by left]. right.
    destruct (less x y) eqn:E2; [|done]. pose proof (Ht _ _ _ E1 E2) as E. by rewrite Hi in E. }
  by apply StronglySorted_merge_sort.
Qed.

Lemma StronglySorted_compare {A} (R : relation A) l x y :
  StronglySorted R l → x ∈ l → y ∈ l → x = y ∨ R x y ∨ R y x.
Proof.
  induction 1 as [|a l Hl IH Ha]; [by intros ?%not_elem_of_nil|]. rewrite Forall_forall in Ha.
  intros [->|Hx]%elem_of_cons [->|Hy]%elem_of_cons; auto.
Qed.
(** What is strictly sorted already is the result for all its permutations. *)
Lemma sort_slice_unique `{SortSliceOk} {A} (less : A → A → bool) l1 l2 :
  strict_weak less → StronglySorted (λ x y, less x y = true) l2 → l1 ≡ₚ l2 → sort_slice less l1 = l2.
Proof.
  intros Hw Hs Hp. assert (sort_slice less l1 ≡ₚ l2) as Hp1.
  { etrans; [apply sort_slice_perm|done]. }
  apply (StronglySorted_unique_strong (λ x y, less y x = false)); [|by apply sort_slice_sorted| |done].
  - intros x y Hx Hy Hxy Hyx. rewrite Hp1 in Hx.
    destruct (StronglySorted_compare _ _ _ _ Hs Hx Hy) as [?|[?|?]]; congruence.
  - destruct Hw as (Hi & Ht & _). clear -Hs Hi Ht. induction Hs as [|a l Hl IH Ha]; constructor; [done|].
    eapply Forall_impl; [exact Ha|]. intros b Hb. simpl in Hb. destruct (less b a) eqn:E; [|done].
    pose proof (Ht _ _ _ Hb E) as Hc. by rewrite Hi in Hc.
Qed.

(** ** Tactics *)

(** Inverts an equation between results, options, pairs or records built from
    a chain of binds and conditionals. *)
Ltac go_inv_step :=
  match goal with
  | H : Ok _ = Ok _ |- _ => injection H as H; try subst
  | H : Err _ = Err _ |- _ => injection H as H; try subst
  | H : Ok _ = Err _ |- _ => discriminate H
  | H : Err _ = Ok _ |- _ => discriminate H
  | H : result_bind _ _ = Ok _ |- _ =>
      apply result_bind_Ok in H; destruct H as (? & ? & H)
  | H : result_map _ ?r = Ok _ |- _ => destruct r eqn:?; simpl in H
  | H : (if ?b then _ else _) = Ok _ |- _ => destruct b eqn:?
  | H : (if ?b then _ else _) = Err _ |- _ => destruct b eqn:?
  | H : (match ?o with Some _ => _ | None => _ end) = Ok _ |- _ => destruct o eqn:?
  | H : (match ?o with Some _ => _ | None => _ end) = Err _ |- _ => destruct o eqn:?
  | H : (match ?o with Ok _ => _ | Err _ => _ end) = Ok _ |- _ => destruct o eqn:?
  | H : (match ?o with Ok _ => _ | Err _ => _ end) = Err _ |- _ => destruct o eqn:?
  end.
Ltac go_inv := repeat (go_inv_step; simplify_eq/=).

(** Turns boolean tests into propositions. *)
Ltac bool_prop :=
  repeat match goal with
  | H : bool_decide _ = true |- _ => apply bool_decide_eq_true in H
  | H : bool_decide _ = false |- _ => apply bool_decide_eq_false in H
  | H : andb _ _ = true |- _ => apply andb_true_iff in H as [? ?]
  | H : orb _ _ = false |- _ => apply orb_false_iff in H as [? ?]
  | H : negb _ = true |- _ => apply negb_true_iff in H
  | H : negb _ = false |- _ => apply negb_false_iff in H
  | H : (_ <=? _)%Z = true |- _ => apply Z.leb_le in H
  | H : (_ <=? _)%Z = false |- _ => apply Z.leb_gt in H
  | H : (_ <? _)%Z = true |- _ => apply Z.ltb_lt in H
  | H : (_ <? _)%Z = false |- _ => apply Z.ltb_ge in H
  | H : (_ =? _)%Z = true |- _ => apply Z.eqb_eq in H
  | H : (_ =? _)%Z = false |- _ => apply Z.eqb_neq in H
  end.

Create HintDb decree.
