(* ===== verification/GoText.v ===== *)
(** * Text conversions of the Go standard library

    What the server uses of [strconv], [strings], [unicode/utf8] and
    [encoding/base64]. A Go string is a sequence of bytes: a [string] of
    [ascii] characters, one per byte. *)
From S2P Require Import Prelude.
From Stdlib Require Import Ascii.

(** ** Bytes *)
Definition byte_val (c : ascii) : Z := Z.of_N (N_of_ascii c).
Definition byte_of (z : Z) : ascii := ascii_of_N (Z.to_N z).

Lemma byte_val_range c : (0 ≤ byte_val c < 256)%Z.
Proof. unfold byte_val. pose proof (N_ascii_bounded c). lia. Qed.
Lemma byte_of_val c : byte_of (byte_val c) = c.
Proof. unfold byte_of, byte_val. by rewrite N2Z.id, ascii_N_embedding. Qed.
Lemma byte_val_of z : (0 ≤ z < 256)%Z → byte_val (byte_of z) = z.
Proof.
  intros. unfold byte_of, byte_val. rewrite N_ascii_embedding by lia. lia.
Qed.
Global Instance byte_val_inj : Inj (=) (=) byte_val.
Proof. intros a b H. rewrite <-(byte_of_val a), H. apply byte_of_val. Qed.

(** ** [len], concatenation *)
Abbreviation str_len := String.length.

Lemma str_app_assoc (a b c : string) : (a +:+ b) +:+ c = a +:+ (b +:+ c).
Proof. induction a; [done|]. unfold String.append; fold String.append. by f_equal. Qed.
Lemma str_app_nil_r (a : string) : a +:+ "" = a.
Proof. induction a; [done|]. unfold String.append; fold String.append. by f_equal. Qed.
Lemma str_len_app (a b : string) : str_len (a +:+ b) = str_len a + str_len b.
Proof. induction a; [done|]. unfold String.append; fold String.append. simpl. by f_equal. Qed.
Lemma str_app_single c (b : string) : String c "" +:+ b = String c b.
Proof. done. Qed.
Lemma str_app_cons c (a b : string) : String c a +:+ b = String c (a +:+ b).
Proof. done. Qed.

(** ** [strconv.FormatInt] / [FormatUint] in base 10 and 16 *)
Definition digit_char (d : Z) : ascii :=
  byte_of (if (d <? 10)%Z then 48 + d else 87 + d).

Fixpoint format_go (fuel : nat) (base x : Z) (acc : string) : string :=
  match fuel with
  | O => acc
  | S fuel =>
      if (x =? 0)%Z then acc
      else format_go fuel base (x `div` base) (String (digit_char (x `mod` base)) acc)
  end.

(** One digit is produced per division, and the fuel is the number's bit
    length: enough for every base from 2 on. *)
Definition FormatUint (x base : Z) : string :=
  if (x =? 0)%Z then "0" else format_go (Z.to_nat (Z.log2 x + 1)) base x "".
Definition FormatInt (x base : Z) : string :=
  if (x <? 0)%Z then "-" +:+ FormatUint (- x) base else FormatUint x base.

(** [fmt]'s [%d]. *)
Definition itoa (x : Z) : string := FormatInt x 10.

(** ** [strconv.ParseInt] *)
Inductive NumError := ErrSyntax | ErrRange.
Global Instance NumError_eq_dec : EqDecision NumError.
Proof. solve_decision. Defined.

Definition digit_val (c : ascii) : option Z :=
  let z := byte_val c in
  if ((48 <=? z) && (z <=? 57))%Z then Some (z - 48)%Z else None.

(** The digit loop of [ParseUint] in base 10: it stops at the first byte that
    is not a digit and at the first overflow, whichever comes first. *)
Fixpoint parse_uint_go (maxVal : Z) (s : string) (n : Z) : result NumError Z :=
  match s with
  | "" => Ok n
  | String c s =>
      match digit_val c with
      | None => Err ErrSyntax
      | Some d =>
          if ((2 ^ 64 - 1) `div` 10 + 1 <=? n)%Z then Err ErrRange
          else if (maxVal <? n * 10 + d)%Z then Err ErrRange
          else parse_uint_go maxVal s (n * 10 + d)%Z
      end
  end.

Definition ParseUint (s : string) (bitSize : Z) : Z * option NumError :=
  match s with
  | "" => (0, Some ErrSyntax)%Z
  | _ =>
      match parse_uint_go (2 ^ bitSize - 1) s 0 with
      | Ok n => (n, None)
      | Err ErrSyntax => (0%Z, Some ErrSyntax)
      | Err ErrRange => ((2 ^ bitSize - 1)%Z, Some ErrRange)
      end
  end.

Definition split_sign (s : string) : bool * string :=
  match s with
  | String c rest =>
      if bool_decide (c = "+"%char) then (false, rest)
      else if bool_decide (c = "-"%char) then (true, rest)
      else (false, s)
  | "" => (false, s)
  end.

(** [ParseInt s 10 bitSize]: the value and the error are both returned, the
    value being 0 on a syntax error and the nearest bound on a range error. *)
Definition ParseInt (s : string) (bitSize : Z) : Z * option NumError :=
  match s with
  | "" => (0%Z, Some ErrSyntax)
  | _ =>
      let '(neg, digits) := split_sign s in
      let '(un, err) := ParseUint digits bitSize in
      if bool_decide (err = Some ErrSyntax) then (0%Z, Some ErrSyntax)
      else
        let cutoff := (2 ^ (bitSize - 1))%Z in
        if (negb neg && (cutoff <=? un)%Z)%bool then ((cutoff - 1)%Z, Some ErrRange)
        else if (neg && (cutoff <? un)%Z)%bool then ((- cutoff)%Z, Some ErrRange)
        else ((if neg then - un else un)%Z, None)
  end.

(** A successful parse is within the width. *)
Lemma parse_uint_go_nonneg maxVal s n x :
  (0 ≤ n)%Z → parse_uint_go maxVal s n = Ok x → (0 ≤ x)%Z.
Proof.
  revert n. induction s as [|c s IH]; intros n Hn; cbn [parse_uint_go]; [by intros [= <-]|].
  unfold digit_val. destruct (_ && _)%bool eqn:Hd; [|done]. bool_prop.
  repeat (destruct (_ <=? _)%Z || destruct (_ <? _)%Z; [done|]). apply IH. lia.
Qed.
Lemma ParseInt_range s w x :
  (0 < w)%Z → ParseInt s w = (x, None) → (- 2 ^ (w - 1) ≤ x < 2 ^ (w - 1))%Z.
Proof.
  intros Hw. unfold ParseInt. destruct s as [|c s]; [done|].
  destruct (split_sign _) as [neg digits]. destruct (ParseUint digits w) as [un err] eqn:Hp.
  assert (err ≠ Some ErrSyntax → 0 ≤ un)%Z as Hun.
  { unfold ParseUint in Hp. destruct digits as [|c' d]; [by simplify_eq|].
    destruct (parse_uint_go _ _ _) as [n|[]] eqn:Hg; simplify_eq; try done.
    - intros _. by eapply parse_uint_go_nonneg in Hg.
    - intros _. assert (0 < 2 ^ w)%Z by (apply Z.pow_pos_nonneg; lia). lia. }
  case_bool_decide as He; [done|]. specialize (Hun He).
  assert (0 < 2 ^ (w - 1))%Z by (apply Z.pow_pos_nonneg; lia).
  destruct neg; cbn [negb andb]; [destruct (_ <? un)%Z eqn:Hc|destruct (_ <=? un)%Z eqn:Hc];
    try done; bool_prop; intros [= <-]; lia.
Qed.

(** ** Decimal round trip *)
Lemma digit_val_char d : (0 ≤ d < 10)%Z → digit_val (digit_char d) = Some d.
Proof.
  intros Hd. unfold digit_val, digit_char.
  destruct (d <? 10)%Z eqn:E; bool_prop; [|lia].
  rewrite byte_val_of by lia.
  destruct (48 <=? 48 + d)%Z eqn:E1; bool_prop; [|lia].
  destruct (48 + d <=? 57)%Z eqn:E2; bool_prop; [simpl; f_equal; lia|lia].
Qed.

Lemma parse_format_go maxVal fuel x acc :
  (maxVal ≤ 2 ^ 64 - 1)%Z → (0 ≤ x ≤ maxVal)%Z → (x < 10 ^ Z.of_nat fuel)%Z →
  parse_uint_go maxVal (format_go fuel 10 x acc) 0 = parse_uint_go maxVal acc x.
Proof.
  intros Hm. revert x acc. induction fuel as [|fuel IH]; intros x acc Hx Hf.
  { simpl. by replace x with 0%Z by lia. }
  cbn [format_go]. destruct (x =? 0)%Z eqn:E; bool_prop; [by subst|].
  pose proof (Z.div_mod x 10 ltac:(lia)). pose proof (Z.mod_pos_bound x 10 ltac:(lia)).
  assert (x `div` 10 < 10 ^ Z.of_nat fuel)%Z.
  { apply Z.div_lt_upper_bound; [lia|]. rewrite <-Z.pow_succ_r by lia.
    by rewrite <-Nat2Z.inj_succ. }
  assert (x `div` 10 ≤ (2 ^ 64 - 1) `div` 10)%Z by (apply Z.div_le_mono; lia).
  assert (0 ≤ x `div` 10)%Z by (apply Z.div_pos; lia).
  rewrite IH by lia.
  cbn [parse_uint_go]. rewrite digit_val_char by lia.
  destruct (_ <=? _)%Z eqn:E1; bool_prop; [lia|].
  destruct (maxVal <? _)%Z eqn:E2; bool_prop; [lia|].
  f_equal. lia.
Qed.

Lemma log2_fuel x : (0 < x)%Z → (x < 10 ^ Z.of_nat (Z.to_nat (Z.log2 x + 1)))%Z.
Proof.
  intros Hx. pose proof (Z.log2_spec x Hx). pose proof (Z.log2_nonneg x).
  rewrite Z2Nat.id by lia.
  apply Z.lt_le_trans with (2 ^ (Z.log2 x + 1))%Z; [lia|].
  apply Z.pow_le_mono_l. lia.
Qed.

Lemma parse_uint_FormatUint maxVal x :
  (maxVal ≤ 2 ^ 64 - 1)%Z → (0 ≤ x ≤ maxVal)%Z →
  parse_uint_go maxVal (FormatUint x 10) 0 = Ok x.
Proof.
  intros Hm Hx. unfold FormatUint. destruct (x =? 0)%Z eqn:E; bool_prop.
  - subst. cbn [parse_uint_go]. change (digit_val "0"%char) with (Some 0%Z).
    destruct (_ <=? 0)%Z eqn:E1; [vm_compute in E1; discriminate|].
    destruct (maxVal <? _)%Z eqn:E2; bool_prop; [lia|done].
  - rewrite parse_format_go; [done|lia|lia|]. apply log2_fuel. lia.
Qed.

Lemma format_go_app fuel b x acc :
  ∃ p, format_go fuel b x acc = p +:+ acc.
Proof.
  revert x acc. induction fuel as [|fuel IH]; intros x acc; [by exists ""|].
  cbn [format_go]. destruct (x =? 0)%Z; [by exists ""|].
  destruct (IH (x `div` b)%Z (String (digit_char (x `mod` b)) acc)) as [p ->].
  exists (p +:+ String (digit_char (x `mod` b)) ""). by rewrite str_app_assoc.
Qed.

(** Every byte of a formatted number is a digit of the base. *)
Fixpoint all_bytes (P : ascii → bool) (s : string) : bool :=
  match s with "" => true | String c s => P c && all_bytes P s end.

Lemma all_bytes_app P s t : all_bytes P (s +:+ t) = all_bytes P s && all_bytes P t.
Proof.
  induction s as [|c s IH]; [done|].
  rewrite str_app_cons. cbn [all_bytes]. by rewrite IH, andb_assoc.
Qed.

Lemma format_go_all P fuel b x acc :
  (∀ d, (0 ≤ d < b)%Z → P (digit_char d) = true) → (0 < b)%Z →
  all_bytes P acc = true → all_bytes P (format_go fuel b x acc) = true.
Proof.
  intros HP Hb. revert x acc. induction fuel as [|fuel IH]; intros x acc Hacc; [done|].
  cbn [format_go]. destruct (x =? 0)%Z; [done|]. apply IH. cbn [all_bytes].
  rewrite HP, Hacc by (apply Z.mod_pos_bound; lia). done.
Qed.

Definition is_digit (c : ascii) : bool :=
  match digit_val c with Some _ => true | None => false end.

Lemma FormatUint_digits x : all_bytes is_digit (FormatUint x 10) = true.
Proof.
  unfold FormatUint. destruct (x =? 0)%Z; [done|].
  apply format_go_all; [|lia|done]. intros d Hd. unfold is_digit.
  by rewrite digit_val_char.
Qed.

Lemma FormatUint_nonempty x b : (0 ≤ x)%Z → FormatUint x b ≠ "".
Proof.
  intros Hx. unfold FormatUint. destruct (x =? 0)%Z eqn:E; bool_prop; [done|].
  assert (∃ n, Z.to_nat (Z.log2 x + 1) = S n) as [n ->].
  { pose proof (Z.log2_nonneg x). exists (Z.to_nat (Z.log2 x)). lia. }
  cbn [format_go]. destruct (x =? 0)%Z eqn:E2; bool_prop; [lia|].
  destruct (format_go_app n b (x `div` b)%Z (String (digit_char (x `mod` b)) "")) as [[|c p] ->];
    done.
Qed.

Lemma split_sign_digits s :
  all_bytes is_digit s = true → split_sign s = (false, s).
Proof.
  destruct s as [|c s]; [done|]. cbn [all_bytes split_sign]. intros H.
  apply andb_true_iff in H as [H _].
  destruct (bool_decide_reflect (c = "+"%char)) as [->|]; [done|].
  by destruct (bool_decide_reflect (c = "-"%char)) as [->|].
Qed.

(** The value printed with [FormatInt] is read back unchanged by [ParseInt]
    of the same width. *)
Lemma ParseInt_FormatInt w x :
  (0 < w ≤ 64)%Z → (- 2 ^ (w - 1) ≤ x < 2 ^ (w - 1))%Z →
  ParseInt (FormatInt x 10) w = (x, None).
Proof.
  intros Hw Hx.
  assert (2 ^ w = 2 * 2 ^ (w - 1))%Z as Ew.
  { rewrite <-Z.pow_succ_r by lia. f_equal; lia. }
  assert (2 ^ w ≤ 2 ^ 64)%Z by (apply Z.pow_le_mono_r; lia).
  assert (∀ y, (0 ≤ y ≤ 2 ^ w - 1)%Z → ParseUint (FormatUint y 10) w = (y, None)) as HU.
  { intros y Hy. unfold ParseUint.
    destruct (FormatUint y 10) as [|c s] eqn:E.
    { by destruct (FormatUint_nonempty y 10 ltac:(lia)). }
    rewrite <-E, parse_uint_FormatUint by lia. done. }
  unfold FormatInt. destruct (x <? 0)%Z eqn:Ex; bool_prop.
  - change ("-" +:+ FormatUint (- x) 10) with (String "-"%char (FormatUint (- x) 10)).
    unfold ParseInt. change (split_sign (String "-" _)) with (true, FormatUint (- x) 10).
    cbv beta iota. rewrite (HU (- x)%Z) by lia.
    rewrite bool_decide_eq_false_2 by done. cbn [negb andb].
    destruct (_ <? _)%Z eqn:E1; bool_prop; [lia|]. simpl. f_equal. lia.
  - unfold ParseInt. destruct (FormatUint x 10) as [|c s] eqn:E.
    { by destruct (FormatUint_nonempty x 10 ltac:(lia)). }
    rewrite <-E, split_sign_digits, HU by (try apply FormatUint_digits; lia).
    rewrite bool_decide_eq_false_2 by done. cbn [negb andb].
    destruct (_ <=? _)%Z eqn:E1; bool_prop; [lia|]. done.
Qed.

(** ** [strconv.FormatBool], [strconv.ParseBool] *)
Definition FormatBool (b : bool) : string := if b then "true" else "false".
Definition ParseBool (s : string) : bool * option NumError :=
  if bool_decide (s ∈ ["1"; "t"; "T"; "TRUE"; "true"; "True"]) then (true, None)
  else if bool_decide (s ∈ ["0"; "f"; "F"; "FALSE"; "false"; "False"]) then (false, None)
  else (false, Some ErrSyntax).

Lemma ParseBool_FormatBool b : ParseBool (FormatBool b) = (b, None).
Proof. by destruct b. Qed.

(** ** [strings]: [HasPrefix], [Cut], [SplitN], [Split], [Contains] *)
Definition HasPrefix (s prefix : string) : bool := String.prefix prefix s.

Fixpoint cut_char (c : ascii) (s : string) : option (string * string) :=
  match s with
  | "" => None
  | String a s =>
      if bool_decide (a = c) then Some ("", s)
      else match cut_char c s with
           | Some (x, y) => Some (String a x, y)
           | None => None
           end
  end.

Fixpoint SplitN (n : nat) (c : ascii) (s : string) : list string :=
  match n with
  | O => []
  | S O => [s]
  | S n =>
      match cut_char c s with
      | None => [s]
      | Some (x, y) => x :: SplitN n c y
      end
  end.

Fixpoint count_char (c : ascii) (s : string) : nat :=
  match s with
  | "" => 0
  | String a s => (if bool_decide (a = c) then 1 else 0) + count_char c s
  end.
Definition Split (c : ascii) (s : string) : list string := SplitN (S (count_char c s)) c s.

Fixpoint Contains (s sub : string) : bool :=
  HasPrefix s sub || match s with "" => false | String _ s => Contains s sub end.

Lemma count_char_app c x y : count_char c (x +:+ y) = (count_char c x + count_char c y)%nat.
Proof. induction x as [|a x IH]; [done|]. rewrite str_app_cons. cbn [count_char]. rewrite IH. lia. Qed.

Lemma HasPrefix_app p s : HasPrefix (p +:+ s) p = true.
Proof.
  unfold HasPrefix. induction p as [|c p IH]; [by destruct s|].
  rewrite str_app_cons. cbn [String.prefix]. destruct (ascii_dec c c); done.
Qed.

Lemma HasPrefix_spec s p : HasPrefix s p = true ↔ ∃ t, s = p +:+ t.
Proof.
  split; [|intros [t ->]; apply HasPrefix_app].
  revert s. unfold HasPrefix. induction p as [|c p IH]; intros s; [by exists s|].
  destruct s as [|a s]; [done|]. cbn [String.prefix].
  destruct (ascii_dec c a) as [->|]; [|done]. intros [t ->]%IH. by exists t.
Qed.

Definition no_char (c : ascii) (s : string) : bool :=
  all_bytes (λ a, negb (bool_decide (a = c))) s.

Lemma cut_char_app c x y : no_char c x = true → cut_char c (x +:+ String c y) = Some (x, y).
Proof.
  unfold no_char. induction x as [|a x IH]; cbn [all_bytes]; intros H.
  { change ("" +:+ String c y) with (String c y). cbn [cut_char].
    by rewrite bool_decide_eq_true_2. }
  apply andb_true_iff in H as [H1 H2]. apply negb_true_iff in H1.
  rewrite str_app_cons. cbn [cut_char]. by rewrite H1, IH.
Qed.

Lemma cut_char_none c x : no_char c x = true → cut_char c x = None.
Proof.
  unfold no_char. induction x as [|a x IH]; cbn [all_bytes cut_char]; intros H; [done|].
  apply andb_true_iff in H as [H1 H2]. apply negb_true_iff in H1. by rewrite H1, IH.
Qed.

Lemma no_char_digits c s : is_digit c = false → all_bytes is_digit s = true → no_char c s = true.
Proof.
  unfold no_char. intros Hc. induction s as [|a s IH]; cbn [all_bytes]; [done|].
  intros H. apply andb_true_iff in H as [H1 H2]. rewrite IH by done.
  rewrite bool_decide_eq_false_2 by congruence. done.
Qed.

Lemma no_char_itoa c x : is_digit c = false → c ≠ "-"%char → no_char c (itoa x) = true.
Proof.
  intros Hc Hm. unfold itoa, FormatInt. destruct (x <? 0)%Z.
  - change ("-" +:+ FormatUint (- x) 10) with (String "-"%char (FormatUint (- x) 10)).
    unfold no_char. cbn [all_bytes]. rewrite bool_decide_eq_false_2 by done.
    apply no_char_digits; [done|apply FormatUint_digits].
  - apply no_char_digits; [done|apply FormatUint_digits].
Qed.

(** ** [unicode/utf8]: the runes of a string

    Each rune is paired with the bytes it was read from. A byte that does not
    start a valid encoding is the rune U+FFFD and consumes one byte, as in
    [utf8.DecodeRuneInString]. *)
Definition RuneError : Z := 65533.
Definition in_range (lo hi : Z) (c : ascii) : bool :=
  ((lo <=? byte_val c) && (byte_val c <=? hi))%Z.

(** Bounds of the second byte for each class of first byte. *)
Definition second_bounds (b0 : Z) : Z * Z :=
  (if (b0 =? 0xE0)%Z then (0xA0, 0xBF)
   else if (b0 =? 0xED)%Z then (0x80, 0x9F)
   else if (b0 =? 0xF0)%Z then (0x90, 0xBF)
   else if (b0 =? 0xF4)%Z then (0x80, 0x8F)
   else (0x80, 0xBF))%Z.

Fixpoint runes (s : string) : list (Z * string) :=
  match s with
  | "" => []
  | String a s1 =>
      let bad := (RuneError, String a "") in
      let b0 := byte_val a in
      if (b0 <? 0x80)%Z then (b0, String a "") :: runes s1
      else if (b0 <? 0xC2)%Z then bad :: runes s1
      else if (0xF4 <? b0)%Z then bad :: runes s1
      else
        let '(lo, hi) := second_bounds b0 in
        match s1 with
        | "" => bad :: runes s1
        | String b s2 =>
            if negb (in_range lo hi b) then bad :: runes s1
            else if (b0 <? 0xE0)%Z then
              (Z.lor (Z.shiftl (Z.land b0 0x1F) 6) (Z.land (byte_val b) 0x3F),
               String a (String b "")) :: runes s2
            else
              match s2 with
              | "" => bad :: runes s1
              | String c s3 =>
                  if negb (in_range 0x80 0xBF c) then bad :: runes s1
                  else if (b0 <? 0xF0)%Z then
                    (Z.lor (Z.shiftl (Z.land b0 0x0F) 12)
                       (Z.lor (Z.shiftl (Z.land (byte_val b) 0x3F) 6) (Z.land (byte_val c) 0x3F)),
                     String a (String b (String c ""))) :: runes s3
                  else
                    match s3 with
                    | "" => bad :: runes s1
                    | String d s4 =>
                        if negb (in_range 0x80 0xBF d) then bad :: runes s1
                        else
                          (Z.lor (Z.shiftl (Z.land b0 0x07) 18)
                             (Z.lor (Z.shiftl (Z.land (byte_val b) 0x3F) 12)
                                (Z.lor (Z.shiftl (Z.land (byte_val c) 0x3F) 6)
                                   (Z.land (byte_val d) 0x3F))),
                           String a (String b (String c (String d "")))) :: runes s4
                    end
              end
        end
  end.

Definition RuneCountInString (s : string) : Z := Z.of_nat (length (runes s)).

(** [strings.TrimSpace]: drops leading and trailing runes for which
    [unicode.IsSpace] holds. *)
Definition IsSpace (r : Z) : bool :=
  (((9 <=? r) && (r <=? 13)) || (r =? 32) || (r =? 0x85) || (r =? 0xA0) || (r =? 0x1680)
   || ((0x2000 <=? r) && (r <=? 0x200A)) || (r =? 0x2028) || (r =? 0x2029) || (r =? 0x202F)
   || (r =? 0x205F) || (r =? 0x3000))%Z%bool.

Fixpoint drop_space (l : list (Z * string)) : list (Z * string) :=
  match l with
  | [] => []
  | (r, b) :: l' => if IsSpace r then drop_space l' else l
  end.

Definition TrimSpace (s : string) : string :=
  foldr (λ p acc, p.2 +:+ acc) "" (reverse (drop_space (reverse (drop_space (runes s))))).

Example TrimSpace_ex : TrimSpace "  a b  " = "a b".
Proof. reflexivity. Qed.
Example runes_bad_ex : fst <$> runes (String (byte_of 0xE2) "a") = [RuneError; 97%Z].
Proof. vm_compute. reflexivity. Qed.

(** ** Printed numbers are distinct *)
Fixpoint digits_value (s : string) (n : Z) : Z :=
  match s with
  | "" => n
  | String c s => digits_value s (n * 10 + default 0%Z (digit_val c))
  end.

Lemma digits_value_format fuel x acc :
  (0 ≤ x < 10 ^ Z.of_nat fuel)%Z →
  digits_value (format_go fuel 10 x acc) 0 = digits_value acc x.
Proof.
  revert x acc. induction fuel as [|fuel IH]; intros x acc Hx.
  { simpl. by replace x with 0%Z by (simpl in Hx; lia). }
  cbn [format_go]. destruct (x =? 0)%Z eqn:E; bool_prop; [by subst|].
  pose proof (Z.div_mod x 10 ltac:(lia)). pose proof (Z.mod_pos_bound x 10 ltac:(lia)).
  rewrite IH.
  - cbn [digits_value]. rewrite digit_val_char by lia. f_equal. simpl. lia.
  - split; [apply Z.div_pos; lia|]. apply Z.div_lt_upper_bound; [lia|].
    rewrite <-Z.pow_succ_r by lia. rewrite <-Nat2Z.inj_succ. lia.
Qed.

Lemma digits_value_FormatUint x : (0 ≤ x)%Z → digits_value (FormatUint x 10) 0 = x.
Proof.
  intros Hx. unfold FormatUint. destruct (x =? 0)%Z eqn:E; bool_prop; [by subst|].
  rewrite digits_value_format; [done|]. pose proof (log2_fuel x). lia.
Qed.

Lemma itoa_inj x y : itoa x = itoa y → x = y.
Proof.
  assert (∀ a b, (0 ≤ a)%Z → (0 ≤ b)%Z → FormatUint a 10 = FormatUint b 10 → a = b) as HU.
  { intros a b Ha Hb E. rewrite <-(digits_value_FormatUint a), E by done.
    by apply digits_value_FormatUint. }
  assert (∀ a b, String "-"%char (FormatUint a 10) ≠ FormatUint b 10) as HN.
  { intros a b E. pose proof (FormatUint_digits b) as H. rewrite <-E in H. done. }
  unfold itoa, FormatInt.
  destruct (x <? 0)%Z eqn:Ex, (y <? 0)%Z eqn:Ey; bool_prop;
    rewrite ?(str_app_single "-"); intros E.
  - injection E as E. apply HU in E; lia.
  - by apply HN in E.
  - symmetry in E. by apply HN in E.
  - by apply HU.
Qed.

(** The last occurrence of a separator splits a string in one way. *)
Lemma last_sep_inj c a1 a2 b1 b2 :
  no_char c b1 = true → no_char c b2 = true →
  a1 +:+ String c b1 = a2 +:+ String c b2 → a1 = a2 ∧ b1 = b2.
Proof.
  assert (∀ a b, no_char c (a +:+ String c b) = false) as Hn.
  { intros a b. unfold no_char. rewrite all_bytes_app. cbn [all_bytes].
    rewrite bool_decide_eq_true_2 by done. simpl. by rewrite andb_false_r. }
  intros H1 H2. revert a2. induction a1 as [|x a1 IH]; intros [|y a2] E.
  - by simplify_eq.
  - change ("" +:+ String c b1) with (String c b1) in E. rewrite str_app_cons in E.
    simplify_eq. by rewrite Hn in H1.
  - change ("" +:+ String c b2) with (String c b2) in E. rewrite str_app_cons in E.
    simplify_eq. by rewrite Hn in H2.
  - rewrite !str_app_cons in E. injection E as -> E.
    apply IH in E as [-> ->]. done.
Qed.
