(* ===== verification/Retry.v ===== *)
(** * Retry: the retry engine of the client SDKs

    [sdk/retry/retry.go]: exponential backoff on 64-bit durations and the loop
    around one call. Errors are Go's chains of wrapped errors, so that
    [IsRetryable] is [errors.As]. The call that is retried and the wait between
    two attempts act on a world of the caller's: the wait stands for the
    [select] between the context and [time.After] and says which branch was
    taken, and [rand.Int64N] is a parameter. *)
From stdpp Require Import base list numbers strings.
From S2P Require Import Prelude.

Local Open Scope Z_scope.

(** ** Errors *)
Inductive go_error : Type :=
  | RetryableError (Err : option go_error)
  | ContextError (msg : string)
  | LeafError (msg : string)
  | WrapError (msg : string) (inner : go_error)
  | JoinError (errs : list go_error).

(** [errors.As] with a [*RetryableError] as target walks the chain, and the
    branches of a join in depth-first order. *)
Fixpoint IsRetryable (err : go_error) : bool :=
  match err with
  | RetryableError _ => true
  | ContextError _ | LeafError _ => false
  | WrapError _ inner => IsRetryable inner
  | JoinError errs => existsb IsRetryable errs
  end.

(** ** Configuration *)
Record Config := {
  MaxAttempts : Z;
  InitialBackoff : Z;
  MaxBackoff : Z;
  Jitter : bool;
  RetryableCheck : option (go_error → bool);
}.

Definition millisecond : Z := 1000000.
Definition second : Z := 1000 * millisecond.

Definition WithDefaults (c : Config) : Config := {|
  MaxAttempts := if bool_decide (c.(MaxAttempts) ≤ 0) then 3 else c.(MaxAttempts);
  InitialBackoff := if bool_decide (c.(InitialBackoff) ≤ 0) then 100 * millisecond else c.(InitialBackoff);
  MaxBackoff := if bool_decide (c.(MaxBackoff) ≤ 0) then 5 * second else c.(MaxBackoff);
  Jitter := c.(Jitter);
  RetryableCheck := Some (default IsRetryable c.(RetryableCheck));
|}.

(** ** Backoff *)

(** The duration before jitter. *)
Definition backoff_base (attempt initial max : Z) : Z :=
  let shift := if bool_decide (attempt < 0) then 0 else attempt in
  let shift := if bool_decide (62 < shift) then 62 else shift in
  let backoff :=
    if bool_decide (0 < shift) && bool_decide (Z.shiftr max_int64 shift < initial)
    then max else int64 (Z.shiftl initial shift) in
  if bool_decide (max < backoff) || bool_decide (backoff < 0) then max else backoff.

Section Backoff.
Context {W : Type}.
(** [rand.Int64N]; it panics on an argument that is not positive. *)
Variable Int64N : Z → W → Z * W.

Definition BackoffDuration (attempt initial max : Z) (jitter : bool) (w : W) : Z * W :=
  let backoff := backoff_base attempt initial max in
  if jitter && bool_decide (0 < backoff) then Int64N backoff w else (backoff, w).
End Backoff.

(** ** The loop *)
Section Loop.
Context {W T : Type}.
Variable Int64N : Z → W → Z * W.
(** The [select]: [None] when the timer fired, the context's error when the
    context was done. *)
Variable wait : Z → W → option go_error * W.
Variable fn : W → (T * option go_error) * W.
Variable zero : T.

(** The body of [for attempt := range cfg.MaxAttempts] from [attempt] on, with
    [n] iterations left. *)
Fixpoint run_loop (cfg : Config) (check : go_error → bool) (n : nat) (attempt : Z)
    (lastErr : option go_error) (w : W) : (T * option go_error) * W :=
  match n with
  | O => ((zero, lastErr), w)
  | S n =>
    match fn w with
    | ((result, None), w) => ((result, None), w)
    | ((_, Some err), w) =>
      if negb (check err) then ((zero, Some err), w) else
      if bool_decide (attempt = int64 (cfg.(MaxAttempts) - 1)) then ((zero, Some err), w) else
      let '(backoff, w) := BackoffDuration Int64N attempt cfg.(InitialBackoff) cfg.(MaxBackoff) cfg.(Jitter) w in
      match wait backoff w with
      | (Some ctx_err, w) => ((zero, Some ctx_err), w)
      | (None, w) => run_loop cfg check n (attempt + 1) (Some err) w
      end
    end
  end.

(** [cfg.RetryableCheck] is called when an attempt failed; a nil one panics,
    which is [None] here. *)
Definition Run (enabled : bool) (cfg : Config) (w : W) : option ((T * option go_error) * W) :=
  if negb enabled then Some (fn w) else
  match cfg.(RetryableCheck) with
  | Some check => Some (run_loop cfg check (Z.to_nat cfg.(MaxAttempts)) 0 None w)
  | None =>
    if bool_decide (cfg.(MaxAttempts) ≤ 0) then Some ((zero, None), w) else
    match fn w with
    | ((result, None), w) => Some ((result, None), w)
    | _ => None
    end
  end.
End Loop.

(** [RunDo] is [Run] of a function with an empty result. *)
Definition RunDo {W} (Int64N : Z → W → Z * W) (wait : Z → W → option go_error * W)
    (fn : W → option go_error * W) (enabled : bool) (cfg : Config) (w : W) : option (option go_error * W) :=
  '((_, err), w) ← Run Int64N wait (λ w, let '(err, w) := fn w in ((tt, err), w)) tt enabled cfg w;
  Some (err, w).

(** * Properties *)

(** ** Backoff: range and exact value *)
Lemma backoff_base_range attempt initial max :
  0 ≤ max → 0 ≤ backoff_base attempt initial max ≤ max.
Proof.
  intros Hmax. unfold backoff_base. set (b := if _ && _ then _ else _).
  destruct (bool_decide_reflect (max < b)), (bool_decide_reflect (b < 0)); simpl; lia.
Qed.

(** The test before the shift is exact: it fires when the product leaves the
    range of [int64]. *)
Lemma shift_overflows initial shift :
  0 ≤ shift ≤ 62 → Z.shiftr max_int64 shift < initial ↔ max_int64 < initial * 2 ^ shift.
Proof.
  intros Hs. rewrite Z.shiftr_div_pow2 by lia.
  assert (0 < 2 ^ shift) by (apply Z.pow_pos_nonneg; lia).
  pose proof (Z.div_mod max_int64 (2 ^ shift)) as Hdiv.
  pose proof (Z.mod_pos_bound max_int64 (2 ^ shift)). nia.
Qed.

Lemma backoff_base_exact attempt initial max :
  0 ≤ initial ≤ max_int64 → 0 ≤ max ≤ max_int64 → attempt ≤ 62 →
  backoff_base attempt initial max = Z.min (initial * 2 ^ Z.max 0 attempt) max.
Proof.
  intros Hi Hm Ha. unfold backoff_base.
  assert ((if bool_decide (attempt < 0) then 0 else attempt) = Z.max 0 attempt) as ->
    by (case_bool_decide; lia).
  set (s := Z.max 0 attempt). assert (0 ≤ s ≤ 62) as Hs by lia.
  rewrite (bool_decide_false (62 < s)) by lia.
  assert (0 < 2 ^ s) by (apply Z.pow_pos_nonneg; lia).
  pose proof (shift_overflows initial s Hs) as Hov.
  destruct (decide (max_int64 < initial * 2 ^ s)) as [Hbig|Hfits].
  - assert (0 < s) by (destruct (decide (s = 0)) as [E|]; [rewrite E in Hbig; lia|lia]).
    rewrite (bool_decide_true (0 < s)), (bool_decide_true (Z.shiftr _ _ < _)) by tauto. simpl.
    rewrite (bool_decide_false (max < max)), (bool_decide_false (max < 0)) by lia. simpl. lia.
  - rewrite (bool_decide_false (Z.shiftr _ _ < _)) by (rewrite Hov; lia). rewrite andb_false_r.
    assert (0 ≤ initial * 2 ^ s) by nia.
    rewrite Z.shiftl_mul_pow2, int64_id by (unfold min_int64; lia).
    rewrite (bool_decide_false (_ < 0)) by lia. case_bool_decide; simpl; lia.
Qed.

(** Beyond 62 attempts the exponent stays at 62, which only a cap above [2^62]
    nanoseconds could tell from the true power. *)
Lemma backoff_base_saturated attempt initial max :
  0 ≤ initial ≤ max_int64 → 0 ≤ max ≤ 2 ^ 62 → 62 < attempt →
  backoff_base attempt initial max = Z.min (initial * 2 ^ attempt) max.
Proof.
  intros Hi Hm Ha.
  assert (backoff_base attempt initial max = backoff_base 62 initial max) as ->.
  { unfold backoff_base. rewrite (bool_decide_false (attempt < 0)), (bool_decide_true (62 < attempt)) by lia.
    reflexivity. }
  rewrite backoff_base_exact by (unfold max_int64 in *; lia).
  replace (Z.max 0 62) with 62 by lia.
  assert (2 ^ 62 < 2 ^ attempt) by (apply Z.pow_lt_mono_r; lia).
  destruct (decide (initial = 0)) as [->|]; [lia|]. rewrite !Z.min_r by nia. done.
Qed.

(** [BackoffDuration] computes [initial * 2^attempt] capped at [max], with
    a negative attempt taken as 0, for every attempt number and without ever
    overflowing, as long as the cap is at most [2^62] nanoseconds; with jitter
    the result is the draw below that duration, so it stays in [0, backoff),
    and it is 0 when the duration is. *)
Theorem backoff_duration_exact {W} (Int64N : Z → W → Z * W) attempt initial max jitter w :
  (∀ n w, 0 < n → 0 ≤ (Int64N n w).1 < n) →
  0 ≤ initial ≤ max_int64 → 0 ≤ max ≤ 2 ^ 62 →
  let backoff := Z.min (initial * 2 ^ Z.max 0 attempt) max in
  BackoffDuration Int64N attempt initial max false w = (backoff, w) ∧
  let '(jittered, _) := BackoffDuration Int64N attempt initial max true w in
  0 ≤ jittered ≤ backoff ∧ (0 < backoff → jittered < backoff) ∧
  (BackoffDuration Int64N attempt initial max jitter w).1 ≤ max.
Proof.
  intros Hdraw Hi Hm backoff.
  assert (backoff_base attempt initial max = backoff) as Hb.
  { destruct (decide (attempt ≤ 62)).
    - apply backoff_base_exact; unfold max_int64 in *; lia.
    - rewrite backoff_base_saturated by lia. unfold backoff. do 3 f_equal. lia. }
  pose proof (backoff_base_range attempt initial max) as Hr.
  unfold BackoffDuration. rewrite Hb in *. split; [done|]. simpl.
  pose proof (Hdraw backoff w).
  destruct jitter, (bool_decide_reflect (0 < backoff)); simpl;
    destruct (Int64N backoff w) as [j w']; simpl in *; lia.
Qed.

(** ** The loop *)
Section LoopFacts.
Context {W T : Type}.
Variable Int64N : Z → W → Z * W.
Variable wait : Z → W → option go_error * W.
Variable fn : W → (T * option go_error) * W.
Variable zero : T.
Variable cfg : Config.
Variable check : go_error → bool.

(** [retried k w w' ds]: the attempts [0 .. k-1] all failed with an error
    worth retrying, and each was followed by its wait [ds !! i], which ran to
    its end; the world is then [w']. *)
Inductive retried : nat → W → W → list Z → Prop :=
  | retried_none w : retried 0 w w []
  | retried_again k w w1 ds r e w2 d w3 w4 :
    retried k w w1 ds →
    fn w1 = ((r, Some e), w2) → check e = true →
    BackoffDuration Int64N (Z.of_nat k) cfg.(InitialBackoff) cfg.(MaxBackoff) cfg.(Jitter) w2 = (d, w3) →
    wait d w3 = (None, w4) →
    retried (S k) w w4 (ds ++ [d]).

(** How attempt [k] ends the loop. *)
Inductive attempt_ends (k : nat) (w : W) : (T * option go_error) * W → Prop :=
  | ends_success r w' :
    fn w = ((r, None), w') → attempt_ends k w ((r, None), w')
  | ends_permanent r e w' :
    fn w = ((r, Some e), w') → check e = false → attempt_ends k w ((zero, Some e), w')
  | ends_exhausted r e w' :
    fn w = ((r, Some e), w') → check e = true → Z.of_nat k = cfg.(MaxAttempts) - 1 →
    attempt_ends k w ((zero, Some e), w')
  | ends_cancelled r e w1 d w2 ctx_err w' :
    fn w = ((r, Some e), w1) → check e = true → Z.of_nat k < cfg.(MaxAttempts) - 1 →
    BackoffDuration Int64N (Z.of_nat k) cfg.(InitialBackoff) cfg.(MaxBackoff) cfg.(Jitter) w1 = (d, w2) →
    wait d w2 = (Some ctx_err, w') → attempt_ends k w ((zero, Some ctx_err), w').

Hypothesis attempts_range : 0 < cfg.(MaxAttempts) ≤ max_int64.

Lemma last_attempt : int64 (cfg.(MaxAttempts) - 1) = cfg.(MaxAttempts) - 1.
Proof. apply int64_id. unfold min_int64 in *; lia. Qed.

(** From attempt [k] on, the loop retries some attempts more and ends. *)
Lemma run_loop_ends n k w0 w ds last :
  retried k w0 w ds → (0 < n)%nat → Z.of_nat (k + n) = cfg.(MaxAttempts) →
  ∃ k' w' ds' out, Z.of_nat k' < cfg.(MaxAttempts) ∧ retried k' w0 w' ds' ∧ attempt_ends k' w' out ∧
    run_loop Int64N wait fn zero cfg check n (Z.of_nat k) last w = out.
Proof.
  revert k w ds last. induction n as [|n IH]; intros k w ds last Hr Hn Hk; [lia|]. simpl.
  destruct (fn w) as [[r [e|]] w1] eqn:Hfn;
    [|exists k, w, ds; eexists; split_and!; [lia|done|by econstructor|done]].
  destruct (check e) eqn:Hcheck; simpl;
    [|exists k, w, ds; eexists; split_and!; [lia|done|by econstructor|done]].
  rewrite last_attempt. case_bool_decide as Hlast.
  { exists k, w, ds; eexists; split_and!; [lia|done|by econstructor|done]. }
  destruct (BackoffDuration _ _ _ _ _ _) as [d w2] eqn:Hd.
  destruct (wait d w2) as [[c|] w3] eqn:Hw.
  { exists k, w, ds; eexists; split_and!; [lia|done|by econstructor; [..|lia|done|done]|done]. }
  replace (Z.of_nat k + 1) with (Z.of_nat (S k)) by lia.
  eapply IH; [by econstructor|lia..].
Qed.

(** The loop retraces the attempts that are known to be retried. *)
Lemma run_loop_retried k w0 w ds :
  retried k w0 w ds → Z.of_nat k < cfg.(MaxAttempts) →
  ∃ last, run_loop Int64N wait fn zero cfg check (Z.to_nat cfg.(MaxAttempts)) 0 None w0 =
    run_loop Int64N wait fn zero cfg check (Z.to_nat cfg.(MaxAttempts) - k) (Z.of_nat k) last w.
Proof.
  induction 1 as [w|k w w1 ds r e w2 d w3 w4 Hr IH Hfn Hcheck Hd Hw]; intros Hk.
  { exists None. by rewrite Nat.sub_0_r. }
  destruct IH as [last ->]; [lia|]. exists (Some e).
  replace (Z.to_nat cfg.(MaxAttempts) - k)%nat with (S (Z.to_nat cfg.(MaxAttempts) - S k)) by lia.
  simpl. rewrite Hfn, Hcheck, last_attempt, bool_decide_false by lia. simpl.
  rewrite Hd, Hw. f_equal. lia.
Qed.

Lemma retried_waits k w w' ds :
  (∀ n w, 0 < n → 0 ≤ (Int64N n w).1 < n) → 0 ≤ cfg.(MaxBackoff) →
  retried k w w' ds → length ds = k ∧ Forall (λ d, 0 ≤ d ≤ cfg.(MaxBackoff)) ds.
Proof.
  intros Hdraw Hmax. induction 1 as [w|k w w1 ds r e w2 d w3 w4 Hr [IH1 IH2] Hfn Hcheck Hd Hw]; [done|].
  rewrite length_app. simpl. split; [lia|]. apply Forall_app_2; [done|]. apply Forall_singleton.
  revert Hd. unfold BackoffDuration.
  pose proof (backoff_base_range (Z.of_nat k) cfg.(InitialBackoff) cfg.(MaxBackoff) Hmax).
  destruct (_ && _) eqn:Hj; [intros Hd|intros [= <- _]; lia].
  apply andb_prop in Hj as [_ Hpos]. apply bool_decide_eq_true in Hpos.
  pose proof (Hdraw _ w2 Hpos) as Hdr. rewrite Hd in Hdr. simpl in Hdr. lia.
Qed.
End LoopFacts.

(** A retried operation ends, after at most [MaxAttempts] calls: some
    attempt [k] below [MaxAttempts] is reached by retrying every earlier one,
    each after its own wait, and the outcome of [Run] is exactly what ended
    that attempt: its result, its permanent error, its error when it was the
    last one, or the context's error when the wait after it was cut short.
    The [k] waits are each between 0 and [MaxBackoff]. *)
Theorem run_ends {W T} (Int64N : Z → W → Z * W) wait (fn : W → (T * option go_error) * W) zero cfg check w :
  (∀ n w, 0 < n → 0 ≤ (Int64N n w).1 < n) →
  0 < cfg.(MaxAttempts) ≤ max_int64 → 0 ≤ cfg.(MaxBackoff) → cfg.(RetryableCheck) = Some check →
  ∃ k w' waits out,
    Z.of_nat k < cfg.(MaxAttempts) ∧
    retried Int64N wait fn cfg check k w w' waits ∧
    length waits = k ∧ Forall (λ d, 0 ≤ d ≤ cfg.(MaxBackoff)) waits ∧
    attempt_ends Int64N wait fn zero cfg check k w' out ∧
    Run Int64N wait fn zero true cfg w = Some out.
Proof.
  intros Hdraw Hn Hmax Hcheck. unfold Run. rewrite Hcheck. simpl.
  destruct (run_loop_ends Int64N wait fn zero cfg check Hn (Z.to_nat cfg.(MaxAttempts)) 0 w w [] None)
    as (k & w' & ds & out & Hk & Hr & He & Hrun); [constructor|lia..|].
  destruct (retried_waits Int64N wait fn cfg check k w w' ds Hdraw Hmax Hr).
  exists k, w', ds, out. split_and!; try done. by subst out.
Qed.

(** Retrying makes progress: when the operation succeeds at attempt [k],
    below [MaxAttempts], and every attempt before failed with an error worth
    retrying and was waited out, then [Run] returns that success, whatever
    the configured backoff and jitter, also for a configuration completed by
    [WithDefaults]. *)
Theorem run_reaches_success {W T} (Int64N : Z → W → Z * W) wait (fn : W → (T * option go_error) * W) zero c check k w w' waits r w'' :
  let cfg := WithDefaults c in
  c.(MaxAttempts) ≤ max_int64 → check = default IsRetryable c.(RetryableCheck) →
  Z.of_nat k < cfg.(MaxAttempts) →
  retried Int64N wait fn cfg check k w w' waits → fn w' = ((r, None), w'') →
  Run Int64N wait fn zero true cfg w = Some ((r, None), w'').
Proof.
  intros cfg Hmax Hcheck Hk Hr Hfn. unfold Run, cfg. simpl. rewrite <-Hcheck.
  assert (0 < cfg.(MaxAttempts) ≤ max_int64) as Hn.
  { unfold cfg. simpl. case_bool_decide; [unfold max_int64|]; lia. }
  destruct (run_loop_retried Int64N wait fn zero cfg check Hn k w w' waits Hr Hk) as [last Hrun].
  fold cfg. change (if bool_decide (c.(MaxAttempts) ≤ 0) then 3 else c.(MaxAttempts)) with cfg.(MaxAttempts).
  rewrite Hrun. replace (Z.to_nat cfg.(MaxAttempts) - k)%nat with (S (Z.to_nat cfg.(MaxAttempts) - S k)) by lia.
  simpl. by rewrite Hfn.
Qed.

(** ** Witnesses *)
Module RetryWitnesses.

(** The world counts the calls and logs the waits; the call succeeds the third
    time. *)
Definition flaky (w : nat * list Z) : (string * option go_error) * (nat * list Z) :=
  let '(n, ds) := w in
  if bool_decide (n < 2)%nat then ((""%string, Some (RetryableError (Some (LeafError "unavailable")))), (S n, ds))
  else (("v"%string, None), (S n, ds)).
Definition timer (d : Z) (w : nat * list Z) : option go_error * (nat * list Z) := (None, (w.1, w.2 ++ [d])).
Definition half (n : Z) (w : nat * list Z) : Z * (nat * list Z) := (n / 2, w).
Definition unset : Config :=
  {| MaxAttempts := 0; InitialBackoff := 0; MaxBackoff := 0; Jitter := false; RetryableCheck := None |}.

Lemma half_draws n (w : nat * list Z) : 0 < n → 0 ≤ (half n w).1 < n.
Proof. intros. simpl. split; [apply Z.div_pos; lia|apply Z.div_lt_upper_bound; lia]. Qed.

Lemma flaky_retried :
  retried half timer flaky (WithDefaults unset) IsRetryable 2 (0%nat, []) (2%nat, [100 * millisecond; 200 * millisecond])
    [100 * millisecond; 200 * millisecond].
Proof.
  eapply (retried_again _ _ _ _ _ 1 _ (1%nat, [100 * millisecond]) [100 * millisecond]); try reflexivity.
  eapply (retried_again _ _ _ _ _ 0 _ (0%nat, []) []); try reflexivity. constructor.
Qed.

Lemma backoff_duration_exact_witness :
  BackoffDuration half 70 (100 * millisecond) (5 * second) false (0%nat, []) = (5 * second, (0%nat, [])) ∧
  (BackoffDuration half 3 (100 * millisecond) (5 * second) false (0%nat, [])).1 = 800 * millisecond.
Proof.
  split.
  - exact (proj1 (backoff_duration_exact half 70 (100 * millisecond) (5 * second) true (0%nat, []) half_draws
      ltac:(vm_compute; split; discriminate) ltac:(vm_compute; split; discriminate))).
  - reflexivity.
Defined.

Lemma run_ends_witness :
  ∃ k, Z.of_nat k < 3 ∧ ∃ out, Run half timer flaky ""%string true (WithDefaults unset) (0%nat, []) = Some out.
Proof.
  destruct (run_ends half timer flaky ""%string (WithDefaults unset) IsRetryable (0%nat, []) half_draws)
    as (k & w' & ds & out & Hk & _ & _ & _ & _ & Hrun); [vm_compute; split; congruence|vm_compute; discriminate|reflexivity|].
  exists k. split; [exact Hk|]. by exists out.
Defined.

Lemma run_reaches_success_witness :
  Run half timer flaky ""%string true (WithDefaults unset) (0%nat, []) =
    Some (("v"%string, None), (3%nat, [100 * millisecond; 200 * millisecond])).
Proof.
  apply (run_reaches_success half timer flaky ""%string unset IsRetryable 2 (0%nat, [])
    (2%nat, [100 * millisecond; 200 * millisecond]) [100 * millisecond; 200 * millisecond]);
    [vm_compute; discriminate|reflexivity|reflexivity|apply flaky_retried|reflexivity].
Defined.

End RetryWitnesses.
