(* ===== verification/Base64.v ===== *)
(** * [encoding/base64], standard encoding with padding

    The encoder and the (non-strict) decoder of [base64.StdEncoding], which
    page tokens go through. *)
From S2P Require Import Prelude GoText.
From Stdlib Require Import Ascii.

Module Base64.
Local Open Scope Z_scope.

Definition enc_char (d : Z) : ascii :=
  byte_of (if d <? 26 then 65 + d
           else if d <? 52 then 71 + d
           else if d <? 62 then d - 4
           else if d =? 62 then 43 else 47).

Definition dec_char (c : ascii) : option Z :=
  let z := byte_val c in
  if ((65 <=? z) && (z <=? 90))%bool then Some (z - 65)
  else if ((97 <=? z) && (z <=? 122))%bool then Some (z - 71)
  else if ((48 <=? z) && (z <=? 57))%bool then Some (z + 4)
  else if z =? 43 then Some 62
  else if z =? 47 then Some 63 else None.

(** Six-bit groups of a 24-bit value. *)
Definition d0 (v : Z) : Z := v `div` 262144.
Definition d1 (v : Z) : Z := (v `div` 4096) `mod` 64.
Definition d2 (v : Z) : Z := (v `div` 64) `mod` 64.
Definition d3 (v : Z) : Z := v `mod` 64.

Fixpoint EncodeToString (s : string) : string :=
  match s with
  | "" => ""
  | String a "" =>
      let v := byte_val a * 65536 in
      String (enc_char (d0 v)) (String (enc_char (d1 v)) "==")
  | String a (String b "") =>
      let v := byte_val a * 65536 + byte_val b * 256 in
      String (enc_char (d0 v)) (String (enc_char (d1 v)) (String (enc_char (d2 v)) "="))
  | String a (String b (String c rest)) =>
      let v := byte_val a * 65536 + byte_val b * 256 + byte_val c in
      String (enc_char (d0 v)) (String (enc_char (d1 v))
        (String (enc_char (d2 v)) (String (enc_char (d3 v)) (EncodeToString rest))))
  end.

Definition is_newline (c : ascii) : bool :=
  bool_decide (c = "010"%char) || bool_decide (c = "013"%char).

Fixpoint skip_newlines (s : string) : string :=
  match s with
  | String c s' => if is_newline c then skip_newlines s' else s
  | "" => ""
  end.

Definition byte0 (v : Z) : ascii := byte_of (v `div` 65536).
Definition byte1 (v : Z) : ascii := byte_of ((v `div` 256) `mod` 256).
Definition byte2 (v : Z) : ascii := byte_of (v `mod` 256).

(** What may follow the first padding character, by the number of digits of
    the last quantum. *)
Definition decode_pad (q : list Z) (s : string) : option string :=
  match q with
  | [x; y] =>
      match skip_newlines s with
      | String c s' =>
          if bool_decide (c = "="%char) then
            match skip_newlines s' with
            | "" => Some (String (byte0 (x * 262144 + y * 4096)) "")
            | _ => None
            end
          else None
      | "" => None
      end
  | [x; y; z] =>
      match skip_newlines s with
      | "" => let v := x * 262144 + y * 4096 + z * 64 in
              Some (String (byte0 v) (String (byte1 v) ""))
      | _ => None
      end
  | _ => None
  end.

(** The decoder, carrying the digits of the quantum being read. *)
Fixpoint decode (q : list Z) (s : string) : option string :=
  match s with
  | "" => match q with [] => Some "" | _ => None end
  | String c s =>
      match dec_char c with
      | Some d =>
          match q with
          | [x; y; z] =>
              let v := x * 262144 + y * 4096 + z * 64 + d in
              r ← decode [] s;
              Some (String (byte0 v) (String (byte1 v) (String (byte2 v) r)))
          | _ => decode (q ++ [d]) s
          end
      | None =>
          if is_newline c then decode q s
          else if bool_decide (c = "="%char) then decode_pad q s
          else None
      end
  end.

Definition DecodeString (s : string) : option string := decode [] s.

(** ** Round trip *)
Lemma dec_enc_char d : 0 ≤ d < 64 → dec_char (enc_char d) = Some d.
Proof.
  intros Hd.
  assert (Forall (λ d, dec_char (enc_char d) = Some d) (seqZ 0 64)) as H.
  { apply (bool_decide_unpack _). vm_compute. exact I. }
  rewrite Forall_forall in H. apply H, elem_of_seqZ. lia.
Qed.

Local Ltac groups :=
  unfold d0, d1, d2, d3, byte0, byte1, byte2 in *;
  Z.to_euclidean_division_equations; lia.

Lemma byte0_val a v : 0 ≤ v < 65536 → byte0 (byte_val a * 65536 + v) = a.
Proof.
  intros. unfold byte0. rewrite <-(byte_of_val a) at 2. f_equal.
  pose proof (byte_val_range a). groups.
Qed.
Lemma byte1_val a b v :
  0 ≤ v < 256 → byte1 (byte_val a * 65536 + byte_val b * 256 + v) = b.
Proof.
  intros. unfold byte1. rewrite <-(byte_of_val b) at 2. f_equal.
  pose proof (byte_val_range a). pose proof (byte_val_range b). groups.
Qed.
Lemma byte2_val a b c :
  byte2 (byte_val a * 65536 + byte_val b * 256 + byte_val c) = c.
Proof.
  unfold byte2. rewrite <-(byte_of_val c) at 2. f_equal.
  pose proof (byte_val_range c). groups.
Qed.

Lemma groups_value v :
  0 ≤ v < 16777216 → d0 v * 262144 + d1 v * 4096 + d2 v * 64 + d3 v = v.
Proof. intros. groups. Qed.
Lemma groups_range v :
  0 ≤ v < 16777216 → 0 ≤ d0 v < 64 ∧ 0 ≤ d1 v < 64 ∧ 0 ≤ d2 v < 64 ∧ 0 ≤ d3 v < 64.
Proof. intros. split_and!; groups. Qed.


(** Induction on a string three bytes at a time. *)
Lemma string_ind3 (P : string → Prop) :
  P "" → (∀ a, P (String a "")) → (∀ a b, P (String a (String b ""))) →
  (∀ a b c s, P s → P (String a (String b (String c s)))) → ∀ s, P s.
Proof.
  intros H0 H1 H2 H3.
  assert (∀ n s, (String.length s ≤ n)%nat → P s) as H.
  { induction n as [|n IH]; intros s Hs.
    { destruct s; [done|simpl in Hs; lia]. }
    destruct s as [|a [|b [|c s]]]; auto. apply H3, IH. simpl in Hs. lia. }
  intros s. by apply (H (String.length s)).
Qed.

Lemma decode_encode s : DecodeString (EncodeToString s) = Some s.
Proof.
  unfold DecodeString. induction s as [|a|a b|a b c s IH] using string_ind3; [done|..].
  - pose proof (byte_val_range a). pose proof (groups_range (byte_val a * 65536)) as Hr.
    pose proof (groups_value (byte_val a * 65536)) as Hv.
    cbn [EncodeToString decode]. rewrite !dec_enc_char by lia. cbn.
    assert (d2 (byte_val a * 65536) = 0) by groups.
    assert (d3 (byte_val a * 65536) = 0) by groups.
    f_equal. f_equal. etrans; [|apply (byte0_val a 0); lia]. f_equal. lia.
  - pose proof (byte_val_range a). pose proof (byte_val_range b).
    set (v := byte_val a * 65536 + byte_val b * 256).
    pose proof (groups_range v) as Hr.
    cbn [EncodeToString]. fold v. cbn [decode]. rewrite !dec_enc_char by lia. cbn.
    assert (d3 v = 0) by (unfold v; groups). pose proof (groups_value v).
    replace (d0 v * 262144 + d1 v * 4096 + d2 v * 64) with (v + 0) by lia.
    f_equal. f_equal; [|f_equal].
    + unfold v. rewrite <-Z.add_assoc. apply byte0_val. lia.
    + unfold v. apply byte1_val. lia.
  - pose proof (byte_val_range a). pose proof (byte_val_range b). pose proof (byte_val_range c).
    set (v := byte_val a * 65536 + byte_val b * 256 + byte_val c).
    pose proof (groups_range v) as Hr.
    cbn [EncodeToString]. fold v. cbn [decode]. rewrite !dec_enc_char by lia. cbn [app].
    rewrite groups_value by (unfold v; lia). rewrite IH. cbn.
    unfold v. rewrite byte1_val, byte2_val by lia.
    rewrite <-Z.add_assoc, byte0_val by lia. done.
Qed.
End Base64.
