(* ===== verification/JsBase64.v ===== *)
(** * base64-js inside the Swagger UI bundles

    [swagger-ui-bundle.js] and [swagger-ui-standalone-preset.js], which the
    server hands to browsers, are minified: each is a single line of code after
    a line of comment. Both begin with the module [base64-js], the codec behind
    the [Buffer] of the page; it is modelled here as a whole, with the names it
    keeps ([getLens], [byteLength], [toByteArray], [fromByteArray],
    [encodeChunk]). Nothing else of the bundles is.

    A JavaScript string is its list of UTF-16 code units, a [Uint8Array] its
    list of elements. Bit operations work on 32-bit signed integers;
    [undefined] counts as zero in them. *)
From S2P Require Import Prelude GoText Base64.
From Stdlib Require Import Ascii.

Module JsBase64.
Local Open Scope Z_scope.

(** ** The language *)
Definition shl (x n : Z) : Z := int32 (Z.shiftl (int32 x) n).
Definition shr (x n : Z) : Z := Z.shiftr (int32 x) n.
Definition bor (x y : Z) : Z := Z.lor (int32 x) (int32 y).
Definition band (x y : Z) : Z := Z.land (int32 x) (int32 y).

(** The code units of a text of one-byte characters. *)
Fixpoint codes (s : string) : list Z :=
  match s with
  | "" => []
  | String c s => byte_val c :: codes s
  end.

(** [l[k]] for a number [k]; [None] is [undefined]. *)
Definition at_ {A} (l : list A) (k : Z) : option A := if k <? 0 then None else l !! Z.to_nat k.

Inductive js_error :=
| JsError (msg : string)         (* throw new Error(msg) *)
| RangeError.                    (* a typed array of negative length *)

(** ** Tables

    [i] maps a digit to its character, [a] a code unit to its digit. *)
Definition alphabet : list Z :=
  codes "ABCDEFGHIJKLMNOPQRSTUVWXYZabcdefghijklmnopqrstuvwxyz0123456789+/".
Definition lookup_ (k : Z) : list Z :=
  match at_ alphabet k with Some c => [c] | None => codes "undefined" end.
Definition revLookup : gmap Z Z :=
  <[95 := 63]> (<[45 := 62]>
    (foldl (λ m p, <[p.2 := p.1]> m) ∅ (zip (seqZ 0 64) alphabet))).
(** [a[s.charCodeAt(k)]] as an operand of a bit operation. *)
Definition rev (s : list Z) (k : Z) : Z :=
  match at_ s k with
  | Some c => default 0 (revLookup !! c)
  | None => 0
  end.

(** ** Lengths *)
Definition indexOf (c : Z) (s : list Z) : Z :=
  match list_find (λ x, x = c) s with
  | Some (k, _) => Z.of_nat k
  | None => -1
  end.

Definition getLens (s : list Z) : result js_error (Z * Z) :=
  let len := Z.of_nat (length s) in
  if 0 <? len `mod` 4 then Err (JsError "Invalid string. Length must be a multiple of 4")
  else
    let validLen := indexOf 61 s in
    let validLen := if validLen =? -1 then len else validLen in
    Ok (validLen, if validLen =? len then 0 else 4 - validLen `mod` 4).

(** The sum is a multiple of four, so the division is exact. *)
Definition _byteLength (validLen placeHoldersLen : Z) : Z :=
  3 * (validLen + placeHoldersLen) `div` 4 - placeHoldersLen.

Definition byteLength (s : list Z) : result js_error Z :=
  match getLens s with
  | Err e => Err e
  | Ok (validLen, placeHoldersLen) => Ok (_byteLength validLen placeHoldersLen)
  end.

(** ** Decoding

    [arr[k] = x] of a [Uint8Array]: the value modulo 256, and nothing when
    the index is out of range. *)
Definition store (k x : Z) (arr : list Z) : list Z :=
  if k <? 0 then arr else <[Z.to_nat k := x `mod` 256]> arr.

(** The loop [for (i = 0; i < L; i += 4)]; it runs at most once per element
    of the text. *)
Fixpoint decode_loop (fuel : nat) (s : list Z) (L i j : Z) (arr : list Z) : Z * Z * list Z :=
  match fuel with
  | O => (i, j, arr)
  | S fuel =>
      if i <? L then
        let tmp := bor (bor (bor (shl (rev s i) 18) (shl (rev s (i + 1)) 12))
                          (shl (rev s (i + 2)) 6)) (rev s (i + 3)) in
        let arr := store j (band (shr tmp 16) 255) arr in
        let arr := store (j + 1) (band (shr tmp 8) 255) arr in
        let arr := store (j + 2) (band 255 tmp) arr in
        decode_loop fuel s L (i + 4) (j + 3) arr
      else (i, j, arr)
  end.

Definition toByteArray (s : list Z) : result js_error (list Z) :=
  match getLens s with
  | Err e => Err e
  | Ok (validLen, placeHoldersLen) =>
      let n := _byteLength validLen placeHoldersLen in
      if n <? 0 then Err RangeError
      else
        let L := if 0 <? placeHoldersLen then validLen - 4 else validLen in
        let '(i, j, arr) := decode_loop (length s) s L 0 0 (replicate (Z.to_nat n) 0) in
        let '(j, arr) :=
          if placeHoldersLen =? 2 then
            let tmp := bor (shl (rev s i) 2) (shr (rev s (i + 1)) 4) in
            (j + 1, store j (band 255 tmp) arr)
          else (j, arr) in
        if placeHoldersLen =? 1 then
          let tmp := bor (bor (shl (rev s i) 10) (shl (rev s (i + 1)) 4)) (shr (rev s (i + 2)) 2) in
          let arr := store j (band (shr tmp 8) 255) arr in
          Ok (store (j + 1) (band 255 tmp) arr)
        else Ok arr
  end.

(** ** Encoding

    An element of the argument as a number: [undefined] outside. *)
Definition elt (s : list Z) (k : Z) : Z := default 0 (at_ s k).

Fixpoint encodeChunk (fuel : nat) (s : list Z) (x end_ : Z) : list Z :=
  match fuel with
  | O => []
  | S fuel =>
      if x <? end_ then
        let tmp := band (shl (elt s x) 16) 16711680 + band (shl (elt s (x + 1)) 8) 65280
                   + band 255 (elt s (x + 2)) in
        (lookup_ (band (shr tmp 18) 63) ++ lookup_ (band (shr tmp 12) 63)
         ++ lookup_ (band (shr tmp 6) 63) ++ lookup_ (band 63 tmp))
        ++ encodeChunk fuel s (x + 3) end_
      else []
  end.

Definition maxChunkLength : Z := 16383.

(** The loop over the chunks; their texts are joined. *)
Fixpoint encode_chunks (fuel : nat) (s : list Z) (x len2 : Z) : list Z :=
  match fuel with
  | O => []
  | S fuel =>
      if x <? len2 then
        encodeChunk (length s) s x (if len2 <? x + maxChunkLength then len2 else x + maxChunkLength)
        ++ encode_chunks fuel s (x + maxChunkLength) len2
      else []
  end.

Definition fromByteArray (s : list Z) : list Z :=
  let len := Z.of_nat (length s) in
  let extraBytes := len `mod` 3 in
  encode_chunks (length s) s 0 (len - extraBytes)
  ++ (if extraBytes =? 1 then
        let tmp := elt s (len - 1) in
        lookup_ (shr tmp 2) ++ lookup_ (band (shl tmp 4) 63) ++ codes "=="
      else if extraBytes =? 2 then
        let tmp := shl (elt s (len - 2)) 8 + elt s (len - 1) in
        lookup_ (shr tmp 10) ++ lookup_ (band (shr tmp 4) 63) ++ lookup_ (band (shl tmp 2) 63)
        ++ codes "="
      else []).

Example from_ex :
  fromByteArray (codes "Hello, browser") = codes (Base64.EncodeToString "Hello, browser").
Proof. vm_compute. reflexivity. Qed.
Example to_ex : toByteArray (codes "SGVsbG8=") = Ok (codes "Hello").
Proof. vm_compute. reflexivity. Qed.

(** ** Arithmetic of the bit operations *)
Abbreviation byte b := (0 ≤ b < 256).

Lemma byte_table (P : Z → Prop) `{!∀ z, Decision (P z)} :
  bool_decide (Forall P (seqZ 0 256)) = true → ∀ b, byte b → P b.
Proof.
  intros Hf%bool_decide_eq_true b Hb. rewrite Forall_forall in Hf. apply Hf, elem_of_seqZ. lia.
Qed.

Lemma band_ones x n : 0 ≤ x < 2 ^ 31 → 0 ≤ n < 31 → band x (2 ^ n - 1) = x `mod` 2 ^ n.
Proof.
  intros Hx Hn. unfold band. assert (0 < 2 ^ n) by (apply Z.pow_pos_nonneg; lia).
  assert (2 ^ n < 2 ^ 31) by (apply Z.pow_lt_mono_r; lia).
  rewrite !int32_id by (unfold min_int32, max_int32; lia).
  rewrite <-Z.land_ones by lia. by rewrite Z.ones_equiv, Z.sub_1_r.
Qed.
Lemma band_comm x y : band x y = band y x.
Proof. apply Z.land_comm. Qed.
Lemma shr_div x n : 0 ≤ x < 2 ^ 31 → 0 ≤ n → shr x n = x `div` 2 ^ n.
Proof.
  intros Hx Hn. unfold shr. rewrite int32_id by (unfold min_int32, max_int32; lia).
  by apply Z.shiftr_div_pow2.
Qed.
Lemma shl_mul x n : 0 ≤ x → 0 ≤ n → x * 2 ^ n < 2 ^ 31 → shl x n = x * 2 ^ n.
Proof.
  intros Hx Hn Hm. unfold shl. assert (0 < 2 ^ n) by (apply Z.pow_pos_nonneg; lia).
  rewrite (int32_id x) by (unfold min_int32, max_int32; nia).
  rewrite Z.shiftl_mul_pow2 by lia. apply int32_id. unfold min_int32, max_int32. nia.
Qed.
(** The operands of an [|] have no bit in common. *)
Lemma bor_add x y n :
  0 ≤ x → 0 ≤ n → 0 ≤ y < 2 ^ n → x * 2 ^ n + y < 2 ^ 31 → bor (x * 2 ^ n) y = x * 2 ^ n + y.
Proof.
  intros Hx Hn Hy Hm. unfold bor. rewrite !int32_id by (unfold min_int32, max_int32; nia).
  rewrite <-Z.lxor_lor, <-Z.add_nocarry_lxor; [done|..].
  all: apply Z.bits_inj'; intros i Hi; rewrite Z.land_spec, Z.bits_0, <-Z.shiftl_mul_pow2 by lia;
    rewrite Z.shiftl_spec by lia; destruct (decide (i < n));
    [by rewrite Z.testbit_neg_r by lia|].
  all: rewrite <-(Z.mod_small y (2 ^ n)), Z.mod_pow2_bits_high by lia; apply andb_false_r.
Qed.

(** ** The reference: groups of three bytes *)
Definition ch (d : Z) : Z := byte_val (Base64.enc_char d).

Lemma lookup_ch d : 0 ≤ d < 64 → lookup_ d = [ch d].
Proof.
  intros Hd. assert (Forall (λ d, lookup_ d = [ch d]) (seqZ 0 64)) as H.
  { apply (bool_decide_unpack _). vm_compute. exact I. }
  rewrite Forall_forall in H. apply H, elem_of_seqZ. lia.
Qed.
Lemma rev_ch d : 0 ≤ d < 64 → revLookup !! ch d = Some d ∧ ch d ≠ 61.
Proof.
  intros Hd. assert (Forall (λ d, revLookup !! ch d = Some d ∧ ch d ≠ 61) (seqZ 0 64)) as H.
  { apply (bool_decide_unpack _). vm_compute. exact I. }
  rewrite Forall_forall in H. apply H, elem_of_seqZ. lia.
Qed.

Definition value3 (a b c : Z) : Z := a * 65536 + b * 256 + c.
Definition quad (v : Z) : list Z :=
  [ch (Base64.d0 v); ch (Base64.d1 v); ch (Base64.d2 v); ch (Base64.d3 v)].
Fixpoint enc3 (l : list Z) : list Z :=
  match l with
  | a :: b :: c :: l => quad (value3 a b c) ++ enc3 l
  | _ => []
  end.
Definition enc_tail (r : list Z) : list Z :=
  match r with
  | [a] => let v := value3 a 0 0 in [ch (Base64.d0 v); ch (Base64.d1 v); 61; 61]
  | [a; b] =>
      let v := value3 a b 0 in [ch (Base64.d0 v); ch (Base64.d1 v); ch (Base64.d2 v); 61]
  | _ => []
  end.

(** Induction three elements at a time, down to a rest of at most two. *)
Lemma list_ind3 {A} (P : list A → Prop) :
  (∀ r, (length r < 3)%nat → P r) → (∀ a b c l, P l → P (a :: b :: c :: l)) → ∀ l, P l.
Proof.
  intros H0 H3. assert (∀ n l, (length l ≤ n)%nat → P l) as H.
  { induction n as [|n IH]; intros l Hl; [apply H0; lia|].
    destruct l as [|a [|b [|c l]]]; [apply H0; simpl; lia..|]. apply H3, IH. simpl in Hl. lia. }
  intros l. by apply (H (length l)).
Qed.

Lemma split3 {A} (l : list A) :
  ∃ l3 r k, l = l3 ++ r ∧ length l3 = (3 * k)%nat ∧ (length r < 3)%nat.
Proof.
  induction l as [r Hr|a b c l (l3 & r & k & -> & Hk & Hr)] using list_ind3.
  - by exists [], r, 0%nat.
  - exists (a :: b :: c :: l3), r, (S k). split_and!; [done|simpl; lia|done].
Qed.

Lemma codes_bytes s : Forall (λ b, byte b) (codes s).
Proof. induction s as [|c s IH]; constructor; [apply byte_val_range|done]. Qed.
Lemma length_codes s : length (codes s) = String.length s.
Proof. induction s; simpl; congruence. Qed.

(** The Go encoder in these terms. *)
Lemma go_encode s l3 r k :
  codes s = l3 ++ r → length l3 = (3 * k)%nat → (length r < 3)%nat →
  codes (Base64.EncodeToString s) = enc3 l3 ++ enc_tail r.
Proof.
  revert l3 k. induction s as [|a|a b|a b c s IH] using Base64.string_ind3; intros l3 k E Hk Hr.
  - symmetry in E. apply app_eq_nil in E as [-> ->]. done.
  - destruct l3 as [|? [|? [|? ?]]]; simplify_eq/=; try lia.
    all: try (destruct r; simplify_eq/=; lia).
    unfold value3. rewrite !Z.add_0_r. done.
  - destruct l3 as [|? [|? [|? ?]]]; simplify_eq/=; try lia.
    all: try (destruct r; simplify_eq/=; lia).
    unfold value3. rewrite !Z.add_0_r. done.
  - destruct l3 as [|? [|? [|? l3]]]; simplify_eq/=; try lia.
    do 4 f_equal. apply (IH l3 (k - 1)%nat); [done|lia|done].
Qed.

(** ** The encoder *)
Lemma at_drop {A} (s l : list A) x i y :
  0 ≤ x → 0 ≤ i → drop (Z.to_nat x) s = l → l !! Z.to_nat i = Some y → at_ s (x + i) = Some y.
Proof.
  intros Hx Hi <- Hl. unfold at_. rewrite (proj2 (Z.ltb_ge _ _)) by lia.
  rewrite lookup_drop in Hl. by rewrite Z2Nat.inj_add by lia.
Qed.

Lemma chunk_value a b c :
  byte a → byte b → byte c →
  band (shl a 16) 16711680 + band (shl b 8) 65280 + band 255 c = value3 a b c.
Proof.
  intros Ha Hb Hc. unfold value3. f_equal; [f_equal|].
  - revert a Ha. apply (byte_table (λ a, band (shl a 16) 16711680 = a * 65536)). by vm_compute.
  - revert b Hb. apply (byte_table (λ b, band (shl b 8) 65280 = b * 256)). by vm_compute.
  - revert c Hc. apply (byte_table (λ c, band 255 c = c)). by vm_compute.
Qed.

Lemma value3_range a b c : byte a → byte b → byte c → 0 ≤ value3 a b c < 16777216.
Proof. unfold value3. lia. Qed.

Lemma quad_chars v :
  0 ≤ v < 16777216 →
  lookup_ (band (shr v 18) 63) ++ lookup_ (band (shr v 12) 63) ++ lookup_ (band (shr v 6) 63)
  ++ lookup_ (band 63 v) = quad v.
Proof.
  intros Hv. destruct (Base64.groups_range v Hv) as (H0 & H1 & H2 & H3).
  change 63 with (2 ^ 6 - 1). rewrite (band_comm _ v), !shr_div by lia.
  rewrite !band_ones by (Z.to_euclidean_division_equations; lia).
  change (2 ^ 18) with 262144. change (2 ^ 12) with 4096. change (2 ^ 6) with 64.
  rewrite (Z.mod_small (v `div` 262144)) by (Z.to_euclidean_division_equations; lia).
  unfold quad. by rewrite !lookup_ch by done.
Qed.

Lemma encodeChunk_spec fuel s x l rest k :
  0 ≤ x → drop (Z.to_nat x) s = l ++ rest → length l = (3 * k)%nat → (k ≤ fuel)%nat →
  Forall (λ b, byte b) l → encodeChunk fuel s x (x + Z.of_nat (length l)) = enc3 l.
Proof.
  revert x l k. induction fuel as [|fuel IH]; intros x l k Hx Hd Hk Hf Hb.
  { assert (l = []) as -> by (apply nil_length_inv; lia). done. }
  destruct l as [|a [|b [|c l]]]; simpl in Hk; try lia.
  { cbn [encodeChunk length]. by rewrite Z.add_0_r, Z.ltb_irrefl. }
  rewrite !Forall_cons in Hb. destruct Hb as (Ha & Hb & Hc & Hl). cbn [encodeChunk].
  rewrite (proj2 (Z.ltb_lt _ _)) by (cbn [length]; lia).
  assert (elt s x = a) as ->.
  { unfold elt. rewrite <-(Z.add_0_r x). by erewrite at_drop by done. }
  assert (elt s (x + 1) = b) as -> by (unfold elt; by erewrite at_drop by done).
  assert (elt s (x + 2) = c) as -> by (unfold elt; by erewrite at_drop by done).
  rewrite chunk_value by done. cbv zeta. rewrite quad_chars by (by apply value3_range).
  cbn [enc3]. f_equal. etrans; [|apply (IH (x + 3) l (k - 1)%nat); [lia| |lia|lia|done]].
  - f_equal. simpl length. lia.
  - rewrite Z2Nat.inj_add, <-drop_drop, Hd by lia. done.
Qed.

Lemma enc3_app l1 l2 k : length l1 = (3 * k)%nat → enc3 (l1 ++ l2) = enc3 l1 ++ enc3 l2.
Proof.
  revert l1. induction k as [|k IH]; intros l1 Hk.
  { assert (l1 = []) as -> by (apply nil_length_inv; lia). done. }
  destruct l1 as [|a [|b [|c l1]]]; simpl in Hk; try lia.
  cbn [app enc3]. rewrite IH by lia. by rewrite (assoc_L (++)).
Qed.

(** A chunk is a number of whole groups. *)
Lemma chunk_groups : ∃ m, maxChunkLength = Z.of_nat (3 * m) ∧ (0 < m)%nat.
Proof. exists (Z.to_nat 5461). rewrite Nat2Z.inj_mul, Z2Nat.id by lia. split; [done|lia]. Qed.

Lemma encode_chunks_done fuel s y len : len ≤ y → encode_chunks fuel s y len = [].
Proof.
  intros Hy. destruct fuel; [done|]. cbn [encode_chunks]. by rewrite (proj2 (Z.ltb_ge _ _)) by lia.
Qed.

Lemma encode_chunks_spec fuel s x l rest k :
  0 ≤ x → drop (Z.to_nat x) s = l ++ rest → length l = (3 * k)%nat → (length l ≤ fuel)%nat →
  Forall (λ b, byte b) l → encode_chunks fuel s x (x + Z.of_nat (length l)) = enc3 l.
Proof.
  destruct chunk_groups as (m & HM & Hm).
  revert x l k. induction fuel as [|fuel IH]; intros x l k Hx Hd Hk Hf Hb.
  { assert (l = []) as -> by (apply nil_length_inv; lia). done. }
  cbn [encode_chunks]. destruct (x <? x + Z.of_nat (length l)) eqn:Hlt; bool_prop.
  2:{ assert (l = []) as -> by (apply nil_length_inv; lia). done. }
  assert (length l ≤ length s)%nat as Hls.
  { apply (f_equal length) in Hd. rewrite length_drop, length_app in Hd. lia. }
  rewrite HM. destruct (_ <? _) eqn:Hc; bool_prop.
  - rewrite (encodeChunk_spec _ s x l rest k), encode_chunks_done by (try done; lia). apply app_nil_r.
  - assert (length (take (3 * m) l) = (3 * m)%nat) as Ht by (rewrite length_take; lia).
    rewrite <-(take_drop (3 * m) l) in Hd, Hb |- *. rewrite Forall_app in Hb. destruct Hb as [Hb1 Hb2].
    rewrite (enc3_app _ _ m) by done. f_equal.
    + rewrite <-(encodeChunk_spec (length s) s x (take (3 * m) l) (drop (3 * m) l ++ rest) m);
        [by rewrite Ht|done|by rewrite (assoc_L (++))|done|lia|done].
    + rewrite <-(IH (x + Z.of_nat (3 * m)) (drop (3 * m) l) (k - m)%nat); [|lia| | | |done].
      * f_equal. rewrite length_app, length_drop, Ht. lia.
      * rewrite Z2Nat.inj_add, <-drop_drop, Hd, Nat2Z.id by lia.
        rewrite <-(assoc_L (++)). rewrite <-Ht at 1. by rewrite drop_app_length.
      * rewrite length_drop. lia.
      * rewrite length_drop. lia.
Qed.

(** The last one or two bytes. *)
Lemma tail1_chars a :
  byte a → lookup_ (shr a 2) ++ lookup_ (band (shl a 4) 63) ++ codes "==" = enc_tail [a].
Proof.
  revert a. apply (byte_table (λ a, lookup_ (shr a 2) ++ lookup_ (band (shl a 4) 63) ++ codes "=="
                                    = enc_tail [a])). by vm_compute.
Qed.
Lemma tail2_chars a b :
  byte a → byte b →
  let tmp := shl a 8 + b in
  lookup_ (shr tmp 10) ++ lookup_ (band (shr tmp 4) 63) ++ lookup_ (band (shl tmp 2) 63) ++ codes "="
  = enc_tail [a; b].
Proof.
  intros Ha Hb. rewrite shl_mul by lia. cbv zeta. change (2 ^ 8) with 256.
  pose proof (Base64.groups_range (value3 a b 0)) as (H0 & H1 & H2 & _);
    [by apply value3_range|].
  change 63 with (2 ^ 6 - 1). rewrite !shr_div, (shl_mul _ 2) by lia.
  rewrite !band_ones by (Z.to_euclidean_division_equations; lia).
  change (2 ^ 10) with 1024. change (2 ^ 4) with 16. change (2 ^ 6) with 64. change (2 ^ 2) with 4.
  set (v := value3 a b 0) in *.
  assert ((a * 256 + b) `div` 1024 = Base64.d0 v) as ->
    by (unfold Base64.d0, v, value3; Z.to_euclidean_division_equations; lia).
  assert (((a * 256 + b) `div` 16) `mod` 64 = Base64.d1 v) as ->
    by (unfold Base64.d1, v, value3; Z.to_euclidean_division_equations; lia).
  assert (((a * 256 + b) * 4) `mod` 64 = Base64.d2 v) as ->
    by (unfold Base64.d2, v, value3; Z.to_euclidean_division_equations; lia).
  by rewrite !lookup_ch by done.
Qed.

Lemma fromByteArray_spec l3 r k :
  Forall (λ b, byte b) (l3 ++ r) → length l3 = (3 * k)%nat → (length r < 3)%nat →
  fromByteArray (l3 ++ r) = enc3 l3 ++ enc_tail r.
Proof.
  intros Hb Hk Hr. pose proof Hb as Hb'. rewrite Forall_app in Hb'. destruct Hb' as [Hb3 Hbr].
  unfold fromByteArray. set (s := l3 ++ r).
  assert (Z.of_nat (length s) = 3 * Z.of_nat k + Z.of_nat (length r)) as Hlen
    by (unfold s; rewrite length_app; lia).
  assert (Z.of_nat (length s) `mod` 3 = Z.of_nat (length r)) as ->.
  { rewrite Hlen, Z.add_comm, Z.mul_comm, Z.mod_add by lia. apply Z.mod_small. lia. }
  f_equal.
  - rewrite <-(encode_chunks_spec (length s) s 0 l3 r k) by
      (try done; unfold s; rewrite ?length_app; lia). f_equal. lia.
  - assert (∀ i y, r !! i = Some y → elt s (Z.of_nat (length l3 + i)) = y) as Helt.
    { intros i y Hy. unfold elt, at_. rewrite (proj2 (Z.ltb_ge _ _)), Nat2Z.id by lia.
      unfold s. by rewrite lookup_app_r, Nat.add_comm, Nat.add_sub, Hy by lia. }
    destruct r as [|a [|b [|c r]]]; simpl in Hr; [done| | |lia].
    + rewrite Forall_singleton in Hbr. change (Z.of_nat (length [a])) with 1.
      cbn [Z.eqb Pos.eqb]. rewrite <-(tail1_chars a) by done.
      replace (Z.of_nat (length s) - 1) with (Z.of_nat (length l3 + 0)) by (simpl in Hlen; lia).
      by rewrite (Helt 0%nat a).
    + rewrite Forall_cons, Forall_singleton in Hbr. destruct Hbr as [Ha Hb2].
      change (Z.of_nat (length [a; b])) with 2. cbn [Z.eqb Pos.eqb]. rewrite <-tail2_chars by done.
      replace (Z.of_nat (length s) - 1) with (Z.of_nat (length l3 + 1)) by (simpl in Hlen; lia).
      replace (Z.of_nat (length s) - 2) with (Z.of_nat (length l3 + 0)) by (simpl in Hlen; lia).
      by rewrite (Helt 0%nat a), (Helt 1%nat b).
Qed.

(** The page's [fromByteArray] and Go's [base64.StdEncoding] are the same
    encoder: cutting the input into chunks of 16383 bytes and the bit
    operations on 32-bit numbers give, for every byte string, the text that
    [EncodeToString] gives. *)
Theorem js_encoder_is_go_encoder s :
  fromByteArray (codes s) = codes (Base64.EncodeToString s).
Proof.
  destruct (split3 (codes s)) as (l3 & r & k & E & Hk & Hr). rewrite (go_encode s l3 r k) by done.
  rewrite E. apply (fromByteArray_spec l3 r k); [|done..]. rewrite <-E. apply codes_bytes.
Qed.

(** ** The decoder *)
Lemma quad_not_pad v : 0 ≤ v < 16777216 → Forall (λ c, c ≠ 61) (quad v).
Proof.
  intros Hv. destruct (Base64.groups_range v Hv) as (H0 & H1 & H2 & H3).
  repeat (constructor; [by apply rev_ch|]). done.
Qed.
Lemma enc3_not_pad l : Forall (λ b, byte b) l → Forall (λ c, c ≠ 61) (enc3 l).
Proof.
  induction l as [r Hr|a b c l IH] using list_ind3; intros Hb.
  { destruct r as [|? [|? [|? ?]]]; simpl in Hr; [constructor..|lia]. }
  rewrite !Forall_cons in Hb. destruct Hb as (Ha & Hb & Hc & Hl). cbn [enc3].
  apply Forall_app. split; [|by apply IH]. by apply quad_not_pad, value3_range.
Qed.
Lemma length_enc3 l k : length l = (3 * k)%nat → length (enc3 l) = (4 * k)%nat.
Proof.
  revert l. induction k as [|k IH]; intros l Hk.
  { assert (l = []) as -> by (apply nil_length_inv; lia). done. }
  destruct l as [|a [|b [|c l]]]; simpl in Hk; try lia.
  cbn [enc3]. rewrite length_app, IH by lia. cbn [quad length]. lia.
Qed.

Lemma indexOf_first pre rest :
  Forall (λ c, c ≠ 61) pre → indexOf 61 (pre ++ 61 :: rest) = Z.of_nat (length pre).
Proof.
  intros Hp. unfold indexOf. assert (list_find (λ x, x = 61) (pre ++ 61 :: rest)
    = Some (length pre, 61)) as ->; [|done].
  apply list_find_Some. split_and!; [by rewrite list_lookup_middle|done|].
  intros j y Hj Hlt. rewrite lookup_app_l in Hj by done. exact (Forall_lookup_1 _ _ _ _ Hp Hj).
Qed.
Lemma indexOf_none s : Forall (λ c, c ≠ 61) s → indexOf 61 s = -1.
Proof.
  intros Hp. unfold indexOf. assert (list_find (λ x, x = 61) s = None) as ->; [|done].
  by apply list_find_None.
Qed.

Lemma rev_quad s i l v n d :
  0 ≤ i → drop (Z.to_nat i) s = quad v ++ l → quad v !! Z.to_nat n = Some (ch d) → 0 ≤ n →
  0 ≤ d < 64 → rev s (i + n) = d.
Proof.
  intros Hi Hd Hq Hn Hr. unfold rev.
  erewrite at_drop; [|done..|]; [|rewrite lookup_app_l by (by eapply lookup_lt_Some); done].
  destruct (rev_ch d Hr) as [-> _]. done.
Qed.

Lemma tmp_value d0 d1 d2 d3 :
  0 ≤ d0 < 64 → 0 ≤ d1 < 64 → 0 ≤ d2 < 64 → 0 ≤ d3 < 64 →
  bor (bor (bor (shl d0 18) (shl d1 12)) (shl d2 6)) d3 = d0 * 262144 + d1 * 4096 + d2 * 64 + d3.
Proof.
  intros. rewrite !shl_mul by lia.
  rewrite (bor_add d0 (d1 * 2 ^ 12) 18) by lia.
  replace (d0 * 2 ^ 18 + d1 * 2 ^ 12) with ((d0 * 64 + d1) * 2 ^ 12) by lia.
  rewrite (bor_add _ (d2 * 2 ^ 6) 12) by lia.
  replace ((d0 * 64 + d1) * 2 ^ 12 + d2 * 2 ^ 6) with ((d0 * 4096 + d1 * 64 + d2) * 2 ^ 6) by lia.
  rewrite bor_add by lia. lia.
Qed.

Lemma store_app (pre : list Z) x y rest k :
  k = Z.of_nat (length pre) → byte x → store k x (pre ++ y :: rest) = pre ++ x :: rest.
Proof.
  intros -> Hx. unfold store. rewrite (proj2 (Z.ltb_ge _ _)), Nat2Z.id by lia.
  rewrite insert_app_r_alt, Nat.sub_diag by lia. cbn. by rewrite Z.mod_small.
Qed.

Lemma bytes_of_value a b c :
  byte a → byte b → byte c →
  let v := value3 a b c in
  band (shr v 16) 255 = a ∧ band (shr v 8) 255 = b ∧ band 255 v = c.
Proof.
  intros Ha Hb Hc v. pose proof (value3_range a b c Ha Hb Hc) as Hv. fold v in Hv.
  change 255 with (2 ^ 8 - 1). rewrite (band_comm _ v), !shr_div by lia.
  rewrite !band_ones by (Z.to_euclidean_division_equations; lia).
  unfold v, value3 in *. change (2 ^ 16) with 65536. change (2 ^ 8) with 256.
  split_and!; Z.to_euclidean_division_equations; lia.
Qed.

Lemma store3 (pre : list Z) a b c rest j :
  j = Z.of_nat (length pre) → byte a → byte b → byte c →
  store (j + 2) c (store (j + 1) b (store j a (pre ++ 0 :: 0 :: 0 :: rest)))
  = (pre ++ [a; b; c]) ++ rest.
Proof.
  intros Hj Ha Hb Hc. rewrite store_app by done.
  change (pre ++ a :: 0 :: 0 :: rest) with (pre ++ [a] ++ 0 :: 0 :: rest).
  rewrite (assoc_L (++)), store_app by (rewrite ?length_app; simpl; lia).
  change (b :: 0 :: rest) with ([b] ++ 0 :: rest).
  rewrite (assoc_L (++)), store_app by (rewrite ?length_app; simpl; lia).
  by rewrite <-!(assoc_L (++)).
Qed.

(** The bound [L] need not be a multiple of four. *)
Lemma decode_loop_spec fuel s L i j l3 k rest pre z :
  i + 4 * Z.of_nat k - 4 < L ≤ i + 4 * Z.of_nat k →
  0 ≤ i → drop (Z.to_nat i) s = enc3 l3 ++ rest → length l3 = (3 * k)%nat → (k ≤ fuel)%nat →
  Forall (λ b, byte b) l3 → j = Z.of_nat (length pre) →
  decode_loop fuel s L i j (pre ++ replicate (3 * k + z) 0)
  = (i + 4 * Z.of_nat k, j + 3 * Z.of_nat k, pre ++ l3 ++ replicate z 0).
Proof.
  revert i j l3 k pre. induction fuel as [|fuel IH]; intros i j l3 k pre HL Hi Hd Hk Hf Hb Hj.
  { assert (k = 0%nat) as -> by lia. assert (l3 = []) as -> by (apply nil_length_inv; lia).
    cbn [decode_loop]. by rewrite !Z.add_0_r. }
  cbn [decode_loop]. destruct k as [|k].
  { assert (l3 = []) as -> by (apply nil_length_inv; lia).
    rewrite (proj2 (Z.ltb_ge _ _)) by lia. by rewrite !Z.add_0_r. }
  rewrite (proj2 (Z.ltb_lt _ _)) by lia.
  destruct l3 as [|a [|b [|c l3]]]; simpl in Hk; try lia.
  rewrite !Forall_cons in Hb. destruct Hb as (Ha & Hb & Hc & Hl).
  cbn [enc3] in Hd. rewrite <-(assoc_L (++)) in Hd. set (v := value3 a b c) in *.
  destruct (Base64.groups_range v) as (R0 & R1 & R2 & R3); [by apply value3_range|].
  assert (rev s i = Base64.d0 v) as ->
    by (rewrite <-(Z.add_0_r i); by eapply rev_quad).
  rewrite (rev_quad s i _ v 1 (Base64.d1 v)),
    (rev_quad s i _ v 2 (Base64.d2 v)), (rev_quad s i _ v 3 (Base64.d3 v)) by done.
  rewrite tmp_value, Base64.groups_value by (try done; by apply value3_range).
  destruct (bytes_of_value a b c) as (E1 & E2 & E3); [done..|]. fold v in E1, E2, E3.
  cbv zeta. rewrite E1, E2, E3.
  replace (3 * S k + z)%nat with (3 + (3 * k + z))%nat by lia.
  rewrite replicate_add. cbn [replicate app]. rewrite store3 by done.
  rewrite (IH (i + 4) (j + 3) l3 k (pre ++ [a; b; c])); try done; try lia.
  - f_equal; [f_equal; lia|]. by rewrite <-(assoc_L (++)).
  - rewrite Z2Nat.inj_add, <-drop_drop, Hd by lia. done.
  - rewrite length_app. simpl. lia.
Qed.

(** *** The last group *)
Lemma tail1_byte a :
  byte a → let v := value3 a 0 0 in
  band 255 (bor (shl (Base64.d0 v) 2) (shr (Base64.d1 v) 4)) = a.
Proof.
  revert a. apply (byte_table (λ a, let v := value3 a 0 0 in
    band 255 (bor (shl (Base64.d0 v) 2) (shr (Base64.d1 v) 4)) = a)). by vm_compute.
Qed.
Lemma tail2_bytes a b :
  byte a → byte b → let v := value3 a b 0 in
  let tmp := bor (bor (shl (Base64.d0 v) 10) (shl (Base64.d1 v) 4)) (shr (Base64.d2 v) 2) in
  band (shr tmp 8) 255 = a ∧ band 255 tmp = b.
Proof.
  intros Ha Hb v. destruct (Base64.groups_range v) as (R0 & R1 & R2 & _); [by apply value3_range|].
  rewrite !shl_mul, shr_div by lia.
  assert (0 ≤ Base64.d2 v `div` 2 ^ 2 < 16) by (Z.to_euclidean_division_equations; lia).
  rewrite (bor_add _ (Base64.d1 v * 2 ^ 4) 10) by lia.
  replace (Base64.d0 v * 2 ^ 10 + Base64.d1 v * 2 ^ 4)
    with ((Base64.d0 v * 64 + Base64.d1 v) * 2 ^ 4) by lia.
  rewrite bor_add by lia.
  assert ((Base64.d0 v * 64 + Base64.d1 v) * 2 ^ 4 + Base64.d2 v `div` 2 ^ 2 = a * 256 + b) as ->.
  { unfold Base64.d0, Base64.d1, Base64.d2, v, value3.
    change (2 ^ 4) with 16. change (2 ^ 2) with 4. Z.to_euclidean_division_equations; lia. }
  cbv zeta. change 255 with (2 ^ 8 - 1). rewrite (band_comm _ (_ * 256 + _)), shr_div by lia.
  rewrite !band_ones by (Z.to_euclidean_division_equations; lia). change (2 ^ 8) with 256.
  split; Z.to_euclidean_division_equations; lia.
Qed.

(** The digits of the last group. *)
Lemma rev_tail l3 k t n d :
  length l3 = (3 * k)%nat → t !! n = Some (ch d) → 0 ≤ d < 64 →
  rev (enc3 l3 ++ t) (4 * Z.of_nat k + Z.of_nat n) = d.
Proof.
  intros Hk Ht Hd. unfold rev, at_. rewrite (proj2 (Z.ltb_ge _ _)) by lia.
  rewrite lookup_app_r by (rewrite (length_enc3 _ k) by done; lia). rewrite (length_enc3 _ k) by done.
  replace (Z.to_nat (4 * Z.of_nat k + Z.of_nat n) - 4 * k)%nat with n by lia. rewrite Ht.
  destruct (rev_ch d Hd) as [-> _]. done.
Qed.

Lemma getLens_padded pre pad k :
  Forall (λ c, c ≠ 61) pre → (length pre + S (length pad) = 4 * k)%nat → (S (length pad) < 4)%nat →
  getLens (pre ++ 61 :: pad) = Ok (Z.of_nat (length pre), Z.of_nat (S (length pad))).
Proof.
  intros Hp Hk Hpad. unfold getLens. rewrite indexOf_first by done.
  assert (Z.of_nat (length (pre ++ 61 :: pad)) = 4 * Z.of_nat k) as ->
    by (rewrite length_app; cbn [length]; lia).
  rewrite Z.mul_comm, Z.mod_mul by lia. rewrite Z.ltb_irrefl.
  rewrite (proj2 (Z.eqb_neq _ (-1))), (proj2 (Z.eqb_neq _ (_ * 4))) by lia.
  f_equal. f_equal. Z.to_euclidean_division_equations; lia.
Qed.

Section decode_encoded.
Context (l3 : list Z) (k : nat) (Hk : length l3 = (3 * k)%nat) (Hb3 : Forall (λ b, byte b) l3).

Let He := length_enc3 l3 k Hk.
Let Hnp := enc3_not_pad l3 Hb3.

Lemma toByteArray_0 : toByteArray (enc3 l3 ++ enc_tail []) = Ok (l3 ++ []).
Proof.
  unfold toByteArray, _byteLength. cbn [enc_tail]. rewrite !app_nil_r. unfold getLens. rewrite indexOf_none, He by done.
  replace (Z.of_nat (4 * k)) with (4 * Z.of_nat k) by lia.
  rewrite Z.mul_comm, Z.mod_mul, Z.ltb_irrefl, !Z.eqb_refl by lia. cbn beta iota.
  rewrite Z.ltb_irrefl. change (0 =? 2) with false. change (0 =? 1) with false. cbn beta iota.
  replace (3 * (Z.of_nat k * 4 + 0) `div` 4 - 0) with (3 * Z.of_nat k)
    by (Z.to_euclidean_division_equations; lia).
  rewrite (proj2 (Z.ltb_ge _ _)) by lia.
  replace (Z.to_nat (3 * Z.of_nat k)) with (3 * k + 0)%nat by lia.
  pose proof (decode_loop_spec (4 * k) (enc3 l3) (Z.of_nat k * 4) 0 0 l3 k [] [] 0) as Hl.
  cbn [app] in Hl. rewrite Hl by (try done; rewrite ?app_nil_r; try done; lia).
  by rewrite app_nil_r.
Qed.

Lemma toByteArray_1 a : byte a → toByteArray (enc3 l3 ++ enc_tail [a]) = Ok (l3 ++ [a]).
Proof.
  intros Hbr. unfold toByteArray, _byteLength. cbn [enc_tail]. set (v := value3 a 0 0).
  destruct (Base64.groups_range v) as (R0 & R1 & _); [apply value3_range; lia|].
  set (t := [ch (Base64.d0 v); ch (Base64.d1 v); 61; 61]).
  assert (getLens (enc3 l3 ++ t) = Ok (4 * Z.of_nat k + 2, 2)) as ->.
  { change t with ([ch (Base64.d0 v); ch (Base64.d1 v)] ++ 61 :: [61]).
    rewrite (assoc_L (++)), (getLens_padded _ [61] (k + 1));
      [rewrite length_app, He; cbn [length]; do 2 f_equal; lia| |rewrite length_app, He; simpl; lia|simpl; lia].
    apply Forall_app. split; [done|]. repeat (constructor; [by apply rev_ch|]). done. }
  replace (3 * (4 * Z.of_nat k + 2 + 2) `div` 4 - 2) with (3 * Z.of_nat k + 1)
    by (Z.to_euclidean_division_equations; lia).
  rewrite (proj2 (Z.ltb_ge _ _)) by lia. change (0 <? 2) with true. change (2 =? 2) with true.
  change (2 =? 1) with false. cbn beta iota.
  replace (Z.to_nat (3 * Z.of_nat k + 1)) with (3 * k + 1)%nat by lia.
  pose proof (decode_loop_spec (length (enc3 l3 ++ t)) (enc3 l3 ++ t) (4 * Z.of_nat k + 2 - 4)
                0 0 l3 k t [] 1) as Hl. cbn [app] in Hl.
  rewrite Hl by (try done; rewrite ?length_app, ?He; lia). rewrite !Z.add_0_l.
  assert (rev (enc3 l3 ++ t) (4 * Z.of_nat k) = Base64.d0 v) as ->
    by (rewrite <-(Z.add_0_r (4 * _)); by apply (rev_tail l3 k t 0)).
  assert (rev (enc3 l3 ++ t) (4 * Z.of_nat k + 1) = Base64.d1 v) as ->
    by (by apply (rev_tail l3 k t 1)). unfold v. rewrite tail1_byte by done.
  cbn [replicate]. rewrite store_app by (try done; lia). done.
Qed.

Lemma toByteArray_2 a b :
  byte a → byte b → toByteArray (enc3 l3 ++ enc_tail [a; b]) = Ok (l3 ++ [a; b]).
Proof.
  intros Ha Hb2. unfold toByteArray, _byteLength. cbn [enc_tail].
  set (v := value3 a b 0).
  destruct (Base64.groups_range v) as (R0 & R1 & R2 & _); [apply value3_range; lia|].
  set (t := [ch (Base64.d0 v); ch (Base64.d1 v); ch (Base64.d2 v); 61]).
  assert (getLens (enc3 l3 ++ t) = Ok (4 * Z.of_nat k + 3, 1)) as ->.
  { change t with ([ch (Base64.d0 v); ch (Base64.d1 v); ch (Base64.d2 v)] ++ 61 :: []).
    rewrite (assoc_L (++)), (getLens_padded _ [] (k + 1));
      [rewrite length_app, He; cbn [length]; do 2 f_equal; lia| |rewrite length_app, He; simpl; lia|simpl; lia].
    apply Forall_app. split; [done|]. repeat (constructor; [by apply rev_ch|]). done. }
  replace (3 * (4 * Z.of_nat k + 3 + 1) `div` 4 - 1) with (3 * Z.of_nat k + 2)
    by (Z.to_euclidean_division_equations; lia).
  rewrite (proj2 (Z.ltb_ge _ _)) by lia. change (0 <? 1) with true. change (1 =? 2) with false.
  change (1 =? 1) with true. cbn beta iota.
  replace (Z.to_nat (3 * Z.of_nat k + 2)) with (3 * k + 2)%nat by lia.
  pose proof (decode_loop_spec (length (enc3 l3 ++ t)) (enc3 l3 ++ t) (4 * Z.of_nat k + 3 - 4)
                0 0 l3 k t [] 2) as Hl. cbn [app] in Hl.
  rewrite Hl by (try done; rewrite ?length_app, ?He; lia). rewrite !Z.add_0_l.
  assert (rev (enc3 l3 ++ t) (4 * Z.of_nat k) = Base64.d0 v) as ->
    by (rewrite <-(Z.add_0_r (4 * _)); by apply (rev_tail l3 k t 0)).
  assert (rev (enc3 l3 ++ t) (4 * Z.of_nat k + 1) = Base64.d1 v) as ->
    by (by apply (rev_tail l3 k t 1)).
  assert (rev (enc3 l3 ++ t) (4 * Z.of_nat k + 2) = Base64.d2 v) as ->
    by (by apply (rev_tail l3 k t 2)).
  destruct (tail2_bytes a b Ha Hb2) as [E1 E2]. fold v in E1, E2. cbv zeta in E1, E2 |- *.
  rewrite E1, E2. cbn [replicate]. rewrite store_app by (try done; lia).
  change (l3 ++ a :: [0]) with (l3 ++ [a] ++ [0]).
  rewrite (assoc_L (++)), store_app by (rewrite ?length_app; simpl; try done; lia).
  by rewrite <-(assoc_L (++)).
Qed.
End decode_encoded.

Lemma toByteArray_spec l3 r k :
  Forall (λ b, byte b) (l3 ++ r) → length l3 = (3 * k)%nat → (length r < 3)%nat →
  toByteArray (enc3 l3 ++ enc_tail r) = Ok (l3 ++ r).
Proof.
  intros Hb Hk Hr. rewrite Forall_app in Hb. destruct Hb as [Hb3 Hbr].
  destruct r as [|a [|b [|c r]]]; simpl in Hr; [| | |lia].
  - by apply (toByteArray_0 l3 k).
  - rewrite Forall_singleton in Hbr. by apply (toByteArray_1 l3 k).
  - rewrite Forall_cons, Forall_singleton in Hbr. destruct Hbr. by apply (toByteArray_2 l3 k).
Qed.

(** C38: What the page encodes it decodes: for every array of bytes [b],
    [toByteArray(fromByteArray(b))] is [b]. *)
Theorem js_base64_roundtrip b :
  Forall (λ x, byte x) b → toByteArray (fromByteArray b) = Ok b.
Proof.
  intros Hb. destruct (split3 b) as (l3 & r & k & -> & Hk & Hr).
  rewrite (fromByteArray_spec l3 r k) by done. by apply (toByteArray_spec l3 r k).
Qed.
Lemma js_base64_roundtrip_witness :
  toByteArray (fromByteArray [0; 255; 16; 131]) = Ok [0; 255; 16; 131].
Proof. apply (js_base64_roundtrip [0; 255; 16; 131]). repeat constructor; lia. Defined.

(** ** Every input *)
Lemma length_store k x arr : length (store k x arr) = length arr.
Proof. unfold store. destruct (_ <? _); [done|]. apply length_insert. Qed.
Lemma store_bytes k x arr : Forall (λ b, byte b) arr → Forall (λ b, byte b) (store k x arr).
Proof.
  intros Ha. unfold store. destruct (_ <? _); [done|]. apply Forall_insert; [done|].
  apply Z.mod_pos_bound. lia.
Qed.
Lemma decode_loop_shape fuel s L i j arr i' j' arr' :
  decode_loop fuel s L i j arr = (i', j', arr') → Forall (λ b, byte b) arr →
  length arr' = length arr ∧ Forall (λ b, byte b) arr'.
Proof.
  revert i j arr. induction fuel as [|fuel IH]; intros i j arr E Hb; cbn [decode_loop] in E.
  { by simplify_eq. }
  destruct (i <? L); [|by simplify_eq]. cbv zeta in E.
  apply IH in E as [-> ?]; [|by repeat apply store_bytes]. by rewrite !length_store.
Qed.

Lemma getLens_range s v p :
  getLens s = Ok (v, p) →
  0 ≤ v ∧ 0 ≤ p ≤ 4 ∧ (v + p) `mod` 4 = 0 ∧ (_byteLength v p < 0 ↔ head s = Some 61).
Proof.
  unfold getLens, _byteLength. intros E. destruct (0 <? _) eqn:Hm; [done|]. bool_prop.
  assert (Z.of_nat (length s) `mod` 4 = 0) as Hlen
    by (pose proof (Z.mod_pos_bound (Z.of_nat (length s)) 4); lia).
  unfold indexOf in E. destruct (list_find _ s) as [[n x]|] eqn:Hf.
  - apply list_find_Some in Hf as (Hn & -> & Hfirst).
    pose proof (lookup_lt_Some _ _ _ Hn).
    rewrite (proj2 (Z.eqb_neq (Z.of_nat n) (-1))) in E by lia.
    rewrite (proj2 (Z.eqb_neq (Z.of_nat n) _)) in E by lia. injection E as <- <-.
    assert (head s = Some 61 ↔ n = 0%nat) as ->.
    { destruct s as [|y s]; [done|]. destruct n as [|n]; simplify_eq/=; [done|].
      pose proof (Hfirst 0%nat y eq_refl). naive_solver lia. }
    split_and!; Z.to_euclidean_division_equations; lia.
  - apply list_find_None in Hf. rewrite Z.eqb_refl, Z.eqb_refl in E. injection E as <- <-.
    assert (¬ head s = Some 61) as Hh.
    { destruct s as [|y s]; [done|]. rewrite Forall_cons in Hf. naive_solver. }
    split_and!; try lia; [by rewrite Z.add_0_r|]. split; [|tauto].
    Z.to_euclidean_division_equations; lia.
Qed.

(** [toByteArray] on every string whatsoever. It throws exactly when the
    length is not a multiple of four or the first character is the padding
    mark (the length of the array would be negative); otherwise the array has
    the length [byteLength] announces, no write leaves it, and every element
    is a byte. *)
Theorem js_decoder_total s :
  match toByteArray s with
  | Ok arr => byteLength s = Ok (Z.of_nat (length arr)) ∧ Forall (λ b, byte b) arr
              ∧ Z.of_nat (length s) `mod` 4 = 0 ∧ head s ≠ Some 61
  | Err RangeError => Z.of_nat (length s) `mod` 4 = 0 ∧ head s = Some 61
  | Err (JsError _) => Z.of_nat (length s) `mod` 4 ≠ 0
  end.
Proof.
  unfold toByteArray, byteLength. destruct (getLens s) as [[v p]|e] eqn:Hg.
  2:{ unfold getLens in Hg. destruct (0 <? _) eqn:Hm; simplify_eq. bool_prop. lia. }
  assert (Z.of_nat (length s) `mod` 4 = 0) as Hm.
  { unfold getLens in Hg. destruct (0 <? _) eqn:Hm; [done|]. bool_prop.
    pose proof (Z.mod_pos_bound (Z.of_nat (length s)) 4). lia. }
  destruct (getLens_range s v p Hg) as (Hv & Hp & Hd & Hneg).
  destruct (_ <? 0) eqn:Hn; bool_prop; [by split; [|apply Hneg]|].
  destruct (decode_loop _ _ _ _ _ _) as [[i j] arr] eqn:Hl.
  apply decode_loop_shape in Hl as [Hlen Hb].
  2:{ apply Forall_replicate. lia. }
  rewrite length_replicate in Hlen.
  assert (∀ arr', length arr' = length arr → Forall (λ b, byte b) arr' →
    Ok (_byteLength v p) = Ok (E:=js_error) (Z.of_nat (length arr')) ∧ Forall (λ b, byte b) arr'
    ∧ Z.of_nat (length s) `mod` 4 = 0 ∧ head s ≠ Some 61) as Hfin.
  { intros arr' -> Hb'. split_and!; [|done..|rewrite <-Hneg; lia]. f_equal. lia. }
  destruct (p =? 2), (p =? 1); apply Hfin; rewrite ?length_store; repeat apply store_bytes; done.
Qed.
End JsBase64.
