(* ===== verification/GoFloat.v ===== *)
(** * [float64] and its text forms

    IEEE binary64 values are [spec_float] with precision 53 and maximal
    exponent 1024; [strconv.ParseFloat] and [strconv.FormatFloat(x, 'f', -1,
    64)] are exact computations on integers followed by one correct rounding. *)
From S2P Require Import Prelude GoText.
From Stdlib Require Import Ascii.
From Stdlib Require Export SpecFloat.

Abbreviation float64 := spec_float.
Global Instance spec_float_eq_dec : EqDecision spec_float.
Proof. solve_decision. Defined.

Definition float_zero : float64 := S754_zero false.

(** The float nearest to [num / den], ties to even. *)
Definition round_ratio (sign : bool) (num den : Z) : float64 :=
  if (num =? 0)%Z then S754_zero sign
  else
    let '(q, e, l) := SFdiv_core_binary 53 1024 num 0 den 0 in
    binary_round_aux 53 1024 sign q e l.

(** [float64(n)] for an integer. *)
Definition float_of_Z (n : Z) : float64 := round_ratio (n <? 0)%Z (Z.abs n) 1.

(** The integer part, towards zero, of a finite float ([uint64(x)], [int64(x)]
    when it fits). *)
Definition trunc_float (x : float64) : Z :=
  match x with
  | S754_finite s m e =>
      let a := if (0 <=? e)%Z then (Z.pos m * 2 ^ e)%Z else (Z.pos m `div` 2 ^ (- e))%Z in
      if s then (- a)%Z else a
  | _ => 0%Z
  end.

(** Comparisons of Go: false on NaN. *)
Definition float_lt (x y : float64) : bool := SFltb x y.
Definition float_le (x y : float64) : bool := SFleb x y.
Definition float_eq (x y : float64) : bool := SFeqb x y.

(** ** Parsing *)
Definition lower (c : ascii) : ascii :=
  let z := byte_val c in
  if ((65 <=? z) && (z <=? 90))%Z then byte_of (z + 32) else c.
Fixpoint lower_string (s : string) : string :=
  match s with "" => "" | String c s => String (lower c) (lower_string s) end.

(** [special]: infinities with an optional sign, NaN without one. *)
Definition parse_special (s : string) : option float64 :=
  let '(neg, rest) := split_sign s in
  if bool_decide (lower_string rest = "inf") || bool_decide (lower_string rest = "infinity")
  then Some (S754_infinity neg)
  else if bool_decide (lower_string s = "nan") then Some S754_nan
  else None.

(** [underscoreOK]: an underscore stands between digits, or after a base
    prefix. [i] is the class of the last byte: a digit or prefix, an
    underscore, anything else, or the start. *)
Inductive us_class := UStart | UDigit | UUnder | UOther.
Fixpoint underscore_go (hex : bool) (i : us_class) (s : string) : bool :=
  match s with
  | "" => match i with UUnder => false | _ => true end
  | String c s =>
      let z := byte_val (lower c) in
      if is_digit c || (hex && (97 <=? z)%Z && (z <=? 102)%Z) then underscore_go hex UDigit s
      else if bool_decide (c = "_"%char) then
        match i with UDigit => underscore_go hex UUnder s | _ => false end
      else match i with UUnder => false | _ => underscore_go hex UOther s end
  end.
Definition underscoreOK (s : string) : bool :=
  let s := (split_sign s).2 in
  match s with
  | String "0" (String c rest) =>
      let l := lower c in
      if bool_decide (l = "b"%char) || bool_decide (l = "o"%char) || bool_decide (l = "x"%char)
      then underscore_go (bool_decide (l = "x"%char)) UDigit rest
      else underscore_go false UStart s
  | _ => underscore_go false UStart s
  end.

Definition hex_val (c : ascii) : option Z :=
  let z := byte_val (lower c) in
  if is_digit c then Some (z - 48)%Z
  else if ((97 <=? z) && (z <=? 102))%Z then Some (z - 87)%Z else None.

(** The mantissa loop: digits in [base], one optional dot, underscores. The
    result is the mantissa as an integer, the number of digits after the dot,
    whether a digit was seen, and the rest of the text. *)
Fixpoint read_mantissa (base : Z) (s : string) (mant frac : Z) (dot digits : bool) :
    Z * Z * bool * string :=
  match s with
  | "" => (mant, frac, digits, "")
  | String c rest =>
      if bool_decide (c = "_"%char) then read_mantissa base rest mant frac dot digits
      else if bool_decide (c = "."%char) then
        if dot then (mant, frac, digits, s) else read_mantissa base rest mant frac true digits
      else
        match (if (base =? 16)%Z then hex_val c else digit_val c) with
        | Some d =>
            read_mantissa base rest (mant * base + d) (if dot then frac + 1 else frac)%Z dot true
        | None => (mant, frac, digits, s)
        end
  end.

(** Exponent digits; the value stops growing at 10000. *)
Fixpoint read_exp_digits (s : string) (e : Z) : Z * string :=
  match s with
  | "" => (e, "")
  | String c rest =>
      if bool_decide (c = "_"%char) then read_exp_digits rest e
      else match digit_val c with
           | Some d => read_exp_digits rest (if (e <? 10000)%Z then e * 10 + d else e)%Z
           | None => (e, s)
           end
  end.

(** The optional exponent: [None] when it is malformed or, in base 16,
    missing. *)
Definition read_exponent (base : Z) (s : string) : option (Z * string) :=
  match s with
  | String c rest =>
      if bool_decide (lower c = (if (base =? 16)%Z then "p" else "e")%char) then
        let '(neg, rest) := split_sign rest in
        match rest with
        | String c' _ =>
            if is_digit c' then
              let '(e, rest) := read_exp_digits rest 0 in
              Some ((if neg then - e else e)%Z, rest)
            else None
        | "" => None
        end
      else if (base =? 16)%Z then None else Some (0%Z, s)
  | "" => if (base =? 16)%Z then None else Some (0%Z, s)
  end.

(** [mant * 10^e], rounded once. Values whose decimal point lies outside
    [-330, 310] are zero or infinite without computing the power. *)
Definition decimal_to_float (neg : bool) (mant e : Z) : float64 :=
  if (mant =? 0)%Z then S754_zero neg
  else
    let dp := (Z.of_nat (str_len (FormatUint mant 10)) + e)%Z in
    if (310 <? dp)%Z then S754_infinity neg
    else if (dp <? -330)%Z then S754_zero neg
    else if (0 <=? e)%Z then round_ratio neg (mant * 10 ^ e) 1
    else round_ratio neg mant (10 ^ (- e)).

(** [mant * 2^e], rounded once. *)
Definition binary_to_float (neg : bool) (mant e : Z) : float64 :=
  if (mant =? 0)%Z then S754_zero neg
  else
    let dp := (Z.log2 mant + e)%Z in
    if (1100 <? dp)%Z then S754_infinity neg
    else if (dp <? -1200)%Z then S754_zero neg
    else if (0 <=? e)%Z then round_ratio neg (mant * 2 ^ e) 1
    else round_ratio neg mant (2 ^ (- e)).

Definition is_infinite (x : float64) : bool :=
  match x with S754_infinity _ => true | _ => false end.

Definition ParseFloat (s : string) : float64 * option NumError :=
  match parse_special s with
  | Some x => (x, None)
  | None =>
      let '(neg, body) := split_sign s in
      let '(base, digits) :=
        match body with
        | String "0" (String c (String _ _ as rest)) =>
            if bool_decide (lower c = "x"%char) then (16%Z, rest) else (10%Z, body)
        | _ => (10%Z, body)
        end in
      let '(mant, frac, sawdigits, rest) := read_mantissa base digits 0 0 false false in
      if negb sawdigits then (float_zero, Some ErrSyntax)
      else
        match read_exponent base rest with
        | Some (e, "") =>
            if Contains s "_" && negb (underscoreOK s) then (float_zero, Some ErrSyntax)
            else
              let x := if (base =? 16)%Z then binary_to_float neg mant (e - 4 * frac)
                       else decimal_to_float neg mant (e - frac) in
              if is_infinite x then (x, Some ErrRange) else (x, None)
        | _ => (float_zero, Some ErrSyntax)
        end
  end.

(** ** Printing

    The fewest digits that read back as the same value: for [n] digits the two
    decimals around the value are tried, the nearer one first. *)
Definition float_ratio (m : positive) (e : Z) : Z * Z :=
  if (0 <=? e)%Z then (Z.pos m * 2 ^ e, 1)%Z else (Z.pos m, 2 ^ (- e))%Z.

(** The decimal exponent [k] with [10^(k-1) <= num/den < 10^k]: an estimate
    from the bit lengths, corrected upwards. *)
Fixpoint find_dp (fuel : nat) (num den k : Z) : Z :=
  match fuel with
  | O => k
  | S fuel =>
      if (if (0 <=? k)%Z then (num <? den * 10 ^ k)%Z else (num * 10 ^ (- k) <? den)%Z)
      then k else find_dp fuel num den (k + 1)
  end.
Definition decimal_point (num den : Z) : Z :=
  find_dp 10 num den (((Z.log2 num - Z.log2 den - 1) * 30103) `div` 100000)%Z.

(** [d * 10^p] read back. *)
Definition reads_back (x : float64) (sign : bool) (d p : Z) : bool :=
  bool_decide (decimal_to_float sign d p = x).

Fixpoint shortest_go (fuel : nat) (x : float64) (sign : bool) (num den k n : Z) : option (Z * Z) :=
  match fuel with
  | O => None
  | S fuel =>
      let p := (k - n)%Z in
      let '(a, b) := if (0 <=? p)%Z then (num, den * 10 ^ p)%Z else (num * 10 ^ (- p), den)%Z in
      let d := (a `div` b)%Z in
      let r := (a `mod` b)%Z in
      let '(d1, d2) :=
        if (2 * r <? b)%Z || ((2 * r =? b)%Z && Z.even d) then (d, d + 1)%Z else (d + 1, d)%Z in
      if reads_back x sign d1 p then Some (d1, p)
      else if reads_back x sign d2 p then Some (d2, p)
      else shortest_go fuel x sign num den k (n + 1)
  end.

Fixpoint zeros (n : nat) : string :=
  match n with O => "" | S n => String "0"%char (zeros n) end.
Fixpoint str_take (n : nat) (s : string) : string :=
  match n, s with
  | S n, String c s => String c (str_take n s)
  | _, _ => ""
  end.
Fixpoint str_skip (n : nat) (s : string) : string :=
  match n, s with
  | S n, String _ s => str_skip n s
  | _, _ => s
  end.

(** [%f] of the digits of [d], with the last digit worth [10^p]. *)
Definition fmt_fixed (d p : Z) : string :=
  let digits := FormatUint d 10 in
  if (0 <=? p)%Z then digits +:+ zeros (Z.to_nat p)
  else
    let n := Z.of_nat (str_len digits) in
    if (n + p <=? 0)%Z then "0." +:+ zeros (Z.to_nat (- (n + p))) +:+ digits
    else str_take (Z.to_nat (n + p)) digits +:+ "." +:+ str_skip (Z.to_nat (n + p)) digits.

(** [strconv.FormatFloat(x, 'f', -1, 64)]. Seventeen digits identify every
    binary64 value, so the search always ends within its fuel. *)
Definition FormatFloat (x : float64) : string :=
  match x with
  | S754_nan => "NaN"
  | S754_infinity false => "+Inf"
  | S754_infinity true => "-Inf"
  | S754_zero s => if s then "-0" else "0"
  | S754_finite s m e =>
      let '(num, den) := float_ratio m e in
      match shortest_go 17 x s num den (decimal_point num den) 1 with
      | Some (d, p) => (if s then "-" else "") +:+ fmt_fixed d p
      | None => ""
      end
  end.
