(* ===== verification/GoTime.v ===== *)
(** * Durations and timestamps of the Go standard library

    A [time.Duration] is its number of nanoseconds (an [int64]); an instant is
    its number of nanoseconds since the Unix epoch. Texts are those of
    [Duration.String], [time.ParseDuration] and the [RFC3339Nano] layout. *)
From S2P Require Import Prelude GoText GoFloat.
From Stdlib Require Import Ascii.

Definition Nanosecond : Z := 1.
Definition Microsecond : Z := 1000.
Definition Millisecond : Z := 1000000.
Definition Second : Z := 1000000000.
Definition Minute : Z := 60 * Second.
Definition Hour : Z := 60 * Minute.

(** "µs", in UTF-8. *)
Definition micro_sign : string := String (byte_of 194) (String (byte_of 181) "s").

(** ** Fixed-width numbers *)
(** [n] digits at least, zero padded. *)
Definition padded (n : nat) (x : Z) : string :=
  let s := FormatUint x 10 in zeros (n - str_len s) +:+ s.

Fixpoint trim_zeros (s : string) : string :=
  match s with
  | "" => ""
  | String c s =>
      let t := trim_zeros s in
      if bool_decide (t = "") && bool_decide (c = "0"%char) then "" else String c t
  end.

(** [fmtFrac]: the fraction [v mod 10^prec] without trailing zeros, with its
    dot when anything is left. *)
Definition fmtFrac (v : Z) (prec : nat) : string :=
  let f := trim_zeros (padded prec (v `mod` 10 ^ Z.of_nat prec)%Z) in
  if bool_decide (f = "") then "" else "." +:+ f.

(** [Duration.String]. *)
Definition Duration_String (d : Z) : string :=
  let u := Z.abs d in
  let body :=
    if (u =? 0)%Z then "0s"
    else if (u <? Microsecond)%Z then FormatUint u 10 +:+ "ns"
    else if (u <? Millisecond)%Z then
      FormatUint (u `div` Microsecond)%Z 10 +:+ fmtFrac u 3 +:+ micro_sign
    else if (u <? Second)%Z then FormatUint (u `div` Millisecond)%Z 10 +:+ fmtFrac u 6 +:+ "ms"
    else
      let secs := (u `div` Second)%Z in
      let h := (secs `div` 3600)%Z in
      let m := (secs `div` 60)%Z in
      (if (0 <? m)%Z then
         (if (0 <? h)%Z then FormatUint h 10 +:+ "h" else "")
         +:+ FormatUint (m `mod` 60)%Z 10 +:+ "m"
       else "")
      +:+ FormatUint (secs `mod` 60)%Z 10 +:+ fmtFrac u 9 +:+ "s" in
  (if (d <? 0)%Z then "-" else "") +:+ body.

(** ** [time.ParseDuration] *)
Definition unit_value (u : string) : option Z :=
  if bool_decide (u = "ns") then Some Nanosecond
  else if bool_decide (u = "us") then Some Microsecond
  else if bool_decide (u = micro_sign) then Some Microsecond
  else if bool_decide (u = String (byte_of 206) (String (byte_of 188) "s")) then Some Microsecond
  else if bool_decide (u = "ms") then Some Millisecond
  else if bool_decide (u = "s") then Some Second
  else if bool_decide (u = "m") then Some Minute
  else if bool_decide (u = "h") then Some Hour
  else None.

(** [leadingInt]: [None] on overflow. *)
Fixpoint leadingInt (s : string) (x : Z) : option (Z * string) :=
  match s with
  | String c rest =>
      match digit_val c with
      | Some d =>
          if (2 ^ 63 `div` 10 <? x)%Z then None
          else if (2 ^ 63 <? x * 10 + d)%Z then None
          else leadingInt rest (x * 10 + d)%Z
      | None => Some (x, s)
      end
  | "" => Some (x, "")
  end.

(** [leadingFraction]: digits beyond 63 bits are dropped. *)
Fixpoint leadingFraction (s : string) (x scale : Z) (overflow : bool) : Z * Z * string :=
  match s with
  | String c rest =>
      match digit_val c with
      | Some d =>
          if overflow then leadingFraction rest x scale true
          else if ((2 ^ 63 - 1) `div` 10 <? x)%Z then leadingFraction rest x scale true
          else if (2 ^ 63 <? x * 10 + d)%Z then leadingFraction rest x scale true
          else leadingFraction rest (x * 10 + d)%Z (scale * 10)%Z false
      | None => (x, scale, s)
      end
  | "" => (x, scale, "")
  end.

Fixpoint take_unit (s : string) : string * string :=
  match s with
  | String c rest =>
      if bool_decide (c = "."%char) || is_digit c then ("", s)
      else let '(u, r) := take_unit rest in (String c u, r)
  | "" => ("", "")
  end.

(** One iteration consumes at least one byte: the length is enough fuel. *)
Fixpoint parse_duration_go (fuel : nat) (s : string) (d : Z) : option Z :=
  match s, fuel with
  | "", _ => Some d
  | _, O => None
  | String c0 _, S fuel =>
      if negb (bool_decide (c0 = "."%char) || is_digit c0) then None
      else
        match leadingInt s 0 with
        | None => None
        | Some (v, s1) =>
            let pre := negb (str_len s1 =? str_len s) in
            let '(f, scale, s2, post) :=
              match s1 with
              | String c r =>
                  if bool_decide (c = "."%char) then
                    let '(f, scale, r') := leadingFraction r 0 1 false in
                    (f, scale, r', negb (str_len r' =? str_len r))
                  else (0%Z, 1%Z, s1, false)
              | "" => (0%Z, 1%Z, s1, false)
              end in
            if negb pre && negb post then None
            else
              let '(u, s3) := take_unit s2 in
              if bool_decide (u = "") then None
              else
                match unit_value u with
                | None => None
                | Some unit =>
                    if (2 ^ 63 `div` unit <? v)%Z then None
                    else
                      let v := (v * unit)%Z in
                      let v :=
                        if (0 <? f)%Z then
                          (v + trunc_float (SFmul 53 1024 (float_of_Z f)
                                 (SFdiv 53 1024 (float_of_Z unit) (float_of_Z scale))))%Z
                        else v in
                      if (2 ^ 63 <? v)%Z then None
                      else if (2 ^ 63 <? d + v)%Z then None
                      else parse_duration_go fuel s3 (d + v)%Z
                end
        end
  end.

(** [None] is the error; Go then returns the zero duration with it. *)
Definition ParseDuration (s : string) : option Z :=
  let '(neg, body) := split_sign s in
  if bool_decide (body = "0") then Some 0%Z
  else if bool_decide (body = "") then None
  else
    match parse_duration_go (str_len body) body 0 with
    | None => None
    | Some d =>
        if neg then Some (- d)%Z
        else if (2 ^ 63 - 1 <? d)%Z then None else Some d
    end.

(** ** Civil dates

    Days since 1970-01-01 in the proleptic Gregorian calendar. *)
Definition days_from_civil (y m d : Z) : Z :=
  let y := (if (m <=? 2)%Z then y - 1 else y)%Z in
  let era := (y `div` 400)%Z in
  let yoe := (y - era * 400)%Z in
  let mp := (if (2 <? m)%Z then m - 3 else m + 9)%Z in
  let doy := ((153 * mp + 2) `div` 5 + d - 1)%Z in
  let doe := (yoe * 365 + yoe `div` 4 - yoe `div` 100 + doy)%Z in
  (era * 146097 + doe - 719468)%Z.

Definition civil_from_days (z : Z) : Z * Z * Z :=
  let z := (z + 719468)%Z in
  let era := (z `div` 146097)%Z in
  let doe := (z - era * 146097)%Z in
  let yoe := ((doe - doe `div` 1460 + doe `div` 36524 - doe `div` 146096) `div` 365)%Z in
  let doy := (doe - (365 * yoe + yoe `div` 4 - yoe `div` 100))%Z in
  let mp := ((5 * doy + 2) `div` 153)%Z in
  let d := (doy - (153 * mp + 2) `div` 5 + 1)%Z in
  let m := (if (mp <? 10)%Z then mp + 3 else mp - 9)%Z in
  let y := (yoe + era * 400 + (if (m <=? 2)%Z then 1 else 0))%Z in
  (y, m, d).

Definition is_leap (y : Z) : bool :=
  ((y `mod` 4 =? 0) && (negb (y `mod` 100 =? 0) || (y `mod` 400 =? 0)))%Z.
Definition daysIn (m y : Z) : Z :=
  if (m =? 2)%Z then (if is_leap y then 29 else 28)%Z
  else if ((m =? 4) || (m =? 6) || (m =? 9) || (m =? 11))%Z then 30%Z else 31%Z.

(** ** [RFC3339Nano] *)
Definition fmt_year (y : Z) : string :=
  if (y <? 0)%Z then "-" +:+ padded 4 (- y) else padded 4 y.

(** [t.Format(time.RFC3339Nano)] of a UTC time. *)
Definition FormatRFC3339Nano (t : Z) : string :=
  let secs := (t `div` Second)%Z in
  let '(y, m, d) := civil_from_days (secs `div` 86400)%Z in
  let s := (secs `mod` 86400)%Z in
  fmt_year y +:+ "-" +:+ padded 2 m +:+ "-" +:+ padded 2 d +:+ "T"
  +:+ padded 2 (s `div` 3600)%Z +:+ ":" +:+ padded 2 ((s `div` 60) `mod` 60)%Z +:+ ":"
  +:+ padded 2 (s `mod` 60)%Z +:+ fmtFrac t 9 +:+ "Z".

(** The reader steps of [time.Parse]: exactly [n] digits; one literal byte. *)
Fixpoint getnum (n : nat) (s : string) (x : Z) : option (Z * string) :=
  match n, s with
  | O, _ => Some (x, s)
  | S n, String c s =>
      match digit_val c with Some d => getnum n s (x * 10 + d)%Z | None => None end
  | S _, "" => None
  end.
Definition skip_byte (c : ascii) (s : string) : option string :=
  match s with
  | String c' s => if bool_decide (c' = c) then Some s else None
  | "" => None
  end.
(** [getnum(s, false)]: two digits, or one when no second one follows. *)
Definition getnum12 (s : string) : option (Z * string) :=
  match getnum 2 s 0 with Some r => Some r | None => getnum 1 s 0 end.

Fixpoint take_digits (s : string) : string * string :=
  match s with
  | String c rest =>
      if is_digit c then let '(d, r) := take_digits rest in (String c d, r) else ("", s)
  | "" => ("", "")
  end.

(** The optional fraction: at most nine digits count. *)
Definition read_frac (s : string) : Z * string :=
  match s with
  | String c rest =>
      if bool_decide (c = "."%char) || bool_decide (c = ","%char) then
        let '(ds, r) := take_digits rest in
        if bool_decide (ds = "") then (0%Z, s)
        else
          let ds := str_take 9 ds in
          ((digits_value ds 0 * 10 ^ Z.of_nat (9 - str_len ds))%Z, r)
      else (0%Z, s)
  | "" => (0%Z, s)
  end.

(** The zone: [Z] or [±hh:mm], as seconds east of UTC. *)
Definition read_zone (s : string) : option Z :=
  match s with
  | "Z" => Some 0%Z
  | String c rest =>
      match getnum 2 rest 0 with
      | Some (hh, r1) =>
          match skip_byte ":" r1 with
          | Some r2 =>
              match getnum 2 r2 0 with
              | Some (mm, "") =>
                  if (24 <? hh)%Z || (60 <? mm)%Z then None
                  else if bool_decide (c = "+"%char) then Some ((hh * 60 + mm) * 60)%Z
                  else if bool_decide (c = "-"%char) then Some (- ((hh * 60 + mm) * 60))%Z
                  else None
              | _ => None
              end
          | None => None
          end
      | None => None
      end
  | "" => None
  end.

(** [time.Parse(time.RFC3339Nano, s)]; [None] is the error. *)
Definition ParseRFC3339Nano (s : string) : option Z :=
  '(y, s) ← getnum 4 s 0; s ← skip_byte "-" s;
  '(m, s) ← getnum 2 s 0; s ← skip_byte "-" s;
  '(d, s) ← getnum 2 s 0; s ← skip_byte "T" s;
  '(hh, s) ← getnum12 s; s ← skip_byte ":" s;
  '(mi, s) ← getnum 2 s 0; s ← skip_byte ":" s;
  '(ss, s) ← getnum 2 s 0;
  let '(ns, s) := read_frac s in
  off ← read_zone s;
  if (m <? 1)%Z || (12 <? m)%Z || (24 <=? hh)%Z || (60 <=? mi)%Z || (60 <=? ss)%Z
     || (d <? 1)%Z || (daysIn m y <? d)%Z then None
  else Some ((days_from_civil y m d * 86400 + hh * 3600 + mi * 60 + ss - off) * Second + ns)%Z.

(** The zero [time.Time]: 0001-01-01T00:00:00Z. *)
Definition zero_time : Z := -62135596800 * Second.
