(* ===== verification/Json.v ===== *)
(** * [encoding/json]

    A decoder to a syntax tree, the two ways the server reads such a tree
    (a list of strings, a list of objects with known members), and the encoder
    of strings. The text is read as runes: every byte outside a valid UTF-8
    sequence is U+FFFD, which is how [encoding/json] stores it. *)
From S2P Require Import Prelude GoText.
From Stdlib Require Import Ascii.

Module Json.

Inductive json :=
| JNull
| JBool (b : bool)
| JNum (text : string)
| JStr (s : string)
| JArr (l : list json)
| JObj (l : list (string * json)).

(** [utf8.AppendRune]. *)
Definition encode_rune (r : Z) : string :=
  let cont x := byte_of (Z.lor 0x80 (Z.land x 0x3F)) in
  if (r <? 0x80)%Z then String (byte_of r) ""
  else if (r <? 0x800)%Z then String (byte_of (Z.lor 0xC0 (Z.shiftr r 6))) (String (cont r) "")
  else if (r <? 0x10000)%Z then
    String (byte_of (Z.lor 0xE0 (Z.shiftr r 12)))
      (String (cont (Z.shiftr r 6)) (String (cont r) ""))
  else
    String (byte_of (Z.lor 0xF0 (Z.shiftr r 18)))
      (String (cont (Z.shiftr r 12)) (String (cont (Z.shiftr r 6)) (String (cont r) ""))).

Definition rune_of (c : ascii) : Z := byte_val c.

(** White space between tokens. *)
Definition is_ws (r : Z) : bool := ((r =? 32) || (r =? 9) || (r =? 10) || (r =? 13))%Z%bool.
Fixpoint skip_ws (l : list Z) : list Z :=
  match l with
  | r :: l' => if is_ws r then skip_ws l' else l
  | [] => []
  end.

Definition hex_digit (r : Z) : option Z :=
  if ((48 <=? r) && (r <=? 57))%Z then Some (r - 48)%Z
  else if ((97 <=? r) && (r <=? 102))%Z then Some (r - 87)%Z
  else if ((65 <=? r) && (r <=? 70))%Z then Some (r - 55)%Z
  else None.
Definition hex4 (a b c d : Z) : option Z :=
  a ← hex_digit a; b ← hex_digit b; c ← hex_digit c; d ← hex_digit d;
  Some (((a * 16 + b) * 16 + c) * 16 + d)%Z.

(** The one-character escapes. *)
Definition simple_escape (r : Z) : option Z :=
  if (r =? 34)%Z then Some 34%Z else if (r =? 92)%Z then Some 92%Z
  else if (r =? 47)%Z then Some 47%Z else if (r =? 98)%Z then Some 8%Z
  else if (r =? 102)%Z then Some 12%Z else if (r =? 110)%Z then Some 10%Z
  else if (r =? 114)%Z then Some 13%Z else if (r =? 116)%Z then Some 9%Z else None.

Definition is_high (u : Z) : bool := ((0xD800 <=? u) && (u <=? 0xDBFF))%Z.
Definition is_low (u : Z) : bool := ((0xDC00 <=? u) && (u <=? 0xDFFF))%Z.

(** The body of a string after its opening quote. A surrogate pair is one
    rune; a surrogate without its partner is U+FFFD. *)
Fixpoint parse_string (fuel : nat) (l : list Z) : option (string * list Z) :=
  match fuel, l with
  | S fuel, r :: l =>
      if (r =? 34)%Z then Some ("", l)
      else if (r <? 32)%Z then None
      else if (r =? 92)%Z then
        match l with
        | e :: l =>
            if (e =? 117)%Z then
              match l with
              | a :: b :: c :: d :: l =>
                  u ← hex4 a b c d;
                  if is_high u then
                    match l with
                    | 92%Z :: 117%Z :: a' :: b' :: c' :: d' :: l' =>
                        match hex4 a' b' c' d' with
                        | Some u' =>
                            if is_low u' then
                              '(s, l') ← parse_string fuel l';
                              Some (encode_rune (0x10000 + (u - 0xD800) * 0x400 + (u' - 0xDC00))
                                      +:+ s, l')
                            else
                              '(s, l) ← parse_string fuel l;
                              Some (encode_rune RuneError +:+ s, l)
                        | None => None
                        end
                    | _ => '(s, l) ← parse_string fuel l; Some (encode_rune RuneError +:+ s, l)
                    end
                  else
                    '(s, l) ← parse_string fuel l;
                    Some (encode_rune (if is_low u then RuneError else u) +:+ s, l)
              | _ => None
              end
            else
              c ← simple_escape e;
              '(s, l) ← parse_string fuel l;
              Some (encode_rune c +:+ s, l)
        | [] => None
        end
      else
        '(s, l) ← parse_string fuel l;
        Some (encode_rune r +:+ s, l)
  | _, _ => None
  end.

(** Numbers keep their text. *)
Definition is_digit_rune (r : Z) : bool := ((48 <=? r) && (r <=? 57))%Z.
Fixpoint take_digit_runes (l : list Z) : string * list Z :=
  match l with
  | r :: l' =>
      if is_digit_rune r then
        let '(s, l') := take_digit_runes l' in (String (byte_of r) s, l') else ("", l)
  | [] => ("", [])
  end.
Definition parse_int_part (l : list Z) : option (string * list Z) :=
  match l with
  | 48%Z :: l => Some ("0", l)
  | _ => let '(s, l) := take_digit_runes l in if bool_decide (s = "") then None else Some (s, l)
  end.
Definition parse_frac (l : list Z) : option (string * list Z) :=
  match l with
  | 46%Z :: l =>
      let '(s, l) := take_digit_runes l in
      if bool_decide (s = "") then None else Some ("." +:+ s, l)
  | _ => Some ("", l)
  end.
Definition parse_exp (l : list Z) : option (string * list Z) :=
  match l with
  | e :: l' =>
      if ((e =? 101) || (e =? 69))%Z then
        let '(sign, l') :=
          match l' with
          | 43%Z :: l' => ("+", l') | 45%Z :: l' => ("-", l') | _ => ("", l')
          end in
        let '(s, l') := take_digit_runes l' in
        if bool_decide (s = "") then None else Some (String (byte_of e) sign +:+ s, l')
      else Some ("", l)
  | [] => Some ("", l)
  end.
Definition parse_number (l : list Z) : option (string * list Z) :=
  let '(sign, l) := match l with 45%Z :: l => ("-", l) | _ => ("", l) end in
  '(i, l) ← parse_int_part l;
  '(f, l) ← parse_frac l;
  '(e, l) ← parse_exp l;
  Some (sign +:+ i +:+ f +:+ e, l).

Fixpoint skip_lit (lit : string) (l : list Z) : option (list Z) :=
  match lit, l with
  | "", _ => Some l
  | String c lit, r :: l => if (rune_of c =? r)%Z then skip_lit lit l else None
  | _, [] => None
  end.

Definition maxNestingDepth : Z := 10000.

(** Values, array elements and object members. Each call consumes a rune, so
    a fuel above the number of runes is enough. *)
Fixpoint parse_value (fuel : nat) (depth : Z) (l : list Z) : option (json * list Z) :=
  match fuel with
  | O => None
  | S fuel =>
      match skip_ws l with
      | [] => None
      | r :: rest =>
          if (r =? 123)%Z then
            if (maxNestingDepth <? depth + 1)%Z then None
            else match skip_ws rest with
                 | 125%Z :: rest => Some (JObj [], rest)
                 | _ => '(ms, rest) ← parse_members fuel (depth + 1) rest; Some (JObj ms, rest)
                 end
          else if (r =? 91)%Z then
            if (maxNestingDepth <? depth + 1)%Z then None
            else match skip_ws rest with
                 | 93%Z :: rest => Some (JArr [], rest)
                 | _ => '(es, rest) ← parse_elements fuel (depth + 1) rest; Some (JArr es, rest)
                 end
          else if (r =? 34)%Z then
            '(s, rest) ← parse_string (S (length rest)) rest; Some (JStr s, rest)
          else if (r =? 116)%Z then rest ← skip_lit "rue" rest; Some (JBool true, rest)
          else if (r =? 102)%Z then rest ← skip_lit "alse" rest; Some (JBool false, rest)
          else if (r =? 110)%Z then rest ← skip_lit "ull" rest; Some (JNull, rest)
          else '(n, rest) ← parse_number (r :: rest); Some (JNum n, rest)
      end
  end
with parse_elements (fuel : nat) (depth : Z) (l : list Z) : option (list json * list Z) :=
  match fuel with
  | O => None
  | S fuel =>
      '(v, l) ← parse_value fuel depth l;
      match skip_ws l with
      | 44%Z :: l => '(vs, l) ← parse_elements fuel depth l; Some (v :: vs, l)
      | 93%Z :: l => Some ([v], l)
      | _ => None
      end
  end
with parse_members (fuel : nat) (depth : Z) (l : list Z) :
    option (list (string * json) * list Z) :=
  match fuel with
  | O => None
  | S fuel =>
      match skip_ws l with
      | 34%Z :: l =>
          '(k, l) ← parse_string (S (length l)) l;
          match skip_ws l with
          | 58%Z :: l =>
              '(v, l) ← parse_value fuel depth l;
              match skip_ws l with
              | 44%Z :: l => '(ms, l) ← parse_members fuel depth l; Some ((k, v) :: ms, l)
              | 125%Z :: l => Some ([(k, v)], l)
              | _ => None
              end
          | _ => None
          end
      | _ => None
      end
  end.

(** A document: one value and white space. *)
Definition parse (s : string) : option json :=
  let l := (runes s).*1 in
  match parse_value (S (2 * length l)) 0 l with
  | Some (v, rest) => match skip_ws rest with [] => Some v | _ => None end
  | None => None
  end.

(** ** Reading into Go values *)

(** [json.Unmarshal(raw, &values)] with [values []string], starting from nil;
    [None] is an error. A null element leaves the empty string. *)
Definition to_string (v : json) : option string :=
  match v with JStr s => Some s | JNull => Some "" | _ => None end.
Definition to_strings (v : json) : option (list string) :=
  match v with
  | JNull => Some []
  | JArr l => mapM to_string l
  | _ => None
  end.
Definition Unmarshal_strings (raw : string) : option (list string) :=
  v ← parse raw; to_strings v.

(** The members of an object that match a Go field, in order; member names
    match up to ASCII case. Later members overwrite earlier ones. *)
Definition fold_case (s : string) : string :=
  (fix go s := match s with
   | "" => ""
   | String c s =>
       let z := byte_val c in
       String (if ((65 <=? z) && (z <=? 90))%Z then byte_of (z + 32) else c) (go s)
   end) s.
Definition members (name : string) (l : list (string * json)) : list json :=
  snd <$> filter (λ p, fold_case p.1 = fold_case name) l.

(** ** Writing strings ([json.Marshal], HTML escaping on) *)
Definition hex_char (d : Z) : ascii := digit_char d.
Definition u_escape (r : Z) : string :=
  "\u" +:+ String (hex_char (Z.land (Z.shiftr r 12) 15))
    (String (hex_char (Z.land (Z.shiftr r 8) 15))
      (String (hex_char (Z.land (Z.shiftr r 4) 15)) (String (hex_char (Z.land r 15)) ""))).
Definition escape_rune (p : Z * string) : string :=
  let '(r, bytes) := p in
  if (r =? 34)%Z then "\" +:+ String (byte_of 34) ""
  else if (r =? 92)%Z then "\\"
  else if (r =? 8)%Z then "\b" else if (r =? 12)%Z then "\f"
  else if (r =? 10)%Z then "\n" else if (r =? 13)%Z then "\r" else if (r =? 9)%Z then "\t"
  else if (r <? 32)%Z || (r =? 60)%Z || (r =? 62)%Z || (r =? 38)%Z then u_escape r
  else if (r =? 0x2028)%Z || (r =? 0x2029)%Z then u_escape r
  else if (r =? RuneError)%Z && (str_len bytes =? 1) then u_escape RuneError
  else bytes.
Definition quote : string := String (byte_of 34) "".
Definition encode_string (s : string) : string :=
  quote +:+ foldr (λ p acc, escape_rune p +:+ acc) "" (runes s) +:+ quote.

Fixpoint comma_join (l : list string) : string :=
  match l with
  | [] => ""
  | [x] => x
  | x :: l => x +:+ "," +:+ comma_join l
  end.
Definition encode_array (l : list string) : string := "[" +:+ comma_join l +:+ "]".
(** An object with the given members; values are already encoded. *)
Definition encode_object (l : list (string * string)) : string :=
  "{" +:+ comma_join ((λ p, encode_string p.1 +:+ ":" +:+ p.2) <$> l) +:+ "}".
Definition Marshal_strings (l : list string) : string := encode_array (encode_string <$> l).

(** Induction through arrays and objects. *)
Section json_ind.
Context (P : json → Prop).
Hypothesis HNull : P JNull.
Hypothesis HBool : ∀ b, P (JBool b).
Hypothesis HNum : ∀ text, P (JNum text).
Hypothesis HStr : ∀ s, P (JStr s).
Hypothesis HArr : ∀ l, Forall P l → P (JArr l).
Hypothesis HObj : ∀ l, Forall (λ p, P p.2) l → P (JObj l).

Fixpoint json_nested_ind (j : json) : P j :=
  match j with
  | JNull => HNull | JBool b => HBool b | JNum t => HNum t | JStr s => HStr s
  | JArr l =>
      HArr l ((fix go l : Forall P l :=
        match l with [] => List.Forall_nil _ | x :: l => List.Forall_cons _ _ _ (json_nested_ind x) (go l) end) l)
  | JObj l =>
      HObj l ((fix go l : Forall (λ p, P p.2) l :=
        match l with
        | [] => List.Forall_nil _
        | p :: l => List.Forall_cons _ _ _ (match p as q return P q.2 with (_, x) => json_nested_ind x end) (go l)
        end) l)
  end.
End json_ind.

Example Unmarshal_ex :
  Unmarshal_strings (Marshal_strings ["a"; "b<c"; String (byte_of 34) "x\y"])
  = Some ["a"; "b<c"; String (byte_of 34) "x\y"].
Proof. vm_compute. reflexivity. Qed.
End Json.
