(* ===== verification/Domain.v ===== *)
(** * Domain entities and errors ([internal/storage/domain], gRPC status)

    The entity records of [types.go] with the fields the server reads, the
    field types of [fieldtype.go], the identifier test of [resolve.go], and
    the error values the packages pass to each other. *)
From S2P Require Import Prelude GoText GoFloat.
From Stdlib Require Import Ascii.

(** ** Errors

    A message is kept as its format string and arguments, so that a theorem
    can say which values a message carries. *)
Inductive code :=
| InvalidArgument | NotFound | AlreadyExists | PermissionDenied
| FailedPrecondition | Aborted | Internal | Unauthenticated | ResourceExhausted.
Global Instance code_eq_dec : EqDecision code.
Proof. solve_decision. Defined.

(** The two classes of cross-field failure ([config/service.go]). *)
Inductive crossFieldErrorKind :=
| crossFieldKindDependentRequired | crossFieldKindValidation.

Inductive error :=
| ErrNotFound
| ErrAlreadyExists
| ErrReferencedByOther
| ErrVersionConflict
| ErrPayloadTooLarge
| Status (c : code) (format : string) (args : list arg)   (* status.Errorf *)
| Errorf (format : string) (args : list arg)              (* fmt.Errorf, errors.New *)
| Wrap (context : string) (e : error)                     (* fmt.Errorf("context: %w", e) *)
| crossFieldError (kind : crossFieldErrorKind) (e : error)
| Join (es : list error)                                  (* errors.Join *)
with arg :=
| AStr (s : string)
| AInt (z : Z)
| AFloat (x : float64)
| AStrs (l : list string)
| AErr (e : error).

(** [status.Error]. *)
Definition Status0 (c : code) (msg : string) : error := Status c msg [].

(** [errors.Is(e, target)] for the sentinel errors; [eqb] recognises the
    target itself. *)
Fixpoint errors_Is (eqb : error → bool) (e : error) : bool :=
  eqb e ||
  match e with
  | Wrap _ e | crossFieldError _ e => errors_Is eqb e
  | Join es => (fix any es := match es with [] => false | e :: es => errors_Is eqb e || any es end) es
  | _ => false
  end.

Definition is_NotFound (e : error) : bool :=
  errors_Is (λ e, match e with ErrNotFound => true | _ => false end) e.
Definition is_VersionConflict (e : error) : bool :=
  errors_Is (λ e, match e with ErrVersionConflict => true | _ => false end) e.

(** [errors.As(e, &crossFieldError)]: the error inside the first one found. *)
Fixpoint as_crossField (e : error) : option error :=
  match e with
  | crossFieldError _ e => Some e
  | Wrap _ e => as_crossField e
  | Join es =>
      (fix any es := match es with
       | [] => None
       | e :: es => match as_crossField e with Some x => Some x | None => any es end
       end) es
  | _ => None
  end.

(** [status.FromError]: a status error itself, or the status an error wraps,
    with the message of the whole. *)
Fixpoint status_code_of (e : error) : option code :=
  match e with
  | Status c _ _ => Some c
  | Wrap _ e | crossFieldError _ e => status_code_of e
  | Join es =>
      (fix any es := match es with
       | [] => None
       | e :: es => match status_code_of e with Some x => Some x | None => any es end
       end) es
  | _ => None
  end.
Definition status_FromError (e : error) : option error :=
  match e with
  | Status c f a => Some (Status c f a)
  | _ => match status_code_of e with
         | Some c => Some (Status c "%v" [AErr e])
         | None => None
         end
  end.

(** ** Field types *)
Inductive FieldType :=
| FieldTypeInteger | FieldTypeNumber | FieldTypeString | FieldTypeBool
| FieldTypeTime | FieldTypeDuration | FieldTypeURL | FieldTypeJSON
| FieldTypeOther (s : string).   (* any other text in the column *)
Global Instance FieldType_eq_dec : EqDecision FieldType.
Proof. solve_decision. Defined.

(** The proto enum. *)
Inductive pbFieldType :=
| FIELD_TYPE_UNSPECIFIED | FIELD_TYPE_INT | FIELD_TYPE_NUMBER | FIELD_TYPE_STRING
| FIELD_TYPE_BOOL | FIELD_TYPE_TIME | FIELD_TYPE_DURATION | FIELD_TYPE_URL | FIELD_TYPE_JSON.
Global Instance pbFieldType_eq_dec : EqDecision pbFieldType.
Proof. solve_decision. Defined.

Definition ToProto (ft : FieldType) : pbFieldType :=
  match ft with
  | FieldTypeInteger => FIELD_TYPE_INT
  | FieldTypeNumber => FIELD_TYPE_NUMBER
  | FieldTypeString => FIELD_TYPE_STRING
  | FieldTypeBool => FIELD_TYPE_BOOL
  | FieldTypeTime => FIELD_TYPE_TIME
  | FieldTypeDuration => FIELD_TYPE_DURATION
  | FieldTypeURL => FIELD_TYPE_URL
  | FieldTypeJSON => FIELD_TYPE_JSON
  | FieldTypeOther _ => FIELD_TYPE_UNSPECIFIED
  end.

Definition FieldTypeFromProto (t : pbFieldType) : FieldType :=
  match t with
  | FIELD_TYPE_INT => FieldTypeInteger
  | FIELD_TYPE_NUMBER => FieldTypeNumber
  | FIELD_TYPE_STRING => FieldTypeString
  | FIELD_TYPE_BOOL => FieldTypeBool
  | FIELD_TYPE_TIME => FieldTypeTime
  | FIELD_TYPE_DURATION => FieldTypeDuration
  | FIELD_TYPE_URL => FieldTypeURL
  | FIELD_TYPE_JSON => FieldTypeJSON
  | FIELD_TYPE_UNSPECIFIED => FieldTypeString
  end.

(** ** Identifiers

    [^[0-9a-f]{8}-[0-9a-f]{4}-[0-9a-f]{4}-[0-9a-f]{4}-[0-9a-f]{12}$], matched
    as the list of the lengths of the hex groups. *)
Definition is_hex_lower (c : ascii) : bool :=
  is_digit c || (97 <=? byte_val c)%Z && (byte_val c <=? 102)%Z.

(** The text after [n] hex digits, when there are that many. *)
Fixpoint skip_hex (n : nat) (s : string) : option string :=
  match n, s with
  | O, _ => Some s
  | S n, String c s => if is_hex_lower c then skip_hex n s else None
  | S _, "" => None
  end.

Fixpoint match_groups (groups : list nat) (s : string) : bool :=
  match groups with
  | [] => bool_decide (s = "")
  | [n] => match skip_hex n s with Some rest => bool_decide (rest = "") | None => false end
  | n :: groups =>
      match skip_hex n s with
      | Some (String c rest) => bool_decide (c = "-"%char) && match_groups groups rest
      | _ => false
      end
  end.

Definition IsUUID (s : string) : bool := match_groups [8; 4; 4; 4; 12] s.

(** ** Entities

    A time is its number of nanoseconds since the Unix epoch; [*string] is
    [option string]; [[]byte] is a string. *)
Record SchemaVersion := {
  sv_ID : string; sv_SchemaID : string; sv_Version : Z; sv_ParentVersion : option Z;
  sv_Description : option string; sv_Checksum : string; sv_Published : bool;
  sv_DependentRequired : string; sv_Validations : string; sv_CreatedAt : Z }.

Record SchemaField := {
  sf_ID : string; sf_SchemaVersionID : string; sf_Path : string; sf_FieldType : FieldType;
  sf_Constraints : option string; sf_Nullable : bool; sf_Deprecated : bool;
  sf_RedirectTo : option string; sf_DefaultValue : option string;
  sf_Description : option string; sf_Title : option string; sf_Example : option string;
  sf_Examples : option string; sf_ExternalDocs : option string; sf_Tags : list string;
  sf_Format : option string; sf_ReadOnly : bool; sf_WriteOnce : bool; sf_Sensitive : bool }.

Record Tenant := {
  tn_ID : string; tn_Name : string; tn_SchemaID : string; tn_SchemaVersion : Z;
  tn_CreatedAt : Z; tn_UpdatedAt : Z; tn_DeletedAt : option Z }.

Record TenantFieldLock := {
  lk_TenantID : string; lk_FieldPath : string; lk_LockedValues : option string }.

Record ConfigVersion := {
  cv_ID : string; cv_TenantID : string; cv_Version : Z; cv_Description : option string;
  cv_CreatedBy : string; cv_CreatedAt : Z }.

Record ConfigValue := {
  val_ConfigVersionID : string; val_FieldPath : string; val_Value : option string;
  val_Checksum : option string; val_Description : option string }.

Global Instance ConfigVersion_eq_dec : EqDecision ConfigVersion.
Proof. solve_decision. Defined.
Global Instance ConfigValue_eq_dec : EqDecision ConfigValue.
Proof. solve_decision. Defined.

(** ** Facts *)
Lemma FieldTypeFromProto_ToProto ft :
  (∀ s, ft ≠ FieldTypeOther s) → FieldTypeFromProto (ToProto ft) = ft.
Proof. destruct ft; try done. intros H. by destruct (H s). Qed.

Lemma skip_hex_length n s r : skip_hex n s = Some r → str_len s = n + str_len r.
Proof.
  revert s. induction n as [|n IH]; intros [|c s] H; simplify_eq/=; try done.
  destruct (is_hex_lower c); [|done]. rewrite (IH _ H). done.
Qed.

(** ** Random identifiers

    [nextID] of the in-memory stores and [newEventID] of the publishers format
    sixteen bytes of [crypto/rand] as a version 4 UUID. The random source is a
    parameter: [random n] is the [n]-th draw. *)
Class Random := random : nat → list Z.

Definition hex2 (b : Z) : string :=
  String (digit_char (b `div` 16)%Z) (String (digit_char (b `mod` 16)%Z) "").
Definition hex_bytes (l : list Z) : string := foldr (λ b s, hex2 b +:+ s) "" l.

Definition uuid_v4 (b : list Z) : string :=
  let b := alter (λ x, Z.lor (Z.land x 0x0f) 0x40) 6 b in
  let b := alter (λ x, Z.lor (Z.land x 0x3f) 0x80) 8 b in
  hex_bytes (take 4 b) +:+ "-" +:+ hex_bytes (take 2 (drop 4 b)) +:+ "-"
  +:+ hex_bytes (take 2 (drop 6 b)) +:+ "-" +:+ hex_bytes (take 2 (drop 8 b)) +:+ "-"
  +:+ hex_bytes (drop 10 b).

Lemma digit_char_hex d : (0 ≤ d < 16)%Z → is_hex_lower (digit_char d) = true.
Proof.
  intros Hd. assert (Forall (λ d, is_hex_lower (digit_char d) = true) (seqZ 0 16)) as Ha.
  { repeat constructor. }
  rewrite Forall_forall in Ha. apply Ha, elem_of_seqZ. lia.
Qed.

Lemma skip_hex_bytes l s :
  Forall (λ b, 0 ≤ b < 256)%Z l → skip_hex (2 * length l) (hex_bytes l +:+ s) = Some s.
Proof.
  induction 1 as [|b l Hb Hl IH]; [done|].
  assert (0 ≤ b `div` 16 < 16)%Z by (split; [apply Z.div_pos; lia|apply Z.div_lt_upper_bound; lia]).
  assert (0 ≤ b `mod` 16 < 16)%Z by (apply Z.mod_pos_bound; lia).
  cbn [hex_bytes foldr length]. fold (hex_bytes l).
  replace (2 * S (length l)) with (S (S (2 * length l))) by lia.
  unfold hex2. rewrite str_app_cons, str_app_cons. cbn [skip_hex String.append].
  rewrite !str_app_cons. cbn [skip_hex]. rewrite !digit_char_hex by lia. apply IH.
Qed.

Lemma byte_masks x :
  (0 ≤ x < 256)%Z →
  (0 ≤ Z.lor (Z.land x 0x0f) 0x40 < 256)%Z ∧ (0 ≤ Z.lor (Z.land x 0x3f) 0x80 < 256)%Z.
Proof.
  intros Hx.
  assert (Forall (λ x, (0 ≤ Z.lor (Z.land x 0x0f) 0x40 < 256)%Z
                       ∧ (0 ≤ Z.lor (Z.land x 0x3f) 0x80 < 256)%Z) (seqZ 0 256)) as Ha.
  { vm_compute. repeat constructor; discriminate. }
  rewrite Forall_forall in Ha. apply Ha, elem_of_seqZ. lia.
Qed.

Lemma Forall_alter_byte (f : Z → Z) i l :
  (∀ x, (0 ≤ x < 256)%Z → (0 ≤ f x < 256)%Z) →
  Forall (λ b, 0 ≤ b < 256)%Z l → Forall (λ b, 0 ≤ b < 256)%Z (alter f i l).
Proof. intros Hf Hl. apply Forall_alter; [done|]. intros. by apply Hf. Qed.

(** The identifiers the stores make are identifiers in the eyes of [IsUUID]. *)
Lemma IsUUID_uuid_v4 b :
  length b = 16 → Forall (λ b, 0 ≤ b < 256)%Z b → IsUUID (uuid_v4 b) = true.
Proof.
  intros Hlen Hb. unfold uuid_v4.
  set (b1 := alter _ 6 b). set (b2 := alter _ 8 b1).
  assert (Forall (λ b, 0 ≤ b < 256)%Z b2) as H2.
  { apply Forall_alter_byte; [by apply byte_masks|].
    apply Forall_alter_byte; [by apply byte_masks|done]. }
  assert (length b2 = 16) as Hl2 by (unfold b2, b1; by rewrite !length_alter).
  clearbody b2. clear b1.
  assert (∀ n i rest, i + n ≤ 16 →
    skip_hex (2 * n) (hex_bytes (take n (drop i b2)) +:+ rest) = Some rest) as Hskip.
  { intros n i rest Hi. replace (2 * n) with (2 * length (take n (drop i b2))).
    - apply skip_hex_bytes. by apply Forall_take, Forall_drop.
    - rewrite length_take, length_drop. lia. }
  rewrite <-(str_app_nil_r (hex_bytes (drop 10 b2))).
  rewrite <-(take_ge (drop 10 b2) 6) by (rewrite length_drop; lia).
  unfold IsUUID. cbn [match_groups].
  pose proof (Hskip 4 0) as H4. rewrite drop_0 in H4.
  rewrite H4 by lia. rewrite (str_app_single "-"%char). rewrite bool_decide_eq_true_2 by done. cbn [andb].
  rewrite (Hskip 2 4) by lia. rewrite (str_app_single "-"%char).
  rewrite bool_decide_eq_true_2 by done. cbn [andb].
  rewrite (Hskip 2 6) by lia. rewrite (str_app_single "-"%char).
  rewrite bool_decide_eq_true_2 by done. cbn [andb].
  rewrite (Hskip 2 8) by lia. rewrite (str_app_single "-"%char).
  rewrite bool_decide_eq_true_2 by done. cbn [andb].
  rewrite (Hskip 6 10) by lia. done.
Qed.
