(* ===== verification/GoAny.v ===== *)
(** * Values of type [any]

    What the YAML and JSON decoders put into an [interface{}], [encoding/json]
    to and from such values, and the [%v] of [fmt]. *)
From S2P Require Import Prelude GoText GoFloat Json.
From Stdlib Require Import Ascii.

Module GoAny.

(** The values the program meets. A map is the list of its entries, sorted by
    key. [AOther] stands for a value of any further type (a [time.Time], a map
    with keys that are not strings): what [%v] and [json.Marshal] give for it,
    and the name [%T] gives for its type. *)
Inductive any :=
| ANil
| ABool (b : bool)
| AInt (z : Z)
| AInt64 (z : Z)
| AUint64 (z : Z)
| AFloat (x : float64)
| AString (s : string)
| AList (l : list any)
| AMap (m : list (string * any))
| AOther (shown : string) (encoded : option string) (type : string).

(** [%T]. *)
Definition type_name (v : any) : string :=
  match v with
  | ANil => "<nil>" | ABool _ => "bool" | AInt _ => "int" | AInt64 _ => "int64"
  | AUint64 _ => "uint64" | AFloat _ => "float64" | AString _ => "string"
  | AList _ => "[]interface {}" | AMap _ => "map[string]interface {}" | AOther _ _ t => t
  end.

(** ** Floats in exponent notation *)

(** The shortest digits of a finite value and the weight of the last one. *)
Definition shortest (x : float64) : option (bool * Z * Z) :=
  match x with
  | S754_finite s m e =>
      let '(num, den) := float_ratio m e in
      '(d, p) ← shortest_go 17 x s num den (decimal_point num den) 1; Some (s, d, p)
  | _ => None
  end.

(** [%e]: the exponent has a sign and at least [width] digits. *)
Definition fmt_exp (width : nat) (d p : Z) : string :=
  let digits := FormatUint d 10 in
  let exp := (Z.of_nat (str_len digits) + p - 1)%Z in
  let e := FormatUint (Z.abs exp) 10 in
  str_take 1 digits +:+ (if (1 <? str_len digits)%nat then "." +:+ str_skip 1 digits else "")
  +:+ "e" +:+ (if (exp <? 0)%Z then "-" else "+") +:+ zeros (width - str_len e) +:+ e.

(** The exponent of the value written as [d.ddd * 10^exp]. *)
Definition decimal_exponent (d p : Z) : Z := (Z.of_nat (str_len (FormatUint d 10)) + p - 1)%Z.

(** [%v] of a float: [strconv.FormatFloat(x, 'g', -1, 64)]. *)
Definition float_v (x : float64) : string :=
  match shortest x with
  | Some (s, d, p) =>
      let exp := decimal_exponent d p in
      (if s then "-" else "")
      +:+ (if (exp <? -4)%Z || (6 <=? exp)%Z then fmt_exp 2 d p else fmt_fixed d p)
  | None => FormatFloat x
  end.

(** [json.Marshal] of a float: an exponent below 1e-6 and from 1e21 on, without
    a leading zero; infinities and NaN are errors. *)
Definition float_json (x : float64) : option string :=
  match x with
  | S754_nan | S754_infinity _ => None
  | _ =>
      match shortest x with
      | Some (s, d, p) =>
          let exp := decimal_exponent d p in
          Some ((if s then "-" else "")
            +:+ (if (exp <? -6)%Z || (21 <=? exp)%Z then fmt_exp 1 d p else fmt_fixed d p))
      | None => Some (FormatFloat x)
      end
  end.

(** ** [json.Unmarshal] into an [any]

    Numbers become floats, and one that is out of range is an error; of
    several members with the same name the last one counts. *)
Definition insert_member {A} (k : string) (v : A) (m : list (string * A)) : list (string * A) :=
  filter (λ p, p.1 ≠ k) m ++ [(k, v)].
Definition sort_members {A} (m : list (string * A)) : list (string * A) := sort_on String.le fst m.

Fixpoint of_json (j : Json.json) : option any :=
  match j with
  | Json.JNull => Some ANil
  | Json.JBool b => Some (ABool b)
  | Json.JNum text => match ParseFloat text with (x, None) => Some (AFloat x) | _ => None end
  | Json.JStr s => Some (AString s)
  | Json.JArr l =>
      let elements := fix go (l : list Json.json) : option (list any) :=
        match l with
        | [] => Some []
        | x :: l => v ← of_json x; vs ← go l; Some (v :: vs)
        end in
      vs ← elements l; Some (AList vs)
  | Json.JObj l =>
      let members := fix go (l : list (string * Json.json)) (acc : list (string * any)) :
          option (list (string * any)) :=
        match l with
        | [] => Some acc
        | (k, x) :: l => v ← of_json x; go l (insert_member k v acc)
        end in
      m ← members l []; Some (AMap (sort_members m))
  end.
Definition Unmarshal (text : string) : option any := j ← Json.parse text; of_json j.

(** ** [json.Marshal]; [None] is an error *)
Fixpoint Marshal (v : any) : option string :=
  match v with
  | ANil => Some "null"
  | ABool b => Some (if b then "true" else "false")
  | AInt z | AInt64 z | AUint64 z => Some (itoa z)
  | AFloat x => float_json x
  | AString s => Some (Json.encode_string s)
  | AList l =>
      let elements := fix go (l : list any) : option (list string) :=
        match l with
        | [] => Some []
        | x :: l => t ← Marshal x; ts ← go l; Some (t :: ts)
        end in
      ts ← elements l; Some (Json.encode_array ts)
  | AMap m =>
      let members := fix go (m : list (string * any)) : option (list (string * string)) :=
        match m with
        | [] => Some []
        | (k, x) :: m => t ← Marshal x; ts ← go m; Some ((k, t) :: ts)
        end in
      ts ← members m; Some (Json.encode_object ts)
  | AOther _ t _ => t
  end.

(** ** [fmt.Sprintf] with [%v] *)
Fixpoint space_join (l : list string) : string :=
  match l with
  | [] => ""
  | [x] => x
  | x :: l => x +:+ " " +:+ space_join l
  end.
Fixpoint Sprint_v (v : any) : string :=
  match v with
  | ANil => "<nil>"
  | ABool b => if b then "true" else "false"
  | AInt z | AInt64 z | AUint64 z => itoa z
  | AFloat x => float_v x
  | AString s => s
  | AList l => "[" +:+ space_join (Sprint_v <$> l) +:+ "]"
  | AMap m => "map[" +:+ space_join ((λ p, p.1 +:+ ":" +:+ Sprint_v p.2) <$> m) +:+ "]"
  | AOther s _ _ => s
  end.

Example float_v_ex :
  float_v (ParseFloat "1000000").1 = "1e+06" ∧ float_v (ParseFloat "123456").1 = "123456"
  ∧ float_v (ParseFloat "0.00001").1 = "1e-05" ∧ float_v (ParseFloat "-2.5").1 = "-2.5".
Proof. split_and!; vm_compute; reflexivity. Qed.
Example float_json_ex :
  float_json (ParseFloat "1e21").1 = Some "1e+21" ∧ float_json (ParseFloat "1e20").1 = Some "100000000000000000000"
  ∧ float_json (ParseFloat "1.5e-7").1 = Some "1.5e-7".
Proof. split_and!; vm_compute; reflexivity. Qed.
End GoAny.
