(* ===== verification/ConfigYaml.v ===== *)
(** * Config documents ([internal/config/yaml.go], [parser.go], [parser_v1.go])

    Exports and imports of a config as YAML: the registry of format versions,
    version 1, the conversion of stored texts to native values and back. The
    YAML library is a parameter, [YamlLib]. *)
From S2P Require Import Prelude GoText GoFloat Domain Json GoAny.
From Stdlib Require Import Ascii.
Import GoAny.

(** ** Documents *)
Record configRow := { cr_FieldPath : string; cr_Value : string; cr_Description : option string }.
Record configValueImport := {
  ci_FieldPath : string; ci_Value : string; ci_Description : option string }.
Record ParsedImport := { pc_Description : string; pc_Values : list configValueImport }.

Record ConfigValueYAML := mkValue {
  yv_Value : any; yv_Description : string; yv_Extensions : gmap string any }.
Record ConfigYAML := mkDoc {
  SpecVersion : string; yd_Version : Z; yd_Description : string;
  Values : gmap string ConfigValueYAML; Extensions : gmap string any }.

(** gopkg.in/yaml.v3: [Unmarshal] into the header and into a document,
    [Marshal] of a document. *)
Class YamlLib := {
  yaml_Header : string → result error string;
  yaml_Unmarshal : string → result error ConfigYAML;
  yaml_Marshal : ConfigYAML → result error string
}.

(** [int64(x)] of a float out of range: the language leaves it open. *)
Class FloatOverflow := int64_overflow : float64 → Z.

Module ConfigDoc.

Definition yamlSpecVersionV1 : string := "v1".

(** [^x-.+$]: the dot does not match a line feed. *)
Definition extensionKey (key : string) : bool :=
  match key with
  | String "x" (String "-" (String _ _ as rest)) => negb (Contains rest (String "010"%char ""))
  | _ => false
  end.

Section codec.
Context `{MapRange, FloatOverflow}.

Definition validateExtensions (pathPrefix : string) (ext : gmap string any) : result error unit :=
  match list_find (λ p : string * any, extensionKey p.1 = false) (map_range ext) with
  | Some (_, (key, _)) =>
      Err (Errorf "unknown key %q at %s: only known fields or x-* vendor extensions are allowed"
             [AStr key; AStr (if bool_decide (pathPrefix = "") then "top level" else pathPrefix)])
  | None => Ok tt
  end.

Fixpoint validate_values (l : list (string * ConfigValueYAML)) : result error unit :=
  match l with
  | [] => Ok tt
  | (path, v) :: l =>
      if bool_decide (path = "") then Err (Errorf "field path cannot be empty" [])
      else
        let? _ := validateExtensions ("values." +:+ path) (yv_Extensions v) in
        validate_values l
  end.

Definition validateConfigYAML (doc : ConfigYAML) : result error unit :=
  if bool_decide (SpecVersion doc = "") then Err (Errorf "spec_version is required" [])
  else if negb (bool_decide (SpecVersion doc = yamlSpecVersionV1))
  then Err (Errorf "unsupported spec_version: %s" [AStr (SpecVersion doc)])
  else
    let? _ := validateExtensions "" (Extensions doc) in
    if bool_decide (size (Values doc) = 0) then Err (Errorf "at least one value is required" [])
    else validate_values (map_range (Values doc)).

(** *** Export *)
Definition typedValue (value : string) (ft : FieldType) : any :=
  match ft with
  | FieldTypeInteger => match ParseInt value 64 with (v, None) => AInt64 v | _ => AString value end
  | FieldTypeNumber => match ParseFloat value with (v, None) => AFloat v | _ => AString value end
  | FieldTypeBool => match ParseBool value with (v, None) => ABool v | _ => AString value end
  | FieldTypeJSON => match Unmarshal value with Some v => v | None => AString value end
  | _ => AString value
  end.

(** A missing map entry is the zero field type. *)
Definition type_at (fieldTypes : gmap string FieldType) (path : string) : FieldType :=
  default (FieldTypeOther "") (fieldTypes !! path).

Definition row_value (fieldTypes : gmap string FieldType) (row : configRow) : ConfigValueYAML :=
  mkValue (typedValue (cr_Value row) (type_at fieldTypes (cr_FieldPath row)))
    (default "" (cr_Description row)) ∅.

Definition configToYAML (version : Z) (description : string) (rows : list configRow)
    (fieldTypes : gmap string FieldType) : ConfigYAML :=
  mkDoc yamlSpecVersionV1 version description
    (foldl (λ m row, <[cr_FieldPath row := row_value fieldTypes row]> m) ∅ rows) ∅.

(** *** Import *)
Definition is_integral (x : float64) : bool :=
  match x with
  | S754_zero _ | S754_infinity _ => true
  | S754_nan => false
  | S754_finite _ m e => (0 <=? e)%Z || (Z.pos m mod 2 ^ (- e) =? 0)%Z
  end.
Definition float_to_int64 (x : float64) : Z :=
  let z := trunc_float x in
  match x with
  | S754_infinity _ | S754_nan => int64_overflow x
  | _ => if (min_int64 <=? z)%Z && (z <=? max_int64)%Z then z else int64_overflow x
  end.

Definition cannot_convert (value : any) (to : string) : result error string :=
  Err (Errorf ("cannot convert %T to " +:+ to) [AStr (type_name value)]).

Definition stringifyValue (value : any) (ft : FieldType) : result error string :=
  match value with
  | ANil => Ok ""
  | _ =>
      match ft with
      | FieldTypeInteger =>
          match value with
          | AInt v | AInt64 v => Ok (FormatInt v 10)
          | GoAny.AFloat v =>
              if is_integral v then Ok (FormatInt (float_to_int64 v) 10)
              else Err (Errorf "expected integer, got %v" [Domain.AFloat v])
          | AString v => Ok v
          | _ => cannot_convert value "integer"
          end
      | FieldTypeNumber =>
          match value with
          | AInt v | AInt64 v => Ok (FormatFloat (float_of_Z v))
          | GoAny.AFloat v => Ok (FormatFloat v)
          | AString v => Ok v
          | _ => cannot_convert value "number"
          end
      | FieldTypeBool =>
          match value with
          | ABool v => Ok (FormatBool v)
          | AString v => Ok v
          | _ => cannot_convert value "bool"
          end
      | FieldTypeJSON =>
          match value with
          | AString v => Ok v
          | _ =>
              match Marshal value with
              | Some text => Ok text
              | None => Err (Errorf "cannot marshal JSON: %w" [])
              end
          end
      | _ =>
          match value with
          | AString v => Ok v
          | _ => Ok (Sprint_v value)
          end
      end
  end.

Definition import_value (fieldTypes : gmap string FieldType) (path : string) (yv : ConfigValueYAML) :
    result error configValueImport :=
  match stringifyValue (yv_Value yv) (type_at fieldTypes path) with
  | Err e => Err (Wrap ("field " +:+ path) e)
  | Ok strVal =>
      Ok {| ci_FieldPath := path; ci_Value := strVal;
            ci_Description := if bool_decide (yv_Description yv = "") then None
                              else Some (yv_Description yv) |}
  end.

Fixpoint import_values (fieldTypes : gmap string FieldType) (l : list (string * ConfigValueYAML)) :
    result error (list configValueImport) :=
  match l with
  | [] => Ok []
  | (path, yv) :: l =>
      let? x := import_value fieldTypes path yv in
      let? xs := import_values fieldTypes l in
      Ok (x :: xs)
  end.

(** The values in the order of their paths. *)
Definition yamlToConfigValues (doc : ConfigYAML) (fieldTypes : gmap string FieldType) :
    result error (list configValueImport) :=
  import_values fieldTypes (sort_on String.le fst (map_range (Values doc))).

Context `{YamlLib}.

Definition marshalConfigYAML (doc : ConfigYAML) : result error string := yaml_Marshal doc.
Definition unmarshalConfigYAML (data : string) : result error ConfigYAML :=
  match yaml_Unmarshal data with
  | Err e => Err (Wrap "invalid YAML" e)
  | Ok doc => let? _ := validateConfigYAML doc in Ok doc
  end.

(** ** Parsers *)
Record Parser := mkParser {
  p_SpecVersion : string;
  p_Parse : string → gmap string FieldType → result error ParsedImport;
  p_Marshal : Z → string → list configRow → gmap string FieldType → result error string }.

Definition parserV1_Parse (data : string) (fieldTypes : gmap string FieldType) :
    result error ParsedImport :=
  let? doc := unmarshalConfigYAML data in
  let? values := yamlToConfigValues doc fieldTypes in
  Ok {| pc_Description := yd_Description doc; pc_Values := values |}.
Definition parserV1_Marshal (version : Z) (description : string) (rows : list configRow)
    (fieldTypes : gmap string FieldType) : result error string :=
  marshalConfigYAML (configToYAML version description rows fieldTypes).
Definition parserV1 : Parser := mkParser yamlSpecVersionV1 parserV1_Parse parserV1_Marshal.

(** [Register]; [None] is the panic on a version that is registered already. *)
Definition Register (p : Parser) (registry : gmap string Parser) : option (gmap string Parser) :=
  match registry !! p_SpecVersion p with
  | Some _ => None
  | None => Some (<[p_SpecVersion p := p]> registry)
  end.
(** After the package's [init] functions. *)
Definition parsers : gmap string Parser := default ∅ (Register parserV1 ∅).

Definition SupportedVersions : list string := merge_sort String.le (map_range parsers).*1.
Definition LatestVersion : string := default "" (last SupportedVersions).

Definition unsupported (v : string) : error :=
  Errorf "unsupported spec_version %q (supported: %v)" [AStr v; AStrs SupportedVersions].
End codec.
End ConfigDoc.
Import ConfigDoc.

(** ** The entry points of the service *)
Section entry.
Context `{MapRange, FloatOverflow, YamlLib}.

Definition DispatchImport (data : string) (fieldTypes : gmap string FieldType) :
    result error ParsedImport :=
  match yaml_Header data with
  | Err e => Err (Wrap "invalid YAML" e)
  | Ok v =>
      if bool_decide (v = "")
      then Err (Errorf "spec_version is required (supported: %v)" [AStrs SupportedVersions])
      else
        match parsers !! v with
        | None => Err (unsupported v)
        | Some p => p_Parse p data fieldTypes
        end
  end.

Definition MarshalConfigAt (version : Z) (description : string) (rows : list configRow)
    (fieldTypes : gmap string FieldType) (specVersion : string) : result error string :=
  let specVersion := if bool_decide (specVersion = "") then LatestVersion else specVersion in
  match parsers !! specVersion with
  | None => Err (unsupported specVersion)
  | Some p => p_Marshal p version description rows fieldTypes
  end.
End entry.
