(* ===== verification/ConfigYamlFacts.v ===== *)
(** * What config documents carry

    Which documents an import accepts and what it reads from them; and that an
    export, read back with the same schema, gives the rows that were exported. *)
From S2P Require Import Prelude GoText GoFloat Domain Json GoAny ConfigYaml.
Import GoAny ConfigDoc.

(** ** Imports *)
Section imports.
Context `{MapRangeOk} `{FloatOverflow, YamlLib}.
Implicit Types (types : gmap string FieldType) (doc : ConfigYAML).

(** Keys outside the format must be vendor extensions. *)
Definition extensions_ok (ext : gmap string any) : Prop :=
  ∀ key v, ext !! key = Some v → extensionKey key = true.

Record doc_ok doc : Prop := {
  do_spec : SpecVersion doc = yamlSpecVersionV1;
  do_ext : extensions_ok (Extensions doc);
  do_values : Values doc ≠ ∅;
  do_paths : Values doc !! "" = None;
  do_value_ext p v : Values doc !! p = Some v → extensions_ok (yv_Extensions v) }.

Lemma validateExtensions_Ok prefix ext : validateExtensions prefix ext = Ok tt ↔ extensions_ok ext.
Proof.
  unfold validateExtensions, extensions_ok.
  destruct (list_find _ (map_range ext)) as [[i [key v]]|] eqn:Hf.
  - apply list_find_Some in Hf as (Hl & Hk & _). split; [done|]. intros Hext.
    apply list_elem_of_lookup_2, elem_of_map_range in Hl. apply Hext in Hl. simpl in Hk. congruence.
  - apply list_find_None in Hf. split; [|done]. intros _ key v Hv. rewrite Forall_forall in Hf.
    apply elem_of_map_range, Hf in Hv. simpl in Hv. by apply not_false_iff_true in Hv.
Qed.

Lemma validate_values_Ok l :
  validate_values l = Ok tt ↔ Forall (λ p, p.1 ≠ "" ∧ extensions_ok (yv_Extensions p.2)) l.
Proof.
  induction l as [|[p v] l IH]; simpl; [by rewrite Forall_nil|]. rewrite Forall_cons, <-IH. simpl.
  case_bool_decide as Hp; [naive_solver|].
  pose proof (validateExtensions_Ok ("values." +:+ p) (yv_Extensions v)) as He.
  destruct (validateExtensions _ _) as [[]|e]; simpl; naive_solver.
Qed.

Lemma validateConfigYAML_Ok doc : validateConfigYAML doc = Ok tt ↔ doc_ok doc.
Proof.
  unfold validateConfigYAML. case_bool_decide as Hs1.
  { split; [done|]. intros [Hs]. by rewrite Hs in Hs1. }
  case_bool_decide as Hs2; simpl; [|split; [done|by intros []]].
  pose proof (validateExtensions_Ok "" (Extensions doc)) as He.
  destruct (validateExtensions _ _) as [[]|e]; simpl; [|split; [done|intros []; naive_solver]].
  case_bool_decide as Hz.
  { split; [done|]. intros []. by apply map_size_empty_inv in Hz. }
  rewrite validate_values_Ok, Forall_forall. split.
  - intros Hf. split; [done|naive_solver|..].
    + intros Hx. by rewrite Hx, map_size_empty in Hz.
    + destruct (Values doc !! "") as [v|] eqn:Hv; [|done].
      apply elem_of_map_range, Hf in Hv as [? _]. done.
    + intros p v Hv. by apply elem_of_map_range, Hf in Hv as [_ ?].
  - intros [_ _ _ Hp Hv] [p v] Hin. apply elem_of_map_range in Hin. simpl. split; [|by eapply Hv].
    intros ->. congruence.
Qed.

Lemma import_values_Ok types l xs :
  import_values types l = Ok xs ↔ Forall2 (λ p x, import_value types p.1 p.2 = Ok x) l xs.
Proof.
  revert xs. induction l as [|[p yv] l IH]; intros xs; simpl.
  { split; [by intros [= <-]|by inversion 1]. }
  destruct (import_value types p yv) as [x|e] eqn:Hx; simpl.
  2:{ split; [done|]. inversion 1; simplify_eq/=; congruence. }
  destruct (import_values types l) as [ys|e] eqn:Hl; simpl.
  - split; [intros [= <-]; constructor; [done|by apply IH]|].
    inversion 1; simplify_eq/=. rewrite Hx in *. simplify_eq. f_equal. f_equal.
    assert (Ok (E:=error) ys = Ok l'); [|congruence]. by apply IH.
  - split; [done|]. inversion 1; simplify_eq/=. assert (Err e = Ok l') by (by apply IH). done.
Qed.

Lemma import_value_path types p yv x : import_value types p yv = Ok x → ci_FieldPath x = p.
Proof. unfold import_value. destruct (stringifyValue _ _); naive_solver. Qed.

(** The entries of a document in the order of their paths. *)
Definition sorted_values doc := sort_on String.le fst (map_range (Values doc)).
Lemma elem_of_sorted_values doc p yv : (p, yv) ∈ sorted_values doc ↔ Values doc !! p = Some yv.
Proof. unfold sorted_values. by rewrite elem_of_sort_on, elem_of_map_range. Qed.
Lemma sorted_values_paths doc :
  StronglySorted String.le (sorted_values doc).*1 ∧ NoDup (sorted_values doc).*1.
Proof.
  unfold sorted_values. split; [apply sort_on_keys_sorted; apply _|].
  rewrite sort_on_perm. apply NoDup_fst_map_range.
Qed.

(** What an import reads from a document. *)
Record reads_values types doc (values : list configValueImport) : Prop := {
  rv_sorted : StronglySorted String.le (ci_FieldPath <$> values);
  rv_NoDup : NoDup (ci_FieldPath <$> values);
  rv_sound x : x ∈ values →
    ∃ yv, Values doc !! ci_FieldPath x = Some yv ∧ import_value types (ci_FieldPath x) yv = Ok x;
  rv_complete p yv : Values doc !! p = Some yv →
    ∃ x, x ∈ values ∧ import_value types p yv = Ok x }.

Lemma import_values_reads types doc values :
  import_values types (sorted_values doc) = Ok values → reads_values types doc values.
Proof.
  rewrite import_values_Ok. intros Hf.
  assert (ci_FieldPath <$> values = (sorted_values doc).*1) as Hpaths.
  { induction Hf as [|[p yv] x l xs Hx Hf IH]; [done|]. rewrite !fmap_cons, IH.
    by rewrite (import_value_path _ _ _ _ Hx). }
  destruct (sorted_values_paths doc) as [Hs Hnd].
  split; rewrite ?Hpaths; [done..| |].
  - intros x (i & Hi)%list_elem_of_lookup. destruct (Forall2_lookup_r _ _ _ _ _ Hf Hi) as ([p yv] & Hl & Hx).
    simpl in Hx. rewrite (import_value_path _ _ _ _ Hx) in *. exists yv. split; [|done].
    apply elem_of_sorted_values, list_elem_of_lookup. eauto.
  - intros p yv Hv. apply elem_of_sorted_values, list_elem_of_lookup in Hv as [i Hi].
    destruct (Forall2_lookup_l _ _ _ _ _ Hf Hi) as (x & Hl & Hx). exists x.
    split; [|done]. apply list_elem_of_lookup. eauto.
Qed.

(** The description determines the list. *)
Lemma reads_values_unique types doc l1 l2 :
  reads_values types doc l1 → reads_values types doc l2 → l1 = l2.
Proof.
  intros [S1 N1 So1 C1] [S2 N2 So2 C2].
  assert (∀ l l', reads_values types doc l → reads_values types doc l' → ∀ x, x ∈ l → x ∈ l') as Hsub.
  { intros l l' [_ _ So _] [_ _ _ Co] x Hx. destruct (So x Hx) as (yv & Hv & Hok).
    destruct (Co _ _ Hv) as (x' & Hx' & Hok'). by replace x with x' by congruence. }
  assert (l1 ≡ₚ l2) as Hp.
  { apply NoDup_Permutation; [by eapply NoDup_fmap_1..|]. intros x. split; by apply Hsub. }
  apply (StronglySorted_unique_strong (key_le String.le ci_FieldPath));
    [|by apply (StronglySorted_keys String.le ci_FieldPath)..|done].
  intros x1 x2 Hx1 Hx2 H1' H2'. assert (ci_FieldPath x1 = ci_FieldPath x2) as Hk by (by apply (anti_symm String.le)).
  destruct (So1 x1 Hx1) as (yv & Hv & Hok), (So2 x2 Hx2) as (yv' & Hv' & Hok'). rewrite Hk in *. congruence.
Qed.

Lemma doc_values types doc values :
  yamlToConfigValues doc types = Ok values ↔ reads_values types doc values.
Proof.
  split; [apply import_values_reads|]. intros Hr. unfold yamlToConfigValues.
  assert (∃ l, import_values types (sorted_values doc) = Ok l) as [l Hl].
  { assert (∀ p yv, (p, yv) ∈ sorted_values doc → ∃ x, import_value types p yv = Ok x) as Hall.
    { intros p yv Hv%elem_of_sorted_values. destruct (rv_complete _ _ _ Hr p yv Hv) as (x & _ & ?). eauto. }
    clear Hr. induction (sorted_values doc) as [|[p yv] l IH]; simpl; [eauto|].
    destruct (Hall p yv) as [x ->]; [by left|]. destruct IH as [xs ->]; [|simpl; eauto].
    intros p' yv' Hin. apply Hall. by right. }
  fold (sorted_values doc). rewrite Hl. f_equal.
  eapply reads_values_unique; [by apply import_values_reads|done].
Qed.

Lemma parsers_lookup v : parsers !! v = if decide (v = yamlSpecVersionV1) then Some parserV1 else None.
Proof.
  unfold parsers, Register. rewrite lookup_empty. simpl. destruct (decide (v = yamlSpecVersionV1)) as [->|Hv].
  - apply lookup_insert_eq.
  - by rewrite lookup_insert_ne by (intros E; by rewrite <-E in Hv).
Qed.

Lemma DispatchImport_Ok data types parsed :
  DispatchImport data types = Ok parsed ↔
  ∃ doc, yaml_Header data = Ok yamlSpecVersionV1 ∧ yaml_Unmarshal data = Ok doc ∧ doc_ok doc
    ∧ pc_Description parsed = yd_Description doc ∧ reads_values types doc (pc_Values parsed).
Proof.
  unfold DispatchImport. destruct (yaml_Header data) as [v|e]; [|naive_solver].
  case_bool_decide as Hv; [naive_solver|]. rewrite parsers_lookup.
  destruct (decide (v = yamlSpecVersionV1)) as [->|Hne]; [|naive_solver].
  simpl. unfold parserV1_Parse, unmarshalConfigYAML.
  destruct (yaml_Unmarshal data) as [doc|e]; simpl; [|naive_solver].
  pose proof (validateConfigYAML_Ok doc) as Hok. destruct (validateConfigYAML doc) as [[]|e]; simpl.
  2:{ split; [done|]. intros (? & _ & [= <-] & Hd & _). by apply Hok in Hd. }
  pose proof (doc_values types doc) as Hvals.
  destruct (yamlToConfigValues doc types) as [values|e]; simpl.
  - split.
    + intros [= <-]. exists doc. split_and!; try done; [by apply Hok|by apply Hvals].
    + intros (? & _ & [= <-] & _ & Hd & Hr). apply Hvals in Hr. destruct parsed. by simplify_eq/=.
  - split; [done|]. intros (? & _ & [= <-] & _ & _ & Hr). by apply Hvals in Hr.
Qed.

(** Which documents an import accepts, and what it reads: the document is
    YAML with spec_version v1, has no keys but those of the format and x-*
    extensions, has at least one value and no empty path, and every value can
    be written in its field's type. Then the values read are those of the
    document, one for each path, in the order of the paths. *)
Theorem import_reads_document data types parsed :
  DispatchImport data types = Ok parsed ↔
  ∃ doc, yaml_Header data = Ok yamlSpecVersionV1 ∧ yaml_Unmarshal data = Ok doc ∧ doc_ok doc
    ∧ pc_Description parsed = yd_Description doc ∧ reads_values types doc (pc_Values parsed).
Proof. apply DispatchImport_Ok. Qed.
End imports.

(** ** Exports *)

(** Induction on native values, through lists and maps. *)
Section any_ind.
Context (P : any → Prop).
Hypothesis HNil : P ANil.
Hypothesis HBool : ∀ b, P (ABool b).
Hypothesis HInt : ∀ z, P (AInt z).
Hypothesis HInt64 : ∀ z, P (AInt64 z).
Hypothesis HUint64 : ∀ z, P (AUint64 z).
Hypothesis HFloat : ∀ x, P (AFloat x).
Hypothesis HString : ∀ s, P (AString s).
Hypothesis HList : ∀ l, Forall P l → P (AList l).
Hypothesis HMap : ∀ m, Forall (λ p, P p.2) m → P (AMap m).
Hypothesis HOther : ∀ s e t, P (AOther s e t).

Fixpoint any_nested_ind (v : any) : P v :=
  match v with
  | ANil => HNil | ABool b => HBool b | AInt z => HInt z | AInt64 z => HInt64 z | AUint64 z => HUint64 z
  | AFloat x => HFloat x | AString s => HString s | AOther s e t => HOther s e t
  | AList l =>
      HList l ((fix go l : Forall P l :=
        match l with [] => List.Forall_nil _ | x :: l => List.Forall_cons _ _ _ (any_nested_ind x) (go l) end) l)
  | AMap m =>
      HMap m ((fix go m : Forall (λ p, P p.2) m :=
        match m with
        | [] => List.Forall_nil _
        | p :: m => List.Forall_cons _ _ _ (match p as q return P q.2 with (_, x) => any_nested_ind x end) (go m)
        end) m)
  end.
End any_ind.

(** How yaml.v3 reads a value that it has written: integers come back as
    [int]; a float is written in its shortest form, and when that is a plain
    integer numeral it may come back as one; lists and maps member by member. *)
Inductive reads_as : any → any → Prop :=
| ra_nil : reads_as ANil ANil
| ra_bool b : reads_as (ABool b) (ABool b)
| ra_int64 z : reads_as (AInt64 z) (AInt z)
| ra_float x : reads_as (AFloat x) (AFloat x)
| ra_integral z : float_json (float_of_Z z) = Some (itoa z) → reads_as (AFloat (float_of_Z z)) (AInt z)
| ra_negative_zero : reads_as (AFloat (S754_zero true)) (AInt 0)
| ra_string s : reads_as (AString s) (AString s)
| ra_list l l' : Forall2 reads_as l l' → reads_as (AList l) (AList l')
| ra_map m m' : Forall2 (λ p p', p.1 = p'.1 ∧ reads_as p.2 p'.2) m m' → reads_as (AMap m) (AMap m').

(** The values an export writes: scalars, and lists and maps of them. *)
Inductive native : any → Prop :=
| na_nil : native ANil
| na_bool b : native (ABool b)
| na_int64 z : native (AInt64 z)
| na_float x : native (AFloat x)
| na_string s : native (AString s)
| na_list l : Forall native l → native (AList l)
| na_map m : Forall (λ p, native p.2) m → native (AMap m).

(** No number in the value is the negative zero, whose sign does not survive. *)
Inductive no_negative_zero : any → Prop :=
| nz_float x : x ≠ S754_zero true → no_negative_zero (AFloat x)
| nz_list l : Forall no_negative_zero l → no_negative_zero (AList l)
| nz_map m : Forall (λ p, no_negative_zero p.2) m → no_negative_zero (AMap m)
| nz_scalar v : match v with AFloat _ | AList _ | AMap _ => False | _ => True end → no_negative_zero v.

(** What [json.Marshal] writes does not depend on the way through YAML. *)
Lemma Marshal_reads v v' : reads_as v v' → no_negative_zero v → Marshal v' = Marshal v.
Proof.
  revert v'. induction v as [| | | | |x|s|l IH|m IH|] using any_nested_ind; intros v' Hr Hz;
    inversion Hr as [| | |?|z' Hj| |?|? l' Hl|? m' Hm]; subst; try done.
  - by inversion Hz.
  - inversion Hz as [|? Hf| |]; subst; [|done]. cbn [Marshal]. f_equal. clear Hr Hz.
    revert l' Hl Hf. induction IH as [|v l Hv _ IHl]; intros l' Hl Hf; inversion Hl as [|? v' ? l1 Hvv Hll]; subst; [done|].
    apply Forall_cons in Hf as [Hz Hf]. by rewrite (Hv v' Hvv Hz), (IHl l1 Hll Hf).
  - inversion Hz as [| |? Hf|]; subst; [|done]. cbn [Marshal]. f_equal. clear Hr Hz.
    revert m' Hm Hf. induction IH as [|[k v] m Hv _ IHm]; intros m' Hm Hf; inversion Hm as [|? [k' v'] ? m1 [Hk Hvv] Hmm]; subst; [done|].
    apply Forall_cons in Hf as [Hz Hf]. simpl in *. subst k'. by rewrite (Hv v' Hvv Hz), (IHm m1 Hmm Hf).
Qed.

(** What [json.Unmarshal] gives is native. *)
Lemma of_json_native j v : of_json j = Some v → native v.
Proof.
  revert v. induction j as [|b|text|str|l IH|l IH] using Json.json_nested_ind; intros v; cbn [of_json].
  - intros [= <-]. constructor.
  - intros [= <-]. constructor.
  - destruct (ParseFloat text) as [x [e|]]; [done|]. intros [= <-]. constructor.
  - intros [= <-]. constructor.
  - intros (vs & Hvs & [= <-])%bind_Some. constructor. revert vs Hvs.
    induction IH as [|j l Hj _ IHl]; intros vs; [by intros [= <-]|].
    intros (v & Hv & (vs' & Hvs & [= <-])%bind_Some)%bind_Some. constructor; auto.
  - intros (m & Hm & [= <-])%bind_Some. constructor.
    assert (Forall (λ p : string * any, native p.2) m) as Hf.
    { revert Hm. assert (Forall (λ p : string * any, native p.2) []) as H0 by constructor. revert H0.
      generalize (@nil (string * any)). induction IH as [|[k j] l Hj _ IHl]; intros acc Hacc; [by intros [= <-]|].
      intros (v & Hv & Hm)%bind_Some. refine (IHl _ _ Hm). apply Forall_app. split; [|by repeat constructor; auto].
      rewrite Forall_forall in *. intros p [_ Hp]%list_elem_of_filter. by apply Hacc. }
    unfold sort_members. rewrite Forall_forall in *. intros p Hp. apply Hf. by apply elem_of_sort_on in Hp.
Qed.

(** A value of a document and what is read for it. *)
Definition value_reads (v v' : ConfigValueYAML) : Prop :=
  reads_as (yv_Value v) (yv_Value v') ∧ yv_Description v' = yv_Description v ∧ yv_Extensions v' = ∅.

(** yaml.v3 reads back what it writes. *)
Class YamlLibOk `{YamlLib} : Prop :=
  yaml_reads_back : ∀ doc data, yaml_Marshal doc = Ok data → Extensions doc = ∅ →
    (∀ p v, Values doc !! p = Some v → yv_Extensions v = ∅ ∧ native (yv_Value v)) →
    yaml_Header data = Ok (SpecVersion doc)
    ∧ ∃ values, yaml_Unmarshal data
        = Ok (mkDoc (SpecVersion doc) (yd_Version doc) (yd_Description doc) values ∅)
      ∧ map_relation (λ _, value_reads) (λ _ _, False) (λ _ _, False) (Values doc) values.

Section exports.
Context `{MapRangeOk} `{FloatOverflow} `{YamlLibOk}.
Implicit Types (types : gmap string FieldType) (row : configRow).

(** A text that its field's type writes the same way: a number in its shortest
    decimal form, a boolean as true or false, JSON as [json.Marshal] writes it
    (compact, members sorted by name, numbers in their shortest form) and not a
    mere string or null; or a text that is not of the type, which is exported
    as it is. *)
Definition canonical (ft : FieldType) (text : string) : Prop :=
  match ft with
  | FieldTypeInteger => ∀ z, ParseInt text 64 = (z, None) → itoa z = text
  | FieldTypeNumber => ∀ x, ParseFloat text = (x, None) → FormatFloat x = text ∧ x ≠ S754_zero true
  | FieldTypeBool => ∀ b, ParseBool text = (b, None) → FormatBool b = text
  | FieldTypeJSON => ∀ v, Unmarshal text = Some v →
      Marshal v = Some text ∧ no_negative_zero v ∧ match v with ANil | AString _ => False | _ => True end
  | _ => True
  end.

(** The native value of such a text, written to YAML and read back, is written
    as the text again. *)
Lemma stringify_typed ft text v :
  canonical ft text → reads_as (typedValue text ft) v → stringifyValue v ft = Ok text.
Proof.
  intros Hc Hr. destruct ft; simpl in *; try (by inversion Hr; subst).
  - destruct (ParseInt text 64) as [z [e|]]; inversion Hr; subst; [done|]. cbn. f_equal. by apply Hc.
  - destruct (ParseFloat text) as [x [e|]]; [by inversion Hr; subst|].
    destruct (Hc x eq_refl) as [Hx Hz]. by inversion Hr; subst; simpl; rewrite ?Hx.
  - destruct (ParseBool text) as [b [e|]]; inversion Hr; subst; [done|]. cbn. f_equal. by apply Hc.
  - destruct (Unmarshal text) as [v0|]; [|by inversion Hr; subst].
    destruct (Hc v0 eq_refl) as (Hm & Hz & Hv). pose proof (Marshal_reads _ _ Hr Hz) as Hm'. rewrite Hm in Hm'.
    unfold stringifyValue. by inversion Hr; subst; try done; rewrite Hm'.
Qed.
Lemma native_typed ft text : native (typedValue text ft).
Proof.
  destruct ft; simpl; try constructor.
  - destruct (ParseInt text 64) as [z [e|]]; constructor.
  - destruct (ParseFloat text) as [x [e|]]; constructor.
  - destruct (ParseBool text) as [b [e|]]; constructor.
  - destruct (Unmarshal text) as [v|] eqn:E; [|constructor].
    apply bind_Some in E as (j & _ & Hj). by eapply of_json_native.
Qed.

(** The row as an import reads it: an empty description is none. *)
Definition import_of_row row : configValueImport :=
  {| ci_FieldPath := cr_FieldPath row; ci_Value := cr_Value row;
     ci_Description := match cr_Description row with Some "" => None | d => d end |}.

Lemma exported_lookup types rows p v :
  NoDup (cr_FieldPath <$> rows) →
  Values (configToYAML 0 "" rows types) !! p = Some v ↔
  ∃ row, row ∈ rows ∧ cr_FieldPath row = p ∧ v = row_value types row.
Proof.
  intros Hnd. simpl. rewrite <-elem_of_map_to_list.
  rewrite (foldl_insert_perm cr_FieldPath (row_value types) rows Hnd), list_elem_of_fmap. naive_solver.
Qed.

Lemma import_row_value types row v :
  canonical (type_at types (cr_FieldPath row)) (cr_Value row) → value_reads (row_value types row) v →
  import_value types (cr_FieldPath row) v = Ok (import_of_row row).
Proof.
  intros Hc (Hr & Hd & _). unfold import_value. rewrite (stringify_typed _ _ _ Hc Hr), Hd. f_equal.
  unfold import_of_row. f_equal. simpl. by destruct (cr_Description row) as [[|c d]|].
Qed.

Lemma LatestVersion_v1 : LatestVersion = yamlSpecVersionV1.
Proof.
  unfold LatestVersion, SupportedVersions.
  assert ((map_range parsers).*1 = [yamlSpecVersionV1]) as ->; [|done].
  apply Permutation_singleton_r. rewrite map_range_perm. unfold parsers, Register.
  rewrite lookup_empty. simpl. by rewrite map_to_list_insert, map_to_list_empty.
Qed.

(** C13: An export can be read back: a document made from rows with distinct,
    non-empty paths and canonical texts is accepted by an import with the same
    schema, which reads the description and the rows, in the order of their
    paths, each with its text and its description (an empty one as none).
    Canonical are: any text of a string, time, duration or URL field; the
    shortest decimal form of a number other than the negative zero; true and
    false; a JSON list, object, number or boolean as [json.Marshal] writes it;
    and any text that is not of the field's type. JSON strings and null are
    not: they lose their quotes and become empty. *)
Theorem export_then_import version description rows types data :
  rows ≠ [] → NoDup (cr_FieldPath <$> rows) →
  Forall (λ row, cr_FieldPath row ≠ ""
            ∧ canonical (type_at types (cr_FieldPath row)) (cr_Value row)) rows →
  MarshalConfigAt version description rows types "" = Ok data →
  DispatchImport data types
  = Ok {| pc_Description := description;
          pc_Values := import_of_row <$> sort_on String.le cr_FieldPath rows |}.
Proof.
  intros Hne Hnd Hrows E. unfold MarshalConfigAt in E. rewrite bool_decide_eq_true_2 in E by done.
  rewrite LatestVersion_v1, parsers_lookup, decide_True in E by done. simpl in E.
  rewrite Forall_forall in Hrows. pose proof (exported_lookup types rows) as Hlook. simpl in Hlook.
  destruct (yaml_reads_back _ _ E) as (Hh & values & Hu & Hv); [done| |].
  { intros p v (row & Hin & <- & ->)%Hlook; [|done]. split; [done|]. apply native_typed. }
  assert (∀ p v, values !! p = Some v →
    ∃ row, row ∈ rows ∧ cr_FieldPath row = p ∧ value_reads (row_value types row) v) as Hback.
  { intros p v Hp. specialize (Hv p). rewrite Hp in Hv. simpl in Hv.
    destruct (_ !! p) as [v0|] eqn:H0p in Hv; [|done].
    apply Hlook in H0p as (row & ? & ? & ->); [eauto|done]. }
  assert (∀ row, row ∈ rows → ∃ v, values !! cr_FieldPath row = Some v
    ∧ value_reads (row_value types row) v) as Hforth.
  { intros row Hin. specialize (Hv (cr_FieldPath row)). simpl in Hv.
    rewrite (proj2 (Hlook (cr_FieldPath row) (row_value types row) Hnd)) in Hv by eauto.
    destruct (values !! cr_FieldPath row) as [v|]; [eauto|done]. }
  apply DispatchImport_Ok. eexists. split_and!; [exact Hh|exact Hu| |done|].
  - split; simpl; [done..| | |].
    + destruct rows as [|row rows]; [done|]. destruct (Hforth row) as (v & Hv' & _); [by left|].
      intros ->. by rewrite lookup_empty in Hv'.
    + destruct (values !! "") as [v|] eqn:Hp; [|done].
      destruct (Hback _ _ Hp) as (row & Hin & Hx & _). by destruct (Hrows row Hin).
    + intros p v Hp. by destruct (Hback _ _ Hp) as (row & _ & _ & _ & _ & ->).
  - simpl. split.
    + rewrite <-list_fmap_compose. apply sort_on_keys_sorted; apply _.
    + rewrite <-list_fmap_compose. by rewrite sort_on_perm.
    + intros x (row & -> & Hin%elem_of_sort_on)%list_elem_of_fmap. destruct (Hforth row Hin) as (v & Hp & Hr).
      exists v. split; [done|]. by apply import_row_value; [apply Hrows|].
    + intros p v Hp. destruct (Hback _ _ Hp) as (row & Hin & <- & Hr). exists (import_of_row row).
      split; [apply list_elem_of_fmap_2; by apply elem_of_sort_on|].
      by apply import_row_value; [apply Hrows|].
Qed.
End exports.
