(* ===== verification/Lru.v ===== *)
(** * The bounded LRU map ([internal/cache/lru.go])

    The Go structure is a hash index into a doubly linked list
    ([container/list]). An [Element] is a heap cell with an identity: the
    index maps a key to the identity of its element and the list holds the
    elements from the least to the most recently used. The abstract view is
    an association list in that order. *)
From S2P Require Import Prelude.

Section LRU.
Context {V : Type}.

(** A list element and the [lruEntry] it points to. *)
Record Element := { el_id : nat; el_key : string; el_val : V }.

Record LRU := mkLRU {
  cap : Z;
  items : gmap string nat;   (* key → element identity *)
  order : list Element;      (* front = oldest *)
  next_id : nat              (* allocator of element identities *)
}.

Definition NewLRU (cap : Z) : LRU := mkLRU cap ∅ [] 0.

(** [elem.Value] for an element still in the list. *)
Definition find_id (id : nat) (l : list Element) : option Element :=
  list_find (λ e, el_id e = id) l ≫= λ p, Some p.2.
(** [list.Remove]. *)
Definition remove_id (id : nat) (l : list Element) : list Element :=
  filter (λ e, el_id e ≠ id) l.
(** [list.MoveToBack]. *)
Definition MoveToBack (id : nat) (l : list Element) : list Element :=
  match find_id id l with
  | Some e => remove_id id l ++ [e]
  | None => l
  end.

(** [Get]: the value, if present, and the cache with the entry promoted. *)
Definition Get (k : string) (c : LRU) : option V * LRU :=
  match items c !! k with
  | None => (None, c)
  | Some id =>
      let o := MoveToBack id (order c) in
      (el_val <$> find_id id o, mkLRU (cap c) (items c) o (next_id c))
  end.

Definition Peek (k : string) (c : LRU) : option V :=
  match items c !! k with
  | None => None
  | Some id => el_val <$> find_id id (order c)
  end.

Definition set_val (id : nat) (v : V) (l : list Element) : list Element :=
  (λ e, if bool_decide (el_id e = id) then Build_Element (el_id e) (el_key e) v else e) <$> l.

Definition Len (c : LRU) : Z := Z.of_nat (size (items c)).

Definition Set_ (k : string) (v : V) (c : LRU) : LRU :=
  match items c !! k with
  | Some id =>
      mkLRU (cap c) (items c) (MoveToBack id (set_val id v (order c))) (next_id c)
  | None =>
      let '(its, ord) :=
        if (cap c <=? Z.of_nat (length (order c)))%Z then
          match order c with
          | front :: rest => (delete (el_key front) (items c), remove_id (el_id front) (order c))
          | [] => (items c, order c)
          end
        else (items c, order c) in
      let elem := Build_Element (next_id c) k v in
      mkLRU (cap c) (<[k := el_id elem]> its) (ord ++ [elem]) (S (next_id c))
  end.

Definition Delete (k : string) (c : LRU) : LRU :=
  match items c !! k with
  | None => c
  | Some id => mkLRU (cap c) (delete k (items c)) (remove_id id (order c)) (next_id c)
  end.

(** [Range] snapshots the entries, oldest first, and then calls [fn], which
    may change the cache: [fn] is a state transformer. *)
Definition Range (fn : string → V → LRU → LRU) (c : LRU) : LRU :=
  fold_left (λ c e, fn (el_key e) (el_val e) c) (order c) c.

(** [DeleteWhere] ranges over the hash index, in no particular order, and
    then deletes the collected keys. *)
Definition DeleteWhere `{MapRange} (pred : string → V → bool) (c : LRU) : LRU :=
  let toDelete :=
    omap (λ '(k, id),
      match find_id id (order c) with
      | Some e => if pred k (el_val e) then Some k else None
      | None => None
      end) (map_range (items c)) in
  fold_left (λ c k, Delete k c) toDelete c.

(** ** Invariant

    The index and the list describe the same entries: identities are unique
    and allocated, keys are unique, and the index maps exactly the keys of
    the list, each to its element. *)
Record wf (c : LRU) : Prop := {
  wf_ids : NoDup (el_id <$> order c);
  wf_keys : NoDup (el_key <$> order c);
  wf_alloc : ∀ e, e ∈ order c → el_id e < next_id c;
  wf_items : ∀ k id, items c !! k = Some id ↔ ∃ v, Build_Element id k v ∈ order c
}.

(** The abstract view. *)
Definition entries (c : LRU) : list (string * V) := (λ e, (el_key e, el_val e)) <$> order c.
End LRU.
Arguments LRU : clear implicits.
Arguments Element : clear implicits.

(** ** Reference operations on association lists *)
Section AssocList.
Context {V : Type}.
Implicit Types l : list (string * V).

Fixpoint al_lookup (k : string) l : option V :=
  match l with
  | [] => None
  | (k', v) :: l => if bool_decide (k' = k) then Some v else al_lookup k l
  end.
Definition al_remove (k : string) l : list (string * V) := filter (λ p, p.1 ≠ k) l.
Definition al_touch (k : string) l : list (string * V) :=
  match al_lookup k l with Some v => al_remove k l ++ [(k, v)] | None => l end.
(** Insert or update as most recent; a new key evicts the oldest entry when
    [cap] entries are present. *)
Definition al_set (cap : Z) (k : string) (v : V) l : list (string * V) :=
  match al_lookup k l with
  | Some _ => al_remove k l ++ [(k, v)]
  | None => (if (cap <=? Z.of_nat (length l))%Z then drop 1 l else l) ++ [(k, v)]
  end.
End AssocList.

(** ** Shared facts about lists without repeated keys *)
Section assoc_facts.
Context {V : Type}.
Implicit Types l : list (string * V).

Lemma al_lookup_elem k v l : al_lookup k l = Some v → (k, v) ∈ l.
Proof.
  induction l as [|[k' v'] l IH]; simpl; [done|].
  case_bool_decide; intros; simplify_eq; [left|right; auto].
Qed.
Lemma al_lookup_None k l : al_lookup k l = None ↔ k ∉ l.*1.
Proof.
  induction l as [|[k' v'] l IH]; simpl.
  - split; [intros _; apply not_elem_of_nil|done].
  - rewrite not_elem_of_cons. case_bool_decide; subst; [naive_solver|].
    rewrite IH. naive_solver.
Qed.
Lemma al_lookup_middle k v l1 l2 :
  k ∉ l1.*1 → al_lookup k (l1 ++ (k, v) :: l2) = Some v.
Proof.
  induction l1 as [|[k' v'] l1 IH]; simpl; intros Hk.
  - by rewrite bool_decide_eq_true_2.
  - apply not_elem_of_cons in Hk as [? ?].
    rewrite bool_decide_eq_false_2 by done. auto.
Qed.
Lemma al_remove_notin k l : k ∉ l.*1 → al_remove k l = l.
Proof.
  unfold al_remove. induction l as [|[k' v'] l IH]; simpl; intros Hk; [done|].
  apply not_elem_of_cons in Hk as [? ?].
  rewrite filter_cons_True by (simpl; congruence). by rewrite IH.
Qed.
Lemma al_remove_middle k v l1 l2 :
  k ∉ l1.*1 → k ∉ l2.*1 → al_remove k (l1 ++ (k, v) :: l2) = l1 ++ l2.
Proof.
  intros H1 H2. unfold al_remove. rewrite filter_app, filter_cons_False by (simpl; tauto).
  f_equal; by apply al_remove_notin.
Qed.
Lemma elem_of_al_remove k k' v l : (k', v) ∈ al_remove k l ↔ k' ≠ k ∧ (k', v) ∈ l.
Proof. unfold al_remove. by rewrite list_elem_of_filter. Qed.
Lemma al_lookup_remove_ne k k' l : k ≠ k' → al_lookup k (al_remove k' l) = al_lookup k l.
Proof.
  intros Hne. unfold al_remove. induction l as [|[a v] l IH]; [done|].
  destruct (decide (a = k')) as [->|].
  - rewrite filter_cons_False by (simpl; tauto). simpl.
    rewrite bool_decide_eq_false_2 by congruence. done.
  - rewrite filter_cons_True by done. simpl. by rewrite IH.
Qed.
Lemma al_lookup_remove_eq k l : al_lookup k (al_remove k l) = None.
Proof.
  apply al_lookup_None. unfold al_remove. rewrite list_elem_of_fmap.
  intros ([a v] & Ha & [? _]%list_elem_of_filter). simpl in *; congruence.
Qed.
Lemma al_lookup_app_r k v l : k ∉ l.*1 → al_lookup k (l ++ [(k, v)]) = Some v.
Proof. intros. by apply al_lookup_middle. Qed.
Lemma al_lookup_app_ne k k' v l :
  k ≠ k' → al_lookup k (l ++ [(k', v)]) = al_lookup k l.
Proof.
  intros Hne. induction l as [|[a w] l IH]; simpl.
  - by rewrite bool_decide_eq_false_2.
  - by rewrite IH.
Qed.

Lemma al_lookup_iff k v l : NoDup l.*1 → al_lookup k l = Some v ↔ (k, v) ∈ l.
Proof.
  intros Hnd. split; [apply al_lookup_elem|].
  intros (l1 & l2 & ->)%list_elem_of_split.
  rewrite fmap_app, fmap_cons in Hnd. apply NoDup_app in Hnd as (_ & Hn & _).
  apply al_lookup_middle. intros Hin. apply (Hn _ Hin). by left.
Qed.

(** Reading back after a set: the new value, and for other keys only what
    was there before. *)
Lemma al_lookup_set_eq n k v l : NoDup l.*1 → al_lookup k (al_set n k v l) = Some v.
Proof.
  intros Hnd. unfold al_set. destruct (al_lookup k l) eqn:Hk.
  - apply al_lookup_app_r. apply al_lookup_None, al_lookup_remove_eq.
  - apply al_lookup_app_r. apply al_lookup_None in Hk.
    destruct (_ <=? _)%Z; [|done]. destruct l; [done|]. csimpl in *. set_solver.
Qed.
Lemma al_lookup_set_ne n k k' v w l :
  NoDup l.*1 → k' ≠ k → al_lookup k' (al_set n k v l) = Some w → al_lookup k' l = Some w.
Proof.
  intros Hnd Hne. unfold al_set.
  destruct (al_lookup k l); rewrite al_lookup_app_ne by done.
  - by rewrite al_lookup_remove_ne.
  - destruct (_ <=? _)%Z; [|done]. destruct l as [|[a x] l]; [done|]. simpl.
    rewrite drop_0. intros Hl. rewrite bool_decide_eq_false_2; [done|]. intros ->.
    csimpl in Hnd. apply NoDup_cons in Hnd as [Hn _]. apply Hn.
    apply al_lookup_elem in Hl. apply list_elem_of_fmap. by exists (k', w).
Qed.
Lemma al_lookup_filter_Some (P : string * V → Prop) `{!∀ x, Decision (P x)} k v l :
  NoDup l.*1 → al_lookup k (filter P l) = Some v ↔ P (k, v) ∧ al_lookup k l = Some v.
Proof.
  intros Hnd. rewrite !al_lookup_iff; [apply list_elem_of_filter|done|].
  eapply sublist_NoDup; [done|]. by apply fmap_sublist, sublist_filter.
Qed.
End assoc_facts.

Section refinement.
Context {V : Type}.
Implicit Types (c : LRU V) (e : Element V).

Lemma remove_id_notin id (l : list (Element V)) : id ∉ el_id <$> l → remove_id id l = l.
Proof.
  unfold remove_id. induction l as [|e l IH]; simpl; intros Hk; [done|].
  apply not_elem_of_cons in Hk as [? ?].
  rewrite filter_cons_True by congruence. by rewrite IH.
Qed.
Lemma remove_id_middle id k v (l1 l2 : list (Element V)) :
  NoDup (el_id <$> (l1 ++ Build_Element id k v :: l2)) →
  remove_id id (l1 ++ Build_Element id k v :: l2) = l1 ++ l2.
Proof.
  rewrite fmap_app, fmap_cons. intros (H1 & H2 & [H3 H4]%NoDup_cons)%NoDup_app.
  unfold remove_id. rewrite filter_app, filter_cons_False by (simpl; tauto).
  f_equal; apply remove_id_notin; [|done].
  intros Hin. apply (H2 _ Hin). by left.
Qed.
Lemma find_id_middle id k v (l1 l2 : list (Element V)) :
  id ∉ el_id <$> l1 →
  find_id id (l1 ++ Build_Element id k v :: l2) = Some (Build_Element id k v).
Proof.
  unfold find_id. intros Hn.
  induction l1 as [|e' l1 IH]; simpl in *.
  - by rewrite decide_True.
  - apply not_elem_of_cons in Hn as [? ?]. rewrite decide_False by congruence.
    specialize (IH H0). destruct (list_find _ (l1 ++ _ :: l2)) as [[i x]|]; done.
Qed.

(** A key of the index splits the list around its element. *)
Lemma wf_split c k id :
  wf c → items c !! k = Some id →
  ∃ v l1 l2, order c = l1 ++ Build_Element id k v :: l2
    ∧ (id ∉ (el_id <$> (l1 ++ l2))) ∧ (k ∉ (el_key <$> (l1 ++ l2))).
Proof.
  intros [Hids Hkeys _ Hit] Hk. apply Hit in Hk as [v Hin].
  apply list_elem_of_split in Hin as (l1 & l2 & Heq). exists v, l1, l2.
  rewrite Heq in Hids, Hkeys. rewrite !fmap_app, !fmap_cons in *. simpl in *.
  rewrite <-Permutation_middle in Hids, Hkeys.
  apply NoDup_cons in Hids as [? _], Hkeys as [? _]. done.
Qed.

Lemma entries_app (l1 l2 : list (Element V)) c :
  order c = l1 ++ l2 →
  entries c = ((λ e, (el_key e, el_val e)) <$> l1) ++ ((λ e, (el_key e, el_val e)) <$> l2).
Proof. intros H. unfold entries. by rewrite H, fmap_app. Qed.

Lemma entries_keys (l : list (Element V)) :
  ((λ e, (el_key e, el_val e)) <$> l).*1 = el_key <$> l.
Proof. by rewrite <-list_fmap_compose. Qed.

Lemma not_in_items c k : wf c → items c !! k = None → k ∉ el_key <$> order c.
Proof.
  intros [_ _ _ Hit] Hk (e & -> & Hin)%list_elem_of_fmap.
  assert (items c !! el_key e = Some (el_id e)) by (apply Hit; exists (el_val e); by destruct e).
  congruence.
Qed.

Lemma al_lookup_entries_None c k :
  wf c → items c !! k = None → al_lookup k (entries c) = None.
Proof.
  intros. apply al_lookup_None. unfold entries. rewrite entries_keys. by apply not_in_items.
Qed.

(** ** Refinement of each operation *)
Lemma Peek_spec c k : wf c → Peek k c = al_lookup k (entries c).
Proof.
  intros Hwf. unfold Peek. destruct (items c !! k) as [id|] eqn:Hk.
  2:{ symmetry. by apply al_lookup_entries_None. }
  destruct (wf_split c k id Hwf Hk) as (v & l1 & l2 & Ho & Hid & Hkey).
  rewrite fmap_app in Hid. rewrite fmap_app in Hkey. apply not_elem_of_app in Hid as [? ?], Hkey as [? ?].
  rewrite (entries_app l1 _ c Ho), Ho. simpl.
  rewrite find_id_middle by done. simpl. rewrite al_lookup_middle; [done|by rewrite entries_keys].
Qed.

Lemma MoveToBack_middle id k v (l1 l2 : list (Element V)) :
  NoDup (el_id <$> (l1 ++ Build_Element id k v :: l2)) →
  MoveToBack id (l1 ++ Build_Element id k v :: l2) = (l1 ++ l2) ++ [Build_Element id k v].
Proof.
  intros Hnd. unfold MoveToBack.
  rewrite find_id_middle, remove_id_middle; [done|done|].
  rewrite fmap_app, fmap_cons in Hnd. apply NoDup_app in Hnd as (_ & H & _).
  intros Hin. apply (H _ Hin). by left.
Qed.

Lemma set_val_middle id k (v w : V) (l1 l2 : list (Element V)) :
  id ∉ el_id <$> (l1 ++ l2) →
  set_val id w (l1 ++ Build_Element id k v :: l2) = l1 ++ Build_Element id k w :: l2.
Proof.
  intros Hn. unfold set_val. rewrite fmap_app, fmap_cons. simpl.
  rewrite bool_decide_eq_true_2 by done.
  assert (∀ l : list (Element V), id ∉ el_id <$> l → (λ e, if bool_decide (el_id e = id)
    then Build_Element (el_id e) (el_key e) w else e) <$> l = l) as Hl.
  { induction l as [|e l IH]; csimpl; [done|]. intros [? ?]%not_elem_of_cons.
    rewrite bool_decide_eq_false_2 by congruence. f_equal. by apply IH. }
  rewrite fmap_app in Hn. apply not_elem_of_app in Hn as [? ?].
  by rewrite !Hl.
Qed.

(** Well-formedness of a rebuilt cache, from its parts. *)
Lemma wf_promote c k id (v w : V) l1 l2 :
  wf c → order c = l1 ++ Build_Element id k v :: l2 →
  wf (mkLRU (cap c) (items c) ((l1 ++ l2) ++ [Build_Element id k w]) (next_id c)).
Proof.
  intros [Hids Hkeys Hal Hit] Ho. rewrite Ho in *.
  assert (∀ e, e ∈ (l1 ++ l2) ++ [Build_Element id k w] ↔
    e = Build_Element id k w ∨ e ∈ l1 ∨ e ∈ l2) as Hin by set_solver.
  constructor; simpl.
  - rewrite !fmap_app in *. simpl in *. by rewrite <-app_assoc, (Permutation_app_comm _ [id]).
  - rewrite !fmap_app in *. simpl in *. by rewrite <-app_assoc, (Permutation_app_comm _ [k]).
  - intros e [->|He]%Hin; [apply (Hal (Build_Element id k v)); set_solver|].
    apply Hal. set_solver.
  - intros k' id'. rewrite Hit. split; intros [x Hx].
    + apply elem_of_app in Hx as [Hx|Hx]; [exists x; apply Hin; tauto|].
      apply elem_of_cons in Hx as [Hx|Hx]; [simplify_eq; exists w; apply Hin; tauto|].
      exists x. apply Hin; tauto.
    + apply Hin in Hx as [Hx|[Hx|Hx]]; simplify_eq; [exists v|exists x|exists x]; set_solver.
Qed.

Lemma wf_remove c k id (v : V) l1 l2 :
  wf c → order c = l1 ++ Build_Element id k v :: l2 →
  wf (mkLRU (cap c) (delete k (items c)) (l1 ++ l2) (next_id c)).
Proof.
  intros [Hids Hkeys Hal Hit] Ho. rewrite Ho in *.
  rewrite !fmap_app, !fmap_cons in *. simpl in *.
  rewrite <-Permutation_middle in Hids. rewrite <-Permutation_middle in Hkeys.
  apply NoDup_cons in Hids as [Hid Hids]. apply NoDup_cons in Hkeys as [Hk Hkeys].
  constructor; simpl; [by rewrite fmap_app..| |].
  - intros e He. apply Hal. set_solver.
  - intros k' id'. rewrite lookup_delete_Some, Hit. split.
    + intros [Hne [x Hx]]. exists x. set_solver.
    + intros [x Hx]. split; [|exists x; set_solver]. intros ->. apply Hk.
      rewrite <-fmap_app. apply list_elem_of_fmap. by exists (Build_Element id' k' x).
Qed.

Lemma wf_push c k (v : V) :
  wf c → items c !! k = None →
  wf (mkLRU (cap c) (<[k := next_id c]> (items c))
        (order c ++ [Build_Element (next_id c) k v]) (S (next_id c))).
Proof.
  intros Hwf Hk. pose proof (not_in_items c k Hwf Hk) as Hnk.
  destruct Hwf as [Hids Hkeys Hal Hit]. constructor; simpl.
  - rewrite fmap_app. simpl. apply NoDup_app. split_and!; [done| |apply NoDup_singleton].
    intros x (e & -> & He%Hal)%list_elem_of_fmap. rewrite list_elem_of_singleton. lia.
  - rewrite fmap_app. simpl. apply NoDup_app. split_and!; [done| |apply NoDup_singleton].
    intros x Hx. rewrite list_elem_of_singleton. congruence.
  - intros e [He%Hal|He]%elem_of_app; [lia|].
    apply list_elem_of_singleton in He as ->. simpl. lia.
  - intros k' id'. rewrite lookup_insert_Some, Hit. split.
    + intros [[-> <-]|[? [x Hx]]]; [exists v|exists x]; set_solver.
    + intros [x [Hx|Hx]%elem_of_app].
      * right. split; [|by exists x]. intros ->. apply Hnk, list_elem_of_fmap. by exists (Build_Element id' k' x).
      * apply list_elem_of_singleton in Hx. simplify_eq. by left.
Qed.
End refinement.

Section operations.
Context {V : Type}.
Implicit Types (c : LRU V) (l : list (string * V)).

Lemma wf_New n : wf (NewLRU n : LRU V).
Proof.
  constructor; simpl; [by constructor..| |].
  - intros e He. by apply not_elem_of_nil in He.
  - intros k id. split; [done|]. intros [v Hv]. by apply not_elem_of_nil in Hv.
Qed.

Lemma Get_spec c k :
  wf c →
  (Get k c).1 = al_lookup k (entries c)
  ∧ entries (Get k c).2 = al_touch k (entries c)
  ∧ wf (Get k c).2 ∧ cap (Get k c).2 = cap c.
Proof.
  intros Hwf. unfold Get. destruct (items c !! k) as [id|] eqn:Hk.
  2:{ unfold al_touch. by rewrite (al_lookup_entries_None c k). }
  destruct (wf_split c k id Hwf Hk) as (v & l1 & l2 & Ho & Hid & Hkey).
  pose proof (wf_ids c Hwf) as Hnd. rewrite Ho in Hnd.
  rewrite Ho, MoveToBack_middle by done. simpl.
  rewrite find_id_middle by done. simpl. rewrite fmap_app in Hkey. apply not_elem_of_app in Hkey as [Hk1 Hk2].
  rewrite <-!entries_keys in Hk1, Hk2.
  unfold al_touch. rewrite (entries_app l1 _ c Ho). simpl.
  rewrite al_lookup_middle, al_remove_middle by done.
  split_and!; [done| |by eapply wf_promote|done].
  unfold entries. simpl. by rewrite !fmap_app.
Qed.

Lemma Delete_spec c k :
  wf c → entries (Delete k c) = al_remove k (entries c)
  ∧ wf (Delete k c) ∧ cap (Delete k c) = cap c.
Proof.
  intros Hwf. unfold Delete. destruct (items c !! k) as [id|] eqn:Hk.
  2:{ split_and!; [|done..]. rewrite al_remove_notin; [done|].
      by apply al_lookup_None, al_lookup_entries_None. }
  destruct (wf_split c k id Hwf Hk) as (v & l1 & l2 & Ho & Hid & Hkey).
  pose proof (wf_ids c Hwf) as Hnd. rewrite Ho in Hnd.
  rewrite Ho, remove_id_middle by done.
  rewrite fmap_app in Hkey. apply not_elem_of_app in Hkey as [Hk1 Hk2].
  rewrite <-!entries_keys in Hk1, Hk2.
  rewrite (entries_app l1 _ c Ho). simpl. rewrite al_remove_middle by done.
  split_and!; [|by eapply wf_remove|done].
  unfold entries. simpl. by rewrite fmap_app.
Qed.

Lemma length_entries c : length (entries c) = length (order c).
Proof. unfold entries. by rewrite length_fmap. Qed.

(** Dropping the oldest element is deleting its key. *)
Lemma evict_front c front rest :
  wf c → order c = front :: rest →
  let c' := mkLRU (cap c) (delete (el_key front) (items c))
              (remove_id (el_id front) (order c)) (next_id c) in
  wf c' ∧ order c' = rest ∧ items c' = delete (el_key front) (items c).
Proof.
  intros Hwf Ho. pose proof (wf_ids c Hwf) as Hnd. rewrite Ho in Hnd.
  destruct front as [id k v]. simpl. rewrite Ho.
  pose proof (remove_id_middle id k v [] rest Hnd) as Hr. simpl in Hr. rewrite Hr.
  split_and!; [|done..]. by apply (wf_remove c k id v []).
Qed.

Lemma Set_spec c k v :
  wf c → entries (Set_ k v c) = al_set (cap c) k v (entries c)
  ∧ wf (Set_ k v c) ∧ cap (Set_ k v c) = cap c.
Proof.
  intros Hwf. unfold Set_, al_set. destruct (items c !! k) as [id|] eqn:Hk.
  - destruct (wf_split c k id Hwf Hk) as (w & l1 & l2 & Ho & Hid & Hkey).
    pose proof (wf_ids c Hwf) as Hnd. rewrite Ho in Hnd.
    rewrite Ho, set_val_middle by done.
    replace (MoveToBack id (l1 ++ Build_Element id k v :: l2))
      with ((l1 ++ l2) ++ [Build_Element id k v]).
    2:{ symmetry. apply MoveToBack_middle.
        rewrite fmap_app, fmap_cons in *. done. }
    rewrite fmap_app in Hkey. apply not_elem_of_app in Hkey as [Hk1 Hk2].
    rewrite <-!entries_keys in Hk1, Hk2. rewrite (entries_app l1 _ c Ho). simpl.
    rewrite al_lookup_middle, al_remove_middle by done.
    split_and!; [|by eapply wf_promote|done]. unfold entries. simpl. by rewrite !fmap_app.
  - rewrite al_lookup_entries_None, length_entries by done.
    destruct (cap c <=? _)%Z; [destruct (order c) as [|front rest] eqn:Ho|].
    + split_and!; [unfold entries; simpl; by rewrite Ho| |done].
      rewrite <-Ho at 1. by apply (wf_push c).
    + rewrite <-Ho.
      destruct (evict_front c front rest Hwf Ho) as (Hwf' & Ho' & Hi').
      split_and!; [|apply (wf_push _ k v Hwf'); simpl; by rewrite lookup_delete_None; right|done].
      unfold entries. simpl in Ho'. simpl. by rewrite Ho', fmap_app, Ho.
    + split_and!; [unfold entries; simpl; by rewrite fmap_app|by apply (wf_push c)|done].
Qed.

Lemma wf_items_size c : wf c → size (items c) = length (order c).
Proof.
  intros Hwf. rewrite <-size_dom.
  rewrite <-(length_fmap el_key (order c)).
  rewrite <-(size_list_to_set (C := gset string)) by apply (wf_keys c Hwf).
  f_equal. apply set_eq. intros k.
  rewrite elem_of_dom, elem_of_list_to_set, list_elem_of_fmap. split.
  - intros [id Hk]. apply (wf_items c Hwf) in Hk as [v Hv]. by exists (Build_Element id k v).
  - intros ([id k' v] & -> & He). exists id. apply (wf_items c Hwf). by exists v.
Qed.

Lemma Len_spec c : wf c → Len c = Z.of_nat (length (entries c)).
Proof. intros Hwf. unfold Len. by rewrite wf_items_size, length_entries. Qed.

(** Deleting a list of keys, in any order. *)
Lemma fold_Delete_spec ks c :
  wf c → let c' := fold_left (λ c k, Delete k c) ks c in
  entries c' = filter (λ p, p.1 ∉ ks) (entries c) ∧ wf c' ∧ cap c' = cap c.
Proof.
  revert c. induction ks as [|k ks IH]; intros c Hwf; simpl.
  - split_and!; [|done..]. symmetry. apply list_filter_all. intros p _. apply not_elem_of_nil.
  - destruct (Delete_spec c k Hwf) as (He & Hwf' & Hc).
    destruct (IH _ Hwf') as (He' & ? & Hc'). split_and!; [|done|congruence].
    rewrite He', He. unfold al_remove. rewrite list_filter_filter.
    apply list_filter_iff. intros [x y]. rewrite not_elem_of_cons. tauto.
Qed.
End operations.

Section bulk.
Context {V : Type} `{MapRangeOk}.
Implicit Types (c : LRU V) (pred : string → V → bool).

Lemma NoDup_entries c : wf c → NoDup (entries c).*1.
Proof. intros Hwf. unfold entries. rewrite entries_keys. apply (wf_keys c Hwf). Qed.

Lemma entries_unique c k v w :
  wf c → (k, v) ∈ entries c → (k, w) ∈ entries c → v = w.
Proof.
  intros Hwf Hv Hw. pose proof (NoDup_entries c Hwf) as Hnd.
  revert Hnd Hv Hw. generalize (entries c). intros l.
  induction l as [|[a x] l IH]; simpl; intros Hnd Hv Hw; [by apply not_elem_of_nil in Hv|].
  apply NoDup_cons in Hnd as [Hn Hnd].
  apply elem_of_cons in Hv as [Hv|Hv], Hw as [Hw|Hw]; simplify_eq; auto.
  - destruct Hn. apply list_elem_of_fmap. by exists (a, w).
  - destruct Hn. apply list_elem_of_fmap. by exists (a, v).
Qed.

(** The element the index gives for a key carries that key's value. *)
Lemma find_items c k id v :
  wf c → items c !! k = Some id →
  (∃ e, find_id id (order c) = Some e ∧ el_val e = v) ↔ (k, v) ∈ entries c.
Proof.
  intros Hwf Hk.
  destruct (wf_split c k id Hwf Hk) as (w & l1 & l2 & Ho & Hid & Hkey).
  rewrite fmap_app in Hid. apply not_elem_of_app in Hid as [? _].
  rewrite Ho, find_id_middle by done. split.
  - intros (e & ? & ?). simplify_eq. unfold entries. rewrite Ho.
    apply list_elem_of_fmap. eexists. split; [|apply elem_of_app; right; by left]. done.
  - intros Hv. eexists. split; [done|]. simpl.
    eapply (entries_unique c k); [done| |done]. unfold entries. rewrite Ho.
    apply list_elem_of_fmap. eexists. split; [|apply elem_of_app; right; by left]. done.
Qed.

Lemma entries_items c k v :
  wf c → (k, v) ∈ entries c → ∃ id, items c !! k = Some id.
Proof.
  intros Hwf (e & ? & He)%list_elem_of_fmap. simplify_eq. exists (el_id e).
  apply (wf_items c Hwf). exists (el_val e). by destruct e.
Qed.

Lemma DeleteWhere_spec pred c :
  wf c → entries (DeleteWhere pred c) = filter (λ p, pred p.1 p.2 = false) (entries c)
  ∧ wf (DeleteWhere pred c) ∧ cap (DeleteWhere pred c) = cap c.
Proof.
  intros Hwf. unfold DeleteWhere.
  set (ks := omap _ _). destruct (fold_Delete_spec ks c Hwf) as (He & ? & ?).
  split_and!; [|done..]. rewrite He. apply list_filter_ext_in. intros [k v] Hkv. simpl.
  assert (k ∈ ks ↔ pred k v = true) as Hks.
  2:{ rewrite Hks. by destruct (pred k v). }
  unfold ks. rewrite list_elem_of_omap. split.
  - intros ([k' id] & Hid%elem_of_map_range & Hm).
    destruct (find_id id (order c)) as [e|] eqn:Hf; [|done].
    destruct (pred k' (el_val e)) eqn:Hp; simplify_eq.
    assert ((k, el_val e) ∈ entries c) by (eapply find_items; eauto).
    by rewrite (entries_unique c k v (el_val e)).
  - intros Hp. destruct (entries_items c k v Hwf Hkv) as [id Hid].
    exists (k, id). split; [by apply elem_of_map_range|].
    apply (find_items c k id v Hwf Hid) in Hkv as (e & -> & ->). by rewrite Hp.
Qed.

(** [Range] with a callback that deletes the entries it selects. *)
Lemma Range_delete_spec (p : string → bool) c :
  wf c →
  let c' := Range (λ k _ c, if p k then Delete k c else c) c in
  entries c' = filter (λ q, p q.1 = false) (entries c) ∧ wf c' ∧ cap c' = cap c.
Proof.
  intros Hwf. unfold Range.
  assert (∀ (l : list (Element V)) c0,
    fold_left (λ c e, if p (el_key e) then Delete (el_key e) c else c) l c0
    = fold_left (λ c k, Delete k c) (filter (λ k, p k = true) (el_key <$> l)) c0) as Hl.
  { induction l as [|e l IH]; intros c0; [done|]. csimpl.
    rewrite filter_cons. destruct (p (el_key e)) eqn:Hp.
    - rewrite decide_True by done. apply IH.
    - rewrite decide_False by congruence. apply IH. }
  rewrite Hl. destruct (fold_Delete_spec (filter (λ k, p k = true) (el_key <$> order c)) c Hwf)
    as (He & ? & ?).
  split_and!; [|done..]. rewrite He. apply list_filter_ext_in. intros [k v] Hkv. simpl.
  rewrite list_elem_of_filter. destruct (p k) eqn:Hp; [|naive_solver].
  split; [|done]. intros Hn. destruct Hn. split; [done|].
  rewrite <-entries_keys. apply list_elem_of_fmap. by exists (k, v).
Qed.
End bulk.

(** ** The cache as a machine *)
Inductive lru_op (V : Type) :=
| OpGet (k : string)
| OpSet (k : string) (v : V)
| OpDelete (k : string)
| OpDeleteWhere (pred : string → V → bool).
Arguments OpGet {V} k.
Arguments OpSet {V} k v.
Arguments OpDelete {V} k.
Arguments OpDeleteWhere {V} pred.

Section machine.
Context {V : Type} `{MapRangeOk}.

Definition lru_step (op : lru_op V) (c : LRU V) : LRU V :=
  match op with
  | OpGet k => (Get k c).2
  | OpSet k v => Set_ k v c
  | OpDelete k => Delete k c
  | OpDeleteWhere pred => DeleteWhere pred c
  end.

(** The same operation on the abstract view. *)
Definition al_step (cap : Z) (op : lru_op V) (l : list (string * V)) : list (string * V) :=
  match op with
  | OpGet k => al_touch k l
  | OpSet k v => al_set cap k v l
  | OpDelete k => al_remove k l
  | OpDeleteWhere pred => filter (λ p, pred p.1 p.2 = false) l
  end.

Lemma lru_step_refines op c :
  wf c → entries (lru_step op c) = al_step (cap c) op (entries c)
  ∧ wf (lru_step op c) ∧ cap (lru_step op c) = cap c.
Proof.
  intros Hwf. destruct op; simpl.
  - destruct (Get_spec c k Hwf) as (_ & ? & ? & ?). done.
  - by apply Set_spec.
  - by apply Delete_spec.
  - by apply DeleteWhere_spec.
Qed.

Lemma lru_run_refines ops c :
  wf c → let c' := foldl (λ c op, lru_step op c) c ops in
  entries c' = foldl (λ l op, al_step (cap c) op l) (entries c) ops ∧ wf c' ∧ cap c' = cap c.
Proof.
  revert c. induction ops as [|op ops IH]; intros c Hwf; simpl; [done|].
  destruct (lru_step_refines op c Hwf) as (He & Hw & Hc).
  destruct (IH _ Hw) as (He' & ? & Hc'). rewrite He', Hc, He. split_and!; [done..|congruence].
Qed.

Lemma al_touch_length k (l : list (string * V)) :
  NoDup l.*1 → length (al_touch k l) = length l.
Proof.
  intros Hnd. unfold al_touch. destruct (al_lookup k l) as [v|] eqn:Hl; [|done].
  apply al_lookup_elem, list_elem_of_split in Hl as (l1 & l2 & ->).
  rewrite fmap_app, fmap_cons in Hnd. rewrite <-Permutation_middle in Hnd.
  apply NoDup_cons in Hnd as [[? ?]%not_elem_of_app _].
  rewrite al_remove_middle by done. rewrite !length_app. simpl. lia.
Qed.

Lemma al_step_bound n op (l : list (string * V)) :
  NoDup l.*1 → (0 < n)%Z → (Z.of_nat (length l) ≤ n)%Z →
  (Z.of_nat (length (al_step n op l)) ≤ n)%Z.
Proof.
  intros Hnd Hn Hl. destruct op; simpl.
  - by rewrite al_touch_length.
  - unfold al_set. destruct (al_lookup k l) as [w|] eqn:Hk.
    + pose proof (al_touch_length k l Hnd) as Ht.
      unfold al_touch in Ht. rewrite Hk, length_app in Ht. rewrite length_app. simpl in *. lia.
    + destruct (n <=? _)%Z eqn:E; bool_prop; rewrite length_app, ?length_drop; simpl; lia.
  - unfold al_remove. pose proof (length_filter (λ p : string * V, p.1 ≠ k) l). lia.
  - pose proof (length_filter (λ p : string * V, pred p.1 p.2 = false) l). lia.
Qed.
End machine.

(** Starting from [NewLRU n] with a positive capacity, after any sequence
    of gets, sets, deletes and bulk deletes, whatever order the index is
    ranged in: the linked list and the hash index agree, the entries are those
    of the reference association list (oldest first, a new key evicting
    exactly the oldest entry when [n] are present), lookups answer from it,
    and never more than [n] entries are held. *)
Theorem lru_refines_reference {V} `{MapRangeOk} (n : Z) (ops : list (lru_op V)) :
  (0 < n)%Z →
  let c := foldl (λ c op, lru_step op c) (NewLRU n) ops in
  entries c = foldl (λ l op, al_step n op l) [] ops
  ∧ wf c
  ∧ (Len c ≤ n)%Z
  ∧ ∀ k, Peek k c = al_lookup k (entries c).
Proof.
  intros Hn. simpl.
  destruct (lru_run_refines ops (NewLRU n : LRU V) (wf_New n)) as (He & Hwf & Hc).
  split_and!; [done|done| |intros k; by apply Peek_spec].
  rewrite Len_spec by done. clear He Hwf Hc.
  induction ops as [|op ops IH] using rev_ind; [simpl; lia|].
  rewrite foldl_app. cbn [foldl].
  destruct (lru_run_refines ops (NewLRU n : LRU V) (wf_New n)) as (_ & Hwf & Hc).
  destruct (lru_step_refines op _ Hwf) as (-> & _ & _). rewrite Hc.
  apply al_step_bound; [by apply NoDup_entries|done|done].
Qed.

Lemma lru_refines_reference_witness :
  entries (foldl (λ c op, @lru_step nat map_to_list_range op c) (NewLRU 2)
    [OpSet "a" 1; OpSet "b" 2; OpGet "a"; OpSet "c" 3]) = [("a", 1); ("c", 3)].
Proof.
  destruct (@lru_refines_reference nat map_to_list_range map_to_list_range_ok 2
    [OpSet "a" 1; OpSet "b" 2; OpGet "a"; OpSet "c" 3] ltac:(lia)) as [H _].
  rewrite H. reflexivity.
Defined.
