(* ===== verification/Cache.v ===== *)
(** * Config cache and idempotency cache ([internal/cache])

    The two interfaces of [cache.go] as classes of operations, with the laws
    the config service relies on, and the in-memory implementations of
    [memory.go]. Time is explicit: every operation that reads the clock takes
    [now], in nanoseconds. The mutexes make each operation one step. *)
From S2P Require Import Prelude GoText Lru.
From Stdlib Require Import Ascii.

(** ** Interfaces *)
Class ConfigCache (C E : Type) := {
  cc_Get (now : Z) (tenantID : string) (version : Z) (c : C) :
    result E (option (gmap string string));
  cc_Set (now : Z) (tenantID : string) (version : Z) (values : gmap string string)
    (ttl : Z) (c : C) : result E unit * C;
  cc_Invalidate (tenantID : string) (c : C) : result E unit * C;
  cc_SetNegative (now : Z) (tenantID : string) (version : Z) (ttl : Z) (c : C) :
    result E unit * C;
  cc_GetNegative (now : Z) (tenantID : string) (version : Z) (c : C) : result E bool
}.

(** What a reader may conclude from a hit: entries come only from [Set] for
    that very tenant and version, [Invalidate] makes none, and none of the
    tenant survives one that does not fail. *)
Class ConfigCacheOk (C E : Type) `{ConfigCache C E} := {
  cc_inv : C → Prop;
  cc_Set_inv now t v m ttl c : cc_inv c → cc_inv (cc_Set now t v m ttl c).2;
  cc_Invalidate_inv t c : cc_inv c → cc_inv (cc_Invalidate t c).2;
  cc_SetNegative_inv now t v ttl c : cc_inv c → cc_inv (cc_SetNegative now t v ttl c).2;
  cc_Set_hit now t v m ttl c now' t' v' m' :
    cc_inv c →
    cc_Get now' t' v' (cc_Set now t v m ttl c).2 = Ok (Some m') →
    (t' = t ∧ v' = v ∧ m' = m) ∨ cc_Get now' t' v' c = Ok (Some m');
  cc_Set_neg now t v m ttl c now' t' v' :
    cc_inv c →
    cc_GetNegative now' t' v' (cc_Set now t v m ttl c).2 = cc_GetNegative now' t' v' c;
  cc_Invalidate_hit t c now' t' v' m' :
    cc_inv c →
    cc_Get now' t' v' (cc_Invalidate t c).2 = Ok (Some m') →
    cc_Get now' t' v' c = Ok (Some m') ∧ ((cc_Invalidate t c).1 = Ok tt → t' ≠ t);
  cc_Invalidate_neg t c now' t' v' :
    cc_inv c →
    cc_GetNegative now' t' v' (cc_Invalidate t c).2 = Ok true →
    cc_GetNegative now' t' v' c = Ok true ∧ ((cc_Invalidate t c).1 = Ok tt → t' ≠ t);
  cc_SetNegative_hit now t v ttl c now' t' v' :
    cc_inv c →
    cc_Get now' t' v' (cc_SetNegative now t v ttl c).2 = cc_Get now' t' v' c;
  cc_SetNegative_neg now t v ttl c now' t' v' :
    cc_inv c →
    cc_GetNegative now' t' v' (cc_SetNegative now t v ttl c).2 = Ok true →
    (t' = t ∧ v' = v) ∨ cc_GetNegative now' t' v' c = Ok true
}.

Class IdempotencyCache (I E : Type) := {
  (** [true] when the caller is the first to claim the key. *)
  ic_Claim (now : Z) (key : string) (ttl : Z) (c : I) : result E bool * I
}.

(** ** MemoryCache *)
Module MemoryCache.

Definition defaultMaxEntries : Z := 10000.

Record memoryCacheEntry := { values : gmap string string; expiresAt : Z }.

Record MemoryCache := mkCache {
  lru : LRU memoryCacheEntry;
  negEntries : LRU Z;             (* key → expiry *)
  maxEntries : Z
}.

Definition NewMemoryCache (maxEntries : Z) : MemoryCache :=
  let maxEntries := if (maxEntries <=? 0)%Z then defaultMaxEntries else maxEntries in
  mkCache (NewLRU maxEntries) (NewLRU maxEntries) maxEntries.

Definition key (tenantID : string) (version : Z) : string :=
  tenantID +:+ ":v" +:+ itoa version.

Definition Get (now : Z) (tenantID : string) (version : Z) (c : MemoryCache) :
    option (gmap string string) :=
  match Peek (key tenantID version) (lru c) with
  | Some entry => if (expiresAt entry <? now)%Z then None else Some (values entry)
  | None => None
  end.

Section Ops.
Context `{MapRange}.

(** [evictExpired] on the value entries. *)
Definition evictExpired (now : Z) (c : MemoryCache) : MemoryCache :=
  mkCache (DeleteWhere (λ _ e, (expiresAt e <? now)%Z) (lru c)) (negEntries c) (maxEntries c).

Definition Set_ (now : Z) (tenantID : string) (version : Z) (vals : gmap string string)
    (ttl : Z) (c : MemoryCache) : MemoryCache :=
  let k := key tenantID version in
  let c :=
    match Peek k (lru c) with
    | None => if (maxEntries c <=? Len (lru c))%Z then evictExpired now c else c
    | Some _ => c
    end in
  mkCache (Lru.Set_ k {| values := vals; expiresAt := now + ttl |} (lru c))
    (negEntries c) (maxEntries c).

Definition sweep (now : Z) (c : MemoryCache) : MemoryCache :=
  let c := evictExpired now c in
  mkCache (lru c) (DeleteWhere (λ _ exp, (exp <? now)%Z) (negEntries c)) (maxEntries c).
End Ops.

Definition Invalidate (tenantID : string) (c : MemoryCache) : MemoryCache :=
  let prefix := tenantID +:+ ":" in
  mkCache
    (Range (λ k _ l, if HasPrefix k prefix then Delete k l else l) (lru c))
    (Range (λ k _ l, if HasPrefix k prefix then Delete k l else l) (negEntries c))
    (maxEntries c).

Definition SetNegative (now : Z) (tenantID : string) (version ttl : Z) (c : MemoryCache) :
    MemoryCache :=
  mkCache (lru c) (Lru.Set_ (key tenantID version) (now + ttl)%Z (negEntries c)) (maxEntries c).

Definition GetNegative (now : Z) (tenantID : string) (version : Z) (c : MemoryCache) : bool :=
  match Peek (key tenantID version) (negEntries c) with
  | Some exp => negb (exp <? now)%Z
  | None => false
  end.

(** The operations behind the interface: none of them fails. *)
Global Instance memory_config_cache `{MapRange} {E} : ConfigCache MemoryCache E := {|
  cc_Get now t v c := Ok (Get now t v c);
  cc_Set now t v m ttl c := (Ok tt, Set_ now t v m ttl c);
  cc_Invalidate t c := (Ok tt, Invalidate t c);
  cc_SetNegative now t v ttl c := (Ok tt, SetNegative now t v ttl c);
  cc_GetNegative now t v c := Ok (GetNegative now t v c)
|}.
End MemoryCache.

(** ** MemoryIdempotencyCache *)
Module MemoryIdempotencyCache.

Record MemoryIdempotencyCache := mkIdem { lru : LRU Z; maxEntries : Z }.

Definition NewMemoryIdempotencyCache (maxEntries : Z) : MemoryIdempotencyCache :=
  let maxEntries := if (maxEntries <=? 0)%Z then MemoryCache.defaultMaxEntries else maxEntries in
  mkIdem (NewLRU maxEntries) maxEntries.

Definition Claim (now : Z) (k : string) (ttl : Z) (c : MemoryIdempotencyCache) :
    bool * MemoryIdempotencyCache :=
  match Peek k (lru c) with
  | Some exp =>
      if (now <? exp)%Z then (false, c)
      else (true, mkIdem (Lru.Set_ k (now + ttl)%Z (lru c)) (maxEntries c))
  | None => (true, mkIdem (Lru.Set_ k (now + ttl)%Z (lru c)) (maxEntries c))
  end.

Definition sweepExpired `{MapRange} (now : Z) (c : MemoryIdempotencyCache) :
    MemoryIdempotencyCache :=
  mkIdem (DeleteWhere (λ _ exp, (exp <? now)%Z) (lru c)) (maxEntries c).

Global Instance memory_idempotency_cache {E} : IdempotencyCache MemoryIdempotencyCache E := {|
  ic_Claim now k ttl c := let '(b, c) := Claim now k ttl c in (Ok b, c)
|}.
End MemoryIdempotencyCache.

(** ** Properties of MemoryCache *)
Module MemoryCacheFacts.
Import MemoryCache.

Lemma key_inj t1 v1 t2 v2 : key t1 v1 = key t2 v2 → t1 = t2 ∧ v1 = v2.
Proof.
  unfold key. intros E.
  assert (∀ s, ":v" +:+ s = String ":"%char ("v" +:+ s)) as Hs by done.
  rewrite !Hs in E. apply last_sep_inj in E as [-> E].
  - split; [done|]. apply (inj (String.append "v")) in E. by apply itoa_inj.
  - change ("v" +:+ itoa v1) with (String "v"%char (itoa v1)).
    apply andb_true_iff. split; [done|by apply no_char_itoa].
  - change ("v" +:+ itoa v2) with (String "v"%char (itoa v2)).
    apply andb_true_iff. split; [done|by apply no_char_itoa].
Qed.

Lemma key_prefix t v : HasPrefix (key t v) (t +:+ ":") = true.
Proof.
  unfold key. change (":v" +:+ itoa v) with (":" +:+ ("v" +:+ itoa v)).
  rewrite <-str_app_assoc. apply HasPrefix_app.
Qed.

Definition inv (c : MemoryCache) : Prop := wf (lru c) ∧ wf (negEntries c).

(** What a lookup answers, in terms of the entries. *)
Lemma Get_entry now t v m c :
  inv c → Get now t v c = Some m ↔
  ∃ exp, al_lookup (key t v) (entries (lru c)) = Some {| values := m; expiresAt := exp |}
    ∧ (now ≤ exp)%Z.
Proof.
  intros [Hwf _]. unfold Get. rewrite Peek_spec by done.
  destruct (al_lookup _ _) as [[m' exp]|]; simpl; [|naive_solver].
  destruct (exp <? now)%Z eqn:E; bool_prop; split.
  - done.
  - intros (? & ? & ?). simplify_eq. lia.
  - intros. simplify_eq. eauto.
  - intros (? & ? & ?). by simplify_eq.
Qed.

Lemma GetNegative_entry now t v c :
  inv c → GetNegative now t v c = true ↔
  ∃ exp, al_lookup (key t v) (entries (negEntries c)) = Some exp ∧ (now ≤ exp)%Z.
Proof.
  intros [_ Hwf]. unfold GetNegative. rewrite Peek_spec by done.
  destruct (al_lookup _ _) as [exp|]; [|naive_solver].
  destruct (exp <? now)%Z eqn:E; bool_prop; simpl; split; try done.
  - intros (? & ? & ?). simplify_eq. lia.
  - eauto.
Qed.

Section laws.
Context `{MapRangeOk}.

Lemma evictExpired_spec now c :
  inv c → inv (evictExpired now c)
  ∧ entries (lru (evictExpired now c))
    = filter (λ p, (expiresAt p.2 <? now)%Z = false) (entries (lru c))
  ∧ cap (lru (evictExpired now c)) = cap (lru c).
Proof.
  intros [H1 H2].
  destruct (DeleteWhere_spec (λ _ e, (expiresAt e <? now)%Z) (lru c) H1) as (? & ? & ?).
  split_and!; [split|..]; done.
Qed.

(** The value entries after [Set], when its first half has run. *)
Lemma Set_entries now t v m ttl c :
  inv c → inv (Set_ now t v m ttl c) ∧
  ∃ l, entries (lru (Set_ now t v m ttl c))
       = al_set (cap (lru c)) (key t v) {| values := m; expiresAt := now + ttl |} l
    ∧ NoDup l.*1 ∧ sublist l (entries (lru c)).
Proof.
  intros Hc. unfold Set_.
  set (c0 := match Peek _ _ with Some _ => c | None => _ end).
  assert (inv c0 ∧ sublist (entries (lru c0)) (entries (lru c)) ∧ cap (lru c0) = cap (lru c))
    as (Hc0 & Hsub & Hcap).
  { unfold c0. destruct (Peek _ _); [done|]. destruct (_ <=? _)%Z; [|done].
    destruct (evictExpired_spec now c Hc) as (? & He & ?). split_and!; [done| |done].
    rewrite He. apply sublist_filter. }
  clearbody c0. destruct Hc0 as [Hw Hn].
  destruct (Set_spec (lru c0) (key t v) {| values := m; expiresAt := now + ttl |} Hw)
    as (He & Hw' & _).
  split; [done|]. exists (entries (lru c0)). rewrite <-Hcap. simpl.
  split_and!; [done|by apply NoDup_entries|done].
Qed.

Lemma al_lookup_sublist {V} k v (l1 l2 : list (string * V)) :
  NoDup l2.*1 → sublist l1 l2 → al_lookup k l1 = Some v → al_lookup k l2 = Some v.
Proof.
  intros Hnd Hs Hl. apply al_lookup_iff; [done|].
  apply al_lookup_elem in Hl. by eapply elem_of_sublist.
Qed.

Lemma Invalidate_spec t c :
  inv c → inv (Invalidate t c)
  ∧ entries (lru (Invalidate t c))
    = filter (λ q, HasPrefix q.1 (t +:+ ":") = false) (entries (lru c))
  ∧ entries (negEntries (Invalidate t c))
    = filter (λ q, HasPrefix q.1 (t +:+ ":") = false) (entries (negEntries c)).
Proof.
  intros [H1 H2].
  destruct (Range_delete_spec (λ k, HasPrefix k (t +:+ ":")) (lru c) H1) as (? & ? & ?).
  destruct (Range_delete_spec (λ k, HasPrefix k (t +:+ ":")) (negEntries c) H2) as (? & ? & ?).
  split_and!; [split|..]; done.
Qed.

Lemma SetNegative_spec now t v ttl c :
  inv c → inv (SetNegative now t v ttl c)
  ∧ entries (negEntries (SetNegative now t v ttl c))
    = al_set (cap (negEntries c)) (key t v) (now + ttl)%Z (entries (negEntries c)).
Proof.
  intros [H1 H2].
  destruct (Set_spec (negEntries c) (key t v) (now + ttl)%Z H2) as (? & ? & ?).
  split_and!; [split|..]; done.
Qed.

(** The in-memory cache meets the contract the service relies on. *)
Global Instance memory_cache_ok {E} : ConfigCacheOk MemoryCache E.
Proof.
  refine {| cc_inv := inv |}.
  - intros. by apply Set_entries.
  - intros. by apply Invalidate_spec.
  - intros. by apply SetNegative_spec.
  - intros now t v m ttl c now' t' v' m' Hc Hg. simpl in Hg. injection Hg as Hg.
    destruct (Set_entries now t v m ttl c Hc) as (Hc' & l & He & Hnd & Hsub).
    apply Get_entry in Hg as (exp & Hl & Hexp); [|done]. rewrite He in Hl.
    destruct (decide (key t' v' = key t v)) as [Hk|Hk].
    + rewrite Hk, al_lookup_set_eq in Hl by done. apply key_inj in Hk as [-> ->].
      simplify_eq. by left.
    + right. simpl. f_equal. apply Get_entry; [done|]. exists exp. split; [|done].
      eapply al_lookup_sublist; [by apply NoDup_entries, Hc|done|].
      eapply al_lookup_set_ne; done.
  - intros. simpl. unfold Set_, GetNegative. destruct (Peek _ (lru c)); [done|].
    by destruct (_ <=? _)%Z.
  - intros t c now' t' v' m' Hc Hg. simpl in Hg. injection Hg as Hg.
    destruct (Invalidate_spec t c Hc) as (Hc' & He & _).
    apply Get_entry in Hg as (exp & Hl & Hexp); [|done]. rewrite He in Hl.
    apply al_lookup_filter_Some in Hl as [Hp Hl]; [|by apply NoDup_entries, Hc]. split.
    + simpl. f_equal. apply Get_entry; eauto.
    + intros _ ->. simpl in Hp. by rewrite key_prefix in Hp.
  - intros t c now' t' v' Hc Hg. simpl in Hg. injection Hg as Hg.
    destruct (Invalidate_spec t c Hc) as (Hc' & _ & He).
    apply GetNegative_entry in Hg as (exp & Hl & Hexp); [|done]. rewrite He in Hl.
    apply al_lookup_filter_Some in Hl as [Hp Hl]; [|by apply NoDup_entries, Hc]. split.
    + simpl. f_equal. apply GetNegative_entry; eauto.
    + intros _ ->. simpl in Hp. by rewrite key_prefix in Hp.
  - done.
  - intros now t v ttl c now' t' v' Hc Hg. simpl in Hg. injection Hg as Hg.
    destruct (SetNegative_spec now t v ttl c Hc) as (Hc' & He).
    apply GetNegative_entry in Hg as (exp & Hl & Hexp); [|done]. rewrite He in Hl.
    destruct (decide (key t' v' = key t v)) as [Hk|Hk].
    + apply key_inj in Hk as [-> ->]. by left.
    + right. simpl. f_equal. apply GetNegative_entry; [done|]. exists exp. split; [|done].
      eapply al_lookup_set_ne; [by apply NoDup_entries, Hc|done..].
Defined.

Lemma New_inv n : inv (NewMemoryCache n).
Proof. split; apply wf_New. Qed.
End laws.

(** *** Histories of the cache *)
Inductive cache_op :=
| CSet (now : Z) (t : string) (v : Z) (m : gmap string string) (ttl : Z)
| CInvalidate (t : string)
| CSetNegative (now : Z) (t : string) (v ttl : Z)
| CSweep (now : Z).

Definition cache_step `{MapRange} (op : cache_op) (c : MemoryCache) : MemoryCache :=
  match op with
  | CSet now t v m ttl => Set_ now t v m ttl c
  | CInvalidate t => Invalidate t c
  | CSetNegative now t v ttl => SetNegative now t v ttl c
  | CSweep now => sweep now c
  end.

(** The operations that replace or drop the entry of a tenant's version. *)
Definition overrides (t : string) (v : Z) (op : cache_op) : Prop :=
  match op with
  | CSet _ t' v' _ _ => t' = t ∧ v' = v
  | CInvalidate t' => t' = t
  | _ => False
  end.

Section history.
Context `{MapRangeOk}.

Definition run (n : Z) (ops : list cache_op) : MemoryCache :=
  foldl (λ c op, cache_step op c) (NewMemoryCache n) ops.

Lemma sweep_inv now c : inv c → inv (sweep now c).
Proof.
  intros Hc. destruct (evictExpired_spec now c Hc) as ([? ?] & _ & _). split; [done|].
  by apply DeleteWhere_spec.
Qed.

Lemma step_inv op c : inv c → inv (cache_step op c).
Proof.
  intros Hc. destruct op; simpl.
  - by apply Set_entries.
  - by apply Invalidate_spec.
  - by apply SetNegative_spec.
  - by apply sweep_inv.
Qed.

Lemma run_inv n ops : inv (run n ops).
Proof.
  unfold run. generalize (New_inv n). generalize (NewMemoryCache n).
  induction ops as [|op ops IH]; intros c Hc; [done|]. apply IH, step_inv, Hc.
Qed.

(** Where an entry after a step comes from. *)
Lemma step_entry op c t v e :
  inv c → al_lookup (key t v) (entries (lru (cache_step op c))) = Some e →
  (∃ now ttl, op = CSet now t v (values e) ttl ∧ expiresAt e = (now + ttl)%Z)
  ∨ (al_lookup (key t v) (entries (lru c)) = Some e ∧ ¬ overrides t v op).
Proof.
  intros Hc. assert (NoDup (entries (lru c)).*1) as Hnd by apply NoDup_entries, Hc.
  destruct op as [now t' v' m ttl|t'|now t' v' ttl|now]; cbn [cache_step]; intros Hl.
  - destruct (Set_entries now t' v' m ttl c Hc) as (_ & l & He & Hl' & Hsub).
    rewrite He in Hl. destruct (decide (key t v = key t' v')) as [Hk|Hk].
    + rewrite Hk, al_lookup_set_eq in Hl by done. apply key_inj in Hk as [-> ->].
      simplify_eq/=. left. eauto.
    + right. split; [|intros [-> ->]; done].
      eapply al_lookup_sublist; [done..|]. by eapply al_lookup_set_ne.
  - destruct (Invalidate_spec t' c Hc) as (_ & He & _). rewrite He in Hl.
    apply al_lookup_filter_Some in Hl as [Hp Hl]; [|done]. right. split; [done|].
    intros <-. simpl in Hp. by rewrite key_prefix in Hp.
  - right. split; [exact Hl|intros []].
  - destruct (evictExpired_spec now c Hc) as (_ & He & _).
    change (lru (sweep now c)) with (lru (evictExpired now c)) in Hl. rewrite He in Hl.
    apply al_lookup_filter_Some in Hl as [_ Hl]; [|done]. right. split; [exact Hl|intros []].
Qed.

Lemma run_entry n ops t v e :
  al_lookup (key t v) (entries (lru (run n ops))) = Some e →
  ∃ ops1 now ttl ops2,
    ops = ops1 ++ CSet now t v (values e) ttl :: ops2 ∧ expiresAt e = (now + ttl)%Z
    ∧ Forall (λ op, ¬ overrides t v op) ops2.
Proof.
  induction ops as [|op ops IH] using rev_ind; [done|].
  unfold run. rewrite foldl_app. cbn [foldl]. intros Hl.
  apply step_entry in Hl as [(now & ttl & -> & He)|[Hl Ho]]; [| |apply run_inv].
  - exists ops, now, ttl, []. by rewrite Forall_nil.
  - destruct (IH Hl) as (o1 & now & ttl & o2 & -> & He & Hf).
    exists o1, now, ttl, (o2 ++ [op]). rewrite <-app_assoc. split_and!; [done..|].
    apply Forall_app. by rewrite Forall_singleton.
Qed.

(** Set never loses the value it has just stored. *)
Lemma Get_after_Set now t v m ttl c now' :
  inv c → (now' ≤ now + ttl)%Z → Get now' t v (Set_ now t v m ttl c) = Some m.
Proof.
  intros Hc Hle. destruct (Set_entries now t v m ttl c Hc) as (Hc' & l & He & Hnd & _).
  apply Get_entry; [done|]. exists (now + ttl)%Z. split; [|done].
  rewrite He. by apply al_lookup_set_eq.
Qed.

(** In any history of the in-memory config cache a hit is never stale or
    foreign: what [Get] answers is what the last [Set] for exactly that
    tenant and version stored, that [Set] has not expired, and no
    [Invalidate] of the tenant has come since. Directly after a [Set] the
    value is there until it expires, however full the cache was. *)
Theorem cache_hit_is_last_set (n : Z) (ops : list cache_op) (now : Z) (t : string) (v : Z) :
  (∀ m, Get now t v (run n ops) = Some m →
    ∃ ops1 at_ ttl ops2,
      ops = ops1 ++ CSet at_ t v m ttl :: ops2 ∧ (now ≤ at_ + ttl)%Z
      ∧ Forall (λ op, ¬ overrides t v op) ops2)
  ∧ (∀ at_ m ttl, (now ≤ at_ + ttl)%Z →
      Get now t v (run n (ops ++ [CSet at_ t v m ttl])) = Some m).
Proof.
  split.
  - intros m Hg. apply Get_entry in Hg as (exp & Hl & Hle); [|apply run_inv].
    destruct (run_entry n ops t v _ Hl) as (o1 & a & ttl & o2 & -> & He & Hf).
    simpl in *. subst. eauto 10.
  - intros a m ttl Hle. unfold run. rewrite foldl_app. cbn [foldl].
    apply Get_after_Set; [apply run_inv|done].
Qed.
End history.

Lemma cache_hit_is_last_set_witness :
  @Get 7 "t" 1 (@run map_to_list_range 2 [CSet 5 "t" 1 {["a" := "x"]} 10]) = Some {["a" := "x"]}.
Proof.
  apply (proj2 (@cache_hit_is_last_set map_to_list_range map_to_list_range_ok 2 [] 7 "t" 1)).
  vm_compute. discriminate.
Defined.
End MemoryCacheFacts.

(** ** Properties of MemoryIdempotencyCache *)
Module IdempotencyFacts.
Import MemoryIdempotencyCache.

Definition claims (cs : list (Z * string * Z)) (c : MemoryIdempotencyCache) :
    MemoryIdempotencyCache :=
  foldl (λ c '(now, k, ttl), (Claim now k ttl c).2) c cs.

Lemma Claim_spec now k ttl c :
  wf (lru c) → let r := Claim now k ttl c in
  wf (lru r.2) ∧ cap (lru r.2) = cap (lru c)
  ∧ ((r.1 = false ∧ r.2 = c) ∨
     (r.1 = true ∧ entries (lru r.2) = al_set (cap (lru c)) k (now + ttl)%Z (entries (lru c)))).
Proof.
  intros Hwf. destruct (Set_spec (lru c) k (now + ttl)%Z Hwf) as (? & ? & ?).
  unfold Claim. destruct (Peek k (lru c)) as [exp|]; [|naive_solver].
  destruct (now <? exp)%Z; naive_solver.
Qed.

(** How far an entry is from being evicted: the entries that are younger. *)
Lemma al_set_younger {V} n k k' (v v' : V) l1 l2 :
  NoDup (l1 ++ (k, v) :: l2).*1 → k' ≠ k →
  (Z.of_nat (length l2) + 1 < n)%Z →
  (Z.of_nat (length (l1 ++ (k, v) :: l2)) ≤ n)%Z →
  ∃ l1' l2', al_set n k' v' (l1 ++ (k, v) :: l2) = l1' ++ (k, v) :: l2'
    ∧ length l2' ≤ S (length l2).
Proof.
  intros Hnd Hne Hy Hlen. unfold al_set. destruct (al_lookup _ _).
  - unfold al_remove. rewrite filter_app, filter_cons_True by (simpl; congruence).
    rewrite <-app_assoc. cbn [app]. eexists _, _. split; [done|].
    rewrite length_app. pose proof (length_filter (λ p : string * V, p.1 ≠ k') l2). simpl. lia.
  - destruct (n <=? _)%Z eqn:E; bool_prop.
    + destruct l1 as [|p l1]; [simpl in *; lia|]. simpl. rewrite drop_0.
      rewrite <-app_assoc. exists l1, (l2 ++ [(k', v')]). rewrite length_app. simpl. split; [done|lia].
    + rewrite <-app_assoc. exists l1, (l2 ++ [(k', v')]). rewrite length_app. simpl. split; [done|lia].
Qed.

Definition held (n : Z) (k : string) (exp : Z) (y : nat) (c : MemoryIdempotencyCache) : Prop :=
  wf (lru c) ∧ cap (lru c) = n ∧ (Z.of_nat (length (entries (lru c))) ≤ n)%Z
  ∧ ∃ l1 l2, entries (lru c) = l1 ++ (k, exp) :: l2 ∧ length l2 ≤ y.

Lemma held_Peek n k exp y c : held n k exp y c → Peek k (lru c) = Some exp.
Proof.
  intros (Hwf & _ & _ & l1 & l2 & He & _). rewrite Peek_spec by done.
  apply al_lookup_iff; [by apply NoDup_entries|]. rewrite He. set_solver.
Qed.

Lemma held_step n k exp y c now k' ttl :
  held n k exp y c → (now < exp)%Z → (Z.of_nat y + 1 < n)%Z →
  held n k exp (S y) (Claim now k' ttl c).2.
Proof.
  intros Hh Hnow Hy. destruct (decide (k' = k)) as [->|Hne].
  - unfold Claim. rewrite (held_Peek n k exp y c Hh).
    rewrite (proj2 (Z.ltb_lt now exp)) by done. simpl.
    destruct Hh as (? & ? & ? & l1 & l2 & ? & ?). split_and!; [done..|]. eauto.
  - destruct Hh as (Hwf & Hcap & Hlen & l1 & l2 & He & Hl2).
    destruct (Claim_spec now k' ttl c Hwf) as (Hwf' & Hcap' & [[_ ->]|[_ He']]).
    { split_and!; [done..|]. eauto. }
    split_and!; [done|congruence| |].
    + rewrite He', Hcap.
      apply (al_step_bound (V:=Z) n (OpSet k' (now + ttl)%Z)); [by apply NoDup_entries|lia|done].
    + rewrite He', Hcap, He.
      destruct (al_set_younger n k k' exp (now + ttl)%Z l1 l2) as (l1' & l2' & -> & ?).
      * rewrite <-He. by apply NoDup_entries.
      * done.
      * lia.
      * by rewrite <-He.
      * eexists _, _. split; [done|lia].
Qed.

Lemma held_claims n k exp cs y c :
  held n k exp y c → Forall (λ q, (q.1.1 < exp)%Z) cs →
  (Z.of_nat y + Z.of_nat (length cs) < n)%Z →
  held n k exp (y + length cs) (claims cs c).
Proof.
  revert y c. induction cs as [|[[now k'] ttl] cs IH]; intros y c Hh Hf Hy.
  - by rewrite Nat.add_0_r.
  - apply Forall_cons in Hf as [Hlt Hf]. simpl in *.
    replace (y + S (length cs)) with (S y + length cs) by lia.
    apply IH; [|done|lia]. apply held_step; [done..|lia].
Qed.

Lemma claims_wf n cs :
  let c := claims cs (mkIdem (NewLRU n) n) in
  (0 < n)%Z → wf (lru c) ∧ cap (lru c) = n ∧ (Z.of_nat (length (entries (lru c))) ≤ n)%Z.
Proof.
  intros c Hn. unfold c. clear c. induction cs as [|[[now k] ttl] cs IH] using rev_ind.
  { split_and!; [apply wf_New|done|simpl; lia]. }
  unfold claims in *. rewrite foldl_app. cbn [foldl].
  set (c := foldl _ _ cs) in *. clearbody c. destruct IH as (Hwf & Hcap & Hlen).
  destruct (Claim_spec now k ttl c Hwf) as (Hwf' & Hcap' & [[_ ->]|[_ He]]); [done|].
  split_and!; [done|congruence|]. rewrite He, Hcap.
  apply (al_step_bound (V:=Z) n (OpSet k (now + ttl)%Z)); [by apply NoDup_entries|done..].
Qed.

(** An idempotency key is granted once. Whatever was claimed before, when
    [Claim] grants a key for [ttl], every later [Claim] of it before the
    deadline is refused as long as fewer than [n] claims (the cache's
    capacity) have come in between; at or after the deadline it is granted
    again. *)
Theorem claim_granted_once (n : Z) (before between : list (Z * string * Z))
    (now : Z) (k : string) (ttl now' ttl' : Z) :
  (0 < n)%Z →
  let c := claims before (NewMemoryIdempotencyCache n) in
  (Claim now k ttl c).1 = true →
  Forall (λ q, (q.1.1 < now + ttl)%Z) between →
  (Z.of_nat (length between) < n)%Z →
  let c' := claims between (Claim now k ttl c).2 in
  (Claim now' k ttl' c').1 = bool_decide (now + ttl ≤ now')%Z.
Proof.
  intros Hn c Hc Hf Hlen. simpl.
  assert (NewMemoryIdempotencyCache n = mkIdem (NewLRU n) n) as Hnew.
  { unfold NewMemoryIdempotencyCache. by rewrite (proj2 (Z.leb_gt n 0)). }
  destruct (claims_wf n before Hn) as (Hwf & Hcap & Hl). rewrite <-Hnew in Hwf, Hcap, Hl.
  fold c in Hwf, Hcap, Hl. clearbody c.
  destruct (Claim_spec now k ttl c Hwf) as (Hwf' & Hcap' & [[? _]|[_ He]]); [congruence|].
  assert (held n k (now + ttl) 0 (Claim now k ttl c).2) as Hh.
  { split_and!; [done|congruence| |].
    - rewrite He, Hcap.
      apply (al_step_bound (V:=Z) n (OpSet k (now + ttl)%Z)); [by apply NoDup_entries|done..].
    - rewrite He. unfold al_set. destruct (al_lookup k _); eexists _, []; done. }
  apply (held_claims n k _ between) in Hh; [|done|lia].
  apply held_Peek in Hh. unfold Claim at 1. rewrite Hh.
  destruct (now' <? now + ttl)%Z eqn:E; bool_prop; simpl.
  - rewrite bool_decide_eq_false_2 by lia. done.
  - rewrite bool_decide_eq_true_2 by lia. done.
Qed.

Lemma claim_granted_once_witness :
  (Claim 50 "k" 100 (claims [(20, "j", 100)%Z]
     (Claim 10 "k" 100 (NewMemoryIdempotencyCache 4)).2)).1 = false.
Proof.
  apply (claim_granted_once 4 [] [(20, "j", 100)%Z] 10 "k" 100 50 100);
    [done|done| |simpl; lia].
  by apply Forall_singleton.
Defined.
End IdempotencyFacts.
