(* ===== verification/Pagination.v ===== *)
(** * Page tokens and page iteration ([internal/pagination])

    Tokens are base64 texts: [v1:<offset>] for offset pages and
    [v2:<unix-ns>:<id>] for keyset cursors. *)
From S2P Require Import Prelude GoText Base64.
From Stdlib Require Import Ascii.

Module Pagination.

Definition tokenVersion : string := "v1".
Definition cursorTokenVersion : string := "v2".

(** An instant is its number of nanoseconds since the Unix epoch;
    [UnixNano] keeps the low 64 bits. *)
Record PageCursor := { Time : Z; ID : string }.
Definition UnixNano (t : Z) : Z := int64 t.

Inductive TokenKind := KindFirst | KindOffset | KindCursor.

Definition zero_cursor : PageCursor := {| Time := 0; ID := "" |}.

(** The only error of the package. *)
Inductive TokenError := InvalidPageToken.

Definition decodeCursorPayload (rawStr : string) : result TokenError PageCursor :=
  match SplitN 3 ":"%char rawStr with
  | [p0; p1; p2] =>
      if negb (bool_decide (p0 = cursorTokenVersion)) || bool_decide (p2 = "")
      then Err InvalidPageToken
      else
        let '(ns, err) := ParseInt p1 64 in
        match err with
        | Some _ => Err InvalidPageToken
        | None => Ok {| Time := ns; ID := p2 |}
        end
  | _ => Err InvalidPageToken
  end.

(** The bytes of [s] from [n] on. *)
Fixpoint str_drop (n : nat) (s : string) : string :=
  match n, s with
  | O, _ => s
  | S n, String _ s => str_drop n s
  | S _, "" => ""
  end.

Definition DecodeTokenKind (token : string) :
    result TokenError (TokenKind * Z * PageCursor) :=
  if bool_decide (token = "") then Ok (KindFirst, 0%Z, zero_cursor)
  else
    match Base64.DecodeString token with
    | None => Err InvalidPageToken
    | Some rawStr =>
        if HasPrefix rawStr (tokenVersion +:+ ":") then
          let payload := str_drop (str_len tokenVersion + 1) rawStr in
          let '(offsetVal, parseErr) := ParseInt payload 32 in
          if bool_decide (is_Some parseErr) || (offsetVal <? 0)%Z
          then Err InvalidPageToken
          else Ok (KindOffset, int32 offsetVal, zero_cursor)
        else if HasPrefix rawStr (cursorTokenVersion +:+ ":") then
          let? cur := decodeCursorPayload rawStr in
          Ok (KindCursor, 0%Z, cur)
        else Err InvalidPageToken
    end.

Definition EncodeCursorToken (cursor : PageCursor) : string :=
  Base64.EncodeToString
    (cursorTokenVersion +:+ ":" +:+ itoa (UnixNano (Time cursor)) +:+ ":" +:+ ID cursor).

Definition ClampPageSize (requested defaultSize maxSize : Z) : Z :=
  if (requested <=? 0)%Z then defaultSize
  else if (maxSize <? requested)%Z then maxSize
  else requested.

Definition DecodePageToken (token : string) : result TokenError Z :=
  if bool_decide (token = "") then Ok 0%Z
  else
    match Base64.DecodeString token with
    | None => Err InvalidPageToken
    | Some raw =>
        match SplitN 2 ":"%char raw with
        | [p0; p1] =>
            if negb (bool_decide (p0 = tokenVersion)) then Err InvalidPageToken
            else
              let '(offset, err) := ParseInt p1 32 in
              if bool_decide (is_Some err) then Err InvalidPageToken
              else if (offset <? 0)%Z then Err InvalidPageToken
              else Ok (int32 offset)
        | _ => Err InvalidPageToken
        end
    end.

Definition EncodePageToken (offset : Z) : string :=
  Base64.EncodeToString (tokenVersion +:+ ":" +:+ itoa offset).

Definition NextPageToken (pageSize resultCount currentOffset : Z) : string :=
  if (resultCount <=? pageSize)%Z then ""
  else EncodePageToken (int32 (currentOffset + pageSize)).

(** ** Iteration

    [Iter] calls [fetch] once per page and [yield] once per item, and stops
    when [yield] answers false, when [fetch] fails or when the next token is
    empty. The loop has no bound of its own: [Iter] runs at most [fuel] pages
    and answers [None] when they are used up. [Y] is the consumer's state. *)
Section Iter.
Context {T E Y : Type}.
Variable fetch : string → result E (list T * string).
Variable yield : Y → result E T → Y * bool.

Fixpoint yield_items (y : Y) (items : list T) : Y * bool :=
  match items with
  | [] => (y, true)
  | item :: items =>
      let '(y, continue) := yield y (Ok item) in
      if continue then yield_items y items else (y, false)
  end.

Fixpoint Iter (fuel : nat) (token : string) (y : Y) : option Y :=
  match fuel with
  | O => None
  | S fuel =>
      match fetch token with
      | Err err => Some (yield y (Err err)).1
      | Ok (items, next) =>
          let '(y, continue) := yield_items y items in
          if negb continue then Some y
          else if bool_decide (next = "") then Some y
          else Iter fuel next y
      end
  end.
End Iter.

(** ** Tokens round-trip *)
Lemma ParseInt_itoa w x :
  (0 < w ≤ 64)%Z → (- 2 ^ (w - 1) ≤ x < 2 ^ (w - 1))%Z → ParseInt (itoa x) w = (x, None).
Proof. apply ParseInt_FormatInt. Qed.

Lemma encode_nonempty s : s ≠ "" → Base64.EncodeToString s ≠ "".
Proof. by destruct s as [|? [|? [|? ?]]]. Qed.

Lemma decode_encode_page offset :
  (0 ≤ offset ≤ max_int32)%Z → DecodePageToken (EncodePageToken offset) = Ok offset.
Proof.
  intros Ho. unfold DecodePageToken, EncodePageToken.
  rewrite bool_decide_eq_false_2 by (by apply encode_nonempty).
  rewrite Base64.decode_encode.
  replace (SplitN 2 ":"%char (tokenVersion +:+ ":" +:+ itoa offset))
    with [tokenVersion; itoa offset].
  2:{ cbn [SplitN]. by rewrite (str_app_single ":"), cut_char_app. }
  rewrite bool_decide_eq_true_2 by done. cbn [negb].
  rewrite ParseInt_itoa by (unfold max_int32 in *; lia).
  rewrite bool_decide_eq_false_2 by (by intros [? ?]).
  destruct (offset <? 0)%Z eqn:E; bool_prop; [lia|].
  rewrite int32_id; [done|unfold min_int32, max_int32 in *; lia].
Qed.

Lemma itoa_nonempty x : itoa x ≠ "".
Proof.
  unfold itoa, FormatInt. destruct (x <? 0)%Z eqn:E; [done|]. bool_prop.
  by apply FormatUint_nonempty.
Qed.

Lemma DecodeTokenKind_cursor t id :
  (min_int64 ≤ t ≤ max_int64)%Z → id ≠ "" →
  DecodeTokenKind (EncodeCursorToken {| Time := t; ID := id |})
  = Ok (KindCursor, 0%Z, {| Time := t; ID := id |}).
Proof.
  intros Ht Hid. unfold DecodeTokenKind, EncodeCursorToken, UnixNano. cbn [Time ID].
  rewrite bool_decide_eq_false_2 by (by apply encode_nonempty).
  rewrite Base64.decode_encode, int64_id by done.
  set (rest := itoa t +:+ ":" +:+ id).
  change (HasPrefix (cursorTokenVersion +:+ ":" +:+ rest) (tokenVersion +:+ ":")) with false.
  replace (HasPrefix (cursorTokenVersion +:+ ":" +:+ rest) (cursorTokenVersion +:+ ":")) with true.
  2:{ rewrite <-str_app_assoc. symmetry. apply HasPrefix_app. }
  cbv iota. unfold decodeCursorPayload.
  replace (SplitN 3 ":"%char (cursorTokenVersion +:+ ":" +:+ rest))
    with [cursorTokenVersion; itoa t; id].
  2:{ cbn [SplitN]. rewrite (str_app_single ":" rest), cut_char_app by done. unfold rest.
      rewrite (str_app_single ":" id), cut_char_app; [done|]. by apply no_char_itoa. }
  rewrite bool_decide_eq_true_2 by done. rewrite bool_decide_eq_false_2 by done.
  cbn [negb orb]. rewrite ParseInt_itoa by (unfold min_int64, max_int64 in *; lia). done.
Qed.

Lemma DecodeTokenKind_offset offset :
  (0 ≤ offset ≤ max_int32)%Z →
  DecodeTokenKind (EncodePageToken offset) = Ok (KindOffset, offset, zero_cursor).
Proof.
  intros Ho. unfold DecodeTokenKind, EncodePageToken.
  rewrite bool_decide_eq_false_2 by (by apply encode_nonempty).
  rewrite Base64.decode_encode.
  replace (HasPrefix (tokenVersion +:+ ":" +:+ itoa offset) (tokenVersion +:+ ":")) with true.
  2:{ rewrite <-str_app_assoc. symmetry. apply HasPrefix_app. }
  cbv iota.
  change (str_drop _ (tokenVersion +:+ ":" +:+ itoa offset)) with (itoa offset).
  rewrite ParseInt_itoa by (unfold max_int32 in *; lia).
  rewrite bool_decide_eq_false_2 by (by intros [? ?]).
  destruct (offset <? 0)%Z eqn:E; bool_prop; [lia|].
  cbn [orb]. rewrite int32_id; [done|unfold min_int32, max_int32 in *; lia].
Qed.

(** ** Paging through a list

    [page items pageSize offset]: what a list RPC on a backing list answers:
    [pageSize + 1] rows are read from the offset on, the first [pageSize] of
    them are returned with the token of the next page. *)
Definition page {T} (items : list T) (pageSize offset : Z) : list T * string :=
  let rows := take (Z.to_nat (pageSize + 1)) (drop (Z.to_nat offset) items) in
  (take (Z.to_nat pageSize) rows, NextPageToken pageSize (Z.of_nat (length rows)) offset).

Lemma DecodePageToken_nonneg token offset : DecodePageToken token = Ok offset → (0 ≤ offset)%Z.
Proof.
  unfold DecodePageToken. destruct (bool_decide _); [by intros [= <-]|].
  destruct (Base64.DecodeString token) as [raw|]; [|done].
  destruct (SplitN _ _ raw) as [|p0 [|p1 [|]]]; try done.
  destruct (negb _); [done|]. destruct (ParseInt p1 32) as [x err] eqn:Hp.
  destruct err; [by rewrite bool_decide_eq_true_2 by eauto|].
  rewrite bool_decide_eq_false_2 by (by intros []).
  destruct (x <? 0)%Z eqn:Hx; [done|]. bool_prop. intros [= <-].
  apply ParseInt_range in Hp; [|done]. rewrite int32_id; [done|unfold min_int32, max_int32; lia].
Qed.

(** A consumer that keeps every item. *)
Definition collect {T E} (y : list T) (r : result E T) : list T * bool :=
  match r with Ok x => (y ++ [x], true) | Err _ => (y, false) end.

Lemma yield_items_collect {T E} (y items : list T) :
  yield_items (@collect T E) y items = (y ++ items, true).
Proof.
  revert y. induction items as [|x items IH]; intros y; simpl.
  - by rewrite app_nil_r.
  - rewrite IH. by rewrite <-app_assoc.
Qed.

Lemma yield_items_stop {T E Y} (yield : Y → result E T → Y * bool) y items y' :
  yield_items yield y items = (y', false) → items ≠ [].
Proof. by destruct items. Qed.

Lemma Iter_offset {T Er} (fetch : string → result Er (list T * string)) (items : list T)
    (pageSize : Z) fuel token offset y :
  (∀ token offset, DecodePageToken token = Ok offset → fetch token = Ok (page items pageSize offset)) →
  (0 < pageSize ≤ max_int32)%Z → (Z.of_nat (length items) ≤ max_int32)%Z →
  DecodePageToken token = Ok offset → (0 ≤ offset)%Z →
  (Z.of_nat (length items) < offset + pageSize * Z.of_nat fuel)%Z → fuel ≠ 0 →
  Iter fetch collect fuel token y = Some (y ++ drop (Z.to_nat offset) items).
Proof.
  intros Hfetch Hps Hlen. revert token offset y.
  induction fuel as [|fuel IH]; intros token offset y Hdec Ho Hfuel Hf; [done|].
  cbn [Iter]. rewrite (Hfetch _ _ Hdec). unfold page.
  rewrite yield_items_collect. cbn [negb].
  rewrite take_take, Nat.min_l by lia.
  unfold NextPageToken. rewrite length_take, length_drop.
  destruct (_ <=? pageSize)%Z eqn:Ec; bool_prop.
  - rewrite bool_decide_eq_true_2 by done. do 2 f_equal.
    apply take_ge. rewrite length_drop. lia.
  - assert (offset + pageSize < Z.of_nat (length items))%Z by lia.
    rewrite int32_id by (unfold min_int32, max_int32 in *; lia).
    rewrite bool_decide_eq_false_2 by (by apply encode_nonempty).
    rewrite (IH _ (offset + pageSize)%Z); [|apply decode_encode_page; lia|lia|lia|].
    + rewrite <-app_assoc. do 2 f_equal.
      rewrite Z2Nat.inj_add by lia.
      rewrite <-drop_drop. apply take_drop.
    + intros ->. simpl in Hfuel. lia.
Qed.

(** Following the page tokens of an offset-paged list RPC from the empty token
    yields every item of the backing list exactly once, in order, and stops:
    any fuel above the number of pages gives the full list. *)
Lemma Iter_pages {T E} (fetch : string → result E (list T * string)) (items : list T)
    (pageSize : Z) (fuel : nat) :
  (∀ token offset, DecodePageToken token = Ok offset → fetch token = Ok (page items pageSize offset)) →
  (0 < pageSize ≤ max_int32)%Z → (Z.of_nat (length items) ≤ max_int32)%Z →
  (Z.of_nat (length items) < pageSize * Z.of_nat fuel)%Z →
  Iter fetch collect fuel "" [] = Some items.
Proof.
  intros Hfetch Hps Hlen Hfuel.
  rewrite (Iter_offset fetch items pageSize fuel "" 0 []); try done.
  intros ->. simpl in Hfuel. lia.
Qed.

(** Every page token the server hands out decodes back to what it was made
    from and to its own kind: an offset token to its offset, a keyset cursor
    token to its timestamp and id, even when the id itself contains colons. *)
Theorem page_tokens_roundtrip (offset : Z) (c : PageCursor) :
  (0 ≤ offset ≤ max_int32)%Z → (min_int64 ≤ Time c ≤ max_int64)%Z → ID c ≠ "" →
  DecodeTokenKind (EncodePageToken offset) = Ok (KindOffset, offset, zero_cursor)
  ∧ DecodePageToken (EncodePageToken offset) = Ok offset
  ∧ DecodeTokenKind (EncodeCursorToken c) = Ok (KindCursor, 0%Z, c).
Proof.
  intros Ho Ht Hid. split_and!.
  - by apply DecodeTokenKind_offset.
  - by apply decode_encode_page.
  - destruct c. by apply DecodeTokenKind_cursor.
Qed.

Lemma page_tokens_roundtrip_witness :
  DecodeTokenKind (EncodeCursorToken {| Time := 1700000000000000000; ID := "a:b" |})
  = Ok (KindCursor, 0%Z, {| Time := 1700000000000000000; ID := "a:b" |}).
Proof.
  apply (page_tokens_roundtrip 5 {| Time := 1700000000000000000; ID := "a:b" |});
    vm_compute; intuition congruence.
Defined.
End Pagination.
