(* ===== verification/Sha256.v ===== *)
(** * [crypto/sha256] and [encoding/hex]

    SHA-256 (FIPS 180-4) on the bytes of a string, with 32-bit words as
    integers below 2^32. *)
From S2P Require Import Prelude GoText Domain.
From Stdlib Require Import Ascii.
Local Open Scope Z_scope.

Module Sha256.

Definition word (x : Z) : Z := x mod 2 ^ 32.
Definition rotr (n x : Z) : Z := word (Z.lor (Z.shiftr x n) (Z.shiftl x (32 - n))).
Definition ch (x y z : Z) : Z := Z.lxor (Z.land x y) (Z.land (Z.lxor x (2 ^ 32 - 1)) z).
Definition maj (x y z : Z) : Z := Z.lxor (Z.lxor (Z.land x y) (Z.land x z)) (Z.land y z).
Definition big_sigma0 (x : Z) : Z := Z.lxor (Z.lxor (rotr 2 x) (rotr 13 x)) (rotr 22 x).
Definition big_sigma1 (x : Z) : Z := Z.lxor (Z.lxor (rotr 6 x) (rotr 11 x)) (rotr 25 x).
Definition sigma0 (x : Z) : Z := Z.lxor (Z.lxor (rotr 7 x) (rotr 18 x)) (Z.shiftr x 3).
Definition sigma1 (x : Z) : Z := Z.lxor (Z.lxor (rotr 17 x) (rotr 19 x)) (Z.shiftr x 10).

(** The constants are the first 32 bits of the fractional parts of the cube
    roots of the first 64 primes, and of the square roots of the first eight. *)
Definition is_prime (p : Z) : bool :=
  forallb (λ d, negb (p mod d =? 0)) (seqZ 2 (p - 2)).
Definition primes : list Z := filter (λ p, is_prime p = true) (seqZ 2 310).
(** The integer cube root, bit by bit from bit [b - 1] down. *)
Fixpoint cbrt_from (b : nat) (n r : Z) : Z :=
  match b with
  | O => r
  | S b => let c := r + 2 ^ Z.of_nat b in cbrt_from b n (if c * c * c <=? n then c else r)
  end.
Definition round_constants : list Z :=
  Eval vm_compute in (λ p, word (cbrt_from 40 (p * 2 ^ 96) 0)) <$> primes.

Record state := mkState { sa : Z; sb : Z; sc : Z; sd : Z; se : Z; sf : Z; sg : Z; sh : Z }.
Definition square_root_bits : list Z :=
  Eval vm_compute in (λ p, word (Z.sqrt (p * 2 ^ 64))) <$> take 8 primes.
Definition initial : state :=
  match square_root_bits with
  | [a; b; c; d; e; f; g; h] => mkState a b c d e f g h
  | _ => mkState 0 0 0 0 0 0 0 0
  end.

(** The message schedule, newest word first. *)
Definition next_word (w : list Z) : Z :=
  word (sigma1 (nth 1 w 0) + nth 6 w 0 + sigma0 (nth 14 w 0) + nth 15 w 0).
Fixpoint schedule (n : nat) (w : list Z) : list Z :=
  match n with O => w | S n => schedule n (next_word w :: w) end.

Definition round (s : state) (k w : Z) : state :=
  let t1 := word (sh s + big_sigma1 (se s) + ch (se s) (sf s) (sg s) + k + w) in
  let t2 := word (big_sigma0 (sa s) + maj (sa s) (sb s) (sc s)) in
  mkState (word (t1 + t2)) (sa s) (sb s) (sc s) (word (sd s + t1)) (se s) (sf s) (sg s).
Fixpoint rounds (s : state) (ks ws : list Z) : state :=
  match ks, ws with
  | k :: ks, w :: ws => rounds (round s k w) ks ws
  | _, _ => s
  end.

(** One block of 16 words. *)
Definition compress (s : state) (block : list Z) : state :=
  let r := rounds s round_constants (rev (schedule 48 (rev block))) in
  mkState (word (sa s + sa r)) (word (sb s + sb r)) (word (sc s + sc r)) (word (sd s + sd r))
    (word (se s + se r)) (word (sf s + sf r)) (word (sg s + sg r)) (word (sh s + sh r)).

Fixpoint bytes (s : string) : list Z :=
  match s with "" => [] | String c s => byte_val c :: bytes s end.
Definition be_bytes (n : nat) (x : Z) : list Z :=
  (λ i, Z.land (Z.shiftr x (8 * Z.of_nat (n - 1 - i))) 255) <$> seq 0 n.
Definition pad (l : list Z) : list Z :=
  let n := Z.of_nat (length l) in
  l ++ [0x80] ++ replicate (Z.to_nat ((55 - n) mod 64)) 0 ++ be_bytes 8 (8 * n).

Fixpoint words (l : list Z) : list Z :=
  match l with
  | a :: b :: c :: d :: l => (a * 2 ^ 24 + b * 2 ^ 16 + c * 2 ^ 8 + d) :: words l
  | _ => []
  end.
(** The blocks one after another; [fuel] is their number. *)
Fixpoint blocks (fuel : nat) (s : state) (l : list Z) : state :=
  match fuel with
  | O => s
  | S fuel => blocks fuel (compress s (take 16 l)) (drop 16 l)
  end.

Definition Sum256 (data : string) : list Z :=
  let l := words (pad (bytes data)) in
  let s := blocks (length l / 16) initial l in
  concat (be_bytes 4 <$> [sa s; sb s; sc s; sd s; se s; sf s; sg s; sh s]).

(** [hex.EncodeToString]. *)
Definition hex (s : string) : string := hex_bytes (bytes s).
Definition Sum256_hex (data : string) : string := hex_bytes (Sum256 data).

Example Sum256_empty :
  Sum256_hex "" = "e3b0c44298fc1c149afbf4c8996fb92427ae41e4649b934ca495991b7852b855".
Proof. vm_compute. reflexivity. Qed.
Example Sum256_abc :
  Sum256_hex "abc" = "ba7816bf8f01cfea414140de5dae2223b00361a396177a9cb410ff61f20015ad".
Proof. vm_compute. reflexivity. Qed.
(** Two blocks. *)
Example Sum256_two_blocks :
  Sum256_hex "abcdbcdecdefdefgefghfghighijhijkijkljklmklmnlmnomnopnopq"
  = "248d6a61d20638b8e5c026930c3e6039a33ce45964ff2167f6ecedd419db06c1".
Proof. vm_compute. reflexivity. Qed.

Example primes_64 : length primes = 64%nat.
Proof. vm_compute. reflexivity. Qed.

(** A digest has 64 digits. *)
Lemma hex_bytes_length l : str_len (hex_bytes l) = (2 * length l)%nat.
Proof.
  induction l as [|b l IH]; [done|]. cbn [hex_bytes foldr length]. fold (hex_bytes l).
  rewrite str_len_app, IH. cbn. lia.
Qed.
Lemma Sum256_hex_length data : str_len (Sum256_hex data) = 64%nat.
Proof. unfold Sum256_hex. by rewrite hex_bytes_length. Qed.
Lemma Sum256_hex_nonempty data : Sum256_hex data ≠ "".
Proof. intros E. pose proof (Sum256_hex_length data) as Hl. by rewrite E in Hl. Qed.
End Sha256.
