(* ===== verification/AuditChain.v ===== *)
(** * The audit hash chain ([internal/audit/chain.go], [verify.go])

    An entry of the audit log carries the SHA-256 digest of its fields and of
    the digest before it. The file models the text that is hashed byte for
    byte, the verification loop, and the reordering by links of the PostgreSQL
    store ([sortByChain]). *)
From S2P Require Import Prelude GoText Json GoAny Pagination Domain Sha256.
From Stdlib Require Import Ascii.
Local Open Scope Z_scope.

Record AuditWriteLog := {
  al_ID : string; al_TenantID : string; al_Actor : string; al_Action : string;
  al_ObjectKind : string; al_FieldPath : option string; al_OldValue : option string;
  al_NewValue : option string; al_ConfigVersion : option Z; al_Metadata : option string;
  al_PreviousHash : string; al_EntryHash : string; al_ChainEpoch : Z; al_CreatedAt : Z }.
Global Instance AuditWriteLog_eq_dec : EqDecision AuditWriteLog.
Proof. solve_decision. Defined.

Module AuditChain.

Record ChainInput := {
  ci_PreviousHash : string; ci_ID : string; ci_TenantID : string; ci_Actor : string;
  ci_Action : string; ci_ObjectKind : string; ci_CreatedAt : Z; ci_Epoch : Z;
  ci_FieldPath : option string; ci_OldValue : option string; ci_NewValue : option string;
  ci_ConfigVersion : option Z; ci_Metadata : option string }.

Definition nul : ascii := byte_of 0.
Definition soh : ascii := byte_of 1.
Definition NUL : string := String nul "".
Definition SOH : string := String soh "".

(** A byte slice: nil and the empty slice have the same bytes. *)
Definition slice_bytes (b : option string) : string := default "" b.

Definition normalizeJSON (b : string) : string :=
  if bool_decide (b = "") then b
  else
    match GoAny.Unmarshal b with
    | None => b
    | Some v => match GoAny.Marshal v with None => b | Some out => out end
    end.

(** A hash under construction is the text written to it so far. *)
Definition writeNullableStr (h : string) (s : option string) : string :=
  match s with
  | None => h +:+ NUL
  | Some s => h +:+ SOH +:+ s +:+ NUL
  end.
Definition writeNullableI32 (h : string) (v : option Z) : string :=
  match v with
  | None => h +:+ NUL
  | Some v => h +:+ SOH +:+ itoa v +:+ NUL
  end.

(** The text [ComputeEntryHash] feeds to SHA-256. *)
Definition preimage (i : ChainInput) : string :=
  let structural :=
    ci_PreviousHash i +:+ NUL +:+ ci_ID i +:+ NUL +:+ ci_TenantID i +:+ NUL +:+ ci_Actor i +:+ NUL +:+
    ci_Action i +:+ NUL +:+ ci_ObjectKind i +:+ NUL +:+ itoa (Pagination.UnixNano (ci_CreatedAt i)) in
  if ci_Epoch i =? 0 then structural
  else
    let h := structural +:+ NUL in
    let h := writeNullableStr h (ci_FieldPath i) in
    let h := writeNullableStr h (ci_OldValue i) in
    let h := writeNullableStr h (ci_NewValue i) in
    let h := writeNullableI32 h (ci_ConfigVersion i) in
    let meta := normalizeJSON (slice_bytes (ci_Metadata i)) in
    if bool_decide (meta = "") then h +:+ NUL else h +:+ SOH +:+ Sha256.hex meta.

Definition ComputeEntryHash (i : ChainInput) : string := Sha256.Sum256_hex (preimage i).

(** ** [VerifyChain] *)
Record ChainBreak := { cb_EntryID : string; cb_Position : nat; cb_Got : string; cb_Want : string }.
Record VerifyResult := {
  vr_TenantID : string; vr_Total : nat; vr_Breaks : list ChainBreak; vr_OK : bool }.

(** The input of the verification for an entry after the digest [prev]. *)
Definition entry_input (prev : string) (e : AuditWriteLog) : ChainInput := {|
  ci_PreviousHash := prev; ci_ID := al_ID e; ci_TenantID := al_TenantID e;
  ci_Actor := al_Actor e; ci_Action := al_Action e; ci_ObjectKind := al_ObjectKind e;
  ci_CreatedAt := al_CreatedAt e; ci_Epoch := al_ChainEpoch e;
  ci_FieldPath := al_FieldPath e; ci_OldValue := al_OldValue e; ci_NewValue := al_NewValue e;
  ci_ConfigVersion := al_ConfigVersion e; ci_Metadata := al_Metadata e |}.

Fixpoint verify_entries (i : nat) (prev : string) (entries : list AuditWriteLog) : list ChainBreak :=
  match entries with
  | [] => []
  | e :: entries =>
      let want := ComputeEntryHash (entry_input prev e) in
      (if bool_decide (al_EntryHash e = want) then []
       else [{| cb_EntryID := al_ID e; cb_Position := i; cb_Got := al_EntryHash e; cb_Want := want |}])
      ++ verify_entries (S i) (al_EntryHash e) entries
  end.

(** [fetched] is what the store answered. *)
Definition VerifyChain (fetched : result error (list AuditWriteLog)) (tenantID : string) :
    result error VerifyResult :=
  match fetched with
  | Err err => Err (Wrap "fetch audit chain" err)
  | Ok entries =>
      let breaks := verify_entries 0 "" entries in
      Ok {| vr_TenantID := tenantID; vr_Total := length entries; vr_Breaks := breaks;
            vr_OK := bool_decide (length breaks = 0%nat) |}
  end.

(** ** [sortByChain]

    The last entry with a given previous hash wins in the map. *)
Definition by_prev (entries : list AuditWriteLog) : gmap string AuditWriteLog :=
  foldl (λ m e, <[al_PreviousHash e := e]> m) ∅ entries.

(** The loop [for !seen[current.EntryHash]]; [None] when the fuel runs out. *)
Fixpoint follow (fuel : nat) (byPrev : gmap string AuditWriteLog) (seen : gset string)
    (ordered : list AuditWriteLog) (current : AuditWriteLog) : option (list AuditWriteLog) :=
  if bool_decide (al_EntryHash current ∈ seen) then Some ordered
  else
    match fuel with
    | O => None
    | S fuel =>
        let ordered := ordered ++ [current] in
        let seen := {[al_EntryHash current]} ∪ seen in
        match byPrev !! al_EntryHash current with
        | None => Some ordered
        | Some next => follow fuel byPrev seen ordered next
        end
    end.

Definition sortByChain (entries : list AuditWriteLog) : option (list AuditWriteLog) :=
  if bool_decide (length entries ≤ 1)%nat then Some entries
  else
    let byPrev := by_prev entries in
    match byPrev !! "" with
    | None => Some entries
    | Some root =>
        ordered ← follow (length entries) byPrev ∅ [] root;
        Some (if bool_decide (length ordered = length entries) then ordered else entries)
    end.
End AuditChain.
