(* ===== verification/AuditChainFacts.v ===== *)
(** * What the audit chain shows

    The hashed text determines the fields of an entry whose texts have no NUL
    byte; so two chains that verify and end in the same digest have the same
    content, entry by entry, unless they exhibit two texts with one SHA-256
    digest. The reordering by links of the PostgreSQL store neither loses nor
    invents an entry, and restores the order of insertion. *)
From S2P Require Import Prelude GoText Json GoAny Pagination Domain Sha256 AuditChain.
From Stdlib Require Import Ascii.
Import AuditChain.

(** Brings concatenations to right-nested form. *)
Ltac str_norm := repeat (rewrite str_app_assoc || rewrite str_app_cons).

(** ** Texts ended by a separator *)
Section Separated.
Variable c : ascii.

Fixpoint terminated (l : list string) : string :=
  match l with [] => "" | x :: l => x +:+ String c (terminated l) end.

Lemma count_char_0 s : count_char c s = 0%nat ↔ no_char c s = true.
Proof.
  unfold no_char. induction s as [|x s IH]; [done|]. cbn [count_char all_bytes].
  case_bool_decide; simpl; [done|]. apply IH.
Qed.

Lemma count_terminated l :
  count_char c (terminated l) = (length l + sum_list_with (count_char c) l)%nat.
Proof.
  induction l as [|x l IH]; [done|]. cbn [terminated]. rewrite count_char_app. cbn [count_char].
  rewrite bool_decide_eq_true_2, IH by done. cbn [length sum_list_with]. lia.
Qed.
Lemma sum_zero l : sum_list_with (count_char c) l = 0%nat ↔ Forall (λ x, no_char c x = true) l.
Proof.
  induction l as [|x l IH]; [split; done|]. cbn [sum_list_with].
  rewrite Forall_cons, <-count_char_0, <-IH. lia.
Qed.
Lemma terminated_last l : l ≠ [] → ∃ a, terminated l = a +:+ String c "".
Proof.
  induction l as [|x [|y l] IH]; intros Hl; [done|by exists x|].
  destruct IH as [a Ha]; [done|]. exists (x +:+ String c a). cbn [terminated] in *.
  by rewrite Ha, str_app_assoc, str_app_cons.
Qed.

(** Separator-free pieces on one side are enough. *)
Lemma terminated_inj l1 l2 :
  length l1 = length l2 → Forall (λ x, no_char c x = true) l1 →
  terminated l1 = terminated l2 → l1 = l2.
Proof.
  intros Hlen H1 E.
  assert (Forall (λ x, no_char c x = true) l2) as H2.
  { apply sum_zero. apply sum_zero in H1. pose proof (count_terminated l1) as C1.
    rewrite E, count_terminated in C1. lia. }
  revert l2 Hlen H2 E. induction H1 as [|x l1 Hx H1 IH]; intros [|y l2] Hlen H2 E; try done.
  apply Forall_cons in H2 as [Hy H2]. cbn [terminated] in E.
  pose proof (cut_char_app c x (terminated l1) Hx) as Cx.
  rewrite E, cut_char_app in Cx by done. simplify_eq/=. f_equal. apply IH; [lia|done..].
Qed.
End Separated.

(** ** The hashed text as pieces *)
Definition opt_piece (s : option string) : string := match s with None => "" | Some s => SOH +:+ s end.
Definition header_pieces (i : ChainInput) : list string :=
  [ci_PreviousHash i; ci_ID i; ci_TenantID i; ci_Actor i; ci_Action i; ci_ObjectKind i].
Definition time_piece (i : ChainInput) : string := itoa (Pagination.UnixNano (ci_CreatedAt i)).
Definition payload_pieces (i : ChainInput) : list string :=
  [opt_piece (ci_FieldPath i); opt_piece (ci_OldValue i); opt_piece (ci_NewValue i);
   opt_piece (itoa <$> ci_ConfigVersion i)].
Definition meta_bytes (i : ChainInput) : string := normalizeJSON (slice_bytes (ci_Metadata i)).

Lemma terminated_app c l1 l2 : terminated c (l1 ++ l2) = terminated c l1 +:+ terminated c l2.
Proof.
  induction l1 as [|x l1 IH]; [done|]. cbn [terminated app]. by rewrite IH, str_app_assoc, str_app_cons.
Qed.
Lemma writeNullableStr_piece h s : writeNullableStr h s = h +:+ terminated nul [opt_piece s].
Proof.
  destruct s as [s|]; cbn [writeNullableStr opt_piece terminated]; [|done].
  by rewrite str_app_assoc.
Qed.
Lemma writeNullableI32_piece h v : writeNullableI32 h v = h +:+ terminated nul [opt_piece (itoa <$> v)].
Proof.
  destruct v as [v|]; cbn [writeNullableI32 opt_piece terminated fmap option_fmap option_map]; [|done].
  by rewrite str_app_assoc.
Qed.

Lemma preimage_legacy i :
  ci_Epoch i = 0%Z → preimage i = terminated nul (header_pieces i) +:+ time_piece i.
Proof.
  intros E. unfold preimage. rewrite E. cbn [Z.eqb terminated header_pieces].
  unfold NUL, time_piece. by str_norm.
Qed.

Definition pieces (i : ChainInput) : list string := header_pieces i ++ time_piece i :: payload_pieces i.
Lemma preimage_full i :
  ci_Epoch i ≠ 0%Z →
  preimage i = terminated nul (pieces i) +:+
    (if bool_decide (meta_bytes i = "") then NUL else SOH +:+ Sha256.hex (meta_bytes i)).
Proof.
  intros E%Z.eqb_neq. unfold preimage. rewrite E. fold (meta_bytes i).
  rewrite !writeNullableStr_piece, writeNullableI32_piece.
  unfold pieces, header_pieces, payload_pieces, NUL, time_piece. cbn [terminated app].
  case_bool_decide; by str_norm.
Qed.

(** ** Hexadecimal *)
Lemma digit_char_inj_16 : ∀ d d', (0 ≤ d < 16)%Z → (0 ≤ d' < 16)%Z → digit_char d = digit_char d' → d = d'.
Proof.
  assert (Forall (λ d, Forall (λ d', digit_char d = digit_char d' → d = d') (seqZ 0 16)) (seqZ 0 16)) as H.
  { vm_compute. repeat constructor; intros; done. }
  intros d d' Hd Hd'. rewrite Forall_forall in H. specialize (H d). rewrite elem_of_seqZ in H.
  specialize (H ltac:(lia)). rewrite Forall_forall in H. apply H, elem_of_seqZ. lia.
Qed.
Lemma byte_nibbles b : (0 ≤ b < 256)%Z →
  (0 ≤ b `div` 16 < 16)%Z ∧ (0 ≤ b `mod` 16 < 16)%Z ∧ b = (16 * (b `div` 16) + b `mod` 16)%Z.
Proof. intros Hb. pose proof (Z.div_mod b 16). pose proof (Z.mod_pos_bound b 16). lia. Qed.
Lemma hex_inj s1 s2 : Sha256.hex s1 = Sha256.hex s2 → s1 = s2.
Proof.
  unfold Sha256.hex. revert s2. induction s1 as [|a s1 IH]; intros [|b s2] E; try done.
  cbn [Sha256.bytes hex_bytes foldr] in E. unfold hex2 in E. rewrite !str_app_cons in E.
  injection E as E1 E2 E3.
  destruct (byte_nibbles (byte_val a) (byte_val_range a)) as (A1 & A2 & A3).
  destruct (byte_nibbles (byte_val b) (byte_val_range b)) as (B1 & B2 & B3).
  apply digit_char_inj_16 in E1; [|done..]. apply digit_char_inj_16 in E2; [|done..].
  f_equal; [|by apply IH]. rewrite <-(byte_of_val a), <-(byte_of_val b). f_equal. lia.
Qed.
Lemma no_char_hex_bytes c l :
  is_hex_lower c = false → Forall (λ b, 0 ≤ b < 256)%Z l → no_char c (hex_bytes l) = true.
Proof.
  intros Hc. induction 1 as [|b l Hb Hl IH]; [done|]. destruct (byte_nibbles b Hb) as (B1 & B2 & _).
  unfold no_char in *. cbn [hex_bytes foldr]. fold (hex_bytes l).
  rewrite all_bytes_app, IH. unfold hex2. cbn [all_bytes].
  apply digit_char_hex in B1, B2.
  rewrite !bool_decide_eq_false_2 by congruence. done.
Qed.
Lemma bytes_range s : Forall (λ b, 0 ≤ b < 256)%Z (Sha256.bytes s).
Proof. induction s; constructor; [apply byte_val_range|done]. Qed.
Lemma be_bytes_range n x : Forall (λ b, 0 ≤ b < 256)%Z (Sha256.be_bytes n x).
Proof.
  unfold Sha256.be_bytes. apply Forall_fmap, Forall_forall. intros i _. simpl.
  change 255%Z with (Z.ones 8). rewrite Z.land_ones by lia. apply Z.mod_pos_bound. lia.
Qed.
Lemma Sum256_range t : Forall (λ b, 0 ≤ b < 256)%Z (Sha256.Sum256 t).
Proof.
  unfold Sha256.Sum256. apply Forall_concat, Forall_fmap, Forall_forall. intros x _.
  apply be_bytes_range.
Qed.
Lemma no_char_hex c s : is_hex_lower c = false → no_char c (Sha256.hex s) = true.
Proof. intros Hc. apply no_char_hex_bytes; [done|apply bytes_range]. Qed.
Lemma no_char_digest c i : is_hex_lower c = false → no_char c (ComputeEntryHash i) = true.
Proof. intros Hc. apply no_char_hex_bytes; [done|apply Sum256_range]. Qed.

(** ** The hashed text determines the entry *)

(** What follows the last NUL of a full hashed text. *)
Definition meta_tail (i : ChainInput) : string :=
  if bool_decide (meta_bytes i = "") then "" else SOH +:+ Sha256.hex (meta_bytes i).
Lemma no_nul_meta_tail i : no_char nul (meta_tail i) = true.
Proof.
  unfold meta_tail. case_bool_decide; [done|].
  pose proof (no_char_hex nul (meta_bytes i) eq_refl) as Hh. unfold no_char in *.
  by rewrite all_bytes_app, Hh.
Qed.
Lemma meta_tail_inj i1 i2 : meta_tail i1 = meta_tail i2 → meta_bytes i1 = meta_bytes i2.
Proof.
  unfold meta_tail. repeat case_bool_decide; try congruence; [done..|].
  intros E. apply hex_inj. by injection E.
Qed.
Lemma preimage_split i :
  ci_Epoch i ≠ 0%Z →
  ∃ a, preimage i = a +:+ String nul (meta_tail i)
    ∧ terminated nul (pieces i) = (if bool_decide (meta_bytes i = "") then a else a +:+ NUL).
Proof.
  intros E. rewrite (preimage_full i E). unfold meta_tail. case_bool_decide.
  - by exists (terminated nul (pieces i)).
  - destruct (terminated_last nul (pieces i)) as [a Ha]; [done|]. exists a.
    split; [|done]. rewrite Ha. by str_norm.
Qed.
Lemma no_nul_time i : no_char nul (time_piece i) = true.
Proof. by apply no_char_itoa. Qed.

Lemma preimage_not_legacy i1 i2 :
  ci_Epoch i1 ≠ 0%Z → preimage i1 = preimage i2 → ci_Epoch i2 ≠ 0%Z.
Proof.
  intros E1 E E2. destruct (preimage_split i1 E1) as (a & Ha & _).
  destruct (terminated_last nul (header_pieces i2)) as [b Hb]; [done|].
  rewrite Ha, (preimage_legacy i2 E2), Hb, str_app_assoc, str_app_cons in E.
  apply last_sep_inj in E as [_ E]; [|apply no_nul_meta_tail|apply no_nul_time].
  change ("" +:+ time_piece i2) with (time_piece i2) in E. unfold meta_tail in E. case_bool_decide.
  - by apply (Pagination.itoa_nonempty (Pagination.UnixNano (ci_CreatedAt i2))).
  - pose proof (no_char_itoa soh (Pagination.UnixNano (ci_CreatedAt i2)) eq_refl) as H1.
    unfold time_piece in E. rewrite <-E in H1. by specialize (H1 ltac:(done)).
Qed.

(** Only the pieces of the first text need to be free of NUL. *)
Lemma preimage_inj i1 i2 :
  ci_Epoch i1 ≠ 0%Z → Forall (λ p, no_char nul p = true) (pieces i1) →
  preimage i1 = preimage i2 →
  ci_Epoch i2 ≠ 0%Z ∧ pieces i1 = pieces i2 ∧ meta_bytes i1 = meta_bytes i2.
Proof.
  intros E1 H1 E. pose proof (preimage_not_legacy i1 i2 E1 E) as E2. split; [done|].
  destruct (preimage_split i1 E1) as (a1 & Ha1 & Ht1).
  destruct (preimage_split i2 E2) as (a2 & Ha2 & Ht2). rewrite Ha1, Ha2 in E.
  apply last_sep_inj in E as [-> E%meta_tail_inj]; [|apply no_nul_meta_tail..].
  split; [|done]. rewrite E in Ht1. apply (terminated_inj nul); [done..|congruence].
Qed.

(** ** Chains *)

(** What an entry says: its fields, the instant as hashed and the metadata up
    to the formatting of its JSON. *)
Definition content (e : AuditWriteLog) :=
  ((al_ID e, al_TenantID e, al_Actor e, al_Action e, al_ObjectKind e),
   Pagination.UnixNano (al_CreatedAt e),
   (al_FieldPath e, al_OldValue e, al_NewValue e, al_ConfigVersion e),
   normalizeJSON (slice_bytes (al_Metadata e)), (al_ChainEpoch e =? 0)%Z).
(** An entry with the full payload hashed, and no NUL byte in its texts. *)
Definition sealed (e : AuditWriteLog) : Prop :=
  al_ChainEpoch e ≠ 0%Z ∧
  Forall (λ t, no_char nul t = true)
    [al_ID e; al_TenantID e; al_Actor e; al_Action e; al_ObjectKind e;
     default "" (al_FieldPath e); default "" (al_OldValue e); default "" (al_NewValue e)].

Fixpoint linked (prev : string) (l : list AuditWriteLog) : Prop :=
  match l with
  | [] => True
  | e :: l => al_EntryHash e = ComputeEntryHash (entry_input prev e) ∧ linked (al_EntryHash e) l
  end.
(** The texts hashed by a verification. *)
Fixpoint hashed (prev : string) (l : list AuditWriteLog) : list string :=
  match l with [] => [] | e :: l => preimage (entry_input prev e) :: hashed (al_EntryHash e) l end.
(** The digest a chain ends in. *)
Definition head_of (prev : string) (l : list AuditWriteLog) : string :=
  foldl (λ _ e, al_EntryHash e) prev l.

(** Two different texts with one digest, one hashed for each chain. *)
Definition collision (l1 l2 : list AuditWriteLog) : Prop :=
  ∃ t1 t2, t1 ∈ hashed "" l1 ∧ t2 ∈ hashed "" l2 ∧ t1 ≠ t2 ∧ Sha256.Sum256_hex t1 = Sha256.Sum256_hex t2.

Lemma verify_entries_nil i prev l : verify_entries i prev l = [] ↔ linked prev l.
Proof.
  revert i prev. induction l as [|e l IH]; intros i prev; [done|]. cbn [verify_entries linked].
  case_bool_decide as He; simpl.
  - rewrite IH. naive_solver.
  - split; [done|naive_solver].
Qed.
Lemma VerifyChain_OK l t r : VerifyChain (Ok l) t = Ok r → vr_OK r = true ↔ linked "" l.
Proof.
  intros [= <-]. simpl. rewrite bool_decide_eq_true, length_zero_iff_nil. apply verify_entries_nil.
Qed.
Lemma head_of_snoc prev l e : head_of prev (l ++ [e]) = al_EntryHash e.
Proof. unfold head_of. by rewrite foldl_app. Qed.
Lemma linked_snoc prev l e :
  linked prev (l ++ [e]) ↔
  linked prev l ∧ al_EntryHash e = ComputeEntryHash (entry_input (head_of prev l) e).
Proof.
  revert prev. induction l as [|a l IH]; intros prev; cbn [app linked head_of foldl]; [tauto|].
  rewrite IH. unfold head_of. tauto.
Qed.
Lemma hashed_snoc prev l e :
  hashed prev (l ++ [e]) = hashed prev l ++ [preimage (entry_input (head_of prev l) e)].
Proof.
  revert prev. induction l as [|a l IH]; intros prev; [done|]. cbn [app hashed]. by rewrite IH.
Qed.
Lemma head_no_nul l : linked "" l → no_char nul (head_of "" l) = true.
Proof.
  destruct l as [|e l _] using rev_ind; [done|].
  rewrite linked_snoc, head_of_snoc. intros [_ ->]. by apply no_char_digest.
Qed.

Lemma no_nul_opt_piece s : no_char nul (default "" s) = true → no_char nul (opt_piece s) = true.
Proof. by destruct s. Qed.
Lemma opt_piece_inj s1 s2 : opt_piece s1 = opt_piece s2 → s1 = s2.
Proof.
  destruct s1 as [s1|], s2 as [s2|]; try done. intros E.
  assert (String soh s1 = String soh s2) as [= ->] by exact E. done.
Qed.
Lemma sealed_pieces prev e :
  no_char nul prev = true → sealed e → Forall (λ p, no_char nul p = true) (pieces (entry_input prev e)).
Proof.
  intros Hp [_ He]. repeat (apply Forall_cons in He as [? He]).
  unfold pieces, header_pieces, payload_pieces, entry_input. simpl.
  repeat constructor; try done; try by apply no_nul_opt_piece.
  - apply no_nul_time.
  - destruct (al_ConfigVersion e) as [v|]; [|done]. unfold opt_piece, no_char. simpl.
    by apply (no_char_itoa nul).
Qed.
Lemma pieces_content p1 p2 e1 e2 :
  al_ChainEpoch e1 ≠ 0%Z → al_ChainEpoch e2 ≠ 0%Z →
  pieces (entry_input p1 e1) = pieces (entry_input p2 e2) →
  meta_bytes (entry_input p1 e1) = meta_bytes (entry_input p2 e2) →
  p1 = p2 ∧ content e1 = content e2.
Proof.
  unfold pieces, header_pieces, time_piece, payload_pieces, meta_bytes, entry_input. simpl.
  intros H1%Z.eqb_neq H2%Z.eqb_neq Hp Hm. injection Hp as -> Ei Et Ea En Ek Ec Ef Eo Ew Ev.
  split; [done|]. unfold content. apply itoa_inj in Ec.
  apply opt_piece_inj in Ef, Eo, Ew, Ev.
  assert (al_ConfigVersion e1 = al_ConfigVersion e2) as ->.
  { destruct (al_ConfigVersion e1), (al_ConfigVersion e2); simplify_eq/=; [|done].
    f_equal. by apply itoa_inj. }
  congruence.
Qed.

(** One step of the comparison of two chains, from their ends. *)
Lemma same_digest p1 p2 e1 e2 :
  no_char nul p1 = true → sealed e1 →
  preimage (entry_input p1 e1) = preimage (entry_input p2 e2) →
  p1 = p2 ∧ content e1 = content e2.
Proof.
  intros Hp He E. pose proof He as [Hep _].
  apply preimage_inj in E as (Hep2 & Epp & Em); [|done|by apply sealed_pieces].
  by apply pieces_content.
Qed.

Lemma same_head_same_content l1 l2 :
  linked "" l1 → linked "" l2 → Forall sealed l1 → head_of "" l1 = head_of "" l2 →
  content <$> l1 = content <$> l2 ∨ collision l1 l2.
Proof.
  revert l2. induction l1 as [|e1 l1 IH] using rev_ind; intros l2.
  - destruct l2 as [|e2 l2 _] using rev_ind; [by left|]. rewrite linked_snoc, head_of_snoc.
    intros _ [_ He] _ E. exfalso. rewrite He in E. by apply (Sha256.Sum256_hex_nonempty _ (eq_sym E)).
  - destruct l2 as [|e2 l2 _] using rev_ind; rewrite !linked_snoc, !head_of_snoc.
    + intros [_ He] _ _ E. exfalso. rewrite He in E. by apply (Sha256.Sum256_hex_nonempty _ E).
    + intros [L1 H1] [L2 H2] [Hs He]%Forall_app E. apply Forall_inv in He.
      rewrite H1, H2 in E. unfold collision. rewrite !hashed_snoc, !fmap_app.
      destruct (decide (preimage (entry_input (head_of "" l1) e1) =
                        preimage (entry_input (head_of "" l2) e2))) as [Ep|Ep].
      * apply same_digest in Ep as [Eh Ec]; [|by apply head_no_nul|done].
        destruct (IH l2 L1 L2 Hs Eh) as [El|(t1 & t2 & ? & ? & ? & ?)]; [left|right].
        -- cbn [fmap list_fmap]. by rewrite El, Ec.
        -- exists t1, t2. rewrite !elem_of_app. tauto.
      * right. eexists _, _. split_and!; [| |exact Ep|exact E];
          apply elem_of_app; right; by apply list_elem_of_singleton.
Qed.

(** The position of a break is that of an entry whose digest is not its own. *)
Lemma elem_of_breaks i prev l k :
  (∃ b, b ∈ verify_entries i prev l ∧ cb_Position b = (i + k)%nat) ↔
  ∃ e, l !! k = Some e ∧
    al_EntryHash e ≠ ComputeEntryHash (entry_input (head_of prev (take k l)) e).
Proof.
  revert i prev k. induction l as [|e l IH]; intros i prev k; cbn [verify_entries].
  { split; [intros (b & Hb & _)|intros (e & He & _)]; set_solver. }
  destruct k as [|k]; cbn [lookup list_lookup take].
  - assert (∀ b, b ∈ verify_entries (S i) (al_EntryHash e) l → (i < cb_Position b)%nat) as Hlt.
    { clear. generalize (al_EntryHash e). assert (i < S i)%nat as Hi by lia. revert Hi.
      generalize (S i). induction l as [|e' l IH]; intros j Hj p b; cbn [verify_entries]; [set_solver|].
      rewrite elem_of_app. intros [Hb|Hb%IH]; [|lia..]. case_bool_decide; [set_solver|].
      apply list_elem_of_singleton in Hb as ->. simpl. lia. }
    rewrite Nat.add_0_r. unfold head_of. simpl. case_bool_decide as He; split.
    + intros (b & Hb & E). apply Hlt in Hb. lia.
    + naive_solver.
    + naive_solver.
    + intros _. eexists. split; [left|done].
  - specialize (IH (S i) (al_EntryHash e) k). unfold head_of in *. cbn [take foldl] in *.
    replace (S i + k)%nat with (i + S k)%nat in IH by lia. rewrite <-IH. split.
    + intros (b & [Hb|Hb]%elem_of_app & E); [|by exists b]. case_bool_decide; [set_solver|].
      apply list_elem_of_singleton in Hb as ->. simpl in E. lia.
    + intros (b & Hb & E). exists b. rewrite elem_of_app. auto.
Qed.
Lemma head_of_hashes prev l1 l2 :
  al_EntryHash <$> l1 = al_EntryHash <$> l2 → head_of prev l1 = head_of prev l2.
Proof.
  revert prev l2. induction l1 as [|e1 l1 IH]; intros prev [|e2 l2] E; try done.
  injection E as E1 E. unfold head_of in *. cbn [foldl]. rewrite E1. by apply IH.
Qed.
Lemma linked_lookup prev l k e :
  linked prev l → l !! k = Some e →
  al_EntryHash e = ComputeEntryHash (entry_input (head_of prev (take k l)) e)
  ∧ linked prev (take k l).
Proof.
  revert prev k. induction l as [|a l IH]; intros prev [|k]; try done.
  - intros [Ha _] [= ->]. done.
  - intros [Ha Hl] Hk. destruct (IH _ k Hl Hk) as [H1 H2]. done.
Qed.
Lemma hashed_lookup prev l k e :
  l !! k = Some e → preimage (entry_input (head_of prev (take k l)) e) ∈ hashed prev l.
Proof.
  revert prev k. induction l as [|a l IH]; intros prev [|k]; try done.
  - intros [= ->]. left.
  - intros Hk. right. by apply IH.
Qed.
Lemma preimage_content p e1 e2 :
  al_ChainEpoch e1 ≠ 0%Z → content e1 = content e2 →
  preimage (entry_input p e1) = preimage (entry_input p e2).
Proof.
  intros H1%Z.eqb_neq E. unfold content in E. rewrite H1 in E.
  injection E as E1 E2 E3 E4 E5 Et Ef Eo Ew Ev Em Ee.
  unfold preimage, entry_input. cbn -[Sha256.hex itoa slice_bytes].
  by rewrite H1, <-Ee, E1, E2, E3, E4, E5, Et, Ef, Eo, Ew, Ev, Em.
Qed.

(** An entry edited under its stored digest is reported at its position. *)
Lemma edit_reported l1 l2 k e1 e2 :
  linked "" l1 → Forall sealed l1 → al_EntryHash <$> l1 = al_EntryHash <$> l2 →
  l1 !! k = Some e1 → l2 !! k = Some e2 →
  (content e1 ≠ content e2 →
   (∃ b, b ∈ verify_entries 0 "" l2 ∧ cb_Position b = k) ∨ collision l1 l2)
  ∧ (content e1 = content e2 → ¬ ∃ b, b ∈ verify_entries 0 "" l2 ∧ cb_Position b = k).
Proof.
  intros L1 Hs Eh H1 H2. destruct (linked_lookup _ _ _ _ L1 H1) as [D1 Lk].
  assert (head_of "" (take k l1) = head_of "" (take k l2)) as Ep.
  { apply head_of_hashes. by rewrite !fmap_take, Eh. }
  assert (al_EntryHash e1 = al_EntryHash e2) as Ee.
  { assert ((al_EntryHash <$> l1) !! k = (al_EntryHash <$> l2) !! k) as E by congruence.
    rewrite !list_lookup_fmap, H1, H2 in E. by injection E. }
  assert (sealed e1) as S1 by (by eapply Forall_lookup_1).
  pose proof (elem_of_breaks 0 "" l2 k) as Hb. simpl in Hb. rewrite Hb. split.
  - intros Hc. destruct (decide (al_EntryHash e2 =
      ComputeEntryHash (entry_input (head_of "" (take k l2)) e2))) as [D2|D2]; [right|left; eauto].
    eexists _, _. split_and!; [by eapply hashed_lookup|by eapply hashed_lookup| |].
    + intros E. apply same_digest in E as [_ Ec]; [done|by apply head_no_nul|done].
    + change (ComputeEntryHash (entry_input (head_of "" (take k l1)) e1) =
              ComputeEntryHash (entry_input (head_of "" (take k l2)) e2)). congruence.
  - intros Hc (e & He & Hd). assert (e = e2) as -> by congruence. apply Hd.
    unfold ComputeEntryHash. rewrite <-Ep, <-(preimage_content _ e1 e2); [|apply S1|done].
    by rewrite <-Ee.
Qed.

(** C14: The audit chain is tamper evident. Take a log [l1] whose entries hash
    their full payload and whose texts have no NUL byte, and which verifies.
    If any other list of entries [l2], whatever its texts, its epochs and its
    length, also verifies and ends in the same digest, then it says the same,
    entry by entry, or the two verifications exhibit a SHA-256 collision. If
    [l2] is [l1] with fields edited under the stored digests, the verification
    reports a break at every edited position, or exhibits a collision, and at
    no other position. *)
Theorem tamper_evident l1 tenant r1 :
  Forall sealed l1 → VerifyChain (Ok l1) tenant = Ok r1 → vr_OK r1 = true →
  (∀ l2 r2, VerifyChain (Ok l2) tenant = Ok r2 → vr_OK r2 = true →
    head_of "" l1 = head_of "" l2 → content <$> l1 = content <$> l2 ∨ collision l1 l2)
  ∧ (∀ l2 r2 k e1 e2, VerifyChain (Ok l2) tenant = Ok r2 →
    al_EntryHash <$> l1 = al_EntryHash <$> l2 → l1 !! k = Some e1 → l2 !! k = Some e2 →
    (content e1 ≠ content e2 → (∃ b, b ∈ vr_Breaks r2 ∧ cb_Position b = k) ∨ collision l1 l2)
    ∧ (content e1 = content e2 → ¬ ∃ b, b ∈ vr_Breaks r2 ∧ cb_Position b = k)).
Proof.
  intros Hs V1 O1. apply (VerifyChain_OK _ _ _ V1) in O1. split.
  - intros l2 r2 V2 O2 Eh. apply (VerifyChain_OK _ _ _ V2) in O2. by apply same_head_same_content.
  - intros l2 r2 k e1 e2 [= <-] Eh H1 H2. by apply (edit_reported l1 l2 k e1 e2).
Qed.

(** ** Reordering by links *)
Lemma by_prev_snoc l e : by_prev (l ++ [e]) = <[al_PreviousHash e := e]> (by_prev l).
Proof. unfold by_prev. by rewrite foldl_app. Qed.
Lemma by_prev_Some l h e : by_prev l !! h = Some e → e ∈ l ∧ al_PreviousHash e = h.
Proof.
  induction l as [|a l IH] using rev_ind; [done|]. rewrite by_prev_snoc, lookup_insert_Some, elem_of_app.
  intros [[<- <-]|[_ [??]%IH]]; [|tauto]. split; [right; by apply list_elem_of_singleton|done].
Qed.
Lemma by_prev_elem l e :
  NoDup (al_PreviousHash <$> l) → e ∈ l → by_prev l !! al_PreviousHash e = Some e.
Proof.
  induction l as [|a l IH] using rev_ind; [set_solver|].
  rewrite by_prev_snoc, fmap_app, NoDup_app. intros (Hl & Hd & _) [He|He]%elem_of_app.
  - rewrite lookup_insert_ne; [by apply IH|]. intros E. apply (Hd (al_PreviousHash e)); [set_solver|].
    cbn. rewrite E. by apply list_elem_of_singleton.
  - apply list_elem_of_singleton in He as ->. by rewrite lookup_insert_eq.
Qed.


(** The loop ends within as many rounds as there are entries, with some of
    them, each once. *)
Lemma follow_total entries fuel seen ordered current :
  (length ordered + fuel)%nat = length entries →
  seen = list_to_set (al_EntryHash <$> ordered) → NoDup (al_EntryHash <$> ordered) →
  ordered ⊆ entries → current ∈ entries →
  ∃ r, follow fuel (by_prev entries) seen ordered current = Some r ∧ NoDup r ∧ r ⊆ entries.
Proof.
  revert seen ordered current. induction fuel as [|fuel IH]; intros seen ordered current Hl -> Hn Ho Hc;
    cbn [follow]; case_bool_decide as Hs.
  1, 3: exists ordered; split_and!; [done|by eapply NoDup_fmap_1|done].
  all: rewrite elem_of_list_to_set in Hs.
  all: assert (NoDup (al_EntryHash <$> ordered ++ [current])) as Hn'.
  1, 3: (rewrite fmap_app; apply NoDup_app; split_and!; [done| |apply NoDup_singleton];
    intros h Hh E%list_elem_of_singleton; by subst).
  all: assert (ordered ++ [current] ⊆ entries) as Ho'.
  1, 3: (intros x [?|E%list_elem_of_singleton]%elem_of_app; [by apply Ho|by subst]).
  - exfalso. assert (ordered ++ [current] ⊆+ entries) as Hsub.
    { apply NoDup_submseteq; [by eapply NoDup_fmap_1|done]. }
    apply submseteq_length in Hsub. rewrite length_app in Hsub. simpl in Hsub. lia.
  - destruct (by_prev entries !! al_EntryHash current) as [next|] eqn:E.
    + apply by_prev_Some in E as [? _]. apply IH; try done.
      * rewrite length_app. simpl. lia.
      * rewrite fmap_app, list_to_set_app_L. simpl. set_solver.
    + eexists. split_and!; [done|by eapply NoDup_fmap_1|done].
Qed.

Lemma sortByChain_perm l : ∃ r, sortByChain l = Some r ∧ r ≡ₚ l.
Proof.
  unfold sortByChain. case_bool_decide; [by exists l|].
  destruct (by_prev l !! "") as [root|] eqn:Hr; [|by exists l].
  apply by_prev_Some in Hr as [Hr _].
  destruct (follow_total l (length l) ∅ [] root) as (r & Er & Hn & Hsub); [done|done|constructor| |done|].
  { intros x Hx. by apply not_elem_of_nil in Hx. }
  rewrite Er. simpl. eexists. split; [done|]. case_bool_decide as Hl; [|done].
  apply submseteq_length_Permutation; [by apply NoDup_submseteq|lia].
Qed.

(** The entries of [l] are linked by [previous_hash], from the root on. *)
Fixpoint chained (prev : string) (l : list AuditWriteLog) : Prop :=
  match l with [] => True | e :: l => al_PreviousHash e = prev ∧ chained (al_EntryHash e) l end.

Lemma chained_prevs prev l :
  chained prev l → al_PreviousHash <$> l = take (length l) (prev :: (al_EntryHash <$> l)).
Proof.
  revert prev. induction l as [|e l IH]; intros prev; [done|]. intros [<- Hl].
  cbn [fmap list_fmap length take]. f_equal. rewrite (IH _ Hl). done.
Qed.
Lemma chained_next prev done_ e n rest :
  chained prev (done_ ++ e :: n :: rest) → al_PreviousHash n = al_EntryHash e.
Proof. revert prev. induction done_ as [|a d IH]; intros prev; [intros (_ & ? & _)|intros [_ ?]]; eauto. Qed.
Lemma chained_NoDup l :
  chained "" l → NoDup ("" :: (al_EntryHash <$> l)) → NoDup (al_PreviousHash <$> l).
Proof.
  intros Hc Hn. rewrite (chained_prevs _ _ Hc).
  eapply sublist_NoDup; [done|apply sublist_take].
Qed.
(** Nothing follows the last entry. *)
Lemma chained_last d e x :
  chained "" (d ++ [e]) → NoDup ("" :: (al_EntryHash <$> d ++ [e])) →
  x ∈ d ++ [e] → al_PreviousHash x ≠ al_EntryHash e.
Proof.
  intros Hc Hn Hx E. pose proof (chained_prevs _ _ Hc) as Hp.
  assert (al_EntryHash e ∈ al_PreviousHash <$> (d ++ [e])) as Hi.
  { rewrite <-E. by apply list_elem_of_fmap_2. }
  rewrite Hp, length_app, fmap_app, Nat.add_1_r in Hi. cbn [length take fmap list_fmap] in Hi.
  rewrite take_app_length' in Hi by (by rewrite length_fmap).
  rewrite fmap_app in Hn. change ("" :: (al_EntryHash <$> d) ++ (al_EntryHash <$> [e]))
    with (("" :: (al_EntryHash <$> d)) ++ [al_EntryHash e]) in Hn.
  apply NoDup_app in Hn as (_ & Hd & _). apply (Hd _ Hi). by apply list_elem_of_singleton.
Qed.

Lemma follow_chain l l' d e rest fuel :
  l = d ++ e :: rest → chained "" l → NoDup ("" :: (al_EntryHash <$> l)) → l' ≡ₚ l →
  (length (e :: rest) ≤ fuel)%nat →
  follow fuel (by_prev l') (list_to_set (al_EntryHash <$> d)) d e = Some l.
Proof.
  revert d e fuel. induction rest as [|n rest IH]; intros d e [|fuel] El Hc Hn Hp Hf; simpl in Hf; try lia;
    cbn [follow].
  all: assert (al_EntryHash e ∉ al_EntryHash <$> d) as He.
  1, 3: (apply NoDup_cons in Hn as [_ Hn]; rewrite El, fmap_app in Hn;
    apply NoDup_app in Hn as (_ & Hd & _); intros Hin; apply (Hd _ Hin); left).
  all: rewrite bool_decide_eq_false_2 by (by rewrite elem_of_list_to_set).
  - destruct (by_prev l' !! al_EntryHash e) as [x|] eqn:Ex; [|by rewrite El].
    apply by_prev_Some in Ex as [Hx Ex]. exfalso. subst l.
    apply (chained_last d e x); [done..| |done]. by rewrite <-Hp.
  - assert (al_PreviousHash n = al_EntryHash e) as Enx by (subst l; by eapply chained_next).
    rewrite <-Enx, by_prev_elem.
    + rewrite Enx. replace ({[al_EntryHash e]} ∪ list_to_set (al_EntryHash <$> d) : gset string)
        with (list_to_set (al_EntryHash <$> (d ++ [e])) : gset string).
      * apply IH; [by rewrite El, <-app_assoc|done..|simpl; lia].
      * rewrite fmap_app, list_to_set_app_L. cbn [fmap list_fmap list_to_set]. set_solver.
    + rewrite (fmap_Permutation _ _ _ Hp). by apply chained_NoDup.
    + rewrite Hp, El. apply elem_of_app. right. right. left.
Qed.

Lemma sortByChain_restores l l' :
  chained "" l → NoDup ("" :: (al_EntryHash <$> l)) → l' ≡ₚ l → sortByChain l' = Some l.
Proof.
  intros Hc Hn Hp. unfold sortByChain. pose proof (Permutation_length Hp) as Hl.
  case_bool_decide as Hs.
  { destruct l as [|e [|? ?]]; simpl in Hl; [by apply Permutation_nil_r in Hp as ->| |lia].
    by apply Permutation_singleton_r in Hp as ->. }
  destruct l as [|e rest]; [simpl in Hl; lia|].
  assert (by_prev l' !! "" = Some e) as ->.
  { pose proof Hc as [<- _]. apply by_prev_elem; [|rewrite Hp; left].
    rewrite (fmap_Permutation _ _ _ Hp). by apply chained_NoDup. }
  pose proof (follow_chain (e :: rest) l' [] e rest (length l') eq_refl Hc Hn Hp) as Hf.
  simpl in Hf. rewrite Hf by (by rewrite Hl). simpl. by rewrite bool_decide_eq_true_2.
Qed.
