(* ===== verification/Convert.v ===== *)
(** * Typed values and their stored text ([internal/config/convert.go],
    [redact.go], [diff.go]) *)
From S2P Require Import Prelude GoText GoFloat GoTime Domain.

Module Convert.

(** xxhash (github.com/cespare/xxhash): a 64-bit hash of a string. *)
Class XXHash := Sum64String : string → Z.

Definition computeChecksum `{XXHash} (value : string) : string :=
  FormatUint (Sum64String value) 16.

Definition checksumPtr `{XXHash} (value : option string) : option string :=
  match value with
  | None => None
  | Some v => Some (computeChecksum v)
  end.

(** [None] is the nil pointer. *)
Definition ptrString (s : string) : option string :=
  if bool_decide (s = "") then None else Some s.
Definition strPtr (s : string) : option string := Some s.
Definition derefString (s : option string) : string := default "" s.

(** ** Protobuf well-known types *)
Record Timestamp := { ts_Seconds : Z; ts_Nanos : Z }.
Record Duration := { du_Seconds : Z; du_Nanos : Z }.

Definition AsTime (t : Timestamp) : Z := (ts_Seconds t * Second + ts_Nanos t)%Z.
Definition timestamppb_New (t : Z) : Timestamp :=
  {| ts_Seconds := (t `div` Second)%Z; ts_Nanos := (t `mod` Second)%Z |}.

(** [AsDuration]: 64-bit arithmetic with its overflow test; on overflow the
    bound on the side of the seconds' sign. *)
Definition AsDuration (d : Duration) : Z :=
  let secs := du_Seconds d in
  let nanos := du_Nanos d in
  let d0 := int64 (secs * Second) in
  let d1 := int64 (d0 + nanos) in
  let overflow :=
    negb (Z.quot d0 Second =? secs)%Z
    || ((secs <? 0) && (nanos <? 0) && (0 <? d1))%Z
    || ((0 <? secs) && (0 <? nanos) && (d1 <? 0))%Z in
  if overflow && (secs <? 0)%Z then min_int64
  else if overflow && (0 <? secs)%Z then max_int64
  else d1.
Definition durationpb_New (d : Z) : Duration :=
  {| du_Seconds := Z.quot d Second; du_Nanos := Z.rem d Second |}.

(** ** TypedValue: the oneof of the proto message *)
Inductive Kind :=
| IntegerValue (v : Z)
| NumberValue (v : float64)
| StringValue (v : string)
| BoolValue (v : bool)
| TimeValue (v : option Timestamp)
| DurationValue (v : option Duration)
| UrlValue (v : string)
| JsonValue (v : string).

(** A [*pb.TypedValue]: nil, or a message whose oneof may be unset. *)
Abbreviation TypedValue := (option Kind).

Definition typedValueToString (tv : option TypedValue) : option string :=
  match tv with
  | None => None
  | Some None => None
  | Some (Some k) =>
      Some match k with
           | IntegerValue v => FormatInt v 10
           | NumberValue v => FormatFloat v
           | StringValue v => v
           | BoolValue v => FormatBool v
           | TimeValue v =>
               match v with Some t => FormatRFC3339Nano (AsTime t) | None => "" end
           | DurationValue v =>
               match v with Some d => Duration_String (AsDuration d) | None => "" end
           | UrlValue v => v
           | JsonValue v => v
           end
  end.

Definition stringToTypedValue (s : option string) (ft : FieldType) : option TypedValue :=
  match s with
  | None => None
  | Some s =>
      Some (Some
        match ft with
        | FieldTypeInteger => IntegerValue (ParseInt s 64).1
        | FieldTypeNumber => NumberValue (ParseFloat s).1
        | FieldTypeString => StringValue s
        | FieldTypeBool => BoolValue (ParseBool s).1
        | FieldTypeTime =>
            TimeValue (Some (timestamppb_New (default zero_time (ParseRFC3339Nano s))))
        | FieldTypeDuration =>
            DurationValue (Some (durationpb_New (default 0%Z (ParseDuration s))))
        | FieldTypeURL => UrlValue s
        | FieldTypeJSON => JsonValue s
        | FieldTypeOther _ => StringValue s
        end)
  end.

Definition typedValueToDisplayString (tv : option TypedValue) : string :=
  match typedValueToString tv with
  | None => ""
  | Some s => s
  end.

(** ** Redaction *)
Definition redactedSentinel : string := "[REDACTED]".
Definition redactIfSensitive (sensitive : bool) (value : string) : string :=
  if sensitive then redactedSentinel else value.

(** ** Config versions on the wire *)
Record pbConfigVersion := {
  pcv_Id : string; pcv_TenantId : string; pcv_Version : Z; pcv_Description : string;
  pcv_CreatedBy : string; pcv_CreatedAt : Timestamp }.

Definition configVersionToProto (v : ConfigVersion) : pbConfigVersion :=
  {| pcv_Id := cv_ID v; pcv_TenantId := cv_TenantID v; pcv_Version := cv_Version v;
     pcv_Description := match cv_Description v with Some d => d | None => "" end;
     pcv_CreatedBy := cv_CreatedBy v; pcv_CreatedAt := timestamppb_New (cv_CreatedAt v) |}.

(** ** Differences between two snapshots *)
Inductive ChangeType := CHANGE_TYPE_ADDED | CHANGE_TYPE_REMOVED | CHANGE_TYPE_MODIFIED.
Record FieldDiff := {
  fd_FieldPath : string; fd_ChangeType : ChangeType; fd_OldValue : string; fd_NewValue : string }.

Section diff.
Context `{MapRange}.

(** The key set of both maps, in the order the set is ranged in, sorted. *)
Definition diff_paths (old updated : gmap string string) : list string :=
  let paths : gmap string unit :=
    foldl (λ m p, <[p := tt]> m)
      (foldl (λ m p, <[p := tt]> m) ∅ (map_range old).*1) (map_range updated).*1 in
  merge_sort String.le (map_range paths).*1.

Definition diff_entry (old updated : gmap string string) (p : string) : option FieldDiff :=
  match old !! p, updated !! p with
  | Some o, None =>
      Some {| fd_FieldPath := p; fd_ChangeType := CHANGE_TYPE_REMOVED;
              fd_OldValue := o; fd_NewValue := "" |}
  | None, Some n =>
      Some {| fd_FieldPath := p; fd_ChangeType := CHANGE_TYPE_ADDED;
              fd_OldValue := ""; fd_NewValue := n |}
  | Some o, Some n =>
      if bool_decide (o = n) then None
      else Some {| fd_FieldPath := p; fd_ChangeType := CHANGE_TYPE_MODIFIED;
                   fd_OldValue := o; fd_NewValue := n |}
  | None, None => None
  end.

Definition diffConfigMaps (old updated : gmap string string) : list FieldDiff :=
  omap (diff_entry old updated) (diff_paths old updated).
End diff.

(** ** Properties *)

(** Applying a list of differences to a snapshot. *)
Definition apply_diff (m : gmap string string) (d : FieldDiff) : gmap string string :=
  match fd_ChangeType d with
  | CHANGE_TYPE_REMOVED => delete (fd_FieldPath d) m
  | _ => <[fd_FieldPath d := fd_NewValue d]> m
  end.

(** What an entry of a diff says about the two snapshots. *)
Definition diff_accurate (old updated : gmap string string) (d : FieldDiff) : Prop :=
  match fd_ChangeType d with
  | CHANGE_TYPE_ADDED =>
      old !! fd_FieldPath d = None ∧ updated !! fd_FieldPath d = Some (fd_NewValue d)
  | CHANGE_TYPE_REMOVED =>
      old !! fd_FieldPath d = Some (fd_OldValue d) ∧ updated !! fd_FieldPath d = None
  | CHANGE_TYPE_MODIFIED =>
      old !! fd_FieldPath d = Some (fd_OldValue d)
      ∧ updated !! fd_FieldPath d = Some (fd_NewValue d)
      ∧ fd_OldValue d ≠ fd_NewValue d
  end.

Section diff_facts.
Context `{MapRangeOk}.
Implicit Types old updated : gmap string string.

Lemma insert_all_lookup (l : list string) (m : gmap string unit) p :
  is_Some (foldl (λ m p, <[p := tt]> m) m l !! p) ↔ p ∈ l ∨ is_Some (m !! p).
Proof.
  revert m. induction l as [|q l IH]; intros m; simpl.
  - set_solver.
  - rewrite IH. destruct (decide (q = p)) as [->|Hne].
    + rewrite lookup_insert_eq. set_solver.
    + rewrite lookup_insert_ne by done. set_solver.
Qed.

Lemma elem_of_fst_map_range {A} (m : gmap string A) p :
  p ∈ (map_range m).*1 ↔ is_Some (m !! p).
Proof.
  rewrite list_elem_of_fmap. split.
  - intros ([q x] & -> & Hq). exists x. by apply elem_of_map_range.
  - intros [x Hx]. exists (p, x). split; [done|]. by apply elem_of_map_range.
Qed.

Lemma elem_of_diff_paths old updated p :
  p ∈ diff_paths old updated ↔ is_Some (old !! p) ∨ is_Some (updated !! p).
Proof.
  unfold diff_paths. rewrite merge_sort_Permutation, elem_of_fst_map_range.
  rewrite !insert_all_lookup, !elem_of_fst_map_range, lookup_empty.
  split; [intros [?|[?|[? ?]]]|intros [?|?]]; auto; done.
Qed.

Lemma NoDup_diff_paths old updated : NoDup (diff_paths old updated).
Proof. unfold diff_paths. rewrite merge_sort_Permutation. apply NoDup_fst_map_range. Qed.

Lemma diff_paths_sorted old updated : StronglySorted String.le (diff_paths old updated).
Proof. apply (StronglySorted_merge_sort String.le). Qed.

Lemma diff_entry_path old updated p d : diff_entry old updated p = Some d → fd_FieldPath d = p.
Proof. unfold diff_entry. intros. repeat (case_match; simplify_eq/=; try done). Qed.

Lemma diff_entry_accurate old updated p d :
  diff_entry old updated p = Some d → diff_accurate old updated d.
Proof.
  unfold diff_entry, diff_accurate. intros E.
  destruct (old !! p) eqn:Ho, (updated !! p) eqn:Hu; simplify_eq/=; try done.
  case_bool_decide; simplify_eq/=. done.
Qed.

Lemma diff_entry_None old updated p :
  diff_entry old updated p = None ↔ old !! p = updated !! p.
Proof.
  unfold diff_entry. destruct (old !! p), (updated !! p); try done.
  case_bool_decide; naive_solver.
Qed.

Lemma elem_of_diff old updated d :
  d ∈ diffConfigMaps old updated ↔ diff_entry old updated (fd_FieldPath d) = Some d.
Proof.
  unfold diffConfigMaps. rewrite list_elem_of_omap. split.
  - intros (p & _ & Hd). by rewrite (diff_entry_path _ _ _ _ Hd).
  - intros Hd. exists (fd_FieldPath d). split; [|done]. apply elem_of_diff_paths.
    unfold diff_entry in Hd. destruct (old !! _), (updated !! _); naive_solver.
Qed.

Lemma diff_paths_sublist old updated (l : list string) :
  fd_FieldPath <$> omap (diff_entry old updated) l `sublist_of` l.
Proof.
  induction l as [|p l IH]; csimpl; [done|].
  destruct (diff_entry old updated p) as [d|] eqn:Hd; csimpl.
  - rewrite (diff_entry_path _ _ _ _ Hd). by constructor.
  - by constructor.
Qed.

Lemma apply_diff_lookup old updated (l : list string) m p :
  NoDup l → (∀ q, q ∈ l → m !! q = old !! q) →
  foldl apply_diff m (omap (diff_entry old updated) l) !! p
  = if decide (p ∈ l) then updated !! p else m !! p.
Proof.
  revert m. induction l as [|q l IH]; intros m Hnd Hm; [done|].
  apply NoDup_cons in Hnd as [Hq Hnd]. csimpl.
  destruct (diff_entry old updated q) as [d|] eqn:Hd; csimpl.
  - pose proof (diff_entry_path _ _ _ _ Hd) as Hp.
    assert (∀ r, apply_diff m d !! r = if decide (r = q) then updated !! q else m !! r) as Hl.
    { intros r. apply diff_entry_accurate in Hd. unfold diff_accurate, apply_diff in *.
      rewrite Hp in *.
      destruct (fd_ChangeType d), (decide (r = q)) as [->|];
        first [rewrite lookup_insert_eq | rewrite lookup_delete_eq
              |rewrite lookup_insert_ne by done | rewrite lookup_delete_ne by done];
        naive_solver. }
    rewrite IH; [|done|].
    + rewrite Hl. repeat case_decide; subst; set_solver.
    + intros r Hr. rewrite Hl, decide_False by (by intros ->). apply Hm. by right.
  - apply diff_entry_None in Hd. rewrite IH; [|done|intros; apply Hm; by right].
    destruct (decide (p ∈ l)), (decide (p ∈ q :: l)); try set_solver.
    assert (p = q) as -> by set_solver. rewrite Hm by by left. done.
Qed.
End diff_facts.

(** The diff between two snapshots is exact: applied to the old snapshot
    it gives the new one, every entry tells the truth about both, the paths
    listed are exactly those whose values differ, each once, in byte order,
    and the result does not depend on the order the maps are ranged in. *)
Lemma diff_exact `{MapRangeOk} (old updated : gmap string string) :
  let ds := diffConfigMaps old updated in
  foldl apply_diff old ds = updated
  ∧ Forall (diff_accurate old updated) ds
  ∧ (∀ p, p ∈ fd_FieldPath <$> ds ↔ old !! p ≠ updated !! p)
  ∧ StronglySorted String.le (fd_FieldPath <$> ds) ∧ NoDup (fd_FieldPath <$> ds)
  ∧ ∀ (r : MapRange) (_ : @MapRangeOk r), @diffConfigMaps r old updated = ds.
Proof.
  simpl. split_and!.
  - apply map_eq. intros p. unfold diffConfigMaps.
    rewrite apply_diff_lookup; [|apply NoDup_diff_paths|done].
    case_decide as Hp; [done|]. rewrite elem_of_diff_paths in Hp.
    destruct (old !! p), (updated !! p); try done; exfalso; apply Hp; eauto.
  - apply Forall_forall. intros d Hd%elem_of_diff. by eapply diff_entry_accurate.
  - intros p. rewrite list_elem_of_fmap. split.
    + intros (d & -> & Hd%elem_of_diff) He. apply diff_entry_None in He. congruence.
    + intros Hne. destruct (diff_entry old updated p) as [d|] eqn:Hd.
      * pose proof (diff_entry_path _ _ _ _ Hd) as <-. exists d. split; [done|].
        by apply elem_of_diff.
      * by apply diff_entry_None in Hd.
  - eapply sublist_StronglySorted; [apply diff_paths_sorted|apply diff_paths_sublist].
  - eapply sublist_NoDup; [|apply diff_paths_sublist]. apply NoDup_diff_paths.
  - intros r Hr. unfold diffConfigMaps. f_equal.
    apply (StronglySorted_unique String.le);
      [apply (StronglySorted_merge_sort String.le)..|].
    apply NoDup_Permutation; [apply (@NoDup_diff_paths r Hr)|apply NoDup_diff_paths|].
    intros p. etrans; [apply (@elem_of_diff_paths r Hr)|symmetry; apply elem_of_diff_paths].
Qed.

(** *** Storing a typed value and reading it back *)

(** The values that the text form keeps: what a field of the given type may
    hold. *)
Inductive storable : FieldType → Kind → Prop :=
| storable_int v : (min_int64 ≤ v ≤ max_int64)%Z → storable FieldTypeInteger (IntegerValue v)
| storable_string v : storable FieldTypeString (StringValue v)
| storable_bool v : storable FieldTypeBool (BoolValue v)
| storable_url v : storable FieldTypeURL (UrlValue v)
| storable_json v : storable FieldTypeJSON (JsonValue v).

(** A value written to a field and read back with the field's type is the
    same value: integers of the full 64-bit range, strings, booleans, URLs and
    JSON texts survive the text form they are stored in. *)
Lemma typed_value_roundtrip (ft : FieldType) (k : Kind) :
  storable ft k →
  stringToTypedValue (typedValueToString (Some (Some k))) ft = Some (Some k).
Proof.
  intros [v Hv|v|v|v|v]; simpl; try done.
  - rewrite ParseInt_FormatInt; [done|lia|unfold min_int64, max_int64 in *; lia].
  - by rewrite ParseBool_FormatBool.
Qed.

End Convert.
