(* ===== verification/Validation.v ===== *)
(** * Field validators ([internal/validation])

    [validator.go] builds a list of checks from a field's type and constraints
    and runs them in order; [json_schema.go] compiles a JSON Schema under
    limits; [limits.go] is the options. What the checks call outside the
    program is a parameter: RE2 ([Regexp]), the JSON Schema library
    ([JsonSchema]), and of [net/url] the parsing of what follows the scheme
    ([UrlRest]). Logging and metrics are left out. *)
From S2P Require Import Prelude GoText GoFloat GoTime Domain Json Convert.
From Stdlib Require Import Ascii.
Import Convert.

(** ** What the checks call *)

(** [regexp.Compile] and, on its result, [MatchString]. *)
Class Regexp := regexp_Compile : string → result error (string → bool).

(** github.com/santhosh-tekuri/jsonschema: documents, schemas, and the calls
    the validator makes. *)
Class JsonSchema := {
  js_doc : Type;
  js_schema : Type;
  js_UnmarshalJSON : string → result error js_doc;
  js_AddResource : js_doc → result error unit;
  js_Compile : js_doc → result error js_schema;
  js_Validate : js_schema → js_doc → result error unit
}.

(** Which of two ready cases a [select] takes: whether the compilation of a
    schema ends before the timer. *)
Class CompileRace := compile_in_time : string → bool.

(** The host of a URL from its scheme and the part after it (authority, path,
    query, fragment); [None] when that part is not well formed, which [net/url]
    reports as an error. *)
Class UrlRest := url_host : string → string → option string.

(** ** [net/url]: the scheme *)
Module Url.
Definition is_alpha (c : ascii) : bool :=
  let z := byte_val c in ((97 <=? z) && (z <=? 122) || (65 <=? z) && (z <=? 90))%Z.
Definition is_scheme_rest (c : ascii) : bool :=
  is_digit c || bool_decide (c = "+"%char) || bool_decide (c = "-"%char) || bool_decide (c = "."%char).

(** [getScheme]: the scheme before the first colon and what follows, no scheme
    when another character comes first; [None] for a leading colon. *)
Fixpoint getScheme_go (acc rest : string) (first : bool) (whole : string) :
    option (string * string) :=
  match rest with
  | "" => Some ("", whole)
  | String c rest =>
      if is_alpha c then getScheme_go (acc +:+ String c "") rest false whole
      else if is_scheme_rest c then
        if first then Some ("", whole) else getScheme_go (acc +:+ String c "") rest false whole
      else if bool_decide (c = ":"%char) then
        if first then None else Some (acc, rest)
      else Some ("", whole)
  end.
Definition getScheme (rawURL : string) : option (string * string) :=
  getScheme_go "" rawURL true rawURL.

Definition no_ctl (s : string) : bool :=
  all_bytes (λ c, negb ((byte_val c <? 32) || (byte_val c =? 127))%Z) s.

(** [url.Parse], of whose result scheme and host are read: [None] is an error.
    The fragment is cut off first. *)
Definition Parse `{UrlRest} (rawURL : string) : option (string * string) :=
  let '(u, frag) := match cut_char "#"%char rawURL with Some p => p | None => (rawURL, "") end in
  if negb (no_ctl u) then None
  else
    match getScheme u with
    | None => None
    | Some (scheme, rest) =>
        let scheme := lower_string scheme in
        host ← url_host scheme (if bool_decide (frag = "") then rest else rest +:+ "#" +:+ frag);
        Some (scheme, host)
    end.
End Url.

(** ** Limits and options *)
Module Validation.

Record Limits := {
  CompileTimeout : Z; MaxDepth : Z; MaxConcurrentCompiles : Z; RegexMaxLength : Z }.
Definition DefaultLimits : Limits :=
  {| CompileTimeout := 5 * Second; MaxDepth := 64; MaxConcurrentCompiles := 32;
     RegexMaxLength := 1024 |}.

(** [pb.FieldConstraints]; nil pointers are [None]. *)
Record FieldConstraints := mkConstraints {
  Min : option float64; Max : option float64; Regex : option string; EnumValues : list string;
  JsonSchemaDoc : option string; ExclusiveMin : option float64; ExclusiveMax : option float64;
  MinLength : option Z; MaxLength : option Z; AllowedSchemes : list string }.
Definition no_constraints : FieldConstraints :=
  mkConstraints None None None [] None None None None None [].

(** [compileSem] is the capacity of the channel made for these options. *)
Record options := mkOptions {
  limits : Limits; compileSem : option Z; o_nullable : bool; o_sensitive : bool;
  constraints : option FieldConstraints }.
Definition Option := options → options.
Definition WithLimits (l : Limits) : Option := λ o,
  mkOptions l (if (0 <? MaxConcurrentCompiles l)%Z then Some (MaxConcurrentCompiles l) else None)
    (o_nullable o) (o_sensitive o) (constraints o).
Definition WithNullable : Option := λ o,
  mkOptions (limits o) (compileSem o) true (o_sensitive o) (constraints o).
Definition WithSensitive : Option := λ o,
  mkOptions (limits o) (compileSem o) (o_nullable o) true (constraints o).
Definition WithConstraints (c : FieldConstraints) : Option := λ o,
  mkOptions (limits o) (compileSem o) (o_nullable o) (o_sensitive o) (Some c).
Definition resolveOptions (opts : list Option) : options :=
  foldl (λ o opt, opt o)
    (mkOptions DefaultLimits (Some (MaxConcurrentCompiles DefaultLimits)) false false None) opts.

(** ** JSON Schema *)
Definition depth_error (max : Z) : error :=
  Errorf "compile json schema: nesting depth exceeds limit of %d" [AInt max].

(** [checkDepth]: the children are visited in any order, and all of them give
    the same error. *)
Fixpoint checkDepth (v : Json.json) (depth max : Z) : result error unit :=
  if (max <? depth)%Z then Err (depth_error max)
  else
    let children := fix go (l : list Json.json) : result error unit :=
      match l with
      | [] => Ok tt
      | x :: l => let? _ := checkDepth x (depth + 1) max in go l
      end in
    let members := fix go (l : list (string * Json.json)) : result error unit :=
      match l with
      | [] => Ok tt
      | (_, x) :: l => let? _ := checkDepth x (depth + 1) max in go l
      end in
    match v with
    | Json.JObj l => members l
    | Json.JArr l => children l
    | _ => Ok tt
    end.

Definition scanJSONDepth (doc : string) (maxDepth : Z) : result error unit :=
  match Json.parse doc with
  | None => Ok tt
  | Some v => checkDepth v 0 maxDepth
  end.

Section checks.
Context `{Regexp, JsonSchema, CompileRace, UrlRest}.

Definition timeout_error (l : Limits) : error :=
  Errorf "compile json schema: timeout after %s" [AStr (Duration_String (CompileTimeout l))].

(** The goroutine that compiles. *)
Definition compile_doc (schemaDoc : string) : result error js_schema :=
  match js_UnmarshalJSON schemaDoc with
  | Err e => Err (Wrap "invalid json schema" e)
  | Ok doc =>
      match js_AddResource doc with
      | Err e => Err (Wrap "add json schema resource" e)
      | Ok _ =>
          match js_Compile doc with
          | Err e => Err (Wrap "compile json schema" e)
          | Ok schema => Ok schema
          end
      end
  end.

(** The semaphore is the options' own: nobody else holds a slot of it, so the
    first [select] never waits. *)
Definition newJSONSchemaValidator (schemaDoc : string) (opts : options) : result error js_schema :=
  let? _ := if (0 <? MaxDepth (limits opts))%Z
            then scanJSONDepth schemaDoc (MaxDepth (limits opts)) else Ok tt in
  if (0 <? CompileTimeout (limits opts))%Z && negb (compile_in_time schemaDoc)
  then Err (timeout_error (limits opts))
  else compile_doc schemaDoc.

Definition validate (schema : js_schema) (jsonStr : string) : result error unit :=
  match js_UnmarshalJSON jsonStr with
  | Err e => Err (Wrap "invalid JSON" e)
  | Ok inst =>
      match js_Validate schema inst with
      | Err e => Err (Wrap "json schema validation failed" e)
      | Ok _ => Ok tt
      end
  end.

(** ** Validators

    A check runs on the kind of a value that has one; [checkType] has passed
    before, so the type assertions of the checks succeed (the default branches
    below are not reached). *)
Definition checkFunc := Kind → result error unit.

Record FieldValidator := mkFieldValidator {
  fv_fieldPath : string; fv_FieldType : pbFieldType; fv_DomainFieldType : FieldType;
  fv_nullable : bool; fv_Sensitive : bool; fv_checks : list checkFunc }.

Definition checkType (k : Kind) (expected : pbFieldType) : result error unit :=
  match expected, k with
  | FIELD_TYPE_INT, IntegerValue _ | FIELD_TYPE_NUMBER, NumberValue _
  | FIELD_TYPE_STRING, StringValue _ | FIELD_TYPE_BOOL, BoolValue _
  | FIELD_TYPE_TIME, TimeValue _ | FIELD_TYPE_DURATION, DurationValue _
  | FIELD_TYPE_URL, UrlValue _ | FIELD_TYPE_JSON, JsonValue _
  | FIELD_TYPE_UNSPECIFIED, _ => Ok tt
  | FIELD_TYPE_INT, _ => Err (Errorf "expected integer value" [])
  | FIELD_TYPE_NUMBER, _ => Err (Errorf "expected number value" [])
  | FIELD_TYPE_STRING, _ => Err (Errorf "expected string value" [])
  | FIELD_TYPE_BOOL, _ => Err (Errorf "expected bool value" [])
  | FIELD_TYPE_TIME, _ => Err (Errorf "expected time value" [])
  | FIELD_TYPE_DURATION, _ => Err (Errorf "expected duration value" [])
  | FIELD_TYPE_URL, _ => Err (Errorf "expected url value" [])
  | FIELD_TYPE_JSON, _ => Err (Errorf "expected json value" [])
  end.

Fixpoint run_checks (path : string) (checks : list checkFunc) (k : Kind) : result error unit :=
  match checks with
  | [] => Ok tt
  | check :: checks =>
      match check k with
      | Err e => Err (Wrap ("field " +:+ path) e)
      | Ok _ => run_checks path checks k
      end
  end.

Definition Validate (v : FieldValidator) (tv : option TypedValue) : result error unit :=
  match tv with
  | None | Some None =>
      if fv_nullable v then Ok tt
      else Err (Errorf "field %s: value is required (not nullable)" [AStr (fv_fieldPath v)])
  | Some (Some k) =>
      match checkType k (fv_FieldType v) with
      | Err e => Err (Wrap ("field " +:+ fv_fieldPath v) e)
      | Ok _ => run_checks (fv_fieldPath v) (fv_checks v) k
      end
  end.

Definition fail_if (b : bool) (e : error) : result error unit := if b then Err e else Ok tt.

(** The type assertions of the checks. *)
Definition number_of (k : Kind) : float64 := match k with NumberValue x => x | _ => float_zero end.
Definition string_of (k : Kind) : string := match k with StringValue s => s | _ => "" end.
Definition url_of (k : Kind) : string := match k with UrlValue s => s | _ => "" end.
Definition json_of (k : Kind) : string := match k with JsonValue s => s | _ => "" end.

(** [Duration.Seconds]. *)
Definition Seconds (d : Z) : float64 :=
  SFadd 53 1024 (float_of_Z (Z.quot d Second))
    (SFdiv 53 1024 (float_of_Z (Z.rem d Second)) (float_of_Z Second)).

Definition extract_int (k : Kind) : float64 :=
  match k with IntegerValue z => float_of_Z z | _ => float_zero end.
Definition extract_duration (k : Kind) : float64 :=
  match k with
  | DurationValue (Some d) => Seconds (AsDuration d)
  | _ => Seconds 0
  end.

Definition finite (x : float64) : bool :=
  match x with S754_nan | S754_infinity _ => false | _ => true end.

Definition addNumericChecks (c : FieldConstraints) (extract : Kind → float64) : list checkFunc :=
  (match Min c with
   | Some min => [λ k, fail_if (float_lt (extract k) min)
        (Errorf "value %v is less than minimum %v" [AFloat (extract k); AFloat min])]
   | None => []
   end)
  ++ (match Max c with
      | Some max => [λ k, fail_if (float_lt max (extract k))
           (Errorf "value %v is greater than maximum %v" [AFloat (extract k); AFloat max])]
      | None => []
      end)
  ++ (match ExclusiveMin c with
      | Some emin => [λ k, fail_if (float_le (extract k) emin)
           (Errorf "value %v must be greater than %v" [AFloat (extract k); AFloat emin])]
      | None => []
      end)
  ++ (match ExclusiveMax c with
      | Some emax => [λ k, fail_if (float_le emax (extract k))
           (Errorf "value %v must be less than %v" [AFloat (extract k); AFloat emax])]
      | None => []
      end).

Definition number_checks : list checkFunc :=
  [λ k, fail_if (negb (finite (number_of k))) (Errorf "value is not a finite number" [])].

Definition url_checks (sensitive : bool) (schemes : list string) : list checkFunc :=
  let schemes := match schemes with [] => ["http"; "https"] | _ => schemes end in
  [λ k, fail_if (match Url.Parse (url_of k) with
                 | None => true
                 | Some (scheme, _) => bool_decide (scheme = "")
                 end)
          (if sensitive then Errorf "value is not a valid absolute URL" []
           else Errorf "value %q is not a valid absolute URL" [AStr (url_of k)]);
   λ k, let scheme := default "" (fst <$> Url.Parse (url_of k)) in
        fail_if (negb (bool_decide (scheme ∈ schemes)))
          (if sensitive then Errorf "URL scheme is not in the allowed list %v" [AStrs schemes]
           else Errorf "URL scheme %q is not in the allowed list %v" [AStr scheme; AStrs schemes])].

(** A pattern that does not compile rejects every value. *)
Definition regex_checks (sensitive : bool) (c : FieldConstraints) : list checkFunc :=
  match Regex c with
  | Some pattern =>
      match regexp_Compile pattern with
      | Err e => [λ _, Err (Wrap "constraint cannot be enforced: invalid regex pattern" e)]
      | Ok matches => [λ k, fail_if (negb (matches (string_of k)))
           (if sensitive then Errorf "value does not match pattern %s" [AStr pattern]
            else Errorf "value %q does not match pattern %s" [AStr (string_of k); AStr pattern])]
      end
  | None => []
  end.

Definition string_checks (sensitive : bool) (c : FieldConstraints) : list checkFunc :=
  (match MinLength c with
   | Some min => [λ k, let n := RuneCountInString (string_of k) in
        fail_if (n <? min)%Z (Errorf "string length %d is less than minimum %d" [AInt n; AInt min])]
   | None => []
   end)
  ++ (match MaxLength c with
      | Some max => [λ k, let n := RuneCountInString (string_of k) in
           fail_if (max <? n)%Z
             (Errorf "string length %d is greater than maximum %d" [AInt n; AInt max])]
      | None => []
      end)
  ++ regex_checks sensitive c.

Definition json_checks (o : options) (c : FieldConstraints) : list checkFunc :=
  match JsonSchemaDoc c with
  | Some doc =>
      match newJSONSchemaValidator doc o with
      | Err e => [λ _, Err (Wrap "constraint cannot be enforced: invalid json_schema" e)]
      | Ok schema => [λ k, validate schema (json_of k)]
      end
  | None => []
  end.

(** The text a value is compared with the enum by: the one it is stored as. *)
Definition enum_string (k : Kind) : string := default "" (typedValueToString (Some (Some k))).

Definition enum_checks (sensitive : bool) (c : FieldConstraints) : list checkFunc :=
  match EnumValues c with
  | [] => []
  | values => [λ k, fail_if (negb (bool_decide (enum_string k ∈ values)))
       (if sensitive then Errorf "value is not in allowed values" []
        else Errorf "value %q is not in allowed values %v" [AStr (enum_string k); AStrs values])]
  end.

Definition type_checks (fieldType : pbFieldType) (o : options) (c : FieldConstraints) :
    list checkFunc :=
  match fieldType with
  | FIELD_TYPE_INT => addNumericChecks c extract_int
  | FIELD_TYPE_NUMBER => addNumericChecks c number_of
  | FIELD_TYPE_STRING => string_checks (o_sensitive o) c
  | FIELD_TYPE_DURATION => addNumericChecks c extract_duration
  | FIELD_TYPE_JSON => json_checks o c
  | _ => []
  end.

Definition NewFieldValidator (fieldPath : string) (fieldType : pbFieldType) (opts : list Option) :
    FieldValidator :=
  let o := resolveOptions opts in
  mkFieldValidator fieldPath fieldType (FieldTypeFromProto fieldType) (o_nullable o) (o_sensitive o)
    ((match fieldType with
      | FIELD_TYPE_NUMBER => number_checks
      | FIELD_TYPE_URL =>
          url_checks (o_sensitive o)
            (match constraints o with Some c => AllowedSchemes c | None => [] end)
      | _ => []
      end)
     ++ match constraints o with
        | None => []
        | Some c => type_checks fieldType o c ++ enum_checks (o_sensitive o) c
        end).
End checks.
End Validation.
