(* ===== verification/ValidationFacts.v ===== *)
(** * What a field validator accepts

    The list of checks [NewFieldValidator] builds, against a specification by
    cases of the field's type; and which errors a sensitive field gives. *)
From S2P Require Import Prelude GoText GoFloat GoTime Domain Json Convert Validation.
Import Convert Validation.

Section validators.
Context `{Regexp, JsonSchema, CompileRace, UrlRest}.

(** ** The specification *)
Definition kind_type (k : Kind) : pbFieldType :=
  match k with
  | IntegerValue _ => FIELD_TYPE_INT | NumberValue _ => FIELD_TYPE_NUMBER
  | StringValue _ => FIELD_TYPE_STRING | BoolValue _ => FIELD_TYPE_BOOL
  | TimeValue _ => FIELD_TYPE_TIME | DurationValue _ => FIELD_TYPE_DURATION
  | UrlValue _ => FIELD_TYPE_URL | JsonValue _ => FIELD_TYPE_JSON
  end.

Definition in_bounds (c : FieldConstraints) (x : float64) : Prop :=
  (∀ m, Min c = Some m → float_lt x m = false) ∧ (∀ m, Max c = Some m → float_lt m x = false)
  ∧ (∀ m, ExclusiveMin c = Some m → float_le x m = false)
  ∧ (∀ m, ExclusiveMax c = Some m → float_le m x = false).

Definition length_ok (c : FieldConstraints) (n : Z) : Prop :=
  (∀ m, MinLength c = Some m → (m ≤ n)%Z) ∧ (∀ m, MaxLength c = Some m → (n ≤ m)%Z).

Definition regex_ok (c : FieldConstraints) (s : string) : Prop :=
  ∀ p, Regex c = Some p → ∃ matches, regexp_Compile p = Ok matches ∧ matches s = true.

Definition schema_ok (o : options) (c : FieldConstraints) (s : string) : Prop :=
  ∀ doc, JsonSchemaDoc c = Some doc →
    ∃ schema, newJSONSchemaValidator doc o = Ok schema ∧ validate schema s = Ok tt.

Definition allowed_schemes (o : options) : list string :=
  match constraints o with
  | Some c => match AllowedSchemes c with [] => ["http"; "https"] | l => l end
  | None => ["http"; "https"]
  end.

Definition seconds_of (d : option Duration) : float64 :=
  Seconds (match d with Some d => AsDuration d | None => 0%Z end).

(** What the constraints ask of a value of the field's type. *)
Definition content_ok (o : options) (k : Kind) : Prop :=
  match k with
  | NumberValue x => finite x = true ∧ ∀ c, constraints o = Some c → in_bounds c x
  | IntegerValue z => ∀ c, constraints o = Some c → in_bounds c (float_of_Z z)
  | DurationValue d => ∀ c, constraints o = Some c → in_bounds c (seconds_of d)
  | StringValue s =>
      ∀ c, constraints o = Some c → length_ok c (RuneCountInString s) ∧ regex_ok c s
  | UrlValue s =>
      ∃ scheme host, Url.Parse s = Some (scheme, host) ∧ scheme ≠ "" ∧ scheme ∈ allowed_schemes o
  | JsonValue s => ∀ c, constraints o = Some c → schema_ok o c s
  | BoolValue _ | TimeValue _ => True
  end.

(** A value a field of type [ft] with options [o] may have. A field of an
    unknown type takes a value of any kind. *)
Definition accepts (ft : pbFieldType) (o : options) (tv : option TypedValue) : Prop :=
  match tv with
  | None | Some None => o_nullable o = true
  | Some (Some k) =>
      (ft = FIELD_TYPE_UNSPECIFIED ∨ kind_type k = ft ∧ content_ok o k)
      ∧ ∀ c, constraints o = Some c → EnumValues c = [] ∨ enum_string k ∈ EnumValues c
  end.

(** ** Limits *)

(** Limits [l'] refuse no schema document that [l] lets through. *)
Definition as_lenient (l l' : Limits) : Prop :=
  (MaxDepth l' ≤ 0 ∨ 0 < MaxDepth l ≤ MaxDepth l')%Z
  ∧ (CompileTimeout l' ≤ 0 ∨ 0 < CompileTimeout l ≤ CompileTimeout l')%Z.

Lemma checkDepth_mono v depth max max' :
  (max ≤ max')%Z → checkDepth v depth max = Ok tt → checkDepth v depth max' = Ok tt.
Proof.
  intros Hm. revert depth. induction v as [| | | |l IH|l IH] using Json.json_nested_ind; intros depth; simpl;
    destruct (max <? depth)%Z eqn:Hd; try done; (replace (max' <? depth)%Z with false by lia); try done.
  - induction IH as [|x l Hx _ IHl]; [done|]. intros ([] & E & Hl)%result_bind_Ok. rewrite Hx by done. by apply IHl.
  - induction IH as [|[k x] l Hx _ IHl]; [done|]. intros ([] & E & Hl)%result_bind_Ok. simpl in Hx.
    rewrite Hx by done. by apply IHl.
Qed.

Lemma schema_ok_lenient l l' sem sem' n s c cs text :
  as_lenient l l' → schema_ok (mkOptions l sem n s c) cs text → schema_ok (mkOptions l' sem' n s c) cs text.
Proof.
  intros [Hd Ht] Hok doc Hdoc. destruct (Hok doc Hdoc) as (schema & E & Hv). exists schema. split; [|done]. revert E.
  unfold newJSONSchemaValidator, scanJSONDepth. cbn [limits]. intros ([] & E1 & E2)%result_bind_Ok.
  apply result_bind_Ok. exists tt. split.
  - destruct (0 <? MaxDepth l')%Z eqn:?; [|done]. replace (0 <? MaxDepth l)%Z with true in E1 by lia.
    destruct (Json.parse doc); [|done]. eapply checkDepth_mono; [|done]. lia.
  - destruct (0 <? CompileTimeout l')%Z eqn:?; simpl.
    + replace (0 <? CompileTimeout l)%Z with true in E2 by lia. by destruct (compile_in_time doc).
    + destruct (_ && _); [done|]. exact E2.
Qed.

(** Only the validators of JSON fields depend on the limits. *)
Lemma accepts_lenient ft l l' sem sem' n s c tv :
  ft ≠ FIELD_TYPE_JSON ∨ as_lenient l l' →
  accepts ft (mkOptions l sem n s c) tv → accepts ft (mkOptions l' sem' n s c) tv.
Proof.
  destruct tv as [[k|]|]; simpl; [|done..]. intros Hl [[Hft|[Hk Hc]] He]; (split; [|done]); [by left|right].
  split; [done|]. destruct k; try done. destruct Hl as [Hl|Hl]; [by destruct Hl|]. simpl in *. intros cs Hcs.
  eapply schema_ok_lenient; [done|]. by apply Hc.
Qed.

(** ** Checks one by one *)
Lemma fail_if_Ok b e : fail_if b e = Ok tt ↔ b = false.
Proof. by destruct b. Qed.

Lemma run_checks_Ok path checks k :
  run_checks path checks k = Ok tt ↔ Forall (λ check, check k = Ok tt) checks.
Proof.
  induction checks as [|c cs IH]; simpl; [by rewrite Forall_nil|].
  rewrite Forall_cons, <-IH. destruct (c k) as [[]|e]; naive_solver.
Qed.

(** A check that is there when a pointer is set. *)
Lemma Forall_opt {A} (o : option A) (f : A → checkFunc) k (P : A → Prop) :
  (∀ a, f a k = Ok tt ↔ P a) →
  Forall (λ check, check k = Ok tt) (match o with Some a => [f a] | None => [] end)
  ↔ ∀ a, o = Some a → P a.
Proof.
  intros Hf. destruct o as [a|]; [|naive_solver]. rewrite Forall_singleton, Hf. naive_solver.
Qed.

Lemma numeric_Ok c extract k :
  Forall (λ check, check k = Ok tt) (addNumericChecks c extract) ↔ in_bounds c (extract k).
Proof.
  unfold addNumericChecks, in_bounds. rewrite !Forall_app.
  rewrite !(Forall_opt _ _ k) by (intros ?; apply fail_if_Ok). done.
Qed.

Lemma regex_Ok b c k :
  Forall (λ check, check k = Ok tt) (regex_checks b c) ↔ regex_ok c (string_of k).
Proof.
  unfold regex_checks, regex_ok. destruct (Regex c) as [p|]; [|naive_solver].
  destruct (regexp_Compile p) as [m|e] eqn:Hp; rewrite Forall_singleton.
  - rewrite fail_if_Ok, negb_false_iff. split; [intros; simplify_eq; eauto|].
    intros Hx. destruct (Hx p eq_refl) as (? & ? & ?). congruence.
  - split; [done|]. intros Hx. destruct (Hx p eq_refl) as (? & ? & ?). congruence.
Qed.

Lemma string_Ok b c k :
  Forall (λ check, check k = Ok tt) (string_checks b c)
  ↔ length_ok c (RuneCountInString (string_of k)) ∧ regex_ok c (string_of k).
Proof.
  unfold string_checks, length_ok. rewrite !Forall_app, regex_Ok.
  rewrite !(Forall_opt _ _ k) by (intros ?; apply fail_if_Ok).
  setoid_rewrite Z.ltb_ge. tauto.
Qed.

Lemma json_Ok o c k :
  Forall (λ check, check k = Ok tt) (json_checks o c) ↔ schema_ok o c (json_of k).
Proof.
  unfold json_checks, schema_ok. destruct (JsonSchemaDoc c) as [doc|]; [|naive_solver].
  destruct (newJSONSchemaValidator doc o) as [sch|e] eqn:Hn; rewrite Forall_singleton.
  - split; [intros; simplify_eq; eauto|]. intros Hx. destruct (Hx doc eq_refl) as (? & ? & ?). congruence.
  - split; [done|]. intros Hx. destruct (Hx doc eq_refl) as (? & ? & ?). congruence.
Qed.

Lemma enum_Ok b c k :
  Forall (λ check, check k = Ok tt) (enum_checks b c)
  ↔ EnumValues c = [] ∨ enum_string k ∈ EnumValues c.
Proof.
  unfold enum_checks. destruct (EnumValues c) as [|v vs]; [naive_solver|].
  rewrite Forall_singleton, fail_if_Ok, negb_false_iff, bool_decide_eq_true. naive_solver.
Qed.

Lemma url_Ok b schemes k :
  Forall (λ check, check k = Ok tt) (url_checks b schemes)
  ↔ ∃ scheme host, Url.Parse (url_of k) = Some (scheme, host) ∧ scheme ≠ ""
      ∧ scheme ∈ match schemes with [] => ["http"; "https"] | l => l end.
Proof.
  unfold url_checks. rewrite Forall_cons, Forall_singleton, !fail_if_Ok, negb_false_iff.
  destruct (Url.Parse (url_of k)) as [[sch host]|]; [|naive_solver].
  rewrite bool_decide_eq_false, bool_decide_eq_true. simpl. naive_solver.
Qed.

Lemma checkType_Ok k ft : checkType k ft = Ok tt ↔ ft = FIELD_TYPE_UNSPECIFIED ∨ kind_type k = ft.
Proof. destruct ft, k; simpl; split; try done; try (by left); try (by right); by intros [?|?]. Qed.

Lemma type_checks_Ok ft o c k :
  kind_type k = ft →
  Forall (λ check, check k = Ok tt) (type_checks ft o c)
  ↔ match k with
    | NumberValue x => in_bounds c x
    | IntegerValue z => in_bounds c (float_of_Z z)
    | DurationValue d => in_bounds c (seconds_of d)
    | StringValue s => length_ok c (RuneCountInString s) ∧ regex_ok c s
    | JsonValue s => schema_ok o c s
    | _ => True
    end.
Proof.
  intros <-. destruct k as [| | | | |d| |]; simpl.
  all: rewrite ?numeric_Ok, ?string_Ok, ?json_Ok, ?Forall_nil; try done.
  by destruct d.
Qed.

Lemma Validate_accepts path ft opts tv :
  Validate (NewFieldValidator path ft opts) tv = Ok tt ↔ accepts ft (resolveOptions opts) tv.
Proof.
  unfold NewFieldValidator, Validate, accepts. set (o := resolveOptions opts). simpl.
  destruct tv as [[k|]|]; [|by destruct (o_nullable o)..].
  destruct (checkType k ft) as [[]|e] eqn:Hty.
  2:{ split; [done|]. intros [Hk _]. assert (checkType k ft = Ok tt); [|congruence].
      apply checkType_Ok. tauto. }
  apply checkType_Ok in Hty. rewrite run_checks_Ok, Forall_app.
  assert (Forall (λ check, check k = Ok tt) (match constraints o with
      | None => [] | Some c => type_checks ft o c ++ enum_checks (o_sensitive o) c end)
    ↔ (∀ c, constraints o = Some c → Forall (λ check, check k = Ok tt) (type_checks ft o c))
      ∧ ∀ c, constraints o = Some c → EnumValues c = [] ∨ enum_string k ∈ EnumValues c) as ->.
  { destruct (constraints o) as [c|]; [|naive_solver]. rewrite Forall_app, enum_Ok. naive_solver. }
  destruct Hty as [->|<-].
  { simpl. rewrite Forall_nil. split; [tauto|]. intros [_ He]. split_and!; [done| |done].
    intros c _. by apply Forall_nil. }
  destruct (decide (kind_type k = FIELD_TYPE_UNSPECIFIED)) as [Hn|Hn]; [by destruct k|].
  setoid_rewrite (type_checks_Ok _ o _ k eq_refl).
  destruct k; simpl; rewrite ?url_Ok, ?Forall_nil; try (unfold number_checks;
    rewrite Forall_singleton, fail_if_Ok, negb_false_iff); try tauto.
  unfold allowed_schemes. destruct (constraints o) as [c|]; [destruct (AllowedSchemes c)|]; tauto.
Qed.

(** C11: A validator accepts exactly the values its field's type and constraints
    describe: a null value iff the field is nullable; otherwise a value of the
    field's type that is finite (numbers), absolute with an allowed scheme
    (URLs), within the numeric bounds, the length bounds, the pattern and the
    JSON Schema that the type takes into account, and among the enum values if
    there are any. A pattern or a JSON Schema that does not compile accepts no
    value. *)
Theorem validator_accepts_iff path ft opts tv :
  Validate (NewFieldValidator path ft opts) tv = Ok tt ↔ accepts ft (resolveOptions opts) tv.
Proof. apply Validate_accepts. Qed.

(** ** Errors of a sensitive field *)
Lemma run_checks_Err path checks k e :
  run_checks path checks k = Err e →
  ∃ check e', check ∈ checks ∧ check k = Err e' ∧ e = Wrap ("field " +:+ path) e'.
Proof.
  induction checks as [|c cs IH]; simpl; [done|]. destruct (c k) as [[]|e'] eqn:Hc.
  - intros E. destruct (IH E) as (check & e' & ? & ? & ?). exists check, e'.
    split_and!; [by right|done..].
  - intros [= <-]. exists c, e'. split_and!; [by left|done..].
Qed.

Lemma fail_if_Err b e e' : fail_if b e = Err e' → e' = e.
Proof. destruct b; simpl; congruence. Qed.

(** The messages a validator can give without looking at the value, but for the
    number [n] of its runes. *)
Definition hidden_errors (o : options) (n : Z) : list error :=
  let schemes := allowed_schemes o in
  [Errorf "expected string value" []; Errorf "expected bool value" [];
   Errorf "expected time value" []; Errorf "expected url value" [];
   Errorf "value is not a valid absolute URL" [];
   Errorf "URL scheme is not in the allowed list %v" [AStrs schemes];
   Errorf "value is not in allowed values" []]
  ++ match constraints o with
     | None => []
     | Some c =>
         (match MinLength c with
          | Some m => [Errorf "string length %d is less than minimum %d" [AInt n; AInt m]]
          | None => []
          end)
         ++ (match MaxLength c with
             | Some m => [Errorf "string length %d is greater than maximum %d" [AInt n; AInt m]]
             | None => []
             end)
         ++ match Regex c with
            | Some p =>
                [Errorf "value does not match pattern %s" [AStr p];
                 Wrap "constraint cannot be enforced: invalid regex pattern"
                   (match regexp_Compile p with Err e => e | Ok _ => Errorf "" [] end)]
            | None => []
            end
     end.

Lemma string_hidden o c k e check :
  constraints o = Some c → check ∈ string_checks true c → check k = Err e →
  e ∈ hidden_errors o (RuneCountInString (string_of k)).
Proof.
  intros Ho Hin Hc. unfold hidden_errors. rewrite Ho. apply elem_of_app. right.
  unfold string_checks, regex_checks in Hin. rewrite !elem_of_app in *.
  destruct Hin as [Hin|[Hin|Hin]]; [left|right; left|right; right].
  - destruct (MinLength c); [|set_solver]. apply list_elem_of_singleton in Hin as ->.
    apply fail_if_Err in Hc. set_solver.
  - destruct (MaxLength c); [|set_solver]. apply list_elem_of_singleton in Hin as ->.
    apply fail_if_Err in Hc. set_solver.
  - destruct (Regex c) as [p|]; [|set_solver].
    destruct (regexp_Compile p) eqn:Hp; apply list_elem_of_singleton in Hin as ->.
    + apply fail_if_Err in Hc. set_solver.
    + injection Hc as <-. set_solver.
Qed.

Lemma url_hidden o k e check n :
  check ∈ url_checks true (match constraints o with Some c => AllowedSchemes c | None => [] end) →
  check k = Err e → e ∈ hidden_errors o n.
Proof.
  intros Hin Hc. apply elem_of_app. left. unfold url_checks, allowed_schemes in *.
  rewrite elem_of_cons, list_elem_of_singleton in Hin.
  destruct (constraints o) as [c|]; [destruct (AllowedSchemes c)|];
    destruct Hin as [->| ->]; apply fail_if_Err in Hc; subst e; rewrite !elem_of_cons; tauto.
Qed.

Lemma enum_hidden o c k e check n :
  check ∈ enum_checks true c → check k = Err e → e ∈ hidden_errors o n.
Proof.
  intros Hin Hc. apply elem_of_app. left. unfold enum_checks in Hin.
  destruct (EnumValues c); [set_solver|]. apply list_elem_of_singleton in Hin as ->.
  apply fail_if_Err in Hc. set_solver.
Qed.

(** Errors of a sensitive field do not tell its value: whatever value of a
    string, bool, time or URL field is rejected, the error is one of a fixed
    list of messages about the field, which depends on the value at most
    through its length. *)
Theorem sensitive_errors_hide_value path ft opts k e :
  o_sensitive (resolveOptions opts) = true →
  ft ∈ [FIELD_TYPE_STRING; FIELD_TYPE_BOOL; FIELD_TYPE_TIME; FIELD_TYPE_URL] →
  Validate (NewFieldValidator path ft opts) (Some (Some k)) = Err e →
  ∃ e', e = Wrap ("field " +:+ path) e'
    ∧ e' ∈ hidden_errors (resolveOptions opts) (RuneCountInString (string_of k)).
Proof.
  unfold NewFieldValidator, Validate. set (o := resolveOptions opts). simpl. intros Hs Hft.
  destruct (checkType k ft) as [[]|e'] eqn:Hty.
  2:{ intros [= <-]. exists e'. split; [done|]. apply elem_of_app. left.
      rewrite !elem_of_cons. destruct ft, k; simplify_eq/=; try tauto;
        exfalso; set_solver. }
  intros (check & e' & Hin & Hc & ->)%run_checks_Err. exists e'. split; [done|].
  rewrite Hs in Hin. apply elem_of_app in Hin as [Hin|Hin].
  { destruct ft; try set_solver. by eapply url_hidden. }
  destruct (constraints o) as [c|] eqn:Ho; [|set_solver].
  apply elem_of_app in Hin as [Hin|Hin]; [|by eapply enum_hidden].
  unfold type_checks in Hin. rewrite Hs in Hin. destruct ft; try set_solver.
  by eapply string_hidden.
Qed.
End validators.
