(* ===== verification/Auth.v ===== *)
(** * Authentication and authorization ([internal/auth], [internal/authz])

    The request context is the record of the values the server stores in it.
    [Auth] is claims, access checks and the metadata interceptor; [Authz] the
    guards and their chain. Logging is left out. *)
From S2P Require Import Prelude GoText Domain Json.
From Stdlib Require Import Ascii.

Module Auth.

Inductive Role := RoleSuperAdmin | RoleAdmin | RoleUser | RoleOther (s : string).
Global Instance Role_eq_dec : EqDecision Role.
Proof. solve_decision. Defined.
Definition role_of_string (s : string) : Role :=
  if bool_decide (s = "superadmin") then RoleSuperAdmin
  else if bool_decide (s = "admin") then RoleAdmin
  else if bool_decide (s = "user") then RoleUser
  else RoleOther s.

Record Claims := { Subject : string; role : Role; TenantIDs : list string }.

(** The values a request context carries: the caller's claims, the mark of
    internal callers, and the field locks a bulk operation has memoized. *)
Record Ctx := mkCtx {
  ctx_claims : option Claims;
  ctx_withoutAuth : bool;
  ctx_locks : option (list TenantFieldLock) }.

Definition ContextWithClaims (ctx : Ctx) (c : Claims) : Ctx :=
  mkCtx (Some c) (ctx_withoutAuth ctx) (ctx_locks ctx).
Definition WithoutAuth (ctx : Ctx) : Ctx :=
  mkCtx (ctx_claims ctx) true (ctx_locks ctx).

Definition HasTenantAccess (c : Claims) (tenantID : string) : bool :=
  if bool_decide (role c = RoleSuperAdmin) then true
  else existsb (λ id, bool_decide (id = tenantID)) (TenantIDs c).
Definition claims_IsSuperAdmin (c : Claims) : bool := bool_decide (role c = RoleSuperAdmin).

Definition authentication_required : error := Status0 Unauthenticated "authentication required".

Definition CheckTenantAccess (ctx : Ctx) (tenantID : string) : result error unit :=
  match ctx_claims ctx with
  | None => if ctx_withoutAuth ctx then Ok tt else Err authentication_required
  | Some c =>
      if HasTenantAccess c tenantID then Ok tt
      else Err (Status PermissionDenied "no access to tenant %s" [AStr tenantID])
  end.

Definition RequireSuperAdmin (ctx : Ctx) : result error unit :=
  match ctx_claims ctx with
  | None => if ctx_withoutAuth ctx then Ok tt else Err authentication_required
  | Some c =>
      if claims_IsSuperAdmin c then Ok tt
      else Err (Status0 PermissionDenied "superadmin required")
  end.

Definition RequireAdminOrAbove (ctx : Ctx) : result error unit :=
  match ctx_claims ctx with
  | None => if ctx_withoutAuth ctx then Ok tt else Err authentication_required
  | Some c =>
      if bool_decide (role c = RoleUser)
      then Err (Status0 PermissionDenied "admin or superadmin required")
      else Ok tt
  end.

(** [None] is the nil slice: all tenants. Claims without tenants hold the nil
    slice. *)
Definition AllowedTenantIDs (ctx : Ctx) : option (list string) :=
  match ctx_claims ctx with
  | None => None
  | Some c => if claims_IsSuperAdmin c then None else match TenantIDs c with [] => None | ids => Some ids end
  end.

Definition IsSuperAdmin (ctx : Ctx) : bool :=
  match ctx_claims ctx with
  | None => ctx_withoutAuth ctx
  | Some c => claims_IsSuperAdmin c
  end.

Definition MustHaveClaims (ctx : Ctx) : result error unit :=
  match ctx_claims ctx with
  | None => if negb (ctx_withoutAuth ctx) then Err authentication_required else Ok tt
  | Some _ => Ok tt
  end.

(** ** The metadata interceptor *)
Definition skipAuth (fullMethod : string) : bool :=
  HasPrefix fullMethod "/grpc.health.v1.Health/"
  || bool_decide (fullMethod = "/centralconfig.v1.ServerService/GetServerInfo").

Definition headerSubject : string := "x-subject".
Definition headerRole : string := "x-role".
Definition headerTenantID : string := "x-tenant-id".
Definition maxHeaderLen : nat := 1024.
Definition maxSubjectLen : nat := 256.
Definition maxTenantIDs : nat := 32.
Definition maxRoleLen : nat := 64.

(** Incoming metadata: header name to its values; absent without metadata. *)
Definition MD := gmap string (list string).

Definition firstMetadataValue (md : option MD) (key : string) : string :=
  match md with
  | None => ""
  | Some md => match md !! key with Some (v :: _) => v | _ => "" end
  end.

Definition isPrintableASCII (s : string) : bool :=
  all_bytes (λ c, negb ((byte_val c <? 0x20)%Z || (0x7E <? byte_val c)%Z)) s.

(** The resolver that turns tenant names into identifiers. *)
Definition TenantResolver := list string → result error (gmap string string).

Record MetadataInterceptor := {
  resolveTenant : option TenantResolver;
  insecureDefaultSuperadmin : bool }.

Definition header_too_long (h : string) (n : nat) : error :=
  Status InvalidArgument "%s header exceeds %d bytes" [AStr h; AInt (Z.of_nat n)].

(** Every identifier is replaced by its resolution; a missing one fails. *)
Fixpoint resolve_all (resolved : gmap string string) (ids : list string) :
    result error (list string) :=
  match ids with
  | [] => Ok []
  | id :: ids =>
      match resolved !! id with
      | None => Err (Status0 InvalidArgument "failed to resolve tenant")
      | Some r => let? rs := resolve_all resolved ids in Ok (r :: rs)
      end
  end.

Definition parse_tenants (m : MetadataInterceptor) (raw : string) : result error (list string) :=
  if bool_decide (raw = "") then Ok []
  else
    let parts := Split ","%char raw in
    if maxTenantIDs <? length parts
    then Err (Status InvalidArgument "%s exceeds %d entries"
                [AStr headerTenantID; AInt (Z.of_nat maxTenantIDs)])
    else
      let ids := filter (λ s, s ≠ "") (TrimSpace <$> parts) in
      match resolveTenant m, ids with
      | Some resolve, _ :: _ =>
          match resolve ids with
          | Err _ => Err (Status0 InvalidArgument "failed to resolve tenant")
          | Ok resolved => resolve_all resolved ids
          end
      | _, _ => Ok ids
      end.

Definition extractClaims (m : MetadataInterceptor) (md : option MD) (ctx : Ctx) :
    result error Ctx :=
  let subject := firstMetadataValue md headerSubject in
  if maxHeaderLen <? str_len subject then Err (header_too_long headerSubject maxHeaderLen)
  else if bool_decide (subject = "")
  then Err (Status0 Unauthenticated "x-subject header is required")
  else if maxSubjectLen <? str_len subject
  then Err (Status InvalidArgument "%s exceeds %d bytes"
              [AStr headerSubject; AInt (Z.of_nat maxSubjectLen)])
  else if negb (isPrintableASCII subject)
  then Err (Status InvalidArgument "%s must be printable ASCII" [AStr headerSubject])
  else
    let rawRole := firstMetadataValue md headerRole in
    if maxRoleLen <? str_len rawRole then Err (header_too_long headerRole maxRoleLen)
    else
      let r :=
        if bool_decide (rawRole = "")
        then if insecureDefaultSuperadmin m then RoleSuperAdmin else RoleUser
        else role_of_string rawRole in
      match r with
      | RoleOther _ => Err (Status0 PermissionDenied "unknown role")
      | _ =>
          let rawTenantID := firstMetadataValue md headerTenantID in
          if maxHeaderLen <? str_len rawTenantID
          then Err (header_too_long headerTenantID maxHeaderLen)
          else
            let? tenantIDs := parse_tenants m rawTenantID in
            if negb (bool_decide (r = RoleSuperAdmin)) && bool_decide (tenantIDs = [])
            then Err (Status0 PermissionDenied "x-tenant-id required for non-superadmin")
            else Ok (ContextWithClaims ctx
                       {| Subject := subject; role := r; TenantIDs := tenantIDs |})
      end.

(** The unary interceptor: public methods run with the context as it is, every
    other one with the extracted claims or not at all. *)
Definition UnaryInterceptor {A} (m : MetadataInterceptor) (md : option MD) (fullMethod : string)
    (handler : Ctx → result error A) (ctx : Ctx) : result error A :=
  if skipAuth fullMethod then handler ctx
  else let? ctx' := extractClaims m md ctx in handler ctx'.

(** The stream interceptor has no public methods. *)
Definition StreamInterceptor {A} (m : MetadataInterceptor) (md : option MD)
    (handler : Ctx → result error A) (ctx : Ctx) : result error A :=
  let? ctx' := extractClaims m md ctx in handler ctx'.
End Auth.

Module Authz.
Import Auth.

Inductive Action := ActionRead | ActionWrite | ActionAdmin | ActionGlobal.
Global Instance Action_eq_dec : EqDecision Action.
Proof. solve_decision. Defined.

Record Resource := { res_TenantID : string; res_FieldPath : string; res_Value : string }.

(** A guard is its [Check]. *)
Definition Guard := Ctx → Action → Resource → result error unit.

Fixpoint Chain (guards : list Guard) : Guard := λ ctx action resource,
  match guards with
  | [] => Ok tt
  | g :: guards => let? _ := g ctx action resource in Chain guards ctx action resource
  end.

Definition RolePolicyGuard : Guard := λ ctx action _,
  match action with
  | ActionAdmin | ActionGlobal => RequireSuperAdmin ctx
  | ActionWrite => RequireAdminOrAbove ctx
  | ActionRead => Ok tt
  end.

Definition TenantScopeGuard : Guard := λ ctx action r,
  if bool_decide (action = ActionGlobal) || bool_decide (res_TenantID r = "") then Ok tt
  else CheckTenantAccess ctx (res_TenantID r).

Definition WithFieldLockCache (ctx : Ctx) (locks : list TenantFieldLock) : Ctx :=
  mkCtx (ctx_claims ctx) (ctx_withoutAuth ctx) (Some locks).

Definition field_locked (path : string) : error :=
  Status FailedPrecondition "field %s is locked" [AStr path].

(** The scan of the locks of one tenant. *)
Fixpoint check_locks (locks : list TenantFieldLock) (r : Resource) : result error unit :=
  match locks with
  | [] => Ok tt
  | lock :: locks =>
      if negb (bool_decide (lk_FieldPath lock = res_FieldPath r)) then check_locks locks r
      else
        match lk_LockedValues lock with
        | None | Some "" => Err (field_locked (res_FieldPath r))
        | Some raw =>
            match Json.Unmarshal_strings raw with
            | None | Some [] => Err (field_locked (res_FieldPath r))
            | Some values =>
                if existsb (λ v, bool_decide (v = res_Value r)) values
                then Err (Status FailedPrecondition "value %q for field %s is locked"
                            [AStr (res_Value r); AStr (res_FieldPath r)])
                else check_locks locks r
            end
        end
  end.

(** [store] is [GetFieldLocks] of the guard's store. *)
Definition FieldLockGuard (store : string → result error (list TenantFieldLock)) : Guard :=
  λ ctx action r,
  if negb (bool_decide (action = ActionWrite)) || bool_decide (res_FieldPath r = "") then Ok tt
  else if IsSuperAdmin ctx then Ok tt
  else
    match ctx_locks ctx with
    | Some cached => check_locks cached r
    | None =>
        match store (res_TenantID r) with
        | Err _ => Err (Status0 Internal "failed to check field locks")
        | Ok locks => check_locks locks r
        end
    end.
End Authz.

(** ** Properties *)
Module AuthFacts.
Import Auth Authz.

(** What a lock says, independently of the scan: [None] locks the field,
    [Some vs] locks the listed values. An unreadable or empty list locks the
    field. *)
Definition lock_scope (lock : TenantFieldLock) : option (list string) :=
  match lk_LockedValues lock with
  | None | Some "" => None
  | Some raw =>
      match Json.Unmarshal_strings raw with
      | None | Some [] => None
      | Some vs => Some vs
      end
  end.
Definition blocks (lock : TenantFieldLock) (r : Resource) : Prop :=
  lk_FieldPath lock = res_FieldPath r ∧
  match lock_scope lock with
  | None => True
  | Some vs => res_Value r ∈ vs
  end.

Lemma existsb_elem (x : string) l :
  existsb (λ v, bool_decide (v = x)) l = true ↔ x ∈ l.
Proof.
  rewrite existsb_exists. split.
  - intros (y & Hy & Hb). bool_prop. subst. by apply list_elem_of_In.
  - intros Hx. exists x. split; [by apply list_elem_of_In|]. by apply bool_decide_eq_true.
Qed.

Lemma check_locks_Ok locks r :
  check_locks locks r = Ok tt ↔ Forall (λ lock, ¬ blocks lock r) locks.
Proof.
  induction locks as [|lock locks IH]; simpl; [by rewrite Forall_nil|].
  rewrite Forall_cons, <-IH. unfold blocks, lock_scope.
  case_bool_decide as Hp; simpl; [|tauto].
  destruct (lk_LockedValues lock) as [[|c raw]|]; [naive_solver| |naive_solver].
  destruct (Json.Unmarshal_strings _) as [[|v vs]|]; [naive_solver| |naive_solver].
  destruct (existsb _ _) eqn:E.
  - apply existsb_elem in E. naive_solver.
  - assert (res_Value r ∉ v :: vs) as Hn by (rewrite <-existsb_elem; congruence). tauto.
Qed.

Lemma check_locks_Err locks r e :
  check_locks locks r = Err e → ∃ f a, e = Status FailedPrecondition f a.
Proof.
  induction locks as [|lock locks IH]; simpl; [done|].
  intros E. repeat (case_match; simplify_eq/=; eauto).
Qed.

(** The guard chain of the config service. *)
Definition defaultGuard (locks : string → result error (list TenantFieldLock)) : Guard :=
  Chain [TenantScopeGuard; RolePolicyGuard; FieldLockGuard locks].

Lemma HasTenantAccess_true c t :
  HasTenantAccess c t = true ↔ role c = RoleSuperAdmin ∨ t ∈ TenantIDs c.
Proof.
  unfold HasTenantAccess. case_bool_decide; [tauto|]. rewrite existsb_elem. tauto.
Qed.

(** Writes through the chain. *)
Lemma defaultGuard_write store ctx c (r : Resource) (locks : list TenantFieldLock) :
  ctx_claims ctx = Some c →
  res_TenantID r ≠ "" → res_FieldPath r ≠ "" →
  (ctx_locks ctx = Some locks ∨ (ctx_locks ctx = None ∧ store (res_TenantID r) = Ok locks)) →
  defaultGuard store ctx ActionWrite r = Ok tt
  ↔ role c = RoleSuperAdmin
    ∨ (res_TenantID r ∈ TenantIDs c ∧ role c ≠ RoleUser ∧ Forall (λ l, ¬ blocks l r) locks).
Proof.
  intros Hc Ht Hp Hl. unfold defaultGuard, Chain, TenantScopeGuard, RolePolicyGuard, FieldLockGuard.
  rewrite (bool_decide_eq_false_2 (ActionWrite = ActionGlobal)) by done.
  rewrite (bool_decide_eq_false_2 (res_TenantID r = "")) by done. cbn [orb].
  unfold CheckTenantAccess, RequireAdminOrAbove, IsSuperAdmin. rewrite Hc.
  rewrite (bool_decide_eq_true_2 (ActionWrite = ActionWrite)) by done.
  rewrite (bool_decide_eq_false_2 (res_FieldPath r = "")) by done. cbn [negb orb].
  assert ((match ctx_locks ctx with
           | Some cached => check_locks cached r
           | None => match store (res_TenantID r) with
                     | Ok l => check_locks l r
                     | Err _ => Err (Status0 Internal "failed to check field locks")
                     end
           end) = check_locks locks r) as -> by (destruct Hl as [->|[-> ->]]; done).
  rewrite <-check_locks_Ok. unfold claims_IsSuperAdmin.
  pose proof (HasTenantAccess_true c (res_TenantID r)) as Hacc.
  destruct (HasTenantAccess c (res_TenantID r)); cbn [result_bind].
  - destruct (proj1 Hacc eq_refl) as [Hs|Hin].
    + rewrite Hs. repeat case_bool_decide; naive_solver.
    + destruct (decide (role c = RoleSuperAdmin)) as [Hs|Hs].
      * rewrite Hs. repeat case_bool_decide; naive_solver.
      * rewrite (bool_decide_eq_false_2 (role c = RoleSuperAdmin)) by done.
        case_bool_decide; cbn [result_bind].
        -- naive_solver.
        -- destruct (check_locks locks r) as [[]|]; naive_solver.
  - split; [done|]. intros Hx. assert (false = true) by (apply Hacc; naive_solver). done.
Qed.

(** Reads through the chain: the tenant must be the caller's. *)
Lemma defaultGuard_read store ctx t p v :
  t ≠ "" →
  defaultGuard store ctx ActionRead {| res_TenantID := t; res_FieldPath := p; res_Value := v |} = Ok tt
  ↔ CheckTenantAccess ctx t = Ok tt.
Proof.
  intros Ht. unfold defaultGuard, Chain, TenantScopeGuard. cbn [res_TenantID].
  rewrite (bool_decide_eq_false_2 (ActionRead = ActionGlobal)) by done.
  rewrite (bool_decide_eq_false_2 (t = "")) by done. cbn [orb].
  by destruct (CheckTenantAccess ctx t) as [[]|].
Qed.

(** Every action on a tenant passes the tenant check first. *)
Lemma defaultGuard_access store ctx action t p v :
  defaultGuard store ctx action {| res_TenantID := t; res_FieldPath := p; res_Value := v |} = Ok tt →
  action ≠ ActionGlobal → t ≠ "" → CheckTenantAccess ctx t = Ok tt.
Proof.
  intros E Ha Ht. unfold defaultGuard in E. cbn [Chain] in E.
  apply result_bind_Ok in E as ([] & E & _). unfold TenantScopeGuard in E. simpl in E.
  rewrite (bool_decide_eq_false_2 (action = _)), (bool_decide_eq_false_2 (t = "")) in E by done. done.
Qed.

(** Who may read and write: with the claims of an authenticated caller and
    the tenant's locks at hand, the default guard chain lets a read through
    exactly for superadmins and for callers who hold the tenant, and a write of
    a field exactly for superadmins and for callers of a role other than [user]
    who hold the tenant and whose value no lock of that field covers; a lock
    without readable values covers the whole field. *)
Theorem guard_allows_iff store ctx c (r : Resource) (locks : list TenantFieldLock) :
  ctx_claims ctx = Some c →
  res_TenantID r ≠ "" → res_FieldPath r ≠ "" →
  (ctx_locks ctx = Some locks ∨ (ctx_locks ctx = None ∧ store (res_TenantID r) = Ok locks)) →
  (defaultGuard store ctx ActionRead r = Ok tt
   ↔ role c = RoleSuperAdmin ∨ res_TenantID r ∈ TenantIDs c)
  ∧ (defaultGuard store ctx ActionWrite r = Ok tt
     ↔ role c = RoleSuperAdmin
       ∨ (res_TenantID r ∈ TenantIDs c ∧ role c ≠ RoleUser ∧ Forall (λ l, ¬ blocks l r) locks)).
Proof.
  intros Hc Ht Hp Hl. split; [|by apply defaultGuard_write].
  destruct r as [t p v]. rewrite defaultGuard_read by done. unfold CheckTenantAccess. rewrite Hc.
  rewrite <-HasTenantAccess_true. simpl. destruct (HasTenantAccess c t); naive_solver.
Qed.

Definition locked_ex : TenantFieldLock :=
  {| lk_TenantID := "t1"; lk_FieldPath := "a.b"; lk_LockedValues := Some (Json.Marshal_strings ["x"]) |}.
Definition admin_ex : Claims := {| Subject := "bob"; role := RoleAdmin; TenantIDs := ["t1"] |}.
Definition resource_ex (v : string) : Resource :=
  {| res_TenantID := "t1"; res_FieldPath := "a.b"; res_Value := v |}.

Lemma guard_allows_iff_witness :
  defaultGuard (λ _, Ok [locked_ex]) (mkCtx (Some admin_ex) false None) ActionWrite (resource_ex "y")
  = Ok tt.
Proof.
  apply (guard_allows_iff (λ _, Ok [locked_ex]) (mkCtx (Some admin_ex) false None) admin_ex
           (resource_ex "y") [locked_ex]); [done..|by right|].
  right. split_and!; [by left|done|]. constructor; [|constructor].
  intros [_ H]. vm_compute in H. apply list_elem_of_singleton in H. done.
Defined.

(** What the metadata interceptor vouches for. When it lets a request in,
    the handler sees claims whose subject is the non-empty printable header of
    at most 256 bytes, whose role is one of the three known ones, and which
    name at least one tenant unless the role is superadmin; that role is only
    given to callers who send it, or to callers without a role header under
    the insecure migration option. Anything else is refused. *)
Theorem metadata_claims_sound m md ctx ctx' :
  extractClaims m md ctx = Ok ctx' →
  ∃ c, ctx_claims ctx' = Some c
    ∧ Subject c = firstMetadataValue md headerSubject
    ∧ Subject c ≠ "" ∧ str_len (Subject c) ≤ maxSubjectLen ∧ isPrintableASCII (Subject c) = true
    ∧ (role c = RoleSuperAdmin ∨ (role c = RoleAdmin ∨ role c = RoleUser) ∧ TenantIDs c ≠ [])
    ∧ (role c = RoleSuperAdmin →
        firstMetadataValue md headerRole = "superadmin"
        ∨ firstMetadataValue md headerRole = "" ∧ insecureDefaultSuperadmin m = true).
Proof.
  unfold extractClaims. intros E.
  destruct (maxHeaderLen <? _); [done|]. case_bool_decide as Hs; [done|].
  destruct (maxSubjectLen <? _) eqn:Hlen; [done|]. apply Nat.ltb_ge in Hlen.
  destruct (isPrintableASCII _) eqn:Hpr; [|done]. cbn [negb] in E.
  destruct (maxRoleLen <? _); [done|].
  set (r := if bool_decide (firstMetadataValue md headerRole = "") then _ else _) in E.
  assert (r = RoleSuperAdmin →
    firstMetadataValue md headerRole = "superadmin"
    ∨ firstMetadataValue md headerRole = "" ∧ insecureDefaultSuperadmin m = true) as Hr.
  { unfold r, role_of_string. destruct (insecureDefaultSuperadmin m);
      repeat case_bool_decide; solve [done|tauto]. }
  clearbody r.
  assert (∃ ids, ctx' = ContextWithClaims ctx
            {| Subject := firstMetadataValue md headerSubject; role := r; TenantIDs := ids |}
          ∧ (r = RoleSuperAdmin ∨ (r = RoleAdmin ∨ r = RoleUser) ∧ ids ≠ [])) as (ids & -> & Hids).
  { destruct r; try done;
      (destruct (maxHeaderLen <? _); [done|]; apply result_bind_Ok in E as (ids & _ & E);
       exists ids; repeat case_bool_decide; simplify_eq/=; naive_solver). }
  eexists. split; [done|]. simpl. split_and!; done.
Qed.

Lemma metadata_claims_sound_witness :
  ∃ ctx', extractClaims {| resolveTenant := None; insecureDefaultSuperadmin := false |}
      (Some {["x-subject" := ["bob"]; "x-role" := ["admin"]; "x-tenant-id" := ["t1, t2"]]})
      (mkCtx None false None) = Ok ctx'
    ∧ ∃ c, ctx_claims ctx' = Some c ∧ Subject c = "bob".
Proof.
  eexists. split; [vm_compute; reflexivity|].
  edestruct (metadata_claims_sound {| resolveTenant := None; insecureDefaultSuperadmin := false |}
      (Some {["x-subject" := ["bob"]; "x-role" := ["admin"]; "x-tenant-id" := ["t1, t2"]]})
      (mkCtx None false None)) as (c & Hc & Hs & _); [vm_compute; reflexivity|].
  exists c. split; [exact Hc|]. rewrite Hs. reflexivity.
Defined.
End AuthFacts.
