(* ===== verification/Jwt.v ===== *)
(** * Authentication by token ([internal/auth/jwt.go])

    The interceptor that takes a bearer token from the metadata, has the JWT
    library verify it against the keys of the configured endpoint and puts its
    claims in the request context. The library (golang-jwt with keyfunc) is a
    parameter: what it reads from a token, and the checks its options ask for.
    Logging, the counter and the refresh of the keys are left out. *)
From S2P Require Import Prelude GoText GoFloat GoTime Domain Json Auth.
Import Auth.

(** ** The library *)

(** What a token says; [tok_Exp] and [tok_Nbf] are seconds since the epoch. *)
Record Token := {
  tok_Alg : string; tok_Issuer : string; tok_Audience : list string;
  tok_Exp : option Z; tok_Nbf : option Z;
  tok_Subject : string; tok_Role : string; tok_TenantIDs : list string }.

(** The parser's options. *)
Record ParserOptions := {
  po_ValidMethods : list string; po_ExpirationRequired : bool;
  po_Issuer : option string; po_Audience : option string; po_Leeway : Z }.

(** [jwt.ParseWithClaims] at an instant: the claims and whether the token is
    marked valid, or an error. [signed_by_keys] is that a key of the endpoint
    verifies the signature over this text. *)
Class JwtLib := {
  ParseWithClaims : ParserOptions → string → Z → result error (Token * bool);
  signed_by_keys : string → Token → Prop }.

(** The documented checks of the library. *)
Class JwtLibOk `{JwtLib} : Prop := {
  parse_checks opts raw now t valid :
    ParseWithClaims opts raw now = Ok (t, valid) →
    signed_by_keys raw t ∧ tok_Alg t ∈ po_ValidMethods opts
    ∧ (po_ExpirationRequired opts = true → is_Some (tok_Exp t))
    ∧ (∀ e, tok_Exp t = Some e → (now < e * Second + po_Leeway opts)%Z)
    ∧ (∀ b, tok_Nbf t = Some b → (b * Second - po_Leeway opts ≤ now)%Z)
    ∧ (∀ i, po_Issuer opts = Some i → tok_Issuer t = i)
    ∧ (∀ a, po_Audience opts = Some a → a ∈ tok_Audience t) }.

(** ** The interceptor *)
Record Interceptor := { issuer : string; audience : string; leeway : Z }.

Definition defaultLeeway : Z := 60 * Second.
Inductive InterceptorOption := WithIssuer (s : string) | WithAudience (s : string) | WithLeeway (d : Z).
Definition apply_option (i : Interceptor) (o : InterceptorOption) : Interceptor :=
  match o with
  | WithIssuer s => {| issuer := s; audience := audience i; leeway := leeway i |}
  | WithAudience s => {| issuer := issuer i; audience := s; leeway := leeway i |}
  | WithLeeway d => {| issuer := issuer i; audience := audience i; leeway := d |}
  end.
Definition NewInterceptor (opts : list InterceptorOption) : Interceptor :=
  foldl apply_option {| issuer := ""; audience := ""; leeway := defaultLeeway |} opts.

Definition bearer : string := "Bearer ".
Definition extractBearerToken (md : option MD) : result error string :=
  match md with
  | None => Err (Errorf "missing metadata" [])
  | Some md =>
      match md !! "authorization" with
      | None | Some [] => Err (Errorf "missing authorization header" [])
      | Some (token :: _) =>
          if HasPrefix token bearer then Ok (str_skip (str_len bearer) token)
          else Err (Errorf "invalid authorization format" [])
      end
  end.

Definition parser_options (i : Interceptor) : ParserOptions := {|
  po_ValidMethods := ["RS256"; "ES256"]; po_ExpirationRequired := true;
  po_Issuer := if bool_decide (issuer i = "") then None else Some (issuer i);
  po_Audience := if bool_decide (audience i = "") then None else Some (audience i);
  po_Leeway := if (0 <? leeway i)%Z then leeway i else 0%Z |}.

Definition claims_of (t : Token) : Claims :=
  {| Subject := tok_Subject t; role := role_of_string (tok_Role t); TenantIDs := tok_TenantIDs t |}.

Section interceptor.
Context `{JwtLib}.

Definition authenticate (i : Interceptor) (md : option MD) (now : Z) (ctx : Ctx) : result error Ctx :=
  match extractBearerToken md with
  | Err (Errorf fmt args) => Err (Status Unauthenticated fmt args)
  | Err e => Err e
  | Ok token =>
      match ParseWithClaims (parser_options i) token now with
      | Err _ => Err (Status0 Unauthenticated "invalid token")
      | Ok (t, valid) =>
          if negb valid then Err (Status0 Unauthenticated "invalid token")
          else
            let claims := claims_of t in
            match role claims with
            | RoleOther _ => Err (Status0 PermissionDenied "unknown role")
            | r =>
                if negb (bool_decide (r = RoleSuperAdmin)) && bool_decide (TenantIDs claims = [])
                then Err (Status0 PermissionDenied "tenant_ids required for non-superadmin")
                else Ok (ContextWithClaims ctx claims)
            end
      end
  end.

Definition JwtUnary {A} (i : Interceptor) (md : option MD) (now : Z) (fullMethod : string)
    (handler : Ctx → result error A) (ctx : Ctx) : result error A :=
  if skipAuth fullMethod then handler ctx
  else let? ctx' := authenticate i md now ctx in handler ctx'.
Definition JwtStream {A} (i : Interceptor) (md : option MD) (now : Z)
    (handler : Ctx → result error A) (ctx : Ctx) : result error A :=
  let? ctx' := authenticate i md now ctx in handler ctx'.
End interceptor.

(** * Properties *)
Module JwtFacts.
Section facts.
Context `{JwtLibOk}.

Lemma bearer_token md token :
  extractBearerToken md = Ok token → firstMetadataValue md "authorization" = bearer +:+ token.
Proof.
  unfold extractBearerToken, firstMetadataValue. destruct md as [md|]; [|done].
  destruct (md !! "authorization") as [[|h hs]|]; [done| |done].
  destruct (HasPrefix h bearer) eqn:Hp; [|done]. apply HasPrefix_spec in Hp as [t ->]. by intros [= <-].
Qed.

(** What the interceptor requires of a token, and what the handler sees. *)
Definition vouched (i : Interceptor) (now : Z) (raw : string) (t : Token) : Prop :=
  signed_by_keys raw t ∧ (tok_Alg t = "RS256" ∨ tok_Alg t = "ES256")
  ∧ (∃ e, tok_Exp t = Some e ∧ (now < e * Second + Z.max 0 (leeway i))%Z)
  ∧ (∀ b, tok_Nbf t = Some b → (b * Second - Z.max 0 (leeway i) ≤ now)%Z)
  ∧ (issuer i ≠ "" → tok_Issuer t = issuer i)
  ∧ (audience i ≠ "" → audience i ∈ tok_Audience t).

Lemma options_vouch i raw now t valid :
  ParseWithClaims (parser_options i) raw now = Ok (t, valid) → vouched i now raw t.
Proof.
  intros (Hs & Ha & He & Hexp & Hnbf & Hi & Haud)%parse_checks. simpl in *.
  assert ((if 0 <? leeway i then leeway i else 0)%Z = Z.max 0 (leeway i)) as Hl by (destruct (Z.ltb_spec 0 (leeway i)); lia).
  rewrite Hl in *. destruct (He eq_refl) as [e Hte]. split_and!; try done; eauto.
  - apply elem_of_cons in Ha as [->|Ha]; [by left|]. apply list_elem_of_singleton in Ha. by right.
  - intros Hne. apply Hi. by rewrite bool_decide_false.
  - intros Hne. apply Haud. by rewrite bool_decide_false.
Qed.

(** What a token lets in. The request carried it as a bearer token, a key of
    the endpoint signed it with RS256 or ES256, it expires and has not expired,
    its issuer and audience are the configured ones; the handler sees its
    subject and tenants with a known role, and at least one tenant unless the
    role is superadmin. *)
Theorem jwt_claims_sound i md now ctx ctx' :
  authenticate i md now ctx = Ok ctx' →
  ∃ raw t, firstMetadataValue md "authorization" = bearer +:+ raw ∧ vouched i now raw t
    ∧ ctx_claims ctx' = Some (claims_of t)
    ∧ (tok_Role t = "superadmin"
       ∨ (tok_Role t = "admin" ∨ tok_Role t = "user") ∧ tok_TenantIDs t ≠ []).
Proof.
  unfold authenticate. intros E. destruct (extractBearerToken md) as [raw|[]] eqn:Hb; try done.
  destruct (ParseWithClaims (parser_options i) raw now) as [[t valid]|] eqn:Hp; [|done].
  destruct valid; [|done]. simpl in E. exists raw, t. split; [by apply bearer_token|].
  split; [by eapply options_vouch|]. unfold role_of_string in E.
  repeat case_bool_decide; simplify_eq/=; naive_solver.
Qed.

(** Whichever interceptor let a request in, only a superadmin's listing is not
    restricted to the tenants of the claims. *)
Theorem listing_is_restricted i m md now ctx ctx' :
  authenticate i md now ctx = Ok ctx' ∨ extractClaims m md ctx = Ok ctx' →
  AllowedTenantIDs ctx' = None → IsSuperAdmin ctx' = true.
Proof.
  intros Hin. assert (∃ c, ctx_claims ctx' = Some c ∧ (role c = RoleSuperAdmin ∨ TenantIDs c ≠ [])) as (c & Hc & Hr).
  { destruct Hin as [(raw & t & _ & _ & Hc & Hr)%jwt_claims_sound|(c & Hc & _ & _ & _ & _ & Hr & _)%AuthFacts.metadata_claims_sound].
    - exists (claims_of t). split; [done|]. simpl. destruct Hr as [->|[_ Hr]]; [by left|by right].
    - exists c. naive_solver. }
  unfold AllowedTenantIDs, IsSuperAdmin. rewrite Hc. unfold claims_IsSuperAdmin.
  case_bool_decide; [done|]. destruct Hr as [|Hr]; [done|]. by destruct (TenantIDs c).
Qed.
End facts.

(** ** A library that knows one token *)
Definition token_ex : Token := {|
  tok_Alg := "RS256"; tok_Issuer := "https://issuer.example"; tok_Audience := ["decree"];
  tok_Exp := Some 1000%Z; tok_Nbf := None; tok_Subject := "alice"; tok_Role := "admin"; tok_TenantIDs := ["t1"] |}.
Definition one_token : JwtLib := {|
  ParseWithClaims opts raw now :=
    if bool_decide (raw = "abc") && bool_decide (tok_Alg token_ex ∈ po_ValidMethods opts)
       && (now <? 1000 * Second + po_Leeway opts)%Z
       && from_option (λ i, bool_decide (i = tok_Issuer token_ex)) true (po_Issuer opts)
       && from_option (λ a, bool_decide (a ∈ tok_Audience token_ex)) true (po_Audience opts)
    then Ok (token_ex, true) else Err (Errorf "token is invalid" []);
  signed_by_keys raw t := raw = "abc" ∧ t = token_ex |}.
Lemma one_token_ok : @JwtLibOk one_token.
Proof.
  split. intros opts raw now t valid. simpl. destruct (_ && _) eqn:E; [|done]. intros H. injection H as Ht Hv. subst t valid.
  apply andb_true_iff in E as [[[[E1%bool_decide_eq_true E2%bool_decide_eq_true]%andb_true_iff E3%Z.ltb_lt]%andb_true_iff
    E4]%andb_true_iff E5].
  split_and!; try done.
  - intros e He. injection He as He. by subst e.
  - intros i Hi. rewrite Hi in E4. by apply bool_decide_eq_true in E4.
  - intros a Ha. rewrite Ha in E5. by apply bool_decide_eq_true in E5.
Qed.

Definition jwt_ex : Interceptor := NewInterceptor [WithIssuer "https://issuer.example"; WithAudience "decree"].
Definition md_ex : MD := {["authorization" := ["Bearer abc"]]}.

(** The token is accepted until the leeway after its expiry, and not for
    another audience or without its scheme. *)
Example authenticate_ex :
  let auth i md now := @authenticate one_token i (Some md) now (mkCtx None false None) in
  result_map ctx_claims (auth jwt_ex md_ex (1030 * Second)%Z) = Ok (Some (claims_of token_ex))
  ∧ auth jwt_ex md_ex (1060 * Second)%Z = Err (Status0 Unauthenticated "invalid token")
  ∧ auth (NewInterceptor [WithAudience "other"]) md_ex 0%Z = Err (Status0 Unauthenticated "invalid token")
  ∧ auth jwt_ex {["authorization" := ["abc"]]} 0%Z = Err (Status0 Unauthenticated "invalid authorization format").
Proof. vm_compute. done. Qed.
End JwtFacts.
