(* ===== verification/RateLimit.v ===== *)
(** * Rate limiting ([internal/ratelimit])

    [limiter.go]: one token bucket per key behind a bounded LRU list, with a
    quarantine log for evicted keys; [interceptor.go]: the bucket key of a
    request and the interceptors. The token buckets belong to
    [golang.org/x/time/rate] and are a parameter with the law its documentation
    states. A [*rate.Limiter] is a pointer that a caller keeps after the mutex
    is released, so buckets live in a heap and the list holds their addresses.
    A [container/list] is kept from its back to its front. Logging and the
    metrics counter are left out. *)
From S2P Require Import Prelude GoText Domain Auth Lru.
From Stdlib Require Import Ascii.

(** ** Token buckets

    The rate is the exact value of a finite [rate.Limit], in tokens per second,
    as a fraction; instants are nanoseconds. *)
Record Limit := { lim_num : Z; lim_den : Z }.

(** Whole tokens a bucket gains in [d] nanoseconds. *)
Definition refill (l : Limit) (d : Z) : Z := Z.div (lim_num l * d) (lim_den l * 1000000000).

Class TokenBucket := {
  Bucket : Type;
  NewLimiter : Limit → Z → Bucket;
  AllowN : Z → Z → Bucket → bool * Bucket;
}.

Section history.
Context `{TokenBucket}.

(** A call [AllowN(t, n)] and its answer. *)
Record Call := { c_time : Z; c_n : Z; c_ok : bool }.

(** [history lim burst t h b]: the bucket [b] was new and then received the
    calls [h], the oldest first, at instants that do not decrease, the last
    one not after [t]. *)
Inductive history (lim : Limit) (burst : Z) : Z → list Call → Bucket → Prop :=
  | history_new t : history lim burst t [] (NewLimiter lim burst)
  | history_call t t' h b n ok b' :
    history lim burst t h b → (t ≤ t')%Z → AllowN t' n b = (ok, b') →
    history lim burst t' (h ++ [{| c_time := t'; c_n := n; c_ok := ok |}]) b'.

Definition granted (h : list Call) : Z := foldr (λ c s, (if c_ok c then c_n c else 0) + s)%Z 0%Z h.
End history.

(** What the package documents: a bucket starts full, and from any call on it
    grants at most its size and what it gained since. *)
Class TokenBucketOk `{TokenBucket} (lim : Limit) (burst : Z) : Prop := {
  bucket_full t : (AllowN t burst (NewLimiter lim burst)).1 = true;
  bucket_rate t before first h b :
    history lim burst t (before ++ first :: h) b →
    (granted (first :: h) ≤ burst + refill lim (t - c_time first))%Z;
}.

(** ** The limiter *)
Section limiter.
Context `{TokenBucket}.

Record InProcessLimiter := mkLimiter {
  limit : Limit;
  burst : Z;
  maxBuckets : Z;
  ll : list (Element nat);      (* back first; the value is the bucket's address *)
  keys : gmap string nat;
  qll : list (Element unit);    (* back first *)
  qmap : gmap string nat;
  next_el : nat;                (* allocator of list elements *)
  heap : list Bucket            (* every bucket made so far *)
}.

Definition defaultMaxBuckets : Z := 100000.

(** [NewInProcess]; the one option is [WithMaxBuckets]. *)
Definition NewInProcess (lim : Limit) (b : Z) (withMaxBuckets : option Z) : InProcessLimiter :=
  mkLimiter lim b (default defaultMaxBuckets withMaxBuckets) [] ∅ [] ∅ 0 [].

(** [quarantine] adds [key] to the log and drops the oldest entry of a full one. *)
Definition quarantine (key : string) (l : InProcessLimiter) : InProcessLimiter :=
  match qmap l !! key with
  | Some _ => l
  | None =>
    let qel := Build_Element (next_el l) key tt in
    let q := qll l ++ [qel] in
    let qm := <[key := el_id qel]> (qmap l) in
    let '(q, qm) :=
      if bool_decide (maxBuckets l < Z.of_nat (length q))%Z then
        match q with
        | qback :: _ => (remove_id (el_id qback) q, delete (el_key qback) qm)
        | [] => (q, qm)
        end
      else (q, qm) in
    mkLimiter (limit l) (burst l) (maxBuckets l) (ll l) (keys l) q qm (S (next_el l)) (heap l)
  end.

(** The part of [Allow] under the mutex: the address of the key's bucket. The
    instant [now] is read only to drain the bucket of a quarantined key.
    [None] would be an index entry without its list element. *)
Definition acquire (key : string) (now : Z) (l : InProcessLimiter) : option nat * InProcessLimiter :=
  match keys l !! key with
  | Some el =>
    let o := MoveToBack el (ll l) in
    (el_val <$> find_id el o,
     mkLimiter (limit l) (burst l) (maxBuckets l) o (keys l) (qll l) (qmap l) (next_el l) (heap l))
  | None =>
    let rl := NewLimiter (limit l) (burst l) in
    let rl := if bool_decide (is_Some (qmap l !! key)) then (AllowN now (burst l) rl).2 else rl in
    let p := length (heap l) in
    let el := Build_Element (next_el l) key p in
    let l := mkLimiter (limit l) (burst l) (maxBuckets l) (ll l ++ [el]) (<[key := el_id el]> (keys l))
               (qll l) (qmap l) (S (next_el l)) (heap l ++ [rl]) in
    let l :=
      if bool_decide (maxBuckets l < Z.of_nat (length (ll l)))%Z then
        match ll l with
        | back :: _ =>
          quarantine (el_key back)
            (mkLimiter (limit l) (burst l) (maxBuckets l) (remove_id (el_id back) (ll l))
               (delete (el_key back) (keys l)) (qll l) (qmap l) (next_el l) (heap l))
        | [] => l
        end
      else l in
    (Some p, l)
  end.

(** [rl.Allow()] on the bucket at [p], after the mutex is released. *)
Definition allow_bucket (p : nat) (now : Z) (l : InProcessLimiter) : bool * InProcessLimiter :=
  match heap l !! p with
  | Some b =>
    let '(ok, b) := AllowN now 1 b in
    (ok, mkLimiter (limit l) (burst l) (maxBuckets l) (ll l) (keys l) (qll l) (qmap l) (next_el l) (<[p := b]> (heap l)))
  | None => (false, l)
  end.

(** [Allow]: the clock is read at [t1] for the drain and at [t2] for the
    decision. *)
Definition Allow (key : string) (t1 t2 : Z) (l : InProcessLimiter) : bool * InProcessLimiter :=
  match acquire key t1 l with
  | (Some p, l) => allow_bucket p t2 l
  | (None, l) => (false, l)
  end.
End limiter.
Arguments InProcessLimiter {_}.

(** ** The interceptor *)
Module Interceptor.
Import Auth.

Section interceptor.
(** The [Limiter] interface: a call reads the clock and changes the limiter. *)
Context {L : Type}.
Variable Limiter_Allow : string → L → bool * L.

(** A missing limiter means unlimited. *)
Record Config := {
  Global : option L;
  Anonymous : option L;
  Authenticated : option L;
  SuperAdmin : option L;
  TrustedProxy : bool;
}.

Definition healthServicePrefix : string := "/grpc.health.v1.Health/".

(** What the transport puts in the context besides the claims: the metadata
    and the peer's address. *)
Record Conn := { c_ctx : Ctx; c_md : option MD; c_peer : option string }.

(** [net.SplitHostPort], the host; [None] is an error. *)
Fixpoint last_colon (s : string) : option (string * string) :=
  match s with
  | EmptyString => None
  | String c s' =>
    match last_colon s' with
    | Some (a, b) => Some (String c a, b)
    | None => if bool_decide (c = ":"%char) then Some (""%string, s') else None
    end
  end.
Definition SplitHost (hostport : string) : option string :=
  '(before, port) ← last_colon hostport;
  match before with
  | String "["%char rest =>
    '(host, tail) ← cut_char "]"%char rest;
    if bool_decide (tail = ""%string) && no_char "["%char rest && no_char "]"%char port && no_char "["%char port
    then Some host else None
  | _ =>
    if no_char ":"%char before && no_char "["%char hostport && no_char "]"%char hostport
    then Some before else None
  end.

Definition clientIP (conn : Conn) (trustedProxy : bool) : string :=
  let forwarded :=
    if trustedProxy then
      match c_md conn with
      | Some md =>
        match md !! "x-forwarded-for" with
        | Some (v :: _) => default ""%string (TrimSpace <$> head (SplitN 2 ","%char v))
        | _ => ""%string
        end
      | None => ""%string
      end
    else ""%string in
  if negb (bool_decide (forwarded = ""%string)) then forwarded else
  match c_peer conn with
  | Some addr => default addr (SplitHost addr)
  | None => "unknown"
  end.

(** [slices.Sort] and [slices.Compact]. *)
Fixpoint Compact (l : list string) : list string :=
  match l with
  | x :: ((y :: _) as l') => if bool_decide (x = y) then Compact l' else x :: Compact l'
  | _ => l
  end.
Definition sortedUniq (ids : list string) : list string := Compact (merge_sort String.le ids).

Inductive RoleLabel := anonymous | superadmin | authenticated.

Definition bucketKey (cfg : Config) (conn : Conn) (method : string) : RoleLabel * string :=
  match ctx_claims (c_ctx conn) with
  | None => (anonymous, "anon:" +:+ clientIP conn (TrustedProxy cfg) +:+ ":" +:+ method)
  | Some claims =>
    if claims_IsSuperAdmin claims then (superadmin, "sa:" +:+ Subject claims +:+ ":" +:+ method)
    else (authenticated, "t:" +:+ String.concat "," (sortedUniq (TenantIDs claims)) +:+ ":" +:+ method)
  end.

(** A limiter that may be nil. *)
Definition ask (key : string) (l : option L) : bool * option L :=
  match l with
  | None => (true, None)
  | Some l => let '(ok, l) := Limiter_Allow key l in (ok, Some l)
  end.

Definition allow (role : RoleLabel) (key method : string) (cfg : Config) : bool * Config :=
  let '(ok, g) := ask method (Global cfg) in
  let cfg := Build_Config g (Anonymous cfg) (Authenticated cfg) (SuperAdmin cfg) (TrustedProxy cfg) in
  if negb ok then (false, cfg) else
  match role with
  | superadmin =>
    let '(ok, l) := ask key (SuperAdmin cfg) in
    (ok, Build_Config (Global cfg) (Anonymous cfg) (Authenticated cfg) l (TrustedProxy cfg))
  | authenticated =>
    let '(ok, l) := ask key (Authenticated cfg) in
    (ok, Build_Config (Global cfg) (Anonymous cfg) l (SuperAdmin cfg) (TrustedProxy cfg))
  | anonymous =>
    let '(ok, l) := ask key (Anonymous cfg) in
    (ok, Build_Config (Global cfg) l (Authenticated cfg) (SuperAdmin cfg) (TrustedProxy cfg))
  end.

Definition exhaustedErr : error := Status0 ResourceExhausted "rate limit exceeded; retry after 1s".

Definition UnaryInterceptor {A} (conn : Conn) (fullMethod : string) (handler : result error A) (cfg : Config) :
    result error A * Config :=
  if HasPrefix fullMethod healthServicePrefix then (handler, cfg) else
  let '(role, key) := bucketKey cfg conn fullMethod in
  let '(ok, cfg) := allow role key fullMethod cfg in
  if ok then (handler, cfg) else (Err exhaustedErr, cfg).

(** A stream is the handler's script of messages to send and its own result;
    [meteredStream.SendMsg] asks the limiter before each message, and the
    handler returns the error of a failed send, as [Subscribe], the one stream
    of the API, does. *)
Fixpoint send_metered {M} (role : RoleLabel) (key method : string) (msgs sent : list M) (final : result error unit)
    (cfg : Config) : list M * result error unit * Config :=
  match msgs with
  | [] => (sent, final, cfg)
  | m :: msgs =>
    let '(ok, cfg) := allow role key method cfg in
    if ok then send_metered role key method msgs (sent ++ [m]) final cfg else (sent, Err exhaustedErr, cfg)
  end.

Definition StreamInterceptor {M} (conn : Conn) (fullMethod : string) (msgs : list M) (final : result error unit)
    (cfg : Config) : list M * result error unit * Config :=
  if HasPrefix fullMethod healthServicePrefix then (msgs, final, cfg) else
  let '(role, key) := bucketKey cfg conn fullMethod in
  let '(ok, cfg) := allow role key fullMethod cfg in
  if ok then send_metered role key fullMethod msgs [] final cfg else ([], Err exhaustedErr, cfg).
End interceptor.
End Interceptor.
