(* ===== verification/RateLimitFacts.v ===== *)
(** * Properties of the rate limiter

    The lists stay within their bound and agree with their indexes; a key gets
    no more than its rate allows as long as the quarantine log is not full;
    requests share a bucket exactly when they agree on caller and method. *)
From S2P Require Import Prelude GoText Domain Auth Lru RateLimit.
From Stdlib Require Import Ascii.

Local Open Scope Z_scope.

(** Lookups do not depend on the order of distinct keys. *)
Lemma al_lookup_perm {V} k (l1 l2 : list (string * V)) :
  NoDup l1.*1 → l1 ≡ₚ l2 → al_lookup k l1 = al_lookup k l2.
Proof.
  intros Hnd Hp. apply option_eq. intros v.
  rewrite !al_lookup_iff; [by rewrite Hp|by rewrite <-Hp|done].
Qed.

(** The index of a well-formed map has the keys of its list. *)
Lemma wf_index {V} (c : LRU V) k : wf c → is_Some (items c !! k) ↔ k ∈ el_key <$> order c.
Proof.
  intros [_ _ _ Hit]. rewrite list_elem_of_fmap. split.
  - intros [id Hid]. apply Hit in Hid as [v Hv]. eexists. split; [|exact Hv]. done.
  - intros (e & -> & He). exists (el_id e). apply Hit. exists (el_val e). by destruct e.
Qed.

Section structure.
Context `{TokenBucket}.
Implicit Types l : InProcessLimiter.

(** The two lists with their indexes, seen as LRU maps. *)
Definition main_view l : LRU nat := mkLRU (maxBuckets l) (keys l) (ll l) (next_el l).
Definition log_view l : LRU unit := mkLRU (maxBuckets l) (qmap l) (qll l) (next_el l).

Record wf_limiter l : Prop := {
  wf_main : wf (main_view l);
  wf_log : wf (log_view l);
  wf_main_size : Z.of_nat (length (ll l)) ≤ Z.max 0 (maxBuckets l);
  wf_log_size : Z.of_nat (length (qll l)) ≤ Z.max 0 (maxBuckets l);
  wf_addr : NoDup (el_val <$> ll l);
  wf_alive : ∀ e, e ∈ ll l → (el_val e < length (heap l))%nat;
}.

Lemma wf_limiter_new lim b n : wf_limiter (NewInProcess lim b n).
Proof.
  constructor; simpl; try apply wf_New; try lia; [constructor|]. intros e He. by apply not_elem_of_nil in He.
Qed.

(** Ids may be skipped. *)
Lemma wf_skip_id {V} (c : LRU V) n :
  wf c → (next_id c ≤ n)%nat → wf (mkLRU (cap c) (items c) (order c) n).
Proof.
  intros [Hids Hkeys Hal Hit] Hn. constructor; simpl; [done..| |done].
  intros e He%Hal. lia.
Qed.

(** The log after a quarantine: a key that is there already changes nothing,
    else it is the newest and the oldest one goes when the log is full. *)
Lemma quarantine_spec key l :
  wf (log_view l) → Z.of_nat (length (qll l)) ≤ Z.max 0 (maxBuckets l) →
  let l' := quarantine key l in
  wf (log_view l') ∧ Z.of_nat (length (qll l')) ≤ Z.max 0 (maxBuckets l')
  ∧ (limit l', burst l', maxBuckets l', ll l', keys l', heap l') = (limit l, burst l, maxBuckets l, ll l, keys l, heap l)
  ∧ (next_el l ≤ next_el l')%nat
  ∧ el_key <$> qll l' =
      if bool_decide (is_Some (qmap l !! key)) then el_key <$> qll l else
      drop (if bool_decide (maxBuckets l ≤ Z.of_nat (length (qll l))) then 1 else 0) ((el_key <$> qll l) ++ [key]).
Proof.
  intros Hwf Hsz. unfold quarantine. destruct (qmap l !! key) as [i|] eqn:Hk.
  { rewrite bool_decide_true by eauto. simpl. split_and!; done || lia. }
  rewrite (bool_decide_false (is_Some None)) by (intros [? ?]; done).
  pose proof (wf_push (log_view l) key tt Hwf Hk) as Hpush. simpl in Hpush.
  rewrite length_app. simpl.
  destruct (bool_decide_reflect (maxBuckets l ≤ Z.of_nat (length (qll l)))) as [Hfull|Hroom].
  - rewrite bool_decide_true by lia.
    destruct (qll l ++ [_]) as [|qback rest] eqn:Hq; [by destruct (qll l)|]. simpl.
    destruct (evict_front _ qback rest Hpush eq_refl) as (Hwf' & Ho' & _). simpl in Ho', Hwf'.
    assert (length rest = length (qll l)) as Hlen.
    { apply (f_equal length) in Hq. rewrite length_app in Hq. simpl in Hq. lia. }
    split_and!; [exact Hwf'|rewrite Ho'; lia|done|lia|].
    rewrite Ho'. apply (f_equal (fmap el_key)) in Hq. rewrite fmap_app in Hq. simpl in Hq.
    unfold fmap in *. by rewrite Hq.
  - rewrite bool_decide_false by lia. simpl. rewrite length_app. simpl.
    split_and!; [exact Hpush|lia|done|lia|by rewrite fmap_app].
Qed.

(** The keys of the log, the oldest first, and the bucket of a key. *)
Definition logged l : list string := el_key <$> qll l.
Definition bucket_of l (k : string) : option nat := al_lookup k (entries (main_view l)).

Lemma logged_qmap l key : wf (log_view l) → is_Some (qmap l !! key) ↔ key ∈ logged l.
Proof. apply wf_index. Qed.

Lemma keys_bucket_of l key : wf (main_view l) → keys l !! key = None ↔ bucket_of l key = None.
Proof.
  intros Hwf. split; [by apply (al_lookup_entries_None (main_view l))|].
  unfold bucket_of. rewrite <-Peek_spec by done. unfold Peek. simpl.
  destruct (keys l !! key) as [id|] eqn:Hk; [|done].
  destruct (wf_split (main_view l) key id Hwf Hk) as (v & l1 & l2 & Ho & Hid & _). simpl in Ho.
  rewrite Ho, find_id_middle; [done|]. rewrite fmap_app in Hid. by apply not_elem_of_app in Hid as [? _].
Qed.

(** The bucket a new key gets: full, or drained for a key in the log. *)
Definition fresh_bucket l (key : string) (now : Z) : Bucket :=
  let rl := NewLimiter (limit l) (burst l) in
  if bool_decide (key ∈ logged l) then (AllowN now (burst l) rl).2 else rl.

(** A key with a bucket: it is promoted, and nothing else changes. *)
Lemma acquire_hit key now l p :
  wf_limiter l → bucket_of l key = Some p →
  let '(r, l') := acquire key now l in
  r = Some p ∧ wf_limiter l'
  ∧ (limit l', burst l', maxBuckets l', heap l', logged l') = (limit l, burst l, maxBuckets l, heap l, logged l)
  ∧ ∀ k, bucket_of l' k = bucket_of l k.
Proof.
  intros [Hm Hq Hs Hqs Had Hal] Hb.
  unfold acquire. destruct (keys l !! key) as [id|] eqn:Hk;
    [|apply keys_bucket_of in Hk; [congruence|done]].
  destruct (wf_split (main_view l) key id Hm Hk) as (v & l1 & l2 & Ho & Hid & Hkey). simpl in Ho.
  pose proof (wf_ids _ Hm) as Hnd. simpl in Hnd. rewrite Ho in Hnd.
  rewrite Ho, MoveToBack_middle by done. rewrite find_id_middle by done. simpl.
  rewrite fmap_app in Hkey. apply not_elem_of_app in Hkey as [Hk1 Hk2]. rewrite <-!entries_keys in Hk1, Hk2.
  assert (p = v) as ->.
  { unfold bucket_of in Hb. rewrite (entries_app l1 _ (main_view l) Ho) in Hb. simpl in Hb.
    rewrite al_lookup_middle in Hb by done. congruence. }
  assert ((l1 ++ l2) ++ [Build_Element id key v] ≡ₚ ll l) as Hperm by (rewrite Ho; solve_Permutation).
  split_and!; [done| |done|].
  - constructor; simpl; [by apply (wf_promote (main_view l) key id v v l1 l2 Hm Ho)|done| |done| |].
    + by rewrite Hperm.
    + by rewrite Hperm.
    + intros e He. apply Hal. by rewrite <-Hperm.
  - intros k. apply al_lookup_perm; [|by apply fmap_Permutation].
    unfold entries. rewrite entries_keys. simpl. rewrite Hperm. apply (wf_keys _ Hm).
Qed.

(** A key without a bucket: it gets one, at a new address, and when the list
    was full the least recently used key loses its own and is logged. *)
Lemma acquire_miss key now l :
  wf_limiter l → bucket_of l key = None →
  let '(r, l') := acquire key now l in
  let full := bool_decide (maxBuckets l ≤ Z.of_nat (length (ll l))) in
  r = Some (length (heap l)) ∧ wf_limiter l'
  ∧ (limit l', burst l', maxBuckets l', heap l') =
      (limit l, burst l, maxBuckets l, heap l ++ [fresh_bucket l key now])
  ∧ entries (main_view l') = drop (if full then 1 else 0) (entries (main_view l) ++ [(key, length (heap l))])
  ∧ logged l' =
      match (entries (main_view l) ++ [(key, length (heap l))]) with
      | (k, _) :: _ =>
        if full && bool_decide (k ∉ logged l) then
          drop (if bool_decide (maxBuckets l ≤ Z.of_nat (length (logged l))) then 1 else 0) (logged l ++ [k])
        else logged l
      | [] => logged l
      end.
Proof.
  intros [Hm Hq Hs Hqs Had Hal] Hb. apply keys_bucket_of in Hb; [|done].
  unfold acquire, fresh_bucket. rewrite Hb.
  rewrite (bool_decide_ext (is_Some (qmap l !! key)) (key ∈ logged l)) by (by apply logged_qmap).
  set (rl := if bool_decide (key ∈ logged l) then _ else _).
  pose proof (wf_push (main_view l) key (length (heap l)) Hm Hb) as Hpush. simpl in Hpush.
  pose proof (wf_skip_id (log_view l) (S (next_el l)) Hq ltac:(simpl; lia)) as Hq'. simpl in Hq'.
  set (el := Build_Element (next_el l) key (length (heap l))) in *. simpl.
  assert (∀ e, e ∈ ll l ++ [el] → (el_val e < length (heap l ++ [rl]))%nat) as Hal'.
  { intros e [He%Hal|He%list_elem_of_singleton]%elem_of_app; rewrite length_app; simpl; [lia|subst; simpl; lia]. }
  assert (NoDup (el_val <$> (ll l ++ [el]))) as Had'.
  { rewrite fmap_app. apply NoDup_app. split_and!; [done| |apply NoDup_singleton].
    intros x (e & -> & He%Hal)%list_elem_of_fmap Hx%list_elem_of_singleton. simpl in Hx. lia. }
  rewrite length_app. simpl.
  destruct (bool_decide_reflect (maxBuckets l ≤ Z.of_nat (length (ll l)))) as [Hfull|Hroom].
  2:{ rewrite bool_decide_false by lia.
      split_and!; [done| |done|unfold entries; simpl; by rewrite fmap_app|by destruct (entries (main_view l)) as [|[]]].
      constructor; simpl; [exact Hpush|exact Hq'|rewrite length_app; simpl; lia|done|done|done]. }
  rewrite bool_decide_true by lia.
  destruct (ll l ++ [el]) as [|back rest] eqn:Hll; [by destruct (ll l)|].
  destruct (evict_front _ back rest Hpush eq_refl) as (Hwf' & Ho' & _). simpl in Ho', Hwf'.
  rewrite Ho' in *.
  assert (length rest = length (ll l)) as Hlen.
  { apply (f_equal length) in Hll. rewrite length_app in Hll. simpl in Hll. lia. }
  assert (entries (main_view l) ++ [(key, length (heap l))] =
    (el_key back, el_val back) :: ((λ e, (el_key e, el_val e)) <$> rest)) as Hent.
  { unfold entries. simpl. change [(key, length (heap l))] with ((λ e, (el_key e, el_val e)) <$> [el]).
    rewrite <-fmap_app. unfold fmap in *. by rewrite Hll. }
  match goal with |- context [quarantine _ ?m] => set (m1 := m) end.
  destruct (quarantine_spec (el_key back) m1 Hq' Hqs) as (Hwq & Hlq & Hsame & Hnext & Hlog).
  set (m2 := quarantine (el_key back) m1) in *. simpl in Hlog, Hnext.
  injection Hsame as E1 E2 E3 E4 E5 E6.
  split_and!.
  - done.
  - constructor; rewrite ?E3, ?E4, ?E6.
    + unfold main_view. rewrite E3, E4, E5. by apply (wf_skip_id _ (next_el m2) Hwf').
    + done.
    + lia.
    + by rewrite <-E3.
    + by apply NoDup_cons_1_2 in Had'.
    + intros e He. apply Hal'. by right.
  - by rewrite E1, E2, E3, E6.
  - rewrite Hent. unfold entries. simpl. by rewrite E4.
  - rewrite Hent. unfold logged. rewrite Hlog. simpl.
    rewrite (bool_decide_ext (is_Some (qmap l !! el_key back)) (el_key back ∈ logged l)) by (by apply logged_qmap).
    fold (logged l). replace (length (logged l)) with (length (qll l)) by (unfold logged; by rewrite length_fmap).
    destruct (decide (el_key back ∈ logged l)).
    + by rewrite (bool_decide_true (el_key back ∈ _)), (bool_decide_false (_ ∉ _)) by tauto.
    + by rewrite (bool_decide_false (el_key back ∈ _)), (bool_decide_true (_ ∉ _)) by done.
Qed.
End structure.

(** ** Steps of concurrent callers

    A call of [Allow] is a step under the mutex and a later step on its bucket;
    steps of different calls interleave freely. *)
Section steps.
Context `{TokenBucket}.
Implicit Types l : InProcessLimiter.

Inductive lstep := SAcquire (key : string) (now : Z) | SDecide (p : nat) (now : Z).
Definition run_lstep (l : InProcessLimiter) (s : lstep) : InProcessLimiter :=
  match s with
  | SAcquire key now => (acquire key now l).2
  | SDecide p now => (allow_bucket p now l).2
  end.

Lemma acquire_wf key now l : wf_limiter l → wf_limiter (acquire key now l).2 ∧ maxBuckets (acquire key now l).2 = maxBuckets l.
Proof.
  intros Hwf. destruct (bucket_of l key) as [p|] eqn:Hb.
  - pose proof (acquire_hit key now l p Hwf Hb) as Ha. destruct (acquire key now l) as [r l'].
    destruct Ha as (_ & ? & Hs & _). by injection Hs.
  - pose proof (acquire_miss key now l Hwf Hb) as Ha. destruct (acquire key now l) as [r l'].
    destruct Ha as (_ & ? & Hs & _). by injection Hs.
Qed.

Lemma allow_bucket_wf p now l : wf_limiter l → wf_limiter (allow_bucket p now l).2 ∧ maxBuckets (allow_bucket p now l).2 = maxBuckets l.
Proof.
  intros [Hm Hq Hs Hqs Had Hal]. unfold allow_bucket. destruct (heap l !! p) as [b|]; [|done].
  destruct (AllowN now 1 b) as [ok b']. simpl. split; [|done].
  constructor; simpl; [done..|]. intros e He. rewrite length_insert. by apply Hal.
Qed.

Lemma run_lsteps_wf ss l : wf_limiter l → wf_limiter (fold_left run_lstep ss l) ∧ maxBuckets (fold_left run_lstep ss l) = maxBuckets l.
Proof.
  revert l. induction ss as [|[key now|p now] ss IH]; intros l Hwf; simpl; [done| |].
  - destruct (acquire_wf key now l Hwf) as [Hwf' E]. rewrite <-E. by apply IH.
  - destruct (allow_bucket_wf p now l Hwf) as [Hwf' E]. rewrite <-E. by apply IH.
Qed.

Lemma acquire_alive key now l :
  wf_limiter l → ∃ p b, (acquire key now l).1 = Some p ∧ heap (acquire key now l).2 !! p = Some b.
Proof.
  intros Hwf. destruct (bucket_of l key) as [p|] eqn:Hb.
  - pose proof (acquire_hit key now l p Hwf Hb) as Ha. destruct (acquire key now l) as [r l'].
    destruct Ha as (-> & _ & Hs & _). injection Hs as _ _ _ Hh _. simpl. exists p. rewrite Hh.
    apply al_lookup_elem, list_elem_of_fmap in Hb as (e & E & He). injection E as _ ->.
    apply (wf_alive l Hwf) in He. destruct (lookup_lt_is_Some_2 (heap l) (el_val e) He) as [b ?]. by exists b.
  - pose proof (acquire_miss key now l Hwf Hb) as Ha. destruct (acquire key now l) as [r l'].
    destruct Ha as (-> & _ & Hs & _). injection Hs as _ _ _ Hh. simpl. exists (length (heap l)).
    rewrite Hh, list_lookup_middle by done. by eexists.
Qed.
End steps.

(** However the calls of concurrent requests interleave, the limiter holds
    at most [maxBuckets] buckets and as many keys in its quarantine log, each
    index has exactly the keys of its list, and the next request of any key
    finds a bucket. *)
Theorem limiter_bounded `{TokenBucket} lim b maxB steps key now :
  let l := fold_left run_lstep steps (NewInProcess lim b maxB) in
  let bound := Z.max 0 (default defaultMaxBuckets maxB) in
  Z.of_nat (length (ll l)) ≤ bound ∧ Z.of_nat (length (qll l)) ≤ bound
  ∧ (∀ k, is_Some (keys l !! k) ↔ k ∈ el_key <$> ll l) ∧ size (keys l) = length (ll l)
  ∧ (∀ k, is_Some (qmap l !! k) ↔ k ∈ el_key <$> qll l) ∧ size (qmap l) = length (qll l)
  ∧ ∃ p bucket, (acquire key now l).1 = Some p ∧ heap (acquire key now l).2 !! p = Some bucket.
Proof.
  intros l bound. destruct (run_lsteps_wf steps (NewInProcess lim b maxB) (wf_limiter_new lim b maxB)) as [Hwf Hmax].
  fold l in Hwf, Hmax. simpl in Hmax.
  pose proof (wf_main_size l Hwf). pose proof (wf_log_size l Hwf). rewrite Hmax in *.
  split_and!; [done|done| |by apply (wf_items_size (main_view l)), wf_main| |by apply (wf_items_size (log_view l)), wf_log
    |by apply acquire_alive].
  - intros k. by apply (wf_index (main_view l)), wf_main.
  - intros k. by apply (wf_index (log_view l)), wf_log.
Qed.

(** ** The rate a key gets *)
Lemma refill_split lim d1 d2 :
  0 < lim_den lim → refill lim d1 + refill lim d2 ≤ refill lim (d1 + d2).
Proof.
  intros Hd. unfold refill. set (q := lim_den lim * 1000000000).
  assert (0 < q) by lia. apply Z.div_le_lower_bound; [done|].
  pose proof (Z.mul_div_le (lim_num lim * d1) q). pose proof (Z.mul_div_le (lim_num lim * d2) q). lia.
Qed.

Lemma refill_mono lim d1 d2 :
  0 ≤ lim_num lim → 0 < lim_den lim → d1 ≤ d2 → refill lim d1 ≤ refill lim d2.
Proof. intros Hn Hd Hle. unfold refill. apply Z.div_le_mono; [lia|nia]. Qed.

Lemma granted_app `{TokenBucket} h1 h2 : granted (h1 ++ h2) = granted h1 + granted h2.
Proof. induction h1 as [|c h1 IH]; simpl; [done|]. rewrite IH. lia. Qed.

(** Requests, one after the other, with the instants at which each reads the
    clock. *)
Record Req := { q_key : string; q_t1 : Z; q_t2 : Z }.
Fixpoint timed (t : Z) (reqs : list Req) (t' : Z) : Prop :=
  match reqs with
  | [] => t ≤ t'
  | q :: reqs => t ≤ q_t1 q ∧ q_t1 q ≤ q_t2 q ∧ timed (q_t2 q) reqs t'
  end.
Fixpoint serve `{TokenBucket} (reqs : list Req) (l : InProcessLimiter) : list bool * InProcessLimiter :=
  match reqs with
  | [] => ([], l)
  | q :: reqs =>
    let '(ok, l) := Allow (q_key q) (q_t1 q) (q_t2 q) l in
    let '(oks, l) := serve reqs l in (ok :: oks, l)
  end.
(** Requests of the key [k] that were allowed. *)
Fixpoint grants (k : string) (reqs : list Req) (oks : list bool) : Z :=
  match reqs, oks with
  | q :: reqs, ok :: oks => (if bool_decide (q_key q = k) && ok then 1 else 0) + grants k reqs oks
  | _, _ => 0
  end.

Section acquire_facts.
Context `{TokenBucket}.
Implicit Types l : InProcessLimiter.

Lemma acquire_own key now l r l' :
  wf_limiter l → 1 ≤ maxBuckets l → acquire key now l = (r, l') → r = bucket_of l' key.
Proof.
  intros Hwf Hmax Ha. destruct (bucket_of l key) as [p|] eqn:Hb.
  - pose proof (acquire_hit key now l p Hwf Hb) as Hh. rewrite Ha in Hh. destruct Hh as (-> & _ & _ & Hs).
    by rewrite Hs.
  - pose proof (acquire_miss key now l Hwf Hb) as Hh. rewrite Ha in Hh. destruct Hh as (-> & _ & _ & He & _).
    unfold bucket_of in *. rewrite He. symmetry. apply al_lookup_None in Hb.
    destruct (bool_decide_reflect (maxBuckets l ≤ Z.of_nat (length (ll l)))) as [Hfull|_]; [|by apply al_lookup_app_r].
    destruct (entries (main_view l)) as [|e es] eqn:Hes.
    { pose proof (length_entries (main_view l)) as Hl. rewrite Hes in Hl. simpl in Hl. lia. }
    simpl. apply al_lookup_app_r. by apply not_elem_of_cons in Hb as [_ ?].
Qed.

(** Another key keeps its bucket, or is evicted and then in the log. *)
Lemma acquire_other k key now l r l' :
  wf_limiter l → 1 ≤ maxBuckets l → k ≠ key → acquire key now l = (r, l') →
  bucket_of l' k = bucket_of l k ∨ bucket_of l' k = None ∧ k ∈ logged l'.
Proof.
  intros Hwf Hmax Hne Ha. destruct (bucket_of l key) as [p|] eqn:Hb.
  { pose proof (acquire_hit key now l p Hwf Hb) as Hh. rewrite Ha in Hh. destruct Hh as (_ & _ & _ & Hs).
    left. apply Hs. }
  pose proof (acquire_miss key now l Hwf Hb) as Hh. rewrite Ha in Hh. destruct Hh as (_ & _ & _ & He & Hlog).
  unfold bucket_of. rewrite He.
  destruct (bool_decide_reflect (maxBuckets l ≤ Z.of_nat (length (ll l)))) as [Hfull|_];
    [|left; by apply al_lookup_app_ne].
  pose proof (NoDup_entries (main_view l) (wf_main l Hwf)) as Hnd.
  destruct (entries (main_view l)) as [|[k1 p1] es] eqn:Hes.
  { pose proof (length_entries (main_view l)) as Hl. rewrite Hes in Hl. simpl in Hl. lia. }
  simpl in Hlog. cbn [app]. rewrite skipn_cons, drop_0, al_lookup_app_ne by done. simpl.
  destruct (decide (k1 = k)) as [->|]; [|left; by rewrite bool_decide_false].
  right. simpl in Hnd. apply NoDup_cons in Hnd as [Hk _]. split; [by apply al_lookup_None|].
  rewrite Hlog. destruct (bool_decide_reflect (k ∉ logged l)) as [|Hin]; [|by destruct (decide (k ∈ logged l))].
  destruct (bool_decide_reflect (maxBuckets l ≤ Z.of_nat (length (logged l)))) as [Hq|_];
    [|apply elem_of_app; right; by left].
  destruct (logged l) as [|x q]; simpl in *; [lia|]. rewrite drop_0. apply elem_of_app. right. by left.
Qed.

(** The log only grows until it is full. *)
Lemma acquire_log key now l r l' :
  wf_limiter l → acquire key now l = (r, l') →
  (length (logged l) ≤ length (logged l'))%nat
  ∧ (Z.of_nat (length (logged l')) < maxBuckets l → ∀ k, k ∈ logged l → k ∈ logged l').
Proof.
  intros Hwf Ha. destruct (bucket_of l key) as [p|] eqn:Hb.
  { pose proof (acquire_hit key now l p Hwf Hb) as Hh. rewrite Ha in Hh. destruct Hh as (_ & _ & Hs & _).
    injection Hs as _ _ _ _ ->. done. }
  pose proof (acquire_miss key now l Hwf Hb) as Hh. rewrite Ha in Hh. destruct Hh as (_ & _ & _ & _ & ->).
  destruct (entries (main_view l) ++ _) as [|[k1 p1] es]; [done|].
  destruct (_ && _); [|done].
  destruct (bool_decide_reflect (maxBuckets l ≤ Z.of_nat (length (logged l)))) as [Hq|_];
    rewrite ?length_drop, ?length_app; simpl.
  - split; lia.
  - split; [lia|]. intros _ k Hk. rewrite drop_0. apply elem_of_app. by left.
Qed.

Lemma acquire_heap key now l r l' :
  wf_limiter l → acquire key now l = (r, l') →
  (limit l', burst l', maxBuckets l') = (limit l, burst l, maxBuckets l) ∧ wf_limiter l'
  ∧ match bucket_of l key with
    | Some _ => heap l' = heap l
    | None => r = Some (length (heap l)) ∧ heap l' = heap l ++ [fresh_bucket l key now]
    end.
Proof.
  intros Hwf Ha. destruct (bucket_of l key) as [p|] eqn:Hb.
  - pose proof (acquire_hit key now l p Hwf Hb) as Hh. rewrite Ha in Hh. destruct Hh as (_ & ? & Hs & _).
    injection Hs as -> -> -> -> _. done.
  - pose proof (acquire_miss key now l Hwf Hb) as Hh. rewrite Ha in Hh. destruct Hh as (-> & ? & Hs & _).
    injection Hs as -> -> -> ->. done.
Qed.

(** Different keys have different buckets. *)
Lemma bucket_of_inj l k1 k2 p : wf_limiter l → bucket_of l k1 = Some p → bucket_of l k2 = Some p → k1 = k2.
Proof.
  intros Hwf H1%al_lookup_elem H2%al_lookup_elem.
  apply list_elem_of_fmap in H1 as (e1 & E1 & H1), H2 as (e2 & E2 & H2). simplify_eq.
  apply list_elem_of_lookup in H1 as [i Hi], H2 as [j Hj].
  assert (i = j) as ->.
  { apply (NoDup_lookup (el_val <$> ll l) i j (el_val e1)); [by apply wf_addr| |];
      rewrite list_lookup_fmap; simpl in *; [by rewrite Hi|rewrite Hj; simpl; congruence]. }
  simpl in *. congruence.
Qed.
End acquire_facts.

Section rate.
Context `{HTB : TokenBucket} (lim : Limit) (b : Z) `{!TokenBucketOk lim b}.
Hypothesis lim_num_nonneg : 0 ≤ lim_num lim.
Hypothesis lim_den_pos : 0 < lim_den lim.
Hypothesis burst_nonneg : 0 ≤ b.
Implicit Types l : InProcessLimiter.

(** The limiter at the instant [now]: every bucket has a history. *)
Record lim_inv (now : Z) l : Prop := {
  inv_wf : wf_limiter l;
  inv_limit : limit l = lim;
  inv_burst : burst l = b;
  inv_hist : ∀ p bk, heap l !! p = Some bk → ∃ t h, t ≤ now ∧ history lim b t h bk;
}.

(** [G] requests of [k] were allowed since the instant [s]: those its present
    bucket granted since, and before what could be regained until then. *)
Definition credit (k : string) (s now G : Z) l : Prop :=
  match bucket_of l k with
  | Some p => ∃ bk t h1 h2, heap l !! p = Some bk ∧ t ≤ now ∧ history lim b t (h1 ++ h2) bk ∧
      match h2 with
      | [] => G ≤ 0
      | c :: _ => s ≤ c_time c ∧ G ≤ refill lim (c_time c - s) + granted h2
      end
  | None => G ≤ 0 ∨ k ∈ logged l ∧ G ≤ b + refill lim (now - s)
  end.

Lemma refill_nonneg d : 0 ≤ d → 0 ≤ refill lim d.
Proof. intros. unfold refill. apply Z.div_pos; nia. Qed.

Lemma credit_bound k s now G l : s ≤ now → credit k s now G l → G ≤ b + refill lim (now - s).
Proof.
  intros Hs. pose proof (refill_nonneg (now - s) ltac:(lia)). unfold credit.
  destruct (bucket_of l k) as [p|]; [|intros [?|[_ ?]]; lia].
  intros (bk & t & h1 & [|c h2] & _ & Ht & Hh & Hg); [lia|]. destruct Hg as [Hc Hg].
  pose proof (bucket_rate t h1 c h2 bk Hh).
  pose proof (refill_split lim (c_time c - s) (t - c_time c) lim_den_pos).
  pose proof (refill_mono lim (c_time c - s + (t - c_time c)) (now - s) lim_num_nonneg lim_den_pos ltac:(lia)). lia.
Qed.

Lemma fresh_history l key now :
  limit l = lim → burst l = b →
  if bool_decide (key ∈ logged l)
  then history lim b now [{| c_time := now; c_n := b; c_ok := true |}] (fresh_bucket l key now)
  else history lim b now [] (fresh_bucket l key now).
Proof.
  intros El Eb. unfold fresh_bucket. rewrite El, Eb. destruct (bool_decide _); [|constructor].
  pose proof (bucket_full now) as Hf. destruct (AllowN now b (NewLimiter lim b)) as [ok bk] eqn:E. simpl in *. subst ok.
  eapply (history_call lim b now now []); [constructor|lia|done].
Qed.

Lemma hist_later now now' bk :
  now ≤ now' → (∃ t h, t ≤ now ∧ history lim b t h bk) → ∃ t h, t ≤ now' ∧ history lim b t h bk.
Proof. intros ? (t & h & ? & ?). exists t, h. split; [lia|done]. Qed.

(** The step under the mutex keeps every bucket's history ... *)
Lemma acquire_lim_inv key now t1 l r l' :
  lim_inv now l → now ≤ t1 → acquire key t1 l = (r, l') →
  lim_inv t1 l' ∧ ∀ p bk, heap l !! p = Some bk → heap l' !! p = Some bk.
Proof.
  intros [Hwf El Eb Hist] Hnow Ha.
  destruct (acquire_heap _ _ _ _ _ Hwf Ha) as (Hs' & Hwf' & Hheap). injection Hs' as El' Eb' _.
  pose proof (fresh_history l key t1 El Eb) as Hfresh. split; [constructor; [done|congruence..|]|].
  - intros p bk Hp.
    destruct (bucket_of l key); [rewrite Hheap in Hp; by eapply hist_later, Hist|].
    destruct Hheap as [_ Hheap]. rewrite Hheap in Hp.
    apply lookup_app_Some in Hp as [Hp|[_ Hp]]; [by eapply hist_later, Hist|].
    destruct (_ - _)%nat; [|done]. injection Hp as <-. exists t1.
    destruct (bool_decide (key ∈ logged l)); eexists; split; [|exact Hfresh| |exact Hfresh]; lia.
  - intros p bk Hp. destruct (bucket_of l key); [by rewrite Hheap|]. destruct Hheap as [_ ->].
    by apply lookup_app_l_Some.
Qed.

(** ... and the accounts of every key. *)
Lemma acquire_credit k key s now t1 G l r l' :
  lim_inv now l → s ≤ now → now ≤ t1 → credit k s now G l →
  acquire key t1 l = (r, l') → Z.of_nat (length (logged l')) < maxBuckets l →
  credit k s t1 G l'.
Proof.
  intros Hinv Hs Hnow Hcr Ha Hlog. pose proof Hinv as [Hwf El Eb _].
  assert (1 ≤ maxBuckets l) as Hmax by lia.
  destruct (acquire_log _ _ _ _ _ Hwf Ha) as [_ Hkeep]. specialize (Hkeep Hlog).
  destruct (acquire_heap _ _ _ _ _ Hwf Ha) as (_ & _ & Hheap).
  destruct (acquire_lim_inv _ _ _ _ _ _ Hinv Hnow Ha) as [_ Hpre].
  pose proof (fresh_history l key t1 El Eb) as Hfresh.
  pose proof (credit_bound k s now G l Hs Hcr) as Hbound.
  pose proof (refill_mono lim (now - s) (t1 - s) lim_num_nonneg lim_den_pos ltac:(lia)) as Hmono.
  assert (bucket_of l k ≠ None → bucket_of l' k = bucket_of l k → credit k s t1 G l') as Hkept.
  { unfold credit in *. intros Hsome ->. destruct (bucket_of l k) as [p|]; [|done].
    destruct Hcr as (bk & t & h1 & h2 & Hp & Ht & Hrest).
    exists bk, t, h1, h2. split_and!; [by apply Hpre|lia|by destruct Hrest..]. }
  destruct (decide (k = key)) as [->|Hne].
  - pose proof (acquire_own _ _ _ _ _ Hwf Hmax Ha) as Hown.
    destruct (bucket_of l key) as [p|] eqn:Hb.
    { pose proof (acquire_hit key t1 l p Hwf Hb) as Hh. rewrite Ha in Hh. destruct Hh as (_ & _ & _ & Hsame).
      apply Hkept; [done|]. by rewrite Hsame. }
    destruct Hheap as [Hr Hheap]. unfold credit in *. rewrite <-Hown, Hr. rewrite Hb in Hcr.
    exists (fresh_bucket l key t1), t1, [].
    destruct (bool_decide_reflect (key ∈ logged l)) as [Hin|Hin]; [eexists|exists []];
      (split_and!; [rewrite Hheap; by apply list_lookup_middle|done|exact Hfresh|]); simpl; [lia|].
    destruct Hcr as [?|[? _]]; [done|tauto].
  - destruct (acquire_other k key t1 l r l' Hwf Hmax Hne Ha) as [Hsame|[Hnone Hin]].
    + destruct (bucket_of l k) as [p|] eqn:Hb; [by apply Hkept|].
      unfold credit in *. rewrite Hsame. rewrite Hb in Hcr.
      destruct Hcr as [?|[? ?]]; [by left|right]. split; [by apply Hkeep|lia].
    + unfold credit. rewrite Hnone. right. split; [done|lia].
Qed.

(** The decision of the bucket at [p], which belongs to [key]. *)
Lemma allow_credit k key s now t2 G l p ok l' :
  lim_inv now l → s ≤ now → now ≤ t2 → bucket_of l key = Some p → credit k s now G l →
  allow_bucket p t2 l = (ok, l') →
  lim_inv t2 l' ∧ logged l' = logged l ∧ maxBuckets l' = maxBuckets l
  ∧ credit k s t2 (G + if bool_decide (key = k) && ok then 1 else 0) l'.
Proof.
  intros [Hwf El Eb Hist] Hs Hnow Hb Hcr Ha. pose proof (allow_bucket_wf p t2 l Hwf) as [Hwf' _]. rewrite Ha in Hwf'.
  unfold allow_bucket in Ha. destruct (heap l !! p) as [bk|] eqn:Hp.
  2:{ apply al_lookup_elem, list_elem_of_fmap in Hb as (e & E & He). injection E as _ ->.
      apply (wf_alive l Hwf), lookup_lt_is_Some in He as [? ?]. congruence. }
  destruct (AllowN t2 1 bk) as [ok' bk'] eqn:Hn. injection Ha as <- <-.
  assert (p < length (heap l))%nat as Hlt by by eapply lookup_lt_Some.
  split_and!; [constructor; simpl; [done..|]|done|done|].
  - intros q bq Hq. destruct (decide (q = p)) as [->|Hne].
    + rewrite list_lookup_insert_eq in Hq by done. injection Hq as <-.
      destruct (Hist _ _ Hp) as (t & h & Ht & Hh). exists t2. eexists. split; [lia|].
      eapply history_call; [exact Hh|lia|exact Hn].
    + rewrite list_lookup_insert_ne in Hq by done. by eapply hist_later, Hist.
  - unfold credit in *. change (bucket_of (mkLimiter _ _ _ _ _ _ _ _ _) k) with (bucket_of l k). simpl.
    pose proof (refill_mono lim (now - s) (t2 - s) lim_num_nonneg lim_den_pos ltac:(lia)).
    destruct (bucket_of l k) as [q|] eqn:Hk; simpl.
    2:{ rewrite bool_decide_false by congruence. simpl. destruct Hcr as [?|[? ?]]; [left; lia|right; split; [done|lia]]. }
    destruct Hcr as (bk1 & t & h1 & h2 & Hq & Ht & Hh & Hg). destruct (decide (key = k)) as [<-|Hne].
    + rewrite bool_decide_true by done. rewrite Hb in Hk. injection Hk as <-. rewrite Hp in Hq. injection Hq as <-.
      exists bk', t2, h1, (h2 ++ [{| c_time := t2; c_n := 1; c_ok := ok' |}]).
      split_and!; [by apply list_lookup_insert_eq|lia|rewrite app_assoc; eapply history_call; [exact Hh|lia|done]|].
      pose proof (refill_nonneg (t2 - s) ltac:(lia)).
      destruct h2 as [|c h2]; simpl in *; [destruct ok'; lia|]. rewrite granted_app. simpl. destruct ok'; lia.
    + rewrite bool_decide_false by done. simpl. rewrite Z.add_0_r. exists bk1, t, h1, h2.
      rewrite list_lookup_insert_ne; [split_and!; done || lia|]. intros <-. by apply Hne, (bucket_of_inj l key k p).
Qed.

Lemma inv_later now now' l : lim_inv now l → now ≤ now' → lim_inv now' l.
Proof. intros [? ? ? Hist] Hle. constructor; [done..|]. intros p bk Hp. by eapply hist_later, Hist. Qed.

Lemma credit_later k s now now' G l : now ≤ now' → credit k s now G l → credit k s now' G l.
Proof.
  intros Hle. pose proof (refill_mono lim (now - s) (now' - s) lim_num_nonneg lim_den_pos ltac:(lia)).
  unfold credit. destruct (bucket_of l k).
  - intros (bk & t & h1 & h2 & ? & ? & ?). exists bk, t, h1, h2. split_and!; [done|lia|tauto..].
  - intros [?|[? ?]]; [by left|right]. split; [done|lia].
Qed.

(** One request, served from its first reading of the clock to its answer. *)
Lemma Allow_log key t1 t2 l ok l' :
  wf_limiter l → Allow key t1 t2 l = (ok, l') →
  wf_limiter l' ∧ maxBuckets l' = maxBuckets l ∧ (length (logged l) ≤ length (logged l'))%nat
  ∧ ∃ p l1, acquire key t1 l = (Some p, l1) ∧ allow_bucket p t2 l1 = (ok, l') ∧ logged l1 = logged l'.
Proof.
  intros Hwf Ha. destruct (acquire_alive key t1 l Hwf) as (p & bk & Hp & Hbk).
  destruct (acquire_wf key t1 l Hwf) as [Hwf1 Hmax].
  unfold Allow in Ha. destruct (acquire key t1 l) as [r l1] eqn:Hacq. simpl in *. subst r.
  destruct (acquire_log _ _ _ _ _ Hwf Hacq) as [Hlen _].
  destruct (allow_bucket_wf p t2 l1 Hwf1) as [Hwf' Hmax']. rewrite Ha in Hwf', Hmax'. simpl in *.
  assert (logged l1 = logged l') as Hlog.
  { unfold allow_bucket in Ha. rewrite Hbk in Ha. destruct (AllowN t2 1 bk). by injection Ha as _ <-. }
  rewrite <-Hlog. split_and!; [done|congruence|done|]. by exists p, l1.
Qed.

Lemma serve_log reqs l oks l' :
  wf_limiter l → serve reqs l = (oks, l') →
  wf_limiter l' ∧ maxBuckets l' = maxBuckets l ∧ (length (logged l) ≤ length (logged l'))%nat.
Proof.
  revert l oks. induction reqs as [|q reqs IH]; simpl; intros l oks Hwf Hs; [by injection Hs as <- <-|].
  destruct (Allow _ _ _ l) as [ok l1] eqn:Ha. destruct (serve reqs l1) as [oks1 l2] eqn:Hs1.
  injection Hs as <- <-. destruct (Allow_log _ _ _ _ _ _ Hwf Ha) as (Hwf1 & Hm1 & Hl1 & _).
  destruct (IH _ _ Hwf1 Hs1) as (? & ? & ?). split_and!; [done|congruence|lia].
Qed.

Lemma serve_credit k s reqs now now' G l oks l' :
  lim_inv now l → s ≤ now → timed now reqs now' → credit k s now G l →
  serve reqs l = (oks, l') → Z.of_nat (length (logged l')) < maxBuckets l →
  credit k s now' (G + grants k reqs oks) l' ∧ lim_inv now' l' ∧ now ≤ now'.
Proof.
  revert now G l oks. induction reqs as [|q reqs IH]; simpl; intros now G l oks Hinv Hs Ht Hcr Hserve Hlog.
  { injection Hserve as <- <-. rewrite Z.add_0_r. split_and!; [by eapply credit_later|by eapply inv_later|done]. }
  destruct Ht as (Ht1 & Ht2 & Ht). destruct (Allow _ _ _ l) as [ok l2] eqn:Ha.
  destruct (serve reqs l2) as [oks1 l3] eqn:Hs1. injection Hserve as <- <-. simpl.
  pose proof (inv_wf _ _ Hinv) as Hwf.
  destruct (Allow_log _ _ _ _ _ _ Hwf Ha) as (Hwf2 & Hm2 & _ & p & l1 & Hacq & Hall & Hsame).
  destruct (serve_log _ _ _ _ Hwf2 Hs1) as (_ & _ & Hlen).
  destruct (acquire_lim_inv _ _ _ _ _ _ Hinv Ht1 Hacq) as [Hinv1 _].
  assert (credit k s (q_t1 q) G l1) as Hcr1 
    by (apply (acquire_credit k (q_key q) s now (q_t1 q) G l (Some p) l1); try done; rewrite Hsame; lia).
  assert (bucket_of l1 (q_key q) = Some p) as Hp.
  { symmetry. eapply acquire_own; [exact Hwf|lia|exact Hacq]. }
  destruct (allow_credit k _ s _ _ G l1 p ok l2 Hinv1 ltac:(lia) Ht2 Hp Hcr1 Hall) as (Hinv2 & _ & _ & Hcr2).
  destruct (IH _ _ _ _ Hinv2 ltac:(lia) Ht Hcr2 Hs1 ltac:(lia)) as (Hres & ? & ?).
  rewrite Z.add_assoc. split_and!; [done|done|lia].
Qed.

(** A window starts with nothing granted. *)
Lemma credit_start k s now l : lim_inv now l → credit k s now 0 l.
Proof.
  intros [Hwf _ _ Hist]. unfold credit. destruct (bucket_of l k) as [p|] eqn:Hb; [|by left].
  apply al_lookup_elem, list_elem_of_fmap in Hb as (e & E & He). injection E as _ ->.
  apply (wf_alive l Hwf), lookup_lt_is_Some in He as [bk Hbk].
  destruct (Hist _ _ Hbk) as (t & h & Ht & Hh). exists bk, t, h, []. by rewrite app_nil_r.
Qed.

Lemma new_inv maxB now : lim_inv now (NewInProcess lim b maxB).
Proof. constructor; [apply wf_limiter_new|done..]. Qed.
End rate.

(** C25: The limit holds over every window: when requests are served one after
    the other and the quarantine log is not full at the end, then the requests
    of a key that are allowed from any instant [s] on are at most the burst
    and what the rate refills since [s], whatever other keys are used, and
    however often the key is evicted and comes back. *)
Theorem limiter_rate_holds `{HTB : TokenBucket} lim b `{!TokenBucketOk lim b} maxB k t0 before s reqs t :
  0 ≤ lim_num lim → 0 < lim_den lim → 0 ≤ b →
  timed t0 before s → timed s reqs t →
  let '(_, l) := serve before (NewInProcess lim b maxB) in
  let '(oks, l') := serve reqs l in
  Z.of_nat (length (qll l')) < maxBuckets l' →
  grants k reqs oks ≤ b + refill lim (t - s).
Proof.
  intros Hn Hd Hb Hbefore Hreqs.
  destruct (serve before _) as [oks0 l] eqn:H0. destruct (serve reqs l) as [oks l'] eqn:H1. intros Hlog.
  destruct (serve_log _ _ _ _ (wf_limiter_new lim b maxB) H0) as (Hwf & Hm & Hlen).
  destruct (serve_log _ _ _ _ Hwf H1) as (_ & Hm' & Hlen').
  rewrite <-(length_fmap el_key (qll l')) in Hlog. change (el_key <$> qll l') with (logged l') in Hlog.
  destruct (serve_credit lim b Hn Hd Hb k t0 before t0 s 0 _ oks0 l (new_inv lim b maxB t0) ltac:(lia) Hbefore
    (credit_start lim b k t0 t0 _ (new_inv lim b maxB t0)) H0) as (_ & Hinv & _); [lia|].
  destruct (serve_credit lim b Hn Hd Hb k s reqs s t 0 l oks l' Hinv ltac:(lia) Hreqs
    (credit_start lim b k s s l Hinv) H1) as (Hcr & _ & Hst); [lia|].
  by apply (credit_bound lim b Hn Hd Hb k s t) in Hcr.
Qed.

(** ** Buckets of the interceptor *)
Module InterceptorFacts.
Import Auth Interceptor.

(** Who is limited: the client address, the superadmin's subject, or the set of
    the caller's tenants. *)
Inductive Caller := CAnonymous (ip : string) | CSuperAdmin (subject : string) | CTenants (ids : gset string).
Definition caller {L} (cfg : Config (L := L)) (conn : Conn) : Caller :=
  match ctx_claims (c_ctx conn) with
  | None => CAnonymous (clientIP conn (TrustedProxy cfg))
  | Some c => if claims_IsSuperAdmin c then CSuperAdmin (Subject c) else CTenants (list_to_set (TenantIDs c))
  end.

Lemma elem_of_Compact x l : x ∈ Compact l ↔ x ∈ l.
Proof.
  induction l as [|y [|z l] IH]; [done..|]. cbn [Compact]. case_bool_decide as E.
  - subst. rewrite IH, !elem_of_cons. tauto.
  - rewrite elem_of_cons, IH, !elem_of_cons. tauto.
Qed.

Lemma Compact_sorted l : StronglySorted String.le l → StronglySorted String.le (Compact l) ∧ NoDup (Compact l).
Proof.
  induction l as [|y [|z l] IH]; intros Hs; [split; constructor|split; [done|apply NoDup_singleton]|].
  apply StronglySorted_inv in Hs as [Hs Hall]. destruct (IH Hs) as [IH1 IH2]. cbn [Compact]. case_bool_decide as E; [done|].
  split.
  - constructor; [done|]. apply Forall_forall. intros x Hx. by apply (proj1 (Forall_forall _ _) Hall), (elem_of_Compact x (z :: l)).
  - apply NoDup_cons. split; [|done]. intros Hy. apply (elem_of_Compact y (z :: l)) in Hy. apply E.
    apply (anti_symm String.le); [apply Forall_cons in Hall; tauto|].
    apply elem_of_cons in Hy as [->|Hy]; [done|].
    apply StronglySorted_inv in Hs as [_ Hs]. by apply (proj1 (Forall_forall _ _) Hs).
Qed.

Lemma elem_of_sortedUniq x l : x ∈ sortedUniq l ↔ x ∈ l.
Proof. unfold sortedUniq. by rewrite elem_of_Compact, merge_sort_Permutation. Qed.

Lemma sortedUniq_set l1 l2 :
  sortedUniq l1 = sortedUniq l2 ↔ (list_to_set l1 : gset string) = list_to_set l2.
Proof.
  split.
  - intros E. apply set_eq. intros x. rewrite !elem_of_list_to_set, <-(elem_of_sortedUniq x l1), E. apply elem_of_sortedUniq.
  - intros E. assert (∀ l, StronglySorted String.le (sortedUniq l) ∧ NoDup (sortedUniq l)) as Hs.
    { intros l. apply Compact_sorted, StronglySorted_merge_sort; apply _. }
    apply (StronglySorted_unique String.le); [apply Hs..|].
    apply NoDup_Permutation; [apply Hs..|]. intros x. rewrite !elem_of_sortedUniq.
    rewrite <-!(elem_of_list_to_set (C := gset string)), E. done.
Qed.

Lemma concat_cons x y l : String.concat "," (x :: y :: l) = x +:+ String ","%char (String.concat "," (y :: l)).
Proof. done. Qed.

(** Identifiers that a comma-separated list can carry. *)
Definition listable (l : list string) : Prop := Forall (λ x, x ≠ "" ∧ no_char ","%char x = true) l.

Lemma join_inj l1 l2 : listable l1 → listable l2 → String.concat "," l1 = String.concat "," l2 → l1 = l2.
Proof.
  intros H1. revert l2. induction H1 as [|x l1 [Hx Nx] H1 IH]; intros l2 H2 E.
  - destruct H2 as [|y [|z l2] [Hy Ny] H2]; [done| |].
    + by simpl in E.
    + rewrite concat_cons in E. by destruct y.
  - destruct H2 as [|y l2 [Hy Ny] H2].
    { destruct l1; [by simpl in E|]. rewrite concat_cons in E. by destruct x. }
    destruct l1 as [|x' l1], l2 as [|y' l2]; rewrite ?concat_cons in E.
    + simpl in E. by subst.
    + simpl in E. subst x. pose proof (cut_char_none _ _ Nx) as C. by rewrite cut_char_app in C.
    + simpl in E. subst y. pose proof (cut_char_none _ _ Ny) as C. by rewrite cut_char_app in C.
    + pose proof (cut_char_app ","%char x (String.concat "," (x' :: l1)) Nx) as Cx.
      rewrite E, cut_char_app in Cx by done. injection Cx as -> Cx. apply (f_equal (cons x)), IH; done.
Qed.

Lemma listable_sortedUniq l : listable l → listable (sortedUniq l).
Proof. unfold listable. rewrite !Forall_forall. intros Hl x Hx. by apply Hl, elem_of_sortedUniq. Qed.

(** The prefix tells the kinds of callers apart and the last colon the method. *)
Lemma bucket_key_split (p a1 a2 m1 m2 : string) :
  no_char ":"%char m1 = true → no_char ":"%char m2 = true →
  p +:+ a1 +:+ ":" +:+ m1 = p +:+ a2 +:+ ":" +:+ m2 ↔ a1 = a2 ∧ m1 = m2.
Proof.
  intros H1 H2. split; [|by intros [-> ->]]. intros E. apply (inj (String.append p)) in E.
  rewrite !str_app_single in E. by apply last_sep_inj in E.
Qed.

(** The tenants a caller may name are listable. *)
Definition conn_listable (conn : Conn) : Prop :=
  ∀ c, ctx_claims (c_ctx conn) = Some c → listable (TenantIDs c).
End InterceptorFacts.

(** Two requests are limited by one bucket exactly when they call the same
    method and come from the same caller: the same client address when nobody
    is authenticated, the same subject for superadmins, the same set of tenants
    (in any order, with any repetitions) for everyone else. Methods contain no
    colon and tenant identifiers no comma. *)
Theorem bucket_keys_isolate {L} (cfg : Interceptor.Config (L := L)) conn1 conn2 m1 m2 :
  no_char ":"%char m1 = true → no_char ":"%char m2 = true →
  InterceptorFacts.conn_listable conn1 → InterceptorFacts.conn_listable conn2 →
  Interceptor.bucketKey cfg conn1 m1 = Interceptor.bucketKey cfg conn2 m2
  ↔ InterceptorFacts.caller cfg conn1 = InterceptorFacts.caller cfg conn2 ∧ m1 = m2.
Proof.
  intros Hm1 Hm2 Hl1 Hl2. unfold Interceptor.bucketKey, InterceptorFacts.caller.
  unfold InterceptorFacts.conn_listable in *.
  destruct (Auth.ctx_claims (Interceptor.c_ctx conn1)) as [c1|], (Auth.ctx_claims (Interceptor.c_ctx conn2)) as [c2|];
    repeat destruct (Auth.claims_IsSuperAdmin _); (split; [intros E; try done|intros [E ->]; try done]).
  all: try (injection E as E; apply (InterceptorFacts.bucket_key_split "") in E as [-> ->]; [done|done|done]).
  - by injection E as ->.
  - injection E as E. apply (InterceptorFacts.bucket_key_split "") in E as [E ->]; [|done..]. split; [|done].
    apply InterceptorFacts.join_inj in E; [|by apply InterceptorFacts.listable_sortedUniq, (Hl1 c1)
      |by apply InterceptorFacts.listable_sortedUniq, (Hl2 c2)].
    f_equal. by apply InterceptorFacts.sortedUniq_set.
  - injection E as E. apply InterceptorFacts.sortedUniq_set in E. by rewrite E.
  - by injection E as ->.
Qed.

(** ** A concrete bucket and the witnesses *)
Module PlainBucket.

(** Tokens are counted in units of a billionth of the rate's denominator; a
    bucket is full until its first call. *)
Record Plain := { pb_lim : Limit; pb_burst : Z; pb_state : option (Z * Z) }.
Definition pb_unit (l : Limit) : Z := lim_den l * 1000000000.
Definition pb_tokens (t : Z) (p : Plain) : Z :=
  match pb_state p with
  | None => pb_burst p * pb_unit (pb_lim p)
  | Some (tokens, last) => Z.min (pb_burst p * pb_unit (pb_lim p)) (tokens + lim_num (pb_lim p) * (t - last))
  end.
#[export] Instance plain_buckets : TokenBucket := {|
  Bucket := Plain;
  NewLimiter lim b := {| pb_lim := lim; pb_burst := b; pb_state := None |};
  AllowN t n p :=
    let have := pb_tokens t p in
    let need := n * pb_unit (pb_lim p) in
    if bool_decide (need ≤ have)
    then (true, {| pb_lim := pb_lim p; pb_burst := pb_burst p; pb_state := Some (have - need, t) |})
    else (false, {| pb_lim := pb_lim p; pb_burst := pb_burst p; pb_state := Some (have, t) |})
|}.

Lemma plain_state lim b t h p :
  0 ≤ lim_num lim → 0 < lim_den lim → 0 ≤ b → history lim b t h p →
  pb_lim p = lim ∧ pb_burst p = b ∧
  match pb_state p with None => h = [] | Some (tokens, last) => last = t ∧ 0 ≤ tokens end.
Proof.
  intros Hn Hd Hb. assert (0 < pb_unit lim) by (unfold pb_unit; lia).
  induction 1 as [|t0 t1 h0 p0 n ok p1 _ (IH1 & IH2 & IH3) Ht Hcall]; [done|].
  assert (0 ≤ pb_tokens t1 p0).
  { unfold pb_tokens. rewrite IH1, IH2. destruct (pb_state p0) as [[tk last]|]; [|nia].
    destruct IH3 as [-> ?]. nia. }
  revert Hcall. simpl. case_bool_decide; intros [= _ <-]; simpl; (split_and!; [done..|lia]).
Qed.

(** What was granted since a call and what is left come out of a full bucket
    and the refill since. *)
Lemma plain_balance lim b t before first h p :
  0 ≤ lim_num lim → 0 < lim_den lim → 0 ≤ b → history lim b t (before ++ first :: h) p →
  ∃ tokens, pb_state p = Some (tokens, t) ∧ 0 ≤ tokens ∧
    granted (first :: h) * pb_unit lim + tokens ≤ b * pb_unit lim + lim_num lim * (t - c_time first).
Proof.
  intros Hn Hd Hb Hh. remember (before ++ first :: h) as full eqn:Hfull. revert before first h Hfull.
  induction Hh as [t|t0 t1 h0 p0 n ok p1 Hh0 IH Ht Hcall]; intros before first h Hfull; [by destruct before|].
  destruct (plain_state lim b t0 h0 p0 Hn Hd Hb Hh0) as (E1 & E2 & _).
  destruct (plain_state _ _ _ _ _ Hn Hd Hb (history_call lim b _ _ _ _ _ _ _ Hh0 Ht Hcall)) as (_ & _ & Hpos).
  assert (pb_tokens t1 p0 ≤ b * pb_unit lim) as Hcap.
  { unfold pb_tokens. rewrite E1, E2. destruct (pb_state p0) as [[]|]; lia. }
  assert (∃ tokens, pb_state p1 = Some (tokens, t1)
    ∧ (if ok then n else 0) * pb_unit lim + tokens = pb_tokens t1 p0) as (tokens & Hst & Hbal).
  { revert Hcall. simpl. rewrite E1, E2. case_bool_decide; intros [= <- <-]; eexists; (split; [done|lia]). }
  rewrite Hst in Hpos. exists tokens. split_and!; [done|lia|].
  destruct h as [|c h _] using rev_ind.
  - apply app_inj_tail in Hfull as [-> <-]. simpl. nia.
  - rewrite app_comm_cons, app_assoc in Hfull. apply app_inj_tail in Hfull as [-> <-].
    destruct (IH before first h eq_refl) as (tk & Hst0 & _ & Hle).
    rewrite app_comm_cons, granted_app. simpl granted at 2. rewrite Z.add_0_r.
    unfold pb_tokens in Hbal. rewrite Hst0, E1, E2 in Hbal. nia.
Qed.

Lemma plain_buckets_ok lim b : 0 ≤ lim_num lim → 0 < lim_den lim → 0 ≤ b → TokenBucketOk lim b.
Proof.
  intros Hn Hd Hb. constructor.
  - intros t. simpl. rewrite bool_decide_true; [done|]. unfold pb_tokens. simpl. lia.
  - intros t before first h p Hh. destruct (plain_balance lim b t before first h p Hn Hd Hb Hh) as (tokens & _ & ? & Hle).
    unfold refill. fold (pb_unit lim).
    assert (0 < pb_unit lim) by (unfold pb_unit; lia).
    cut (granted (first :: h) - b ≤ lim_num lim * (t - c_time first) / pb_unit lim); [lia|].
    apply Z.div_le_lower_bound; lia.
Qed.
End PlainBucket.

Module RateLimitWitnesses.
Import PlainBucket.

(** Two tokens, one more every second; a request takes no time. *)
Definition one_per_second : Limit := {| lim_num := 1; lim_den := 1 |}.
Definition at_ (key : string) (seconds : Z) : Req :=
  {| q_key := key; q_t1 := seconds * 1000000000; q_t2 := seconds * 1000000000 |}.
Definition busy : list Req := [at_ "a" 0; at_ "a" 0; at_ "a" 0; at_ "b" 1; at_ "c" 1; at_ "d" 1; at_ "a" 1; at_ "a" 2].

(** The key ["a"] uses its tokens, is evicted by ["d"], comes back without
    tokens, and gets no more than two and one per second. *)
Lemma limiter_rate_holds_witness :
  let '(oks, l) := serve busy (NewInProcess one_per_second 2 (Some 3)) in
  length (qll l) = 2%nat ∧ oks = [true; true; false; true; true; true; false; true]
  ∧ grants "a" busy oks ≤ 2 + refill one_per_second (2 * 1000000000 - 0).
Proof.
  pose proof (plain_buckets_ok one_per_second 2 ltac:(done) ltac:(done) ltac:(done)).
  assert (timed 0 [] 0 ∧ timed 0 busy (2 * 1000000000)) as [Ht0 Ht] by (simpl; lia).
  pose proof (limiter_rate_holds one_per_second 2 (Some 3) "a" 0 [] 0 busy (2 * 1000000000)
    ltac:(done) ltac:(done) ltac:(done) Ht0 Ht) as Hw.
  change (serve [] ?l) with ([] : list bool, l) in Hw. cbv iota beta in Hw.
  destruct (serve busy (NewInProcess one_per_second 2 (Some 3))) as [oks l] eqn:E.
  assert (length (qll l) = 2%nat ∧ maxBuckets l = 3 ∧ oks = [true; true; false; true; true; true; false; true])
    as (E1 & E2 & E3).
  { replace l with (serve busy (NewInProcess one_per_second 2 (Some 3))).2 by (rewrite E; reflexivity).
    replace oks with (serve busy (NewInProcess one_per_second 2 (Some 3))).1 by (rewrite E; reflexivity).
    clear. split_and!; vm_compute; reflexivity. }
  clear E. split_and!; [exact E1|exact E3|]. apply Hw. rewrite E1, E2. reflexivity.
Defined.

Definition from_tenants (ids : list string) : Interceptor.Conn := {|
  Interceptor.c_ctx := Auth.mkCtx (Some {| Auth.Subject := "x"; Auth.role := Auth.RoleUser; Auth.TenantIDs := ids |}) false None;
  Interceptor.c_md := None; Interceptor.c_peer := None |}.
Definition no_limits : Interceptor.Config (L := unit) :=
  {| Interceptor.Global := None; Interceptor.Anonymous := None; Interceptor.Authenticated := None;
     Interceptor.SuperAdmin := None; Interceptor.TrustedProxy := false |}.

Lemma bucket_keys_isolate_witness :
  Interceptor.bucketKey no_limits (from_tenants ["t2"; "t1"; "t2"]) "/s/Get"
    = Interceptor.bucketKey no_limits (from_tenants ["t1"; "t2"]) "/s/Get".
Proof.
  apply (bucket_keys_isolate no_limits); [reflexivity|reflexivity| | |split; [by vm_compute|reflexivity]];
    intros c [= <-]; repeat constructor; done.
Defined.

(** With two buckets, ["a"] is evicted twice; the second time it is already in
    the log, keeps its old place there, and is dropped by the very next
    eviction: it comes back with a full bucket although only one other key was
    evicted since and the log holds two. *)
Definition cycle : list Req :=
  [at_ "a" 0; at_ "b" 0; at_ "c" 0; at_ "a" 0; at_ "c" 0; at_ "d" 0; at_ "e" 0; at_ "a" 0; at_ "a" 0].
Example quarantine_forgets_recent :
  let '(oks, l) := serve (take 7 cycle) (NewInProcess one_per_second 2 (Some 2)) in
  logged l = ["b"; "c"] ∧ bucket_of l "a" = None
  ∧ (serve cycle (NewInProcess one_per_second 2 (Some 2))).1 = [true; true; true; false; true; true; true; true; true]
  ∧ grants "a" cycle (serve cycle (NewInProcess one_per_second 2 (Some 2))).1 = 3.
Proof. vm_compute. split_and!; reflexivity. Qed.
End RateLimitWitnesses.
