(* ===== verification/CrossField.v ===== *)
(** * Cross-field rules ([internal/schema/dependent_required.go],
    [internal/schema/cel/activation.go], [internal/schema/cel/eval.go])

    [DependentRequired] are the "B required when A present" rules; [Cel] builds
    the activation a CEL program sees and runs the programs of a schema. The
    programs themselves belong to cel-go and are functions here. *)
From S2P Require Import Prelude GoText GoFloat GoTime Domain Json.
From Stdlib Require Import Ascii.

Module DependentRequired.

Record DependentRequiredEntry := { TriggerField : string; DependentFields : list string }.

(** [present] sets are finite sets of paths. *)
Definition is_member (s : gset string) (p : string) : bool := bool_decide (p ∈ s).

Fixpoint check_deps (rule : DependentRequiredEntry) (deps : list string) (present : gset string) :
    result error unit :=
  match deps with
  | [] => Ok tt
  | dep :: deps =>
      if is_member present dep then check_deps rule deps present
      else Err (Errorf "dependentRequired: %q has a value but required dependent %q is null"
                  [AStr (TriggerField rule); AStr dep])
  end.

Fixpoint CheckDependentRequired (rules : list DependentRequiredEntry) (present : gset string) :
    result error unit :=
  match rules with
  | [] => Ok tt
  | rule :: rules =>
      if negb (is_member present (TriggerField rule)) then CheckDependentRequired rules present
      else
        let? _ := check_deps rule (DependentFields rule) present in
        CheckDependentRequired rules present
  end.

(** The lint of one rule's dependents; [seen] are those already listed. *)
Fixpoint lint_deps (trigger : string) (deps : list string) (known seen : gset string) :
    result error unit :=
  match deps with
  | [] => Ok tt
  | dep :: deps =>
      if bool_decide (dep = trigger)
      then Err (Errorf "dependentRequired: trigger %q cannot list itself as a dependent" [AStr trigger])
      else if negb (is_member known dep)
      then Err (Errorf "dependentRequired: dependent %q (under trigger %q) is not a defined field"
                  [AStr dep; AStr trigger])
      else if is_member seen dep
      then Err (Errorf "dependentRequired: dependent %q listed twice under trigger %q"
                  [AStr dep; AStr trigger])
      else lint_deps trigger deps known ({[dep]} ∪ seen)
  end.

Fixpoint lint_entries (entries : list DependentRequiredEntry) (known : gset string) :
    result error unit :=
  match entries with
  | [] => Ok tt
  | e :: entries =>
      if negb (is_member known (TriggerField e))
      then Err (Errorf "dependentRequired: trigger %q is not a defined field" [AStr (TriggerField e)])
      else
        let? _ := lint_deps (TriggerField e) (DependentFields e) known ∅ in
        lint_entries entries known
  end.

(** [fields] are the paths of the imported fields. *)
Definition validateDependentRequiredAgainstFields (entries : list DependentRequiredEntry)
    (fields : list string) : result error unit :=
  match entries with
  | [] => Ok tt
  | _ => lint_entries entries (list_to_set fields)
  end.

(** ** The stored form *)
Definition marshalDependentRequired (entries : list DependentRequiredEntry) : string :=
  match entries with
  | [] => "[]"
  | _ =>
      Json.encode_array ((λ e,
        Json.encode_object
          [("trigger_field", Json.encode_string (TriggerField e));
           ("dependent_fields",
             match DependentFields e with
             | [] => "null"
             | deps => Json.Marshal_strings deps
             end)]) <$> entries)
  end.

(** A member value read into a string field, over what the field holds. *)
Definition read_string (old : string) (v : Json.json) : option string :=
  match v with
  | Json.JStr s => Some s
  | Json.JNull => Some old
  | _ => None
  end.
Definition read_strings (old : list string) (v : Json.json) : option (list string) :=
  match v with
  | Json.JNull => Some []
  | Json.JArr _ => Json.to_strings v
  | _ => None
  end.
Definition wireEntry (v : Json.json) : option DependentRequiredEntry :=
  match v with
  | Json.JNull => Some {| TriggerField := ""; DependentFields := [] |}
  | Json.JObj ms =>
      t ← foldl (λ acc m, o ← acc; read_string o m) (Some "") (Json.members "trigger_field" ms);
      d ← foldl (λ acc m, o ← acc; read_strings o m) (Some []) (Json.members "dependent_fields" ms);
      Some {| TriggerField := t; DependentFields := d |}
  | _ => None
  end.

(** No rules, for an empty, an empty-list and an unreadable column alike. *)
Definition UnmarshalDependentRequired (raw : string) : list DependentRequiredEntry :=
  if bool_decide (raw = "") then []
  else
    match Json.parse raw with
    | Some (Json.JArr l) => match mapM wireEntry l with Some es => es | None => [] end
    | _ => []
    end.

Example Unmarshal_marshal_ex :
  let es := [{| TriggerField := "tls.enabled"; DependentFields := ["tls.cert"; "tls.key"] |};
             {| TriggerField := "a"; DependentFields := [] |}] in
  UnmarshalDependentRequired (marshalDependentRequired es) = es.
Proof. vm_compute. reflexivity. Qed.

(** ** Properties *)
Lemma check_deps_Ok rule deps present :
  check_deps rule deps present = Ok tt ↔ Forall (λ d, d ∈ present) deps.
Proof.
  induction deps as [|d deps IH]; simpl; [by rewrite Forall_nil|].
  rewrite Forall_cons, <-IH. unfold is_member. case_bool_decide; naive_solver.
Qed.

(** The presence check accepts a snapshot exactly when every rule whose
    trigger has a value has a value for each of its dependents too. *)
Lemma CheckDependentRequired_Ok rules present :
  CheckDependentRequired rules present = Ok tt ↔
  ∀ rule d, rule ∈ rules → TriggerField rule ∈ present → d ∈ DependentFields rule → d ∈ present.
Proof.
  induction rules as [|rule rules IH]; simpl; [set_solver|].
  unfold is_member at 1. case_bool_decide as Ht; simpl.
  - rewrite result_bind_Ok. split.
    + intros ([] & Hd%check_deps_Ok & Hr) r d [->|Hin]%elem_of_cons Htr Hdep.
      * rewrite Forall_forall in Hd. by apply Hd.
      * by eapply (proj1 IH Hr).
    + intros Hall. exists tt. split.
      * apply check_deps_Ok, Forall_forall. intros d Hd. eapply Hall; [by left|done..].
      * apply IH. intros r d Hr. apply Hall. by right.
  - rewrite IH. set_solver.
Qed.

Lemma lint_deps_Ok trigger deps known seen :
  lint_deps trigger deps known seen = Ok tt ↔
  Forall (λ d, d ≠ trigger ∧ d ∈ known ∧ d ∉ seen) deps ∧ NoDup deps.
Proof.
  revert seen. induction deps as [|d deps IH]; intros seen; simpl.
  { split; [intros _; split; constructor|done]. }
  rewrite Forall_cons, NoDup_cons. unfold is_member.
  repeat case_bool_decide; simpl; try naive_solver.
  rewrite IH. rewrite !Forall_forall. set_solver.
Qed.

Lemma lint_entries_Ok entries known :
  lint_entries entries known = Ok tt ↔
  ∀ e, e ∈ entries → TriggerField e ∈ known ∧ NoDup (DependentFields e)
    ∧ (TriggerField e ∉ DependentFields e) ∧ (∀ d, d ∈ DependentFields e → d ∈ known).
Proof.
  induction entries as [|e entries IH]; simpl; [set_solver|].
  unfold is_member at 1. case_bool_decide as Ht; simpl.
  2:{ split; [done|]. intros Hall. destruct (Hall e); set_solver. }
  rewrite result_bind_Ok. split.
  - intros ([] & [Hf Hnd]%lint_deps_Ok & Hr) e' [->|Hin]%elem_of_cons.
    + rewrite Forall_forall in Hf. set_solver.
    + by apply (proj1 IH Hr).
  - intros Hall. exists tt. split.
    + apply lint_deps_Ok. rewrite Forall_forall. destruct (Hall e); set_solver.
    + apply IH. intros e' He'. apply Hall. by right.
Qed.

(** The import lint accepts a list of rules exactly when every trigger and
    every dependent names a defined field, no trigger requires itself and no
    dependent is listed twice under one trigger. *)
Theorem dependent_required_lint_exact entries fields :
  validateDependentRequiredAgainstFields entries fields = Ok tt ↔
  ∀ e, e ∈ entries → TriggerField e ∈ fields ∧ NoDup (DependentFields e)
    ∧ (TriggerField e ∉ DependentFields e) ∧ (∀ d, d ∈ DependentFields e → d ∈ fields).
Proof.
  assert (validateDependentRequiredAgainstFields entries fields
          = lint_entries entries (list_to_set fields)) as -> by (by destruct entries).
  rewrite lint_entries_Ok. setoid_rewrite elem_of_list_to_set. done.
Qed.
End DependentRequired.

Module Cel.

(** ** Activations *)
Inductive any :=
| VNil | VInt (z : Z) | VFloat (x : float64) | VStr (s : string) | VBool (b : bool)
| VTime (t : Z) | VDuration (d : Z) | VJson (j : Json.json) | VMap (m : list (string * any)).

Record SnapshotRow := { snap_FieldPath : string; snap_Value : option string }.
Record TenantBinding := { tb_ID : string; tb_Name : string }.

Definition stringToCelNative (s : option string) (ft : pbFieldType) : any :=
  match s with
  | None => VNil
  | Some s =>
      match ft with
      | FIELD_TYPE_INT => match ParseInt s 64 with (v, None) => VInt v | _ => VStr s end
      | FIELD_TYPE_NUMBER => match ParseFloat s with (v, None) => VFloat v | _ => VStr s end
      | FIELD_TYPE_BOOL => match ParseBool s with (v, None) => VBool v | _ => VStr s end
      | FIELD_TYPE_TIME => match ParseRFC3339Nano s with Some t => VTime t | None => VStr s end
      | FIELD_TYPE_DURATION => match ParseDuration s with Some d => VDuration d | None => VStr s end
      | FIELD_TYPE_JSON => match Json.parse s with Some j => VJson j | None => VStr s end
      | _ => VStr s
      end
  end.

(** A Go map with dynamic values, as an association list without repeats. *)
Fixpoint get_key (k : string) (m : list (string * any)) : option any :=
  match m with
  | [] => None
  | (k', v) :: m => if bool_decide (k' = k) then Some v else get_key k m
  end.
Fixpoint put_key (k : string) (v : any) (m : list (string * any)) : list (string * any) :=
  match m with
  | [] => [(k, v)]
  | (k', v') :: m => if bool_decide (k' = k) then (k, v) :: m else (k', v') :: put_key k v m
  end.

Fixpoint setNested (m : list (string * any)) (segments : list string) (leaf : any) :
    list (string * any) :=
  match segments with
  | [] => m
  | [seg] => put_key seg leaf m
  | seg :: segments =>
      let next := match get_key seg m with Some (VMap n) => n | _ => [] end in
      put_key seg (VMap (setNested next segments leaf)) m
  end.

Definition type_of (types : gmap string pbFieldType) (p : string) : pbFieldType :=
  default FIELD_TYPE_UNSPECIFIED (types !! p).

Definition BuildActivation `{MapRange} (rows : list SnapshotRow) (types : gmap string pbFieldType)
    (tenant : TenantBinding) : list (string * any) :=
  let self := foldl (λ m p, setNested m (Split "."%char p) VNil) [] (map_range types).*1 in
  let self :=
    foldl (λ m row, setNested m (Split "."%char (snap_FieldPath row))
                      (stringToCelNative (snap_Value row) (type_of types (snap_FieldPath row))))
      self rows in
  [("self", VMap self);
   ("tenant", VMap [("id", VStr (tb_ID tenant)); ("name", VStr (tb_Name tenant))])].

(** ** Programs (cel-go)

    A run of a program: an error with its message, or a value with the cost it
    reports, if it reports one. *)
Inductive CelVal := CelBool (b : bool) | CelOther (typeName : string) | CelNil.
Inductive Outcome := OErr (msg : string) | OVal (v : CelVal) (cost : option Z).
Definition Program := list (string * any) → Outcome.

Record ValidationRule := {
  rule_Path : string; rule_Rule : string; rule_Message : string; rule_Severity : string;
  rule_Reason : string }.
Record FailedRule := { fr_Index : Z; fr_Message : string; fr_Reason : string }.

Definition isCostLimit (msg : string) : bool :=
  Contains msg "operation cancelled" || Contains msg "cost limit".
Definition valType (v : CelVal) : string :=
  match v with CelNil => "nil" | CelBool _ => "bool" | CelOther n => n end.

(** Outcome of a whole evaluation: failed rules, soft errors, terminal error. *)
Definition EvalResult := (list FailedRule * list error * option error)%type.

(** The loop over the programs; [i] is the index, [cost] the total so far in
    64 bits. *)
Fixpoint eval_go (cap : Z) (lenient : bool) (activation : list (string * any)) (i : Z)
    (progs : list (Program * ValidationRule)) (failed : list FailedRule) (soft : list error)
    (cost : Z) : EvalResult :=
  match progs with
  | [] => (failed, soft, None)
  | (prog, rule) :: progs =>
      match prog activation with
      | OErr msg =>
          if isCostLimit msg
          then ([], soft, Some (Wrap ("cel: cost limit exceeded for validations[" +:+ itoa i +:+ "]")
                             (Errorf "%s" [AStr msg])))
          else if lenient
          then eval_go cap lenient activation (i + 1) progs failed
                 (soft ++ [Errorf "validations[%d]: %w" [AInt i; AStr msg]]) cost
          else eval_go cap lenient activation (i + 1) progs
                 (failed ++ [{| fr_Index := i; fr_Message := "rule evaluation failed: " +:+ msg;
                                fr_Reason := "cel_runtime_error" |}]) soft cost
      | OVal v c =>
          let cost' := match c with Some c => ((cost + c) `mod` 2 ^ 64)%Z | None => cost end in
          if (match c with Some _ => (cap <? cost')%Z | None => false end)
          then ([], soft, Some (Errorf "cel: aggregate cost limit exceeded (cost %d > cap %d)"
                                  [AInt cost'; AInt cap]))
          else
            match v with
            | CelBool true => eval_go cap lenient activation (i + 1) progs failed soft cost'
            | CelBool false =>
                eval_go cap lenient activation (i + 1) progs
                  (failed ++ [{| fr_Index := i; fr_Message := rule_Message rule;
                                 fr_Reason := rule_Reason rule |}]) soft cost'
            | _ =>
                if lenient
                then eval_go cap lenient activation (i + 1) progs failed
                       (soft ++ [Errorf "validations[%d]: rule did not evaluate to bool (got %v)"
                                   [AInt i; AStr (valType v)]]) cost'
                else eval_go cap lenient activation (i + 1) progs
                       (failed ++ [{| fr_Index := i;
                                      fr_Message := "rule did not evaluate to bool (got "
                                                    +:+ valType v +:+ ")";
                                      fr_Reason := "cel_non_bool_result" |}]) soft cost'
            end
      end
  end.

(** [cap] is [aggregateCostCap()]. *)
Definition Eval (cap : Z) (lenient : bool) (programs : list Program)
    (activation : list (string * any)) (rules : list ValidationRule) : EvalResult :=
  match programs with
  | [] => ([], [], None)
  | _ =>
      if negb (length programs =? length rules)
      then ([], [], Some (Errorf "cel: programs (%d) and rules (%d) length mismatch"
                            [AInt (Z.of_nat (length programs)); AInt (Z.of_nat (length rules))]))
      else eval_go cap lenient activation 0 (zip programs rules) [] [] 0
  end.

(** ** Properties *)
Lemma eval_go_failed cap lenient act i progs failed soft cost :
  ∃ f', (eval_go cap lenient act i progs failed soft cost).2 = None →
        (eval_go cap lenient act i progs failed soft cost).1.1 = failed ++ f'.
Proof.
  revert i failed soft cost. induction progs as [|[prog rule] progs IH]; intros i failed soft cost.
  { exists []. simpl. by rewrite app_nil_r. }
  cbn [eval_go].
  assert (∀ i x f s c, ∃ f', (eval_go cap lenient act i progs (failed ++ x :: f) s c).2 = None →
     (eval_go cap lenient act i progs (failed ++ x :: f) s c).1.1 = failed ++ f') as Hx.
  { intros i' x f s c. destruct (IH i' (failed ++ x :: f) s c) as [f' Hf'].
    exists (x :: f ++ f'). intros Hn. rewrite (Hf' Hn). by rewrite <-app_assoc. }
  repeat case_match; try (by exists []); try apply IH; apply Hx.
Qed.

Lemma eval_go_clean cap act i progs failed cost :
  eval_go cap false act i progs failed [] cost = ([], [], None) →
  failed = [] ∧ Forall (λ p, ∃ c, p.1 act = OVal (CelBool true) c) progs.
Proof.
  revert i failed cost. induction progs as [|[prog rule] progs IH]; intros i failed cost.
  { simpl. intros [= ->]. by split. }
  assert (∀ i x c, eval_go cap false act i progs (failed ++ [x]) [] c ≠ ([], [], None)) as Hne.
  { intros i' x c E. destruct (eval_go_failed cap false act i' progs (failed ++ [x]) [] c) as [f' Hf].
    rewrite E in Hf. specialize (Hf eq_refl). simpl in Hf. by destruct failed. }
  cbn [eval_go]. intros E. rewrite Forall_cons. simpl.
  destruct (prog act) as [msg|v c] eqn:Hp.
  { destruct (isCostLimit msg); [done|]. by apply Hne in E. }
  destruct (match c with Some _ => _ | None => _ end); [done|].
  destruct v as [[]| |]; [|by apply Hne in E..].
  apply IH in E as [-> Hf]. split_and!; eauto.
Qed.

Lemma eval_go_all_true cap act i progs failed cost :
  Forall (λ p, p.1 act = OVal (CelBool true) None) progs →
  eval_go cap false act i progs failed [] cost = (failed, [], None).
Proof.
  intros Hf. revert i. induction Hf as [|[prog rule] progs Hp Hf IH]; intros i; [done|].
  cbn [eval_go]. simpl in Hp. rewrite Hp. apply IH.
Qed.

(** Soft errors are the lenient mode's only. *)
Lemma eval_go_strict cap act i progs failed soft cost :
  (eval_go cap false act i progs failed soft cost).1.2 = soft.
Proof.
  revert i failed cost. induction progs as [|[prog rule] progs IH]; intros i failed cost; [done|].
  cbn [eval_go]. repeat case_match; done.
Qed.

(** In strict mode, the only mode the server uses, a run that reports no
    failed rule and no terminal error means that there are as many programs as
    rules (or no program at all) and that every program evaluated to [true]. *)
Lemma Eval_clean cap programs act rules soft :
  Eval cap false programs act rules = ([], soft, None) →
  (programs = [] ∨ length programs = length rules)
  ∧ Forall (λ prog, ∃ c, prog act = OVal (CelBool true) c) programs.
Proof.
  unfold Eval. destruct programs as [|p0 programs]; [intros _; split; [by left|constructor]|].
  destruct (_ =? _) eqn:Hl; [|done]. apply Nat.eqb_eq in Hl. cbn [negb]. intros E.
  pose proof (eval_go_strict cap act 0 (zip (p0 :: programs) rules) [] [] 0) as Hsoft.
  rewrite E in Hsoft. simpl in Hsoft. subst soft.
  apply eval_go_clean in E as [_ Hf]. split; [by right|].
  rewrite <-(fst_zip (p0 :: programs) rules) by lia. by apply Forall_fmap.
Qed.
End Cel.
