(* ===== verification/ValidatorFactory.v ===== *)
(** * The validator factory ([internal/validation/factory.go], [cache.go],
    [internal/schema/cel/compile.go])

    [Validators] is what the config service uses of a factory, [ValidatorsOk]
    what it may rely on: as long as the schemas stay as they are, the caches
    never show. [ValidatorFactory] is the implementation, with its bounded
    cache of validators, its per-tenant caches of rules and programs, and the
    cache of compiled programs that all tenants share. Compiling a rule belongs
    to cel-go ([CelCompile]). *)
From S2P Require Import Prelude GoText GoFloat Domain Json Lru CrossField Convert Validation.
Import Convert Validation.

(** ** The interface *)
Class Validators (V : Type) := {
  GetValidators (tenantID : string) (v : V) : result error (gmap string FieldValidator) * V;
  GetDependentRequired (tenantID : string) (v : V) : result error string * V;
  GetValidations (tenantID : string) (v : V) : result error (list Cel.ValidationRule) * V;
  GetCelArtifacts (tenantID : string) (v : V) : result error (list Cel.Program) * V
}.

(** [va_view v]: the schemas behind the factory. Each call answers what the
    schemas say, and neither changes them nor makes the factory inconsistent
    with them. *)
Class ValidatorsOk (V : Type) `{Validators V} := {
  va_Schemas : Type;
  va_view : V → va_Schemas;
  va_inv : V → Prop;
  va_validators : va_Schemas → string → result error (gmap string FieldValidator);
  va_dependentRequired : va_Schemas → string → result error string;
  va_validations : va_Schemas → string → result error (list Cel.ValidationRule);
  va_celArtifacts : va_Schemas → string → result error (list Cel.Program);

  va_validators_ok v t r v' : va_inv v → GetValidators t v = (r, v') →
    r = va_validators (va_view v) t ∧ va_inv v' ∧ va_view v' = va_view v;
  va_dependentRequired_ok v t r v' : va_inv v → GetDependentRequired t v = (r, v') →
    r = va_dependentRequired (va_view v) t ∧ va_inv v' ∧ va_view v' = va_view v;
  va_validations_ok v t r v' : va_inv v → GetValidations t v = (r, v') →
    r = va_validations (va_view v) t ∧ va_inv v' ∧ va_view v' = va_view v;
  va_celArtifacts_ok v t r v' : va_inv v → GetCelArtifacts t v = (r, v') →
    r = va_celArtifacts (va_view v) t ∧ va_inv v' ∧ va_view v' = va_view v;
  (** One program per rule. *)
  va_celArtifacts_length Σ t rules programs : va_validations Σ t = Ok rules →
    va_celArtifacts Σ t = Ok programs → length programs = length rules
}.

(** The factory's store: a part of the config store's interface. *)
Class SchemaStore (S : Type) := {
  ss_GetTenantByID (id : string) (s : S) : result error Tenant;
  ss_GetSchemaVersion (schemaID : string) (version : Z) (s : S) : result error SchemaVersion;
  ss_GetSchemaFields (schemaVersionID : string) (s : S) : result error (list SchemaField)
}.

(** cel-go: [BuildEnv] asks it for the environment (which does not depend on
    the fields), [compileProgram] for the program of a rule in it. *)
Class CelCompile := {
  cel_Env : Type;
  cel_NewEnv : result error cel_Env;
  cel_Program : cel_Env → string → result error Cel.Program
}.

(** ** Constraints as they are stored

    [json.Unmarshal] into [pb.FieldConstraints], its error ignored. A member of
    a wrong type is skipped, but its pointer has been set: it reads as zero. *)
Definition read_float (old : option float64) (v : Json.json) : option float64 :=
  match v with
  | Json.JNull => None
  | Json.JNum text =>
      match ParseFloat text with
      | (x, None) => Some x
      | _ => Some (default float_zero old)
      end
  | _ => Some (default float_zero old)
  end.
Definition read_int32 (old : option Z) (v : Json.json) : option Z :=
  match v with
  | Json.JNull => None
  | Json.JNum text =>
      match ParseInt text 32 with
      | (x, None) => Some x
      | _ => Some (default 0%Z old)
      end
  | _ => Some (default 0%Z old)
  end.
Definition read_text (old : option string) (v : Json.json) : option string :=
  match v with
  | Json.JNull => None
  | Json.JStr s => Some s
  | _ => Some (default "" old)
  end.
(** A list starts afresh with every member that sets it. *)
Definition read_list (old : list string) (v : Json.json) : list string :=
  match v with
  | Json.JNull => []
  | Json.JArr l => (λ x, match x with Json.JStr s => s | _ => "" end) <$> l
  | _ => old
  end.
Definition read_member {A} (read : A → Json.json → A) (zero : A) (name : string)
    (ms : list (string * Json.json)) : A :=
  foldl read zero (Json.members name ms).

Definition unmarshalConstraints (raw : string) : FieldConstraints :=
  match Json.parse raw with
  | Some (Json.JObj ms) =>
      mkConstraints (read_member read_float None "min" ms) (read_member read_float None "max" ms)
        (read_member read_text None "regex" ms) (read_member read_list [] "enum_values" ms)
        (read_member read_text None "json_schema" ms)
        (read_member read_float None "exclusive_min" ms)
        (read_member read_float None "exclusive_max" ms)
        (read_member read_int32 None "min_length" ms) (read_member read_int32 None "max_length" ms)
        (read_member read_list [] "allowed_schemes" ms)
  | _ => no_constraints
  end.

(** The rules as they are stored; a null entry is a rule with empty members, an
    unreadable text is no rules. *)
Definition wireRule (v : Json.json) : option Cel.ValidationRule :=
  let text ms name := foldl (λ acc m, o ← acc; DependentRequired.read_string o m) (Some "")
                        (Json.members name ms) in
  match v with
  | Json.JNull => Some (Cel.Build_ValidationRule "" "" "" "" "")
  | Json.JObj ms =>
      path ← text ms "path"; rule ← text ms "rule"; message ← text ms "message";
      severity ← text ms "severity"; reason ← text ms "reason";
      Some (Cel.Build_ValidationRule path rule message severity reason)
  | _ => None
  end.
Definition decodeValidations (raw : string) : list Cel.ValidationRule :=
  if bool_decide (raw = "") then []
  else
    match Json.parse raw with
    | Some (Json.JArr l) => default [] (mapM wireRule l)
    | _ => []
    end.

(** ** The factory *)
Definition defaultMaxValidatorEntries : Z := 1000.

(** The key of a compiled program: schema, version, index of the rule. *)
Abbreviation programKey := (string * Z * nat)%type.

Record ValidatorFactory (S Env : Type) := mkFactory {
  f_store : S;
  f_cache : LRU (gmap string FieldValidator);
  rulesCache : gmap string string;
  validationsCache : gmap string (list Cel.ValidationRule);
  celEnvCache : gmap string Env;
  celProgramsCache : gmap string (list Cel.Program);
  celCache : gmap programKey Cel.Program;
  f_limits : Limits }.
Arguments mkFactory {S Env}.
Arguments f_store {S Env}.
Arguments f_cache {S Env}.
Arguments rulesCache {S Env}.
Arguments validationsCache {S Env}.
Arguments celEnvCache {S Env}.
Arguments celProgramsCache {S Env}.
Arguments celCache {S Env}.
Arguments f_limits {S Env}.

Section factory.
Context {S : Type} `{SchemaStore S, CelCompile, Regexp, JsonSchema, CompileRace, UrlRest}.
Abbreviation F := (ValidatorFactory S cel_Env).

Definition NewValidatorFactory (store : S) (opts : list Option) : F :=
  mkFactory store (NewLRU defaultMaxValidatorEntries) ∅ ∅ ∅ ∅ ∅ (limits (resolveOptions opts)).

Definition set_cache (f : F) (c : LRU (gmap string FieldValidator)) : F :=
  mkFactory (f_store f) c (rulesCache f) (validationsCache f) (celEnvCache f)
    (celProgramsCache f) (celCache f) (f_limits f).

(** [Cache().Invalidate]. *)
Definition InvalidateValidators (tenantID : string) (f : F) : F :=
  set_cache f (Delete tenantID (f_cache f)).

Definition InvalidateRules (tenantID : string) (f : F) : F :=
  mkFactory (f_store f) (f_cache f) (delete tenantID (rulesCache f))
    (delete tenantID (validationsCache f)) (delete tenantID (celEnvCache f))
    (delete tenantID (celProgramsCache f)) (celCache f) (f_limits f).

Definition InvalidateSchemaPrograms (schemaID : string) (f : F) : F :=
  mkFactory (f_store f) (f_cache f) (rulesCache f) (validationsCache f) (celEnvCache f)
    (celProgramsCache f) (filter (λ p, p.1.1.1 ≠ schemaID) (celCache f)) (f_limits f).

(** The tenant's bound schema version. *)
Definition bound_version (tenantID : string) (s : S) : result error SchemaVersion :=
  let? tenant := ss_GetTenantByID tenantID s in
  ss_GetSchemaVersion (tn_SchemaID tenant) (tn_SchemaVersion tenant) s.

Definition factory_GetDependentRequired (tenantID : string) (f : F) : result error string * F :=
  match rulesCache f !! tenantID with
  | Some raw => (Ok raw, f)
  | None =>
      match bound_version tenantID (f_store f) with
      | Err e => (Err e, f)
      | Ok sv =>
          let raw := sv_DependentRequired sv in
          (Ok raw, mkFactory (f_store f) (f_cache f) (<[tenantID := raw]> (rulesCache f))
                     (validationsCache f) (celEnvCache f) (celProgramsCache f) (celCache f)
                     (f_limits f))
      end
  end.

(** The validator of one field; a pattern above the limit is an error. *)
Definition field_options (l : Limits) (field : SchemaField) : list Option :=
  [WithLimits l] ++ (if sf_Nullable field then [WithNullable] else [])
  ++ (if sf_Sensitive field then [WithSensitive] else [])
  ++ match sf_Constraints field with
     | Some raw => [WithConstraints (unmarshalConstraints raw)]
     | None => []
     end.
Definition pattern_of (field : SchemaField) : string :=
  match sf_Constraints field with
  | Some raw => default "" (Regex (unmarshalConstraints raw))
  | None => ""
  end.
Definition field_validator (l : Limits) (field : SchemaField) : result error FieldValidator :=
  let n := Z.of_nat (str_len (pattern_of field)) in
  if (0 <? RegexMaxLength l)%Z && negb (bool_decide (pattern_of field = ""))
     && (RegexMaxLength l <? n)%Z
  then Err (Errorf "field %s: regex pattern exceeds maximum length of %d characters"
              [AStr (sf_Path field); AInt (RegexMaxLength l)])
  else Ok (NewFieldValidator (sf_Path field) (ToProto (sf_FieldType field)) (field_options l field)).

Fixpoint build_validators (l : Limits) (fields : list SchemaField)
    (acc : gmap string FieldValidator) : result error (gmap string FieldValidator) :=
  match fields with
  | [] => Ok acc
  | field :: fields =>
      let? v := field_validator l field in
      build_validators l fields (<[sf_Path field := v]> acc)
  end.

(** What [GetValidators] computes when it has nothing cached. *)
Definition load_validators (l : Limits) (tenantID : string) (s : S) :
    result error (gmap string FieldValidator) :=
  let? sv := bound_version tenantID s in
  let? fields := ss_GetSchemaFields (sv_ID sv) s in
  build_validators l fields ∅.

Definition factory_GetValidators (tenantID : string) (f : F) :
    result error (gmap string FieldValidator) * F :=
  match Peek tenantID (f_cache f) with
  | Some cached => (Ok cached, f)
  | None =>
      match load_validators (f_limits f) tenantID (f_store f) with
      | Err e => (Err e, f)
      | Ok validators => (Ok validators, set_cache f (Set_ tenantID validators (f_cache f)))
      end
  end.

Definition factory_GetValidations (tenantID : string) (f : F) :
    result error (list Cel.ValidationRule) * F :=
  match validationsCache f !! tenantID with
  | Some rules => (Ok rules, f)
  | None =>
      match bound_version tenantID (f_store f) with
      | Err e => (Err e, f)
      | Ok sv =>
          let rules := decodeValidations (sv_Validations sv) in
          (Ok rules, mkFactory (f_store f) (f_cache f) (rulesCache f)
                       (<[tenantID := rules]> (validationsCache f)) (celEnvCache f)
                       (celProgramsCache f) (celCache f) (f_limits f))
      end
  end.

Definition with_programs (f : F) (programs : gmap programKey Cel.Program) : F :=
  mkFactory (f_store f) (f_cache f) (rulesCache f) (validationsCache f) (celEnvCache f)
    (celProgramsCache f) programs (f_limits f).

(** [Cache.ProgramFor] of the shared program cache. *)
Definition ProgramFor (env : cel_Env) (rule : Cel.ValidationRule) (schemaID : string)
    (version : Z) (idx : nat) (c : gmap programKey Cel.Program) :
    result error Cel.Program * gmap programKey Cel.Program :=
  match c !! (schemaID, version, idx) with
  | Some prog => (Ok prog, c)
  | None =>
      match cel_Program env (Cel.rule_Rule rule) with
      | Err e => (Err e, c)
      | Ok prog => (Ok prog, <[(schemaID, version, idx) := prog]> c)
      end
  end.

Fixpoint compile_rules (env : cel_Env) (schemaID : string) (version : Z) (i : nat)
    (rules : list Cel.ValidationRule) (c : gmap programKey Cel.Program) :
    result error (list Cel.Program) * gmap programKey Cel.Program :=
  match rules with
  | [] => (Ok [], c)
  | rule :: rules =>
      match ProgramFor env rule schemaID version i c with
      | (Err e, c) => (Err (Wrap ("compile validations[" +:+ itoa (Z.of_nat i) +:+ "]") e), c)
      | (Ok prog, c) =>
          match compile_rules env schemaID version (Datatypes.S i) rules c with
          | (Err e, c) => (Err e, c)
          | (Ok progs, c) => (Ok (prog :: progs), c)
          end
      end
  end.

(** The second half of [GetCelArtifacts]: compile the rules and cache the
    result. *)
Definition build_artifacts (tenantID : string) (rules : list Cel.ValidationRule) (f : F) :
    result error (list Cel.Program) * F :=
  match bound_version tenantID (f_store f) with
  | Err e => (Err e, f)
  | Ok sv =>
      match ss_GetSchemaFields (sv_ID sv) (f_store f) with
      | Err e => (Err e, f)
      | Ok _ =>
          match cel_NewEnv with
          | Err e => (Err (Wrap "build cel env" e), f)
          | Ok env =>
              match compile_rules env (sv_SchemaID sv) (sv_Version sv) 0 rules (celCache f) with
              | (Err e, c) => (Err e, with_programs f c)
              | (Ok programs, c) =>
                  (Ok programs,
                   mkFactory (f_store f) (f_cache f) (rulesCache f) (validationsCache f)
                     (<[tenantID := env]> (celEnvCache f))
                     (<[tenantID := programs]> (celProgramsCache f)) c (f_limits f))
              end
          end
      end
  end.

(** The environment and the programs of a tenant; of the pair the service uses
    the programs. *)
Definition factory_GetCelArtifacts (tenantID : string) (f : F) :
    result error (list Cel.Program) * F :=
  match factory_GetValidations tenantID f with
  | (Err e, f) => (Err e, f)
  | (Ok [], f) => (Ok [], f)
  | (Ok rules, f) =>
      match celEnvCache f !! tenantID, celProgramsCache f !! tenantID with
      | Some _, Some programs => (Ok programs, f)
      | _, _ => build_artifacts tenantID rules f
      end
  end.

Global Instance factory_validators : Validators F := {|
  GetValidators := factory_GetValidators;
  GetDependentRequired := factory_GetDependentRequired;
  GetValidations := factory_GetValidations;
  GetCelArtifacts := factory_GetCelArtifacts
|}.
End factory.
