(* ===== verification/ValidatorFactoryFacts.v ===== *)
(** * The factory's caches never show

    Over any schema store whose lookups by key answer the key's row: whatever
    the factory has cached, each call answers what it would compute from the
    store, and this stays so when a tenant is bound to another schema version
    and the factory is told. *)
From S2P Require Import Prelude GoText Domain Json Lru CrossField Convert Validation ValidatorFactory.
Import Convert Validation.

(** In a well-formed store a schema version is found under its own key. *)
Class SchemaStoreOk (S : Type) `{SchemaStore S} := {
  ss_ok : S → Prop;
  ss_version_key s id v sv :
    ss_ok s → ss_GetSchemaVersion id v s = Ok sv → sv_SchemaID sv = id ∧ sv_Version sv = v
}.

Section facts.
Context {S : Type} `{SchemaStoreOk S, CelCompile, Regexp, JsonSchema, CompileRace, UrlRest}.
Abbreviation F := (ValidatorFactory S cel_Env).
Implicit Types (f : F) (s : S) (t : string).

(** ** What the calls compute without caches *)
Definition load_dependentRequired s t : result error string :=
  let? sv := bound_version t s in Ok (sv_DependentRequired sv).
Definition load_validations s t : result error (list Cel.ValidationRule) :=
  let? sv := bound_version t s in Ok (decodeValidations (sv_Validations sv)).

Fixpoint compile_all (env : cel_Env) (i : nat) (rules : list Cel.ValidationRule) :
    result error (list Cel.Program) :=
  match rules with
  | [] => Ok []
  | rule :: rules =>
      match cel_Program env (Cel.rule_Rule rule) with
      | Err e => Err (Wrap ("compile validations[" +:+ itoa (Z.of_nat i) +:+ "]") e)
      | Ok prog => let? progs := compile_all env (Datatypes.S i) rules in Ok (prog :: progs)
      end
  end.

Definition load_programs s t : result error (list Cel.Program) :=
  let? rules := load_validations s t in
  match rules with
  | [] => Ok []
  | _ =>
      let? sv := bound_version t s in
      let? _ := ss_GetSchemaFields (sv_ID sv) s in
      match cel_NewEnv with
      | Err e => Err (Wrap "build cel env" e)
      | Ok env => compile_all env 0 rules
      end
  end.

(** ** Coherence with a store *)

(** The shared programs are those of the rules at their keys. *)
Definition programs_ok s (c : gmap programKey Cel.Program) : Prop :=
  ∀ id v i prog, c !! (id, v, i) = Some prog →
    ∃ sv rule env, ss_GetSchemaVersion id v s = Ok sv
      ∧ decodeValidations (sv_Validations sv) !! i = Some rule
      ∧ cel_NewEnv = Ok env ∧ cel_Program env (Cel.rule_Rule rule) = Ok prog.

Record coherent_with s f : Prop := {
  co_store : ss_ok s;
  co_wf : wf (f_cache f);
  co_validators t vs :
    al_lookup t (entries (f_cache f)) = Some vs → load_validators (f_limits f) t s = Ok vs;
  co_rules t raw : rulesCache f !! t = Some raw → load_dependentRequired s t = Ok raw;
  co_validations t rules : validationsCache f !! t = Some rules → load_validations s t = Ok rules;
  co_tenant_programs t ps : celProgramsCache f !! t = Some ps → load_programs s t = Ok ps;
  co_programs : programs_ok s (celCache f) }.

Definition factory_inv f : Prop := coherent_with (f_store f) f.

Lemma factory_inv_New s opts : ss_ok s → factory_inv (NewValidatorFactory s opts).
Proof. intros Hs. split; try done. apply wf_New. Qed.

(** ** The calls *)
Lemma GetValidators_ok t f r f' :
  factory_inv f → factory_GetValidators t f = (r, f') →
  r = load_validators (f_limits f) t (f_store f) ∧ factory_inv f'
  ∧ f_store f' = f_store f ∧ f_limits f' = f_limits f.
Proof.
  intros Hi E. unfold factory_GetValidators in E. rewrite Peek_spec in E by apply Hi.
  destruct (al_lookup t _) as [vs|] eqn:Hl.
  { simplify_eq. by rewrite (co_validators _ _ Hi t vs). }
  destruct (load_validators _ t _) as [vs|e] eqn:Hload; simplify_eq; [|done].
  split_and!; try done. destruct Hi as [Hok Hwf Hv ? ? ? ?]. split; try done; simpl.
  - by apply Set_spec.
  - intros t' vs'. destruct (Set_spec (f_cache f) t vs Hwf) as (-> & _).
    assert (NoDup (entries (f_cache f)).*1) as Hnd by (by apply NoDup_entries).
    destruct (decide (t' = t)) as [->|Hne].
    + rewrite al_lookup_set_eq by done. congruence.
    + intros Ht. apply Hv. by eapply al_lookup_set_ne.
Qed.

Lemma GetDependentRequired_ok t f r f' :
  factory_inv f → factory_GetDependentRequired t f = (r, f') →
  r = load_dependentRequired (f_store f) t ∧ factory_inv f'
  ∧ f_store f' = f_store f ∧ f_limits f' = f_limits f.
Proof.
  intros Hi E. unfold factory_GetDependentRequired in E. destruct (rulesCache f !! t) as [raw|] eqn:Hl.
  { simplify_eq. by rewrite (co_rules _ _ Hi t raw). }
  unfold load_dependentRequired. destruct (bound_version t _) as [sv|e] eqn:Hb; simplify_eq; [|done].
  split_and!; try done. destruct Hi. split; try done. simpl.
  intros t' raw. rewrite lookup_insert_Some. unfold load_dependentRequired.
  intros [[<- <-]|[_ ?]]; [by rewrite Hb|]. by apply co_rules0.
Qed.

Lemma GetValidations_ok t f r f' :
  factory_inv f → factory_GetValidations t f = (r, f') →
  r = load_validations (f_store f) t ∧ factory_inv f'
  ∧ f_store f' = f_store f ∧ f_limits f' = f_limits f.
Proof.
  intros Hi E. unfold factory_GetValidations in E. destruct (validationsCache f !! t) as [rs|] eqn:Hl.
  { simplify_eq. by rewrite (co_validations _ _ Hi t rs). }
  unfold load_validations. destruct (bound_version t _) as [sv|e] eqn:Hb; simplify_eq; [|done].
  split_and!; try done. destruct Hi. split; try done. simpl.
  intros t' rs. rewrite lookup_insert_Some. unfold load_validations.
  intros [[<- <-]|[_ ?]]; [by rewrite Hb|]. by apply co_validations0.
Qed.

Lemma compile_rules_ok s env id v sv rules :
  cel_NewEnv = Ok env → ss_GetSchemaVersion id v s = Ok sv →
  decodeValidations (sv_Validations sv) = rules →
  ∀ rest i c r c', drop i rules = rest → programs_ok s c →
    compile_rules env id v i rest c = (r, c') → r = compile_all env i rest ∧ programs_ok s c'.
Proof.
  intros He Hsv Hr. induction rest as [|rule rest IH]; intros i c r c' Hd Hc E; simpl in *.
  { by simplify_eq. }
  assert (rules !! i = Some rule) as Hi.
  { rewrite <-(Nat.add_0_r i), <-lookup_drop, Hd. done. }
  assert (drop (Datatypes.S i) rules = rest) as Hd'.
  { rewrite <-Nat.add_1_r, <-drop_drop, Hd. done. }
  destruct (ProgramFor _ _ _ _ _ _) as [r1 c1] eqn:Hp. unfold ProgramFor in Hp.
  assert (programs_ok s c1 ∧ r1 = cel_Program env (Cel.rule_Rule rule)) as [Hc1 ->].
  { destruct (c !! (id, v, i)) as [prog|] eqn:Hl.
    - simplify_eq. split; [done|].
      destruct (Hc _ _ _ _ Hl) as (sv' & rule' & env' & ? & ? & ? & ?). simplify_eq. congruence.
    - destruct (cel_Program env _) as [prog|e] eqn:Hcp; simplify_eq; [|done]. split; [|done].
      intros id' v' i' prog'. rewrite lookup_insert_Some. intros [[? <-]|[_ ?]]; [|by apply Hc].
      simplify_eq. by exists sv, rule, env. }
  destruct (cel_Program env _) as [prog|e]; [|by simplify_eq].
  destruct (compile_rules _ _ _ _ _ _) as [r2 c2] eqn:Hrest.
  destruct (IH _ _ _ _ Hd' Hc1 Hrest) as [-> Hc2].
  by destruct (compile_all env _ rest); simplify_eq/=.
Qed.

Lemma build_artifacts_ok t rules f r f' :
  factory_inv f → load_validations (f_store f) t = Ok rules → rules ≠ [] →
  build_artifacts t rules f = (r, f') →
  r = load_programs (f_store f) t ∧ factory_inv f'
  ∧ f_store f' = f_store f ∧ f_limits f' = f_limits f.
Proof.
  intros Hi Hv Hne E.
  assert (load_programs (f_store f) t = (let? sv := bound_version t (f_store f) in
    let? _ := ss_GetSchemaFields (sv_ID sv) (f_store f) in
    match cel_NewEnv with
    | Err e => Err (Wrap "build cel env" e) | Ok env => compile_all env 0 rules end)%go) as Hlp.
  { unfold load_programs. rewrite Hv. by destruct rules. }
  unfold build_artifacts in E.
  destruct (bound_version t (f_store f)) as [sv|e] eqn:Hb; simpl in Hlp; [|by simplify_eq].
  destruct (ss_GetSchemaFields _ _); simpl in Hlp; [|by simplify_eq].
  destruct cel_NewEnv as [env|] eqn:He; [|by simplify_eq].
  assert (decodeValidations (sv_Validations sv) = rules) as Hdec
    by (unfold load_validations in Hv; rewrite Hb in Hv; by simplify_eq/=).
  assert (ss_GetSchemaVersion (sv_SchemaID sv) (sv_Version sv) (f_store f) = Ok sv) as Hsv.
  { unfold bound_version in Hb. destruct (ss_GetTenantByID t _); [|done]. simpl in Hb.
    by destruct (ss_version_key _ _ _ _ (co_store _ _ Hi) Hb) as [-> ->]. }
  destruct (compile_rules _ _ _ _ _ _) as [r2 c2] eqn:Hc.
  destruct (compile_rules_ok _ env _ _ sv rules He Hsv Hdec rules 0 _ _ _ eq_refl
              (co_programs _ _ Hi) Hc) as [-> Hpr].
  destruct (compile_all env 0 rules) as [ps|] eqn:Hall; simplify_eq; rewrite Hlp;
    (split_and!; [done| |done..]); destruct Hi; split; try done.
  simpl. intros t' ps'. rewrite lookup_insert_Some. intros [[<- <-]|[_ ?]]; [done|].
  by apply co_tenant_programs0.
Qed.

Lemma GetCelArtifacts_ok t f r f' :
  factory_inv f → factory_GetCelArtifacts t f = (r, f') →
  r = load_programs (f_store f) t ∧ factory_inv f'
  ∧ f_store f' = f_store f ∧ f_limits f' = f_limits f.
Proof.
  intros Hi E. unfold factory_GetCelArtifacts in E.
  destruct (factory_GetValidations t f) as [r1 f1] eqn:Hg.
  destruct (GetValidations_ok t f r1 f1 Hi Hg) as (-> & Hi1 & Hs & Hl). rewrite <-Hs, <-Hl.
  destruct (load_validations (f_store f) t) as [rules|e] eqn:Hv.
  2:{ simplify_eq. unfold load_programs. rewrite Hs, Hv. done. }
  destruct (decide (rules = [])) as [->|Hne].
  { simplify_eq. unfold load_programs. rewrite Hs, Hv. done. }
  assert (E' : match celEnvCache f1 !! t, celProgramsCache f1 !! t with
      | Some _, Some programs => (Ok programs, f1)
      | _, _ => build_artifacts t rules f1 end = (r, f')) by (by destruct rules).
  rewrite <-Hs in Hv. pose proof (build_artifacts_ok t rules f1 r f' Hi1 Hv Hne) as Hbuild.
  destruct (celEnvCache f1 !! t), (celProgramsCache f1 !! t) as [ps|] eqn:Hps; auto.
  simplify_eq. by rewrite (co_tenant_programs _ _ Hi1 t _ Hps).
Qed.

Lemma compile_all_length env i rules ps : compile_all env i rules = Ok ps → length ps = length rules.
Proof.
  revert i ps. induction rules as [|r rules IH]; intros i ps E; simpl in E; [by simplify_eq|].
  destruct (cel_Program env _); [|done]. destruct (compile_all env _ rules) eqn:Hr; simplify_eq/=.
  f_equal. by eapply IH.
Qed.
Lemma load_programs_length s t rules ps :
  load_validations s t = Ok rules → load_programs s t = Ok ps → length ps = length rules.
Proof.
  unfold load_programs. intros -> E. simpl in E. destruct rules as [|r rules]; [by simplify_eq|].
  destruct (bound_version t s); [|done]. simpl in E. destruct (ss_GetSchemaFields _ _); [|done].
  simpl in E. destruct cel_NewEnv; [|done]. by eapply compile_all_length.
Qed.

Global Instance factory_validators_ok : ValidatorsOk F.
Proof.
  refine {| va_Schemas := S * Limits; va_view f := (f_store f, f_limits f); va_inv := factory_inv;
            va_validators sl t := load_validators sl.2 t sl.1;
            va_dependentRequired sl t := load_dependentRequired sl.1 t;
            va_validations sl t := load_validations sl.1 t;
            va_celArtifacts sl t := load_programs sl.1 t |}.
  - intros f t r f' Hi E. destruct (GetValidators_ok t f r f' Hi E) as (-> & ? & -> & ->). done.
  - intros f t r f' Hi E. destruct (GetDependentRequired_ok t f r f' Hi E) as (-> & ? & -> & ->). done.
  - intros f t r f' Hi E. destruct (GetValidations_ok t f r f' Hi E) as (-> & ? & -> & ->). done.
  - intros f t r f' Hi E. destruct (GetCelArtifacts_ok t f r f' Hi E) as (-> & ? & -> & ->). done.
  - intros [s l] t rules ps. apply load_programs_length.
Defined.

(** ** Changes of the schemas

    Schema versions and their fields are never rewritten (publishing changes a
    flag the factory does not read). *)
Definition same_rules (sv sv' : SchemaVersion) : Prop :=
  sv_ID sv' = sv_ID sv ∧ sv_DependentRequired sv' = sv_DependentRequired sv
  ∧ sv_Validations sv' = sv_Validations sv.

Record store_grows (tenants : string → Prop) (schemas : string → Prop) s s' : Prop := {
  sg_ok : ss_ok s → ss_ok s';
  sg_tenant t tn : tenants t → ss_GetTenantByID t s = Ok tn →
    schemas (tn_SchemaID tn) ∧ ∃ tn', ss_GetTenantByID t s' = Ok tn'
    ∧ tn_SchemaID tn' = tn_SchemaID tn ∧ tn_SchemaVersion tn' = tn_SchemaVersion tn;
  sg_version id v sv : schemas id → ss_GetSchemaVersion id v s = Ok sv →
    ∃ sv', ss_GetSchemaVersion id v s' = Ok sv' ∧ same_rules sv sv';
  sg_fields id v sv fs : schemas id → ss_GetSchemaVersion id v s = Ok sv →
    ss_GetSchemaFields (sv_ID sv) s = Ok fs → ss_GetSchemaFields (sv_ID sv) s' = Ok fs }.

Definition with_store f s : F :=
  mkFactory s (f_cache f) (rulesCache f) (validationsCache f) (celEnvCache f) (celProgramsCache f)
    (celCache f) (f_limits f).

(** One step of the factory: a call; schemas or tenants are added, or a version
    is published or a tenant renamed; a tenant is bound to another version, and
    then its entries are dropped ([UpdateTenant]); a schema no tenant is bound to
    is deleted, and then its programs are dropped ([DeleteSchema]). *)
Inductive factory_step : F → F → Prop :=
| step_validators t f : factory_step f (GetValidators t f).2
| step_dependentRequired t f : factory_step f (GetDependentRequired t f).2
| step_validations t f : factory_step f (GetValidations t f).2
| step_programs t f : factory_step f (GetCelArtifacts t f).2
| step_grow s f :
    store_grows (λ _, True) (λ _, True) (f_store f) s → factory_step f (with_store f s)
| step_rebind t s f :
    store_grows (λ t', t' ≠ t) (λ _, True) (f_store f) s →
    factory_step f (InvalidateRules t (InvalidateValidators t (with_store f s)))
| step_delete_schema id s f :
    store_grows (λ _, True) (λ id', id' ≠ id) (f_store f) s →
    factory_step f (InvalidateSchemaPrograms id (with_store f s)).

Section change.
Context (T Sc : string → Prop) (s s' : S) (Hg : store_grows T Sc s s').

Lemma bound_version_grows t sv :
  T t → bound_version t s = Ok sv → ∃ sv', bound_version t s' = Ok sv' ∧ same_rules sv sv'
    ∧ ∀ fs, ss_GetSchemaFields (sv_ID sv) s = Ok fs → ss_GetSchemaFields (sv_ID sv) s' = Ok fs.
Proof.
  unfold bound_version. intros Ht Hb. destruct (ss_GetTenantByID t s) as [tn|] eqn:Htn; [|done].
  destruct (sg_tenant _ _ _ _ Hg t tn Ht Htn) as (Hid & tn' & -> & Hsc & Hsv). simpl in *. rewrite Hsc, Hsv.
  destruct (sg_version _ _ _ _ Hg _ _ _ Hid Hb) as (sv' & -> & Hs). exists sv'.
  split_and!; [done..|]. intros fs. by eapply sg_fields.
Qed.

Lemma load_validators_grows l t vs :
  T t → load_validators l t s = Ok vs → load_validators l t s' = Ok vs.
Proof.
  unfold load_validators. intros Ht Hl. destruct (bound_version t s) as [sv|] eqn:Hb; [|done].
  destruct (bound_version_grows t sv Ht Hb) as (sv' & -> & (Hid & _) & Hf). simpl in *. rewrite Hid.
  destruct (ss_GetSchemaFields (sv_ID sv) s) as [fs|]; [|done]. by rewrite (Hf fs).
Qed.
Lemma load_dependentRequired_grows t raw :
  T t → load_dependentRequired s t = Ok raw → load_dependentRequired s' t = Ok raw.
Proof.
  unfold load_dependentRequired. intros Ht Hl. destruct (bound_version t s) as [sv|] eqn:Hb; [|done].
  destruct (bound_version_grows t sv Ht Hb) as (sv' & -> & (_ & Hd & _) & _). simpl in *. by rewrite Hd.
Qed.
Lemma load_validations_grows t rules :
  T t → load_validations s t = Ok rules → load_validations s' t = Ok rules.
Proof.
  unfold load_validations. intros Ht Hl. destruct (bound_version t s) as [sv|] eqn:Hb; [|done].
  destruct (bound_version_grows t sv Ht Hb) as (sv' & -> & (_ & _ & Hd) & _). simpl in *. by rewrite Hd.
Qed.
Lemma load_programs_grows t ps : T t → load_programs s t = Ok ps → load_programs s' t = Ok ps.
Proof.
  unfold load_programs. intros Ht Hl. destruct (load_validations s t) as [rules|] eqn:Hv; [|done].
  rewrite (load_validations_grows t rules Ht Hv). simpl in *. destruct rules as [|r rules]; [done|].
  destruct (bound_version t s) as [sv|] eqn:Hb; [|done].
  destruct (bound_version_grows t sv Ht Hb) as (sv' & -> & (Hid & _) & Hf). simpl in *. rewrite Hid.
  destruct (ss_GetSchemaFields (sv_ID sv) s) as [fs|]; [|done]. by rewrite (Hf fs).
Qed.
Lemma programs_grow c :
  (∀ k, is_Some (c !! k) → Sc k.1.1) → programs_ok s c → programs_ok s' c.
Proof.
  intros Hk Hc id v i prog Hp. destruct (Hc _ _ _ _ Hp) as (sv & rule & env & Hsv & Hr & He & Hpr).
  assert (Sc id) as Hid by (by apply (Hk (id, v, i)); eauto).
  destruct (sg_version _ _ _ _ Hg _ _ _ Hid Hsv) as (sv' & ? & _ & _ & Hd).
  exists sv', rule, env. by rewrite Hd.
Qed.
End change.

(** A lookup that was in the caches before the change. *)
Local Ltac grows Hg :=
  first [ by apply (sg_ok _ _ _ _ Hg) | by apply (programs_grow _ _ _ _ Hg)
        | by eapply (load_validators_grows _ _ _ _ Hg); eauto
        | by eapply (load_dependentRequired_grows _ _ _ _ Hg); eauto
        | by eapply (load_validations_grows _ _ _ _ Hg); eauto
        | by eapply (load_programs_grows _ _ _ _ Hg); eauto ].

Lemma factory_step_inv f f' : factory_step f f' → factory_inv f → factory_inv f'.
Proof.
  intros Hstep Hi. destruct Hstep as [t f|t f|t f|t f|s f Hg|t s f Hg|id s f Hg].
  - destruct (GetValidators t f) as [r f'] eqn:E. by destruct (GetValidators_ok t f r f' Hi E) as (_ & ? & _).
  - destruct (GetDependentRequired t f) as [r f'] eqn:E.
    by destruct (GetDependentRequired_ok t f r f' Hi E) as (_ & ? & _).
  - destruct (GetValidations t f) as [r f'] eqn:E. by destruct (GetValidations_ok t f r f' Hi E) as (_ & ? & _).
  - destruct (GetCelArtifacts t f) as [r f'] eqn:E. by destruct (GetCelArtifacts_ok t f r f' Hi E) as (_ & ? & _).
  - destruct Hi. split; simpl; try done; intros; grows Hg.
  - destruct Hi as [? Hwf Hv ? ? ? ?]. destruct (Delete_spec (f_cache f) t Hwf) as (He & Hwf' & _).
    split; simpl; try done.
    2:{ intros t' vs. rewrite He. destruct (decide (t' = t)) as [->|Hne].
        - by rewrite al_lookup_remove_eq.
        - rewrite al_lookup_remove_ne by done. intros. grows Hg. }
    all: rewrite ?lookup_delete_Some; try setoid_rewrite lookup_delete_Some.
    all: try intros t' ? [? ?]; grows Hg.
  - destruct Hi. split; simpl; try done; intros; try grows Hg.
    apply (programs_grow _ _ _ _ Hg).
    + intros k [p Hp]. by apply map_lookup_filter_Some in Hp as [_ ?].
    + intros id' v i prog Hp. apply map_lookup_filter_Some in Hp as [Hp _]. by apply co_programs0.
Qed.

(** C12: A factory never answers from an outdated cache. After any sequence of
    calls, of additions to the schemas, of tenants bound to other versions and
    of schema deletions, with the invalidations the schema service makes, each
    of the four calls answers exactly what the schemas now in the store give
    for the tenant: the validators of its fields, its dependentRequired rules,
    its validation rules and their compiled programs. *)
Theorem factory_answers_current s opts f t :
  ss_ok s → rtc factory_step (NewValidatorFactory s opts) f →
  (GetValidators t f).1 = load_validators (f_limits f) t (f_store f)
  ∧ (GetDependentRequired t f).1 = load_dependentRequired (f_store f) t
  ∧ (GetValidations t f).1 = load_validations (f_store f) t
  ∧ (GetCelArtifacts t f).1 = load_programs (f_store f) t.
Proof.
  intros Hs Hr. assert (factory_inv f) as Hi.
  { generalize (factory_inv_New s opts Hs).
    induction Hr; eauto using factory_step_inv. }
  destruct (GetValidators t f) as [r1 f1] eqn:E1, (GetDependentRequired t f) as [r2 f2] eqn:E2,
    (GetValidations t f) as [r3 f3] eqn:E3, (GetCelArtifacts t f) as [r4 f4] eqn:E4.
  apply GetValidators_ok in E1 as [-> _]; [|done]. apply GetDependentRequired_ok in E2 as [-> _]; [|done].
  apply GetValidations_ok in E3 as [-> _]; [|done]. by apply GetCelArtifacts_ok in E4 as [-> _].
Qed.
End facts.
