(* ===== verification/PubSub.v ===== *)
(** * Change events ([internal/pubsub])

    The event type and the publisher interface of [pubsub.go], and the
    in-memory backend of [memory.go]: one bounded channel per subscriber, a
    send that drops the event when the channel is full. A [Publish] is two
    steps, because its sequence number is taken before the lock that guards
    delivery. *)
From S2P Require Import Prelude GoText GoTime Domain Json.

Record FieldChange := { fc_FieldPath : string; fc_OldValue : string; fc_NewValue : string }.

Record ConfigChangeEvent := {
  ev_EventID : string; ev_Seq : Z; ev_TenantID : string; ev_Version : Z;
  ev_Changes : list FieldChange; ev_ChangedBy : string; ev_ChangedAt : Z }.

Class Publisher (P : Type) := {
  Publish (event : ConfigChangeEvent) (p : P) : result error unit * P
}.

Definition MaxPayloadBytes : nat := Z.to_nat 65536.

(** ** [json.Marshal(event)]

    Fails only for a time whose year is outside 0..9999. Times are written in
    UTC. *)
Definition encode_change (c : FieldChange) : string :=
  Json.encode_object
    [("field_path", Json.encode_string (fc_FieldPath c));
     ("old_value", Json.encode_string (fc_OldValue c));
     ("new_value", Json.encode_string (fc_NewValue c))].

Definition marshal_event (e : ConfigChangeEvent) : result error string :=
  let '(y, _, _) := civil_from_days (ev_ChangedAt e `div` (86400 * Second))%Z in
  if (y <? 0)%Z || (9999 <? y)%Z
  then Err (Errorf "Time.MarshalJSON: year outside of range [0,9999]" [])
  else Ok (Json.encode_object
    [("event_id", Json.encode_string (ev_EventID e));
     ("seq", itoa (ev_Seq e));
     ("tenant_id", Json.encode_string (ev_TenantID e));
     ("version", itoa (ev_Version e));
     ("changes", match ev_Changes e with
                 | [] => "null"
                 | cs => Json.encode_array (encode_change <$> cs)
                 end);
     ("changed_by", Json.encode_string (ev_ChangedBy e));
     ("changed_at", Json.quote +:+ FormatRFC3339Nano (ev_ChangedAt e) +:+ Json.quote)]).

Module MemoryPubSub.

Definition channel_cap : nat := 64.

(** A subscription's channel: its buffer and whether it is closed. *)
Record memSub := { buf : list ConfigChangeEvent; closed : bool }.

Record MemoryPubSub := mkPubSub {
  subscribers : gmap string (list nat);   (* tenantID → subscriptions *)
  subs : gmap nat memSub;                 (* every channel ever made *)
  next_sub : nat;
  seq : Z;
  drops : nat }.

Definition NewMemoryPubSub : MemoryPubSub := mkPubSub ∅ ∅ 0 0 0.

(** [closeChannel]: once. *)
Definition closeChannel (id : nat) (ps : MemoryPubSub) : MemoryPubSub :=
  mkPubSub (subscribers ps)
    (alter (λ s, {| buf := buf s; closed := true |}) id (subs ps))
    (next_sub ps) (seq ps) (drops ps).

(** The first half of [Publish]: size check, identifier and sequence number.
    The [n]-th identifier is the [n]-th draw. *)
Definition Publish_begin `{Random} (event : ConfigChangeEvent) (ps : MemoryPubSub) :
    result error ConfigChangeEvent * MemoryPubSub :=
  match marshal_event event with
  | Err e => (Err e, ps)
  | Ok data =>
      if MaxPayloadBytes <? str_len data then (Err ErrPayloadTooLarge, ps)
      else
        let n := int64 (seq ps + 1) in
        (Ok {| ev_EventID := uuid_v4 (random (Z.to_nat n)); ev_Seq := n;
               ev_TenantID := ev_TenantID event; ev_Version := ev_Version event;
               ev_Changes := ev_Changes event; ev_ChangedBy := ev_ChangedBy event;
               ev_ChangedAt := ev_ChangedAt event |},
         mkPubSub (subscribers ps) (subs ps) (next_sub ps) n (drops ps))
  end.

(** One send: dropped when the buffer is full; [None] is the panic of a send
    on a closed channel. *)
Definition send (event : ConfigChangeEvent) (id : nat) (ps : MemoryPubSub) : option MemoryPubSub :=
  match subs ps !! id with
  | None => Some ps
  | Some s =>
      if closed s then None
      else if length (buf s) <? channel_cap
      then Some (mkPubSub (subscribers ps)
                   (<[id := {| buf := buf s ++ [event]; closed := false |}]> (subs ps))
                   (next_sub ps) (seq ps) (drops ps))
      else Some (mkPubSub (subscribers ps) (subs ps) (next_sub ps) (seq ps) (S (drops ps)))
  end.

Fixpoint send_all (event : ConfigChangeEvent) (ids : list nat) (ps : MemoryPubSub) :
    option MemoryPubSub :=
  match ids with
  | [] => Some ps
  | id :: ids => ps ← send event id ps; send_all event ids ps
  end.

(** The second half: delivery under the read lock. *)
Definition Publish_deliver (event : ConfigChangeEvent) (ps : MemoryPubSub) : option MemoryPubSub :=
  send_all event (default [] (subscribers ps !! ev_TenantID event)) ps.

Definition Subscribe (tenantID : string) (ps : MemoryPubSub) : nat * MemoryPubSub :=
  let id := next_sub ps in
  (id, mkPubSub (<[tenantID := default [] (subscribers ps !! tenantID) ++ [id]]> (subscribers ps))
         (<[id := {| buf := []; closed := false |}]> (subs ps)) (S id) (seq ps) (drops ps)).

(** The first occurrence is removed. *)
Fixpoint remove_first (id : nat) (l : list nat) : list nat :=
  match l with
  | [] => []
  | x :: l => if x =? id then l else x :: remove_first id l
  end.

(** The cancel function [Subscribe] returns. *)
Definition cancel (tenantID : string) (id : nat) (ps : MemoryPubSub) : MemoryPubSub :=
  closeChannel id
    (mkPubSub (alter (remove_first id) tenantID (subscribers ps)) (subs ps) (next_sub ps)
       (seq ps) (drops ps)).

Definition Close `{MapRange} (ps : MemoryPubSub) : MemoryPubSub :=
  foldl (λ ps p,
      let ps := foldl (λ ps id, closeChannel id ps) ps p.2 in
      mkPubSub (delete p.1 (subscribers ps)) (subs ps) (next_sub ps) (seq ps) (drops ps))
    ps (map_range (subscribers ps)).

(** A receive by the subscriber. *)
Definition receive (id : nat) (ps : MemoryPubSub) : option ConfigChangeEvent * MemoryPubSub :=
  match subs ps !! id with
  | Some {| buf := e :: es; closed := c |} =>
      (Some e, mkPubSub (subscribers ps) (<[id := {| buf := es; closed := c |}]> (subs ps))
                 (next_sub ps) (seq ps) (drops ps))
  | _ => (None, ps)
  end.

(** A whole [Publish] with nothing in between; a panic leaves the state. *)
Global Instance memory_publisher `{Random} : Publisher MemoryPubSub := {|
  Publish event ps :=
    match Publish_begin event ps with
    | (Err e, ps) => (Err e, ps)
    | (Ok event, ps) =>
        match Publish_deliver event ps with
        | Some ps => (Ok tt, ps)
        | None => (Err (Errorf "panic: send on closed channel" []), ps)
        end
    end
|}.
End MemoryPubSub.

(** ** Runs of the in-memory backend

    Publishers, subscribers and the owner of the backend interleave freely: a
    [Publish] that has taken its number waits in [pending] until it delivers.
    [owner] remembers the tenant each subscription was made for, which is also
    the tenant its cancel function names. *)
Module PubSubMachine.
Import MemoryPubSub.

Record St := mkSt {
  ps : MemoryPubSub; pending : list ConfigChangeEvent; owner : gmap nat string }.

Section machine.
Context `{Random, MapRange}.

Inductive step : St → St → Prop :=
| step_begin st e e' ps' :
    Publish_begin e (ps st) = (Ok e', ps') →
    step st (mkSt ps' (e' :: pending st) (owner st))
| step_deliver st l1 e l2 ps' :
    pending st = l1 ++ e :: l2 → Publish_deliver e (ps st) = Some ps' →
    step st (mkSt ps' (l1 ++ l2) (owner st))
| step_subscribe st t id ps' :
    Subscribe t (ps st) = (id, ps') →
    step st (mkSt ps' (pending st) (<[id := t]> (owner st)))
| step_cancel st t id :
    owner st !! id = Some t →
    step st (mkSt (cancel t id (ps st)) (pending st) (owner st))
| step_close st : step st (mkSt (Close (ps st)) (pending st) (owner st))
| step_receive st id e ps' :
    receive id (ps st) = (e, ps') → step st (mkSt ps' (pending st) (owner st)).

Definition init : St := mkSt NewMemoryPubSub [] ∅.
Definition reachable (st : St) : Prop := rtc step init st.
End machine.

(** What every reachable state satisfies. *)
Record sub_ok (p : MemoryPubSub) (own : gmap nat string) : Prop := {
  ok_open t ids id : subscribers p !! t = Some ids → id ∈ ids →
    own !! id = Some t ∧ ∃ s, subs p !! id = Some s ∧ closed s = false;
  ok_nodup t ids : subscribers p !! t = Some ids → NoDup ids;
  ok_subs id s : subs p !! id = Some s → id < next_sub p ∧ length (buf s) ≤ channel_cap
    ∧ ∃ t, own !! id = Some t ∧ Forall (λ e, ev_TenantID e = t) (buf s);
  ok_owner id : is_Some (own !! id) → id < next_sub p }.

Lemma send_ok p own event id p' :
  sub_ok p own → own !! id = Some (ev_TenantID event) → send event id p = Some p' →
  sub_ok p' own ∧ subscribers p' = subscribers p.
Proof.
  intros Hok Hown. unfold send. destruct (subs p !! id) as [s|] eqn:Hs; [|by intros [= <-]].
  destruct (closed s) eqn:Hc; [done|].
  destruct (length (buf s) <? channel_cap) eqn:Hl; intros [= <-]; [|split; [split; apply Hok|done]].
  apply Nat.ltb_lt in Hl. split; [|done]. destruct Hok as [H1 H2 H3 H4]. split; simpl; [|done| |done].
  - intros t ids i Ht Hi. destruct (H1 t ids i Ht Hi) as [Ho (s' & Hs' & Hc')]. split; [done|].
    destruct (decide (i = id)) as [->|]; [rewrite lookup_insert_eq; eauto|].
    rewrite lookup_insert_ne by done. eauto.
  - intros i s'. destruct (decide (i = id)) as [->|].
    + rewrite lookup_insert_eq. intros [= <-]. destruct (H3 id s Hs) as (? & ? & t & Ht & Hf).
      split_and!; [done|simpl; rewrite length_app; simpl; lia|]. exists t. split; [done|]. simpl.
      apply Forall_app. rewrite Forall_singleton. split; [done|]. congruence.
    + rewrite lookup_insert_ne by done. apply H3.
Qed.

(** Delivery never meets a closed channel. *)
Lemma send_all_ok p own event ids :
  sub_ok p own → Forall (λ id, own !! id = Some (ev_TenantID event)
    ∧ ∃ t l, subscribers p !! t = Some l ∧ id ∈ l) ids →
  ∃ p', send_all event ids p = Some p' ∧ sub_ok p' own ∧ subscribers p' = subscribers p.
Proof.
  revert p. induction ids as [|id ids IH]; intros p Hok Hf; [by exists p|].
  apply Forall_cons in Hf as [[Ho (t & l & Ht & Hin)] Hf]. cbn [send_all].
  destruct (ok_open p own Hok t l id Ht Hin) as [_ (s & Hs & Hc)].
  destruct (send event id p) as [p1|] eqn:E.
  - destruct (send_ok p own event id p1 Hok Ho E) as [Hok1 Hsub]. simpl.
    destruct (IH p1 Hok1) as (p' & ? & ? & ?); [by rewrite Hsub|].
    exists p'. split_and!; [done|done|congruence].
  - unfold send in E. rewrite Hs, Hc in E. by destruct (_ <? _).
Qed.

Lemma deliver_ok p own event :
  sub_ok p own → ∃ p', Publish_deliver event p = Some p' ∧ sub_ok p' own.
Proof.
  intros Hok. unfold Publish_deliver.
  destruct (subscribers p !! ev_TenantID event) as [ids|] eqn:Hs; [|by exists p].
  destruct (send_all_ok p own event ids Hok) as (p' & ? & ? & _); [|by exists p'].
  apply Forall_forall. intros id Hid.
  destruct (ok_open p own Hok _ _ _ Hs Hid) as [? _]. eauto.
Qed.

Lemma remove_first_sub id l x : x ∈ remove_first id l → x ∈ l.
Proof.
  induction l as [|y l IH]; simpl; [done|]. destruct (y =? id); [by right|].
  intros [->|?]%elem_of_cons; [by left|right; auto].
Qed.
Lemma remove_first_notin id l : NoDup l → id ∉ remove_first id l.
Proof.
  induction l as [|y l IH]; simpl; intros Hnd; [apply not_elem_of_nil|].
  apply NoDup_cons in Hnd as [Hy Hnd]. destruct (y =? id) eqn:E.
  - apply Nat.eqb_eq in E as ->. done.
  - apply Nat.eqb_neq in E. rewrite not_elem_of_cons. split; [congruence|auto].
Qed.
Lemma remove_first_nodup id l : NoDup l → NoDup (remove_first id l).
Proof.
  induction l as [|y l IH]; simpl; intros Hnd; [constructor|].
  apply NoDup_cons in Hnd as [Hy Hnd]. destruct (y =? id); [done|].
  constructor; [|auto]. intros Hx. by apply remove_first_sub in Hx.
Qed.

(** Closing a channel nobody is listed for. *)
Lemma close_ok p own id :
  sub_ok p own → (∀ t l, subscribers p !! t = Some l → id ∉ l) → sub_ok (closeChannel id p) own.
Proof.
  intros [H1 H2 H3 H4] Hn. split; simpl; [|done| |done].
  - intros t l i Ht Hi. destruct (H1 t l i Ht Hi) as [Ho (s & Hs & Hc)]. split; [done|].
    exists s. split; [|done]. rewrite lookup_alter_ne; [done|]. intros ->. by eapply Hn.
  - intros i s. destruct (decide (i = id)) as [->|].
    + rewrite lookup_alter_eq, fmap_Some. intros (s' & Hs' & ->). by apply (H3 id s').
    + rewrite lookup_alter_ne by done. apply H3.
Qed.

Lemma unlist_ok p own t l :
  sub_ok p own →
  (∀ ids, subscribers p !! t = Some ids → ∀ ids', l !! t = Some ids' →
     NoDup ids' ∧ ∀ i, i ∈ ids' → i ∈ ids) →
  (∀ t', t' ≠ t → l !! t' = subscribers p !! t') →
  (is_Some (l !! t) → is_Some (subscribers p !! t)) →
  sub_ok (mkPubSub l (subs p) (next_sub p) (seq p) (drops p)) own.
Proof.
  intros [H1 H2 H3 H4] Hl Hne Hs. split; simpl; [| |done|done].
  - intros t' ids i Ht Hi. destruct (decide (t' = t)) as [->|]; [|rewrite Hne in Ht by done; eauto].
    destruct Hs as [ids0 H0]; [eauto|]. destruct (Hl ids0 H0 ids Ht) as [_ Hsub]. eauto.
  - intros t' ids Ht. destruct (decide (t' = t)) as [->|]; [|rewrite Hne in Ht by done; eauto].
    destruct Hs as [ids0 H0]; [eauto|]. by destruct (Hl ids0 H0 ids Ht).
Qed.

Lemma cancel_ok p own t id :
  sub_ok p own → own !! id = Some t → sub_ok (cancel t id p) own.
Proof.
  intros Hok Ho. unfold cancel. apply close_ok.
  - apply (unlist_ok p own t); [done|..].
    + intros ids Hi ids'. rewrite lookup_alter_eq, Hi. intros [= <-].
      split; [by eapply remove_first_nodup, ok_nodup|apply remove_first_sub].
    + intros t' Hne. by rewrite lookup_alter_ne.
    + rewrite lookup_alter_eq. by intros [? [? [? _]]%fmap_Some]; eauto.
  - simpl. intros t' l. destruct (decide (t' = t)) as [->|Hne].
    + rewrite lookup_alter_eq, fmap_Some. intros (ids & Hi & ->).
      by eapply remove_first_notin, ok_nodup.
    + rewrite lookup_alter_ne by done. intros Hi Hin.
      destruct (ok_open p own Hok _ _ _ Hi Hin) as [Ho' _]. congruence.
Qed.

Definition unlist (t : string) (p : MemoryPubSub) : MemoryPubSub :=
  mkPubSub (delete t (subscribers p)) (subs p) (next_sub p) (seq p) (drops p).

Lemma close_all_unlist t ids p :
  unlist t (foldl (λ p id, closeChannel id p) p ids)
  = foldl (λ p id, closeChannel id p) (unlist t p) ids.
Proof. revert p. induction ids as [|id ids IH]; intros p; [done|]. simpl. by rewrite IH. Qed.

Lemma close_all_ok own ids p :
  sub_ok p own → (∀ id, id ∈ ids → ∀ t l, subscribers p !! t = Some l → id ∉ l) →
  sub_ok (foldl (λ p id, closeChannel id p) p ids) own
  ∧ subscribers (foldl (λ p id, closeChannel id p) p ids) = subscribers p.
Proof.
  revert p. induction ids as [|id ids IH]; intros p Hok Hn; [done|]. simpl.
  destruct (IH (closeChannel id p)) as [? ?]; [apply close_ok; [done|]; apply Hn; by left| |done].
  intros i Hi. apply Hn. by right.
Qed.

Lemma Close_tenant_ok p own t ids :
  sub_ok p own → subscribers p !! t = Some ids →
  sub_ok (unlist t (foldl (λ p id, closeChannel id p) p ids)) own
  ∧ subscribers (unlist t (foldl (λ p id, closeChannel id p) p ids)) = delete t (subscribers p).
Proof.
  intros Hok Ht. rewrite close_all_unlist. apply close_all_ok.
  - apply (unlist_ok p own t); [done| |intros; by rewrite lookup_delete_ne|].
    + intros ids0 _ ids'. by rewrite lookup_delete_eq.
    + rewrite lookup_delete_eq. by intros [? ?].
  - intros id Hid t' l Hl Hin. simpl in Hl. apply lookup_delete_Some in Hl as [Hne Hl].
    destruct (ok_open p own Hok _ _ _ Ht Hid) as [Ho _].
    destruct (ok_open p own Hok _ _ _ Hl Hin) as [Ho' _]. congruence.
Qed.

Lemma Close_ok `{MapRangeOk} p own : sub_ok p own → sub_ok (Close p) own.
Proof.
  intros Hok. unfold Close.
  assert (∀ l q, NoDup l.*1 → sub_ok q own → (∀ x, x ∈ l → subscribers q !! x.1 = Some x.2) →
    sub_ok (foldl (λ q x, unlist x.1 (foldl (λ q id, closeChannel id q) q x.2)) q l) own) as Hgo.
  { induction l as [|[t ids] l IH]; intros q Hnd Hq Hl; [done|]. simpl.
    csimpl in Hnd. apply NoDup_cons in Hnd as [Ht Hnd].
    destruct (Close_tenant_ok q own t ids Hq) as [Hq' Hs]; [apply (Hl (t, ids)); by left|].
    apply IH; [done..|]. intros x Hx. rewrite Hs, lookup_delete_ne; [apply Hl; by right|].
    intros ->. apply Ht, list_elem_of_fmap. eauto. }
  apply (Hgo (map_range (subscribers p)) p); [apply NoDup_fst_map_range|done|].
  intros [t ids] Hx. by apply elem_of_map_range.
Qed.

Lemma Subscribe_ok p own t :
  sub_ok p own → sub_ok (Subscribe t p).2 (<[next_sub p := t]> own).
Proof.
  intros [H1 H2 H3 H4]. split; simpl.
  - intros t' ids id. destruct (decide (t' = t)) as [->|Hne].
    + rewrite lookup_insert_eq. intros [= <-] [Hin|Hin]%elem_of_app.
      * destruct (subscribers p !! t) as [ids0|] eqn:Ht; [|by apply elem_of_nil in Hin].
        destruct (H1 t ids0 id Ht Hin) as [Ho (s & Hs & Hc)].
        destruct (H3 id s Hs) as [Hlt _]. rewrite !lookup_insert_ne by lia. eauto.
      * apply list_elem_of_singleton in Hin as ->. rewrite !lookup_insert_eq. eauto.
    + rewrite lookup_insert_ne by done. intros Ht Hin.
      destruct (H1 t' ids id Ht Hin) as [Ho (s & Hs & Hc)].
      destruct (H3 id s Hs) as [Hlt _]. rewrite !lookup_insert_ne by lia. eauto.
  - intros t' ids. destruct (decide (t' = t)) as [->|Hne].
    + rewrite lookup_insert_eq. intros [= <-].
      destruct (subscribers p !! t) as [ids0|] eqn:Ht; [|simpl; apply NoDup_singleton].
      apply NoDup_app. split_and!; [eauto| |apply NoDup_singleton].
      intros i Hi ->%list_elem_of_singleton.
      destruct (H1 t ids0 _ Ht Hi) as [_ (s & Hs & _)]. destruct (H3 _ s Hs). lia.
    + rewrite lookup_insert_ne by done. apply H2.
  - intros id s. destruct (decide (id = next_sub p)) as [->|Hne].
    + rewrite !lookup_insert_eq. intros [= <-]. simpl. split_and!; [lia..|]. eauto.
    + rewrite !lookup_insert_ne by done. intros Hs.
      destruct (H3 id s Hs) as (? & ? & ?). split_and!; [lia|done..].
  - intros id. destruct (decide (id = next_sub p)) as [->|Hne]; [lia|].
    rewrite lookup_insert_ne by done. intros Ho. apply H4 in Ho. lia.
Qed.

Lemma receive_ok p own id : sub_ok p own → sub_ok (receive id p).2 own.
Proof.
  intros Hok. unfold receive. destruct (subs p !! id) as [[[|e es] c]|] eqn:Hs; [done| |done].
  destruct Hok as [H1 H2 H3 H4]. split; simpl; [|done| |done].
  - intros t ids i Ht Hi. destruct (H1 t ids i Ht Hi) as [Ho (s & Hs' & Hc)]. split; [done|].
    destruct (decide (i = id)) as [->|]; [|by rewrite lookup_insert_ne by done; eauto].
    rewrite lookup_insert_eq. eexists. split; [done|]. rewrite Hs in Hs'. by simplify_eq/=.
  - intros i s. destruct (decide (i = id)) as [->|]; [|rewrite lookup_insert_ne by done; apply H3].
    rewrite lookup_insert_eq. intros [= <-]. destruct (H3 id _ Hs) as (? & Hl & t & Ht & Hf).
    simpl in *. split_and!; [done|lia|]. exists t. split; [done|]. by apply Forall_cons in Hf as [_ Hf].
Qed.

Section theorems.
Context `{Random, MapRangeOk}.

Lemma step_ok st st' : step st st' → sub_ok (ps st) (owner st) → sub_ok (ps st') (owner st').
Proof.
  intros Hs Hok. destruct Hs as [st e e' ps' E|st l1 e l2 ps' Hp E|st t id ps' E|st t id Ho|st|
                                 st id e ps' E]; simpl.
  - unfold Publish_begin in E. destruct (marshal_event e); [|done].
    destruct (_ <? _); [done|]. injection E as _ <-. split; apply Hok.
  - destruct (deliver_ok (ps st) (owner st) e Hok) as (p' & E' & ?). congruence.
  - unfold Subscribe in E. injection E as <- <-. by apply Subscribe_ok.
  - by apply cancel_ok.
  - by apply Close_ok.
  - pose proof (receive_ok (ps st) (owner st) id Hok). by rewrite E in *.
Qed.

Lemma reachable_ok st : reachable st → sub_ok (ps st) (owner st).
Proof.
  unfold reachable. revert st. apply rtc_ind_r.
  - split; simpl; intros; rewrite ?lookup_empty in *; try done.
  - intros st st' _ Hs Hok. by eapply step_ok.
Qed.

(** C33: In every interleaving of publishes, subscriptions, cancels, closes
    and receives: a delivery never panics on a closed channel, no subscriber
    holds more than 64 events, and a subscriber only ever holds events of
    the tenant it subscribed to. *)
Theorem pubsub_safe st :
  reachable st →
  (∀ e, is_Some (Publish_deliver e (ps st)))
  ∧ ∀ id s, subs (ps st) !! id = Some s →
      length (buf s) ≤ channel_cap
      ∧ ∃ t, owner st !! id = Some t ∧ Forall (λ e, ev_TenantID e = t) (buf s).
Proof.
  intros Hok%reachable_ok. split.
  - intros e. destruct (deliver_ok _ _ e Hok) as (p' & -> & _). eauto.
  - intros id s Hs. by destruct (ok_subs _ _ Hok id s Hs).
Qed.
End theorems.

Definition ev_ex (t : string) : ConfigChangeEvent :=
  {| ev_EventID := ""; ev_Seq := 0; ev_TenantID := t; ev_Version := 1; ev_Changes := [];
     ev_ChangedBy := "bob"; ev_ChangedAt := 0 |}.

Lemma pubsub_safe_witness :
  is_Some (Publish_deliver (ev_ex "t") (Subscribe "t" NewMemoryPubSub).2).
Proof.
  apply (@pubsub_safe (λ _, []) map_to_list_range map_to_list_range_ok
    (mkSt (Subscribe "t" NewMemoryPubSub).2 [] {[0 := "t"]})).
  apply rtc_once. apply (@step_subscribe (λ _, []) map_to_list_range init "t" 0). reflexivity.
Defined.

(** Sequence numbers need not reach a subscriber in order: the number is
    taken before the lock that guards delivery, so of two overlapping
    publishes the later one can be delivered first. Here a subscriber's
    channel holds event 2 before event 1. *)
Theorem pubsub_seq_out_of_order :
  ∃ st s, @reachable (λ _, []) map_to_list_range st
    ∧ subs (ps st) !! 0 = Some s ∧ ev_Seq <$> buf s = [2; 1]%Z.
Proof.
  set (e n := {| ev_EventID := uuid_v4 []; ev_Seq := n; ev_TenantID := "t"; ev_Version := 1;
                 ev_Changes := []; ev_ChangedBy := "bob"; ev_ChangedAt := 0 |}).
  eexists (mkSt (mkPubSub {["t" := [0]]} {[0 := {| buf := [e 2%Z; e 1%Z]; closed := false |}]} 1 2 0)
             [] {[0 := "t"]}), _.
  split; [|split; [reflexivity|reflexivity]].
  eapply rtc_l; [apply (@step_subscribe (λ _, []) map_to_list_range init "t"); reflexivity|].
  eapply rtc_l; [apply (@step_begin (λ _, []) map_to_list_range _ (ev_ex "t") (e 1%Z)); vm_compute; reflexivity|].
  eapply rtc_l; [apply (@step_begin (λ _, []) map_to_list_range _ (ev_ex "t") (e 2%Z)); vm_compute; reflexivity|].
  eapply rtc_l; [apply (@step_deliver (λ _, []) map_to_list_range _ [] (e 2%Z) [e 1%Z]); vm_compute; reflexivity|].
  eapply rtc_l; [apply (@step_deliver (λ _, []) map_to_list_range _ [] (e 1%Z) []); vm_compute; reflexivity|].
  match goal with |- rtc _ ?a ?b => replace a with b; [apply rtc_refl|] end.
  vm_compute. reflexivity.
Qed.
End PubSubMachine.
