(* ===== verification/ConfigStore.v ===== *)
(** * The config store interface ([internal/config/store.go])

    The operations as a class over the state [S] of a store, the history of
    config versions every store keeps as an abstract value, and the laws a
    client may rely on. A law speaks about the operations that succeed; an
    operation may always fail, except in a [StoreReliable] store. *)
From S2P Require Import Prelude GoText Domain.

(** ** Parameters and rows *)
Record CreateConfigVersionParams := {
  ccv_TenantID : string; ccv_Version : Z; ccv_Description : option string; ccv_CreatedBy : string }.
Record ListConfigVersionsParams := { lcv_TenantID : string; lcv_Limit : Z; lcv_Offset : Z }.
Record SetConfigValueParams := {
  scv_ConfigVersionID : string; scv_FieldPath : string; scv_Value : option string;
  scv_Checksum : option string; scv_Description : option string }.

(** [GetConfigValueAtVersionRow] and [GetFullConfigAtVersionRow]. *)
Record Row := {
  row_FieldPath : string; row_Value : option string; row_Checksum : option string;
  row_Description : option string }.
Global Instance Row_eq_dec : EqDecision Row.
Proof. solve_decision. Defined.

Record ConfigValueSince := {
  cvs_FieldPath : string; cvs_Value : option string; cvs_Version : Z;
  cvs_CreatedBy : string; cvs_ChangedAt : Z }.

Record InsertAuditWriteLogParams := {
  au_TenantID : string; au_Actor : string; au_Action : string; au_ObjectKind : string;
  au_FieldPath : option string; au_OldValue : option string; au_NewValue : option string;
  au_ConfigVersion : option Z; au_Metadata : option string }.

Definition row_of_value (v : ConfigValue) : Row :=
  {| row_FieldPath := val_FieldPath v; row_Value := val_Value v;
     row_Checksum := val_Checksum v; row_Description := val_Description v |}.
Definition row_of_params (p : SetConfigValueParams) : Row :=
  {| row_FieldPath := scv_FieldPath p; row_Value := scv_Value p;
     row_Checksum := scv_Checksum p; row_Description := scv_Description p |}.

(** ** State and errors

    The handlers of the server thread a state and stop at the first error. *)
Definition ST (St A : Type) : Type := St → result error A * St.
Global Instance ST_ret St : MRet (ST St) := λ A a s, (Ok a, s).
Global Instance ST_bind St : MBind (ST St) := λ A B k m s,
  match m s with
  | (Ok a, s) => k a s
  | (Err e, s) => (Err e, s)
  end.
Definition fail {St A} (e : error) : ST St A := λ s, (Err e, s).
Definition of_result {St A} (r : result error A) : ST St A := λ s, (r, s).
(** The outcome as a value: what [if err != nil] looks at. *)
Definition try {St A} (m : ST St A) : ST St (result error A) := λ s,
  let '(r, s) := m s in (Ok r, s).
Definition map_err {St A} (f : error → error) (m : ST St A) : ST St A := λ s,
  match m s with
  | (Err e, s) => (Err (f e), s)
  | r => r
  end.
Fixpoint for_each {St A} (f : A → ST St unit) (l : list A) : ST St unit :=
  match l with
  | [] => mret tt
  | x :: l => f x ;; for_each f l
  end.
Fixpoint collect {St A B} (f : A → ST St B) (l : list A) : ST St (list B) :=
  match l with
  | [] => mret []
  | x :: l => y ← f x; ys ← collect f l; mret (y :: ys)
  end.

(** ** Operations

    Reads leave the state alone. [RunInTx fn] runs [fn] on a view of the store
    bound to the transaction; what [fn] returns stands for the variables the
    closure assigns, and [T] for whatever else it changes, which no rollback
    undoes. *)
Class Store (S : Type) := {
  RunInTx {A T : Type} (fn : ST (T * S) A) : ST (T * S) A;
  CreateConfigVersion (arg : CreateConfigVersionParams) (s : S) : result error ConfigVersion * S;
  GetConfigVersion (tenantID : string) (version : Z) (s : S) : result error ConfigVersion;
  GetLatestConfigVersion (tenantID : string) (s : S) : result error ConfigVersion;
  ListConfigVersions (arg : ListConfigVersionsParams) (s : S) : result error (list ConfigVersion);
  SetConfigValue (arg : SetConfigValueParams) (s : S) : result error unit * S;
  BulkSetConfigValues (args : list SetConfigValueParams) (s : S) : result error unit * S;
  GetConfigValues (configVersionID : string) (s : S) : result error (list ConfigValue);
  GetConfigValueAtVersion (tenantID fieldPath : string) (version : Z) (s : S) : result error Row;
  GetFullConfigAtVersion (tenantID : string) (version : Z) (s : S) : result error (list Row);
  GetConfigValuesSince (tenantID : string) (startVersion : Z) (s : S) :
    result error (list ConfigValueSince);
  GetTenantByID (id : string) (s : S) : result error Tenant;
  GetTenantByName (name : string) (s : S) : result error Tenant;
  GetSchemaFields (schemaVersionID : string) (s : S) : result error (list SchemaField);
  GetSchemaVersion (schemaID : string) (version : Z) (s : S) : result error SchemaVersion;
  GetFieldLocks (tenantID : string) (s : S) : result error (list TenantFieldLock);
  InsertAuditWriteLog (arg : InsertAuditWriteLogParams) (s : S) : result error unit * S;
  BulkInsertAuditWriteLog (args : list InsertAuditWriteLogParams) (s : S) : result error unit * S
}.

(** ** The abstract history

    Per tenant, the versions by number: who made the version and the rows it
    wrote. A snapshot at [v] takes each field from the greatest version up to
    [v] that wrote it. *)
Record VRec := { vr_meta : ConfigVersion; vr_rows : list Row }.
Abbreviation Hist := (gmap Z VRec).

Definition find_row (p : string) (rows : list Row) : option Row :=
  snd <$> list_find (λ r, row_FieldPath r = p) rows.

Fixpoint snap_go (h : Hist) (n : nat) (p : string) : option Row :=
  match n with
  | O => None
  | S m =>
      match h !! Z.of_nat n ≫= (λ vr, find_row p (vr_rows vr)) with
      | Some r => Some r
      | None => snap_go h m p
      end
  end.
Definition snap (h : Hist) (v : Z) (p : string) : option Row := snap_go h (Z.to_nat v) p.

(** The number of the latest version; 0 without versions. *)
Definition latest (h : Hist) (v : Z) : Prop :=
  (v = 0%Z ∧ h = ∅) ∨ (is_Some (h !! v) ∧ ∀ u, is_Some (h !! u) → (u ≤ v)%Z).

Record Abs := {
  a_hist : gmap string Hist;
  a_audit : list InsertAuditWriteLogParams }.

Definition hist (a : Abs) (t : string) : Hist := default ∅ (a_hist a !! t).
Definition set_hist (a : Abs) (t : string) (h : Hist) : Abs :=
  {| a_hist := <[t := h]> (a_hist a); a_audit := a_audit a |}.
Definition add_audit (a : Abs) (l : list InsertAuditWriteLogParams) : Abs :=
  {| a_hist := a_hist a; a_audit := a_audit a ++ l |}.

(** Two abstract states are the same when every tenant has the same history
    and the audit logs agree: a tenant without versions need not be listed. *)
Global Instance Abs_equiv : Equiv Abs := λ a b,
  (∀ t, hist a t = hist b t) ∧ a_audit a = a_audit b.
Global Instance Abs_equivalence : Equivalence (≡@{Abs}).
Proof.
  split.
  - done.
  - intros a b [H1 H2]. split; [|done]. intros t. by rewrite H1.
  - intros a b c [H1 H2] [H3 H4]. split; [|by etrans]. intros t. by rewrite H1.
Qed.
Global Instance hist_proper : Proper ((≡) ==> (=) ==> (=)) hist.
Proof. intros a b [H _] t ? <-. apply H. Qed.
Global Instance a_audit_proper : Proper ((≡) ==> (=)) a_audit.
Proof. by intros a b [_ H]. Qed.
Global Instance set_hist_proper : Proper ((≡) ==> (=) ==> (=) ==> (≡)) set_hist.
Proof.
  intros a b [H1 H2] t ? <- h ? <-. split; [|done]. intros t'. unfold set_hist, hist; simpl.
  destruct (decide (t = t')) as [->|]; [by rewrite !lookup_insert_eq|].
  rewrite !lookup_insert_ne by done. apply H1.
Qed.
Global Instance add_audit_proper : Proper ((≡) ==> (=) ==> (≡)) add_audit.
Proof. intros a b [H1 H2] l ? <-. split; [done|]. simpl. by rewrite H2. Qed.

(** A list of rows is a snapshot when it holds exactly its rows, sorted by
    path. *)
Definition is_snapshot (h : Hist) (v : Z) (rows : list Row) : Prop :=
  StronglySorted String.le (row_FieldPath <$> rows)
  ∧ NoDup (row_FieldPath <$> rows)
  ∧ ∀ r, r ∈ rows ↔ snap h v (row_FieldPath r) = Some r.

(** The versions of a history, newest first. *)
Definition newest_first (h : Hist) (l : list ConfigVersion) : Prop :=
  StronglySorted (λ a b, cv_Version b < cv_Version a)%Z l
  ∧ ∀ cv, cv ∈ l ↔ vr_meta <$> (h !! cv_Version cv) = Some cv.

(** A row of a version as the replay reads it. *)
Definition since_row (vr : VRec) (r : Row) : ConfigValueSince :=
  {| cvs_FieldPath := row_FieldPath r; cvs_Value := row_Value r;
     cvs_Version := cv_Version (vr_meta vr); cvs_CreatedBy := cv_CreatedBy (vr_meta vr);
     cvs_ChangedAt := cv_CreatedAt (vr_meta vr) |}.

(** The new version a [CreateConfigVersion] makes. *)
Definition version_of_params (arg : CreateConfigVersionParams) (cv : ConfigVersion) : Prop :=
  cv_TenantID cv = ccv_TenantID arg ∧ cv_Version cv = ccv_Version arg
  ∧ cv_Description cv = ccv_Description arg ∧ cv_CreatedBy cv = ccv_CreatedBy arg.

Definition append_rows (vr : VRec) (rows : list Row) : VRec :=
  {| vr_meta := vr_meta vr; vr_rows := vr_rows vr ++ rows |}.

(** ** Laws

    [st_inv k s]: the state is well formed and [k] more identifiers can be
    drawn that are not in use. [st_cat s]: everything but the history and the
    audit log (tenants, schemas, locks), which no operation of this interface
    changes. *)
Class StoreOk (S : Type) `{Store S} := {
  st_abs : S → Abs;
  st_inv : nat → S → Prop;
  st_Cat : Type;
  st_cat : S → st_Cat;

  st_inv_le k k' s : k' ≤ k → st_inv k s → st_inv k' s;
  st_hist_pos k s t v : st_inv k s → is_Some (hist (st_abs s) t !! v) → (0 < v)%Z;
  st_hist_meta k s t v vr : st_inv k s → hist (st_abs s) t !! v = Some vr →
    cv_Version (vr_meta vr) = v;

  st_cat_reads s s' : st_cat s = st_cat s' →
    (∀ id, GetTenantByID id s = GetTenantByID id s')
    ∧ (∀ n, GetTenantByName n s = GetTenantByName n s')
    ∧ (∀ id, GetSchemaFields id s = GetSchemaFields id s')
    ∧ (∀ id v, GetSchemaVersion id v s = GetSchemaVersion id v s')
    ∧ (∀ t, GetFieldLocks t s = GetFieldLocks t s');

  st_latest_Ok k s t cv : st_inv k s → GetLatestConfigVersion t s = Ok cv →
    latest (hist (st_abs s) t) (cv_Version cv)
    ∧ vr_meta <$> (hist (st_abs s) t !! cv_Version cv) = Some cv;
  st_latest_NotFound k s t e : st_inv k s → GetLatestConfigVersion t s = Err e →
    is_NotFound e = true → hist (st_abs s) t = ∅;

  st_version_Ok k s t v cv : st_inv k s → GetConfigVersion t v s = Ok cv →
    vr_meta <$> (hist (st_abs s) t !! v) = Some cv;
  st_version_NotFound k s t v e : st_inv k s → GetConfigVersion t v s = Err e →
    is_NotFound e = true → hist (st_abs s) t !! v = None;

  st_value_Ok k s t p v r : st_inv k s → GetConfigValueAtVersion t p v s = Ok r →
    snap (hist (st_abs s) t) v p = Some r;
  st_value_NotFound k s t p v e : st_inv k s → GetConfigValueAtVersion t p v s = Err e →
    is_NotFound e = true → snap (hist (st_abs s) t) v p = None;

  st_full_Ok k s t v rows : st_inv k s → GetFullConfigAtVersion t v s = Ok rows →
    is_snapshot (hist (st_abs s) t) v rows;

  st_list_Ok k s arg l : st_inv k s → (0 ≤ lcv_Offset arg)%Z →
    ListConfigVersions arg s = Ok l →
    ∃ versions, newest_first (hist (st_abs s) (lcv_TenantID arg)) versions
      ∧ let rest := drop (Z.to_nat (lcv_Offset arg)) versions in
        l = if (0 <? lcv_Limit arg)%Z then take (Z.to_nat (lcv_Limit arg)) rest else rest;
  st_since_Ok k s t start rows : st_inv k s → GetConfigValuesSince t start s = Ok rows →
    StronglySorted Z.le (cvs_Version <$> rows)
    ∧ ∀ x, x ∈ rows ↔ ∃ u vr r, hist (st_abs s) t !! u = Some vr ∧ (start ≤ u)%Z
                       ∧ r ∈ vr_rows vr ∧ x = since_row vr r;

  st_create_Ok k s arg cv s' : st_inv (Datatypes.S k) s →
    hist (st_abs s) (ccv_TenantID arg) !! ccv_Version arg = None → (0 < ccv_Version arg)%Z →
    CreateConfigVersion arg s = (Ok cv, s') →
    st_inv k s' ∧ st_cat s' = st_cat s ∧ version_of_params arg cv
    ∧ (∀ t v vr, hist (st_abs s) t !! v = Some vr → cv_ID (vr_meta vr) ≠ cv_ID cv)
    ∧ st_abs s' ≡ set_hist (st_abs s) (ccv_TenantID arg)
        (<[ccv_Version arg := {| vr_meta := cv; vr_rows := [] |}]>
           (hist (st_abs s) (ccv_TenantID arg)));

  st_bulk_set_Ok k s args s' t v vr : st_inv k s →
    hist (st_abs s) t !! v = Some vr →
    Forall (λ a, scv_ConfigVersionID a = cv_ID (vr_meta vr)) args →
    BulkSetConfigValues args s = (Ok tt, s') →
    st_inv k s' ∧ st_cat s' = st_cat s
    ∧ st_abs s' ≡ set_hist (st_abs s) t
        (<[v := append_rows vr (row_of_params <$> args)]> (hist (st_abs s) t));
  st_set_Ok k s arg s' t v vr : st_inv k s →
    hist (st_abs s) t !! v = Some vr → scv_ConfigVersionID arg = cv_ID (vr_meta vr) →
    SetConfigValue arg s = (Ok tt, s') →
    st_inv k s' ∧ st_cat s' = st_cat s
    ∧ st_abs s' ≡ set_hist (st_abs s) t
        (<[v := append_rows vr [row_of_params arg]]> (hist (st_abs s) t));

  st_audit_Ok k s arg s' : st_inv k s → InsertAuditWriteLog arg s = (Ok tt, s') →
    st_inv k s' ∧ st_cat s' = st_cat s ∧ st_abs s' ≡ add_audit (st_abs s) [arg];
  st_bulk_audit_Ok k s args s' : st_inv k s → BulkInsertAuditWriteLog args s = (Ok tt, s') →
    st_inv k s' ∧ st_cat s' = st_cat s ∧ st_abs s' ≡ add_audit (st_abs s) args;

  (** Commit keeps what [fn] did; an error, of [fn] or of the transaction
      itself, leaves the contents as they were, though not what [fn] changed
      outside the store. *)
  st_tx_Ok {A T} k s (fn : ST (T * S) A) a t t' s' : st_inv k s →
    RunInTx fn (t, s) = (Ok a, (t', s')) →
    ∃ s1 s2, st_inv k s1 ∧ st_abs s1 ≡ st_abs s ∧ st_cat s1 = st_cat s
      ∧ fn (t, s1) = (Ok a, (t', s2))
      ∧ (∀ k', st_inv k' s2 → st_inv k' s') ∧ st_abs s' ≡ st_abs s2 ∧ st_cat s' = st_cat s2;
  st_tx_Err {A T} k s (fn : ST (T * S) A) e t t' s' : st_inv k s →
    RunInTx fn (t, s) = (Err e, (t', s')) →
    st_abs s' ≡ st_abs s ∧ st_cat s' = st_cat s ∧ st_inv k s'
    ∧ (t' = t ∨ ∃ s1 s2 r, fn (t, s1) = (r, (t', s2)))
}.

(** A store whose operations fail only to report a missing entity. *)
Class StoreReliable (S : Type) `{StoreOk S} : Prop := {
  sr_latest k s t e : st_inv k s → GetLatestConfigVersion t s = Err e → is_NotFound e = true;
  sr_version k s t v e : st_inv k s → GetConfigVersion t v s = Err e → is_NotFound e = true;
  sr_value k s t p v e : st_inv k s → GetConfigValueAtVersion t p v s = Err e → is_NotFound e = true;
  sr_full k s t v : st_inv k s → is_Ok (GetFullConfigAtVersion t v s) = true;
  sr_list k s arg : st_inv k s → is_Ok (ListConfigVersions arg s) = true;
  sr_since k s t v : st_inv k s → is_Ok (GetConfigValuesSince t v s) = true;
  sr_create k s arg : st_inv k s → is_Ok (CreateConfigVersion arg s).1 = true;
  sr_set k s arg : st_inv k s → is_Ok (SetConfigValue arg s).1 = true;
  sr_bulk_set k s args : st_inv k s → is_Ok (BulkSetConfigValues args s).1 = true;
  sr_audit k s arg : st_inv k s → is_Ok (InsertAuditWriteLog arg s).1 = true;
  sr_bulk_audit k s args : st_inv k s → is_Ok (BulkInsertAuditWriteLog args s).1 = true;
  (** The transaction's outcome is that of its body, on the same contents. *)
  sr_tx {A T} k s (fn : ST (T * S) A) t : st_inv k s →
    ∃ s1, st_inv k s1 ∧ st_abs s1 ≡ st_abs s ∧ st_cat s1 = st_cat s
      ∧ (RunInTx fn (t, s)).1 = (fn (t, s1)).1
}.

(** ** Facts about histories *)
Lemma find_row_Some p rows r : find_row p rows = Some r → r ∈ rows ∧ row_FieldPath r = p.
Proof.
  unfold find_row. intros ([i x] & (Hx & Hp & _)%list_find_Some & ->)%fmap_Some. simpl.
  split; [by eapply list_elem_of_lookup_2|done].
Qed.
Lemma find_row_None p rows : find_row p rows = None ↔ p ∉ row_FieldPath <$> rows.
Proof.
  unfold find_row. rewrite fmap_None, list_find_None, Forall_forall, list_elem_of_fmap.
  naive_solver.
Qed.

Lemma snap_go_path h n p r : snap_go h n p = Some r → row_FieldPath r = p.
Proof.
  induction n as [|n IH]; [done|]. cbn [snap_go].
  destruct (_ ≫= _) as [r'|] eqn:E; [|apply IH]. intros [= ->].
  destruct (h !! Z.of_nat (S n)); [|done]. simpl in E. by apply find_row_Some in E as [_ ?].
Qed.
Lemma snap_path h v p r : snap h v p = Some r → row_FieldPath r = p.
Proof. apply snap_go_path. Qed.

(** Versions above [v] do not matter. *)
Lemma snap_insert_above h v u vr p : (v < u)%Z → snap (<[u := vr]> h) v p = snap h v p.
Proof.
  unfold snap. intros Hu. destruct (decide (0 ≤ v)%Z) as [Hv|Hv].
  2:{ replace (Z.to_nat v) with 0 by lia. done. }
  assert (∀ n, n ≤ Z.to_nat v → snap_go (<[u := vr]> h) n p = snap_go h n p) as Hgo; [|by apply Hgo].
  induction n as [|n IH]; intros Hn; [done|]. cbn [snap_go].
  rewrite lookup_insert_ne by lia. rewrite IH by lia. done.
Qed.

(** A new version right above [v] shadows the fields it writes. *)
Lemma snap_insert_next h v vr p : (0 ≤ v)%Z →
  snap (<[v + 1 := vr]> h)%Z (v + 1) p
  = match find_row p (vr_rows vr) with Some r => Some r | None => snap h v p end.
Proof.
  intros Hv. unfold snap at 1. replace (Z.to_nat (v + 1)) with (S (Z.to_nat v)) by lia.
  cbn [snap_go]. replace (Z.of_nat (S (Z.to_nat v))) with (v + 1)%Z by lia.
  rewrite lookup_insert_eq. simpl. destruct (find_row p (vr_rows vr)); [done|].
  apply (snap_insert_above h v (v + 1) vr p). lia.
Qed.

(** The snapshot of an empty history, and above the latest version. *)
Lemma snap_empty v p : snap ∅ v p = None.
Proof. unfold snap. induction (Z.to_nat v) as [|n IH]; [done|]. cbn [snap_go]. by rewrite lookup_empty. Qed.

Lemma latest_nonneg h v : (∀ u, is_Some (h !! u) → (0 < u)%Z) → latest h v → (0 ≤ v)%Z.
Proof. intros Hpos [[-> _]|[Hv _]]; [done|]. apply Hpos in Hv. lia. Qed.
Lemma latest_next_None h v : latest h v → h !! (v + 1)%Z = None.
Proof.
  intros [[-> ->]|[Hv Hmax]]; [apply lookup_empty|].
  apply eq_None_not_Some. intros Hx. apply Hmax in Hx. lia.
Qed.
Lemma latest_insert h v vr :
  latest h v → (0 ≤ v)%Z → latest (<[v + 1 := vr]> h)%Z (v + 1).
Proof.
  intros Hl Hv. right. split; [rewrite lookup_insert_eq; eauto|].
  intros u. destruct (decide (u = v + 1)%Z) as [->|]; [lia|].
  rewrite lookup_insert_ne by done. destruct Hl as [[-> ->]|[_ Hmax]].
  - rewrite lookup_empty. by intros [? ?].
  - intros Hu. apply Hmax in Hu. lia.
Qed.

Lemma latest_unique h u v :
  (∀ w, is_Some (h !! w) → (0 < w)%Z) → latest h u → latest h v → u = v.
Proof.
  intros Hpos [[-> ->]|[Hu Hmu]] [[-> Hh]|[Hv Hmv]]; [done|..].
  - rewrite lookup_empty in Hv. by destruct Hv.
  - rewrite Hh, lookup_empty in Hu. by destruct Hu.
  - apply Hmu in Hv. apply Hmv in Hu. lia.
Qed.

Lemma hist_set_eq a t h : hist (set_hist a t h) t = h.
Proof. unfold hist, set_hist. simpl. by rewrite lookup_insert_eq. Qed.
Lemma hist_set_ne a t t' h : t ≠ t' → hist (set_hist a t h) t' = hist a t'.
Proof. intros. unfold hist, set_hist. simpl. by rewrite lookup_insert_ne. Qed.
Lemma set_hist_twice a t h h' : set_hist (set_hist a t h) t h' = set_hist a t h'.
Proof. unfold set_hist. simpl. by rewrite insert_insert_eq. Qed.
Lemma hist_add_audit a l t : hist (add_audit a l) t = hist a t.
Proof. done. Qed.

(** Two snapshots of the same history are the same list. *)
Lemma is_snapshot_lookup h v rows p :
  is_snapshot h v rows → find_row p rows = snap h v p.
Proof.
  intros (_ & Hnd & Hr). destruct (find_row p rows) as [r|] eqn:E.
  - apply find_row_Some in E as [Hin <-]. symmetry. by apply Hr.
  - symmetry. apply eq_None_not_Some. intros [r Hs].
    pose proof (snap_path _ _ _ _ Hs) as <-. apply Hr in Hs.
    apply find_row_None in E. apply E. apply list_elem_of_fmap. eauto.
Qed.

(** There is one list of the versions of a history, newest first. *)
Lemma newest_first_unique h l1 l2 : newest_first h l1 → newest_first h l2 → l1 = l2.
Proof.
  assert (∀ l, StronglySorted (λ a b, cv_Version b < cv_Version a)%Z l → NoDup l) as Hnd.
  { intros l Hs. induction Hs as [|x l Hs IH Hx]; [constructor|]. constructor; [|done].
    intros Hin. rewrite Forall_forall in Hx. specialize (Hx x Hin). lia. }
  intros [Hs1 H1] [Hs2 H2].
  assert (AntiSymm (=) (λ a b, cv_Version b < cv_Version a)%Z) by (intros a b; lia).
  eapply StronglySorted_unique; [done|exact Hs1|exact Hs2|].
  apply NoDup_Permutation; [by apply Hnd..|]. intros cv. by rewrite H1, H2.
Qed.

(** The map a handler builds from the rows of a snapshot. *)
Lemma find_row_cons p r rows :
  find_row p (r :: rows) = if decide (row_FieldPath r = p) then Some r else find_row p rows.
Proof.
  unfold find_row. cbn [list_find]. case_decide; [done|].
  by destruct (list_find _ rows) as [[]|].
Qed.
Lemma rows_map_go {A} (f : Row → A) rows (m : gmap string A) p :
  NoDup (row_FieldPath <$> rows) →
  foldl (λ m row, <[row_FieldPath row := f row]> m) m rows !! p
  = match find_row p rows with Some r => Some (f r) | None => m !! p end.
Proof.
  revert m. induction rows as [|r rows IH]; intros m Hnd; [done|].
  rewrite fmap_cons, NoDup_cons in Hnd. destruct Hnd as [Hr Hnd].
  cbn [foldl]. rewrite IH by done. rewrite find_row_cons. case_decide as Hp.
  - subst p. apply find_row_None in Hr. by rewrite Hr, lookup_insert_eq.
  - destruct (find_row p rows); [done|]. by rewrite lookup_insert_ne.
Qed.
Lemma rows_map_lookup {A} (f : Row → A) h v rows p :
  is_snapshot h v rows →
  foldl (λ m row, <[row_FieldPath row := f row]> m) (∅ : gmap string A) rows !! p = f <$> snap h v p.
Proof.
  intros Hs. rewrite rows_map_go by apply Hs. rewrite (is_snapshot_lookup _ _ _ p Hs).
  by destruct (snap h v p).
Qed.

(** There is one snapshot list. *)
Lemma is_snapshot_unique h v l1 l2 : is_snapshot h v l1 → is_snapshot h v l2 → l1 = l2.
Proof.
  intros (Hs1 & Hn1 & H1) (Hs2 & Hn2 & H2).
  assert (l1 ≡ₚ l2) as Hp.
  { apply NoDup_Permutation; [by eapply NoDup_fmap_1|by eapply NoDup_fmap_1|].
    intros r. by rewrite H1, H2. }
  assert (row_FieldPath <$> l1 = row_FieldPath <$> l2) as Hk.
  { apply (StronglySorted_unique String.le); [done..|]. by apply fmap_Permutation. }
  apply list_eq. intros i. apply (f_equal (lookup i)) in Hk. rewrite !list_lookup_fmap in Hk.
  destruct (l1 !! i) as [r1|] eqn:E1, (l2 !! i) as [r2|] eqn:E2; simplify_eq/=; [|done].
  apply list_elem_of_lookup_2 in E1, E2. apply H1 in E1. apply H2 in E2. rewrite Hk in E1. congruence.
Qed.
