(* ===== verification/MemStore.v ===== *)
(** * The in-memory config store ([internal/config/store_memory.go])

    The maps of [MemoryStore] as finite maps, every loop over a map in the
    order the run happens to use. The mutex makes each operation one step; a
    transaction is two steps, [clone] and [mergeFrom], with the body between
    them. *)
From S2P Require Import Prelude GoText Domain ConfigStore.

(** Readings of the clock, in nanoseconds since the epoch: [clock n] is the
    [n]-th. *)
Class Clock := clock : nat → Z.

Module MemStore.

Record auditEntry := { params : InsertAuditWriteLogParams; createdAt : Z }.

Record MemoryStore := mkStore {
  configVersions : gmap string ConfigVersion;        (* id → version *)
  configValues : gmap string (list ConfigValue);     (* configVersionID → values *)
  tenants : gmap string Tenant;                      (* id → tenant *)
  schemaVersions : gmap string SchemaVersion;        (* compositeKey → version *)
  schemaFields : gmap string (list SchemaField);     (* schemaVersionID → fields *)
  fieldLocks : gmap string (list TenantFieldLock);   (* tenantID → locks *)
  auditLog : list auditEntry;
  draws : nat;                                       (* draws made from the random source *)
  ticks : nat                                        (* readings made of the clock *)
}.

Definition NewMemoryStore : MemoryStore := mkStore ∅ ∅ ∅ ∅ ∅ ∅ [] 0 0.

(** [make] plus the copying loop of [clone], for one map. *)
Definition clone (s : MemoryStore) : MemoryStore :=
  mkStore (configVersions s) (configValues s) (tenants s) (schemaVersions s)
    (schemaFields s) (fieldLocks s) (auditLog s) (draws s) (ticks s).

(** [s] takes over all the state of [src]. *)
Definition mergeFrom (s src : MemoryStore) : MemoryStore :=
  mkStore (configVersions src) (configValues src) (tenants src) (schemaVersions src)
    (schemaFields src) (fieldLocks src) (auditLog src) (draws src) (ticks src).

(** The identifiers an abandoned transaction drew are in no store, so the
    source may as well draw them again. *)
Definition RunInTx {A T} (fn : ST (T * MemoryStore) A) : ST (T * MemoryStore) A := λ '(t, s),
  let tmp := clone s in
  match fn (t, tmp) with
  | (Err e, (t, _)) => (Err e, (t, s))
  | (Ok a, (t, tmp)) => (Ok a, (t, mergeFrom s tmp))
  end.

Section ops.
Context `{Random, Clock, MapRange}.

Definition nextID (s : MemoryStore) : string := uuid_v4 (random (draws s)).

Definition CreateConfigVersion (arg : CreateConfigVersionParams) (s : MemoryStore) :
    result error ConfigVersion * MemoryStore :=
  let v := {| cv_ID := nextID s; cv_TenantID := ccv_TenantID arg; cv_Version := ccv_Version arg;
              cv_Description := ccv_Description arg; cv_CreatedBy := ccv_CreatedBy arg;
              cv_CreatedAt := clock (ticks s) |} in
  (Ok v, mkStore (<[cv_ID v := v]> (configVersions s)) (configValues s) (tenants s)
           (schemaVersions s) (schemaFields s) (fieldLocks s) (auditLog s)
           (S (draws s)) (S (ticks s))).

Definition GetConfigVersion (tenantID : string) (version : Z) (s : MemoryStore) :
    result error ConfigVersion :=
  match list_find (λ p, cv_TenantID p.2 = tenantID ∧ cv_Version p.2 = version)
          (map_range (configVersions s)) with
  | Some (_, (_, v)) => Ok v
  | None => Err ErrNotFound
  end.

Definition GetLatestConfigVersion (tenantID : string) (s : MemoryStore) :
    result error ConfigVersion :=
  match
    foldl (λ latest p,
        let v := p.2 in
        if bool_decide (cv_TenantID v = tenantID) &&
           match latest with None => true | Some l => (cv_Version l <? cv_Version v)%Z end
        then Some v else latest)
      None (map_range (configVersions s))
  with
  | None => Err ErrNotFound
  | Some latest => Ok latest
  end.

Definition ListConfigVersions (arg : ListConfigVersionsParams) (s : MemoryStore) :
    result error (list ConfigVersion) :=
  let result :=
    sort_on Z.ge cv_Version
      (filter (λ v, cv_TenantID v = lcv_TenantID arg) (map_range (configVersions s)).*2) in
  let result :=
    if (lcv_Offset arg <? Z.of_nat (length result))%Z
    then drop (Z.to_nat (lcv_Offset arg)) result else [] in
  let result :=
    if (0 <? lcv_Limit arg)%Z && (lcv_Limit arg <? Z.of_nat (length result))%Z
    then take (Z.to_nat (lcv_Limit arg)) result else result in
  Ok result.

Definition values_of (s : MemoryStore) (id : string) : list ConfigValue :=
  default [] (configValues s !! id).

Definition SetConfigValue (arg : SetConfigValueParams) (s : MemoryStore) :
    result error unit * MemoryStore :=
  let val := {| val_ConfigVersionID := scv_ConfigVersionID arg;
                val_FieldPath := scv_FieldPath arg; val_Value := scv_Value arg;
                val_Checksum := scv_Checksum arg; val_Description := scv_Description arg |} in
  (Ok tt, mkStore (configVersions s)
            (<[scv_ConfigVersionID arg := values_of s (scv_ConfigVersionID arg) ++ [val]]>
               (configValues s))
            (tenants s) (schemaVersions s) (schemaFields s) (fieldLocks s) (auditLog s) (draws s) (ticks s)).

Definition GetConfigValues (configVersionID : string) (s : MemoryStore) :
    result error (list ConfigValue) :=
  Ok (values_of s configVersionID).

(** The inner loop over the values of one version: a value replaces the best
    one when its version is greater. *)
Definition best_value (fieldPath : string) (cv : ConfigVersion)
    (best : Z * option ConfigValue) (val : ConfigValue) : Z * option ConfigValue :=
  if bool_decide (val_FieldPath val = fieldPath) && (best.1 <? cv_Version cv)%Z
  then (cv_Version cv, Some val) else best.

Definition GetConfigValueAtVersion (tenantID fieldPath : string) (version : Z) (s : MemoryStore) :
    result error Row :=
  let best :=
    foldl (λ best p,
        let cv := p.2 in
        if bool_decide (cv_TenantID cv = tenantID) && (cv_Version cv <=? version)%Z
        then foldl (best_value fieldPath cv) best (values_of s (cv_ID cv))
        else best)
      (0%Z, None) (map_range (configVersions s)) in
  match best.2 with
  | None => Err ErrNotFound
  | Some val => Ok (row_of_value val)
  end.

(** The inner loop of the snapshot: [latest] and [latestVer]. *)
Definition best_row (cv : ConfigVersion) (acc : gmap string Row * gmap string Z)
    (val : ConfigValue) : gmap string Row * gmap string Z :=
  let '(latest, latestVer) := acc in
  if (default 0 (latestVer !! val_FieldPath val) <? cv_Version cv)%Z
  then (<[val_FieldPath val := row_of_value val]> latest,
        <[val_FieldPath val := cv_Version cv]> latestVer)
  else acc.

Definition GetFullConfigAtVersion (tenantID : string) (version : Z) (s : MemoryStore) :
    result error (list Row) :=
  let '(latest, _) :=
    foldl (λ acc p,
        let cv := p.2 in
        if bool_decide (cv_TenantID cv = tenantID) && (cv_Version cv <=? version)%Z
        then foldl (best_row cv) acc (values_of s (cv_ID cv))
        else acc)
      (∅, ∅) (map_range (configVersions s)) in
  Ok (sort_on String.le row_FieldPath (map_range latest).*2).

(** The order of deltas: version, then path. *)
Definition delta_le (a b : Z * string) : Prop :=
  (a.1 < b.1)%Z ∨ (a.1 = b.1 ∧ String.le a.2 b.2).
Global Instance delta_le_dec : RelDecision delta_le.
Proof. intros a b. unfold delta_le. apply _. Defined.

Definition GetConfigValuesSince (tenantID : string) (startVersion : Z) (s : MemoryStore) :
    result error (list ConfigValueSince) :=
  let deltas :=
    mbind (M:=list) (λ p : string * ConfigVersion,
        let cv := p.2 in
        if bool_decide (cv_TenantID cv = tenantID) && (startVersion <=? cv_Version cv)%Z
        then (λ val, {| cvs_FieldPath := val_FieldPath val; cvs_Value := val_Value val;
                        cvs_Version := cv_Version cv; cvs_CreatedBy := cv_CreatedBy cv;
                        cvs_ChangedAt := cv_CreatedAt cv |}) <$> values_of s (cv_ID cv)
        else [])
      (map_range (configVersions s)) in
  Ok (sort_on delta_le (λ d, (cvs_Version d, cvs_FieldPath d)) deltas).

Definition GetTenantByID (id : string) (s : MemoryStore) : result error Tenant :=
  match tenants s !! id with
  | None => Err ErrNotFound
  | Some t => Ok t
  end.

Definition GetTenantByName (name : string) (s : MemoryStore) : result error Tenant :=
  match list_find (λ p, tn_Name p.2 = name) (map_range (tenants s)) with
  | Some (_, (_, t)) => Ok t
  | None => Err ErrNotFound
  end.

Definition SetTenant (t : Tenant) (s : MemoryStore) : MemoryStore :=
  mkStore (configVersions s) (configValues s) (<[tn_ID t := t]> (tenants s)) (schemaVersions s)
    (schemaFields s) (fieldLocks s) (auditLog s) (draws s) (ticks s).

Definition GetSchemaFields (schemaVersionID : string) (s : MemoryStore) :
    result error (list SchemaField) :=
  Ok (default [] (schemaFields s !! schemaVersionID)).

Definition SetSchemaFields (schemaVersionID : string) (fields : list SchemaField)
    (s : MemoryStore) : MemoryStore :=
  mkStore (configVersions s) (configValues s) (tenants s) (schemaVersions s)
    (<[schemaVersionID := fields]> (schemaFields s)) (fieldLocks s) (auditLog s) (draws s) (ticks s).

Definition schema_key (schemaID : string) (version : Z) : string :=
  schemaID +:+ ":" +:+ itoa version.

Definition GetSchemaVersion (schemaID : string) (version : Z) (s : MemoryStore) :
    result error SchemaVersion :=
  match schemaVersions s !! schema_key schemaID version with
  | None => Err ErrNotFound
  | Some sv => Ok sv
  end.

Definition SetSchemaVersion (sv : SchemaVersion) (s : MemoryStore) : MemoryStore :=
  mkStore (configVersions s) (configValues s) (tenants s)
    (<[schema_key (sv_SchemaID sv) (sv_Version sv) := sv]> (schemaVersions s))
    (schemaFields s) (fieldLocks s) (auditLog s) (draws s) (ticks s).

Definition GetFieldLocks (tenantID : string) (s : MemoryStore) :
    result error (list TenantFieldLock) :=
  Ok (default [] (fieldLocks s !! tenantID)).

Definition InsertAuditWriteLog (arg : InsertAuditWriteLogParams) (s : MemoryStore) :
    result error unit * MemoryStore :=
  (Ok tt, mkStore (configVersions s) (configValues s) (tenants s) (schemaVersions s)
            (schemaFields s) (fieldLocks s)
            (auditLog s ++ [{| params := arg; createdAt := clock (ticks s) |}])
            (draws s) (S (ticks s))).

Fixpoint BulkSetConfigValues (args : list SetConfigValueParams) (s : MemoryStore) :
    result error unit * MemoryStore :=
  match args with
  | [] => (Ok tt, s)
  | a :: args =>
      match SetConfigValue a s with
      | (Err e, s) => (Err e, s)
      | (Ok _, s) => BulkSetConfigValues args s
      end
  end.

Fixpoint BulkInsertAuditWriteLog (args : list InsertAuditWriteLogParams) (s : MemoryStore) :
    result error unit * MemoryStore :=
  match args with
  | [] => (Ok tt, s)
  | a :: args =>
      match InsertAuditWriteLog a s with
      | (Err e, s) => (Err e, s)
      | (Ok _, s) => BulkInsertAuditWriteLog args s
      end
  end.

Global Instance memory_store : Store MemoryStore := {|
  ConfigStore.RunInTx A T := RunInTx;
  ConfigStore.CreateConfigVersion := CreateConfigVersion;
  ConfigStore.GetConfigVersion := GetConfigVersion;
  ConfigStore.GetLatestConfigVersion := GetLatestConfigVersion;
  ConfigStore.ListConfigVersions := ListConfigVersions;
  ConfigStore.SetConfigValue := SetConfigValue;
  ConfigStore.BulkSetConfigValues := BulkSetConfigValues;
  ConfigStore.GetConfigValues := GetConfigValues;
  ConfigStore.GetConfigValueAtVersion := GetConfigValueAtVersion;
  ConfigStore.GetFullConfigAtVersion := GetFullConfigAtVersion;
  ConfigStore.GetConfigValuesSince := GetConfigValuesSince;
  ConfigStore.GetTenantByID := GetTenantByID;
  ConfigStore.GetTenantByName := GetTenantByName;
  ConfigStore.GetSchemaFields := GetSchemaFields;
  ConfigStore.GetSchemaVersion := GetSchemaVersion;
  ConfigStore.GetFieldLocks := GetFieldLocks;
  ConfigStore.InsertAuditWriteLog := InsertAuditWriteLog;
  ConfigStore.BulkInsertAuditWriteLog := BulkInsertAuditWriteLog
|}.
End ops.
End MemStore.
