(* ===== verification/MemStoreFacts.v ===== *)
(** * The in-memory store meets the store's laws

    The history a [MemoryStore] holds, the lemmas that relate each loop over
    its maps to that history, and the instances of [StoreOk] and
    [StoreReliable]. *)
From S2P Require Import Prelude GoText Domain ConfigStore MemStore.
Import MemStore.

(** ** The abstract state *)
Definition vrec_of (s : MemoryStore) (cv : ConfigVersion) : VRec :=
  {| vr_meta := cv; vr_rows := row_of_value <$> values_of s (cv_ID cv) |}.

Definition add_version (s : MemoryStore) (p : string * ConfigVersion) (m : gmap string Hist) :
    gmap string Hist :=
  let cv := p.2 in
  <[cv_TenantID cv := <[cv_Version cv := vrec_of s cv]> (default ∅ (m !! cv_TenantID cv))]> m.

Definition abs (s : MemoryStore) : Abs :=
  {| a_hist := foldr (add_version s) ∅ (map_to_list (configVersions s));
     a_audit := params <$> auditLog s |}.

Definition same_slot (c d : ConfigVersion) : Prop :=
  cv_TenantID c = cv_TenantID d ∧ cv_Version c = cv_Version d.

Record wf (s : MemoryStore) : Prop := {
  wf_id id cv : configVersions s !! id = Some cv → cv_ID cv = id;
  wf_pos id cv : configVersions s !! id = Some cv → (0 < cv_Version cv)%Z;
  wf_slot id1 id2 c d : configVersions s !! id1 = Some c → configVersions s !! id2 = Some d →
    same_slot c d → id1 = id2;
  wf_values id : is_Some (configValues s !! id) → is_Some (configVersions s !! id) }.

(** The next [k] draws are new identifiers. *)
Definition supply `{Random} (k : nat) (s : MemoryStore) : Prop :=
  (∀ i, draws s ≤ i < draws s + k → configVersions s !! uuid_v4 (random i) = None)
  ∧ (∀ i j, draws s ≤ i < draws s + k → draws s ≤ j < draws s + k →
       uuid_v4 (random i) = uuid_v4 (random j) → i = j).

Definition inv `{Random} (k : nat) (s : MemoryStore) : Prop := wf s ∧ supply k s.

Definition cat (s : MemoryStore) :=
  (tenants s, schemaVersions s, schemaFields s, fieldLocks s).

(** ** Reading the abstract state *)
Lemma hist_foldr s (l : list (string * ConfigVersion)) t v vr :
  (∀ p q, p ∈ l → q ∈ l → same_slot p.2 q.2 → p = q) →
  default ∅ (foldr (add_version s) ∅ l !! t) !! v = Some vr ↔
  ∃ p, p ∈ l ∧ cv_TenantID p.2 = t ∧ cv_Version p.2 = v ∧ vr = vrec_of s p.2.
Proof.
  induction l as [|p l IH]; intros Hu; simpl.
  { rewrite lookup_empty. simpl. rewrite lookup_empty. set_solver. }
  assert (∀ q r, q ∈ l → r ∈ l → same_slot q.2 r.2 → q = r) as Hu' by (intros; apply Hu; [by right..|done]).
  specialize (IH Hu'). unfold add_version at 1.
  destruct (decide (cv_TenantID p.2 = t)) as [<-|Ht].
  - rewrite lookup_insert_eq. simpl.
    destruct (decide (cv_Version p.2 = v)) as [<-|Hv].
    + rewrite lookup_insert_eq. split.
      * intros [= <-]. exists p. set_solver.
      * intros (q & Hq & ? & ? & ->). assert (q = p) as ->; [|done].
        apply Hu; [done|by left|by split].
    + rewrite lookup_insert_ne by done. rewrite IH. set_solver.
  - rewrite lookup_insert_ne by done. rewrite IH. set_solver.
Qed.

Lemma hist_abs s t v vr : wf s →
  hist (abs s) t !! v = Some vr ↔
  ∃ cv, configVersions s !! cv_ID cv = Some cv ∧ cv_TenantID cv = t ∧ cv_Version cv = v
    ∧ vr = vrec_of s cv.
Proof.
  intros Hwf. unfold hist, abs. cbn [a_hist]. rewrite hist_foldr.
  - split.
    + intros ([id cv] & Hin%elem_of_map_to_list & ? & ? & ?). exists cv.
      pose proof (wf_id s Hwf _ _ Hin) as ->. done.
    + intros (cv & Hl & ? & ? & ?). exists (cv_ID cv, cv).
      rewrite elem_of_map_to_list. done.
  - intros [i c] [j d] Hi%elem_of_map_to_list Hj%elem_of_map_to_list Hs.
    pose proof (wf_slot s Hwf _ _ _ _ Hi Hj Hs) as ->. congruence.
Qed.

Lemma hist_abs_None s t v : wf s →
  (∀ cv, configVersions s !! cv_ID cv = Some cv → cv_TenantID cv = t → cv_Version cv ≠ v) →
  hist (abs s) t !! v = None.
Proof.
  intros Hwf Hn. apply eq_None_not_Some. intros [vr Hvr].
  apply hist_abs in Hvr as (cv & ? & ? & ? & _); [|done]. by eapply Hn.
Qed.

(** Two well-formed stores with the same versions and rows. *)
Lemma hist_ext s t (h : Hist) : wf s →
  (∀ v vr, h !! v = Some vr ↔
    ∃ cv, configVersions s !! cv_ID cv = Some cv ∧ cv_TenantID cv = t ∧ cv_Version cv = v
      ∧ vr = vrec_of s cv) →
  hist (abs s) t = h.
Proof.
  intros Hwf Hh. apply map_eq. intros v. destruct (h !! v) as [vr|] eqn:E.
  - apply hist_abs; [done|]. by apply Hh.
  - apply eq_None_not_Some. intros [vr Hvr]. apply hist_abs in Hvr; [|done].
    apply Hh in Hvr. congruence.
Qed.

(** ** Snapshots from below *)
Lemma snap_intro h v p u vr r :
  (0 < u ≤ v)%Z → h !! u = Some vr → find_row p (vr_rows vr) = Some r →
  (∀ w vr', (u < w ≤ v)%Z → h !! w = Some vr' → find_row p (vr_rows vr') = None) →
  snap h v p = Some r.
Proof.
  intros Hu Hl Hf Hn. unfold snap.
  assert (∀ n, (u ≤ Z.of_nat n ≤ v)%Z → snap_go h n p = Some r) as Hgo; [|apply Hgo; lia].
  induction n as [|n IH]; intros Hle; [lia|]. cbn [snap_go].
  destruct (decide (u = Z.of_nat (S n))) as [->|].
  - rewrite Hl. simpl. by rewrite Hf.
  - destruct (h !! Z.of_nat (S n)) as [vr'|] eqn:E; simpl.
    + rewrite (Hn (Z.of_nat (S n)) vr') by (done || lia). apply IH. lia.
    + apply IH. lia.
Qed.

Lemma snap_None_intro h v p :
  (∀ w vr, (0 < w ≤ v)%Z → h !! w = Some vr → find_row p (vr_rows vr) = None) →
  snap h v p = None.
Proof.
  intros Hn. unfold snap.
  assert (∀ n, (Z.of_nat n ≤ v)%Z → snap_go h n p = None) as Hgo.
  { induction n as [|n IH]; intros Hle; [done|]. cbn [snap_go].
    destruct (h !! Z.of_nat (S n)) as [vr'|] eqn:E; simpl.
    - rewrite (Hn (Z.of_nat (S n)) vr') by (done || lia). apply IH. lia.
    - apply IH. lia. }
  destruct (decide (0 ≤ v)%Z); [apply Hgo; lia|]. by replace (Z.to_nat v) with 0 by lia.
Qed.

(** ** The loops *)
Definition find_val (p : string) (vals : list ConfigValue) : option ConfigValue :=
  snd <$> list_find (λ x, val_FieldPath x = p) vals.

Lemma find_val_cons p x vals :
  find_val p (x :: vals) = if decide (val_FieldPath x = p) then Some x else find_val p vals.
Proof.
  unfold find_val. cbn [list_find]. case_decide; [done|].
  destruct (list_find _ vals) as [[i y]|]; done.
Qed.
Lemma find_row_of_values p vals :
  find_row p (row_of_value <$> vals) = row_of_value <$> find_val p vals.
Proof.
  induction vals as [|x vals IH]; [done|].
  rewrite fmap_cons, find_val_cons. unfold find_row in *. cbn [list_find].
  simpl. destruct (decide (val_FieldPath x = p)); [done|]. rewrite <-IH.
  destruct (list_find _ _) as [[i y]|]; done.
Qed.

(** The values of one version: the first one for the path counts, and only
    when its version beats the best so far. *)
Lemma best_value_fold p cv best vals :
  foldl (best_value p cv) best vals =
  match find_val p vals with
  | Some x => if (best.1 <? cv_Version cv)%Z then (cv_Version cv, Some x) else best
  | None => best
  end.
Proof.
  revert best. induction vals as [|x vals IH]; intros best; [done|].
  rewrite find_val_cons. cbn [foldl]. rewrite IH. unfold best_value.
  destruct (decide (val_FieldPath x = p)) as [Hp|Hp].
  - rewrite bool_decide_eq_true_2 by done. cbn [andb].
    destruct (best.1 <? cv_Version cv)%Z eqn:E; simpl.
    + rewrite Z.ltb_irrefl. by destruct (find_val p vals).
    + destruct (find_val p vals); [|done]. by rewrite E.
  - rewrite bool_decide_eq_false_2 by done. done.
Qed.

Definition relevant (t : string) (v : Z) (cv : ConfigVersion) : bool :=
  bool_decide (cv_TenantID cv = t) && (cv_Version cv <=? v)%Z.

Definition best_fold (s : MemoryStore) (t p : string) (v : Z) (l : list (string * ConfigVersion)) :
    Z * option ConfigValue :=
  foldl (λ best q, if relevant t v q.2 then foldl (best_value p q.2) best (values_of s (cv_ID q.2))
                   else best) (0%Z, None) l.

(** What the whole loop finds. *)
Lemma best_fold_spec s t p v l :
  Forall (λ q, (0 < cv_Version q.2)%Z) l →
  match best_fold s t p v l with
  | (n, None) => n = 0%Z ∧ ∀ q, q ∈ l → relevant t v q.2 = true →
      find_val p (values_of s (cv_ID q.2)) = None
  | (n, Some x) => ∃ q, q ∈ l ∧ relevant t v q.2 = true ∧ cv_Version q.2 = n
      ∧ find_val p (values_of s (cv_ID q.2)) = Some x
      ∧ ∀ q', q' ∈ l → relevant t v q'.2 = true →
          is_Some (find_val p (values_of s (cv_ID q'.2))) → (cv_Version q'.2 ≤ n)%Z
  end.
Proof.
  induction l as [|q l IH] using rev_ind; intros Hpos.
  { split; [done|]. intros q Hq. set_solver. }
  apply Forall_app in Hpos as [Hpos Hq]. rewrite Forall_singleton in Hq. specialize (IH Hpos).
  unfold best_fold in *. rewrite foldl_app. cbn [foldl].
  set (best := foldl _ (0%Z, None) l) in *. clearbody best.
  destruct (relevant t v q.2) eqn:Hr.
  2:{ destruct best as [n [x|]].
      - destruct IH as (q' & Hq' & Hrel & Hv & Hf & Hmax). exists q'.
        split_and!; [set_solver|done..|]. intros q'' [Hin|Hin]%elem_of_app; [by apply Hmax|].
        apply list_elem_of_singleton in Hin as ->. congruence.
      - destruct IH as [-> Hn]. split; [done|]. intros q'' [Hin|Hin]%elem_of_app; [by apply Hn|].
        apply list_elem_of_singleton in Hin as ->. congruence. }
  rewrite best_value_fold. destruct (find_val p (values_of s (cv_ID q.2))) as [y|] eqn:Hy.
  - destruct (best.1 <? cv_Version q.2)%Z eqn:E; bool_prop.
    + exists q. split_and!; [set_solver|done..|].
      intros q'' [Hin|Hin]%elem_of_app Hrel Hsome; [|apply list_elem_of_singleton in Hin as ->; lia].
      destruct best as [n [x|]]; simpl in *.
      * destruct IH as (? & ? & ? & ? & ? & Hmax). specialize (Hmax q'' Hin Hrel Hsome). lia.
      * destruct IH as [-> Hn]. rewrite Hn in Hsome by done. by destruct Hsome.
    + destruct best as [n [x|]]; simpl in *.
      * destruct IH as (q' & Hq' & Hrel & Hv & Hf & Hmax). exists q'.
        split_and!; [set_solver|done..|].
        intros q'' [Hin|Hin]%elem_of_app Hrel'' Hs''; [by apply Hmax|].
        apply list_elem_of_singleton in Hin as ->. done.
      * destruct IH as [-> _]. lia.
  - destruct best as [n [x|]].
    + destruct IH as (q' & Hq' & Hrel & Hv & Hf & Hmax). exists q'.
      split_and!; [set_solver|done..|].
      intros q'' [Hin|Hin]%elem_of_app Hrel'' Hs''; [by apply Hmax|].
      apply list_elem_of_singleton in Hin as ->. rewrite Hy in Hs''. by destruct Hs''.
    + destruct IH as [-> Hn]. split; [done|]. intros q'' [Hin|Hin]%elem_of_app ?; [by apply Hn|].
      by apply list_elem_of_singleton in Hin as ->.
Qed.

Section reads.
Context `{Random, Clock, MapRangeOk}.

Lemma elem_of_versions s q : wf s →
  q ∈ map_range (configVersions s) ↔ q.1 = cv_ID q.2 ∧ configVersions s !! cv_ID q.2 = Some q.2.
Proof.
  intros Hwf. destruct q as [id cv]. simpl. rewrite elem_of_map_range. split.
  - intros Hl. pose proof (wf_id s Hwf _ _ Hl) as <-. done.
  - by intros [-> ?].
Qed.

Lemma versions_pos s : wf s → Forall (λ q, (0 < cv_Version q.2)%Z) (map_range (configVersions s)).
Proof.
  intros Hwf. apply Forall_forall. intros q [_ Hq]%elem_of_versions; [|done]. by eapply wf_pos.
Qed.

Lemma best_fold_snap s t p v : wf s →
  snap (hist (abs s) t) v p
  = row_of_value <$> (best_fold s t p v (map_range (configVersions s))).2.
Proof.
  intros Hwf. pose proof (best_fold_spec s t p v _ (versions_pos s Hwf)) as Hb.
  destruct (best_fold _ _ _ _ _) as [n [x|]]; simpl.
  - destruct Hb as (q & Hq & Hr & <- & Hf & Hmax). apply elem_of_versions in Hq as [_ Hq]; [|done].
    unfold relevant in Hr. bool_prop.
    apply (snap_intro _ _ _ (cv_Version q.2) (vrec_of s q.2)).
    + pose proof (wf_pos s Hwf _ _ Hq). lia.
    + apply hist_abs; [done|]. eauto.
    + simpl. by rewrite find_row_of_values, Hf.
    + intros w vr Hw (cv & Hcv & Ht & Hv & ->)%hist_abs; [|done]. simpl.
      rewrite find_row_of_values. destruct (find_val p (values_of s (cv_ID cv))) eqn:E; [|done].
      exfalso. assert (cv_Version cv ≤ cv_Version q.2)%Z; [|lia].
      apply (Hmax (cv_ID cv, cv)); simpl.
      * by apply elem_of_versions.
      * unfold relevant. apply andb_true_iff. split; [by apply bool_decide_eq_true|apply Z.leb_le; lia].
      * rewrite E. eauto.
  - destruct Hb as [_ Hn]. apply snap_None_intro.
    intros w vr Hw (cv & Hcv & Ht & Hv & ->)%hist_abs; [|done]. simpl.
    rewrite find_row_of_values.
    assert (find_val p (values_of s (cv_ID cv)) = None) as ->; [|done].
    apply (Hn (cv_ID cv, cv)); [by apply elem_of_versions|].
    unfold relevant. simpl. apply andb_true_iff.
    split; [by apply bool_decide_eq_true|apply Z.leb_le; lia].
Qed.

Lemma GetConfigValueAtVersion_spec s t p v : wf s →
  GetConfigValueAtVersion t p v s =
  match snap (hist (abs s) t) v p with Some r => Ok r | None => Err ErrNotFound end.
Proof.
  intros Hwf. rewrite best_fold_snap by done. unfold GetConfigValueAtVersion.
  fold (relevant t v). change (foldl _ _ _) with (best_fold s t p v (map_range (configVersions s))).
  by destruct (best_fold _ _ _ _ _).2.
Qed.

(** *** The full snapshot *)
Definition proj (p : string) (acc : gmap string Row * gmap string Z) : Z * option Row :=
  (default 0%Z (acc.2 !! p), acc.1 !! p).
Definition row_best (b : Z * option ConfigValue) : Z * option Row := (b.1, row_of_value <$> b.2).

Lemma best_row_proj p cv acc b vals :
  proj p acc = row_best b →
  proj p (foldl (best_row cv) acc vals) = row_best (foldl (best_value p cv) b vals).
Proof.
  revert acc b. induction vals as [|x vals IH]; intros [la lv] b Hp; [done|]. cbn [foldl].
  apply IH. unfold proj, row_best in *. simpl in *. injection Hp as Hv Hr.
  unfold best_value, best_row. destruct (decide (val_FieldPath x = p)) as [Hx|Hx].
  - subst p. rewrite bool_decide_eq_true_2 by done. rewrite Hv. cbn [andb].
    destruct (b.1 <? cv_Version cv)%Z; simpl; [|congruence].
    rewrite !lookup_insert_eq. done.
  - rewrite bool_decide_eq_false_2 by done. cbn [andb].
    destruct (_ <? _)%Z; simpl; [|congruence].
    rewrite !lookup_insert_ne by done. congruence.
Qed.

Definition full_fold (s : MemoryStore) (t : string) (v : Z) (l : list (string * ConfigVersion)) :=
  foldl (λ acc q, if relevant t v q.2 then foldl (best_row q.2) acc (values_of s (cv_ID q.2))
                  else acc) (∅, ∅) l.

Lemma full_fold_proj s t v p l :
  proj p (full_fold s t v l) = row_best (best_fold s t p v l).
Proof.
  induction l as [|q l IH] using rev_ind; [done|].
  unfold full_fold, best_fold in *. rewrite !foldl_app. cbn [foldl].
  destruct (relevant t v q.2); [by apply best_row_proj|done].
Qed.

Lemma full_latest s t v p : wf s →
  (full_fold s t v (map_range (configVersions s))).1 !! p = snap (hist (abs s) t) v p.
Proof.
  intros Hwf. rewrite best_fold_snap by done.
  pose proof (full_fold_proj s t v p (map_range (configVersions s))) as Hp.
  unfold proj, row_best in Hp. congruence.
Qed.

Lemma GetFullConfigAtVersion_spec s t v : wf s →
  ∃ rows, GetFullConfigAtVersion t v s = Ok rows ∧ is_snapshot (hist (abs s) t) v rows.
Proof.
  intros Hwf. unfold GetFullConfigAtVersion. fold (relevant t v).
  change (foldl _ _ _) with (full_fold s t v (map_range (configVersions s))).
  pose proof (λ p, full_latest s t v p Hwf) as Hl.
  destruct (full_fold _ _ _ _) as [la lv]. simpl in Hl. eexists. split; [done|].
  assert (row_FieldPath <$> (map_range la).*2 = (map_range la).*1) as Hk.
  { rewrite <-list_fmap_compose. apply list_fmap_ext. intros i [p r] Hi. simpl.
    apply list_elem_of_lookup_2, elem_of_map_range in Hi. rewrite Hl in Hi.
    by eapply snap_path. }
  split_and!.
  - pose proof (sort_on_sorted String.le row_FieldPath (map_range la).*2) as Hs.
    induction Hs as [|r l Hs IH Hf]; csimpl; constructor; [done|].
    by apply Forall_fmap.
  - rewrite sort_on_perm, Hk. apply NoDup_fst_map_range.
  - intros r. rewrite elem_of_sort_on, list_elem_of_fmap. split.
    + intros ([p r'] & -> & Hin%elem_of_map_range). simpl. rewrite Hl in Hin.
      by rewrite (snap_path _ _ _ _ Hin).
    + intros Hs. exists (row_FieldPath r, r). split; [done|].
      apply elem_of_map_range. by rewrite Hl.
Qed.

(** *** The latest version *)
Definition latest_fold (t : string) (l : list (string * ConfigVersion)) : option ConfigVersion :=
  foldl (λ latest p,
      if bool_decide (cv_TenantID p.2 = t) &&
         match latest with None => true | Some l => (cv_Version l <? cv_Version p.2)%Z end
      then Some p.2 else latest) None l.

Lemma latest_fold_spec t l :
  match latest_fold t l with
  | None => ∀ q, q ∈ l → cv_TenantID q.2 ≠ t
  | Some c => (∃ id, (id, c) ∈ l) ∧ cv_TenantID c = t
      ∧ ∀ q, q ∈ l → cv_TenantID q.2 = t → (cv_Version q.2 ≤ cv_Version c)%Z
  end.
Proof.
  induction l as [|q l IH] using rev_ind; [intros q Hq; set_solver|].
  unfold latest_fold in *. rewrite foldl_app. cbn [foldl].
  set (c := foldl _ None l) in *. clearbody c.
  case_bool_decide as Ht; cbn [andb].
  - destruct c as [c|].
    + destruct IH as ((id & Hin) & Hc & Hmax).
      destruct (cv_Version c <? cv_Version q.2)%Z eqn:E; bool_prop.
      * split_and!; [exists q.1; destruct q; set_solver|done|].
        intros q' [Hq'|Hq']%elem_of_app Ht'; [specialize (Hmax q' Hq' Ht'); lia|].
        by apply list_elem_of_singleton in Hq' as ->.
      * split_and!; [exists id; set_solver|done|].
        intros q' [Hq'|Hq']%elem_of_app Ht'; [by apply Hmax|].
        by apply list_elem_of_singleton in Hq' as ->.
    + split_and!; [exists q.1; destruct q; set_solver|done|].
      intros q' [Hq'|Hq']%elem_of_app Ht'; [by destruct (IH q' Hq')|].
      by apply list_elem_of_singleton in Hq' as ->.
  - destruct c as [c|].
    + destruct IH as ((id & Hin) & Hc & Hmax). split_and!; [exists id; set_solver|done|].
      intros q' [Hq'|Hq']%elem_of_app Ht'; [by apply Hmax|].
      by apply list_elem_of_singleton in Hq' as ->.
    + intros q' [Hq'|Hq']%elem_of_app; [by apply IH|].
      by apply list_elem_of_singleton in Hq' as ->.
Qed.

Lemma GetLatestConfigVersion_spec s t : wf s →
  match GetLatestConfigVersion t s with
  | Ok cv => latest (hist (abs s) t) (cv_Version cv)
      ∧ vr_meta <$> (hist (abs s) t !! cv_Version cv) = Some cv
  | Err e => e = ErrNotFound ∧ hist (abs s) t = ∅
  end.
Proof.
  intros Hwf. unfold GetLatestConfigVersion.
  change (foldl _ _ _) with (latest_fold t (map_range (configVersions s))).
  pose proof (latest_fold_spec t (map_range (configVersions s))) as Hl.
  destruct (latest_fold _ _) as [c|].
  - destruct Hl as ((id & Hin) & Hc & Hmax). apply elem_of_versions in Hin as [Hid Hin]; [|done].
    simpl in *.
    assert (hist (abs s) t !! cv_Version c = Some (vrec_of s c)) as Hh.
    { apply hist_abs; [done|]. eauto. }
    rewrite Hh. split; [|done]. right. split; [rewrite Hh; eauto|].
    intros u [vr (cv & Hcv & Ht & <- & _)%hist_abs]; [|done].
    apply (Hmax (cv_ID cv, cv)); [|done]. by apply elem_of_versions.
  - split; [done|]. apply map_empty. intros v. apply hist_abs_None; [done|].
    intros cv Hcv Ht. destruct (Hl (cv_ID cv, cv)); [|done]. by apply elem_of_versions.
Qed.

Lemma GetConfigVersion_spec s t v : wf s →
  GetConfigVersion t v s =
  match hist (abs s) t !! v with Some vr => Ok (vr_meta vr) | None => Err ErrNotFound end.
Proof.
  intros Hwf. unfold GetConfigVersion. destruct (list_find _ _) as [[i [id c]]|] eqn:E.
  - apply list_find_Some in E as (Hin & [Ht Hv] & _). simpl in *.
    apply list_elem_of_lookup_2, elem_of_versions in Hin as [_ Hin]; [|done]. simpl in *.
    assert (hist (abs s) t !! v = Some (vrec_of s c)) as ->; [|done].
    apply hist_abs; [done|]. eauto.
  - rewrite list_find_None, Forall_forall in E.
    rewrite (hist_abs_None s t v); [done..|]. intros cv Hcv Ht Hv.
    apply (E (cv_ID cv, cv)); [by apply elem_of_versions|done].
Qed.

Lemma elem_of_tenant_versions s t cv : wf s →
  cv ∈ filter (λ v, cv_TenantID v = t) (map_range (configVersions s)).*2 ↔
  vr_meta <$> (hist (abs s) t !! cv_Version cv) = Some cv.
Proof.
  intros Hwf. rewrite list_elem_of_filter, list_elem_of_fmap. split.
  - intros [Ht ([id c] & -> & Hin)]. apply elem_of_versions in Hin as [_ Hin]; [|done]. simpl in *.
    assert (hist (abs s) t !! cv_Version c = Some (vrec_of s c)) as ->; [|done].
    apply hist_abs; [done|]. eauto.
  - intros (vr & Hvr & ->)%fmap_Some.
    apply hist_abs in Hvr as (c & Hc & Ht & Hv & ->); [|done]. split; [done|].
    exists (cv_ID c, c). split; [done|]. by apply elem_of_versions.
Qed.

Lemma NoDup_tenant_versions s t : wf s →
  NoDup (cv_Version <$> filter (λ v, cv_TenantID v = t) (map_range (configVersions s)).*2).
Proof.
  intros Hwf. assert (NoDup (map_range (configVersions s)).*2) as Hnd.
  { apply NoDup_fmap_2_strong; [|apply NoDup_map_range].
    intros [i c] [j d] [Hi _]%elem_of_versions [Hj _]%elem_of_versions E; [|done..].
    simpl in *. congruence. }
  apply NoDup_fmap_2_strong; [|by apply NoDup_filter].
  intros c d [Ht Hc]%list_elem_of_filter [Ht' Hd]%list_elem_of_filter E.
  apply list_elem_of_fmap in Hc as ([i c'] & -> & Hc), Hd as ([j d'] & -> & Hd).
  apply elem_of_versions in Hc as [_ Hc], Hd as [_ Hd]; [|done..]. simpl in *.
  assert (cv_ID c' = cv_ID d') as Hid by (eapply wf_slot; [done..|split; congruence]).
  rewrite Hid in Hc. congruence.
Qed.

Lemma ListConfigVersions_spec s arg l : wf s → (0 ≤ lcv_Offset arg)%Z →
  ListConfigVersions arg s = Ok l →
  ∃ versions, newest_first (hist (abs s) (lcv_TenantID arg)) versions
    ∧ let rest := drop (Z.to_nat (lcv_Offset arg)) versions in
      l = if (0 <? lcv_Limit arg)%Z then take (Z.to_nat (lcv_Limit arg)) rest else rest.
Proof.
  intros Hwf Ho [= <-].
  set (vs := filter _ (map_range (configVersions s)).*2).
  exists (sort_on Z.ge cv_Version vs). split; [split|].
  - assert (Transitive Z.ge) by (intros ???; lia). assert (Total Z.ge) by (intros ??; lia).
    apply (StronglySorted_strict (key_le Z.ge cv_Version) _ cv_Version); [|rewrite sort_on_perm|].
    + unfold key_le. lia.
    + by apply NoDup_tenant_versions.
    + apply sort_on_sorted; apply _.
  - intros cv. rewrite elem_of_sort_on. by apply elem_of_tenant_versions.
  - cbv zeta. set (l := sort_on _ _ vs).
    assert ((if (lcv_Offset arg <? Z.of_nat (length l))%Z then drop (Z.to_nat (lcv_Offset arg)) l
             else []) = drop (Z.to_nat (lcv_Offset arg)) l) as ->.
    { destruct (_ <? _)%Z eqn:Hc; [done|]. bool_prop. symmetry. apply drop_ge. lia. }
    destruct (0 <? lcv_Limit arg)%Z eqn:Hp; [|done]. cbn [andb].
    destruct (lcv_Limit arg <? _)%Z eqn:Hc; [done|]. bool_prop. symmetry. apply take_ge. lia.
Qed.

Global Instance delta_le_trans : Transitive delta_le.
Proof.
  intros [a p] [b q] [c r]. unfold delta_le. simpl. intros [?|[-> ?]] [?|[-> ?]]; [left; lia|by left..|].
  right. split; [done|]. by etrans.
Qed.
Global Instance delta_le_total : Total delta_le.
Proof.
  intros [a p] [b q]. unfold delta_le. simpl. destruct (Z.lt_trichotomy a b) as [?|[->|?]]; [by left; left| |by right; left].
  destruct (total String.le p q); [left|right]; by right.
Qed.

Lemma GetConfigValuesSince_spec s t start rows : wf s → GetConfigValuesSince t start s = Ok rows →
  StronglySorted Z.le (cvs_Version <$> rows)
  ∧ ∀ x, x ∈ rows ↔ ∃ u vr r, hist (abs s) t !! u = Some vr ∧ (start ≤ u)%Z
                     ∧ r ∈ vr_rows vr ∧ x = since_row vr r.
Proof.
  intros Hwf [= <-]. split.
  - eapply StronglySorted_fmap; [|apply sort_on_sorted; apply _].
    intros x y [?|[? _]]; simpl in *; lia.
  - intros x. rewrite elem_of_sort_on, list_elem_of_bind. split.
    + intros ([id c] & Hx & Hin). apply elem_of_versions in Hin as [_ Hin]; [|done]. simpl in *.
      case_bool_decide as Ht; [|set_solver]. destruct (start <=? _)%Z eqn:Hs; [|set_solver]. bool_prop.
      apply list_elem_of_fmap in Hx as (val & -> & Hval).
      exists (cv_Version c), (vrec_of s c), (row_of_value val). split_and!; [|done| |done].
      * apply hist_abs; [done|]. eauto.
      * simpl. apply list_elem_of_fmap. eauto.
    + intros (u & vr & r & Hvr & Hu & Hr & ->).
      apply hist_abs in Hvr as (c & Hc & Ht & Hv & ->); [|done]. exists (cv_ID c, c).
      rewrite elem_of_versions by done. split; [|done]. simpl.
      rewrite bool_decide_eq_true_2 by done. rewrite (proj2 (Z.leb_le _ _)) by lia. simpl.
      simpl in Hr. apply list_elem_of_fmap in Hr as (val & -> & Hval). apply list_elem_of_fmap. eauto.
Qed.
End reads.

Section writes.
Context `{Random, Clock, MapRangeOk}.

Lemma supply_le k k' s : k' ≤ k → supply k s → supply k' s.
Proof. intros Hle [H3 H4]. split; intros; [apply H3|apply H4]; lia || done. Qed.

Lemma CreateConfigVersion_spec k s arg cv s' :
  inv (S k) s →
  hist (abs s) (ccv_TenantID arg) !! ccv_Version arg = None → (0 < ccv_Version arg)%Z →
  CreateConfigVersion arg s = (Ok cv, s') →
  inv k s' ∧ cat s' = cat s ∧ version_of_params arg cv
  ∧ (∀ t v vr, hist (abs s) t !! v = Some vr → cv_ID (vr_meta vr) ≠ cv_ID cv)
  ∧ abs s' ≡ set_hist (abs s) (ccv_TenantID arg)
      (<[ccv_Version arg := {| vr_meta := cv; vr_rows := [] |}]>
         (hist (abs s) (ccv_TenantID arg))).
Proof.
  intros [Hwf [Hfresh Hdist]] Hslot Hpos [= Hcv <-].
  assert (cv_ID cv = nextID s ∧ version_of_params arg cv) as [Hid Hpar] by by subst.
  rewrite Hcv, <-Hid. clear Hcv.
  assert (configVersions s !! cv_ID cv = None) as Hnew.
  { rewrite Hid. apply Hfresh. lia. }
  set (s' := mkStore _ _ _ _ _ _ _ _ _).
  assert (values_of s' (cv_ID cv) = []) as Hempty.
  { unfold values_of. simpl. destruct (configValues s !! cv_ID cv) eqn:E; [|done].
    destruct (wf_values s Hwf (cv_ID cv)) as [? ?]; [eauto|congruence]. }
  assert (∀ c, configVersions s !! cv_ID c = Some c → ¬ same_slot c cv) as Hns.
  { intros c Hc [Ht Hv]. destruct Hpar as (Hpt & Hpv & _).
    assert (hist (abs s) (ccv_TenantID arg) !! ccv_Version arg = Some (vrec_of s c)) by
      (apply hist_abs; [done|]; exists c; rewrite <-Hpt, <-Hpv; done). congruence. }
  assert (∀ id c, configVersions s' !! id = Some c ↔
            (id = cv_ID cv ∧ c = cv) ∨ (id ≠ cv_ID cv ∧ configVersions s !! id = Some c)) as Hl.
  { intros id c. simpl. destruct (decide (id = cv_ID cv)) as [->|].
    - rewrite lookup_insert_eq. naive_solver.
    - rewrite lookup_insert_ne by done. naive_solver. }
  assert (wf s') as Hwf'.
  { split.
    - intros id c [[-> ->]|[_ Hc]]%Hl; [done|]. by eapply wf_id.
    - intros id c [[-> ->]|[_ Hc]]%Hl; [|by eapply wf_pos]. destruct Hpar as (_ & -> & _). done.
    - intros i j c d [[-> ->]|[Hi Hc]]%Hl [[-> ->]|[Hj Hd]]%Hl Hs; [done|..].
      + destruct (Hns d); [by rewrite (wf_id s Hwf _ _ Hd)|]. destruct Hs. by split.
      + destruct (Hns c); [by rewrite (wf_id s Hwf _ _ Hc)|done].
      + by eapply wf_slot.
    - intros id Hv. apply (wf_values s Hwf) in Hv as [c Hc].
      destruct (decide (id = cv_ID cv)) as [->|]; [congruence|]. exists c. apply Hl. by right. }
  split_and!; [split|done|done| |split].
  - done.
  - split; simpl.
    + intros i Hi. rewrite lookup_insert_ne; [apply Hfresh; lia|]. rewrite Hid. unfold nextID.
      intros E. assert (i = draws s); [|lia]. symmetry. apply Hdist; [lia..|done].
    + intros i j Hi Hj. apply Hdist; lia.
  - intros t v vr (c & Hc & _ & _ & ->)%hist_abs E; [|done]. simpl in E. congruence.
  - intros t. destruct (decide (t = ccv_TenantID arg)) as [->|Ht].
    + rewrite hist_set_eq. apply hist_ext; [done|]. intros v vr.
      assert (∀ c, cv_ID c ≠ cv_ID cv → vrec_of s' c = vrec_of s c) as Hvr by done.
      destruct Hpar as (Hpt & Hpv & _).
      destruct (decide (v = ccv_Version arg)) as [->|Hv].
      * rewrite lookup_insert_eq. split.
        -- intros [= <-]. exists cv. split_and!; [apply Hl; by left|done..|].
           unfold vrec_of. by rewrite Hempty.
        -- intros (c & [[_ ->]|[Hne Hc]]%Hl & Ht & Hv & ->).
           ++ unfold vrec_of. by rewrite Hempty.
           ++ destruct (Hns c Hc). split; congruence.
      * rewrite lookup_insert_ne by done. rewrite hist_abs by done. split.
        -- intros (c & Hc & ? & ? & ->). exists c. split_and!; [|done..].
           apply Hl. right. split; [congruence|done].
        -- intros (c & [[_ ->]|[Hne Hc]]%Hl & Ht & ? & ->); [congruence|]. eauto.
    + rewrite hist_set_ne by done. destruct Hpar as (Hpt & Hpv & _).
      apply hist_ext; [done|]. intros v vr. rewrite hist_abs by done. split.
      * intros (c & Hc & ? & ? & ->). exists c. split_and!; [|done..].
        apply Hl. right. split; [congruence|done].
      * intros (c & [[_ ->]|[Hne Hc]]%Hl & ? & ? & ->); [congruence|]. eauto.
  - done.
Qed.

(** Writing values touches the rows of their version only. *)
Definition put_values (id : string) (vals : list ConfigValue) (s : MemoryStore) : MemoryStore :=
  mkStore (configVersions s) (<[id := values_of s id ++ vals]> (configValues s))
    (tenants s) (schemaVersions s) (schemaFields s) (fieldLocks s) (auditLog s)
    (draws s) (ticks s).
Definition value_of_params (a : SetConfigValueParams) : ConfigValue :=
  {| val_ConfigVersionID := scv_ConfigVersionID a; val_FieldPath := scv_FieldPath a;
     val_Value := scv_Value a; val_Checksum := scv_Checksum a; val_Description := scv_Description a |}.

Lemma put_values_spec k s t v vr vals :
  inv k s → hist (abs s) t !! v = Some vr →
  inv k (put_values (cv_ID (vr_meta vr)) vals s)
  ∧ cat (put_values (cv_ID (vr_meta vr)) vals s) = cat s
  ∧ abs (put_values (cv_ID (vr_meta vr)) vals s) ≡ set_hist (abs s) t
      (<[v := append_rows vr (row_of_value <$> vals)]> (hist (abs s) t)).
Proof.
  intros [Hwf Hsup] Hh. set (s' := put_values _ _ _).
  apply hist_abs in Hh as (c & Hc & Ht & Hv & ->); [|done]. simpl in s'.
  assert (wf s') as Hwf'.
  { split; try apply Hwf. intros id. simpl.
    destruct (decide (id = cv_ID c)) as [->|]; [eauto|].
    rewrite lookup_insert_ne by done. apply Hwf. }
  assert (vrec_of s' c = append_rows (vrec_of s c) (row_of_value <$> vals)) as Hvc.
  { unfold vrec_of, append_rows, values_of. simpl. rewrite lookup_insert_eq. simpl.
    by rewrite fmap_app. }
  assert (∀ d, cv_ID d ≠ cv_ID c → vrec_of s' d = vrec_of s d) as Hvd.
  { intros d Hd. unfold vrec_of, values_of. simpl. by rewrite lookup_insert_ne. }
  split_and!; [split|done|split]; [done..| |done].
  intros t'. destruct (decide (t' = t)) as [->|Hne].
  - rewrite hist_set_eq. apply hist_ext; [done|]. intros u vr.
    destruct (decide (u = v)) as [->|Hu].
    + rewrite lookup_insert_eq. split.
      * intros [= <-]. exists c. done.
      * intros (d & Hd & ? & ? & ->).
        assert (cv_ID d = cv_ID c) as E by (eapply wf_slot; [done..|]; split; congruence).
        rewrite E in Hd. assert (d = c) as -> by (simpl in Hd; congruence). by rewrite Hvc.
    + rewrite lookup_insert_ne by done. rewrite hist_abs by done.
      split; intros (d & Hd & ? & ? & ->); exists d; split_and!; try done;
        (rewrite Hvd; [done|]; intros E; simpl in Hd; rewrite E, Hc in Hd; congruence).
  - rewrite hist_set_ne by done. apply hist_ext; [done|]. intros u vr. rewrite hist_abs by done.
    split; intros (d & Hd & ? & ? & ->); exists d; split_and!; try done;
      (rewrite Hvd; [done|]; intros E; simpl in Hd; rewrite E, Hc in Hd; congruence).
Qed.

Lemma BulkSetConfigValues_eq args id s : Forall (λ a, scv_ConfigVersionID a = id) args →
  args ≠ [] →
  BulkSetConfigValues args s = (Ok tt, put_values id (value_of_params <$> args) s).
Proof.
  intros Hf. revert s. induction Hf as [|a args Ha Hf IH]; intros s Hne; [done|].
  cbn [BulkSetConfigValues SetConfigValue]. destruct args as [|a' args].
  - by rewrite <-Ha.
  - rewrite IH by done. unfold put_values, values_of. simpl.
    rewrite <-Ha, lookup_insert_eq, insert_insert_eq. simpl.
    by rewrite <-app_assoc.
Qed.

Lemma row_of_value_params (args : list SetConfigValueParams) :
  row_of_value <$> (value_of_params <$> args) = row_of_params <$> args.
Proof. by rewrite <-list_fmap_compose. Qed.

Lemma append_rows_nil vr : append_rows vr [] = vr.
Proof. destruct vr. unfold append_rows. simpl. by rewrite app_nil_r. Qed.

Lemma set_hist_same a t v vr : hist a t !! v = Some vr →
  a ≡ set_hist a t (<[v := vr]> (hist a t)).
Proof.
  intros Hh. split; [|done]. intros t'. destruct (decide (t' = t)) as [->|].
  - by rewrite hist_set_eq, insert_id.
  - by rewrite hist_set_ne.
Qed.

Lemma BulkInsert_eq args s :
  ∃ es, BulkInsertAuditWriteLog args s =
    (Ok tt, mkStore (configVersions s) (configValues s) (tenants s) (schemaVersions s)
              (schemaFields s) (fieldLocks s) (auditLog s ++ es)
              (draws s) (length args + ticks s))
    ∧ params <$> es = args.
Proof.
  revert s. induction args as [|a args IH]; intros s.
  - exists []. simpl. rewrite app_nil_r. by destruct s.
  - cbn [BulkInsertAuditWriteLog InsertAuditWriteLog].
    destruct (IH (mkStore (configVersions s) (configValues s) (tenants s) (schemaVersions s)
              (schemaFields s) (fieldLocks s)
              (auditLog s ++ [{| params := a; createdAt := clock (ticks s) |}]) (draws s) (S (ticks s))))
      as (es & He & Hp).
    rewrite He. simpl. exists ({| params := a; createdAt := clock (ticks s) |} :: es).
    rewrite <-app_assoc. simpl. rewrite Nat.add_succ_r. by rewrite <-Hp.
Qed.
End writes.

(** ** The instances *)
Section instances.
Context `{Random, Clock, MapRangeOk}.

Global Instance memory_store_ok : StoreOk MemoryStore.
Proof.
  refine {| st_abs := abs; st_inv := inv; st_cat := cat |}.
  - intros k k' s Hle [Hwf Hs]. split; [done|]. by eapply supply_le.
  - intros k s t v [Hwf _] [vr (c & Hc & _ & <- & _)%hist_abs]; [|done]. by eapply wf_pos.
  - intros k s t v vr [Hwf _] (c & _ & _ & <- & ->)%hist_abs; done.
  - intros s s' [= Ht Hsv Hsf Hl]. simpl.
    unfold GetTenantByID, GetTenantByName, GetSchemaFields, GetSchemaVersion, GetFieldLocks.
    rewrite Ht, Hsv, Hsf, Hl. done.
  - intros k s t cv [Hwf _] Hg. pose proof (GetLatestConfigVersion_spec s t Hwf) as Hl.
    simpl in Hg. by rewrite Hg in Hl.
  - intros k s t e [Hwf _] Hg _. pose proof (GetLatestConfigVersion_spec s t Hwf) as Hl.
    simpl in Hg. rewrite Hg in Hl. apply Hl.
  - intros k s t v cv [Hwf _] Hg. simpl in Hg. rewrite GetConfigVersion_spec in Hg by done.
    destruct (_ !! v); simplify_eq/=. done.
  - intros k s t v e [Hwf _] Hg _. simpl in Hg. rewrite GetConfigVersion_spec in Hg by done.
    by destruct (_ !! v).
  - intros k s t p v r [Hwf _] Hg. simpl in Hg.
    rewrite GetConfigValueAtVersion_spec in Hg by done. by destruct (snap _ _ _); simplify_eq/=.
  - intros k s t p v e [Hwf _] Hg _. simpl in Hg.
    rewrite GetConfigValueAtVersion_spec in Hg by done. by destruct (snap _ _ _).
  - intros k s t v rows [Hwf _] Hg. simpl in Hg.
    destruct (GetFullConfigAtVersion_spec s t v Hwf) as (rows' & E & Hs). congruence.
  - intros k s arg l [Hwf _] Ho Hl. by apply ListConfigVersions_spec.
  - intros k s t start rows [Hwf _] Hg. by apply GetConfigValuesSince_spec.
  - intros k s arg cv s' Hi Hn Hp Hc. by eapply CreateConfigVersion_spec.
  - intros k s args s' t v vr Hi Hh Hf Hb. simpl in Hb.
    destruct (decide (args = [])) as [->|Hne].
    + simpl in Hb. simplify_eq. split_and!; [done..|]. csimpl. rewrite append_rows_nil.
      by apply set_hist_same.
    + rewrite (BulkSetConfigValues_eq args _ s Hf Hne) in Hb. simplify_eq.
      rewrite <-row_of_value_params. by apply put_values_spec.
  - intros k s arg s' t v vr Hi Hh Hid Hb. simpl in Hb.
    pose proof (put_values_spec k s t v vr [value_of_params arg] Hi Hh) as Hp.
    unfold put_values in Hp. rewrite <-Hid in Hp. unfold SetConfigValue in Hb.
    injection Hb as <-. apply Hp.
  - intros k s arg s' [Hwf Hs] [= <-]. split_and!; [split; [by destruct Hwf|done]|done|].
    split; [done|]. simpl. by rewrite fmap_app.
  - intros k s args s' [Hwf Hs] Hb. destruct (BulkInsert_eq args s) as (es & He & Hp).
    simpl in Hb. rewrite He in Hb. injection Hb as <-.
    split_and!; [split; [by destruct Hwf|done]|done|].
    split; [done|]. simpl. by rewrite fmap_app, Hp.
  - intros A T k s fn a t t' s' Hi Hr. simpl in Hr. unfold RunInTx in Hr.
    destruct (fn (t, clone s)) as [[a'|e] [t2 s2]] eqn:Hfn; simplify_eq.
    exists (clone s), s2. destruct s, s2. done.
  - intros A T k s fn e t t' s' Hi Hr. simpl in Hr. unfold RunInTx in Hr.
    destruct (fn (t, clone s)) as [[a'|e'] [t2 s2]] eqn:Hfn; simplify_eq.
    split_and!; [done..|]. right. eauto.
Defined.

Global Instance memory_store_reliable : StoreReliable MemoryStore.
Proof.
  split.
  - intros k s t e [Hwf _] Hg. pose proof (GetLatestConfigVersion_spec s t Hwf) as Hl.
    simpl in Hg. rewrite Hg in Hl. by destruct Hl as [-> _].
  - intros k s t v e [Hwf _] Hg. simpl in Hg. rewrite GetConfigVersion_spec in Hg by done.
    destruct (_ !! v); by simplify_eq/=.
  - intros k s t p v e [Hwf _] Hg. simpl in Hg.
    rewrite GetConfigValueAtVersion_spec in Hg by done. by destruct (snap _ _ _); simplify_eq/=.
  - intros k s t v [Hwf _]. simpl.
    by destruct (GetFullConfigAtVersion_spec s t v Hwf) as (rows & -> & _).
  - done.
  - done.
  - done.
  - done.
  - intros k s args _. simpl. revert s. induction args as [|a args IH]; intros s; [done|]. apply IH.
  - done.
  - intros k s args _. simpl. by destruct (BulkInsert_eq args s) as (es & -> & _).
  - intros A T k s fn t Hi. exists (clone s). destruct s. split_and!; [done..|]. simpl.
    unfold RunInTx. simpl. by destruct (fn _) as [[] []].
Qed.

(** An empty store is well formed for as many draws as are distinct. *)
Lemma NewMemoryStore_inv k :
  (∀ i j, i < k → j < k → uuid_v4 (random i) = uuid_v4 (random j) → i = j) →
  inv k NewMemoryStore.
Proof.
  intros Hd. split.
  - split; try done. intros id [? ?]. done.
  - split; [done|]. simpl. intros i j Hi Hj. apply Hd; lia.
Qed.
End instances.
