(* ===== verification/AuditStore.v ===== *)
(** * The audit stores ([internal/audit/store.go], [store_memory.go])

    The interface of the audit store, its in-memory implementation, and the
    appends of the PostgreSQL stores, which hash the same chain
    ([audit/store_pg.go], [config/store_pg.go]). An instant is its number of
    nanoseconds since the epoch. *)
From S2P Require Import Prelude GoText GoTime Pagination Domain ConfigStore MemStore Sha256 AuditChain.
Import AuditChain.
Local Open Scope Z_scope.

(** ** Data *)
Record UsageStat := {
  us_TenantID : string; us_FieldPath : string; us_PeriodStart : Z; us_ReadCount : Z;
  us_LastReadBy : option string; us_LastReadAt : option Z }.
Record TenantUsageRow := { tu_FieldPath : string; tu_ReadCount : Z; tu_LastReadAt : option Z }.

Record QueryWriteLogParams := {
  q_TenantID : string; q_Actor : string; q_FieldPath : string;
  q_StartTime : option Z; q_EndTime : option Z;
  q_Limit : Z; q_Offset : Z; q_Cursor : option Pagination.PageCursor }.
Record GetFieldUsageParams := {
  gu_TenantID : string; gu_FieldPath : string; gu_StartTime : option Z; gu_EndTime : option Z }.
Record GetTenantUsageParams := { gt_TenantID : string; gt_StartTime : option Z; gt_EndTime : option Z }.
Record GetUnusedFieldsParams := { gn_TenantID : string; gn_Since : Z }.
Record UpsertUsageStatsParams := {
  up_TenantID : string; up_FieldPath : string; up_PeriodStart : Z; up_ReadCount : Z;
  up_LastReadBy : option string; up_LastReadAt : Z }.

(** The parameters of an append have the same fields in the audit, config and
    schema packages; [ConfigStore.InsertAuditWriteLogParams] stands for all. *)
Class AuditStore (S : Type) := {
  as_InsertAuditWriteLog (arg : InsertAuditWriteLogParams) (s : S) : result error unit * S;
  as_QueryAuditWriteLog (arg : QueryWriteLogParams) (s : S) : result error (list AuditWriteLog);
  as_GetAuditWriteLogOrdered (tenantID : string) (s : S) : result error (list AuditWriteLog);
  as_GetFieldUsage (arg : GetFieldUsageParams) (s : S) : result error (list UsageStat);
  as_GetTenantUsage (arg : GetTenantUsageParams) (s : S) : result error (list TenantUsageRow);
  as_GetUnusedFields (arg : GetUnusedFieldsParams) (s : S) : result error (list string);
  as_UpsertUsageStats (arg : UpsertUsageStatsParams) (s : S) : result error unit * S }.

(** The entry the appends build: [kind] defaults to ["field"], the epoch is 1. *)
Definition object_kind (arg : InsertAuditWriteLogParams) : string :=
  if bool_decide (au_ObjectKind arg = "") then "field" else au_ObjectKind arg.
Definition new_entry (prevHash id : string) (now : Z) (arg : InsertAuditWriteLogParams) : AuditWriteLog :=
  let kind := object_kind arg in
  let hash := ComputeEntryHash {|
    ci_PreviousHash := prevHash; ci_ID := id; ci_TenantID := au_TenantID arg;
    ci_Actor := au_Actor arg; ci_Action := au_Action arg; ci_ObjectKind := kind;
    ci_CreatedAt := now; ci_Epoch := 1; ci_FieldPath := au_FieldPath arg;
    ci_OldValue := au_OldValue arg; ci_NewValue := au_NewValue arg;
    ci_ConfigVersion := au_ConfigVersion arg; ci_Metadata := au_Metadata arg |} in
  {| al_ID := id; al_TenantID := au_TenantID arg; al_Actor := au_Actor arg;
     al_Action := au_Action arg; al_ObjectKind := kind; al_FieldPath := au_FieldPath arg;
     al_OldValue := au_OldValue arg; al_NewValue := au_NewValue arg;
     al_ConfigVersion := au_ConfigVersion arg; al_Metadata := au_Metadata arg;
     al_PreviousHash := prevHash; al_EntryHash := hash; al_ChainEpoch := 1; al_CreatedAt := now |}.

(** [StartTime] and [EndTime] bounds, both inclusive. *)
Definition in_window (start stop : option Z) (t : Z) : bool :=
  negb (match start with Some s => t <? s | None => false end)
  && negb (match stop with Some s => s <? t | None => false end).

(** ** The in-memory store *)
Module AuditMemory.
Record MemoryStore := mkStore {
  writeLogs : list AuditWriteLog; usageStats : list UsageStat; idCounter : Z;
  ticks : nat  (* readings made of the clock *) }.
Definition NewMemoryStore : MemoryStore := mkStore [] [] 0 0.

Section Store.
Context `{Clock, SortSlice, MapRange}.

(** [fmt.Sprintf("00000000-0000-0000-0000-%012d", n)]. *)
Definition format_id (n : Z) : string :=
  "00000000-0000-0000-0000-" +:+ (if n <? 0 then "-" +:+ padded 11 (- n) else padded 12 n).
Definition nextID (s : MemoryStore) : string * MemoryStore :=
  let n := int64 (idCounter s + 1) in (format_id n, mkStore (writeLogs s) (usageStats s) n (ticks s)).

(** The scan for the tenant's newest entry, from the end. *)
Fixpoint find_tenant (tenantID : string) (rev_logs : list AuditWriteLog) : string :=
  match rev_logs with
  | [] => ""
  | e :: l => if bool_decide (al_TenantID e = tenantID) then al_EntryHash e else find_tenant tenantID l
  end.

Definition InsertAuditWriteLog (arg : InsertAuditWriteLogParams) (s : MemoryStore) :
    result error unit * MemoryStore :=
  let '(id, s) := nextID s in
  let prevHash := find_tenant (au_TenantID arg) (rev (writeLogs s)) in
  let now := clock (ticks s) in
  (Ok tt, mkStore (writeLogs s ++ [new_entry prevHash id now arg]) (usageStats s) (idCounter s)
            (S (ticks s))).

Definition GetAuditWriteLogOrdered (tenantID : string) (s : MemoryStore) :
    result error (list AuditWriteLog) :=
  let result := filter (λ e, al_TenantID e = tenantID) (writeLogs s) in
  Ok (sort_slice (λ a b, al_CreatedAt a <? al_CreatedAt b) result).

(** [AddWriteLog]: the entry as given, with an id and an instant where it has
    none. *)
Definition AddWriteLog (entry : AuditWriteLog) (s : MemoryStore) : MemoryStore :=
  let '(id, s) := if bool_decide (al_ID entry = "") then nextID s else (al_ID entry, s) in
  let '(now, s) := if al_CreatedAt entry =? zero_time
    then (clock (ticks s), mkStore (writeLogs s) (usageStats s) (idCounter s) (S (ticks s)))
    else (al_CreatedAt entry, s) in
  let entry := {|
    al_ID := id; al_TenantID := al_TenantID entry; al_Actor := al_Actor entry;
    al_Action := al_Action entry; al_ObjectKind := al_ObjectKind entry;
    al_FieldPath := al_FieldPath entry; al_OldValue := al_OldValue entry;
    al_NewValue := al_NewValue entry; al_ConfigVersion := al_ConfigVersion entry;
    al_Metadata := al_Metadata entry; al_PreviousHash := al_PreviousHash entry;
    al_EntryHash := al_EntryHash entry; al_ChainEpoch := al_ChainEpoch entry; al_CreatedAt := now |} in
  mkStore (writeLogs s ++ [entry]) (usageStats s) (idCounter s) (ticks s).

Definition query_matches (arg : QueryWriteLogParams) (e : AuditWriteLog) : bool :=
  (bool_decide (q_TenantID arg = "") || bool_decide (al_TenantID e = q_TenantID arg))
  && (bool_decide (q_Actor arg = "") || bool_decide (al_Actor e = q_Actor arg))
  && (bool_decide (q_FieldPath arg = "") || opt_str_eqb (al_FieldPath e) (q_FieldPath arg))
  && in_window (q_StartTime arg) (q_EndTime arg) (al_CreatedAt e).
(** (created_at DESC, id DESC). *)
Definition newer (a b : AuditWriteLog) : bool :=
  if al_CreatedAt a =? al_CreatedAt b then String.ltb (al_ID b) (al_ID a)
  else al_CreatedAt b <? al_CreatedAt a.
Definition after_cursor (cur : Pagination.PageCursor) (e : AuditWriteLog) : bool :=
  (al_CreatedAt e <? Pagination.Time cur)
  || (al_CreatedAt e =? Pagination.Time cur) && String.ltb (al_ID e) (Pagination.ID cur).

(** [filtered[arg.Offset:]] needs an offset that is not negative, which is what
    page tokens have. *)
Definition QueryAuditWriteLog (arg : QueryWriteLogParams) (s : MemoryStore) :
    result error (list AuditWriteLog) :=
  let filtered := sort_slice newer (filter (λ e, query_matches arg e = true) (writeLogs s)) in
  let filtered :=
    match q_Cursor arg with
    | Some cur => filter (λ e, after_cursor cur e = true) filtered
    | None => drop (Z.to_nat (q_Offset arg)) filtered
    end in
  Ok (if (0 <? q_Limit arg) && (q_Limit arg <? Z.of_nat (length filtered))
      then take (Z.to_nat (q_Limit arg)) filtered else filtered).

Definition GetFieldUsage (arg : GetFieldUsageParams) (s : MemoryStore) : result error (list UsageStat) :=
  Ok (filter (λ st, us_TenantID st = gu_TenantID arg ∧ us_FieldPath st = gu_FieldPath arg
                    ∧ in_window (gu_StartTime arg) (gu_EndTime arg) (us_PeriodStart st) = true)
        (usageStats s)).

(** The aggregate of one field: reads and the latest instant. *)
Definition later (a b : option Z) : option Z :=
  match b with
  | None => a
  | Some t => match a with None => Some t | Some u => if u <? t then Some t else Some u end
  end.
Definition aggregate (byField : gmap string (Z * option Z)) (st : UsageStat) :
    gmap string (Z * option Z) :=
  let '(n, at_) := default (0, None) (byField !! us_FieldPath st) in
  <[us_FieldPath st := (int64 (n + us_ReadCount st), later at_ (us_LastReadAt st))]> byField.
Definition GetTenantUsage (arg : GetTenantUsageParams) (s : MemoryStore) :
    result error (list TenantUsageRow) :=
  let stats := filter (λ st, us_TenantID st = gt_TenantID arg
      ∧ in_window (gt_StartTime arg) (gt_EndTime arg) (us_PeriodStart st) = true) (usageStats s) in
  let byField := foldl aggregate ∅ stats in
  let result := (λ '(fp, (n, at_)), {| tu_FieldPath := fp; tu_ReadCount := n; tu_LastReadAt := at_ |})
                  <$> map_range byField in
  Ok (sort_slice (λ a b, String.ltb (tu_FieldPath a) (tu_FieldPath b)) result).

(** The store has no schema: it knows of no unused field. *)
Definition GetUnusedFields (_ : GetUnusedFieldsParams) (_ : MemoryStore) : result error (list string) :=
  Ok [].

(** The row of the tenant, field and hour is updated, or appended. *)
Fixpoint upsert (arg : UpsertUsageStatsParams) (stats : list UsageStat) : list UsageStat :=
  match stats with
  | [] => [{| us_TenantID := up_TenantID arg; us_FieldPath := up_FieldPath arg;
              us_PeriodStart := up_PeriodStart arg; us_ReadCount := up_ReadCount arg;
              us_LastReadBy := up_LastReadBy arg; us_LastReadAt := Some (up_LastReadAt arg) |}]
  | st :: stats =>
      if bool_decide (us_TenantID st = up_TenantID arg) && bool_decide (us_FieldPath st = up_FieldPath arg)
         && (us_PeriodStart st =? up_PeriodStart arg)
      then {| us_TenantID := us_TenantID st; us_FieldPath := us_FieldPath st;
              us_PeriodStart := us_PeriodStart st;
              us_ReadCount := int64 (us_ReadCount st + up_ReadCount arg);
              us_LastReadBy := up_LastReadBy arg; us_LastReadAt := Some (up_LastReadAt arg) |} :: stats
      else st :: upsert arg stats
  end.
Definition UpsertUsageStats (arg : UpsertUsageStatsParams) (s : MemoryStore) :
    result error unit * MemoryStore :=
  (Ok tt, mkStore (writeLogs s) (upsert arg (usageStats s)) (idCounter s) (ticks s)).

Global Instance memory_audit_store : AuditStore MemoryStore := {|
  as_InsertAuditWriteLog := InsertAuditWriteLog;
  as_QueryAuditWriteLog := QueryAuditWriteLog;
  as_GetAuditWriteLogOrdered := GetAuditWriteLogOrdered;
  as_GetFieldUsage := GetFieldUsage;
  as_GetTenantUsage := GetTenantUsage;
  as_GetUnusedFields := GetUnusedFields;
  as_UpsertUsageStats := UpsertUsageStats |}.
End Store.
End AuditMemory.

(** ** The appends of the PostgreSQL stores

    The table is the list of its rows in the order they were inserted, a UUID
    its text. The advisory lock makes one append one step. A row is read back
    as it was written, except that the text of its metadata is what PostgreSQL
    renders a JSONB value as, [jsonb]. *)
Module AuditPg.
Class Jsonb := jsonb : string → string.

(** ORDER BY created_at DESC, id DESC LIMIT 1; PostgreSQL orders UUIDs by their
    bytes, as their hexadecimal texts are ordered. *)
Definition latest_row (rows : list AuditWriteLog) : option AuditWriteLog :=
  foldl (λ acc r, match acc with
                  | None => Some r
                  | Some b => if AuditMemory.newer r b then Some r else Some b
                  end) None rows.
Definition GetLastAuditHashForTenant (tenantID : string) (table : list AuditWriteLog) : option string :=
  al_EntryHash <$> latest_row (filter (λ r, al_TenantID r = tenantID) table).

(** [now.Truncate(time.Microsecond)]. *)
Definition truncate_us (t : Z) : Z := t - t `mod` Microsecond.

(** [InsertAuditWriteLog] of the audit, config and schema stores: [id] is the
    UUID drawn, [now] the reading of the clock. *)
Definition InsertAuditWriteLog (id : string) (now : Z) (arg : InsertAuditWriteLogParams)
    (table : list AuditWriteLog) : list AuditWriteLog :=
  let prevHash := default "" (GetLastAuditHashForTenant (au_TenantID arg) table) in
  table ++ [new_entry prevHash id (truncate_us now) arg].

(** [BulkInsertAuditWriteLog] of the config store: the entries hash one after
    another, from the hash the table gives before the batch. *)
Fixpoint bulk_rows (prevHash : string) (args : list (string * Z * InsertAuditWriteLogParams)) :
    list AuditWriteLog :=
  match args with
  | [] => []
  | (id, now, arg) :: args =>
      let row := new_entry prevHash id (truncate_us now) arg in
      row :: bulk_rows (al_EntryHash row) args
  end.
Definition BulkInsertAuditWriteLog (args : list (string * Z * InsertAuditWriteLogParams))
    (table : list AuditWriteLog) : list AuditWriteLog :=
  match args with
  | [] => table
  | (_, _, arg0) :: _ =>
      let prevHash := default "" (GetLastAuditHashForTenant (au_TenantID arg0) table) in
      table ++ bulk_rows prevHash args
  end.

Section Read.
Context `{Jsonb, SortSlice}.
Definition read_back (r : AuditWriteLog) : AuditWriteLog := {|
  al_ID := al_ID r; al_TenantID := al_TenantID r; al_Actor := al_Actor r; al_Action := al_Action r;
  al_ObjectKind := al_ObjectKind r; al_FieldPath := al_FieldPath r; al_OldValue := al_OldValue r;
  al_NewValue := al_NewValue r; al_ConfigVersion := al_ConfigVersion r;
  al_Metadata := jsonb <$> al_Metadata r; al_PreviousHash := al_PreviousHash r;
  al_EntryHash := al_EntryHash r; al_ChainEpoch := al_ChainEpoch r; al_CreatedAt := al_CreatedAt r |}.

(** ORDER BY created_at ASC, id ASC, then the order of the links. *)
Definition GetAuditWriteLogOrdered (tenantID : string) (table : list AuditWriteLog) :
    option (list AuditWriteLog) :=
  sortByChain (read_back <$> sort_slice (λ a b, AuditMemory.newer b a)
                               (filter (λ r, al_TenantID r = tenantID) table)).

(** Without a cursor the rows are ordered by created_at DESC only, with one by
    created_at DESC, id DESC. *)
Definition QueryAuditWriteLog (arg : QueryWriteLogParams) (table : list AuditWriteLog) :
    list AuditWriteLog :=
  let rows := filter (λ r, AuditMemory.query_matches arg r = true) table in
  read_back <$> take (Z.to_nat (q_Limit arg))
    (match q_Cursor arg with
     | Some cur => sort_slice AuditMemory.newer (filter (λ r, AuditMemory.after_cursor cur r = true) rows)
     | None => drop (Z.to_nat (q_Offset arg)) (sort_slice (λ a b, al_CreatedAt b <? al_CreatedAt a) rows)
     end).
End Read.
End AuditPg.
