(* ===== verification/AuditStoreFacts.v ===== *)
(** * What the audit stores guarantee

    A log written by the in-memory store verifies and reads back in the order
    of the appends when the clock advances between them. The same holds of the
    PostgreSQL stores when every row's (created_at, id) exceeds those before
    it; without that condition the chain forks. *)
From S2P Require Import Prelude GoText GoTime Json GoAny Pagination Domain ConfigStore MemStore Sha256 AuditChain.
From S2P Require Import AuditChainFacts AuditStore.
Import AuditChain.
Local Open Scope Z_scope.

(** What an append asks to record, and what an entry records. *)
Definition request_fields (a : InsertAuditWriteLogParams) :=
  (au_Actor a, au_Action a, object_kind a,
   (au_FieldPath a, au_OldValue a, au_NewValue a, au_ConfigVersion a, au_Metadata a)).
Definition entry_fields (e : AuditWriteLog) :=
  (al_Actor e, al_Action e, al_ObjectKind e,
   (al_FieldPath e, al_OldValue e, al_NewValue e, al_ConfigVersion e, al_Metadata e)).

Lemma new_entry_fields prev id now arg : entry_fields (new_entry prev id now arg) = request_fields arg.
Proof. done. Qed.
Lemma new_entry_digest prev id now arg :
  al_EntryHash (new_entry prev id now arg) = ComputeEntryHash (entry_input prev (new_entry prev id now arg)).
Proof. done. Qed.

Definition of_tenant (t : string) : list AuditWriteLog → list AuditWriteLog :=
  filter (λ e, al_TenantID e = t).

Lemma of_tenant_snoc t l e :
  of_tenant t (l ++ [e]) = if decide (al_TenantID e = t) then of_tenant t l ++ [e] else of_tenant t l.
Proof.
  unfold of_tenant. rewrite filter_app. case_decide as E.
  - by rewrite filter_cons_True.
  - by rewrite filter_cons_False, app_nil_r.
Qed.
Lemma chained_snoc prev l e :
  chained prev (l ++ [e]) ↔ chained prev l ∧ al_PreviousHash e = head_of prev l.
Proof.
  revert prev. induction l as [|a l IH]; intros prev; cbn [app chained]; [tauto|].
  rewrite IH. unfold head_of. cbn [foldl]. tauto.
Qed.

(** ** The in-memory store *)
Module AuditMemoryFacts.
Import AuditMemory.
Section Facts.
Context `{Clock, SortSliceOk, MapRange}.

Inductive audit_op := OpInsert (arg : InsertAuditWriteLogParams) | OpUpsert (arg : UpsertUsageStatsParams).
Definition step (s : MemoryStore) (op : audit_op) : MemoryStore :=
  match op with
  | OpInsert arg => (as_InsertAuditWriteLog arg s).2
  | OpUpsert arg => (as_UpsertUsageStats arg s).2
  end.
Definition inserts (ops : list audit_op) : list InsertAuditWriteLogParams :=
  omap (λ op, match op with OpInsert arg => Some arg | OpUpsert _ => None end) ops.

Lemma find_tenant_head t l : find_tenant t (rev l) = head_of "" (of_tenant t l).
Proof.
  induction l as [|e l IH] using rev_ind; [done|]. rewrite rev_app_distr, of_tenant_snoc. simpl.
  case_bool_decide; case_decide; try done. by rewrite head_of_snoc.
Qed.

Record log_ok (reqs : list InsertAuditWriteLogParams) (s : MemoryStore) : Prop := {
  lo_epoch : Forall (λ e, al_ChainEpoch e = 1) (writeLogs s);
  lo_linked t : linked "" (of_tenant t (writeLogs s));
  lo_times : al_CreatedAt <$> writeLogs s = clock <$> seq 0 (ticks s);
  lo_tenants : al_TenantID <$> writeLogs s = au_TenantID <$> reqs;
  lo_fields : entry_fields <$> writeLogs s = request_fields <$> reqs }.

Lemma log_ok_new : log_ok [] NewMemoryStore.
Proof. by split. Qed.
Lemma log_ok_step reqs s op :
  log_ok reqs s → log_ok (reqs ++ inserts [op]) (step s op).
Proof.
  intros [He Hl Ht Hn Hf]. destruct op as [arg|arg]; [|by split; rewrite ?app_nil_r].
  split; cbn [step as_InsertAuditWriteLog memory_audit_store InsertAuditWriteLog nextID snd inserts omap list_omap writeLogs ticks].
  - apply Forall_app; by repeat constructor.
  - intros t. rewrite of_tenant_snoc. case_decide as E; [|done].
    apply linked_snoc. split; [done|]. rewrite new_entry_digest, find_tenant_head.
    cbn [new_entry al_TenantID] in E. by rewrite E.
  - by rewrite seq_S, !fmap_app, Ht.
  - by rewrite !fmap_app, Hn.
  - by rewrite !fmap_app, Hf.
Qed.
Lemma log_ok_run ops : log_ok (inserts ops) (foldl step NewMemoryStore ops).
Proof.
  induction ops as [|op ops IH] using rev_ind; [apply log_ok_new|].
  unfold inserts in *. rewrite omap_app, foldl_app. cbn [foldl]. by apply log_ok_step.
Qed.

(** The clock advances between two readings. *)
Definition advancing : Prop := ∀ m n, (m < n)%nat → clock m < clock n.

Lemma ordered_is_log reqs s t :
  advancing → log_ok reqs s → GetAuditWriteLogOrdered t s = Ok (of_tenant t (writeLogs s)).
Proof.
  intros Hc Hs. unfold GetAuditWriteLogOrdered. f_equal. apply sort_slice_unique; [| |done].
  - split_and!; intros *; rewrite ?Z.ltb_lt, ?Z.ltb_ge; lia.
  - eapply sublist_StronglySorted; [|apply sublist_filter].
    apply (StronglySorted_keys (λ x y, (x <? y) = true)). rewrite (lo_times _ _ Hs).
    eapply StronglySorted_fmap; [|apply StronglySorted_seq]. intros m n Hmn. apply Z.ltb_lt. by apply Hc.
Qed.

(** What the entries of one tenant record is what was asked of it. *)
Lemma tenant_fields reqs l t :
  al_TenantID <$> l = au_TenantID <$> reqs → entry_fields <$> l = request_fields <$> reqs →
  entry_fields <$> of_tenant t l = request_fields <$> filter (λ a, au_TenantID a = t) reqs.
Proof.
  unfold of_tenant. revert reqs. induction l as [|e l IH]; intros [|a reqs] Et Ef; try done.
  apply (f_equal tail) in Et as Et'. apply (f_equal tail) in Ef as Ef'.
  apply (f_equal head) in Et. apply (f_equal head) in Ef. cbn in Et, Ef, Et', Ef'.
  injection Et as E1. assert (entry_fields e = request_fields a) as Ea by congruence.
  rewrite !filter_cons, E1. case_decide; rewrite ?fmap_cons; [|by apply IH].
  rewrite Ea. f_equal. by apply IH.
Qed.
End Facts.

(** C15: A log the in-memory store wrote verifies. After any sequence of
    appends and usage updates on a fresh store, with a clock that advances
    between readings and whatever order [sort.Slice] gives equal elements, the
    log of every tenant reads back in the order of its appends, with the
    requested actor, action, kind, values and metadata, and [VerifyChain]
    reports no break. *)
Theorem memory_log_verifies `{Clock, SortSliceOk, MapRange} (ops : list audit_op) (t : string) :
  advancing →
  let s := foldl step NewMemoryStore ops in
  let mine := filter (λ a, au_TenantID a = t) (inserts ops) in
  ∃ l, as_GetAuditWriteLogOrdered t s = Ok l
    ∧ entry_fields <$> l = request_fields <$> mine
    ∧ Forall (λ e, al_TenantID e = t ∧ al_ChainEpoch e = 1) l
    ∧ VerifyChain (as_GetAuditWriteLogOrdered t s) t
      = Ok {| vr_TenantID := t; vr_Total := length mine; vr_Breaks := []; vr_OK := true |}.
Proof.
  intros Hc s mine. pose proof (log_ok_run ops) as Hs. fold s in Hs.
  pose proof (ordered_is_log _ _ t Hc Hs) as Ho. exists (of_tenant t (writeLogs s)).
  pose proof (tenant_fields _ _ t (lo_tenants _ _ Hs) (lo_fields _ _ Hs)) as Hf.
  split_and!; [exact Ho|exact Hf| |].
  - apply Forall_forall. intros e [Ht He]%list_elem_of_filter. split; [done|].
    by apply (Forall_forall (λ e, al_ChainEpoch e = 1) (writeLogs s)); [apply Hs|].
  - change (as_GetAuditWriteLogOrdered t s) with (GetAuditWriteLogOrdered t s). rewrite Ho.
    unfold VerifyChain. rewrite (proj2 (verify_entries_nil 0 "" _) (lo_linked _ _ Hs t)).
    do 2 f_equal. apply (f_equal length) in Hf. by rewrite !length_fmap in Hf.
Qed.
End AuditMemoryFacts.

(** ** The PostgreSQL stores *)
Module AuditPgFacts.
Import AuditPg.

Inductive pg_op :=
| PgInsert (id : string) (now : Z) (arg : InsertAuditWriteLogParams)
| PgBulk (t : string) (args : list (string * Z * InsertAuditWriteLogParams)).
Definition step (table : list AuditWriteLog) (op : pg_op) : list AuditWriteLog :=
  match op with
  | PgInsert id now arg => InsertAuditWriteLog id now arg table
  | PgBulk _ args => BulkInsertAuditWriteLog args table
  end.
(** A batch is for one tenant, as the config service's are. *)
Definition op_ok (op : pg_op) : Prop :=
  match op with PgInsert _ _ _ => True | PgBulk t args => Forall (λ a, au_TenantID a.2 = t) args end.

(** Each row of a tenant comes after the tenant's earlier ones in the order
    (created_at, id). *)
Definition growing (table : list AuditWriteLog) : Prop :=
  ∀ t, StronglySorted (λ a b, AuditMemory.newer b a = true) (of_tenant t table).

Lemma growing_app l1 l2 : growing (l1 ++ l2) → growing l1.
Proof.
  intros Hg t. specialize (Hg t). unfold of_tenant in *. rewrite filter_app in Hg.
  by eapply StronglySorted_app_1_l.
Qed.
Lemma latest_is_last l :
  StronglySorted (λ a b, AuditMemory.newer b a = true) l → latest_row l = last l.
Proof.
  induction l as [|e l IH] using rev_ind; [done|]. intros Hs. rewrite last_snoc. unfold latest_row in *.
  rewrite foldl_app, IH by (by eapply StronglySorted_app_1_l). cbn [foldl].
  destruct (last l) as [b|] eqn:Eb; [|done].
  rewrite (StronglySorted_app_1_elem_of _ _ _ b e Hs); [done| |by apply list_elem_of_singleton].
  apply last_Some in Eb as [l' ->]. apply elem_of_app. right. by apply list_elem_of_singleton.
Qed.
Lemma head_of_last prev l : head_of prev l = default prev (al_EntryHash <$> last l).
Proof. destruct l as [|e l _] using rev_ind; [done|]. by rewrite head_of_snoc, last_snoc. Qed.
Lemma last_hash_is_head t table :
  growing table → default "" (GetLastAuditHashForTenant t table) = head_of "" (of_tenant t table).
Proof.
  intros Hg. unfold GetLastAuditHashForTenant. fold (of_tenant t table).
  by rewrite (latest_is_last _ (Hg t)), head_of_last.
Qed.

Lemma linked_app prev l1 l2 :
  linked prev (l1 ++ l2) ↔ linked prev l1 ∧ linked (head_of prev l1) l2.
Proof.
  revert prev. induction l1 as [|e l1 IH]; intros prev; cbn [app linked]; [unfold head_of; tauto|].
  rewrite IH. unfold head_of. cbn [foldl]. tauto.
Qed.
Lemma chained_app prev l1 l2 :
  chained prev (l1 ++ l2) ↔ chained prev l1 ∧ chained (head_of prev l1) l2.
Proof.
  revert prev. induction l1 as [|e l1 IH]; intros prev; cbn [app chained]; [unfold head_of; tauto|].
  rewrite IH. unfold head_of. cbn [foldl]. tauto.
Qed.
Lemma bulk_rows_ok prev args :
  linked prev (bulk_rows prev args) ∧ chained prev (bulk_rows prev args)
  ∧ al_TenantID <$> bulk_rows prev args = (λ a, au_TenantID a.2) <$> args
  ∧ Forall (λ e, al_ChainEpoch e = 1) (bulk_rows prev args).
Proof.
  revert prev. induction args as [|[[id now] arg] args IH]; intros prev.
  { split_and!; [done..|constructor]. }
  cbn [bulk_rows linked chained].
  destruct (IH (al_EntryHash (new_entry prev id (truncate_us now) arg))) as (H1 & H2 & H3 & H4).
  split_and!; try done; [|by constructor]. rewrite !fmap_cons, H3. done.
Qed.

Lemma of_tenant_Forall (P : AuditWriteLog → Prop) t l : Forall P l → Forall P (of_tenant t l).
Proof. rewrite !Forall_forall. intros Hl e [_ He]%list_elem_of_filter. by apply Hl. Qed.
(** All of [rows] are of tenant [t], or none is. *)
Lemma of_tenant_all t rows : Forall (λ e, al_TenantID e = t) rows → of_tenant t rows = rows.
Proof. intros Hf. unfold of_tenant. apply list_filter_all. by apply Forall_forall. Qed.
Lemma of_tenant_none t t' rows : t ≠ t' → Forall (λ e, al_TenantID e = t) rows → of_tenant t' rows = [].
Proof.
  intros Hn Hf. unfold of_tenant. induction Hf as [|e l He Hf IH]; [done|].
  rewrite filter_cons_False; [done|congruence].
Qed.

Record chain_ok (table : list AuditWriteLog) : Prop := {
  co_linked t : linked "" (of_tenant t table);
  co_chained t : chained "" (of_tenant t table);
  co_epoch : Forall (λ e, al_ChainEpoch e = 1) table }.

(** Appending rows of one tenant that go on from its latest digest. *)
Lemma chain_ok_app t table rows :
  chain_ok table → Forall (λ e, al_TenantID e = t) rows →
  linked (head_of "" (of_tenant t table)) rows → chained (head_of "" (of_tenant t table)) rows →
  Forall (λ e, al_ChainEpoch e = 1) rows → chain_ok (table ++ rows).
Proof.
  intros [Hl Hc He] Hr Lr Cr Er. split; [| |by apply Forall_app].
  all: intros t'; unfold of_tenant; rewrite filter_app; fold (of_tenant t' table) (of_tenant t' rows).
  all: destruct (decide (t = t')) as [<-|Hn].
  1, 3: rewrite (of_tenant_all t rows Hr); first [rewrite linked_app|rewrite chained_app]; by split.
  all: by rewrite (of_tenant_none t t' rows Hn Hr), app_nil_r.
Qed.
Lemma chain_ok_step table op :
  chain_ok table → op_ok op → growing table → chain_ok (step table op).
Proof.
  intros Ht Ho Hg. destruct op as [id now arg|t args]; simpl.
  - apply (chain_ok_app (au_TenantID arg)); [done|by repeat constructor| | |by repeat constructor];
      rewrite last_hash_is_head by done; done.
  - destruct args as [|[[id now] arg] args]; [done|]. cbn [BulkInsertAuditWriteLog].
    simpl in Ho. pose proof Ho as [Ea _]%Forall_cons. simpl in Ea. rewrite Ea.
    rewrite last_hash_is_head by done.
    destruct (bulk_rows_ok (head_of "" (of_tenant t table)) ((id, now, arg) :: args)) as (H1 & H2 & H3 & H4).
    apply (chain_ok_app t); try done.
    change (Forall ((λ x, x = t) ∘ al_TenantID) (bulk_rows (head_of "" (of_tenant t table)) ((id, now, arg) :: args))).
    apply Forall_fmap. rewrite H3. by apply Forall_fmap.
Qed.
Lemma step_extends table op : ∃ rows, step table op = table ++ rows.
Proof. destruct op as [id now arg|t [|[[id now] arg] args]]; simpl; eexists; [done|by rewrite app_nil_r|done]. Qed.
Lemma chain_ok_run ops :
  Forall op_ok ops → growing (foldl step [] ops) → chain_ok (foldl step [] ops).
Proof.
  induction ops as [|op ops IH] using rev_ind; [by split|]. rewrite foldl_app. cbn [foldl].
  intros [Hops Hop%Forall_inv]%Forall_app Hg. destruct (step_extends (foldl step [] ops) op) as [rows E].
  rewrite E in Hg. apply growing_app in Hg. apply chain_ok_step; [by apply IH|done..].
Qed.

Section Read.
Context `{Jsonb, SortSliceOk}.

(** PostgreSQL renders the metadata of a row as JSON of the same value. *)
Definition metadata_ok (e : AuditWriteLog) : Prop :=
  normalizeJSON (slice_bytes (jsonb <$> al_Metadata e)) = normalizeJSON (slice_bytes (al_Metadata e)).

Lemma linked_read_back prev l :
  Forall (λ e, al_ChainEpoch e = 1) l → Forall metadata_ok l → linked prev l →
  linked prev (read_back <$> l).
Proof.
  intros He Hm. revert prev. induction l as [|e l IH]; intros prev; [done|].
  apply Forall_cons in He as [He1 He]. apply Forall_cons in Hm as [Hm1 Hm]. intros [Hd Hl].
  split; [|by apply IH]. change (al_EntryHash (read_back e)) with (al_EntryHash e). rewrite Hd.
  unfold ComputeEntryHash. f_equal. apply preimage_content; [by rewrite He1|].
  unfold content. cbn [read_back al_ID al_TenantID al_Actor al_Action al_ObjectKind al_FieldPath al_OldValue
    al_NewValue al_ConfigVersion al_Metadata al_ChainEpoch al_CreatedAt]. by rewrite Hm1.
Qed.
Lemma chained_read_back prev l : chained prev l → chained prev (read_back <$> l).
Proof.
  revert prev. induction l as [|e l IH]; intros prev; [done|]. intros [Hp Hl]. split; [done|by apply IH].
Qed.
Lemma linked_nonempty prev l e : linked prev l → e ∈ l → al_EntryHash e ≠ "".
Proof.
  revert prev. induction l as [|a l IH]; intros prev; [by intros _ ?%not_elem_of_nil|].
  intros [Ha Hl] [->|He]%elem_of_cons; [|by eapply IH]. rewrite Ha. apply Sha256.Sum256_hex_nonempty.
Qed.

Lemma read_back_order t table :
  chain_ok table → NoDup (al_EntryHash <$> of_tenant t table) →
  GetAuditWriteLogOrdered t table = Some (read_back <$> of_tenant t table).
Proof.
  intros Hc Hn. unfold GetAuditWriteLogOrdered. apply sortByChain_restores.
  - apply chained_read_back, Hc.
  - rewrite <-list_fmap_compose. change (al_EntryHash ∘ read_back) with al_EntryHash.
    constructor; [|done]. intros (e & E & He)%list_elem_of_fmap.
    by apply (linked_nonempty "" _ e (co_linked _ Hc t) He).
  - apply fmap_Permutation, sort_slice_perm.
Qed.
End Read.

(** The chain of the PostgreSQL stores. [sortByChain] always ends and
    answers a permutation of its input, so no entry is hidden from or added to
    a verification. After any sequence of single appends and batches in which
    every row of a tenant follows the tenant's earlier rows in the order
    (created_at, id), and no two rows have one digest, the log reads back in
    the order of insertion, in whatever order the rows come, and verifies. *)
Theorem pg_log_verifies `{Jsonb, SortSliceOk} :
  (∀ l, ∃ r, sortByChain l = Some r ∧ r ≡ₚ l)
  ∧ ∀ ops t, let table := foldl step [] ops in
    Forall op_ok ops → growing table → Forall metadata_ok table →
    NoDup (al_EntryHash <$> of_tenant t table) →
    GetAuditWriteLogOrdered t table = Some (read_back <$> of_tenant t table)
    ∧ ∃ r, VerifyChain (Ok (read_back <$> of_tenant t table)) t = Ok r
      ∧ vr_OK r = true ∧ vr_Breaks r = [] ∧ vr_Total r = length (of_tenant t table).
Proof.
  split; [apply sortByChain_perm|]. intros ops t table Ho Hg Hm Hn.
  assert (chain_ok table) as Hc by (by apply chain_ok_run). split; [by apply read_back_order|].
  assert (linked "" (read_back <$> of_tenant t table)) as Hl.
  { apply linked_read_back; [| |apply Hc]; apply of_tenant_Forall; [apply Hc|done]. }
  apply (verify_entries_nil 0) in Hl. eexists. split; [done|]. cbn [vr_OK vr_Breaks vr_Total].
  by rewrite Hl, length_fmap.
Qed.
End AuditPgFacts.
