(* ===== verification/AuditService.v ===== *)
(** * The audit service ([internal/audit/service.go]) and the usage recorder
    ([recorder.go])

    The five RPC handlers over any audit store, with the tenant resolver and
    the guard the server installs. *)
From S2P Require Import Prelude GoText GoTime Json Pagination Domain Auth ConfigStore AuditChain AuditStore.
Import Auth.Auth Auth.Authz AuditChain.
Local Open Scope Z_scope.

(** ** Messages *)
Record QueryWriteLogRequest := {
  qr_TenantId : option string; qr_Actor : option string; qr_FieldPath : option string;
  qr_StartTime : option Z; qr_EndTime : option Z; qr_PageSize : Z; qr_PageToken : string }.
Record pbAuditEntry := {
  pa_Id : string; pa_TenantId : string; pa_Actor : string; pa_Action : string;
  pa_ObjectKind : string; pa_EntryHash : string; pa_PreviousHash : string; pa_CreatedAt : Z;
  pa_ChainEpoch : Z; pa_FieldPath : option string; pa_OldValue : option string;
  pa_NewValue : option string; pa_ConfigVersion : option Z; pa_Metadata : option (gmap string string) }.
Record QueryWriteLogResponse := { qs_Entries : list pbAuditEntry; qs_NextPageToken : string }.
Record GetFieldUsageRequest := {
  fr_TenantId : string; fr_FieldPath : string; fr_StartTime : option Z; fr_EndTime : option Z }.
Record UsageStats := {
  pu_TenantId : string; pu_FieldPath : string; pu_ReadCount : Z;
  pu_LastReadBy : option string; pu_LastReadAt : option Z }.
Record GetTenantUsageRequest := { tr_TenantId : string; tr_StartTime : option Z; tr_EndTime : option Z }.
Record pbChainBreak := { pk_EntryId : string; pk_Position : Z; pk_Got : string; pk_Want : string }.
Record VerifyChainResponse := {
  vs_TenantId : string; vs_Total : Z; vs_Ok : bool; vs_Breaks : list pbChainBreak }.
Record GetUnusedFieldsRequest := { nr_TenantId : string; nr_Since : option Z }.

(** [json.Unmarshal] into a [map[string]string]: [null] gives the nil map, a
    null member the empty text; any other value is an error. *)
Definition Unmarshal_string_map (raw : string) : option (option (gmap string string)) :=
  v ← Json.parse raw;
  match v with
  | Json.JNull => Some None
  | Json.JObj members =>
      l ← mapM (λ '(k, j), match j with
                           | Json.JStr s => Some (k, s)
                           | Json.JNull => Some (k, "")
                           | _ => None
                           end) members;
      Some (Some (foldl (λ m '(k, s), <[k := s]> m) ∅ l))
  | _ => None
  end.

Definition auditEntryToProto (e : AuditWriteLog) : pbAuditEntry := {|
  pa_Id := al_ID e; pa_TenantId := al_TenantID e; pa_Actor := al_Actor e; pa_Action := al_Action e;
  pa_ObjectKind := al_ObjectKind e; pa_EntryHash := al_EntryHash e;
  pa_PreviousHash := al_PreviousHash e; pa_CreatedAt := al_CreatedAt e;
  pa_ChainEpoch := al_ChainEpoch e mod 2 ^ 64;
  pa_FieldPath := al_FieldPath e; pa_OldValue := al_OldValue e; pa_NewValue := al_NewValue e;
  pa_ConfigVersion := al_ConfigVersion e;
  pa_Metadata :=
    if bool_decide (slice_bytes (al_Metadata e) = "") then None
    else match Unmarshal_string_map (slice_bytes (al_Metadata e)) with Some m => m | None => None end |}.

(** [resolveTenant] is nil or answers a tenant's UUID for a name. *)
Record Service := { sv_resolveTenant : option (string → result error string); sv_guard : Guard }.
Definition NewService (resolver : option (string → result error string)) : Service :=
  {| sv_resolveTenant := resolver; sv_guard := Chain [TenantScopeGuard] |}.

Section Handlers.
Context {S : Type} `{AuditStore S}.
Variable svc : Service.

Definition tenant_resource (tenantID : string) : Resource :=
  {| res_TenantID := tenantID; res_FieldPath := ""; res_Value := "" |}.

Definition resolveTenantID (idOrName : string) : result error string :=
  if bool_decide (idOrName = "") then Err (Status0 InvalidArgument "tenant id or name required")
  else if IsUUID idOrName then Ok idOrName
  else
    match sv_resolveTenant svc with
    | Some resolve =>
        match resolve idOrName with
        | Err _ => Err (Status NotFound "tenant %q not found" [AStr idOrName])
        | Ok resolved => Ok resolved
        end
    | None => Err (Status0 InvalidArgument "invalid tenant id")
    end.
Definition resolveTenantWithAccess (ctx : Ctx) (idOrName : string) : result error string :=
  let? tenantID := resolveTenantID idOrName in
  let? _ := sv_guard svc ctx ActionRead (tenant_resource tenantID) in
  Ok tenantID.

(** A store error is logged and reported as [Internal]. *)
Definition internal {A} (msg : string) (r : result error A) : result error A :=
  match r with Ok a => Ok a | Err _ => Err (Status0 Internal msg) end.

(** The tenant a query is restricted to: the one named, which the caller must
    have access to, or none for a superadmin. *)
Definition query_tenant (ctx : Ctx) (req : QueryWriteLogRequest) : result error string :=
  match qr_TenantId req with
  | Some name => resolveTenantWithAccess ctx name
  | None =>
      match ctx_claims ctx with
      | Some claims =>
          if negb (claims_IsSuperAdmin claims)
          then Err (Status0 PermissionDenied "tenant_id required for non-superadmin callers")
          else Ok ""
      | None => Ok ""
      end
  end.

Definition QueryWriteLog (ctx : Ctx) (req : QueryWriteLogRequest) (s : S) :
    result error QueryWriteLogResponse :=
  let? _ := MustHaveClaims ctx in
  let pageSize := Pagination.ClampPageSize (qr_PageSize req) 50 500 in
  match Pagination.DecodeTokenKind (qr_PageToken req) with
  | Err _ => Err (Status0 InvalidArgument "invalid page token")
  | Ok (kind, offset, cursor) =>
      let? tenantID := query_tenant ctx req in
      let params := {|
        q_TenantID := tenantID; q_Actor := default "" (qr_Actor req);
        q_FieldPath := default "" (qr_FieldPath req);
        q_StartTime := qr_StartTime req; q_EndTime := qr_EndTime req; q_Limit := int32 (pageSize + 1);
        q_Offset := match kind with Pagination.KindOffset => offset | _ => 0 end;
        q_Cursor := match kind with Pagination.KindCursor => Some cursor | _ => None end |} in
      let? entries := internal "failed to query audit log" (as_QueryAuditWriteLog params s) in
      let count := int32 (Z.of_nat (length entries)) in
      let nextToken :=
        match kind with
        | Pagination.KindOffset => Pagination.NextPageToken pageSize count offset
        | _ =>
            if pageSize <? count then
              match entries !! Z.to_nat (pageSize - 1) with
              | Some last => Pagination.EncodeCursorToken
                               {| Pagination.Time := al_CreatedAt last; Pagination.ID := al_ID last |}
              | None => ""
              end
            else ""
        end in
      let entries := if pageSize <? count then take (Z.to_nat pageSize) entries else entries in
      Ok {| qs_Entries := auditEntryToProto <$> entries; qs_NextPageToken := nextToken |}
  end.

(** The sum of the periods, with the reader of the latest of them. *)
Fixpoint sum_periods (stats : list UsageStat) (total : Z) (by_ : option string) (at_ : option Z) :
    Z * option string * option Z :=
  match stats with
  | [] => (total, by_, at_)
  | stat :: stats =>
      let total := int64 (total + us_ReadCount stat) in
      match us_LastReadAt stat with
      | Some t =>
          if match at_ with None => true | Some u => u <? t end
          then sum_periods stats total (us_LastReadBy stat) (Some t)
          else sum_periods stats total by_ at_
      | None => sum_periods stats total by_ at_
      end
  end.
Definition GetFieldUsage (ctx : Ctx) (req : GetFieldUsageRequest) (s : S) : result error UsageStats :=
  let? _ := MustHaveClaims ctx in
  let? tenantID := resolveTenantWithAccess ctx (fr_TenantId req) in
  let params := {| gu_TenantID := tenantID; gu_FieldPath := fr_FieldPath req;
                   gu_StartTime := fr_StartTime req; gu_EndTime := fr_EndTime req |} in
  let? stats := internal "failed to get field usage" (as_GetFieldUsage params s) in
  let '(total, by_, at_) := sum_periods stats 0 None None in
  Ok {| pu_TenantId := tenantID; pu_FieldPath := fr_FieldPath req; pu_ReadCount := total;
        pu_LastReadBy := by_; pu_LastReadAt := at_ |}.

Definition GetTenantUsage (ctx : Ctx) (req : GetTenantUsageRequest) (s : S) :
    result error (list UsageStats) :=
  let? _ := MustHaveClaims ctx in
  let? tenantID := resolveTenantWithAccess ctx (tr_TenantId req) in
  let params := {| gt_TenantID := tenantID; gt_StartTime := tr_StartTime req; gt_EndTime := tr_EndTime req |} in
  let? rows := internal "failed to get tenant usage" (as_GetTenantUsage params s) in
  Ok ((λ row, {| pu_TenantId := tenantID; pu_FieldPath := tu_FieldPath row;
                 pu_ReadCount := tu_ReadCount row; pu_LastReadBy := None;
                 pu_LastReadAt := tu_LastReadAt row |}) <$> rows).

Definition VerifyChain (ctx : Ctx) (tenantId : string) (s : S) : result error VerifyChainResponse :=
  let? _ := MustHaveClaims ctx in
  let? tenantID :=
    if negb (bool_decide (tenantId = "")) then resolveTenantWithAccess ctx tenantId
    else if negb (IsSuperAdmin ctx)
    then Err (Status0 PermissionDenied "global chain verification requires superadmin")
    else Ok tenantId in
  let? result := internal "failed to verify audit chain"
                   (AuditChain.VerifyChain (as_GetAuditWriteLogOrdered tenantID s) tenantID) in
  Ok {| vs_TenantId := vr_TenantID result; vs_Total := int32 (Z.of_nat (vr_Total result));
        vs_Ok := vr_OK result;
        vs_Breaks := (λ b, {| pk_EntryId := cb_EntryID b; pk_Position := int32 (Z.of_nat (cb_Position b));
                              pk_Got := cb_Got b; pk_Want := cb_Want b |}) <$> vr_Breaks result |}.

Definition unusedFieldsMaxLookback : Z := 90 * 24 * Hour.
(** [now] is the clock's reading. *)
Definition GetUnusedFields (now : Z) (ctx : Ctx) (req : GetUnusedFieldsRequest) (s : S) :
    result error (list string) :=
  let? _ := MustHaveClaims ctx in
  match nr_Since req with
  | None => Err (Status0 InvalidArgument "since is required")
  | Some since =>
      let? tenantID := resolveTenantWithAccess ctx (nr_TenantId req) in
      let earliest := now - unusedFieldsMaxLookback in
      let since := if negb (IsSuperAdmin ctx) && (since <? earliest) then earliest else since in
      internal "failed to get unused fields"
        (as_GetUnusedFields {| gn_TenantID := tenantID; gn_Since := since |} s)
  end.
End Handlers.

(** ** The usage recorder *)
Module UsageRecorder.

(** A key is a tenant and a field; the order of a range over the pending map
    is a parameter, as [MapRange] is for maps with text keys. *)
Abbreviation usageKey := (string * string)%type.
Record usageBucket := {
  bk_Count : Z; bk_LastReadBy : option string; bk_LastReadAt : Z; bk_PeriodStart : Z }.
Abbreviation Pending := (gmap (string * string) usageBucket).
Class PendingRange := pending_range : Pending → list (usageKey * usageBucket).
Class PendingRangeOk `{PendingRange} : Prop :=
  pending_range_perm : ∀ m : Pending, pending_range m ≡ₚ map_to_list m.

(** The hours of [Truncate] start at the zero time, itself at a full hour. *)
Definition truncate_hour (t : Z) : Z := t - t `mod` Hour.

(** The part of a read under the lock. A nil recorder is [None]. *)
Definition bump (now : Z) (actor : option string) (pending : Pending) (key : usageKey) : Pending :=
  let b := default {| bk_Count := 0; bk_LastReadBy := None; bk_LastReadAt := zero_time;
                      bk_PeriodStart := truncate_hour now |} (pending !! key) in
  <[key := {| bk_Count := int64 (bk_Count b + 1); bk_LastReadBy := actor; bk_LastReadAt := now;
              bk_PeriodStart := bk_PeriodStart b |}]> pending.
Definition RecordRead (now : Z) (tenantID fieldPath : string) (actor : option string)
    (r : option Pending) : option Pending :=
  (λ pending, bump now actor pending (tenantID, fieldPath)) <$> r.
Definition RecordReads (now : Z) (tenantID : string) (fieldPaths : list string) (actor : option string)
    (r : option Pending) : option Pending :=
  (λ pending, foldl (λ p fp, bump now actor p (tenantID, fp)) pending fieldPaths) <$> r.

Definition bucket_params (key : usageKey) (b : usageBucket) : UpsertUsageStatsParams := {|
  up_TenantID := key.1; up_FieldPath := key.2; up_PeriodStart := bk_PeriodStart b;
  up_ReadCount := bk_Count b; up_LastReadBy := bk_LastReadBy b; up_LastReadAt := bk_LastReadAt b |}.

Section Flush.
Context {S : Type} `{AuditStore S, PendingRange}.

(** The swap of the buffer under the lock: what is to be written, and the
    empty buffer. *)
Definition swap (r : option Pending) : list (usageKey * usageBucket) * option Pending :=
  match r with
  | None => ([], None)
  | Some pending => (pending_range pending, Some ∅)
  end.
(** The writes after it; the first error is kept and the rest still written. *)
Fixpoint write_all (l : list (usageKey * usageBucket)) (firstErr : option error) (s : S) :
    option error * S :=
  match l with
  | [] => (firstErr, s)
  | (key, b) :: l =>
      let '(res, s) := as_UpsertUsageStats (bucket_params key b) s in
      let firstErr := match res, firstErr with Err e, None => Some e | _, _ => firstErr end in
      write_all l firstErr s
  end.
Definition Flush (r : option Pending) (s : S) : option error * option Pending * S :=
  let '(snapshot, r) := swap r in
  let '(err, s) := write_all snapshot None s in (err, r, s).
End Flush.
End UsageRecorder.
