(* ===== verification/AuditServiceFacts.v ===== *)
(** * What the audit service answers

    No read is lost or counted twice between the recorder, its flushes and the
    store, in any interleaving; and following the page tokens of
    [QueryWriteLog] lists every matching entry once, newest first. *)
From S2P Require Import Prelude GoText GoTime Json Pagination Domain Auth ConfigStore MemStore Sha256 AuditChain.
From S2P Require Import AuditChainFacts AuditStore AuditStoreFacts AuditService GoFloat.
Import Auth.Auth Auth.Authz.
Local Open Scope Z_scope.

(** ** Sums *)
Definition zsum {A} (f : A → Z) (l : list A) : Z := foldr (λ x n, f x + n) 0 l.
Lemma zsum_cons {A} (f : A → Z) x l : zsum f (x :: l) = f x + zsum f l.
Proof. done. Qed.
Lemma zsum_nil {A} (f : A → Z) : zsum f [] = 0.
Proof. done. Qed.
Lemma zsum_app {A} (f : A → Z) l1 l2 : zsum f (l1 ++ l2) = zsum f l1 + zsum f l2.
Proof. unfold zsum. induction l1 as [|x l1 IH]; simpl; [done|]. rewrite IH. lia. Qed.
Global Instance zsum_perm {A} (f : A → Z) : Proper ((≡ₚ) ==> (=)) (zsum f).
Proof. intros l1 l2 Hp. unfold zsum. induction Hp; simpl; lia. Qed.
Lemma zsum_nonneg {A} (f : A → Z) l : Forall (λ x, 0 ≤ f x) l → 0 ≤ zsum f l.
Proof. unfold zsum. induction 1; simpl; lia. Qed.
Lemma zsum_insert {A} (f : A → Z) l i x y :
  l !! i = Some x → zsum f (<[i := y]> l) = zsum f l - f x + f y.
Proof.
  unfold zsum. revert i. induction l as [|a l IH]; intros [|i] E; try done.
  - injection E as ->. simpl. lia.
  - simpl in *. rewrite (IH i) by done. lia.
Qed.

(** ** Usage accounting *)
Module UsageFacts.
Import AuditMemory UsageRecorder.

(** What the accounting asks of a store: how many reads of a field it has
    stored, that an upsert adds its count, that one that fails added it or did
    not, and that a query without a window lists all of it. *)
Abbreviation up_key arg := (up_TenantID arg, up_FieldPath arg).
Definition up_adds (arg : UpsertUsageStatsParams) (k : usageKey) : Z :=
  if decide (up_key arg = k) then up_ReadCount arg else 0.
Class UsageStoreOk (S : Type) `{AuditStore S} := {
  us_inv : S → Prop;
  us_total : S → usageKey → Z;
  us_nonneg s k : us_inv s → 0 ≤ us_total s k;
  us_upsert arg s r s' : us_inv s → 0 ≤ up_ReadCount arg → us_total s (up_key arg) + up_ReadCount arg ≤ max_int64 →
    as_UpsertUsageStats arg s = (r, s') →
    us_inv s' ∧ ((∀ k, us_total s' k = us_total s k + up_adds arg k)
                 ∨ is_Ok r = false ∧ ∀ k, us_total s' k = us_total s k);
  us_usage s t f stats : us_inv s →
    as_GetFieldUsage {| gu_TenantID := t; gu_FieldPath := f; gu_StartTime := None; gu_EndTime := None |} s = Ok stats →
    Forall (λ st, 0 ≤ us_ReadCount st) stats ∧ zsum us_ReadCount stats = us_total s (t, f) }.

Section Facts.
Context {S : Type} `{UsageStoreOk S} `{PendingRangeOk}.

(** The recorder, the store, the flushes under way with what each has yet to
    write, and the buckets whose upsert failed. *)
Record usage_state := mkUsage {
  ut_pending : Pending; ut_store : S; ut_flights : list (list (usageKey * usageBucket));
  ut_failed : list (usageKey * usageBucket) }.
Inductive usage_op :=
| URead (now : Z) (tenantID fieldPath : string) (actor : option string)
| UReads (now : Z) (tenantID : string) (fieldPaths : list string) (actor : option string)
| USwap                (* a flush takes the buffer *)
| UWrite (i : nat).    (* the [i]-th flush writes its next bucket *)

Definition ustep (u : usage_state) (op : usage_op) : usage_state :=
  match op with
  | URead now t f actor =>
      mkUsage (default ∅ (RecordRead now t f actor (Some (ut_pending u)))) (ut_store u) (ut_flights u) (ut_failed u)
  | UReads now t fs actor =>
      mkUsage (default ∅ (RecordReads now t fs actor (Some (ut_pending u)))) (ut_store u) (ut_flights u) (ut_failed u)
  | USwap =>
      let '(snapshot, r) := swap (Some (ut_pending u)) in
      mkUsage (default ∅ r) (ut_store u) (ut_flights u ++ [snapshot]) (ut_failed u)
  | UWrite i =>
      match ut_flights u !! i with
      | Some ((key, b) :: rest) =>
          let '(res, s) := as_UpsertUsageStats (bucket_params key b) (ut_store u) in
          mkUsage (ut_pending u) s (<[i := rest]> (ut_flights u))
            (match res with Ok _ => ut_failed u | Err _ => (key, b) :: ut_failed u end)
      | _ => u
      end
  end.
Definition urun (s : S) (ops : list usage_op) : usage_state := foldl ustep (mkUsage ∅ s [] []) ops.

(** The reads of a key that a sequence of operations records, and of all. *)
Definition is_key (k k' : usageKey) : Z := if decide (k = k') then 1 else 0.
Definition op_keys (op : usage_op) : list usageKey :=
  match op with
  | URead _ t f _ => [(t, f)]
  | UReads _ t fs _ => (λ f, (t, f)) <$> fs
  | _ => []
  end.
Definition recorded (ops : list usage_op) (k : usageKey) : Z := zsum (is_key k) (ops ≫= op_keys).
Definition all_reads (ops : list usage_op) : Z := Z.of_nat (length (ops ≫= op_keys)).

(** The reads of a key that wait in the buffer, that a flush has yet to write,
    and that were in a bucket whose upsert failed. *)
Definition pend (p : Pending) (k : usageKey) : Z := default 0 (bk_Count <$> p !! k).
Definition bucket_count (k : usageKey) (x : usageKey * usageBucket) : Z :=
  if decide (x.1 = k) then bk_Count x.2 else 0.
Definition in_flight (u : usage_state) (k : usageKey) : Z :=
  zsum (zsum (bucket_count k)) (ut_flights u).
Definition failed (u : usage_state) (k : usageKey) : Z := zsum (bucket_count k) (ut_failed u).
(** The reads that have left the recorder and are not in the store. *)
Definition lost (ops : list usage_op) (u : usage_state) (k : usageKey) : Z :=
  recorded ops k - pend (ut_pending u) k - in_flight u k - us_total (ut_store u) k.

Record usage_ok (ops : list usage_op) (u : usage_state) : Prop := {
  uo_lost k : 0 ≤ lost ops u k ≤ failed u k;
  uo_pend k b : ut_pending u !! k = Some b → 0 ≤ bk_Count b;
  uo_flights : Forall (Forall (λ x, 0 ≤ bk_Count x.2)) (ut_flights u);
  uo_store : us_inv (ut_store u) }.

Lemma recorded_bounds ops k : 0 ≤ recorded ops k ≤ all_reads ops.
Proof.
  unfold recorded, all_reads, zsum. induction (ops ≫= op_keys) as [|k' l IH]; simpl; [lia|].
  unfold is_key at 1 3. case_decide; lia.
Qed.
Lemma pend_bump now actor p k k' :
  0 ≤ pend p k < max_int64 → pend (bump now actor p k) k' = pend p k' + is_key k' k.
Proof.
  intros Hb. unfold bump, pend, is_key. destruct (decide (k' = k)) as [->|Hn].
  - rewrite lookup_insert_eq. unfold pend in Hb. cbn [fmap option_fmap option_map default bk_Count].
    assert (bk_Count (default {| bk_Count := 0; bk_LastReadBy := None; bk_LastReadAt := zero_time;
      bk_PeriodStart := truncate_hour now |} (p !! k)) = default 0 (bk_Count <$> p !! k)) as ->
      by (by destruct (p !! k)).
    apply int64_id. unfold min_int64, max_int64 in *. lia.
  - rewrite lookup_insert_ne by done. lia.
Qed.
Lemma flight_of_map (m : Pending) k : zsum (bucket_count k) (pending_range m) = pend m k.
Proof.
  rewrite pending_range_perm. unfold pend. induction m as [|k' b m Hn IH] using map_ind.
  - by rewrite map_to_list_empty, lookup_empty.
  - rewrite map_to_list_insert by done. unfold zsum in *. cbn [foldr]. rewrite IH.
    unfold bucket_count at 1. cbn [fst snd]. case_decide as E.
    + subst k'. rewrite Hn, lookup_insert_eq. simpl. lia.
    + rewrite lookup_insert_ne by done. lia.
Qed.

Lemma pend_bumps now actor ks p :
  (∀ k, 0 ≤ pend p k) → (∀ k, pend p k + Z.of_nat (length ks) ≤ max_int64) →
  ∀ k, pend (foldl (bump now actor) p ks) k = pend p k + zsum (is_key k) ks.
Proof.
  revert p. induction ks as [|k0 ks IH]; intros p Hp Hb k; [unfold zsum; simpl; lia|].
  cbn [length] in Hb. assert (∀ k', pend (bump now actor p k0) k' = pend p k' + is_key k' k0) as E.
  { intros k'. apply pend_bump. specialize (Hp k0). specialize (Hb k0). lia. }
  cbn [foldl]. rewrite IH, E.
  - unfold zsum. simpl. lia.
  - intros k'. rewrite E. specialize (Hp k'). unfold is_key. case_decide; lia.
  - intros k'. rewrite E. specialize (Hb k'). unfold is_key. case_decide; lia.
Qed.
Lemma bucket_count_nonneg k x : 0 ≤ bk_Count x.2 → 0 ≤ bucket_count k x.
Proof. intros. unfold bucket_count. case_decide; lia. Qed.

(** The reads under way or waiting never exceed what was recorded. *)
Lemma usage_nonneg ops u k : usage_ok ops u →
  0 ≤ pend (ut_pending u) k ∧ 0 ≤ in_flight u k ∧ 0 ≤ us_total (ut_store u) k.
Proof.
  intros [_ Hp Hf Hs]. split_and!.
  - unfold pend. destruct (_ !! k) as [b|] eqn:E; [|done]. by apply (Hp k).
  - apply zsum_nonneg. eapply Forall_impl; [exact Hf|]. intros l Hl. apply zsum_nonneg.
    eapply Forall_impl; [exact Hl|]. intros x. apply bucket_count_nonneg.
  - by apply us_nonneg.
Qed.
Lemma recorded_snoc ops op k : recorded (ops ++ [op]) k = recorded ops k + zsum (is_key k) (op_keys op).
Proof. unfold recorded. rewrite bind_app, zsum_app. cbn [mbind list_bind]. by rewrite app_nil_r. Qed.
Lemma all_reads_snoc ops op : all_reads (ops ++ [op]) = all_reads ops + Z.of_nat (length (op_keys op)).
Proof. unfold all_reads. rewrite bind_app, length_app. cbn [mbind list_bind]. rewrite app_nil_r. lia. Qed.

Lemma usage_bumps ops u op now actor :
  all_reads (ops ++ [op]) ≤ max_int64 → usage_ok ops u →
  usage_ok (ops ++ [op])
    (mkUsage (foldl (bump now actor) (ut_pending u) (op_keys op)) (ut_store u) (ut_flights u) (ut_failed u)).
Proof.
  intros Hm Hu. rewrite all_reads_snoc in Hm.
  assert (∀ k, pend (foldl (bump now actor) (ut_pending u) (op_keys op)) k
               = pend (ut_pending u) k + zsum (is_key k) (op_keys op)) as E.
  { apply pend_bumps; intros k; pose proof (usage_nonneg _ _ k Hu); [lia|].
    pose proof (recorded_bounds ops k). pose proof (uo_lost _ _ Hu k) as Hl. unfold lost in Hl. lia. }
  split; cbn [ut_pending ut_flights ut_store]; try apply Hu.
  - intros k. pose proof (uo_lost _ _ Hu k) as Hl. unfold lost, failed, in_flight in *.
    cbn [ut_pending ut_store ut_flights ut_failed]. rewrite recorded_snoc, E. lia.
  - intros k b Hb. assert (bk_Count b = pend (ut_pending u) k + zsum (is_key k) (op_keys op)) as ->.
    { rewrite <-E. unfold pend. by rewrite Hb. }
    pose proof (usage_nonneg _ _ k Hu). assert (0 ≤ zsum (is_key k) (op_keys op)); [|lia].
    apply zsum_nonneg, Forall_forall. intros x _. unfold is_key. case_decide; lia.
Qed.

Lemma usage_swap ops u :
  usage_ok ops u → usage_ok (ops ++ [USwap]) (ustep u USwap).
Proof.
  intros [Hl Hp Hf Hst]. split; cbn [ustep swap default ut_pending ut_store ut_flights]; [| | |done].
  - intros k. specialize (Hl k). unfold lost, failed, in_flight in *. cbn [ut_pending ut_store ut_flights ut_failed].
    rewrite recorded_snoc, zsum_app, zsum_cons, !zsum_nil, flight_of_map.
    assert (pend (id ∅) k = 0) as -> by (unfold pend, id; by rewrite lookup_empty).
    cbn [op_keys]. rewrite zsum_nil. lia.
  - intros k b. unfold id. by rewrite lookup_empty.
  - apply Forall_app. split; [done|]. apply Forall_singleton. rewrite pending_range_perm.
    apply Forall_forall. intros [k b] Hb%elem_of_map_to_list. by apply (Hp k).
Qed.

Lemma usage_write ops u i :
  all_reads ops ≤ max_int64 → usage_ok ops u → usage_ok (ops ++ [UWrite i]) (ustep u (UWrite i)).
Proof.
  intros Hm Hu. assert (∀ k, recorded (ops ++ [UWrite i]) k = recorded ops k) as Er.
  { intros k. rewrite recorded_snoc. unfold zsum. simpl. lia. }
  cbn [ustep]. destruct (ut_flights u !! i) as [[|[key b] rest]|] eqn:E;
    try (split; try apply Hu; intros k; unfold lost; rewrite Er; apply Hu).
  pose proof (Forall_lookup_1 _ _ _ _ (uo_flights _ _ Hu) E) as [Hb Hr]%Forall_cons. simpl in Hb.
  assert (∀ k, zsum (zsum (bucket_count k)) (<[i:=rest]> (ut_flights u))
               = in_flight u k - bucket_count k (key, b)) as Ef.
  { intros k. rewrite (zsum_insert _ _ _ _ _ E). rewrite zsum_cons. unfold in_flight. lia. }
  assert (Forall (Forall (λ x, 0 ≤ bk_Count x.2)) (<[i:=rest]> (ut_flights u))) as Hfl
    by (by apply Forall_insert; [apply Hu|]).
  assert (0 ≤ zsum (zsum (bucket_count key)) (<[i:=rest]> (ut_flights u))) as Hn.
  { apply zsum_nonneg. eapply Forall_impl; [exact Hfl|]. intros l Hl. apply zsum_nonneg.
    eapply Forall_impl; [exact Hl|]. intros x. apply bucket_count_nonneg. }
  assert (us_total (ut_store u) key + bk_Count b ≤ max_int64) as Hbound.
  { pose proof (uo_lost _ _ Hu key) as Es. pose proof (recorded_bounds ops key).
    pose proof (usage_nonneg _ _ key Hu). rewrite Ef in Hn. unfold bucket_count in Hn. cbn [fst snd] in Hn.
    rewrite decide_True in Hn by done. unfold lost in Es. lia. }
  destruct (as_UpsertUsageStats (bucket_params key b) (ut_store u)) as [res s'] eqn:Hup.
  destruct (us_upsert (bucket_params key b) _ _ _ (uo_store _ _ Hu) Hb ltac:(destruct key; exact Hbound) Hup) as [Hi' Htot].
  assert (∀ k, up_adds (bucket_params key b) k = bucket_count k (key, b)) as Ea by (intros k; by destruct key).
  split; cbn [ut_pending ut_store ut_flights ut_failed]; [|apply Hu|done|done].
  intros k. pose proof (uo_lost _ _ Hu k) as Hl. pose proof (bucket_count_nonneg k (key, b) Hb).
  unfold lost, failed in *. unfold in_flight. cbn [ut_pending ut_store ut_flights ut_failed].
  rewrite Er, Ef. destruct Htot as [Ht|[Hres Ht]]; rewrite Ht.
  - rewrite Ea. destruct res; rewrite ?zsum_cons; lia.
  - destruct res as [[]|e]; [done|]. rewrite zsum_cons. lia.
Qed.

Context (s0 : S).
Hypothesis Hs0 : us_inv s0 ∧ ∀ k, us_total s0 k = 0.

Lemma usage_ok_run ops : all_reads ops ≤ max_int64 → usage_ok ops (urun s0 ops).
Proof.
  unfold urun. induction ops as [|op ops IH] using rev_ind; intros Hm.
  { destruct Hs0 as [Hi Hz]. split; [|intros k b; cbn; by rewrite lookup_empty|constructor|done].
    intros k. unfold lost, failed, in_flight, pend. cbn [ut_pending ut_store ut_flights ut_failed foldl].
    rewrite lookup_empty, Hz. done. }
  rewrite foldl_app. cbn [foldl]. pose proof Hm as Hm'. rewrite all_reads_snoc in Hm'.
  specialize (IH ltac:(lia)). destruct op as [now t f a|now t fs a| |i].
  - by apply (usage_bumps ops _ (URead now t f a) now a).
  - pose proof (usage_bumps ops _ (UReads now t fs a) now a Hm IH) as Hb. cbn [op_keys] in Hb.
    rewrite foldl_fmap in Hb. exact Hb.
  - by apply usage_swap.
  - apply usage_write; [lia|done].
Qed.

(** What [GetFieldUsage] of the service adds up. *)
Lemma sum_periods_total stats total by_ at_ :
  Forall (λ st, 0 ≤ us_ReadCount st) stats → 0 ≤ total → total + zsum us_ReadCount stats ≤ max_int64 →
  (sum_periods stats total by_ at_).1.1 = total + zsum us_ReadCount stats.
Proof.
  intros Hf. revert total by_ at_. induction Hf as [|st stats Hst Hf IH]; intros total by_ at_ Ht Hb.
  { unfold zsum. simpl. lia. }
  cbn [sum_periods]. rewrite zsum_cons in *.
  pose proof (zsum_nonneg us_ReadCount stats Hf).
  rewrite int64_id by (unfold min_int64, max_int64 in *; lia).
  destruct (us_LastReadAt st) as [t|]; [destruct (match at_ with None => true | Some u => u <? t end)|];
    rewrite IH; lia.
Qed.

(** A flush is a swap and its writes, one after another; when it reports no
    error, none of them failed. *)
Lemma write_all_first l e s err s' : write_all (S:=S) l (Some e) s = (err, s') → err = Some e.
Proof.
  revert s. induction l as [|[key b] l IH]; intros s; cbn [write_all]; [by intros [= <- _]|].
  destruct (as_UpsertUsageStats _ s) as [[|] s1]; apply IH.
Qed.
Lemma write_all_steps l i u err s' :
  ut_flights u !! i = Some l → write_all l None (ut_store u) = (err, s') →
  let u' := foldl ustep u (replicate (length l) (UWrite i)) in
  ut_store u' = s' ∧ ut_pending u' = ut_pending u ∧ ut_flights u' = <[i := []]> (ut_flights u)
  ∧ (err = None → ut_failed u' = ut_failed u).
Proof.
  assert (∀ l first u err s', ut_flights u !! i = Some l → write_all l first (ut_store u) = (err, s') →
    let u' := foldl ustep u (replicate (length l) (UWrite i)) in
    ut_store u' = s' ∧ ut_pending u' = ut_pending u ∧ ut_flights u' = <[i := []]> (ut_flights u)
    ∧ (err = None → ut_failed u' = ut_failed u)) as Hgo; [|apply Hgo].
  clear. intros l. induction l as [|[key b] l IH]; intros first u err s' E; cbn [length replicate foldl write_all].
  { intros [= <- <-]. split_and!; [done..| |done]. by rewrite list_insert_id. }
  intros Hw. cbn [ustep]. rewrite E.
  destruct (as_UpsertUsageStats (bucket_params key b) (ut_store u)) as [res s1] eqn:Hup.
  set (u1 := mkUsage _ _ _ _).
  assert (ut_flights u1 !! i = Some l) as E1 by (apply list_lookup_insert_eq; by eapply lookup_lt_Some).
  destruct (IH _ u1 err s' E1 Hw) as (H1' & H2' & H3' & H4').
  split_and!; [done..| |].
  - rewrite H3'. apply list_insert_insert_eq.
  - intros ->. rewrite H4' by done. destruct res as [[]|e]; [done|].
    destruct first; by apply write_all_first in Hw.
Qed.
Lemma in_flight_none u k : Forall (λ l, l = []) (ut_flights u) → in_flight u k = 0.
Proof. unfold in_flight. induction 1 as [|l ls -> Hf IH]; [done|]. rewrite zsum_cons, IH. done. Qed.

Definition flush_ops (u : usage_state) : list usage_op :=
  USwap :: replicate (length (pending_range (ut_pending u))) (UWrite (length (ut_flights u))).
Lemma flush_run ops err r s' :
  let u := urun s0 ops in
  Flush (Some (ut_pending u)) (ut_store u) = (err, r, s') →
  let u' := urun s0 (ops ++ flush_ops u) in
  r = Some ∅ ∧ ut_store u' = s' ∧ ut_pending u' = ∅ ∧ ut_flights u' = ut_flights u ++ [[]]
  ∧ (err = None → ut_failed u' = ut_failed u).
Proof.
  intros u E u'. set (l := pending_range (ut_pending u)). set (i := length (ut_flights u)).
  assert (u' = foldl ustep (ustep u USwap) (replicate (length l) (UWrite i))) as ->.
  { unfold u', urun. by rewrite foldl_app. }
  unfold Flush in E. cbn [swap] in E. fold l in E. destruct (write_all l None (ut_store u)) as [err' s1] eqn:Hw.
  injection E as <- <- <-. destruct (write_all_steps l i (ustep u USwap) err' s1) as (-> & -> & -> & Hf).
  { cbn [ustep swap ut_flights]. unfold i. by rewrite lookup_app_r, Nat.sub_diag by done. }
  { exact Hw. }
  split_and!; [done..| |exact Hf].
  cbn [ustep swap ut_flights]. unfold i. by rewrite insert_app_r_alt, Nat.sub_diag by done.
Qed.
(** A flush records nothing. *)
Lemma flush_keys u : flush_ops u ≫= op_keys = [].
Proof. unfold flush_ops. cbn. induction (length _) as [|n IH]; [done|]. exact IH. Qed.

Lemma field_usage_total svc ctx req s r :
  us_inv s → us_total s (pu_TenantId r, fr_FieldPath req) ≤ max_int64 →
  fr_StartTime req = None → fr_EndTime req = None → AuditService.GetFieldUsage svc ctx req s = Ok r →
  pu_ReadCount r = us_total s (pu_TenantId r, fr_FieldPath req).
Proof.
  intros Hi Hb E1 E2 E. unfold AuditService.GetFieldUsage in E. rewrite E1, E2 in E.
  destruct (MustHaveClaims ctx); [|done]. cbn [result_bind] in E.
  destruct (resolveTenantWithAccess svc ctx (fr_TenantId req)) as [t|]; [|done]. cbn [result_bind] in E.
  destruct (as_GetFieldUsage _ s) as [stats|e] eqn:Hu; [|done]. cbn [internal result_bind] in E.
  destruct (us_usage _ _ _ _ Hi Hu) as [Hf Hsum].
  destruct (sum_periods _ _ _ _) as [[total by_] at_] eqn:Es. injection E as <-.
  cbn [pu_ReadCount pu_TenantId fr_FieldPath] in *.
  apply (f_equal (λ x, x.1.1)) in Es. rewrite sum_periods_total in Es by (done || lia). cbn [fst] in Es. lia.
Qed.
Lemma stored_bound ops k : all_reads ops ≤ max_int64 → us_total (ut_store (urun s0 ops)) k ≤ max_int64.
Proof.
  intros Hm. pose proof (usage_ok_run ops Hm) as Hu. pose proof (usage_nonneg _ _ k Hu).
  pose proof (uo_lost _ _ Hu k) as Hl. pose proof (recorded_bounds ops k). unfold lost in Hl. lia.
Qed.
End Facts.

(** C16: Usage accounting is at most once, and exact as long as no write of
    the store fails. Take any store in which an upsert that succeeds adds its
    count and one that fails adds it or does not, and any interleaving of reads,
    of flushes that take the buffer and of the writes of flushes still under
    way, with at most 2^63 - 1 reads in all. For every tenant and field, the reads
    recorded are those waiting in the buffer, those a flush has yet to write,
    those in the store and those lost, and at most the counts of the buckets
    whose upsert failed are lost; none is counted twice. What [GetFieldUsage]
    answers a caller without a time window is the part in the store; and after
    a [Flush] that reports no error, with no other under way, it is every read
    recorded but those lost before. *)
Theorem usage_counts_exact {S : Type} `{UsageStoreOk S} `{PendingRangeOk} svc (s0 : S) ops :
  us_inv s0 → (∀ k, us_total s0 k = 0) → all_reads ops ≤ max_int64 →
  let u := urun s0 ops in
  (∀ k, 0 ≤ recorded ops k - pend (ut_pending u) k - in_flight u k - us_total (ut_store u) k ≤ failed u k)
  ∧ (∀ ctx req r, fr_StartTime req = None → fr_EndTime req = None →
      AuditService.GetFieldUsage svc ctx req (ut_store u) = Ok r →
      pu_ReadCount r = us_total (ut_store u) (pu_TenantId r, fr_FieldPath req))
  ∧ (∀ err r s, Forall (λ l, l = []) (ut_flights u) →
     Flush (Some (ut_pending u)) (ut_store u) = (err, r, s) → r = Some ∅
     ∧ (err = None → ∀ ctx req resp, fr_StartTime req = None → fr_EndTime req = None →
          AuditService.GetFieldUsage svc ctx req s = Ok resp →
          let k := (pu_TenantId resp, fr_FieldPath req) in
          recorded ops k - failed u k ≤ pu_ReadCount resp ≤ recorded ops k)).
Proof.
  intros Hi0 Hz Hm u. pose proof (conj Hi0 Hz) as Hs0. pose proof (usage_ok_run s0 Hs0 ops Hm) as Hu. fold u in Hu. split_and!.
  - apply Hu.
  - intros ctx req r E1 E2 E. apply (field_usage_total svc ctx); [apply Hu|by apply stored_bound|done..].
  - intros err r s Hf Efl. destruct (flush_run s0 ops err r s Efl) as (-> & Es & Ep & Ef & Hfail).
    fold u in Es, Ep, Ef, Hfail. split; [done|]. intros ->. specialize (Hfail eq_refl).
    intros ctx req resp E1 E2 E k. set (ops' := ops ++ flush_ops u) in *.
    assert (ops' ≫= op_keys = ops ≫= op_keys) as Ek.
    { unfold ops'. by rewrite bind_app, flush_keys, app_nil_r. }
    assert (all_reads ops' ≤ max_int64) as Hm' by (unfold all_reads; by rewrite Ek).
    pose proof (usage_ok_run s0 Hs0 ops' Hm') as Hu'. rewrite <-Es in E.
    rewrite (field_usage_total svc ctx req _ resp (uo_store _ _ Hu') (stored_bound s0 Hs0 ops' _ Hm') E1 E2 E).
    pose proof (uo_lost _ _ Hu' k) as Hl. unfold lost, failed in Hl. rewrite Hfail in Hl.
    rewrite in_flight_none, Ep in Hl by (rewrite Ef; apply Forall_app; by repeat constructor).
    assert (recorded ops k = recorded ops' k) as -> by (unfold recorded; by rewrite Ek).
    unfold pend in Hl. rewrite lookup_empty in Hl. fold k. unfold failed. cbn in Hl. lia.
Qed.

(** *** The in-memory store *)
Section Memory.
Context `{Clock, SortSlice, MapRange}.
Definition stat_count (k : usageKey) (st : UsageStat) : Z :=
  if decide ((us_TenantID st, us_FieldPath st) = k) then us_ReadCount st else 0.
Definition stored (s : MemoryStore) (k : usageKey) : Z := zsum (stat_count k) (usageStats s).
Lemma stat_count_nonneg k st : 0 ≤ us_ReadCount st → 0 ≤ stat_count k st.
Proof. intros. unfold stat_count. case_decide; lia. Qed.

Lemma upsert_sum arg stats k :
  Forall (λ st, 0 ≤ us_ReadCount st) stats →
  0 ≤ up_ReadCount arg →
  zsum (stat_count (up_TenantID arg, up_FieldPath arg)) stats + up_ReadCount arg ≤ max_int64 →
  zsum (stat_count k) (upsert arg stats)
    = zsum (stat_count k) stats
      + (if decide ((up_TenantID arg, up_FieldPath arg) = k) then up_ReadCount arg else 0)
  ∧ Forall (λ st, 0 ≤ us_ReadCount st) (upsert arg stats).
Proof.
  intros Hf Ha. induction Hf as [|st stats Hst Hf IH]; intros Hb; cbn [upsert].
  { split; [unfold zsum, stat_count; simpl; lia|by repeat constructor]. }
  assert (0 ≤ zsum (stat_count (up_TenantID arg, up_FieldPath arg)) stats) as Hn.
  { apply zsum_nonneg. eapply Forall_impl; [exact Hf|]. intros x. apply stat_count_nonneg. }
  destruct (_ && _ && _) eqn:E.
  - apply andb_true_iff in E as [[Et%bool_decide_eq_true Ef%bool_decide_eq_true]%andb_true_iff _].
    rewrite zsum_cons in Hb. unfold stat_count at 1 in Hb. rewrite Et, Ef, decide_True in Hb by done.
    assert (int64 (us_ReadCount st + up_ReadCount arg) = us_ReadCount st + up_ReadCount arg) as Ei.
    { apply int64_id. unfold min_int64, max_int64 in *. lia. }
    rewrite Ei. split; [|constructor; [simpl; lia|done]].
    rewrite !zsum_cons. unfold stat_count at 1 3. cbn [us_TenantID us_FieldPath us_ReadCount].
    rewrite Et, Ef. case_decide; lia.
  - rewrite zsum_cons in Hb. destruct IH as [IH1 IH2].
    { unfold stat_count at 1 in Hb. case_decide; lia. }
    split; [|by constructor]. rewrite !zsum_cons, IH1. lia.
Qed.
Lemma filtered_sum t f stats :
  zsum us_ReadCount (filter (λ st, us_TenantID st = t ∧ us_FieldPath st = f
                                   ∧ in_window None None (us_PeriodStart st) = true) stats)
  = zsum (stat_count (t, f)) stats.
Proof.
  induction stats as [|st stats IH]; [done|]. rewrite filter_cons, zsum_cons.
  unfold stat_count at 1. repeat case_decide; rewrite ?zsum_cons, IH; try lia; naive_solver.
Qed.

#[global] Instance memory_usage_ok : UsageStoreOk MemoryStore.
Proof.
  refine {| us_inv s := Forall (λ st, 0 ≤ us_ReadCount st) (usageStats s); us_total := stored |}.
  - intros s k Hf. apply zsum_nonneg. eapply Forall_impl; [exact Hf|]. intros x. apply stat_count_nonneg.
  - intros arg s r s' Hf Ha Hb [= <- <-]. split; [by apply (upsert_sum arg _ (up_key arg))|left].
    intros k. by apply (upsert_sum arg (usageStats s) k).
  - intros s t f stats Hf E. cbn in E. injection E as <-. split; [|apply filtered_sum].
    apply Forall_forall. intros x [_ Hx]%list_elem_of_filter. rewrite Forall_forall in Hf. by apply Hf.
Defined.
End Memory.
End UsageFacts.

(** ** Paging through the log *)
Module QueryFacts.
Import AuditMemory AuditMemoryFacts.

Lemma ltb_le a b : String.ltb a b = true ↔ ¬ String.le b a.
Proof.
  unfold String.le, String.ltb, String.leb. rewrite (String.compare_antisym b a).
  destruct (String.compare a b); simpl; naive_solver.
Qed.
Lemma ltb_le_false a b : String.ltb a b = false ↔ String.le b a.
Proof.
  destruct (String.ltb a b) eqn:E; [apply ltb_le in E; naive_solver|]. split; [intros _|done].
  destruct (decide (String.le b a)) as [|Hn]; [done|]. apply ltb_le in Hn. congruence.
Qed.

Lemma newer_true a b : newer a b = true ↔
  al_CreatedAt b < al_CreatedAt a ∨ al_CreatedAt a = al_CreatedAt b ∧ ¬ String.le (al_ID a) (al_ID b).
Proof.
  unfold newer. destruct (Z.eqb_spec (al_CreatedAt a) (al_CreatedAt b)).
  - rewrite ltb_le. split; [by right|intros [?|[_ ?]]; [lia|done]].
  - rewrite Z.ltb_lt. split; [by left|intros [?|[? _]]; lia].
Qed.
Lemma newer_false a b : newer a b = false ↔
  al_CreatedAt a < al_CreatedAt b ∨ al_CreatedAt a = al_CreatedAt b ∧ String.le (al_ID a) (al_ID b).
Proof.
  unfold newer. destruct (Z.eqb_spec (al_CreatedAt a) (al_CreatedAt b)).
  - rewrite ltb_le_false. split; [by right|intros [?|[_ ?]]; [lia|done]].
  - rewrite Z.ltb_ge. split; [left; lia|intros [?|[? _]]; lia].
Qed.
Lemma newer_strict_weak : strict_weak newer.
Proof.
  split_and!.
  - intros x. apply newer_false. right. done.
  - intros x y z. rewrite !newer_true. intros [?|[??]] [?|[??]]; try (left; lia). right. split; [lia|].
    intros Hle. destruct (total String.le (al_ID x) (al_ID y)); [done|].
    destruct (total String.le (al_ID y) (al_ID z)); [done|].
    destruct (decide (al_ID y = al_ID z)) as [E|Hn]; [by rewrite E in *|]. apply Hn.
    apply (anti_symm String.le); [|done]. by trans (al_ID x).
  - intros x y z. rewrite !newer_false. intros [?|[??]] [?|[??]]; try (left; lia). right.
    split; [lia|]. by trans (al_ID y).
Qed.

Lemma after_cursor_newer e x :
  after_cursor {| Pagination.Time := al_CreatedAt e; Pagination.ID := al_ID e |} x = newer e x.
Proof.
  unfold after_cursor, newer. cbn [Pagination.Time Pagination.ID].
  destruct (Z.eqb_spec (al_CreatedAt e) (al_CreatedAt x)) as [->|Hn].
  - by rewrite Z.ltb_irrefl, Z.eqb_refl.
  - rewrite (proj2 (Z.eqb_neq _ _)) by congruence. simpl. by rewrite orb_false_r.
Qed.

(** What comes after an element of a strictly sorted list. *)
Lemma filter_after l i e :
  StronglySorted (λ a b, newer a b = true) l → l !! i = Some e →
  filter (λ x, newer e x = true) l = drop (S i) l.
Proof.
  revert i. induction l as [|a l IH]; intros i Hs Hi; [done|].
  apply StronglySorted_inv in Hs as [Hs Ha]. destruct newer_strict_weak as (Hirr & Htr & _).
  destruct i as [|i].
  - injection Hi as ->. rewrite filter_cons_False by (rewrite Hirr; done).
    cbn [drop]. rewrite drop_0. apply list_filter_all. by apply Forall_forall.
  - simpl in Hi. rewrite filter_cons_False; [by apply IH|]. intros He.
    rewrite Forall_forall in Ha. specialize (Ha e ltac:(by eapply list_elem_of_lookup_2)).
    pose proof (Htr _ _ _ He Ha) as Hc. by rewrite Hirr in Hc.
Qed.

Section Pages.
Context `{Clock, SortSliceOk, MapRange}.

(** Entries are told apart by their ids, and the instants fit a cursor. *)
Definition keyed (l : list AuditWriteLog) : Prop :=
  NoDup (al_ID <$> l) ∧ Forall (λ e, al_ID e ≠ "" ∧ min_int64 ≤ al_CreatedAt e ≤ max_int64) l.

Lemma sorted_strict l :
  NoDup (al_ID <$> l) → StronglySorted (λ a b, newer a b = true) (sort_slice newer l).
Proof.
  intros Hn. apply (StronglySorted_strict (λ a b, newer b a = false) _ al_ID).
  - intros x y Hyx Hne. apply newer_false in Hyx. apply newer_true.
    destruct Hyx as [?|[E Hle]]; [by left|right]. split; [done|]. intros Hle'. apply Hne.
    by apply (anti_symm String.le).
  - by rewrite (fmap_Permutation _ _ _ (sort_slice_perm newer l)).
  - apply sort_slice_sorted, newer_strict_weak.
Qed.

(** One page of the handler, as [Iter] fetches it. *)
Definition with_token (req : QueryWriteLogRequest) (token : string) : QueryWriteLogRequest := {|
  qr_TenantId := qr_TenantId req; qr_Actor := qr_Actor req; qr_FieldPath := qr_FieldPath req;
  qr_StartTime := qr_StartTime req; qr_EndTime := qr_EndTime req;
  qr_PageSize := qr_PageSize req; qr_PageToken := token |}.
Definition log_page (svc : Service) (ctx : Ctx) (req : QueryWriteLogRequest) (s : MemoryStore)
    (token : string) : result error (list pbAuditEntry * string) :=
  let? r := QueryWriteLog svc ctx (with_token req token) s in Ok (qs_Entries r, qs_NextPageToken r).

(** The filter of a request for tenant [t]. *)
Definition asked (t : string) (req : QueryWriteLogRequest) (e : AuditWriteLog) : bool :=
  (bool_decide (t = "") || bool_decide (al_TenantID e = t))
  && (bool_decide (default "" (qr_Actor req) = "") || bool_decide (al_Actor e = default "" (qr_Actor req)))
  && (bool_decide (default "" (qr_FieldPath req) = "") || opt_str_eqb (al_FieldPath e) (default "" (qr_FieldPath req)))
  && in_window (qr_StartTime req) (qr_EndTime req) (al_CreatedAt e).

(** The token of the rows from the [i]-th on. *)
Definition token_at (l : list AuditWriteLog) (i : nat) : string :=
  match i with
  | O => ""
  | S i => match l !! i with
           | Some e => Pagination.EncodeCursorToken
                         {| Pagination.Time := al_CreatedAt e; Pagination.ID := al_ID e |}
           | None => ""
           end
  end.

Section Query.
Variables (svc : Service) (ctx : Ctx) (req : QueryWriteLogRequest) (s : MemoryStore) (t : string).
Hypothesis Hclaims : MustHaveClaims ctx = Ok tt.
Hypothesis Htenant : query_tenant svc ctx req = Ok t.
Hypothesis Hkeyed : keyed (writeLogs s).

Let ps : Z := Pagination.ClampPageSize (qr_PageSize req) 50 500.
Let rows : list AuditWriteLog := sort_slice newer (filter (λ e, asked t req e = true) (writeLogs s)).

Lemma page_size_bounds : 0 < ps ≤ 500.
Proof. unfold ps, Pagination.ClampPageSize. repeat case_match; bool_prop; lia. Qed.
Lemma rows_sorted : StronglySorted (λ a b, newer a b = true) rows.
Proof.
  apply sorted_strict. eapply sublist_NoDup; [apply Hkeyed|]. apply fmap_sublist, sublist_filter.
Qed.
Lemma rows_keyed e : e ∈ rows → al_ID e ≠ "" ∧ min_int64 ≤ al_CreatedAt e ≤ max_int64.
Proof.
  unfold rows. rewrite sort_slice_perm. intros [_ He]%list_elem_of_filter.
  destruct Hkeyed as [_ Hf]. rewrite Forall_forall in Hf. by apply Hf.
Qed.

(** How the token of the [i]-th row is read, and what the store then keeps. *)
Lemma token_at_decodes i :
  (i = 0 ∨ i < length rows)%nat →
  ∃ kind cur, Pagination.DecodeTokenKind (token_at rows i) = Ok (kind, 0, cur)
    ∧ kind ≠ Pagination.KindOffset
    ∧ match kind with
      | Pagination.KindCursor => filter (λ e, after_cursor cur e = true) rows
      | _ => drop 0 rows
      end = drop i rows.
Proof.
  intros Hi. destruct i as [|i]; [by exists Pagination.KindFirst, Pagination.zero_cursor|].
  destruct (lookup_lt_is_Some_2 rows i) as [e He]; [lia|].
  pose proof (rows_keyed e ltac:(by eapply list_elem_of_lookup_2)) as [Hid Ht].
  eexists Pagination.KindCursor, _. cbn [token_at]. rewrite He.
  split_and!; [by apply Pagination.DecodeTokenKind_cursor|done|].
  rewrite <-(filter_after rows i e); [|apply rows_sorted|done].
  apply list_filter_iff. intros x. by rewrite after_cursor_newer.
Qed.

(** One more row than the page has is read. *)
Lemma query_rows kind cur i params :
  match kind with
  | Pagination.KindCursor => filter (λ e, after_cursor cur e = true) rows
  | _ => drop 0 rows
  end = drop i rows →
  kind ≠ Pagination.KindOffset →
  sort_slice newer (filter (λ e, query_matches params e = true) (writeLogs s)) = rows →
  q_Limit params = ps + 1 → q_Offset params = 0 →
  q_Cursor params = match kind with Pagination.KindCursor => Some cur | _ => None end →
  as_QueryAuditWriteLog params s = Ok (take (Z.to_nat (ps + 1)) (drop i rows)).
Proof.
  intros Er Hk Em El Eo Ec. pose proof page_size_bounds as Hps.
  cbn [as_QueryAuditWriteLog memory_audit_store]. unfold QueryAuditWriteLog. rewrite Em, Eo, Ec, El.
  change (Z.to_nat 0) with 0%nat.
  replace (match match kind with Pagination.KindCursor => Some cur | _ => None end with
    | Some cur => filter (λ e, after_cursor cur e = true) rows | None => drop 0 rows end)
    with (drop i rows) by (by destruct kind).
  f_equal. destruct (_ && _) eqn:Hc; [done|]. rewrite take_ge; [done|].
  apply andb_false_iff in Hc as [Hc%Z.ltb_ge|Hc%Z.ltb_ge]; lia.
Qed.

(** The page at the [i]-th row, and the token of the next. *)
Lemma log_page_at i :
  (i = 0 ∨ i < length rows)%nat →
  log_page svc ctx req s (token_at rows i)
  = Ok (auditEntryToProto <$> take (Z.to_nat ps) (drop i rows),
        if bool_decide (i + Z.to_nat ps < length rows)%nat then token_at rows (i + Z.to_nat ps) else "").
Proof.
  intros Hi. pose proof page_size_bounds as Hps.
  destruct (token_at_decodes i Hi) as (kind & cur & Ed & Ek & Er).
  unfold log_page, QueryWriteLog. rewrite Hclaims. cbn [result_bind with_token qr_PageToken].
  rewrite Ed.
  change (query_tenant svc ctx (with_token req (token_at rows i))) with (query_tenant svc ctx req).
  rewrite Htenant. cbn [result_bind with_token qr_PageSize qr_Actor qr_FieldPath qr_StartTime qr_EndTime]. fold ps.
  assert (int32 (ps + 1) = ps + 1) as -> by (apply int32_id; unfold min_int32, max_int32; lia).
  rewrite (query_rows kind cur i); [|done|done|done|done|by destruct kind|done].
  cbn [internal result_bind]. set (page := take (Z.to_nat (ps + 1)) (drop i rows)).
  assert (Z.of_nat (length page) = Z.min (ps + 1) (Z.of_nat (length rows) - Z.of_nat i)) as Hlen.
  { unfold page. rewrite length_take, length_drop. destruct Hi as [->|Hi]; lia. }
  rewrite int32_id by (unfold min_int32, max_int32; lia). cbn [qs_Entries qs_NextPageToken].
  assert ((if ps <? Z.of_nat (length page) then take (Z.to_nat ps) page else page)
          = take (Z.to_nat ps) (drop i rows)) as ->.
  { destruct (Z.ltb_spec ps (Z.of_nat (length page))); unfold page.
    - rewrite take_take. f_equal. lia.
    - rewrite !take_ge by (rewrite length_drop; lia). done. }
  do 2 f_equal.
  replace (match kind with Pagination.KindOffset => Pagination.NextPageToken ps (Z.of_nat (length page)) 0
    | _ => if ps <? Z.of_nat (length page) then _ else "" end)
    with (if ps <? Z.of_nat (length page) then
            match page !! Z.to_nat (ps - 1) with
            | Some last => Pagination.EncodeCursorToken
                {| Pagination.Time := al_CreatedAt last; Pagination.ID := al_ID last |}
            | None => "" end else "") by (by destruct kind).
  case_bool_decide as Hn; [rewrite (proj2 (Z.ltb_lt _ _)) by lia|by rewrite (proj2 (Z.ltb_ge _ _)) by lia].
  unfold page. rewrite lookup_take_lt, lookup_drop by lia.
  replace (i + Z.to_nat ps)%nat with (S (i + Z.to_nat (ps - 1))) by lia. done.
Qed.

Lemma iter_from fuel i y :
  (i = 0 ∨ i < length rows)%nat →
  Z.of_nat (length rows) < Z.of_nat i + ps * Z.of_nat fuel →
  Pagination.Iter (log_page svc ctx req s) Pagination.collect fuel (token_at rows i) y
  = Some (y ++ (auditEntryToProto <$> drop i rows)).
Proof.
  pose proof page_size_bounds as Hps. revert i y. induction fuel as [|fuel IH]; intros i y Hi Hf.
  { exfalso. destruct Hi; lia. }
  cbn [Pagination.Iter]. rewrite (log_page_at i Hi), Pagination.yield_items_collect. cbn [negb].
  destruct (bool_decide_reflect (i + Z.to_nat ps < length rows)%nat) as [Hn|Hn].
  - rewrite bool_decide_eq_false_2.
    + rewrite IH by lia. rewrite <-app_assoc, <-fmap_app. do 3 f_equal.
      rewrite <-drop_drop. apply take_drop.
    + destruct (i + Z.to_nat ps)%nat as [|j] eqn:Ej; [lia|]. cbn [token_at].
      destruct (lookup_lt_is_Some_2 rows j) as [e ->]; [lia|]. by apply Pagination.encode_nonempty.
  - rewrite bool_decide_eq_true_2 by done. rewrite take_ge; [done|]. rewrite length_drop. lia.
Qed.
End Query.
End Pages.

(** *** The ids of the in-memory store *)
Lemma str_app_inj_l (a b c : string) : a +:+ b = a +:+ c → b = c.
Proof. induction a as [|x a IH]; [done|]. rewrite !str_app_cons. intros [= E]. by apply IH. Qed.
Lemma digits_value_zeros n s : digits_value (zeros n +:+ s) 0 = digits_value s 0.
Proof. induction n as [|n IH]; [done|]. exact IH. Qed.
Lemma format_id_inj m n : 0 ≤ m → 0 ≤ n → format_id m = format_id n → m = n.
Proof.
  intros Hm Hn. unfold format_id. rewrite !(proj2 (Z.ltb_ge _ _)) by done.
  intros E%str_app_inj_l. unfold padded in E. apply (f_equal (λ s, digits_value s 0)) in E.
  by rewrite !digits_value_zeros, !digits_value_FormatUint in E.
Qed.
Lemma format_id_nonempty n : format_id n ≠ "".
Proof. unfold format_id. destruct (n <? 0); done. Qed.

Section Ids.
Context `{Clock, SortSliceOk, MapRange}.

Lemma ids_run ops :
  Z.of_nat (length ops) ≤ max_int64 →
  let s := foldl step NewMemoryStore ops in
  idCounter s = Z.of_nat (length (writeLogs s)) ∧ (length (writeLogs s) ≤ length ops)%nat
  ∧ al_ID <$> writeLogs s = (λ n, format_id (Z.of_nat n)) <$> seq 1 (length (writeLogs s)).
Proof.
  induction ops as [|op ops IH] using rev_ind; [done|]. rewrite foldl_app, length_app. cbn [foldl length].
  intros Hb. destruct (IH ltac:(lia)) as (Hc & Hl & Hi). destruct op as [arg|arg]; cbn [step].
  - cbn [as_InsertAuditWriteLog memory_audit_store InsertAuditWriteLog nextID snd writeLogs idCounter].
    rewrite length_app. cbn [length]. rewrite Hc, int64_id by (unfold min_int64, max_int64 in *; lia).
    split_and!; [lia|lia|]. rewrite Nat.add_1_r, seq_S, !fmap_app, Hi. do 2 f_equal.
    cbn [fmap list_fmap new_entry al_ID]. do 2 f_equal. lia.
  - cbn [as_UpsertUsageStats memory_audit_store UpsertUsageStats snd writeLogs idCounter].
    split_and!; [done|lia|done].
Qed.
Lemma keyed_run ops :
  Z.of_nat (length ops) ≤ max_int64 → (∀ n, min_int64 ≤ clock n ≤ max_int64) →
  keyed (writeLogs (foldl step NewMemoryStore ops)).
Proof.
  intros Hb Hc. destruct (ids_run ops Hb) as (_ & _ & Hi). pose proof (log_ok_run ops) as Hok. split.
  - rewrite Hi. apply NoDup_fmap_2_strong; [|apply NoDup_seq].
    intros x y _ _ E. apply format_id_inj in E; lia.
  - apply Forall_forall. intros e He. split.
    + assert (al_ID e ∈ al_ID <$> writeLogs (foldl step NewMemoryStore ops)) as Hid
        by (by apply list_elem_of_fmap_2).
      rewrite Hi in Hid. apply list_elem_of_fmap in Hid as (n & -> & _). apply format_id_nonempty.
    + assert (al_CreatedAt e ∈ al_CreatedAt <$> writeLogs (foldl step NewMemoryStore ops)) as Ht
        by (by apply list_elem_of_fmap_2).
      rewrite (lo_times _ _ Hok) in Ht. apply list_elem_of_fmap in Ht as (n & -> & _). apply Hc.
Qed.
End Ids.

(** C17: Paging through [QueryWriteLog] of the in-memory audit store. For a
    caller who may ask, on an in-memory store filled by any sequence of at most
    2^63 - 1 appends, with a clock within 64 bits of nanoseconds, following the
    page tokens from the empty one lists every entry the request's filters select
    exactly once, newest first with the id breaking ties, and ends: any number of
    calls above the number of pages collects them all, whatever page size is asked
    for. (The queries of the PostgreSQL store
    order their first page differently and do not have this property.) *)
Theorem query_log_pages `{Clock, SortSliceOk, MapRange} svc ops ctx req t :
  let s := foldl step NewMemoryStore ops in
  Z.of_nat (length ops) ≤ max_int64 → (∀ n, min_int64 ≤ clock n ≤ max_int64) →
  MustHaveClaims ctx = Ok tt → query_tenant svc ctx req = Ok t →
  ∃ rows, StronglySorted (λ a b, newer a b = true) rows
    ∧ rows ≡ₚ filter (λ e, asked t req e = true) (writeLogs s)
    ∧ ∀ fuel, Z.of_nat (length rows) < Pagination.ClampPageSize (qr_PageSize req) 50 500 * Z.of_nat fuel →
        Pagination.Iter (log_page svc ctx req s) Pagination.collect fuel "" []
        = Some (auditEntryToProto <$> rows).
Proof.
  intros s Hb Hc Hcl Ht. pose proof (keyed_run ops Hb Hc) as Hk. fold s in Hk.
  exists (sort_slice newer (filter (λ e, asked t req e = true) (writeLogs s))).
  split_and!; [by eapply rows_sorted|apply sort_slice_perm|]. intros fuel Hf.
  rewrite <-(drop_0 (sort_slice newer _)).
  apply (iter_from svc ctx req s t Hcl Ht Hk fuel 0 []); [by left|exact Hf].
Qed.
End QueryFacts.

(** ** Who sees what *)
Module AccessFacts.
Import AuditMemory.
Section Access.
Context `{Clock, SortSliceOk, MapRange}.

(** The caller has access to the tenant, or is exempt from authentication. *)
Definition may_see (ctx : Ctx) (t : string) : Prop :=
  match ctx_claims ctx with
  | Some c => role c = RoleSuperAdmin ∨ t ∈ TenantIDs c
  | None => ctx_withoutAuth ctx = true
  end.

Lemma may_see_admin ctx t : IsSuperAdmin ctx = true → may_see ctx t.
Proof.
  unfold IsSuperAdmin, may_see. destruct (ctx_claims ctx) as [c|]; [|done].
  intros Hr%bool_decide_eq_true. by left.
Qed.
Lemma scope_guard_sees ctx t :
  t ≠ "" → Chain [TenantScopeGuard] ctx ActionRead (tenant_resource t) = Ok tt → may_see ctx t.
Proof.
  intros Hne. cbn [Chain]. unfold TenantScopeGuard, tenant_resource, may_see. cbn [res_TenantID].
  rewrite (bool_decide_eq_false_2 (t = "")) by done. rewrite bool_decide_eq_false_2 by done.
  cbn [orb]. unfold CheckTenantAccess. destruct (ctx_claims ctx) as [c|].
  - intros E. apply AuthFacts.HasTenantAccess_true. by destruct (HasTenantAccess c t).
  - by destruct (ctx_withoutAuth ctx).
Qed.

Section Service.
Variable resolver : option (string → result error string).
Hypothesis resolver_names : ∀ f x, resolver = Some f → f x ≠ Ok "".
Let svc := NewService resolver.

Lemma resolved_sees ctx name t :
  resolveTenantWithAccess svc ctx name = Ok t → t ≠ "" ∧ may_see ctx t.
Proof.
  unfold resolveTenantWithAccess. destruct (resolveTenantID svc name) as [t'|] eqn:E; [|done].
  cbn [result_bind]. destruct (sv_guard svc ctx ActionRead (tenant_resource t')) as [[]|] eqn:Eg; [|done].
  intros [= ->]. assert (t ≠ "") as Hne; [|by split; [|apply scope_guard_sees]].
  unfold resolveTenantID in E. case_bool_decide; [done|]. destruct (IsUUID name); [congruence|].
  cbn [svc NewService sv_resolveTenant] in E. destruct resolver as [f|] eqn:Er; [|done].
  destruct (f name) as [r|] eqn:Ef; [|done]. injection E as ->. intros ->. by apply (resolver_names f name).
Qed.
Lemma query_tenant_sees ctx req t :
  query_tenant svc ctx req = Ok t → MustHaveClaims ctx = Ok tt →
  (t ≠ "" ∧ may_see ctx t) ∨ ∀ t', may_see ctx t'.
Proof.
  unfold query_tenant. destruct (qr_TenantId req) as [name|]; [by intros ?%resolved_sees; left|].
  intros E Hc. right. intros t'. apply may_see_admin. unfold IsSuperAdmin, MustHaveClaims in *.
  destruct (ctx_claims ctx) as [c|]; [by destruct (claims_IsSuperAdmin c)|].
  by destruct (ctx_withoutAuth ctx).
Qed.
Lemma query_entries_of params (s : MemoryStore) l :
  as_QueryAuditWriteLog params s = Ok l → q_TenantID params ≠ "" →
  Forall (λ e, al_TenantID e = q_TenantID params) l.
Proof.
  intros [= <-] Hne. apply Forall_forall. intros e He.
  assert (e ∈ sort_slice newer (filter (λ e, query_matches params e = true) (writeLogs s))) as Hin.
  { eapply elem_of_sublist; [exact He|].
    destruct (_ && _), (q_Cursor params);
      first [etrans; [apply sublist_take|]|idtac]; first [apply sublist_filter|apply sublist_drop]. }
  rewrite sort_slice_perm in Hin. apply list_elem_of_filter in Hin as [Hm _].
  unfold query_matches in Hm. rewrite (bool_decide_eq_false_2 (q_TenantID params = "")) in Hm by done.
  rewrite !andb_true_iff in Hm. destruct Hm as (((Hm & _) & _) & _). by apply bool_decide_eq_true in Hm.
Qed.

(** The reads of a usage or chain answer are of the tenant it names. *)
Lemma field_usage_sees ctx req (s : MemoryStore) r :
  AuditService.GetFieldUsage svc ctx req s = Ok r → may_see ctx (pu_TenantId r).
Proof.
  unfold AuditService.GetFieldUsage. destruct (MustHaveClaims ctx); [|done]. cbn [result_bind].
  destruct (resolveTenantWithAccess _ _ _) as [t|] eqn:Et; [|done]. cbn [result_bind].
  apply resolved_sees in Et as [_ Hs].
  destruct (internal _ _) as [stats|]; [|done]. cbn [result_bind].
  destruct (sum_periods _ _ _ _) as [[? ?] ?]. by intros [= <-].
Qed.
Lemma tenant_usage_sees ctx req (s : MemoryStore) rs :
  AuditService.GetTenantUsage svc ctx req s = Ok rs → Forall (λ r, may_see ctx (pu_TenantId r)) rs.
Proof.
  unfold AuditService.GetTenantUsage. destruct (MustHaveClaims ctx); [|done]. cbn [result_bind].
  destruct (resolveTenantWithAccess _ _ _) as [t|] eqn:Et; [|done]. cbn [result_bind].
  apply resolved_sees in Et as [_ Hs].
  destruct (internal _ _) as [rows|]; [|done]. cbn [result_bind]. intros [= <-].
  apply Forall_fmap, Forall_forall. by intros.
Qed.
Lemma verify_sees ctx name (s : MemoryStore) r :
  VerifyChain svc ctx name s = Ok r → may_see ctx (vs_TenantId r).
Proof.
  unfold VerifyChain. destruct (MustHaveClaims ctx); [|done]. cbn [result_bind].
  destruct (if negb _ then _ else _) as [t|] eqn:Et; [|done]. cbn [result_bind].
  assert (may_see ctx t) as Hs.
  { destruct (bool_decide (name = "")); cbn [negb] in Et; [|by apply resolved_sees in Et as [_ ?]].
    destruct (IsSuperAdmin ctx) eqn:Ea; [|done]. by apply may_see_admin. }
  cbn [as_GetAuditWriteLogOrdered memory_audit_store]. cbn. by intros [= <-].
Qed.
Lemma verify_global ctx name (s : MemoryStore) r :
  VerifyChain svc ctx name s = Ok r → vs_TenantId r = "" → IsSuperAdmin ctx = true.
Proof.
  unfold VerifyChain. destruct (MustHaveClaims ctx); [|done]. cbn [result_bind].
  destruct (if negb _ then _ else _) as [t|] eqn:Et; [|done]. cbn. intros [= <-] E. cbn in E. subst t.
  destruct (bool_decide (name = "")); cbn [negb] in Et; [by destruct (IsSuperAdmin ctx)|].
  by apply resolved_sees in Et as [? _].
Qed.
Lemma query_sees ctx req (s : MemoryStore) r :
  QueryWriteLog svc ctx req s = Ok r → Forall (λ e, may_see ctx (pa_TenantId e)) (qs_Entries r).
Proof.
  unfold QueryWriteLog. destruct (MustHaveClaims ctx) as [[]|] eqn:Hc; [|done]. cbn [result_bind].
  destruct (Pagination.DecodeTokenKind _) as [[[kind offset] cursor]|]; [|done].
  destruct (query_tenant svc ctx req) as [t|] eqn:Et; [|done]. cbn [result_bind].
  set (params := {| q_TenantID := t |}).
  destruct (as_QueryAuditWriteLog params s) as [l|] eqn:Eq; [|done]. cbn [internal result_bind].
  intros [= <-]. cbn [qs_Entries]. apply Forall_fmap.
  assert (Forall (λ e, may_see ctx (al_TenantID e)) l) as Hl.
  { destruct (query_tenant_sees _ _ _ Et Hc) as [[Hne Hs]|Hs]; [|by apply Forall_forall].
    eapply Forall_impl; [by apply (query_entries_of _ _ _ Eq)|]. intros e ->. exact Hs. }
  destruct (_ <? _); [by apply Forall_take|done].
Qed.
End Service.
End Access.

(** The audit service keeps tenants apart. On the in-memory store, with a
    resolver that answers names and not the empty text, whatever a call
    answers is about tenants the caller may see: every entry of a queried
    page, the usage statistics, and the chain that is verified, the global one
    only for a superadmin. *)
Theorem audit_tenant_isolation `{Clock, SortSliceOk, MapRange} resolver ctx (s : MemoryStore) :
  (∀ f x, resolver = Some f → f x ≠ Ok "") →
  let svc := NewService resolver in
  (∀ req r, QueryWriteLog svc ctx req s = Ok r → Forall (λ e, may_see ctx (pa_TenantId e)) (qs_Entries r))
  ∧ (∀ req r, AuditService.GetFieldUsage svc ctx req s = Ok r → may_see ctx (pu_TenantId r))
  ∧ (∀ req rs, AuditService.GetTenantUsage svc ctx req s = Ok rs →
      Forall (λ r, may_see ctx (pu_TenantId r)) rs)
  ∧ (∀ name r, VerifyChain svc ctx name s = Ok r →
      may_see ctx (vs_TenantId r) ∧ (vs_TenantId r = "" → IsSuperAdmin ctx = true)).
Proof.
  intros Hr svc. split_and!.
  - intros req r. by apply query_sees.
  - intros req r. by apply field_usage_sees.
  - intros req rs. by apply tenant_usage_sees.
  - intros name r E. split; [by eapply verify_sees|]. by eapply verify_global.
Qed.
End AccessFacts.
