(* ===== verification/AuditFindings.v ===== *)
(** * The audit log on concrete inputs

    Instances of the theorems on the audit log, and what the log does not
    guarantee: the chain of the PostgreSQL stores forks without any tampering
    when the rows of a batch share an instant, its first page can make a later
    one skip an entry, and a NUL byte in a text makes two entries hash
    alike. *)
From S2P Require Import Prelude GoText GoTime Pagination Domain Auth ConfigStore MemStore Sha256 AuditChain.
From S2P Require Import AuditChainFacts AuditStore AuditStoreFacts AuditService AuditServiceFacts.
Import Auth.Auth Auth.Authz AuditChain.
Local Open Scope Z_scope.

Module AuditScenario.
Local Instance clock0 : Clock := λ n, Z.of_nat n + 1.
Local Instance sort0 : SortSlice := stable_sort.
Local Instance sort0_ok : SortSliceOk := stable_sort_ok.
Local Instance range0 : MapRange := map_to_list_range.
Local Instance pending0 : UsageRecorder.PendingRange := λ m, map_to_list m.
Local Instance pending0_ok : UsageRecorder.PendingRangeOk.
Proof. intros m. reflexivity. Qed.
Local Instance jsonb0 : AuditPg.Jsonb := λ m, m.

Definition acme : string := "11111111-1111-1111-1111-111111111111".
Definition globex : string := "22222222-2222-2222-2222-222222222222".
Definition change (tenant field : string) (old new : option string) : InsertAuditWriteLogParams := {|
  au_TenantID := tenant; au_Actor := "alice"; au_Action := "set_field"; au_ObjectKind := "";
  au_FieldPath := Some field; au_OldValue := old; au_NewValue := new;
  au_ConfigVersion := Some 1; au_Metadata := None |}.

(** Two entries of [acme] around one of [globex]. *)
Definition ops : list AuditMemoryFacts.audit_op :=
  [AuditMemoryFacts.OpInsert (change acme "name" None (Some "a"));
   AuditMemoryFacts.OpInsert (change globex "name" None (Some "g"));
   AuditMemoryFacts.OpInsert (change acme "name" (Some "a") (Some "b"))].
Definition store : AuditMemory.MemoryStore := foldl AuditMemoryFacts.step AuditMemory.NewMemoryStore ops.
Definition log : list AuditWriteLog := of_tenant acme (AuditMemory.writeLogs store).
(** [log] with the new value of its first entry replaced. *)
Definition edited : list AuditWriteLog :=
  match log with
  | [a; b] => [{| al_ID := al_ID a; al_TenantID := al_TenantID a; al_Actor := al_Actor a;
                  al_Action := al_Action a; al_ObjectKind := al_ObjectKind a;
                  al_FieldPath := al_FieldPath a; al_OldValue := al_OldValue a; al_NewValue := Some "z";
                  al_ConfigVersion := al_ConfigVersion a; al_Metadata := al_Metadata a;
                  al_PreviousHash := al_PreviousHash a; al_EntryHash := al_EntryHash a;
                  al_ChainEpoch := al_ChainEpoch a; al_CreatedAt := al_CreatedAt a |}; b]
  | l => l
  end.
Definition ok_result {A} (d : A) (r : result error A) : A := match r with Ok a => a | Err _ => d end.
Definition no_result : VerifyResult := {| vr_TenantID := ""; vr_Total := 0; vr_Breaks := []; vr_OK := false |}.
Definition verified (l : list AuditWriteLog) : VerifyResult := ok_result no_result (VerifyChain (Ok l) acme).

Lemma advancing0 : AuditMemoryFacts.advancing.
Proof. intros m n Hmn. unfold clock, clock0. lia. Qed.

Lemma tamper_evident_witness :
  (∃ b, b ∈ vr_Breaks (verified edited) ∧ cb_Position b = 0%nat) ∨ collision log edited.
Proof.
  destruct (tamper_evident log acme (verified log)) as [_ Hedit].
  - repeat constructor; vm_compute; done.
  - reflexivity.
  - vm_compute. reflexivity.
  - destruct (log !! 0%nat) as [e1|] eqn:E1; [|vm_compute in E1; discriminate].
    destruct (edited !! 0%nat) as [e2|] eqn:E2; [|vm_compute in E2; discriminate].
    apply (Hedit edited (verified edited) 0%nat e1 e2).
    + reflexivity.
    + vm_compute. reflexivity.
    + exact E1.
    + exact E2.
    + apply (inj Some) in E1, E2. vm_compute in E1, E2. subst. vm_compute. discriminate.
Defined.

Lemma memory_log_verifies_witness :
  ∃ l, as_GetAuditWriteLogOrdered acme store = Ok l ∧ length l = 2%nat
    ∧ vr_OK (verified l) = true.
Proof.
  destruct (AuditMemoryFacts.memory_log_verifies ops acme advancing0) as (l & Hl & Hf & _ & Hv).
  exists l. split; [exact Hl|]. split; [by apply (f_equal length) in Hf; rewrite !length_fmap in Hf|].
  rewrite Hl in Hv. unfold verified. by rewrite Hv.
Defined.

(** An append, then a batch of two, each row later than the one before. *)
Definition pg_ops : list AuditPgFacts.pg_op :=
  [AuditPgFacts.PgInsert "aaaaaaaa" 1000 (change acme "name" None (Some "a"));
   AuditPgFacts.PgBulk acme
     [("cccccccc", 5000, change acme "x" None (Some "1")); ("dddddddd", 5500, change acme "y" None (Some "2"))]].
Definition table : list AuditWriteLog := foldl AuditPgFacts.step [] pg_ops.

Lemma of_tenant_table t : of_tenant t table = if decide (acme = t) then table else [].
Proof.
  assert (Forall (λ e, al_TenantID e = acme) table) as Hf by (vm_compute; repeat constructor).
  case_decide as E; [subst; by apply AuditPgFacts.of_tenant_all|by apply (AuditPgFacts.of_tenant_none acme)].
Qed.
Lemma pg_log_verifies_witness :
  AuditPg.GetAuditWriteLogOrdered acme table = Some (AuditPg.read_back <$> of_tenant acme table)
  ∧ vr_OK (verified (AuditPg.read_back <$> of_tenant acme table)) = true.
Proof.
  destruct (AuditPgFacts.pg_log_verifies) as [_ Hpg].
  destruct (Hpg pg_ops acme) as (Ho & r & Hv & Hok & _).
  - repeat constructor.
  - intros t. change (foldl AuditPgFacts.step [] pg_ops) with table. rewrite of_tenant_table.
    destruct (decide (acme = t)); [|constructor].
    vm_compute. repeat constructor.
  - apply Forall_forall. intros e _. unfold AuditPgFacts.metadata_ok. by destruct (al_Metadata e).
  - change (foldl AuditPgFacts.step [] pg_ops) with table. rewrite of_tenant_table.
    rewrite decide_True by done. apply (bool_decide_unpack _). vm_compute. reflexivity.
  - split; [exact Ho|]. unfold verified.
    change (foldl AuditPgFacts.step [] pg_ops) with table in Hv. by rewrite Hv.
Defined.

(** Two reads of a field, of which a flush took the first. *)
Definition usage_ops : list UsageFacts.usage_op :=
  [UsageFacts.URead 7 acme "name" None; UsageFacts.USwap; UsageFacts.URead 8 acme "name" None;
   UsageFacts.UWrite 0].
Definition superadmin : Ctx :=
  mkCtx (Some {| Subject := "root"; role := RoleSuperAdmin; TenantIDs := [] |}) false None.
Definition user : Ctx :=
  mkCtx (Some {| Subject := "alice"; role := RoleUser; TenantIDs := [acme] |}) false None.
Definition svc : Service := NewService None.

Definition name_usage : GetFieldUsageRequest :=
  {| fr_TenantId := acme; fr_FieldPath := "name"; fr_StartTime := None; fr_EndTime := None |}.

Definition used : UsageFacts.usage_state (S := AuditMemory.MemoryStore) := UsageFacts.urun AuditMemory.NewMemoryStore usage_ops.
Lemma usage_counts_exact_witness :
  UsageFacts.recorded usage_ops (acme, "name") = 2
  ∧ UsageFacts.us_total (UsageFacts.ut_store used) (acme, "name") = 1
  ∧ ∃ s, UsageRecorder.Flush (Some (UsageFacts.ut_pending used)) (UsageFacts.ut_store used) = (None, Some ∅, s)
    ∧ ∃ r, AuditService.GetFieldUsage svc user name_usage s = Ok r ∧ pu_ReadCount r = 2.
Proof.
  destruct (UsageFacts.usage_counts_exact svc AuditMemory.NewMemoryStore usage_ops) as (_ & _ & Hfl).
  - constructor.
  - intros k. reflexivity.
  - vm_compute. discriminate.
  - split; [vm_compute; reflexivity|]. split; [vm_compute; reflexivity|].
    set (s := (UsageRecorder.Flush (Some (UsageFacts.ut_pending used)) (UsageFacts.ut_store used)).2).
    assert (UsageRecorder.Flush (Some (UsageFacts.ut_pending used)) (UsageFacts.ut_store used) = (None, Some ∅, s)) as Ef
      by (vm_compute; reflexivity).
    destruct (Hfl None (Some ∅) s ltac:(vm_compute; repeat constructor) Ef) as [_ Hs].
    exists s. split; [exact Ef|]. destruct (AuditService.GetFieldUsage svc user name_usage s) as [r|err] eqn:Er.
    + exists r. split; [reflexivity|]. specialize (Hs eq_refl user name_usage r eq_refl eq_refl Er).
      assert (pu_TenantId r = acme) as Et by (vm_compute in Er; injection Er as <-; reflexivity).
      rewrite Et in Hs.
      assert (UsageFacts.recorded usage_ops (acme, fr_FieldPath name_usage) = 2) as E2 by (vm_compute; reflexivity).
      assert (UsageFacts.failed used (acme, fr_FieldPath name_usage) = 0) as E3 by (vm_compute; reflexivity).
      change (UsageFacts.urun AuditMemory.NewMemoryStore usage_ops) with used in Hs.
      cbn zeta in Hs. rewrite E2, E3 in Hs. lia.
    + exfalso. vm_compute in Er. discriminate Er.
Defined.

Definition all_of_acme : QueryWriteLogRequest := {|
  qr_TenantId := Some acme; qr_Actor := None; qr_FieldPath := None; qr_StartTime := None;
  qr_EndTime := None; qr_PageSize := 1; qr_PageToken := "" |}.
(** The clock of a short run. *)
Local Instance clock1 : Clock := λ n, Z.of_nat n `mod` 1000.
Lemma query_log_pages_witness :
  ∃ rows, rows ≡ₚ filter (λ e, QueryFacts.asked acme all_of_acme e = true)
                    (AuditMemory.writeLogs (foldl AuditMemoryFacts.step AuditMemory.NewMemoryStore ops))
    ∧ Pagination.Iter (QueryFacts.log_page svc user all_of_acme
          (foldl AuditMemoryFacts.step AuditMemory.NewMemoryStore ops)) Pagination.collect 3 "" []
      = Some (auditEntryToProto <$> rows).
Proof.
  destruct (QueryFacts.query_log_pages svc ops user all_of_acme acme) as (rows & _ & Hp & Hit).
  - vm_compute. discriminate.
  - intros n. unfold clock, clock1. pose proof (Z.mod_pos_bound (Z.of_nat n) 1000).
    unfold min_int64, max_int64. lia.
  - reflexivity.
  - vm_compute. reflexivity.
  - exists rows. split; [exact Hp|]. apply Hit. apply Permutation_length in Hp. rewrite Hp.
    vm_compute. reflexivity.
Defined.

Definition first_page : QueryWriteLogResponse :=
  ok_result {| qs_Entries := []; qs_NextPageToken := "" |} (QueryWriteLog svc user all_of_acme store).
Lemma audit_tenant_isolation_witness :
  length (qs_Entries first_page) = 1%nat
  ∧ Forall (λ e, AccessFacts.may_see user (pa_TenantId e)) (qs_Entries first_page).
Proof.
  split; [vm_compute; reflexivity|].
  refine (proj1 (AccessFacts.audit_tenant_isolation None user store _) all_of_acme first_page _).
  - intros f x Hf. discriminate Hf.
  - vm_compute. reflexivity.
Defined.

(** ** What is not guaranteed *)

(** A batch of two rows within one microsecond, the first with the larger id,
    and a later append: the append takes the digest of the first row of the
    batch for the latest, so two rows follow it, and [VerifyChain] reports
    breaks in a log nobody touched. *)
Definition fork_ops : list AuditPgFacts.pg_op :=
  [AuditPgFacts.PgBulk acme
     [("dddddddd", 5000, change acme "x" None (Some "1")); ("cccccccc", 5400, change acme "y" None (Some "2"))];
   AuditPgFacts.PgInsert "eeeeeeee" 9000 (change acme "name" None (Some "a"))].
Definition forked : list AuditWriteLog := foldl AuditPgFacts.step [] fork_ops.
Definition forked_result : VerifyResult :=
  verified (default [] (AuditPg.GetAuditWriteLogOrdered acme forked)).
Theorem pg_chain_forks :
  al_PreviousHash <$> forked !! 2%nat = al_EntryHash <$> forked !! 0%nat
  ∧ vr_OK forked_result = false ∧ length (vr_Breaks forked_result) = 2%nat.
Proof. vm_compute. done. Qed.

(** The first page of the PostgreSQL store orders by the instant alone, the
    next by (instant, id): of two rows of one instant the first page may show
    the one with the smaller id, and the page after its cursor then leaves out
    the other. *)
Definition page_params (cursor : option Pagination.PageCursor) : QueryWriteLogParams := {|
  q_TenantID := acme; q_Actor := ""; q_FieldPath := ""; q_StartTime := None; q_EndTime := None;
  q_Limit := 2; q_Offset := 0; q_Cursor := cursor |}.
Definition twins : list AuditWriteLog :=
  AuditPg.BulkInsertAuditWriteLog
    [("cccccccc", 5000, change acme "x" None (Some "1")); ("dddddddd", 5400, change acme "y" None (Some "2"))] [].
Theorem pg_pages_skip_entry :
  al_ID <$> AuditPg.QueryAuditWriteLog (page_params None) twins = ["cccccccc"; "dddddddd"]
  ∧ AuditPg.QueryAuditWriteLog
      (page_params (Some {| Pagination.Time := 5000; Pagination.ID := "cccccccc" |})) twins = [].
Proof. vm_compute. done. Qed.

(** A NUL byte in a value moves the border between two values: the entries
    differ in both and hash alike. *)
Definition nul_input (old new : string) : ChainInput := {|
  ci_PreviousHash := ""; ci_ID := "i"; ci_TenantID := acme; ci_Actor := "alice"; ci_Action := "set_field";
  ci_ObjectKind := "field"; ci_CreatedAt := 1; ci_Epoch := 1; ci_FieldPath := None;
  ci_OldValue := Some old; ci_NewValue := Some new; ci_ConfigVersion := None; ci_Metadata := None |}.
Theorem nul_hides_edit :
  ComputeEntryHash (nul_input ("b" +:+ NUL +:+ SOH +:+ "c") "d")
  = ComputeEntryHash (nul_input "b" ("c" +:+ NUL +:+ SOH +:+ "d")).
Proof. unfold ComputeEntryHash. f_equal. Qed.
End AuditScenario.
