(* ===== verification/ConfigService.v ===== *)
(** * The config service ([internal/config/service.go])

    Every RPC handler of the service, over interfaces for what it depends on:
    the store, the two caches, the publisher and the validator factory. A
    handler threads the [World] of those components; the tx
    bodies thread the validators and the transaction's store. Logging and
    metrics are left out; a usage recorder's calls are kept in [w_reads]. *)
From S2P Require Import Prelude GoText GoTime Domain Convert Auth Cache Pagination PubSub.
From S2P Require Import CrossField Validation ValidatorFactory ConfigYaml ConfigStore MemStore.
Import Convert Auth Authz.

(** ** Interfaces *)

(** Any config store can serve the validator factory. *)
Global Instance config_schema_store {S} `{Store S} : SchemaStore S := {|
  ss_GetTenantByID := GetTenantByID;
  ss_GetSchemaVersion := GetSchemaVersion;
  ss_GetSchemaFields := GetSchemaFields
|}.

(** Which of two concurrent failures an [errgroup] reports. *)
Class Sched := second_failed_first : bool.

(** The cap on the total cost of CEL rules ([aggregateCostCap()]). *)
Class CelCap := cel_cap : Z.

(** ** The service's state and settings *)
Record World (S C I P V : Type) := mkWorld {
  w_store : S; w_cache : C; w_idem : I; w_pub : P; w_val : V;
  w_reads : list (string * list string * option string);
  w_ticks : nat }.
Arguments mkWorld {S C I P V}.
Arguments w_store {S C I P V}.
Arguments w_cache {S C I P V}.
Arguments w_idem {S C I P V}.
Arguments w_pub {S C I P V}.
Arguments w_val {S C I P V}.
Arguments w_reads {S C I P V}.
Arguments w_ticks {S C I P V}.

Record Limits := { MaxListLen : Z; MaxDocBytes : Z; MaxFieldValueBytes : Z }.
Definition DefaultLimits : Limits :=
  {| MaxListLen := 1000; MaxDocBytes := 5 * 1024 * 1024; MaxFieldValueBytes := 1 * 1024 * 1024 |}.

(** The optional dependencies: the booleans say whether they are wired. *)
Record Service (S : Type) := mkService {
  svc_validators : bool; svc_idempotency : bool; svc_recorder : bool;
  svc_guard : S → Guard; svc_limits : Limits }.
Arguments mkService {S}.
Arguments svc_validators {S}.
Arguments svc_idempotency {S}.
Arguments svc_recorder {S}.
Arguments svc_guard {S}.
Arguments svc_limits {S}.

(** [NewService]: without [WithGuard], the default chain. *)
Definition NewService {S} `{Store S} (validators idempotency recorder : bool)
    (guard : option (S → Guard)) (limits : option Limits) : Service S :=
  mkService validators idempotency recorder
    (match guard with
     | Some g => g
     | None => λ s, Chain [TenantScopeGuard; RolePolicyGuard;
                           FieldLockGuard (λ t, GetFieldLocks t s)]
     end)
    (default DefaultLimits limits).

Definition defaultCacheTTL : Z := 5 * Minute.
Definition negativeCacheTTL : Z := 30 * Second.
Definition idempotencyKeyTTL : Z := 24 * Hour.

(** ** Messages *)
Record pbConfigValue := {
  pv_FieldPath : string; pv_Value : option TypedValue; pv_Checksum : string;
  pv_Description : option string }.
Record pbConfig := { pc_TenantId : string; pc_Version : Z; pc_ConfigValues : list pbConfigValue }.

Record GetConfigRequest := {
  gc_TenantId : string; gc_Version : option Z; gc_IncludeDescriptions : bool }.
Record GetFieldRequest := {
  gf_TenantId : string; gf_FieldPath : string; gf_Version : option Z; gf_IncludeDescription : bool }.
Record GetFieldsRequest := {
  gfs_TenantId : string; gfs_FieldPaths : list string; gfs_Version : option Z;
  gfs_IncludeDescriptions : bool }.
Record SetFieldRequest := {
  sf_TenantId : string; sf_FieldPath' : string; sf_Value : option TypedValue;
  sf_ExpectedChecksum : option string; sf_Description' : option string;
  sf_ValueDescription : option string; sf_IdempotencyKey : option string }.
Record FieldUpdate := {
  fu_FieldPath : string; fu_Value : option TypedValue; fu_ExpectedChecksum : option string;
  fu_ValueDescription : option string }.
Record SetFieldsRequest := {
  sfs_TenantId : string; sfs_Updates : list FieldUpdate; sfs_Description : option string;
  sfs_IdempotencyKey : option string }.
(** Both write responses: the version, absent in the answer to a replay. *)
Record SetFieldResponse := { resp_ConfigVersion : option pbConfigVersion }.
Record ListVersionsRequest := { lv_TenantId : string; lv_PageSize : Z; lv_PageToken : string }.
Record ListVersionsResponse := { lvr_Versions : list pbConfigVersion; lvr_NextPageToken : string }.
Record GetVersionRequest := { gv_TenantId : string; gv_Version : Z }.
Record DiffVersionsRequest := { dv_TenantId : string; dv_FromVersion : Z; dv_ToVersion : Z }.
Record RollbackToVersionRequest := {
  rb_TenantId : string; rb_Version : Z; rb_Description : option string }.
Record SubscribeRequest := {
  sub_TenantId : string; sub_FieldPaths : list string; sub_StartVersion : option Z }.
Record ConfigChange := {
  ch_TenantId : string; ch_Version : Z; ch_FieldPath : string; ch_OldValue : option TypedValue;
  ch_NewValue : option TypedValue; ch_ChangedBy : string; ch_ChangedAt : Timestamp }.
Record ExportConfigRequest := {
  ex_TenantId : string; ex_Version : option Z; ex_SpecVersion : option string }.
Inductive ImportMode :=
| IMPORT_MODE_UNSPECIFIED | IMPORT_MODE_MERGE | IMPORT_MODE_REPLACE | IMPORT_MODE_DEFAULTS.
Record ImportConfigRequest := {
  im_TenantId : string; im_YamlContent : string; im_Description : option string;
  im_Mode : ImportMode }.

(** A write's record for audit and events. *)
Record changeRecord := { cg_fieldPath : string; cg_oldValue : string; cg_newValue : string }.

(** ** Schema attributes *)
Record fieldWriteAttrs := { wa_ReadOnly : bool; wa_WriteOnce : bool }.
Record schemaFieldSets := {
  Sensitive : gmap string bool; WriteAttrs : gmap string fieldWriteAttrs }.

Definition is_sensitive (m : gmap string bool) (p : string) : bool := default false (m !! p).

(** The pass over the schema fields. *)
Definition field_sets (fields : list SchemaField) : schemaFieldSets :=
  foldl (λ sets f,
      {| Sensitive :=
           if sf_Sensitive f then <[sf_Path f := true]> (Sensitive sets) else Sensitive sets;
         WriteAttrs :=
           if sf_ReadOnly f || sf_WriteOnce f
           then <[sf_Path f := {| wa_ReadOnly := sf_ReadOnly f; wa_WriteOnce := sf_WriteOnce f |}]>
                  (WriteAttrs sets)
           else WriteAttrs sets |})
    {| Sensitive := ∅; WriteAttrs := ∅ |} fields.

Definition sensitive_set (fields : list SchemaField) : gmap string bool :=
  foldl (λ m f, if sf_Sensitive f then <[sf_Path f := true]> m else m) ∅ fields.

Definition checkWriteAttributes (fieldPath : string) (attrs : fieldWriteAttrs)
    (currentValue : string) : result error unit :=
  if wa_ReadOnly attrs
  then Err (Status FailedPrecondition "field %s is read-only and cannot be modified" [AStr fieldPath])
  else if wa_WriteOnce attrs && negb (bool_decide (currentValue = ""))
  then Err (Status FailedPrecondition "field %s is write-once and already has a value" [AStr fieldPath])
  else Ok tt.

(** ** Errors *)
Definition errToStatus (notFoundMsg failedMsg : string) (e : error) : error :=
  if is_NotFound e then Status0 NotFound notFoundMsg else Status0 Internal failedMsg.

Definition mapDependentRequiredErr (e : error) (fallback : error) : error :=
  match as_crossField e with
  | Some inner => Status InvalidArgument "%v" [AErr inner]
  | None => fallback
  end.

(** How [SetField] and [SetFields] report a failed transaction, and how
    [RollbackToVersion] and [ImportConfig] do. *)
Definition set_tx_error (conflict failed : string) (e : error) : error :=
  if is_VersionConflict e then Status0 Aborted conflict
  else match status_FromError e with
       | Some st => st
       | None => mapDependentRequiredErr e (Status0 Internal failed)
       end.
Definition tx_error (conflict failed : string) (e : error) : error :=
  if is_VersionConflict e then Status0 Aborted conflict
  else mapDependentRequiredErr e (Status0 Internal failed).

(** [retryOnVersionConflict] with [n] retries left; sleeping is left out. *)
Fixpoint retryOnVersionConflict {St A} (n : nat) (fn : ST St A) : ST St A := λ st,
  match n with
  | O => fn st
  | S n =>
      match fn st with
      | (Err e, st') => if is_VersionConflict e then retryOnVersionConflict n fn st' else (Err e, st')
      | r => r
      end
  end.
Definition versionConflictBackoffs : list Z := [Millisecond; 5 * Millisecond; 25 * Millisecond]%Z.

Definition lookupFieldType (types : option (gmap string FieldType)) (fieldPath : string) : FieldType :=
  match types with
  | Some types => default FieldTypeString (types !! fieldPath)
  | None => FieldTypeString
  end.

Definition getActor (ctx : Ctx) : string :=
  match ctx_claims ctx with
  | None => "unknown"
  | Some c => Subject c
  end.
Definition actorPtr (ctx : Ctx) : option string :=
  let actor := getActor ctx in
  if bool_decide (actor = "unknown") then None else Some actor.

Definition aggregatedFailureError (failed : list Cel.FailedRule) : error :=
  Join ((λ f, Errorf "validations[%d]: %s" [AInt (Cel.fr_Index f); AStr (Cel.fr_Message f)]) <$> failed).

Definition pbFieldTypeMap (m : option (gmap string FieldType)) : gmap string pbFieldType :=
  match m with None => ∅ | Some m => ToProto <$> m end.

(** ** Handlers *)
Section service.
Context {S C I P V : Type}.
Context `{Store S, ConfigCache C error, IdempotencyCache I error, Publisher P, Validators V}.
Context `{XXHash, MapRange, Clock, Sched, CelCap, FloatOverflow, YamlLib}.
Context (svc : Service S).

Local Abbreviation M := (ST (World S C I P V)).
Local Abbreviation Tx := (ST (V * S)).

(** *** Access to the components *)
Definition reads {A} (f : S → result error A) : M A := λ w, (f (w_store w), w).

Definition time_now : M Z := λ w,
  (Ok (clock (w_ticks w)),
   mkWorld (w_store w) (w_cache w) (w_idem w) (w_pub w) (w_val w) (w_reads w)
     (Datatypes.S (w_ticks w))).

Definition with_cache {A} (f : C → A * C) : M A := λ w,
  let '(a, c) := f (w_cache w) in
  (Ok a, mkWorld (w_store w) c (w_idem w) (w_pub w) (w_val w) (w_reads w) (w_ticks w)).

Definition with_idem {A} (f : I → A * I) : M A := λ w,
  let '(a, i) := f (w_idem w) in
  (Ok a, mkWorld (w_store w) (w_cache w) i (w_pub w) (w_val w) (w_reads w) (w_ticks w)).

Definition with_pub {A} (f : P → A * P) : M A := λ w,
  let '(a, p) := f (w_pub w) in
  (Ok a, mkWorld (w_store w) (w_cache w) (w_idem w) p (w_val w) (w_reads w) (w_ticks w)).

Definition with_val {A} (f : V → result error A * V) : M A := λ w,
  let '(r, v) := f (w_val w) in
  (r, mkWorld (w_store w) (w_cache w) (w_idem w) (w_pub w) v (w_reads w) (w_ticks w)).

Definition RecordReads (tenantID : string) (paths : list string) (actor : option string) : M unit :=
  λ w,
  (Ok tt, mkWorld (w_store w) (w_cache w) (w_idem w) (w_pub w) (w_val w)
            (if svc_recorder svc then w_reads w ++ [(tenantID, paths, actor)] else w_reads w)
            (w_ticks w)).

Definition check (ctx : Ctx) (action : Action) (r : Resource) : M unit := λ w,
  (svc_guard svc (w_store w) ctx action r, w).

(** Two goroutines of an [errgroup]: both run, one failure is reported. *)
Definition both {A B} (m1 : M A) (m2 : M B) : M (A * B) :=
  r1 ← try m1; r2 ← try m2;
  match r1, r2 with
  | Ok a, Ok b => mret (a, b)
  | Err e, Ok _ | Ok _, Err e => fail e
  | Err e1, Err e2 => fail (if second_failed_first then e2 else e1)
  end.

(** The cache's [Invalidate]; its failure is only logged. *)
Definition invalidate (tenantID : string) : M unit :=
  _ ← with_cache (cc_Invalidate tenantID); mret tt.

(** *** Tenants *)
Definition resolveTenantID (idOrName : string) : M string :=
  if bool_decide (idOrName = "") then fail (Status0 InvalidArgument "tenant id or name required")
  else if IsUUID idOrName then mret idOrName
  else
    tenant ← map_err (λ e, if is_NotFound e then Status0 NotFound "tenant not found"
                           else Status0 Internal "failed to resolve tenant")
               (reads (GetTenantByName idOrName));
    mret (tn_ID tenant).

Definition resolveTenantWithAccess (ctx : Ctx) (idOrName : string) (action : Action) : M string :=
  tenantID ← resolveTenantID idOrName;
  check ctx action {| res_TenantID := tenantID; res_FieldPath := ""; res_Value := "" |};;
  mret tenantID.

(** *** Helpers *)
Definition resolveVersion (tenantID : string) (requested : option Z) : M Z :=
  match requested with
  | Some v => mret v
  | None =>
      r ← try (reads (GetLatestConfigVersion tenantID));
      match r with
      | Ok latest => mret (cv_Version latest)
      | Err e => if is_NotFound e then mret 0%Z
                 else fail (Status0 Internal "failed to get latest version")
      end
  end.

Definition getCurrentValue (tenantID fieldPath : string) (version : Z) : M string :=
  if (version =? 0)%Z then mret ""
  else
    r ← try (reads (GetConfigValueAtVersion tenantID fieldPath version));
    match r with
    | Ok row => mret (derefString (row_Value row))
    | Err _ => mret ""
    end.

Definition fieldTypeMap (tenantID : string) : M (option (gmap string FieldType)) :=
  if negb (svc_validators svc) then mret None
  else
    validators ← map_err (λ _, Status0 Internal "validator lookup failed")
                   (with_val (GetValidators tenantID));
    mret (Some (Validation.fv_DomainFieldType <$> validators)).

Definition validateField (tenantID fieldPath : string) (value : option TypedValue) : M unit :=
  if negb (svc_validators svc) then mret tt
  else
    validators ← map_err (λ _, Status0 Internal "validator lookup failed")
                   (with_val (GetValidators tenantID));
    match validators !! fieldPath with
    | None => fail (Status InvalidArgument "field %s is not defined in the schema" [AStr fieldPath])
    | Some v =>
        match Validation.Validate v value with
        | Err e => fail (Status InvalidArgument "%v" [AErr e])
        | Ok _ => mret tt
        end
    end.

Definition fetchDependentRequiredRules (tenantID : string) :
    M (list DependentRequired.DependentRequiredEntry) :=
  if negb (svc_validators svc) then mret []
  else
    raw ← with_val (GetDependentRequired tenantID);
    mret (DependentRequired.UnmarshalDependentRequired raw).

Definition getSchemaFieldSets (tenantID : string) : M schemaFieldSets :=
  tenant ← map_err (λ _, Status0 NotFound "tenant not found") (reads (GetTenantByID tenantID));
  sv ← map_err (λ _, Status0 Internal "failed to get schema version")
         (reads (GetSchemaVersion (tn_SchemaID tenant) (tn_SchemaVersion tenant)));
  fields ← map_err (λ _, Status0 Internal "failed to get schema fields")
             (reads (GetSchemaFields (sv_ID sv)));
  mret (field_sets fields).

Definition getSensitiveFieldSetFromTenant (tenant : Tenant) : M (gmap string bool) :=
  sv ← map_err (λ _, Status0 Internal "failed to get schema version")
         (reads (GetSchemaVersion (tn_SchemaID tenant) (tn_SchemaVersion tenant)));
  fields ← map_err (λ _, Status0 Internal "failed to get schema fields")
             (reads (GetSchemaFields (sv_ID sv)));
  mret (sensitive_set fields).

Definition getSensitiveFieldSet (tenantID : string) : M (gmap string bool) :=
  tenant ← map_err (λ _, Status0 NotFound "tenant not found") (reads (GetTenantByID tenantID));
  getSensitiveFieldSetFromTenant tenant.

Definition check_attrs (sets : schemaFieldSets) (fieldPath current : string) : M unit :=
  match WriteAttrs sets !! fieldPath with
  | Some attrs => of_result (checkWriteAttributes fieldPath attrs current)
  | None => mret tt
  end.

(** The idempotency key of a write: [true] when it was claimed before. *)
Definition claimed_before (tenantID : string) (key : option string) : M bool :=
  let key := default "" key in
  if negb (bool_decide (key = "")) && svc_idempotency svc then
    now ← time_now;
    r ← with_idem (ic_Claim now (tenantID +:+ ":" +:+ key) idempotencyKeyTTL);
    match r with
    | Err _ => mret false
    | Ok first => mret (negb first)
    end
  else mret false.

Definition publishChanges (tenantID : string) (version : Z) (changes : list FieldChange)
    (actor : string) : M unit :=
  now ← time_now;
  _ ← with_pub (Publish {| ev_EventID := ""; ev_Seq := 0; ev_TenantID := tenantID;
                           ev_Version := version; ev_Changes := changes; ev_ChangedBy := actor;
                           ev_ChangedAt := now |});
  mret tt.

Definition runInTxWithRetry {A} (fn : Tx A) : M A := λ w,
  let '(r, (v, s)) :=
    retryOnVersionConflict (length versionConflictBackoffs) (RunInTx fn) (w_val w, w_store w) in
  (r, mkWorld s (w_cache w) (w_idem w) (w_pub w) v (w_reads w) (w_ticks w)).

(** *** Inside a transaction *)
Definition tx_reads {A} (f : S → result error A) : Tx A := λ '(v, s), (f s, (v, s)).
Definition tx_writes {A} (f : S → result error A * S) : Tx A := λ '(v, s),
  let '(r, s) := f s in (r, (v, s)).
Definition tx_val {A} (f : V → result error A * V) : Tx A := λ '(v, s),
  let '(r, v) := f v in (r, (v, s)).

Definition txLatestVersion (tenantID : string) : Tx Z :=
  r ← try (tx_reads (GetLatestConfigVersion tenantID));
  match r with
  | Ok latest => mret (cv_Version latest)
  | Err e => if is_NotFound e then mret 0%Z
             else fail (Status0 Internal "failed to get latest version")
  end.

Definition checkChecksumAtVersion (tenantID fieldPath expected : string) (version : Z) : Tx unit :=
  if (version =? 0)%Z then mret tt
  else
    r ← try (tx_reads (GetConfigValueAtVersion tenantID fieldPath version));
    match r with
    | Err e => if is_NotFound e then mret tt
               else fail (Status0 Internal "failed to get current value for checksum")
    | Ok row =>
        let actual := derefString (row_Checksum row) in
        if bool_decide (actual = expected) then mret tt
        else fail (Status Aborted "checksum mismatch for %s: expected %s, got %s"
                     [AStr fieldPath; AStr expected; AStr actual])
    end.

Definition tx_fieldTypeMap (tenantID : string) : Tx (option (gmap string FieldType)) :=
  if negb (svc_validators svc) then mret None
  else
    validators ← map_err (λ _, Status0 Internal "validator lookup failed")
                   (tx_val (GetValidators tenantID));
    mret (Some (Validation.fv_DomainFieldType <$> validators)).

Record celArtifacts := {
  ca_Rules : list Cel.ValidationRule; ca_Programs : list Cel.Program;
  ca_FieldTypes : option (gmap string FieldType) }.

Definition fetchCelArtifactsForTenant (tenantID : string) : Tx (option celArtifacts) :=
  if negb (svc_validators svc) then mret None
  else
    rules ← map_err (λ _, Status0 Internal "failed to load validations")
              (tx_val (GetValidations tenantID));
    match rules with
    | [] => mret None
    | _ =>
        programs ← map_err (λ _, Status0 Internal "failed to compile validations")
                     (tx_val (GetCelArtifacts tenantID));
        types ← tx_fieldTypeMap tenantID;
        mret (Some {| ca_Rules := rules; ca_Programs := programs; ca_FieldTypes := types |})
    end.

(** [tenantBinding] of the artifacts [fetchCelArtifactsForTenant] builds. *)
Definition tenantBinding (tenantID : string) : Tx Cel.TenantBinding :=
  t ← tx_reads (GetTenantByID tenantID);
  mret {| Cel.tb_ID := tn_ID t; Cel.tb_Name := tn_Name t |}.

Definition present_paths (rows : list Row) : gset string :=
  list_to_set (omap (λ r, match row_Value r with
                          | Some _ => Some (row_FieldPath r)
                          | None => None
                          end) rows).

Definition enforceCrossFieldInTx (tenantID : string) (version : Z)
    (depRules : list DependentRequired.DependentRequiredEntry) (cel : option celArtifacts) :
    Tx unit :=
  let hasDep := negb (bool_decide (length depRules = 0)) in
  let programs := match cel with Some a => ca_Programs a | None => [] end in
  let hasCEL := negb (bool_decide (length programs = 0)) in
  if negb hasDep && negb hasCEL then mret tt
  else
    rows ← map_err (Wrap "read snapshot for cross-field validation")
             (tx_reads (GetFullConfigAtVersion tenantID version));
    (if hasDep then
       of_result
         match DependentRequired.CheckDependentRequired depRules (present_paths rows) with
         | Err e => Err (crossFieldError crossFieldKindDependentRequired e)
         | Ok _ => Ok tt
         end
     else mret tt);;
    match cel with
    | Some a =>
        if hasCEL then
          tenantMeta ← map_err (Wrap "load tenant for CEL activation") (tenantBinding tenantID);
          let snapshot := (λ r, {| Cel.snap_FieldPath := row_FieldPath r;
                                   Cel.snap_Value := row_Value r |}) <$> rows in
          let act := Cel.BuildActivation snapshot (pbFieldTypeMap (ca_FieldTypes a)) tenantMeta in
          match Cel.Eval cel_cap false programs act (ca_Rules a) with
          | (_, _, Some evalErr) => fail (Wrap "evaluate validations" evalErr)
          | ([], _, None) => mret tt
          | (failed, _, None) =>
              fail (crossFieldError crossFieldKindValidation (aggregatedFailureError failed))
          end
        else mret tt
    | None => mret tt
    end.

Definition enforceDependentRequiredInTx (tenantID : string) (version : Z)
    (rules : list DependentRequired.DependentRequiredEntry) : Tx unit :=
  cel ← fetchCelArtifactsForTenant tenantID;
  enforceCrossFieldInTx tenantID version rules cel.

(** *** Reads *)
Definition must_have_claims (ctx : Ctx) : M unit := of_result (MustHaveClaims ctx).

Definition fetchAndCacheConfig (tenantID : string) (version : Z) : M (gmap string string) :=
  rows ← map_err (λ _, Status0 Internal "failed to get config")
           (reads (GetFullConfigAtVersion tenantID version));
  sensitiveFields ← getSensitiveFieldSet tenantID;
  let cacheMap : gmap string string :=
    foldl (λ m row,
        <[row_FieldPath row :=
            redactIfSensitive (is_sensitive sensitiveFields (row_FieldPath row))
              (derefString (row_Value row))]> m) ∅ rows in
  now ← time_now;
  (if bool_decide (cacheMap = ∅)
   then _ ← with_cache (cc_SetNegative now tenantID version negativeCacheTTL); mret tt
   else _ ← with_cache (cc_Set now tenantID version cacheMap defaultCacheTTL); mret tt);;
  mret cacheMap.

(** The values of a cached or fetched map, in the order it is ranged in. *)
Definition map_values (types : option (gmap string FieldType)) (m : gmap string string) :
    list pbConfigValue :=
  (λ p, {| pv_FieldPath := p.1;
           pv_Value := stringToTypedValue (Some p.2) (lookupFieldType types p.1);
           pv_Checksum := computeChecksum p.2; pv_Description := None |}) <$> map_range m.

Definition respond_config (ctx : Ctx) (tenantID : string) (version : Z)
    (values : list pbConfigValue) : M pbConfig :=
  RecordReads tenantID (pv_FieldPath <$> values) (actorPtr ctx);;
  mret {| pc_TenantId := tenantID; pc_Version := version; pc_ConfigValues := values |}.

Definition GetConfig (ctx : Ctx) (req : GetConfigRequest) : M pbConfig :=
  must_have_claims ctx;;
  tenantID ← resolveTenantWithAccess ctx (gc_TenantId req) ActionRead;
  vt ← both (resolveVersion tenantID (gc_Version req)) (fieldTypeMap tenantID);
  let '(version, types) := vt in
  if negb (gc_IncludeDescriptions req) then
    now ← time_now;
    cached ← with_cache (λ c, (cc_Get now tenantID version c, c));
    match cached with
    | Ok (Some m) => respond_config ctx tenantID version (map_values types m)
    | _ =>
        now ← time_now;
        neg ← with_cache (λ c, (cc_GetNegative now tenantID version c, c));
        match neg with
        | Ok true => mret {| pc_TenantId := tenantID; pc_Version := version; pc_ConfigValues := [] |}
        | _ =>
            m ← fetchAndCacheConfig tenantID version;
            respond_config ctx tenantID version (map_values types m)
        end
    end
  else
    rows ← map_err (λ _, Status0 Internal "failed to get config")
             (reads (GetFullConfigAtVersion tenantID version));
    sensitiveFields ← getSensitiveFieldSet tenantID;
    respond_config ctx tenantID version
      ((λ row,
          let displayValue :=
            redactIfSensitive (is_sensitive sensitiveFields (row_FieldPath row))
              (derefString (row_Value row)) in
          {| pv_FieldPath := row_FieldPath row;
             pv_Value := stringToTypedValue (Some displayValue)
                           (lookupFieldType types (row_FieldPath row));
             pv_Checksum := derefString (row_Checksum row);
             pv_Description := row_Description row |}) <$> rows).

(** The value a single-field read shows for a row. *)
Definition field_value (types : option (gmap string FieldType)) (sensitiveFields : gmap string bool)
    (descriptions : bool) (row : Row) : pbConfigValue :=
  let displayPtr :=
    if is_sensitive sensitiveFields (row_FieldPath row) then Some redactedSentinel
    else row_Value row in
  {| pv_FieldPath := row_FieldPath row;
     pv_Value := stringToTypedValue displayPtr (lookupFieldType types (row_FieldPath row));
     pv_Checksum := derefString (row_Checksum row);
     pv_Description := if descriptions then row_Description row else None |}.

Definition GetField (ctx : Ctx) (req : GetFieldRequest) : M pbConfigValue :=
  must_have_claims ctx;;
  tenantID ← resolveTenantWithAccess ctx (gf_TenantId req) ActionRead;
  version ← resolveVersion tenantID (gf_Version req);
  row ← map_err (errToStatus "field not found" "failed to get field")
          (reads (GetConfigValueAtVersion tenantID (gf_FieldPath req) version));
  sensitiveFields ← getSensitiveFieldSet tenantID;
  types ← fieldTypeMap tenantID;
  let cv := field_value types sensitiveFields (gf_IncludeDescription req) row in
  RecordReads tenantID [gf_FieldPath req] (actorPtr ctx);;
  mret cv.

(** One slot of [GetFields]: nil for a missing field. *)
Definition get_slot (tenantID : string) (version : Z) (types : option (gmap string FieldType))
    (sensitiveFields : gmap string bool) (descriptions : bool) (path : string) :
    M (option pbConfigValue) :=
  r ← try (reads (GetConfigValueAtVersion tenantID path version));
  match r with
  | Err e => if is_NotFound e then mret None else fail (Status0 Internal "failed to get field")
  | Ok row => mret (Some (field_value types sensitiveFields descriptions row))
  end.

Definition too_many (format : string) (n limit : Z) : error :=
  Status InvalidArgument format [AInt n; AInt limit].

Definition GetFields (ctx : Ctx) (req : GetFieldsRequest) : M (list pbConfigValue) :=
  must_have_claims ctx;;
  let n := Z.of_nat (length (gfs_FieldPaths req)) in
  let limit := MaxListLen (svc_limits svc) in
  if (0 <? limit)%Z && (limit <? n)%Z
  then fail (too_many "request has %d field_paths, exceeds limit of %d" n limit)
  else
    tenantID ← resolveTenantWithAccess ctx (gfs_TenantId req) ActionRead;
    vts ← both (both (resolveVersion tenantID (gfs_Version req)) (fieldTypeMap tenantID))
            (getSensitiveFieldSet tenantID);
    let '(version, types, sensitiveFields) := vts in
    slots ← collect (get_slot tenantID version types sensitiveFields (gfs_IncludeDescriptions req))
              (gfs_FieldPaths req);
    let values := omap id slots in
    RecordReads tenantID (pv_FieldPath <$> values) (actorPtr ctx);;
    mret values.

Definition ListVersions (ctx : Ctx) (req : ListVersionsRequest) : M ListVersionsResponse :=
  must_have_claims ctx;;
  tenantID ← resolveTenantWithAccess ctx (lv_TenantId req) ActionRead;
  let pageSize := Pagination.ClampPageSize (lv_PageSize req) 50 500 in
  match Pagination.DecodePageToken (lv_PageToken req) with
  | Err _ => fail (Status0 InvalidArgument "invalid page token")
  | Ok offset =>
      versions ← map_err (λ _, Status0 Internal "failed to list versions")
                   (reads (ListConfigVersions {| lcv_TenantID := tenantID;
                      lcv_Limit := int32 (pageSize + 1); lcv_Offset := offset |}));
      let n := int32 (Z.of_nat (length versions)) in
      let nextToken := Pagination.NextPageToken pageSize n offset in
      let versions := if (pageSize <? n)%Z then take (Z.to_nat pageSize) versions else versions in
      mret {| lvr_Versions := configVersionToProto <$> versions; lvr_NextPageToken := nextToken |}
  end.

Definition GetVersion (ctx : Ctx) (req : GetVersionRequest) : M pbConfigVersion :=
  must_have_claims ctx;;
  tenantID ← resolveTenantWithAccess ctx (gv_TenantId req) ActionRead;
  version ← map_err (errToStatus "version not found" "failed to get version")
              (reads (GetConfigVersion tenantID (gv_Version req)));
  mret (configVersionToProto version).

Definition configMapAtVersion (tenantID : string) (version : Z) : M (gmap string string) :=
  rows ← map_err (λ _, Status0 Internal "failed to get config at version")
           (reads (GetFullConfigAtVersion tenantID version));
  mret (foldl (λ m row, <[row_FieldPath row := derefString (row_Value row)]> m) ∅ rows).

Definition DiffVersions (ctx : Ctx) (req : DiffVersionsRequest) : M (list FieldDiff) :=
  must_have_claims ctx;;
  tenantID ← resolveTenantWithAccess ctx (dv_TenantId req) ActionRead;
  _ ← map_err (errToStatus "from version not found" "failed to get from version")
        (reads (GetConfigVersion tenantID (dv_FromVersion req)));
  _ ← map_err (errToStatus "to version not found" "failed to get to version")
        (reads (GetConfigVersion tenantID (dv_ToVersion req)));
  fromMap ← configMapAtVersion tenantID (dv_FromVersion req);
  toMap ← configMapAtVersion tenantID (dv_ToVersion req);
  mret (diffConfigMaps fromMap toMap).

(** *** Writes *)

(** The first half of every write transaction: the next version. *)
Definition create_next (context tenantID : string) (latest : Z) (description : option string)
    (actor : string) : Tx ConfigVersion :=
  map_err (Wrap context)
    (tx_writes (CreateConfigVersion
      {| ccv_TenantID := tenantID; ccv_Version := int32 (latest + 1);
         ccv_Description := description; ccv_CreatedBy := actor |})).

Definition field_audit (tenantID actor action : string) (path : string)
    (oldValue newValue : option string) (version : Z) : InsertAuditWriteLogParams :=
  {| au_TenantID := tenantID; au_Actor := actor; au_Action := action; au_ObjectKind := "field";
     au_FieldPath := ptrString path; au_OldValue := oldValue; au_NewValue := newValue;
     au_ConfigVersion := Some version; au_Metadata := None |}.

Definition SetField_tx (tenantID actor : string) (req : SetFieldRequest) (oldValue : string)
    (sensitiveFields : gmap string bool)
    (depRules : list DependentRequired.DependentRequiredEntry) : Tx ConfigVersion :=
  txLockedVersion ← txLatestVersion tenantID;
  match sf_ExpectedChecksum req with
  | Some expected => checkChecksumAtVersion tenantID (sf_FieldPath' req) expected txLockedVersion
  | None => mret tt
  end;;
  newVersion ← create_next "create config version" tenantID txLockedVersion
                 (ptrString (default "" (sf_Description' req))) actor;
  let valStr := typedValueToString (sf_Value req) in
  map_err (Wrap "set config value")
    (tx_writes (SetConfigValue
      {| scv_ConfigVersionID := cv_ID newVersion; scv_FieldPath := sf_FieldPath' req;
         scv_Value := valStr; scv_Checksum := checksumPtr valStr;
         scv_Description := ptrString (default "" (sf_ValueDescription req)) |}));;
  enforceDependentRequiredInTx tenantID (cv_Version newVersion) depRules;;
  let sensitive := is_sensitive sensitiveFields (sf_FieldPath' req) in
  tx_writes (InsertAuditWriteLog
    (field_audit tenantID actor "set_field" (sf_FieldPath' req)
       (ptrString (redactIfSensitive sensitive oldValue))
       (ptrString (redactIfSensitive sensitive (derefString valStr)))
       (cv_Version newVersion)));;
  mret newVersion.

Definition SetField (ctx : Ctx) (req : SetFieldRequest) : M SetFieldResponse :=
  must_have_claims ctx;;
  if bool_decide (sf_FieldPath' req = "")
  then fail (Status0 InvalidArgument "field_path must not be empty")
  else
    tenantID ← resolveTenantID (sf_TenantId req);
    check ctx ActionWrite
      {| res_TenantID := tenantID; res_FieldPath := sf_FieldPath' req;
         res_Value := derefString (typedValueToString (sf_Value req)) |};;
    replay ← claimed_before tenantID (sf_IdempotencyKey req);
    if (replay : bool) then mret {| resp_ConfigVersion := None |}
    else
      let actor := getActor ctx in
      validateField tenantID (sf_FieldPath' req) (sf_Value req);;
      latestVersion ← resolveVersion tenantID None;
      oldValue ← getCurrentValue tenantID (sf_FieldPath' req) latestVersion;
      fieldSets ← getSchemaFieldSets tenantID;
      check_attrs fieldSets (sf_FieldPath' req) oldValue;;
      depRules ← map_err (λ _, Status0 Internal "failed to load dependentRequired rules")
                   (fetchDependentRequiredRules tenantID);
      invalidate tenantID;;
      newVersion ←
        map_err (set_tx_error "concurrent write conflict; retry with the latest checksum"
                   "failed to set field")
          (runInTxWithRetry
             (SetField_tx tenantID actor req oldValue (Sensitive fieldSets) depRules));
      invalidate tenantID;;
      let sensitive := is_sensitive (Sensitive fieldSets) (sf_FieldPath' req) in
      publishChanges tenantID (cv_Version newVersion)
        [{| fc_FieldPath := sf_FieldPath' req;
            fc_OldValue := redactIfSensitive sensitive oldValue;
            fc_NewValue := redactIfSensitive sensitive (typedValueToDisplayString (sf_Value req)) |}]
        actor;;
      mret {| resp_ConfigVersion := Some (configVersionToProto newVersion) |}.

(** The rows and audit entries of a batch. *)
Definition update_params (id : string) (u : FieldUpdate) : SetConfigValueParams :=
  let valStr := typedValueToString (fu_Value u) in
  {| scv_ConfigVersionID := id; scv_FieldPath := fu_FieldPath u; scv_Value := valStr;
     scv_Checksum := checksumPtr valStr;
     scv_Description := ptrString (default "" (fu_ValueDescription u)) |}.
Definition update_audit (tenantID actor : string) (sensitiveFields : gmap string bool)
    (version : Z) (p : FieldUpdate * changeRecord) : InsertAuditWriteLogParams :=
  let '(u, ch) := p in
  let sensitive := is_sensitive sensitiveFields (fu_FieldPath u) in
  field_audit tenantID actor "set_field" (fu_FieldPath u)
    (ptrString (redactIfSensitive sensitive (cg_oldValue ch)))
    (ptrString (redactIfSensitive sensitive (derefString (typedValueToString (fu_Value u)))))
    version.

Definition check_update (tenantID : string) (version : Z) (u : FieldUpdate) : Tx unit :=
  match fu_ExpectedChecksum u with
  | Some expected => checkChecksumAtVersion tenantID (fu_FieldPath u) expected version
  | None => mret tt
  end.

Definition SetFields_tx (tenantID actor : string) (req : SetFieldsRequest)
    (changes : list changeRecord) (sensitiveFields : gmap string bool)
    (depRules : list DependentRequired.DependentRequiredEntry) : Tx ConfigVersion :=
  txLockedVersion ← txLatestVersion tenantID;
  for_each (check_update tenantID txLockedVersion) (sfs_Updates req);;
  newVersion ← create_next "create config version" tenantID txLockedVersion
                 (ptrString (default "" (sfs_Description req))) actor;
  map_err (Wrap "bulk set config values")
    (tx_writes (BulkSetConfigValues (update_params (cv_ID newVersion) <$> sfs_Updates req)));;
  map_err (Wrap "bulk insert audit log")
    (tx_writes (BulkInsertAuditWriteLog
      (update_audit tenantID actor sensitiveFields (cv_Version newVersion)
         <$> zip (sfs_Updates req) changes)));;
  enforceDependentRequiredInTx tenantID (cv_Version newVersion) depRules;;
  mret newVersion.

(** The redacted changes an event carries. *)
Definition redact_changes (sensitiveFields : gmap string bool) (changes : list changeRecord) :
    list FieldChange :=
  (λ ch, {| fc_FieldPath := cg_fieldPath ch;
            fc_OldValue := redactIfSensitive (is_sensitive sensitiveFields (cg_fieldPath ch))
                             (cg_oldValue ch);
            fc_NewValue := redactIfSensitive (is_sensitive sensitiveFields (cg_fieldPath ch))
                             (cg_newValue ch) |}) <$> changes.

(** Lock check and validation of one update. *)
Definition vet_update (ctx : Ctx) (tenantID : string) (u : FieldUpdate) : M unit :=
  if bool_decide (fu_FieldPath u = "")
  then fail (Status0 InvalidArgument "field_path must not be empty")
  else
    check ctx ActionWrite
      {| res_TenantID := tenantID; res_FieldPath := fu_FieldPath u;
         res_Value := derefString (typedValueToString (fu_Value u)) |};;
    validateField tenantID (fu_FieldPath u) (fu_Value u).

Definition SetFields (ctx : Ctx) (req : SetFieldsRequest) : M SetFieldResponse :=
  must_have_claims ctx;;
  tenantID ← resolveTenantWithAccess ctx (sfs_TenantId req) ActionWrite;
  let n := Z.of_nat (length (sfs_Updates req)) in
  let limit := MaxListLen (svc_limits svc) in
  if (n =? 0)%Z then fail (Status0 InvalidArgument "updates must not be empty")
  else if (0 <? limit)%Z && (limit <? n)%Z
  then fail (too_many "request has %d updates, exceeds limit of %d" n limit)
  else
    replay ← claimed_before tenantID (sfs_IdempotencyKey req);
    if (replay : bool) then mret {| resp_ConfigVersion := None |}
    else
      let actor := getActor ctx in
      locks ← map_err (λ _, Status0 Internal "failed to check field locks")
                (reads (GetFieldLocks tenantID));
      let ctx := WithFieldLockCache ctx locks in
      for_each (vet_update ctx tenantID) (sfs_Updates req);;
      latestVersion ← resolveVersion tenantID None;
      changes ← collect (λ u,
          oldValue ← getCurrentValue tenantID (fu_FieldPath u) latestVersion;
          mret {| cg_fieldPath := fu_FieldPath u; cg_oldValue := oldValue;
                  cg_newValue := typedValueToDisplayString (fu_Value u) |}) (sfs_Updates req);
      fieldSets ← getSchemaFieldSets tenantID;
      for_each (λ p, check_attrs fieldSets (fu_FieldPath p.1) (cg_oldValue p.2))
        (zip (sfs_Updates req) changes);;
      depRules ← map_err (λ _, Status0 Internal "failed to load dependentRequired rules")
                   (fetchDependentRequiredRules tenantID);
      invalidate tenantID;;
      newVersion ←
        map_err (set_tx_error "concurrent write conflict; retry with the latest checksum"
                   "failed to set fields")
          (runInTxWithRetry
             (SetFields_tx tenantID actor req changes (Sensitive fieldSets) depRules));
      invalidate tenantID;;
      publishChanges tenantID (cv_Version newVersion)
        (redact_changes (Sensitive fieldSets) changes) actor;;
      mret {| resp_ConfigVersion := Some (configVersionToProto newVersion) |}.

(** *** Rollback *)
Definition rollback_params (id : string) (row : Row) : SetConfigValueParams :=
  {| scv_ConfigVersionID := id; scv_FieldPath := row_FieldPath row; scv_Value := row_Value row;
     scv_Checksum := row_Checksum row; scv_Description := row_Description row |}.

Definition Rollback_tx (tenantID actor desc : string) (target : Z) (targetRows : list Row)
    (depRules : list DependentRequired.DependentRequiredEntry) : Tx ConfigVersion :=
  txVersion ← txLatestVersion tenantID;
  newVersion ← create_next "create rollback version" tenantID txVersion (Some desc) actor;
  map_err (Wrap "bulk copy fields")
    (tx_writes (BulkSetConfigValues (rollback_params (cv_ID newVersion) <$> targetRows)));;
  enforceDependentRequiredInTx tenantID (cv_Version newVersion) depRules;;
  tx_writes (InsertAuditWriteLog
    (field_audit tenantID actor "rollback" "" (ptrString "") (Some ("v" +:+ itoa target))
       (cv_Version newVersion)));;
  mret newVersion.

(** Lock check and validation of one restored row. *)
Definition vet_row (ctx : Ctx) (tenantID : string) (types : option (gmap string FieldType))
    (row : Row) : M unit :=
  check ctx ActionWrite
    {| res_TenantID := tenantID; res_FieldPath := row_FieldPath row;
       res_Value := derefString (row_Value row) |};;
  validateField tenantID (row_FieldPath row)
    (stringToTypedValue (row_Value row) (lookupFieldType types (row_FieldPath row))).

Definition RollbackToVersion (ctx : Ctx) (req : RollbackToVersionRequest) : M pbConfigVersion :=
  must_have_claims ctx;;
  tenantID ← resolveTenantWithAccess ctx (rb_TenantId req) ActionWrite;
  let actor := getActor ctx in
  targetRows ← map_err (λ _, Status0 Internal "failed to get target version config")
                 (reads (GetFullConfigAtVersion tenantID (rb_Version req)));
  if bool_decide (length targetRows = 0)
  then fail (Status0 NotFound "target version not found or empty")
  else
    locks ← map_err (λ _, Status0 Internal "failed to check field locks")
              (reads (GetFieldLocks tenantID));
    let ctx := WithFieldLockCache ctx locks in
    types ← fieldTypeMap tenantID;
    for_each (vet_row ctx tenantID types) targetRows;;
    fieldSets ← getSchemaFieldSets tenantID;
    latestVersion ← resolveVersion tenantID None;
    for_each (λ row,
        match WriteAttrs fieldSets !! row_FieldPath row with
        | Some attrs =>
            currentValue ← getCurrentValue tenantID (row_FieldPath row) latestVersion;
            of_result (checkWriteAttributes (row_FieldPath row) attrs currentValue)
        | None => mret tt
        end) targetRows;;
    let desc := default ("Rollback to version " +:+ itoa (rb_Version req)) (rb_Description req) in
    depRules ← map_err (λ _, Status0 Internal "failed to load dependentRequired rules")
                 (fetchDependentRequiredRules tenantID);
    invalidate tenantID;;
    newVersion ←
      map_err (tx_error "concurrent write conflict; retry the rollback" "failed to rollback")
        (runInTxWithRetry (Rollback_tx tenantID actor desc (rb_Version req) targetRows depRules));
    invalidate tenantID;;
    mret (configVersionToProto newVersion).

(** *** Export and import *)
Definition ExportConfig (ctx : Ctx) (req : ExportConfigRequest) : M string :=
  must_have_claims ctx;;
  tenantID ← resolveTenantWithAccess ctx (ex_TenantId req) ActionRead;
  version ← resolveVersion tenantID (ex_Version req);
  if (version =? 0)%Z then fail (Status0 NotFound "no config versions exist for this tenant")
  else
    fieldTypes ← fieldTypeMap tenantID;
    dbRows ← map_err (λ _, Status0 Internal "failed to get config values")
               (reads (GetFullConfigAtVersion tenantID version));
    if bool_decide (length dbRows = 0)
    then fail (Status0 NotFound "no config values at this version")
    else
      sensitiveFields ← getSensitiveFieldSet tenantID;
      let rows :=
        (λ r, {| cr_FieldPath := row_FieldPath r;
                 cr_Value := redactIfSensitive (is_sensitive sensitiveFields (row_FieldPath r))
                               (derefString (row_Value r));
                 cr_Description := row_Description r |}) <$> dbRows in
      cv ← try (reads (GetConfigVersion tenantID version));
      let description :=
        match cv with Ok cv => default "" (cv_Description cv) | Err _ => "" end in
      map_err (λ e, Status InvalidArgument "%v" [AErr e])
        (of_result (MarshalConfigAt version description rows (default ∅ fieldTypes)
                      (default "" (ex_SpecVersion req)))).

Definition filterByImportMode (tenantID : string) (latestVersion : Z)
    (values : list configValueImport) (mode : ImportMode) : M (list configValueImport) :=
  match mode with
  | IMPORT_MODE_REPLACE => mret values
  | IMPORT_MODE_DEFAULTS =>
      if (latestVersion =? 0)%Z then mret values
      else
        r ← try (reads (GetFullConfigAtVersion tenantID latestVersion));
        match r with
        | Err _ => mret values
        | Ok rows => mret (filter (λ v, ci_FieldPath v ∉ row_FieldPath <$> rows) values)
        end
  | _ =>
      if (latestVersion =? 0)%Z then mret values
      else
        kept ← collect (λ v,
            current ← getCurrentValue tenantID (ci_FieldPath v) latestVersion;
            mret (if bool_decide (current = ci_Value v) then None else Some v)) values;
        mret (omap id kept)
  end.

Definition import_params (id : string) (v : configValueImport) : SetConfigValueParams :=
  {| scv_ConfigVersionID := id; scv_FieldPath := ci_FieldPath v; scv_Value := strPtr (ci_Value v);
     scv_Checksum := checksumPtr (strPtr (ci_Value v)); scv_Description := ci_Description v |}.
Definition import_audit (tenantID actor : string) (sensitiveFields : gmap string bool)
    (version : Z) (p : configValueImport * changeRecord) : InsertAuditWriteLogParams :=
  let '(v, ch) := p in
  let sensitive := is_sensitive sensitiveFields (ci_FieldPath v) in
  field_audit tenantID actor "import" (ci_FieldPath v)
    (ptrString (redactIfSensitive sensitive (cg_oldValue ch)))
    (strPtr (redactIfSensitive sensitive (ci_Value v))) version.

Definition Import_tx (tenantID actor desc : string) (values : list configValueImport)
    (changes : list changeRecord) (sensitiveFields : gmap string bool)
    (depRules : list DependentRequired.DependentRequiredEntry) : Tx ConfigVersion :=
  txVersion ← txLatestVersion tenantID;
  newVersion ← create_next "create config version" tenantID txVersion (Some desc) actor;
  map_err (Wrap "bulk set config values")
    (tx_writes (BulkSetConfigValues (import_params (cv_ID newVersion) <$> values)));;
  map_err (Wrap "bulk insert audit log")
    (tx_writes (BulkInsertAuditWriteLog
      (import_audit tenantID actor sensitiveFields (cv_Version newVersion) <$> zip values changes)));;
  enforceDependentRequiredInTx tenantID (cv_Version newVersion) depRules;;
  mret newVersion.

(** Size, lock check and validation of one imported value. *)
Definition vet_import (ctx : Ctx) (tenantID : string) (fieldTypes : gmap string FieldType)
    (v : configValueImport) : M unit :=
  let limit := MaxFieldValueBytes (svc_limits svc) in
  let n := Z.of_nat (str_len (ci_Value v)) in
  if (0 <? limit)%Z && (limit <? n)%Z
  then fail (Status InvalidArgument "field %q value is %d bytes, exceeds limit of %d"
               [AStr (ci_FieldPath v); AInt n; AInt limit])
  else
    check ctx ActionWrite
      {| res_TenantID := tenantID; res_FieldPath := ci_FieldPath v; res_Value := ci_Value v |};;
    validateField tenantID (ci_FieldPath v)
      (stringToTypedValue (Some (ci_Value v))
         (default (FieldTypeOther "") (fieldTypes !! ci_FieldPath v))).

Definition ImportConfig (ctx : Ctx) (req : ImportConfigRequest) : M pbConfigVersion :=
  must_have_claims ctx;;
  let limit := MaxDocBytes (svc_limits svc) in
  let n := Z.of_nat (str_len (im_YamlContent req)) in
  if (0 <? limit)%Z && (limit <? n)%Z
  then fail (too_many "config document is %d bytes, exceeds limit of %d" n limit)
  else
    tenantID ← resolveTenantWithAccess ctx (im_TenantId req) ActionWrite;
    let actor := getActor ctx in
    _ ← map_err (λ _, Status0 NotFound "tenant not found") (reads (GetTenantByID tenantID));
    types ← fieldTypeMap tenantID;
    let fieldTypes : gmap string FieldType := default ∅ types in
    parsed ← map_err (λ e, Status InvalidArgument "invalid config YAML: %v" [AErr e])
               (of_result (DispatchImport (im_YamlContent req) fieldTypes));
    for_each (vet_import ctx tenantID fieldTypes) (pc_Values parsed);;
    latestVersion ← resolveVersion tenantID None;
    values ← filterByImportMode tenantID latestVersion (pc_Values parsed) (im_Mode req);
    if bool_decide (length values = 0) then fail (Status0 AlreadyExists "no changes to apply")
    else
      changes ← collect (λ v,
          oldValue ← getCurrentValue tenantID (ci_FieldPath v) latestVersion;
          mret {| cg_fieldPath := ci_FieldPath v; cg_oldValue := oldValue;
                  cg_newValue := ci_Value v |}) values;
      let desc :=
        match im_Description req with
        | Some d => d
        | None => if bool_decide (pc_Description parsed = "") then "Import from YAML"
                  else pc_Description parsed
        end in
      fieldSets ← getSchemaFieldSets tenantID;
      for_each (λ p, check_attrs fieldSets (ci_FieldPath p.1) (cg_oldValue p.2))
        (zip values changes);;
      depRules ← map_err (λ _, Status0 Internal "failed to load dependentRequired rules")
                   (fetchDependentRequiredRules tenantID);
      invalidate tenantID;;
      newVersion ←
        map_err (tx_error "concurrent write conflict; retry the import" "failed to import config")
          (runInTxWithRetry
             (Import_tx tenantID actor desc values changes (Sensitive fieldSets) depRules));
      invalidate tenantID;;
      publishChanges tenantID (cv_Version newVersion)
        (redact_changes (Sensitive fieldSets) changes) actor;;
      mret (configVersionToProto newVersion).

(** *** Subscriptions

    [events] is what arrives on the subscription's channel until it closes
    or the client leaves, or the failure to subscribe. The result is the
    messages sent, in order. *)
Definition path_selected (req : SubscribeRequest) (p : string) : bool :=
  bool_decide (length (sub_FieldPaths req) = 0) || bool_decide (p ∈ sub_FieldPaths req).

Definition replay_message (tenantID : string) (types : option (gmap string FieldType))
    (row : ConfigValueSince) : ConfigChange :=
  {| ch_TenantId := tenantID; ch_Version := cvs_Version row; ch_FieldPath := cvs_FieldPath row;
     ch_OldValue := None;
     ch_NewValue := stringToTypedValue (cvs_Value row) (lookupFieldType types (cvs_FieldPath row));
     ch_ChangedBy := cvs_CreatedBy row; ch_ChangedAt := timestamppb_New (cvs_ChangedAt row) |}.

Definition live_message (types : option (gmap string FieldType)) (e : ConfigChangeEvent)
    (fc : FieldChange) : ConfigChange :=
  {| ch_TenantId := ev_TenantID e; ch_Version := ev_Version e; ch_FieldPath := fc_FieldPath fc;
     ch_OldValue := stringToTypedValue (ptrString (fc_OldValue fc))
                      (lookupFieldType types (fc_FieldPath fc));
     ch_NewValue := stringToTypedValue (strPtr (fc_NewValue fc))
                      (lookupFieldType types (fc_FieldPath fc));
     ch_ChangedBy := ev_ChangedBy e; ch_ChangedAt := timestamppb_New (ev_ChangedAt e) |}.

Definition live_messages (req : SubscribeRequest) (types : option (gmap string FieldType))
    (watermark : Z) (events : list ConfigChangeEvent) : list ConfigChange :=
  mbind (M:=list) (λ e : ConfigChangeEvent,
      if (ev_Version e <=? watermark)%Z then []
      else live_message types e
             <$> filter (λ fc, path_selected req (fc_FieldPath fc) = true) (ev_Changes e)) events.

(** Up to the first read of the replay: the tenant, the events, the field
    types and, when a start version is given, the watermark. *)
Definition subscribe_begin (ctx : Ctx) (req : SubscribeRequest)
    (events : result error (list ConfigChangeEvent)) :
    M (string * list ConfigChangeEvent * option (gmap string FieldType) * option (Z * Z)) :=
  must_have_claims ctx;;
  let n := Z.of_nat (length (sub_FieldPaths req)) in
  let limit := MaxListLen (svc_limits svc) in
  if (0 <? limit)%Z && (limit <? n)%Z
  then fail (too_many "request has %d field_paths, exceeds limit of %d" n limit)
  else
    tenantID ← resolveTenantWithAccess ctx (sub_TenantId req) ActionRead;
    events ← map_err (λ _, Status0 Internal "failed to subscribe") (of_result events);
    types ← fieldTypeMap tenantID;
    match sub_StartVersion req with
    | None => mret (tenantID, events, types, None)
    | Some start =>
        latest ← map_err (λ _, Status0 Internal "failed to determine latest version for replay")
                   (reads (GetLatestConfigVersion tenantID));
        mret (tenantID, events, types, Some (start, cv_Version latest))
    end.

(** The second read and the messages. *)
Definition subscribe_stream (req : SubscribeRequest)
    (x : string * list ConfigChangeEvent * option (gmap string FieldType) * option (Z * Z)) :
    M (list ConfigChange) :=
  let '(tenantID, events, types, start) := x in
  match start with
  | None => mret (live_messages req types 0 events)
  | Some (start, watermark) =>
      rows ← map_err (λ _, Status0 Internal "failed to replay events")
               (reads (GetConfigValuesSince tenantID start));
      mret ((replay_message tenantID types
               <$> filter (λ row, path_selected req (cvs_FieldPath row) = true) rows)
            ++ live_messages req types watermark events)
  end.

Definition Subscribe (ctx : Ctx) (req : SubscribeRequest)
    (events : result error (list ConfigChangeEvent)) : M (list ConfigChange) :=
  subscribe_begin ctx req events ≫= subscribe_stream req.
End service.
