(* ===== verification/ServiceLemmas.v ===== *)
(** * Reasoning about the service's handlers

    Inversion of the state-and-error monad, what each helper leaves alone, and
    the effect of a transaction on the abstract state of the store. *)
From S2P Require Import Prelude GoText Domain Convert Auth Cache PubSub CrossField ConfigStore MemStore.
From S2P Require Import Validation ValidatorFactory ConfigYaml ConfigService.
Import Convert Auth Authz.

(** ** The monad *)
Section monad.
Context {St : Type}.

Lemma bind_Ok {A B} (m : ST St A) (k : A → ST St B) s b s' :
  (m ≫= k) s = (Ok b, s') ↔ ∃ a s1, m s = (Ok a, s1) ∧ k a s1 = (Ok b, s').
Proof.
  unfold mbind, ST_bind. destruct (m s) as [[a|e] s1]; split.
  - eauto.
  - intros (? & ? & [= <- <-] & ?). done.
  - done.
  - intros (? & ? & [=] & ?).
Qed.

Lemma bind_Err {A B} (m : ST St A) (k : A → ST St B) s e s' :
  (m ≫= k) s = (Err e, s') ↔
  m s = (Err e, s') ∨ ∃ a s1, m s = (Ok a, s1) ∧ k a s1 = (Err e, s').
Proof.
  unfold mbind, ST_bind. destruct (m s) as [[a|e'] s1]; split; naive_solver.
Qed.

Lemma map_err_Ok {A} f (m : ST St A) s a s' :
  map_err f m s = (Ok a, s') ↔ m s = (Ok a, s').
Proof. unfold map_err. destruct (m s) as [[] ?]; naive_solver. Qed.
Lemma map_err_Err {A} f (m : ST St A) s e s' :
  map_err f m s = (Err e, s') ↔ ∃ e', m s = (Err e', s') ∧ e = f e'.
Proof. unfold map_err. destruct (m s) as [[] ?]; naive_solver. Qed.

Lemma ret_Ok {A} (a b : A) (s s' : St) : mret (M:=ST St) a s = (Ok b, s') ↔ a = b ∧ s = s'.
Proof. unfold mret, ST_ret. naive_solver. Qed.
Lemma of_result_Ok {A} (r : result error A) (b : A) (s s' : St) :
  of_result r s = (Ok b, s') ↔ r = Ok b ∧ s = s'.
Proof. unfold of_result. naive_solver. Qed.

Lemma try_Ok {A} (m : ST St A) s r s' : try m s = (Ok r, s') ↔ m s = (r, s').
Proof. unfold try. destruct (m s) as [? ?]. naive_solver. Qed.
Lemma try_Err {A} (m : ST St A) s e s' : try m s = (Err e, s') ↔ False.
Proof. unfold try. destruct (m s) as [? ?]. naive_solver. Qed.
End monad.

(** Inverts a run of a handler that returned. *)
Ltac st_inv_step :=
  match goal with
  | H : (_ ≫= _) _ = (Ok _, _) |- _ => apply (proj1 (bind_Ok _ _ _ _ _)) in H; destruct H as (? & ? & ? & H)
  | H : map_err _ _ _ = (Ok _, _) |- _ => apply (proj1 (map_err_Ok _ _ _ _ _)) in H
  | H : try _ _ = (Ok _, _) |- _ => apply (proj1 (try_Ok _ _ _ _)) in H
  | H : mret _ _ = (Ok _, _) |- _ => apply (proj1 (ret_Ok _ _ _ _)) in H; destruct H; subst
  | H : fail _ _ = (Ok _, _) |- _ => discriminate H
  | H : of_result _ _ = (Ok _, _) |- _ => apply (proj1 (of_result_Ok _ _ _ _)) in H; destruct H; subst
  | H : (if ?b then _ else _) _ = (Ok _, _) |- _ => destruct b eqn:?
  | H : (match ?o with Some _ => _ | None => _ end) _ = (Ok _, _) |- _ => destruct o eqn:?
  | H : (match ?o with Ok _ => _ | Err _ => _ end) _ = (Ok _, _) |- _ => destruct o eqn:?
  end.
Ltac st_inv := repeat st_inv_step.

(** ** What a computation leaves alone *)
Section frame.
Context {St : Type}.

(** [m] never changes [f] of the state. *)
Definition keeps {A X} (f : St → X) (m : ST St A) : Prop := ∀ s, f (m s).2 = f s.
(** [m] never fails. *)
Definition total {A} (m : ST St A) : Prop := ∀ s, is_Ok (m s).1 = true.

Context {X : Type} (f : St → X).

Lemma keeps_ret {A} (a : A) : keeps f (mret a).
Proof. done. Qed.
Lemma keeps_fail {A} e : keeps f (fail e : ST St A).
Proof. done. Qed.
Lemma keeps_of_result {A} (r : result error A) : keeps f (of_result r).
Proof. done. Qed.
Lemma keeps_bind {A B} (m : ST St A) (k : A → ST St B) :
  keeps f m → (∀ a, keeps f (k a)) → keeps f (m ≫= k).
Proof.
  intros Hm Hk s. specialize (Hm s). unfold mbind, ST_bind.
  destruct (m s) as [[a|e] s1]; simpl in *; [|done]. by rewrite Hk.
Qed.
Lemma keeps_map_err {A} g (m : ST St A) : keeps f m → keeps f (map_err g m).
Proof. intros Hm s. specialize (Hm s). unfold map_err. by destruct (m s) as [[] ?]. Qed.
Lemma keeps_try {A} (m : ST St A) : keeps f m → keeps f (try m).
Proof. intros Hm s. specialize (Hm s). unfold try. by destruct (m s). Qed.
Lemma keeps_for_each {A} (g : A → ST St unit) l : (∀ x, keeps f (g x)) → keeps f (for_each g l).
Proof.
  intros Hg. induction l as [|x l IH]; [apply keeps_ret|]. apply keeps_bind; [done|]. by intros _.
Qed.
Lemma keeps_collect {A B} (g : A → ST St B) l : (∀ x, keeps f (g x)) → keeps f (collect g l).
Proof.
  intros Hg. induction l as [|x l IH]; [apply keeps_ret|].
  apply keeps_bind; [done|]. intros y. apply keeps_bind; [done|]. intros ys. apply keeps_ret.
Qed.
Lemma keeps_run {A} (m : ST St A) s r s' : keeps f m → m s = (r, s') → f s' = f s.
Proof. intros Hm E. specialize (Hm s). by rewrite E in Hm. Qed.
End frame.

Create HintDb frame.
#[export] Hint Resolve keeps_ret keeps_fail keeps_of_result : frame.

(** Proves that a handler's code keeps a component, from the facts about its
    helpers in the hint database. *)
Ltac keeps_tac :=
  repeat first
    [ solve [auto with frame]
    | apply keeps_bind; [|intros ?]
    | apply keeps_map_err
    | apply keeps_try
    | apply keeps_for_each; intros ?
    | apply keeps_collect; intros ?
    | match goal with |- keeps _ (match ?x with _ => _ end) => destruct x end
    | match goal with |- keeps _ ((match ?x with _ => _ end) _) => destruct x end
    | match goal with |- keeps _ (let '(_, _) := ?x in _) => destruct x end
    | progress cbv zeta ].

(** ** What a computation preserves *)
Section preserves.
Context {St : Type} (P : St → Prop).

(** [m] never leaves [P], whether it succeeds or fails. *)
Definition preserves {A} (m : ST St A) : Prop := ∀ s, P s → P (m s).2.

Lemma preserves_ret {A} (a : A) : preserves (mret a).
Proof. by intros s. Qed.
Lemma preserves_fail {A} e : preserves (fail e : ST St A).
Proof. by intros s. Qed.
Lemma preserves_of_result {A} (r : result error A) : preserves (of_result r).
Proof. by intros s. Qed.
Lemma preserves_bind {A B} (m : ST St A) (k : A → ST St B) :
  preserves m → (∀ a, preserves (k a)) → preserves (m ≫= k).
Proof.
  intros Hm Hk s Hs. specialize (Hm s Hs). unfold mbind, ST_bind.
  destruct (m s) as [[a|e] s1]; [by apply Hk|done].
Qed.
Lemma preserves_map_err {A} g (m : ST St A) : preserves m → preserves (map_err g m).
Proof. intros Hm s Hs. specialize (Hm s Hs). unfold map_err. by destruct (m s) as [[] ?]. Qed.
Lemma preserves_try {A} (m : ST St A) : preserves m → preserves (try m).
Proof. intros Hm s Hs. specialize (Hm s Hs). unfold try. by destruct (m s). Qed.
Lemma preserves_for_each {A} (g : A → ST St unit) l :
  (∀ x, preserves (g x)) → preserves (for_each g l).
Proof.
  intros Hg. induction l as [|x l IH]; [apply preserves_ret|]. apply preserves_bind; [done|]. by intros _.
Qed.
Lemma preserves_collect {A B} (g : A → ST St B) l :
  (∀ x, preserves (g x)) → preserves (collect g l).
Proof.
  intros Hg. induction l as [|x l IH]; [apply preserves_ret|].
  apply preserves_bind; [done|]. intros y. apply preserves_bind; [done|]. intros ys. apply preserves_ret.
Qed.
Lemma preserves_run {A} (m : ST St A) s r s' : preserves m → m s = (r, s') → P s → P s'.
Proof. intros Hm E Hs. specialize (Hm s Hs). by rewrite E in Hm. Qed.
End preserves.

Create HintDb pres.
Create HintDb helpers.
#[export] Hint Resolve preserves_ret preserves_fail preserves_of_result : pres.

(** The helpers of the service, for unfolding. *)
#[export] Hint Unfold both resolveTenantID resolveTenantWithAccess must_have_claims invalidate resolveVersion
  getCurrentValue fieldTypeMap validateField fetchDependentRequiredRules getSchemaFieldSets
  getSensitiveFieldSetFromTenant getSensitiveFieldSet check_attrs claimed_before publishChanges
  vet_update vet_row vet_import filterByImportMode
  txLatestVersion checkChecksumAtVersion tx_fieldTypeMap fetchCelArtifactsForTenant tenantBinding
  enforceCrossFieldInTx enforceDependentRequiredInTx create_next check_update
  SetField_tx SetFields_tx Rollback_tx Import_tx : helpers.

Ltac pres_tac :=
  repeat first
    [ solve [auto with pres]
    | apply preserves_bind; [|intros ?]
    | apply preserves_map_err
    | apply preserves_try
    | apply preserves_for_each; intros ?
    | apply preserves_collect; intros ?
    | match goal with |- preserves _ (match ?x with _ => _ end) => destruct x end
    | match goal with |- preserves _ ((match ?x with _ => _ end) _) => destruct x end
    | match goal with |- preserves _ (let '(_, _) := ?x in _) => destruct x end
    | progress autounfold with helpers
    | progress cbv zeta ].

(** *** The validators *)
Section validators.
Context {S C I P V : Type} `{ValidatorsOk V}.

(** The factory is in order and stands for the schemas [Σ]. *)
Definition val_at (Σ : va_Schemas) (v : V) : Prop := va_inv v ∧ va_view v = Σ.

Lemma val_validators Σ t v r v' :
  val_at Σ v → GetValidators t v = (r, v') → r = va_validators Σ t ∧ val_at Σ v'.
Proof. intros [Hi <-] E. destruct (va_validators_ok v t r v' Hi E) as (-> & ? & ?). done. Qed.
Lemma val_dependentRequired Σ t v r v' :
  val_at Σ v → GetDependentRequired t v = (r, v') → r = va_dependentRequired Σ t ∧ val_at Σ v'.
Proof. intros [Hi <-] E. destruct (va_dependentRequired_ok v t r v' Hi E) as (-> & ? & ?). done. Qed.
Lemma val_validations Σ t v r v' :
  val_at Σ v → GetValidations t v = (r, v') → r = va_validations Σ t ∧ val_at Σ v'.
Proof. intros [Hi <-] E. destruct (va_validations_ok v t r v' Hi E) as (-> & ? & ?). done. Qed.
Lemma val_celArtifacts Σ t v r v' :
  val_at Σ v → GetCelArtifacts t v = (r, v') → r = va_celArtifacts Σ t ∧ val_at Σ v'.
Proof. intros [Hi <-] E. destruct (va_celArtifacts_ok v t r v' Hi E) as (-> & ? & ?). done. Qed.

Context (Σ : va_Schemas).
Abbreviation atw := (λ w : World S C I P V, val_at Σ (w_val w)).
Abbreviation atx := (λ vs : V * S, val_at Σ vs.1).

Lemma pres_reads {A} (f : S → result error A) : preserves atw (reads f).
Proof. by intros w. Qed.
Lemma pres_time `{Clock} : preserves atw time_now.
Proof. by intros w. Qed.
Lemma pres_cache {A} (f : C → A * C) : preserves atw (with_cache f).
Proof. intros w Hw. unfold with_cache. by destruct (f (w_cache w)). Qed.
Lemma pres_idem {A} (f : I → A * I) : preserves atw (with_idem f).
Proof. intros w Hw. unfold with_idem. by destruct (f (w_idem w)). Qed.
Lemma pres_pub {A} (f : P → A * P) : preserves atw (with_pub f).
Proof. intros w Hw. unfold with_pub. by destruct (f (w_pub w)). Qed.
Lemma pres_record (svc : Service S) t ps a : preserves atw (RecordReads svc t ps a).
Proof. by intros w. Qed.
Lemma pres_check (svc : Service S) ctx action r : preserves atw (check svc ctx action r).
Proof. by intros w. Qed.

(** A call of the factory, in a handler and in a transaction. *)
Lemma pres_with_val {A} (f : V → result error A * V) :
  (∀ v, val_at Σ v → val_at Σ (f v).2) → preserves atw (with_val f).
Proof. intros Hf w Hw. specialize (Hf _ Hw). unfold with_val. by destruct (f (w_val w)). Qed.
Lemma pres_tx_val {A} (f : V → result error A * V) :
  (∀ v, val_at Σ v → val_at Σ (f v).2) → preserves atx (tx_val f).
Proof. intros Hf [v s] Hv. specialize (Hf v Hv). unfold tx_val. by destruct (f v). Qed.
Lemma pres_tx_reads {A} (f : S → result error A) : preserves atx (tx_reads f).
Proof. by intros [v s]. Qed.
Lemma pres_tx_writes {A} (f : S → result error A * S) : preserves atx (tx_writes f).
Proof. intros [v s] Hv. unfold tx_writes. by destruct (f s). Qed.

Lemma at_validators t v : val_at Σ v → val_at Σ (GetValidators t v).2.
Proof. intros Hv. destruct (GetValidators t v) eqn:E. by eapply val_validators. Qed.
Lemma at_dependentRequired t v : val_at Σ v → val_at Σ (GetDependentRequired t v).2.
Proof. intros Hv. destruct (GetDependentRequired t v) eqn:E. by eapply val_dependentRequired. Qed.
Lemma at_validations t v : val_at Σ v → val_at Σ (GetValidations t v).2.
Proof. intros Hv. destruct (GetValidations t v) eqn:E. by eapply val_validations. Qed.
Lemma at_celArtifacts t v : val_at Σ v → val_at Σ (GetCelArtifacts t v).2.
Proof. intros Hv. destruct (GetCelArtifacts t v) eqn:E. by eapply val_celArtifacts. Qed.
End validators.
#[export] Hint Resolve pres_reads pres_time pres_cache pres_idem pres_pub pres_record pres_check
  pres_with_val pres_tx_val pres_tx_reads pres_tx_writes at_validators at_dependentRequired
  at_validations at_celArtifacts : pres.

Section service.
Context {S C I P V : Type}.
Context `{Store S, ConfigCache C error, IdempotencyCache I error, Publisher P, Validators V}.
Context `{XXHash, MapRange, Clock, Sched, CelCap, FloatOverflow, YamlLib}.
Context (svc : Service S).

Abbreviation W := (World S C I P V).

(** *** The store *)
Lemma keeps_store_reads {A} (f : S → result error A) :
  keeps (w_store (S:=S) (C:=C) (I:=I) (P:=P) (V:=V)) (reads f).
Proof. done. Qed.
Lemma keeps_store_time : keeps (w_store (S:=S) (C:=C) (I:=I) (P:=P) (V:=V)) time_now.
Proof. done. Qed.
Lemma keeps_store_cache {A} (f : C → A * C) :
  keeps (w_store (S:=S) (C:=C) (I:=I) (P:=P) (V:=V)) (with_cache f).
Proof. intros w. unfold with_cache. by destruct (f (w_cache w)). Qed.
Lemma keeps_store_idem {A} (f : I → A * I) :
  keeps (w_store (S:=S) (C:=C) (I:=I) (P:=P) (V:=V)) (with_idem f).
Proof. intros w. unfold with_idem. by destruct (f (w_idem w)). Qed.
Lemma keeps_store_pub {A} (f : P → A * P) :
  keeps (w_store (S:=S) (C:=C) (I:=I) (P:=P) (V:=V)) (with_pub f).
Proof. intros w. unfold with_pub. by destruct (f (w_pub w)). Qed.
Lemma keeps_store_val {A} (f : V → result error A * V) :
  keeps (w_store (S:=S) (C:=C) (I:=I) (P:=P) (V:=V)) (with_val f).
Proof. intros w. unfold with_val. by destruct (f (w_val w)). Qed.
Lemma keeps_store_record t ps a :
  keeps (w_store (S:=S) (C:=C) (I:=I) (P:=P) (V:=V)) (RecordReads svc t ps a).
Proof. done. Qed.
Lemma keeps_store_check ctx action r :
  keeps (w_store (S:=S) (C:=C) (I:=I) (P:=P) (V:=V)) (check svc ctx action r).
Proof. done. Qed.
End service.

#[export] Hint Resolve keeps_store_reads keeps_store_time keeps_store_cache keeps_store_idem
  keeps_store_pub keeps_store_val keeps_store_record keeps_store_check : frame.

Section service2.
Context {S C I P V : Type}.
Context `{Store S, ConfigCache C error, IdempotencyCache I error, Publisher P, Validators V}.
Context `{XXHash, MapRange, Clock, Sched, CelCap, FloatOverflow, YamlLib}.
Context (svc : Service S).
Abbreviation st := (w_store (S:=S) (C:=C) (I:=I) (P:=P) (V:=V)).

Lemma keeps_both {A B} (m1 : ST (World S C I P V) A) (m2 : ST (World S C I P V) B) :
  keeps st m1 → keeps st m2 → keeps st (both m1 m2).
Proof. intros Hm1 Hm2. unfold both. keeps_tac. Qed.
Lemma keeps_resolveTenantID n : keeps st (resolveTenantID n).
Proof. unfold resolveTenantID. keeps_tac. Qed.
Lemma keeps_claims ctx : keeps st (must_have_claims ctx).
Proof. unfold must_have_claims. keeps_tac. Qed.
Lemma keeps_invalidate t : keeps st (invalidate t).
Proof. unfold invalidate. keeps_tac. Qed.
Lemma keeps_resolveVersion t r : keeps st (resolveVersion t r).
Proof. unfold resolveVersion. keeps_tac. Qed.
Lemma keeps_getCurrentValue t p v : keeps st (getCurrentValue t p v).
Proof. unfold getCurrentValue. keeps_tac. Qed.
Lemma keeps_fieldTypeMap t : keeps st (fieldTypeMap svc t).
Proof. unfold fieldTypeMap. keeps_tac. Qed.
Lemma keeps_validateField t p v : keeps st (validateField svc t p v).
Proof. unfold validateField. keeps_tac. Qed.
Lemma keeps_depRules t : keeps st (fetchDependentRequiredRules svc t).
Proof. unfold fetchDependentRequiredRules. keeps_tac. Qed.
Lemma keeps_fieldSets t : keeps st (getSchemaFieldSets t).
Proof. unfold getSchemaFieldSets. keeps_tac. Qed.
Lemma keeps_sensitive t : keeps st (getSensitiveFieldSet t).
Proof. unfold getSensitiveFieldSet, getSensitiveFieldSetFromTenant. keeps_tac. Qed.
Lemma keeps_check_attrs a p c : keeps st (check_attrs a p c).
Proof. unfold check_attrs. keeps_tac. Qed.
Lemma keeps_claimed t k : keeps st (claimed_before svc t k).
Proof. unfold claimed_before. keeps_tac. Qed.
Lemma keeps_publish t v cs a : keeps st (publishChanges t v cs a).
Proof. unfold publishChanges. keeps_tac. Qed.
End service2.

#[export] Hint Resolve keeps_both keeps_resolveTenantID keeps_claims keeps_invalidate
  keeps_resolveVersion keeps_getCurrentValue keeps_fieldTypeMap keeps_validateField keeps_depRules
  keeps_fieldSets keeps_sensitive keeps_check_attrs keeps_claimed keeps_publish : frame.

(** ** Transactions *)
Section tx_frame.
Context {S V : Type} `{Store S, Validators V, MapRange, CelCap}.
Context (svc : Service S).

Lemma keeps_tx_reads {A} (f : S → result error A) : keeps snd (tx_reads (V:=V) f).
Proof. by intros [v s]. Qed.
Lemma keeps_tx_val {A} (f : V → result error A * V) : keeps snd (tx_val (S:=S) f).
Proof. intros [v s]. unfold tx_val. by destruct (f v). Qed.
Hint Resolve keeps_tx_reads keeps_tx_val : frame.

Lemma keeps_txLatest t : keeps snd (txLatestVersion (V:=V) (S:=S) t).
Proof. unfold txLatestVersion. keeps_tac. Qed.
Lemma keeps_checksum t p e n : keeps snd (checkChecksumAtVersion (V:=V) (S:=S) t p e n).
Proof. unfold checkChecksumAtVersion. keeps_tac. Qed.
Lemma keeps_enforce t v rules :
  keeps snd (enforceDependentRequiredInTx (V:=V) svc t v rules).
Proof.
  unfold enforceDependentRequiredInTx, fetchCelArtifactsForTenant, tx_fieldTypeMap,
    enforceCrossFieldInTx, tenantBinding. keeps_tac.
Qed.
End tx_frame.
#[export] Hint Resolve keeps_tx_reads keeps_tx_val keeps_txLatest keeps_checksum keeps_enforce : frame.

(** A read inside a transaction. *)
Ltac tx_reads_inv Hg :=
  match goal with
  | H : tx_reads _ (_, _) = (_, _) |- _ => injection H as Hg ?; clear H; subst
  end.

Section tx.
Context {S V : Type} `{StoreOk S} `{Validators V, XXHash, MapRange, CelCap}.
Context (svc : Service S).

Implicit Types (v : V) (s : S).
Abbreviation histof s t := (hist (st_abs s) t).

Lemma retry_Ok {A} k n (fn : ST (V * S) A) v s a v' s' :
  st_inv k s →
  retryOnVersionConflict n (RunInTx fn) (v, s) = (Ok a, (v', s')) →
  ∃ v1 s1 s2, st_inv k s1 ∧ st_abs s1 ≡ st_abs s ∧ st_cat s1 = st_cat s
    ∧ fn (v1, s1) = (Ok a, (v', s2))
    ∧ (∀ k', st_inv k' s2 → st_inv k' s') ∧ st_abs s' ≡ st_abs s2 ∧ st_cat s' = st_cat s2
    ∧ ∀ Q : V → Prop, preserves (λ vs, Q vs.1) fn → Q v → Q v1.
Proof.
  assert (∀ v s, st_inv k s → RunInTx fn (v, s) = (Ok a, (v', s')) →
    ∃ v1 s1 s2, st_inv k s1 ∧ st_abs s1 ≡ st_abs s ∧ st_cat s1 = st_cat s
    ∧ fn (v1, s1) = (Ok a, (v', s2))
    ∧ (∀ k', st_inv k' s2 → st_inv k' s') ∧ st_abs s' ≡ st_abs s2 ∧ st_cat s' = st_cat s2
    ∧ ∀ Q : V → Prop, preserves (λ vs, Q vs.1) fn → Q v → Q v1) as Hdone.
  { intros v0 s0 Hi E. destruct (st_tx_Ok k s0 fn a v0 v' s' Hi E) as (s1 & s2 & ?).
    exists v0, s1, s2. naive_solver. }
  revert v s. induction n as [|n IH]; intros v s Hi; cbn [retryOnVersionConflict]; [by apply Hdone|].
  destruct (RunInTx fn (v, s)) as [[a1|e] [v1 s1]] eqn:E.
  { intros [= -> -> ->]. by apply Hdone. }
  destruct (st_tx_Err k s fn e v v1 s1 Hi E) as (Ha & Hc & Hi1 & Hv1).
  destruct (is_VersionConflict e); [|done]. intros E'.
  destruct (IH v1 s1 Hi1 E') as (v2 & s2 & s3 & ? & Ha2 & Hc2 & ? & ? & ? & ? & HQ).
  exists v2, s2, s3. split_and!; try done; [by rewrite Ha2|congruence|].
  intros Q Hp Hq. apply (HQ Q Hp). destruct Hv1 as [->|(s4 & s5 & r & Hfn)]; [done|].
  exact (preserves_run _ _ (v, s4) _ _ Hp Hfn Hq).
Qed.

(** What the body preserves of the factory, the whole loop does. *)
Lemma retry_val {A} k n (fn : ST (V * S) A) (Q : V → Prop) v s r v' s' :
  st_inv k s → preserves (λ vs, Q vs.1) fn →
  retryOnVersionConflict n (RunInTx fn) (v, s) = (r, (v', s')) → Q v → Q v'.
Proof.
  intros Hi Hp.
  assert (∀ v s r v' s', st_inv k s → RunInTx fn (v, s) = (r, (v', s')) → Q v → Q v') as Hone.
  { intros v0 s0 [a|e] v1 s1 Hi0 E Hq.
    - destruct (st_tx_Ok k s0 fn a v0 v1 s1 Hi0 E) as (s2 & s3 & _ & _ & _ & Hfn & _).
      exact (preserves_run _ _ (v0, s2) _ _ Hp Hfn Hq).
    - destruct (st_tx_Err k s0 fn e v0 v1 s1 Hi0 E) as (_ & _ & _ & [->|(s4 & s5 & r0 & Hfn)]); [done|].
      exact (preserves_run _ _ (v0, s4) _ _ Hp Hfn Hq). }
  revert v s Hi. induction n as [|n IH]; intros v s Hi; cbn [retryOnVersionConflict]; [by apply Hone|].
  destruct (RunInTx fn (v, s)) as [[a1|e] [v1 s1]] eqn:E.
  { intros [= <- <- <-]. by eapply Hone. }
  destruct (is_VersionConflict e); [|intros [= <- <- <-]; by eapply Hone].
  intros E' Hq. eapply IH; [|done|by eapply Hone]. by destruct (st_tx_Err k s fn e v v1 s1 Hi E) as (_ & _ & ? & _).
Qed.

Lemma retry_Err {A} k n (fn : ST (V * S) A) v s e v' s' :
  st_inv k s →
  retryOnVersionConflict n (RunInTx fn) (v, s) = (Err e, (v', s')) →
  st_inv k s' ∧ st_abs s' ≡ st_abs s ∧ st_cat s' = st_cat s.
Proof.
  revert v s. induction n as [|n IH]; intros v s Hi; cbn [retryOnVersionConflict].
  { intros E. by destruct (st_tx_Err k s fn e v v' s' Hi E) as (? & ? & ? & _). }
  destruct (RunInTx fn (v, s)) as [[a1|e1] [v1 s1]] eqn:E; [done|].
  destruct (st_tx_Err k s fn e1 v v1 s1 Hi E) as (Ha & Hc & Hi1 & _).
  destruct (is_VersionConflict e1); [|by intros [= <- <- <-]]. intros E'.
  destruct (IH v1 s1 Hi1 E') as (? & Ha2 & Hc2).
  split_and!; [done|by rewrite Ha2|congruence].
Qed.

Lemma txLatest_Ok k t v s n st' :
  st_inv k s → txLatestVersion t (v, s) = (Ok n, st') → latest (histof s t) n.
Proof.
  intros Hi E. unfold txLatestVersion in E. st_inv; tx_reads_inv Hg.
  - destruct (st_latest_Ok k s t _ Hi Hg) as [? _]. done.
  - left. split; [done|]. eapply st_latest_NotFound; eauto.
Qed.

Lemma checksum_Ok k t p e n v s st' row :
  st_inv k s → checkChecksumAtVersion t p e n (v, s) = (Ok tt, st') →
  snap (histof s t) n p = Some row → derefString (row_Checksum row) = e.
Proof.
  intros Hi E Hs. unfold checkChecksumAtVersion in E. destruct (n =? 0)%Z eqn:Hn; bool_prop.
  { subst. done. }
  st_inv; bool_prop; tx_reads_inv Hg.
  - pose proof (st_value_Ok k s t p n _ Hi Hg). congruence.
  - pose proof (st_value_NotFound k s t p n _ Hi Hg). naive_solver.
Qed.

(** What a new version says about itself. *)
Definition new_version (nv : ConfigVersion) (t : string) (n : Z) (desc : option string)
    (actor : string) : Prop :=
  cv_TenantID nv = t ∧ cv_Version nv = (n + 1)%Z ∧ cv_Description nv = desc
  ∧ cv_CreatedBy nv = actor.

Lemma create_next_Ok k ctxt t n desc actor v s nv v' s' :
  st_inv (Datatypes.S k) s → latest (histof s t) n → (n < max_int32)%Z →
  create_next ctxt t n desc actor (v, s) = (Ok nv, (v', s')) →
  st_inv k s' ∧ st_cat s' = st_cat s ∧ new_version nv t n desc actor
  ∧ st_abs s' ≡ set_hist (st_abs s) t
      (<[(n + 1)%Z := {| vr_meta := nv; vr_rows := [] |}]> (histof s t)).
Proof.
  intros Hi Hl Hmax E. unfold create_next in E. st_inv. unfold tx_writes in E.
  destruct (CreateConfigVersion _ s) as [r s1] eqn:Hc. simplify_eq.
  assert (0 ≤ n)%Z.
  { eapply latest_nonneg; [|done]. intros u. by eapply st_hist_pos. }
  assert (int32 (n + 1) = (n + 1)%Z) as Hw by (apply int32_id; unfold min_int32; lia).
  rewrite Hw in Hc.
  pose proof (λ Hn Hv, st_create_Ok k s _ nv s' Hi Hn Hv Hc) as Hx. simpl in Hx.
  destruct Hx as (? & ? & Hp & _ & ?); [by apply latest_next_None|lia|].
  by split_and!.
Qed.

Lemma bulk_set_Ok k ctxt args v s v' s' t u vr :
  st_inv k s → histof s t !! u = Some vr →
  Forall (λ a, scv_ConfigVersionID a = cv_ID (vr_meta vr)) args →
  map_err (Wrap ctxt) (tx_writes (BulkSetConfigValues args)) (v, s) = (Ok tt, (v', s')) →
  st_inv k s' ∧ st_cat s' = st_cat s ∧ st_abs s' ≡ set_hist (st_abs s) t
      (<[u := append_rows vr (row_of_params <$> args)]> (histof s t)).
Proof.
  intros Hi Hh Hf E. st_inv. unfold tx_writes in E.
  destruct (BulkSetConfigValues args s) as [r s1] eqn:Hb. simplify_eq.
  by apply (st_bulk_set_Ok k s args s' t u vr).
Qed.

(** The end of a transaction, on the abstract state. *)
Definition commits (a a' : Abs) (t : string) (n : Z) (nv : ConfigVersion) (rows : list Row)
    (audits : list InsertAuditWriteLogParams) : Prop :=
  a' ≡ add_audit
         (set_hist a t (<[(n + 1)%Z := {| vr_meta := nv; vr_rows := rows |}]> (hist a t))) audits.

(** Creating a version and writing its rows. *)
Lemma create_and_fill k ctxt1 ctxt2 t n desc actor (params : string → list SetConfigValueParams)
    v s nv v1 s1 v2 s2 :
  create_next ctxt1 t n desc actor (v, s) = (Ok nv, (v1, s1)) →
  map_err (Wrap ctxt2) (tx_writes (BulkSetConfigValues (params (cv_ID nv)))) (v1, s1)
    = (Ok tt, (v2, s2)) →
  st_inv (Datatypes.S k) s → latest (histof s t) n → (n < max_int32)%Z →
  (∀ id, Forall (λ a, scv_ConfigVersionID a = id) (params id)) →
  st_inv k s2 ∧ st_cat s2 = st_cat s ∧ new_version nv t n desc actor
  ∧ st_abs s2 ≡ set_hist (st_abs s) t
      (<[(n + 1)%Z := {| vr_meta := nv; vr_rows := row_of_params <$> params (cv_ID nv) |}]>
         (histof s t)).
Proof.
  intros Hc Hb Hi Hl Hmax Hp.
  destruct (create_next_Ok k _ _ _ _ _ _ _ _ _ _ Hi Hl Hmax Hc) as (Hi1 & Hc1 & Hnv & Ha1).
  assert (histof s1 t !! (n + 1)%Z = Some {| vr_meta := nv; vr_rows := [] |}) as Hh.
  { rewrite Ha1, hist_set_eq. apply lookup_insert_eq. }
  destruct (bulk_set_Ok k _ _ _ _ _ _ _ _ _ Hi1 Hh (Hp _) Hb) as (Hi2 & Hc2 & Ha2).
  split_and!; [done|congruence|done|].
  rewrite Ha2, Ha1, hist_set_eq, set_hist_twice, insert_insert_eq. done.
Qed.
End tx.

(** ** The four write transactions *)
Section bodies.
Context {S V : Type} `{StoreOk S} `{ValidatorsOk V, XXHash, MapRange, CelCap}.
Context (svc : Service S) (Σ : va_Schemas).
Implicit Types (v : V) (s : S).
Abbreviation histof s t := (hist (st_abs s) t).

(** *** Cross-field rules *)
Definition present_at (h : Hist) (u : Z) (p : string) : Prop :=
  ∃ row value, snap h u p = Some row ∧ row_Value row = Some value.

Definition dep_rules_met (rules : list DependentRequired.DependentRequiredEntry) (h : Hist)
    (u : Z) : Prop :=
  ∀ rule d, rule ∈ rules → present_at h u (DependentRequired.TriggerField rule) →
    d ∈ DependentRequired.DependentFields rule → present_at h u d.

(** The rows as the CEL activation takes them. *)
Definition snapshot_rows (rows : list Row) : list Cel.SnapshotRow :=
  (λ r, {| Cel.snap_FieldPath := row_FieldPath r; Cel.snap_Value := row_Value r |}) <$> rows.

(** The activation a tenant's programs see: its snapshot, the types of its
    fields and who it is. *)
Definition tenant_activation (rows : list Row) (vs : gmap string Validation.FieldValidator)
    (tn : Tenant) : list (string * Cel.any) :=
  Cel.BuildActivation (snapshot_rows rows) (pbFieldTypeMap (Some (Validation.fv_DomainFieldType <$> vs)))
    {| Cel.tb_ID := tn_ID tn; Cel.tb_Name := tn_Name tn |}.

(** Every validation rule of the tenant's schema has a program, and every
    program evaluates to true on the snapshot. *)
Definition cel_rules_met s (t : string) (h : Hist) (u : Z) : Prop :=
  svc_validators svc = true →
  ∃ rules, va_validations Σ t = Ok rules
    ∧ (rules = [] ∨ ∃ programs vs tn rows,
         va_celArtifacts Σ t = Ok programs ∧ va_validators Σ t = Ok vs
         ∧ GetTenantByID t s = Ok tn ∧ is_snapshot h u rows
         ∧ length programs = length rules
         ∧ Forall (λ prog, ∃ c, prog (tenant_activation rows vs tn) = Cel.OVal (Cel.CelBool true) c)
             programs).

Lemma present_paths_at h u rows p :
  is_snapshot h u rows → p ∈ present_paths rows ↔ present_at h u p.
Proof.
  intros (_ & _ & Hr). unfold present_paths. rewrite elem_of_list_to_set, list_elem_of_omap.
  split.
  - intros (r & Hin & Hp). destruct (row_Value r) as [x|] eqn:Hx; [|done]. simplify_eq.
    exists r, x. split; [by apply Hr|done].
  - intros (r & x & Hs & Hx). exists r. pose proof (snap_path _ _ _ _ Hs) as Hp.
    rewrite Hx, Hp. split; [|done]. apply Hr. by rewrite Hp.
Qed.

Lemma fetchCel_Ok t v s cel v' s' :
  val_at Σ v → fetchCelArtifactsForTenant svc t (v, s) = (Ok cel, (v', s')) →
  s' = s ∧ (svc_validators svc = true →
    ∃ rules, va_validations Σ t = Ok rules
      ∧ match cel with
        | None => rules = []
        | Some a => rules ≠ [] ∧ rules = ca_Rules a ∧ va_celArtifacts Σ t = Ok (ca_Programs a)
            ∧ ∃ vs, va_validators Σ t = Ok vs
                ∧ ca_FieldTypes a = Some (Validation.fv_DomainFieldType <$> vs)
        end).
Proof.
  intros Hat E. split.
  { refine (keeps_run snd _ _ _ _ _ E).
    unfold fetchCelArtifactsForTenant, tx_fieldTypeMap. keeps_tac. }
  intros Hv. unfold fetchCelArtifactsForTenant in E. rewrite Hv in E. cbn [negb] in E.
  apply bind_Ok in E as (rules & [v1 s1] & E1 & E). apply map_err_Ok in E1.
  unfold tx_val in E1. destruct (GetValidations t v) as [r v2] eqn:Hg. simplify_eq.
  destruct (val_validations Σ t v _ _ Hat Hg) as [Hr Hat1].
  exists rules. split; [done|]. destruct rules as [|r0 rules].
  { by apply ret_Ok in E as [<- _]. }
  apply bind_Ok in E as (programs & [v5 s5] & E2 & E). apply map_err_Ok in E2.
  unfold tx_val in E2. destruct (GetCelArtifacts t v1) as [r v6] eqn:Hc. simplify_eq.
  destruct (val_celArtifacts Σ t v1 _ _ Hat1 Hc) as [Hp Hat5].
  apply bind_Ok in E as (types & [v7 s7] & E3 & E). apply ret_Ok in E as [<- _]. simpl.
  unfold tx_fieldTypeMap in E3. rewrite Hv in E3. cbn [negb] in E3.
  apply bind_Ok in E3 as (vs & [v8 s8] & E3 & E4). apply ret_Ok in E4 as [<- _].
  apply map_err_Ok in E3. unfold tx_val in E3. destruct (GetValidators t v5) as [r v9] eqn:Hgv. simplify_eq.
  destruct (val_validators Σ t v5 _ _ Hat5 Hgv) as [Hvs _]. split_and!; eauto.
Qed.

(** What [enforceCrossFieldInTx] checks, once it has read the snapshot. *)
Lemma crossField_Ok k t u rules cel v s st' :
  enforceCrossFieldInTx t u rules cel (v, s) = (Ok tt, st') → st_inv k s →
  dep_rules_met rules (histof s t) u
  ∧ ∀ a, cel = Some a → ca_Programs a = [] ∨ ∃ tn rows, GetTenantByID t s = Ok tn
      ∧ is_snapshot (histof s t) u rows ∧ length (ca_Programs a) = length (ca_Rules a)
      ∧ Forall (λ prog, ∃ c, prog (Cel.BuildActivation (snapshot_rows rows)
            (pbFieldTypeMap (ca_FieldTypes a)) {| Cel.tb_ID := tn_ID tn; Cel.tb_Name := tn_Name tn |})
          = Cel.OVal (Cel.CelBool true) c) (ca_Programs a).
Proof.
  intros E Hi. unfold enforceCrossFieldInTx in E. cbv zeta in E.
  destruct (negb _ && negb _) eqn:Hnone.
  { apply andb_true_iff in Hnone as [Hd Hc].
    rewrite negb_involutive in Hd, Hc. apply bool_decide_eq_true in Hd, Hc.
    apply nil_length_inv in Hd, Hc. subst rules. split; [intros rule d Hin; set_solver|].
    intros a ->. by left. }
  apply bind_Ok in E as (rows & [v1 s1] & E1 & E). apply map_err_Ok in E1.
  injection E1 as E1 <- <-. pose proof (st_full_Ok k s t u rows Hi E1) as Hsnap.
  apply bind_Ok in E as ([] & [v2 s2] & E2 & E). split.
  - intros rule d Hin. rewrite <-!(present_paths_at _ _ _ _ Hsnap).
    destruct (negb _) eqn:Hd in E2.
    + apply of_result_Ok in E2 as [E2 _].
      destruct (DependentRequired.CheckDependentRequired _ _) as [[]|] eqn:Hck; [|done].
      by apply (proj1 (DependentRequired.CheckDependentRequired_Ok _ _) Hck).
    + apply negb_false_iff, bool_decide_eq_true, nil_length_inv in Hd. subst. set_solver.
  - intros a ->. destruct (negb _) eqn:Hc in E.
    2:{ left. by apply negb_false_iff, bool_decide_eq_true, nil_length_inv in Hc. }
    assert (s2 = s) as ->.
    { refine (keeps_run snd _ (v, s) _ _ _ E2). keeps_tac. }
    right. apply bind_Ok in E as (tb & st3 & E3 & E). apply map_err_Ok in E3.
    apply bind_Ok in E3 as (tn & [v4 s4] & E3 & E4). injection E3 as E3 _ _.
    apply ret_Ok in E4 as [<- _]. exists tn, rows.
    destruct (Cel.Eval _ _ _ _ _) as [[[|? ?] soft] [?|]] eqn:Hev; try done.
    apply Cel.Eval_clean in Hev as [[Hnil|Hlen] Hf]; [|done].
    apply negb_true_iff, bool_decide_eq_false in Hc. by rewrite Hnil in Hc.
Qed.

Lemma enforce_Ok k t u rules v s v' s' :
  enforceDependentRequiredInTx svc t u rules (v, s) = (Ok tt, (v', s')) → st_inv k s → val_at Σ v →
  dep_rules_met rules (histof s t) u ∧ cel_rules_met s t (histof s t) u.
Proof.
  intros E Hi Hat. apply bind_Ok in E as (cel & [v1 s1] & E1 & E).
  apply fetchCel_Ok in E1 as [-> Hcel]; [|done]. apply (crossField_Ok k) in E as [Hdep Hprog]; [|done].
  split; [done|]. intros Hv. destruct (Hcel Hv) as (vrules & Hg & Hm).
  exists vrules. split; [done|]. destruct cel as [a|]; [right|by left].
  destruct Hm as (Hne & -> & Hc & vs & Hvs & Hty).
  pose proof (va_celArtifacts_length _ _ _ _ Hg Hc) as Hlen.
  destruct (Hprog a eq_refl) as [Hnil|(tn & rows & Htn & Hsnap & _ & Hf)].
  { rewrite Hnil in Hlen. symmetry in Hlen. by apply nil_length_inv in Hlen. }
  exists (ca_Programs a), vs, tn, rows. rewrite Hty in Hf. by split_and!.
Qed.

Definition rules_met s (t : string) (rules : list DependentRequired.DependentRequiredEntry)
    (h : Hist) (u : Z) : Prop := dep_rules_met rules h u ∧ cel_rules_met s t h u.

(** A body that succeeds makes the next version of [t], with these rows and
    audit entries, has checked [Q] of the history before it, and leaves a
    snapshot that meets the cross-field rules. *)
Definition tx_commits (body : ST (V * S) ConfigVersion) (t : string) (desc : option string)
    (actor : string) (rows : list Row) (audits : Z → list InsertAuditWriteLogParams)
    (rules : list DependentRequired.DependentRequiredEntry) (Q : Hist → Z → Prop) : Prop :=
  preserves (λ vs : V * S, val_at Σ vs.1) body ∧
  ∀ k v s nv v' s',
    st_inv (Datatypes.S k) s → (∀ n, latest (histof s t) n → (n < max_int32)%Z) →
    body (v, s) = (Ok nv, (v', s')) →
    ∃ n, latest (histof s t) n ∧ Q (histof s t) n ∧ new_version nv t n desc actor
      ∧ commits (st_abs s) (st_abs s') t n nv rows (audits (n + 1)%Z)
      ∧ st_inv k s' ∧ st_cat s' = st_cat s
      ∧ (val_at Σ v → rules_met s t rules (histof s' t) (n + 1)).

(** The factory after a step of a body. *)
Ltac val_step E :=
  match type of E with
  | ?m (?v, ?s) = (_, (?v', _)) =>
      assert (val_at Σ v → val_at Σ v') by
        (refine (preserves_run (λ vs : V * S, val_at Σ vs.1) m (v, s) _ _ _ E); pres_tac)
  end.

Lemma rules_met_cat s s' t rules h u :
  st_cat s' = st_cat s → rules_met s' t rules h u → rules_met s t rules h u.
Proof.
  intros Hc [Hd Hcel]. split; [done|]. intros Hv. destruct (Hcel Hv) as (vr & Hr & [->|Hx]).
  { exists []. by split; [|left]. }
  exists vr. split; [done|]. right. destruct Hx as (ps & vs & tn & rows & ? & ? & Htn & ?).
  exists ps, vs, tn, rows. by destruct (st_cat_reads s' s Hc) as [<- _].
Qed.

(** The rules were checked in a state with the same catalogue. *)
Ltac rules_tac :=
  intros; match goal with H : val_at Σ _ → _ ∧ _ |- _ => eapply rules_met_cat; [|apply H; auto 10] end; congruence.

Lemma enforce_store t u rules v s r v' s' :
  enforceDependentRequiredInTx svc t u rules (v, s) = (r, (v', s')) → s' = s.
Proof.
  intros E. exact (keeps_run snd _ _ _ _ (keeps_enforce svc t u rules) E).
Qed.
Lemma txLatest_store t v s r v' s' :
  txLatestVersion t (v, s) = (r, (v', s')) → s' = s.
Proof. intros E. exact (keeps_run snd _ _ _ _ (keeps_txLatest t) E). Qed.
Lemma checksum_store t p e n v s r v' s' :
  checkChecksumAtVersion t p e n (v, s) = (r, (v', s')) → s' = s.
Proof. intros E. exact (keeps_run snd _ _ _ _ (keeps_checksum t p e n) E). Qed.

Lemma audit_Ok k arg v s v' s' :
  st_inv k s → tx_writes (InsertAuditWriteLog arg) (v, s) = (Ok tt, (v', s')) →
  st_inv k s' ∧ st_cat s' = st_cat s ∧ st_abs s' ≡ add_audit (st_abs s) [arg].
Proof.
  intros Hi E. unfold tx_writes in E. destruct (InsertAuditWriteLog arg s) as [r s1] eqn:Ha.
  simplify_eq. by apply st_audit_Ok.
Qed.
Lemma bulk_audit_Ok k ctxt args v s v' s' :
  st_inv k s →
  map_err (Wrap ctxt) (tx_writes (BulkInsertAuditWriteLog args)) (v, s) = (Ok tt, (v', s')) →
  st_inv k s' ∧ st_cat s' = st_cat s ∧ st_abs s' ≡ add_audit (st_abs s) args.
Proof.
  intros Hi E. st_inv. unfold tx_writes in E.
  destruct (BulkInsertAuditWriteLog args s) as [r s1] eqn:Ha. simplify_eq. by apply st_bulk_audit_Ok.
Qed.

(** [SetConfigValue] as a batch of one. *)
Lemma set_one_Ok k ctxt arg v s v' s' t u vr :
  map_err (Wrap ctxt) (tx_writes (SetConfigValue arg)) (v, s) = (Ok tt, (v', s')) →
  st_inv k s → histof s t !! u = Some vr → scv_ConfigVersionID arg = cv_ID (vr_meta vr) →
  st_inv k s' ∧ st_cat s' = st_cat s ∧ st_abs s' ≡ set_hist (st_abs s) t
      (<[u := append_rows vr [row_of_params arg]]> (histof s t)).
Proof.
  intros E Hi Hh Hid. st_inv. unfold tx_writes in E.
  destruct (SetConfigValue arg s) as [r s1] eqn:Hb. simplify_eq.
  by apply (st_set_Ok k s arg s' t u vr).
Qed.

Definition checksum_matches (h : Hist) (n : Z) (p : string) (expected : option string) : Prop :=
  ∀ e row, expected = Some e → snap h n p = Some row → derefString (row_Checksum row) = e.

Definition field_row (p : string) (value : option TypedValue) (desc : option string) : Row :=
  {| row_FieldPath := p; row_Value := typedValueToString value;
     row_Checksum := checksumPtr (typedValueToString value);
     row_Description := ptrString (default "" desc) |}.

Lemma SetField_tx_commits t actor req old sens rules :
  tx_commits (SetField_tx svc t actor req old sens rules) t
    (ptrString (default "" (sf_Description' req))) actor
    [field_row (sf_FieldPath' req) (sf_Value req) (sf_ValueDescription req)]
    (λ u, [field_audit t actor "set_field" (sf_FieldPath' req)
       (ptrString (redactIfSensitive (is_sensitive sens (sf_FieldPath' req)) old))
       (ptrString (redactIfSensitive (is_sensitive sens (sf_FieldPath' req))
          (derefString (typedValueToString (sf_Value req))))) u])
    rules (λ h n, checksum_matches h n (sf_FieldPath' req) (sf_ExpectedChecksum req)).
Proof.
  split; [pres_tac|]. intros k v s nv v' s' Hi Hmax E. unfold SetField_tx in E.
  apply bind_Ok in E as (n & [v1 s1] & E1 & E).
  pose proof (txLatest_Ok k t v s n _ ltac:(by eapply st_inv_le; [|done]; lia) E1) as Hl.
  val_step E1. apply txLatest_store in E1 as ->.
  apply bind_Ok in E as ([] & [v2 s2] & E2 & E). val_step E2.
  assert (s2 = s ∧ checksum_matches (histof s t) n (sf_FieldPath' req) (sf_ExpectedChecksum req))
    as [-> HQ].
  { destruct (sf_ExpectedChecksum req) as [ex|].
    - split; [by eapply checksum_store|]. intros e row [= <-] Hs. by eapply checksum_Ok.
    - apply ret_Ok in E2 as [_ [= -> ->]]. done. }
  apply bind_Ok in E as (nv' & [v3 s3] & E3 & E). val_step E3.
  destruct (create_next_Ok k _ _ _ _ _ _ _ _ _ _ Hi Hl (Hmax n Hl) E3) as (Hi3 & Hc3 & Hnv & Ha3).
  apply bind_Ok in E as ([] & [v4 s4] & E4 & E). val_step E4.
  destruct (set_one_Ok k _ _ _ _ _ _ t (n + 1)%Z {| vr_meta := nv'; vr_rows := [] |} E4 Hi3)
    as (Hi4 & Hc4 & Ha4); [by rewrite Ha3, hist_set_eq, lookup_insert_eq|done|].
  apply bind_Ok in E as ([] & [v5 s5] & E5 & E). val_step E5.
  pose proof (enforce_Ok k _ _ _ _ _ _ _ E5 ltac:(done)) as Hrules. apply enforce_store in E5 as ->.
  apply bind_Ok in E as ([] & [v6 s6] & E6 & E). val_step E6.
  destruct (audit_Ok k _ _ _ _ _ Hi4 E6) as (Hi6 & Hc6 & Ha6).
  apply ret_Ok in E as [-> [= -> ->]]. exists n. pose proof Hnv as (_ & Hv & _). rewrite Hv in Hrules, Ha6.
  split_and!; try done; [|congruence|].
  2:{ rewrite Ha6. by rules_tac. }
  unfold commits. by rewrite Ha6, Ha4, Ha3, hist_set_eq, set_hist_twice, insert_insert_eq.
Qed.

Lemma for_each_Ok {A} (P : A → Prop) (f : A → ST (V * S) unit) l v s v' s' :
  (∀ x, keeps snd (f x)) →
  (∀ x v1 v2, x ∈ l → f x (v1, s) = (Ok tt, (v2, s)) → P x) →
  for_each f l (v, s) = (Ok tt, (v', s')) → s' = s ∧ Forall P l.
Proof.
  intros Hk Hp. revert v. induction l as [|x l IH]; intros v E.
  { by apply ret_Ok in E as [_ [= -> ->]]. }
  apply bind_Ok in E as ([] & [v1 s1] & E1 & E).
  pose proof (keeps_run snd _ _ _ _ (Hk x) E1) as Hs. simpl in Hs. subst s1.
  destruct (IH) with (2 := E) as [-> Hf]; [intros; eapply Hp; [by right|done]|].
  split; [done|]. constructor; [|done]. eapply Hp; [by left|done].
Qed.

Lemma SetFields_tx_commits t actor req changes sens rules :
  tx_commits (SetFields_tx svc t actor req changes sens rules) t
    (ptrString (default "" (sfs_Description req))) actor
    ((λ u, field_row (fu_FieldPath u) (fu_Value u) (fu_ValueDescription u)) <$> sfs_Updates req)
    (λ u, update_audit t actor sens u <$> zip (sfs_Updates req) changes)
    rules (λ h n, Forall (λ u, checksum_matches h n (fu_FieldPath u) (fu_ExpectedChecksum u))
              (sfs_Updates req)).
Proof.
  split; [pres_tac|]. intros k v s nv v' s' Hi Hmax E. unfold SetFields_tx in E.
  assert (st_inv k s) as Hik by (by eapply st_inv_le; [|done]; lia).
  apply bind_Ok in E as (n & [v1 s1] & E1 & E).
  pose proof (txLatest_Ok k t v s n _ Hik E1) as Hl. val_step E1. apply txLatest_store in E1 as ->.
  apply bind_Ok in E as ([] & [v2 s2] & E2 & E). val_step E2.
  eapply (for_each_Ok (λ u, checksum_matches (histof s t) n (fu_FieldPath u) (fu_ExpectedChecksum u)))
    in E2 as [-> HQ].
  2:{ intros u. unfold check_update. keeps_tac. }
  2:{ intros u w1 w2 _ Hu e row He Hs. unfold check_update in Hu. rewrite He in Hu.
      by eapply checksum_Ok. }
  apply bind_Ok in E as (nv' & [v3 s3] & E3 & E). val_step E3.
  apply bind_Ok in E as ([] & [v4 s4] & E4 & E). val_step E4.
  destruct (create_and_fill k _ _ _ _ _ _ (λ id, update_params id <$> sfs_Updates req)
    _ _ _ _ _ _ _ E3 E4 Hi Hl (Hmax n Hl)) as (Hi4 & Hc4 & Hnv & Ha4).
  { intros id. apply Forall_fmap, Forall_true. done. }
  apply bind_Ok in E as ([] & [v5 s5] & E5 & E). val_step E5.
  destruct (bulk_audit_Ok k _ _ _ _ _ _ Hi4 E5) as (Hi5 & Hc5 & Ha5).
  apply bind_Ok in E as ([] & [v6 s6] & E6 & E). val_step E6.
  pose proof (enforce_Ok k _ _ _ _ _ _ _ E6 ltac:(done)) as Hrules. apply enforce_store in E6 as ->.
  apply ret_Ok in E as [-> [= -> ->]]. exists n. pose proof Hnv as (_ & Hv & _). rewrite Hv in Hrules, Ha5.
  split_and!; try done; [|congruence|by rules_tac].
  unfold commits. by rewrite Ha5, Ha4, <-list_fmap_compose.
Qed.

Lemma Rollback_tx_commits t actor desc target rows rules :
  tx_commits (Rollback_tx svc t actor desc target rows rules) t (Some desc) actor rows
    (λ u, [field_audit t actor "rollback" "" (ptrString "") (Some ("v" +:+ itoa target)) u])
    rules (λ _ _, True).
Proof.
  split; [pres_tac|]. intros k v s nv v' s' Hi Hmax E. unfold Rollback_tx in E.
  assert (st_inv k s) as Hik by (by eapply st_inv_le; [|done]; lia).
  apply bind_Ok in E as (n & [v1 s1] & E1 & E).
  pose proof (txLatest_Ok k t v s n _ Hik E1) as Hl. val_step E1. apply txLatest_store in E1 as ->.
  apply bind_Ok in E as (nv' & [v3 s3] & E3 & E). val_step E3.
  apply bind_Ok in E as ([] & [v4 s4] & E4 & E). val_step E4.
  destruct (create_and_fill k _ _ _ _ _ _ (λ id, rollback_params id <$> rows)
    _ _ _ _ _ _ _ E3 E4 Hi Hl (Hmax n Hl)) as (Hi4 & Hc4 & Hnv & Ha4).
  { intros id. apply Forall_fmap, Forall_true. done. }
  apply bind_Ok in E as ([] & [v6 s6] & E6 & E). val_step E6.
  pose proof (enforce_Ok k _ _ _ _ _ _ _ E6 ltac:(done)) as Hrules. apply enforce_store in E6 as ->.
  apply bind_Ok in E as ([] & [v5 s5] & E5 & E). val_step E5.
  destruct (audit_Ok k _ _ _ _ _ Hi4 E5) as (Hi5 & Hc5 & Ha5).
  apply ret_Ok in E as [-> [= -> ->]]. exists n. pose proof Hnv as (_ & Hv & _). rewrite Hv in Hrules, Ha5.
  split_and!; try done; [|congruence|].
  2:{ rewrite Ha5. by rules_tac. }
  unfold commits. rewrite Ha5, Ha4, <-list_fmap_compose. rewrite (list_fmap_ext _ id); [by rewrite list_fmap_id|].
  by intros i [] _.
Qed.

Definition import_row (x : configValueImport) : Row :=
  {| row_FieldPath := ci_FieldPath x; row_Value := Some (ci_Value x);
     row_Checksum := Some (computeChecksum (ci_Value x)); row_Description := ci_Description x |}.

Lemma Import_tx_commits t actor desc values changes sens rules :
  tx_commits (Import_tx svc t actor desc values changes sens rules) t (Some desc) actor
    (import_row <$> values)
    (λ u, import_audit t actor sens u <$> zip values changes) rules (λ _ _, True).
Proof.
  split; [pres_tac|]. intros k v s nv v' s' Hi Hmax E. unfold Import_tx in E.
  assert (st_inv k s) as Hik by (by eapply st_inv_le; [|done]; lia).
  apply bind_Ok in E as (n & [v1 s1] & E1 & E).
  pose proof (txLatest_Ok k t v s n _ Hik E1) as Hl. val_step E1. apply txLatest_store in E1 as ->.
  apply bind_Ok in E as (nv' & [v3 s3] & E3 & E). val_step E3.
  apply bind_Ok in E as ([] & [v4 s4] & E4 & E). val_step E4.
  destruct (create_and_fill k _ _ _ _ _ _ (λ id, import_params id <$> values)
    _ _ _ _ _ _ _ E3 E4 Hi Hl (Hmax n Hl)) as (Hi4 & Hc4 & Hnv & Ha4).
  { intros id. apply Forall_fmap, Forall_true. done. }
  apply bind_Ok in E as ([] & [v5 s5] & E5 & E). val_step E5.
  destruct (bulk_audit_Ok k _ _ _ _ _ _ Hi4 E5) as (Hi5 & Hc5 & Ha5).
  apply bind_Ok in E as ([] & [v6 s6] & E6 & E). val_step E6.
  pose proof (enforce_Ok k _ _ _ _ _ _ _ E6 ltac:(done)) as Hrules. apply enforce_store in E6 as ->.
  apply ret_Ok in E as [-> [= -> ->]]. exists n. pose proof Hnv as (_ & Hv & _). rewrite Hv in Hrules, Ha5.
  split_and!; try done; [|congruence|by rules_tac].
  unfold commits. by rewrite Ha5, Ha4, <-list_fmap_compose.
Qed.
End bodies.
