(* ===== verification/ServiceCommits.v ===== *)
(** * What the write handlers of the config service commit

    For every store that meets the store's laws: a failed write leaves the
    contents alone, a successful one makes one version; the lemmas here follow
    each handler through its checks to its transaction. *)
From S2P Require Import Prelude GoText Domain Convert Auth Cache PubSub CrossField ConfigStore MemStore.
From S2P Require Import Validation ValidatorFactory ConfigYaml ConfigService ServiceLemmas.
Import Convert Auth Authz.

(** ** The effect of a commit on the history *)
Lemma commits_effect a a' t n nv rows audits :
  commits a a' t n nv rows audits → (0 ≤ n)%Z → latest (hist a t) n →
  (∀ q, snap (hist a' t) (n + 1) q
        = match find_row q rows with Some r => Some r | None => snap (hist a t) n q end)
  ∧ (∀ u q, (u ≤ n)%Z → snap (hist a' t) u q = snap (hist a t) u q)
  ∧ (∀ t', t' ≠ t → hist a' t' = hist a t')
  ∧ latest (hist a' t) (n + 1)
  ∧ a_audit a' = a_audit a ++ audits.
Proof.
  intros Hc Hn Hl. unfold commits in Hc.
  assert (hist a' t = <[(n + 1)%Z := {| vr_meta := nv; vr_rows := rows |}]> (hist a t)) as Hh.
  { by rewrite Hc, hist_add_audit, hist_set_eq. }
  split_and!.
  - intros q. rewrite Hh. by rewrite snap_insert_next.
  - intros u q Hu. rewrite Hh. apply snap_insert_above. lia.
  - intros t' Ht. rewrite Hc, hist_add_audit. by rewrite hist_set_ne.
  - rewrite Hh. by apply latest_insert.
  - by rewrite Hc.
Qed.

Section theorems.
Context {S C I P V : Type}.
Context `{StoreOk S} `{ConfigCache C error, IdempotencyCache I error, Publisher P, ValidatorsOk V}.
Context `{XXHash, MapRange, Clock, Sched, CelCap, FloatOverflow, YamlLib}.
Context (svc : Service S).
Abbreviation W := (World S C I P V).
Abbreviation st := (w_store (S:=S) (C:=C) (I:=I) (P:=P) (V:=V)).
Implicit Types (w : W).
Abbreviation histw w t := (hist (st_abs (w_store w)) t).

(** Version numbers are 32 bits wide: no tenant has used up the last one. *)
Definition room w (t : string) : Prop := ∀ n, latest (histw w t) n → (n < max_int32)%Z.

(** *** The transaction of a write *)
Lemma run_tx_Err {A} k (fn : ST (V * S) A) w e w' :
  st_inv k (w_store w) → runInTxWithRetry fn w = (Err e, w') →
  st_inv k (w_store w') ∧ st_abs (w_store w') ≡ st_abs (w_store w)
  ∧ st_cat (w_store w') = st_cat (w_store w).
Proof.
  intros Hi E. unfold runInTxWithRetry in E.
  destruct (retryOnVersionConflict _ _ _) as [r [v s]] eqn:Hr. injection E as -> <-. simpl.
  by eapply retry_Err.
Qed.

Lemma run_tx_commits Σ k body t desc actor rows audits rules Q w nv w' :
  tx_commits svc Σ body t desc actor rows audits rules Q →
  st_inv (Datatypes.S k) (w_store w) → room w t →
  runInTxWithRetry body w = (Ok nv, w') →
  ∃ n, latest (histw w t) n ∧ Q (histw w t) n ∧ new_version nv t n desc actor
    ∧ commits (st_abs (w_store w)) (st_abs (w_store w')) t n nv rows (audits (n + 1)%Z)
    ∧ st_inv k (w_store w') ∧ st_cat (w_store w') = st_cat (w_store w) ∧ (0 ≤ n)%Z
    ∧ (val_at Σ (w_val w) →
       rules_met svc Σ (w_store w) t rules (histw w' t) (n + 1) ∧ val_at Σ (w_val w')).
Proof.
  intros [Hpre Hb] Hi Hroom E. unfold runInTxWithRetry in E.
  destruct (retryOnVersionConflict _ _ _) as [r [v s]] eqn:Hr. injection E as -> <-. simpl.
  destruct (retry_Ok _ _ _ _ _ _ _ _ Hi Hr)
    as (v1 & s1 & s2 & Hi1 & Ha1 & Hc1 & Hf & Hi2 & Ha2 & Hc2 & HQv).
  destruct (Hb k v1 s1 nv v s2 Hi1) as (n & Hl & HQ & Hnv & Hcm & Hik & Hck & Hru); [|done|].
  { intros n. rewrite Ha1. apply Hroom. }
  rewrite Ha1 in Hl, HQ. exists n. split_and!; [done..| |by apply Hi2|congruence| |].
  - unfold commits in *. by rewrite Ha2, Hcm, Ha1.
  - eapply latest_nonneg; [|done]. intros u. by eapply st_hist_pos.
  - intros Hat. pose proof (HQv _ Hpre Hat) as Hat1. rewrite Ha2.
    split; [by eapply rules_met_cat; [|apply Hru]|].
    exact (preserves_run _ _ (v1, s1) _ _ Hpre Hf Hat1).
Qed.

(** *** Stepping through a handler *)
Lemma bind_keep {A B} (m : ST W A) (g : A → ST W B) w r w' :
  keeps st m → (m ≫= g) w = (r, w') →
  (∃ a w1, m w = (Ok a, w1) ∧ w_store w1 = w_store w ∧ g a w1 = (r, w'))
  ∨ (∃ e, r = Err e ∧ m w = (Err e, w') ∧ w_store w' = w_store w).
Proof.
  intros Hm E. unfold mbind, ST_bind in E. destruct (m w) as [[a|e] w1] eqn:Em.
  - left. exists a, w1. split_and!; [done| |done]. by apply (keeps_run st m w (Ok a)).
  - right. exists e. injection E as <- <-. split_and!; [done..|]. by apply (keeps_run st m w (Err e)).
Qed.

(** The same, with the factory's state followed. *)
Lemma bind_quiet {A B} Σ (m : ST W A) (g : A → ST W B) w b w' :
  val_at Σ (w_val w) → keeps st m → preserves (λ w, val_at Σ (w_val w)) m →
  (m ≫= g) w = (Ok b, w') →
  ∃ a w1, m w = (Ok a, w1) ∧ w_store w1 = w_store w ∧ val_at Σ (w_val w1) ∧ g a w1 = (Ok b, w').
Proof.
  intros Hat Hm Hp E. apply bind_keep in E as [(a & w1 & E1 & Hs & E)|(? & ? & _)]; [|done..].
  exists a, w1. split_and!; [done..| |done]. exact (preserves_run _ _ _ _ _ Hp E1 Hat).
Qed.
End theorems.

(** One step of a handler that leaves the store alone. *)
Ltac hstep E a w1 E1 Hs :=
  apply bind_keep in E as [(a & w1 & E1 & Hs & E)|(?e & ?He & _ & ?Hs)];
    [|discriminate|solve [keeps_tac]].
(** The same for a handler whose factory is in order. *)
Ltac vstep E a w1 E1 Hs :=
  match type of E with
  | (_ ≫= _) ?w = _ =>
      match goal with
      | Hv : val_at ?Σ (w_val w) |- _ =>
          apply (bind_quiet Σ _ _ _ _ _ Hv) in E as (a & w1 & E1 & Hs & ? & E);
            [|solve [keeps_tac]|solve [pres_tac]]
      end
  end.

(** ** Failed writes *)
Section atomicity.
Context {S C I P V : Type}.
Context `{StoreOk S} `{ConfigCache C error, IdempotencyCache I error, Publisher P, ValidatorsOk V}.
Context `{XXHash, MapRange, Clock, Sched, CelCap, FloatOverflow, YamlLib}.
Context (svc : Service S).
Abbreviation W := (World S C I P V).
Abbreviation st := (w_store (S:=S) (C:=C) (I:=I) (P:=P) (V:=V)).

(** When [m] fails, the store holds what it held. *)
Definition atomic {A} (m : ST W A) : Prop := ∀ k w e w',
  st_inv k (w_store w) → m w = (Err e, w') →
  st_inv k (w_store w') ∧ st_abs (w_store w') ≡ st_abs (w_store w)
  ∧ st_cat (w_store w') = st_cat (w_store w).

Lemma atomic_keeps {A} (m : ST W A) : keeps st m → atomic m.
Proof. intros Hm k w e w' Hi E. by rewrite (keeps_run st m w _ w' Hm E). Qed.

Lemma atomic_bind {A B} (m : ST W A) (g : A → ST W B) :
  keeps st m → (∀ a, atomic (g a)) → atomic (m ≫= g).
Proof.
  intros Hm Hg k w e w' Hi E. apply bind_keep in E as [(a & w1 & _ & Hs & E)|(? & ? & _ & Hs)]; [| |done].
  - destruct (Hg a k w1 e w') as (? & ? & ?); rewrite ?Hs in *; done.
  - by rewrite Hs.
Qed.

Lemma total_bind {A B} (m : ST W A) (g : A → ST W B) :
  total m → (∀ a, total (g a)) → total (m ≫= g).
Proof.
  intros Hm Hg w. specialize (Hm w). unfold mbind, ST_bind.
  destruct (m w) as [[a|e] w1]; [apply Hg|done].
Qed.

(** The transaction, followed by steps that cannot fail. *)
Lemma atomic_tx {A B} f (fn : ST (V * S) A) (g : A → ST W B) :
  (∀ a, total (g a)) → atomic (map_err f (runInTxWithRetry fn) ≫= g).
Proof.
  intros Hg k w e w' Hi E. apply bind_Err in E as [E|(a & w1 & _ & E)].
  - apply map_err_Err in E as (e' & E & _). by eapply run_tx_Err.
  - specialize (Hg a w1). by rewrite E in Hg.
Qed.

Lemma total_invalidate t : total (invalidate (S:=S) (C:=C) (I:=I) (P:=P) (V:=V) t).
Proof.
  intros w. unfold invalidate, mbind, ST_bind, with_cache.
  by destruct (cc_Invalidate t (w_cache w)).
Qed.
Lemma total_publish t v cs a : total (publishChanges (S:=S) (C:=C) (I:=I) (P:=P) (V:=V) t v cs a).
Proof.
  intros w. unfold publishChanges, mbind, ST_bind, with_pub. simpl. by destruct (Publish _ _).
Qed.
Lemma total_ret {A} (a : A) : total (mret a : ST W A).
Proof. done. Qed.

Hint Resolve total_invalidate total_publish total_ret : frame.

Ltac total_tac := repeat first [solve [auto with frame] | apply total_bind; [|intros ?]].
Ltac atomic_tac :=
  repeat first
    [ solve [apply atomic_keeps; keeps_tac]
    | apply atomic_tx; intros ?; cbv zeta; solve [total_tac]
    | apply atomic_bind; [solve [keeps_tac]|intros ?]
    | match goal with |- atomic (if ?x then _ else _) => destruct x end
    | progress cbv zeta ].

Lemma atomic_SetField ctx req : atomic (SetField (C:=C) (I:=I) (P:=P) (V:=V) svc ctx req).
Proof. unfold SetField. atomic_tac. Qed.
Lemma keeps_vet_update ctx t u : keeps st (vet_update svc ctx t u).
Proof. unfold vet_update. keeps_tac. Qed.
Lemma keeps_vet_row ctx t types row : keeps st (vet_row svc ctx t types row).
Proof. unfold vet_row. keeps_tac. Qed.
Lemma keeps_vet_import ctx t types x : keeps st (vet_import svc ctx t types x).
Proof. unfold vet_import. keeps_tac. Qed.
Lemma keeps_resolveAccess ctx n action : keeps st (resolveTenantWithAccess svc ctx n action).
Proof. unfold resolveTenantWithAccess. keeps_tac. Qed.
Lemma keeps_filter t n values mode : keeps st (filterByImportMode t n values mode).
Proof. unfold filterByImportMode. keeps_tac. Qed.
Hint Resolve keeps_vet_update keeps_vet_row keeps_vet_import keeps_resolveAccess keeps_filter : frame.

Lemma atomic_SetFields ctx req : atomic (SetFields (C:=C) (I:=I) (P:=P) (V:=V) svc ctx req).
Proof. unfold SetFields. atomic_tac. Qed.
Lemma atomic_Rollback ctx req : atomic (RollbackToVersion (C:=C) (I:=I) (P:=P) (V:=V) svc ctx req).
Proof. unfold RollbackToVersion. atomic_tac. Qed.
Lemma atomic_Import ctx req : atomic (ImportConfig (C:=C) (I:=I) (P:=P) (V:=V) svc ctx req).
Proof. unfold ImportConfig. atomic_tac. Qed.
End atomicity.
#[export] Hint Resolve total_invalidate total_publish total_ret keeps_vet_update keeps_vet_row
  keeps_vet_import keeps_resolveAccess keeps_filter : frame.

(** ** Successful writes *)
Section commit.
Context {S C I P V : Type}.
Context `{StoreOk S} `{ConfigCache C error, IdempotencyCache I error, Publisher P, ValidatorsOk V}.
Context `{XXHash, MapRange, Clock, Sched, CelCap, FloatOverflow, YamlLib}.
Context (svc : Service S) (Σ : va_Schemas).
Abbreviation W := (World S C I P V).
Abbreviation st := (w_store (S:=S) (C:=C) (I:=I) (P:=P) (V:=V)).
Implicit Types (w : W).
Abbreviation histw w t := (hist (st_abs (w_store w)) t).

(** The value of a field in a snapshot, empty when it has none. *)
Definition current (h : Hist) (n : Z) (p : string) : string := derefString (snap h n p ≫= row_Value).

(** The store fails to read a value, other than by reporting that there is
    none. *)
Definition read_failed (s : S) (t p : string) (n : Z) : Prop :=
  ∃ e, GetConfigValueAtVersion t p n s = Err e ∧ is_NotFound e = false.

(** The value before a write, as the write attributes are checked against it
    and the audit entry reports it: the field's value in the latest version,
    and the empty text only when that is it or the store fails to read it. *)
Definition old_value (s : S) (t : string) (n : Z) (p old : string) : Prop :=
  old = current (hist (st_abs s) t) n p ∨ (read_failed s t p n ∧ old = "").

(** The attributes of a field allow a write over what the store has: it is not
    read-only, and a write-once field has no value yet (or the store failed to
    read it). *)
Definition writable (sets : schemaFieldSets) (s : S) (t : string) (n : Z) (p : string) : Prop :=
  ∀ attrs, WriteAttrs sets !! p = Some attrs →
    wa_ReadOnly attrs = false
    ∧ (wa_WriteOnce attrs = true → current (hist (st_abs s) t) n p = "" ∨ read_failed s t p n).

Lemma resolveVersion_latest k w t n w' :
  st_inv k (w_store w) → resolveVersion t None w = (Ok n, w') → latest (histw w t) n.
Proof.
  intros Hi E. unfold resolveVersion in E.
  apply bind_Ok in E as (r & w1 & E1 & E). apply try_Ok in E1. injection E1 as E1 <-.
  destruct r as [cv|e].
  - apply ret_Ok in E as [<- _]. by eapply st_latest_Ok.
  - destruct (is_NotFound e) eqn:Hn; [|done]. apply ret_Ok in E as [<- _].
    left. split; [done|]. by eapply st_latest_NotFound.
Qed.

Lemma getCurrentValue_old k w t p n old w' :
  st_inv k (w_store w) → getCurrentValue t p n w = (Ok old, w') → old_value (w_store w) t n p old.
Proof.
  intros Hi E. unfold getCurrentValue in E. unfold old_value, current. destruct (n =? 0)%Z eqn:Hn.
  { apply ret_Ok in E as [<- _]. apply Z.eqb_eq in Hn. subst n. by left. }
  apply bind_Ok in E as (r & w1 & E1 & E). apply try_Ok in E1. injection E1 as E1 <-.
  destruct r as [row|e]; apply ret_Ok in E as [<- _].
  - left. by rewrite (st_value_Ok k _ _ _ _ _ Hi E1).
  - destruct (is_NotFound e) eqn:He; [left|right; split; [by exists e|done]].
    by rewrite (st_value_NotFound k _ _ _ _ _ Hi E1 He).
Qed.

(** The parts of the world a helper's answer depends on. *)
Lemma fieldSets_store w1 w2 t :
  w_store w1 = w_store w2 →
  (getSchemaFieldSets t w1).1 = (getSchemaFieldSets (C:=C) (I:=I) (P:=P) (V:=V) t w2).1.
Proof.
  intros E. unfold getSchemaFieldSets, mbind, ST_bind, map_err, reads. rewrite E.
  destruct (GetTenantByID t _) as [tn|]; simpl; [|done]. rewrite E.
  destruct (GetSchemaVersion _ _ _) as [sv|]; simpl; [|done]. rewrite E.
  by destruct (GetSchemaFields _ _).
Qed.
Lemma resolveTenant_store w1 w2 name :
  w_store w1 = w_store w2 →
  (resolveTenantID name w1).1 = (resolveTenantID (C:=C) (I:=I) (P:=P) (V:=V) name w2).1.
Proof.
  intros E. unfold resolveTenantID, mbind, ST_bind, map_err, reads.
  destruct (bool_decide _); [done|]. destruct (IsUUID name); [done|].
  rewrite E. by destruct (GetTenantByName name _).
Qed.

Lemma total_run {A} (m : ST W A) w r w' : total m → m w = (r, w') → ∃ a, r = Ok a.
Proof. intros Hm E. specialize (Hm w). rewrite E in Hm. destruct r; [eauto|done]. Qed.

(** What a committed write of [rows] does to the store. *)
Definition write_effect w w' (t : string) (n : Z) (rows : list Row)
    (audits : list InsertAuditWriteLogParams) : Prop :=
  (∀ q, snap (histw w' t) (n + 1) q
        = match find_row q rows with Some r => Some r | None => snap (histw w t) n q end)
  ∧ (∀ u q, (u ≤ n)%Z → snap (histw w' t) u q = snap (histw w t) u q)
  ∧ (∀ t', t' ≠ t → histw w' t' = histw w t')
  ∧ latest (histw w' t) (n + 1)
  ∧ a_audit (st_abs (w_store w')) = a_audit (st_abs (w_store w)) ++ audits
  ∧ st_cat (w_store w') = st_cat (w_store w).

(** The dependentRequired rules of the tenant's schema. *)
Definition tenant_rules (t : string) (rules : list DependentRequired.DependentRequiredEntry) : Prop :=
  svc_validators svc = true →
  ∃ raw, va_dependentRequired Σ t = Ok raw
    ∧ rules = DependentRequired.UnmarshalDependentRequired raw.

(** The new version [nv] after [n], its effect, and the rules its snapshot
    meets. *)
Definition committed k w w' (t : string) (n : Z) (nv : ConfigVersion) (desc : option string)
    (actor : string) (rows : list Row) (audits : list InsertAuditWriteLogParams) : Prop :=
  latest (histw w t) n ∧ new_version nv t n desc actor ∧ write_effect w w' t n rows audits
  ∧ (∃ rules, tenant_rules t rules ∧ rules_met svc Σ (w_store w) t rules (histw w' t) (n + 1))
  ∧ st_inv k (w_store w') ∧ val_at Σ (w_val w').

(** The tail of a write handler: transaction, invalidation, publication. *)
Lemma write_tail {B} k f body t desc actor rows audits rules Q (post : ConfigVersion → ST W B)
    w0 w b w' :
  (map_err f (runInTxWithRetry body) ≫= post) w0 = (Ok b, w') →
  w_store w0 = w_store w →
  tx_commits svc Σ body t desc actor rows audits rules Q →
  (∀ nv, keeps st (post nv)) → (∀ nv, preserves (λ w, val_at Σ (w_val w)) (post nv)) →
  val_at Σ (w_val w0) → tenant_rules t rules → st_inv (Datatypes.S k) (w_store w) → room w t →
  ∃ n nv w1, Q (histw w t) n ∧ committed k w w' t n nv desc actor rows (audits (n + 1)%Z)
    ∧ post nv w1 = (Ok b, w').
Proof.
  intros E Hw Hb Hp Hpp Hat Hru Hi Hroom. apply bind_Ok in E as (nv & w1 & E1 & E).
  apply map_err_Ok in E1. rewrite <-Hw in Hi.
  destruct (run_tx_commits svc Σ k body t desc actor rows audits rules Q w0 nv w1 Hb Hi)
    as (n & Hl & HQ & Hnv & Hcm & Hik & Hck & Hn & Hrm); [unfold room; by rewrite Hw|done|].
  destruct (Hrm Hat) as [Hmet Hat1]. pose proof (preserves_run _ _ _ _ _ (Hpp nv) E Hat1) as Hat'.
  pose proof (keeps_run st (post nv) w1 (Ok b) w' (Hp nv) E) as Hs. rewrite <-Hs, Hw in *.
  destruct (commits_effect _ _ _ _ _ _ _ Hcm Hn Hl) as (? & ? & ? & ? & ?).
  exists n, nv, w1. unfold committed, write_effect. rewrite Hs in *. split_and!; eauto.
Qed.

(** *** The checks of a write *)
Definition may_write w (ctx : Ctx) (t p value : string) : Prop :=
  svc_guard svc (w_store w) ctx ActionWrite
    {| res_TenantID := t; res_FieldPath := p; res_Value := value |} = Ok tt.

(** The tenant's schema has the field, and the field's validator takes the
    value. *)
Definition validated (t p : string) (value : option TypedValue) : Prop :=
  svc_validators svc = true →
  ∃ vs fv, va_validators Σ t = Ok vs ∧ vs !! p = Some fv ∧ Validation.Validate fv value = Ok tt.

(** The types of the fields of the tenant's schema. *)
Definition schema_types (t : string) (types : option (gmap string FieldType)) : Prop :=
  svc_validators svc = true →
  ∃ vs, va_validators Σ t = Ok vs ∧ types = Some (Validation.fv_DomainFieldType <$> vs).

Definition attrs_ok (sets : schemaFieldSets) (p old : string) : Prop :=
  ∀ attrs, WriteAttrs sets !! p = Some attrs → checkWriteAttributes p attrs old = Ok tt.

Lemma attrs_writable sets s t n p old :
  old_value s t n p old → attrs_ok sets p old → writable sets s t n p.
Proof.
  intros Hold Ha attrs Hp. specialize (Ha attrs Hp). unfold checkWriteAttributes in Ha.
  destruct (wa_ReadOnly attrs); [done|]. split; [done|]. intros Ho. rewrite Ho in Ha. simpl in Ha.
  case_bool_decide as He; [|done]. subst old. destruct Hold as [<-|[? _]]; [by left|by right].
Qed.

Lemma validateField_Ok t p value w w' :
  validateField svc t p value w = (Ok tt, w') → val_at Σ (w_val w) → validated t p value.
Proof.
  intros E Hat Hv. unfold validateField in E. rewrite Hv in E. cbn [negb] in E.
  apply bind_Ok in E as (vs & w1 & E1 & E). apply map_err_Ok in E1. unfold with_val in E1.
  destruct (GetValidators t (w_val w)) as [r v'] eqn:Hg. injection E1 as -> <-.
  destruct (val_validators Σ t _ _ _ Hat Hg) as [Hr _].
  destruct (vs !! p) as [fv|] eqn:Hp; [|done].
  destruct (Validation.Validate fv value) as [[]|] eqn:Hf; [|done]. by exists vs, fv.
Qed.

Lemma fieldTypeMap_Ok t types w w' :
  fieldTypeMap svc t w = (Ok types, w') → val_at Σ (w_val w) → schema_types t types.
Proof.
  intros E Hat Hv. unfold fieldTypeMap in E. rewrite Hv in E. cbn [negb] in E.
  apply bind_Ok in E as (vs & w1 & E1 & E). apply map_err_Ok in E1. apply ret_Ok in E as [<- _].
  unfold with_val in E1. destruct (GetValidators t (w_val w)) as [r v'] eqn:Hg. injection E1 as -> <-.
  destruct (val_validators Σ t _ _ _ Hat Hg) as [Hr _]. by exists vs.
Qed.

Lemma check_attrs_Ok sets p old w w' :
  check_attrs sets p old w = (Ok tt, w') → attrs_ok sets p old.
Proof.
  intros E attrs Ha. unfold check_attrs in E. rewrite Ha in E. by apply of_result_Ok in E as [? _].
Qed.

Lemma depRules_Ok f t rules w w' :
  map_err f (fetchDependentRequiredRules svc t) w = (Ok rules, w') → val_at Σ (w_val w) →
  tenant_rules t rules.
Proof.
  intros E Hat Hv. apply map_err_Ok in E. unfold fetchDependentRequiredRules in E.
  rewrite Hv in E. cbn [negb] in E. apply bind_Ok in E as (raw & w1 & E1 & E).
  apply ret_Ok in E as [<- _]. unfold with_val in E1.
  destruct (GetDependentRequired t (w_val w)) as [r v'] eqn:Hg. injection E1 as -> <-.
  destruct (val_dependentRequired Σ t _ _ _ Hat Hg) as [Hr _]. by exists raw.
Qed.

(** Loops over steps that leave the store alone. *)
Lemma for_each_keep {A} (f : A → ST W unit) l w0 w w' :
  for_each f l w0 = (Ok tt, w') → w_store w0 = w_store w → val_at Σ (w_val w0) →
  (∀ x, keeps st (f x)) → (∀ x, preserves (λ w, val_at Σ (w_val w)) (f x)) →
  Forall (λ x, ∃ w1 w2, w_store w1 = w_store w ∧ val_at Σ (w_val w1) ∧ f x w1 = (Ok tt, w2)) l.
Proof.
  intros E Hw Hat Hk Hp. revert w0 Hw Hat E. induction l as [|x l IH]; intros w0 Hw Hat E; [done|].
  apply bind_Ok in E as ([] & w1 & E1 & E). constructor; [by exists w0, w1|].
  apply (IH w1); [| |done].
  - rewrite <-Hw. by eapply (keeps_run st (f x) w0).
  - exact (preserves_run _ _ _ _ _ (Hp x) E1 Hat).
Qed.
Lemma collect_keep {A B} (f : A → ST W B) l ys w0 w w' :
  collect f l w0 = (Ok ys, w') → w_store w0 = w_store w → (∀ x, keeps st (f x)) →
  Forall2 (λ x y, ∃ w1 w2, w_store w1 = w_store w ∧ f x w1 = (Ok y, w2)) l ys.
Proof.
  intros E Hw Hk. revert w0 ys Hw E. induction l as [|x l IH]; intros w0 ys Hw E.
  { apply ret_Ok in E as [<- _]. constructor. }
  apply bind_Ok in E as (y & w1 & E1 & E). apply bind_Ok in E as (ys' & w2 & E2 & E).
  apply ret_Ok in E as [<- <-]. constructor; [by exists w0, w1|].
  apply (IH w1); [|done]. rewrite <-Hw. by eapply (keeps_run st (f x) w0).
Qed.

(** *** The handlers *)
Definition field_update_row (u : FieldUpdate) : Row :=
  field_row (fu_FieldPath u) (fu_Value u) (fu_ValueDescription u).

Definition SetField_audit (ctx : Ctx) (t : string) (req : SetFieldRequest) (sets : schemaFieldSets)
    (old : string) (u : Z) : InsertAuditWriteLogParams :=
  let hide := redactIfSensitive (is_sensitive (Sensitive sets) (sf_FieldPath' req)) in
  field_audit t (getActor ctx) "set_field" (sf_FieldPath' req) (ptrString (hide old))
    (ptrString (hide (derefString (typedValueToString (sf_Value req))))) u.

Lemma latest_read k w w0 t n m w1 :
  st_inv k (w_store w) → w_store w0 = w_store w → latest (histw w t) n →
  resolveVersion t None w0 = (Ok m, w1) → m = n.
Proof.
  intros Hi Hw Hl E. apply (latest_unique (histw w t)); [by intros u; eapply st_hist_pos| |done].
  rewrite <-Hw in *. by eapply resolveVersion_latest.
Qed.

Lemma SetField_Ok k w ctx req resp w' t :
  SetField svc ctx req w = (Ok resp, w') →
  st_inv (Datatypes.S k) (w_store w) → room w t → val_at Σ (w_val w) →
  (resolveTenantID (sf_TenantId req) w).1 = Ok t →
  (resp_ConfigVersion resp = None ∧ w_store w' = w_store w)
  ∨ ∃ n nv sets old, resp_ConfigVersion resp = Some (configVersionToProto nv)
      ∧ may_write w ctx t (sf_FieldPath' req) (derefString (typedValueToString (sf_Value req)))
      ∧ validated t (sf_FieldPath' req) (sf_Value req)
      ∧ checksum_matches (histw w t) n (sf_FieldPath' req) (sf_ExpectedChecksum req)
      ∧ (getSchemaFieldSets t w).1 = Ok sets
      ∧ old_value (w_store w) t n (sf_FieldPath' req) old ∧ attrs_ok sets (sf_FieldPath' req) old
      ∧ committed k w w' t n nv (ptrString (default "" (sf_Description' req))) (getActor ctx)
          [field_row (sf_FieldPath' req) (sf_Value req) (sf_ValueDescription req)]
          [SetField_audit ctx t req sets old (n + 1)].
Proof.
  intros E Hi Hroom Hat Ht. unfold SetField in E.
  vstep E u0 w0 E0 Hs0. case_bool_decide; [done|].
  vstep E t' w1 E1 Hs1.
  assert (t' = t) as ->.
  { rewrite <-(resolveTenant_store w0 w), E1 in Ht by done. by simplify_eq/=. }
  vstep E u2 w2 E2 Hs2. injection E2 as Hguard <-. destruct u2.
  vstep E replay w3 E3 Hs3. destruct replay.
  { left. apply ret_Ok in E as [<- <-]. split; [done|congruence]. }
  right. cbv zeta in E.
  vstep E u4 w4 E4 Hs4. vstep E latestVersion w5 E5 Hs5.
  vstep E old w6 E6 Hs6. vstep E sets w7 E7 Hs7. vstep E u8 w8 E8 Hs8.
  vstep E rules w9 E9 Hs9. vstep E u10 w10 E10 Hs10. destruct u4, u8.
  eapply (write_tail k) with (w := w) in E as (n & nv & w11 & HQ & Hcm & Epost);
    [|congruence|apply SetField_tx_commits|intros ?; cbv zeta; solve [keeps_tac]
     |intros ?; solve [pres_tac]|done|by eapply depRules_Ok|done..].
  apply bind_Ok in Epost as (u12 & w12 & _ & Epost). cbv zeta in Epost.
  apply bind_Ok in Epost as (u13 & w13 & _ & Epost). apply ret_Ok in Epost as [<- _].
  exists n, nv, sets, old.
  assert (latestVersion = n) as ->
    by (eapply (latest_read _ w w4); [done|congruence|apply Hcm|done]).
  split_and!; [done| |by eapply validateField_Ok|done| | |by eapply check_attrs_Ok|done].
  - unfold may_write. by rewrite Hs1, Hs0 in Hguard.
  - by rewrite (fieldSets_store w w6), E7 by congruence.
  - assert (w_store w5 = w_store w) as Hw5 by congruence. rewrite <-Hw5.
    eapply (getCurrentValue_old (Datatypes.S k) w5); [by rewrite Hw5|done].
Qed.

(** The tenant a handler works on, once access is checked. *)
Lemma resolveAccess_Ok ctx name action w0 w t t' w1 :
  resolveTenantWithAccess svc ctx name action w0 = (Ok t', w1) → w_store w0 = w_store w →
  (resolveTenantID name w).1 = Ok t → t' = t.
Proof.
  intros E Hw Ht. apply bind_Ok in E as (t1 & w2 & E1 & E).
  apply bind_Ok in E as ([] & w3 & _ & E). apply ret_Ok in E as [<- _].
  rewrite <-(resolveTenant_store w0 w), E1 in Ht by done. by simplify_eq/=.
Qed.

Lemma vet_update_Ok ctx t u w0 w w' :
  vet_update svc ctx t u w0 = (Ok tt, w') → w_store w0 = w_store w → val_at Σ (w_val w0) →
  may_write w ctx t (fu_FieldPath u) (derefString (typedValueToString (fu_Value u)))
  ∧ validated t (fu_FieldPath u) (fu_Value u).
Proof.
  intros E Hw Hat. unfold vet_update in E. destruct (bool_decide _); [done|].
  apply bind_Ok in E as ([] & w1 & E1 & E). injection E1 as Hg <-. rewrite Hw in Hg.
  split; [done|]. by eapply validateField_Ok.
Qed.

(** What a change record says about a path: its value before the write. *)
Definition change_of (s : S) (t : string) (n : Z) (p new : string) (ch : changeRecord) : Prop :=
  cg_fieldPath ch = p ∧ cg_newValue ch = new ∧ old_value s t n p (cg_oldValue ch).

Lemma collect_changes k {A} (path new : A → string) t n l ys w0 w w' :
  collect (λ u, oldValue ← getCurrentValue t (path u) n;
                mret {| cg_fieldPath := path u; cg_oldValue := oldValue; cg_newValue := new u |})
    l w0 = (Ok ys, w') → w_store w0 = w_store w → st_inv k (w_store w) →
  Forall2 (λ u ch, change_of (w_store w) t n (path u) (new u) ch) l ys.
Proof.
  intros E Hw Hi. eapply collect_keep in E; [|done|intros x; keeps_tac].
  eapply Forall2_impl; [done|]. simpl. intros x y (w1 & w2 & Hw1 & E').
  apply bind_Ok in E' as (old & w3 & E1 & E'). apply ret_Ok in E' as [<- _].
  split_and!; [done..|]. rewrite <-Hw1. eapply (getCurrentValue_old k); [by rewrite Hw1|done].
Qed.

Lemma SetFields_Ok k w ctx req resp w' t :
  SetFields svc ctx req w = (Ok resp, w') →
  st_inv (Datatypes.S k) (w_store w) → room w t → val_at Σ (w_val w) →
  (resolveTenantID (sfs_TenantId req) w).1 = Ok t →
  (resp_ConfigVersion resp = None ∧ w_store w' = w_store w)
  ∨ ∃ n nv sets locks changes, resp_ConfigVersion resp = Some (configVersionToProto nv)
      ∧ GetFieldLocks t (w_store w) = Ok locks ∧ (getSchemaFieldSets t w).1 = Ok sets
      ∧ Forall (λ u, may_write w (WithFieldLockCache ctx locks) t (fu_FieldPath u)
                       (derefString (typedValueToString (fu_Value u)))
                     ∧ validated t (fu_FieldPath u) (fu_Value u)
                     ∧ checksum_matches (histw w t) n (fu_FieldPath u) (fu_ExpectedChecksum u))
          (sfs_Updates req)
      ∧ Forall2 (λ u ch, change_of (w_store w) t n (fu_FieldPath u)
                           (typedValueToDisplayString (fu_Value u)) ch)
          (sfs_Updates req) changes
      ∧ Forall (λ p, attrs_ok sets (fu_FieldPath p.1) (cg_oldValue p.2))
          (zip (sfs_Updates req) changes)
      ∧ committed k w w' t n nv (ptrString (default "" (sfs_Description req))) (getActor ctx)
          (field_update_row <$> sfs_Updates req)
          (update_audit t (getActor ctx) (Sensitive sets) (n + 1)
             <$> zip (sfs_Updates req) changes).
Proof.
  intros E Hi Hroom Hat Ht. unfold SetFields in E.
  vstep E u0 w0 E0 Hs0. vstep E t' w1 E1 Hs1.
  rewrite (resolveAccess_Ok _ _ _ _ w t t' _ E1) in * by done. clear t' E1.
  cbv zeta in E. destruct (_ =? 0)%Z; [done|]. destruct (_ && _); [done|].
  vstep E replay w3 E3 Hs3. destruct replay.
  { left. apply ret_Ok in E as [<- <-]. split; [done|congruence]. }
  right. vstep E locks w4 E4 Hs4. apply map_err_Ok in E4. injection E4 as E4 <-.
  vstep E u5 w5 E5 Hs5. vstep E latestVersion w6 E6 Hs6.
  vstep E changes w7 E7 Hs7. vstep E sets w8 E8 Hs8. vstep E u9 w9 E9 Hs9.
  vstep E rules w10 E10 Hs10. vstep E u11 w11 E11 Hs11. destruct u5, u9.
  eapply (write_tail k) with (w := w) in E as (n & nv & w12 & HQ & Hcm & Epost);
    [|congruence|apply SetFields_tx_commits|intros ?; solve [keeps_tac]
     |intros ?; solve [pres_tac]|done|by eapply depRules_Ok|done..].
  apply bind_Ok in Epost as (u13 & w13 & _ & Epost).
  apply bind_Ok in Epost as (u14 & w14 & _ & Epost). apply ret_Ok in Epost as [<- _].
  assert (latestVersion = n) as ->
    by (eapply (latest_read _ w w5); [done|congruence|apply Hcm|done]).
  exists n, nv, sets, locks, changes.
  split_and!; [done|by rewrite <-E4; f_equal; congruence| | | | |done].
  - by rewrite (fieldSets_store w w7), E8 by congruence.
  - eapply for_each_keep with (w := w) in E5;
      [|congruence|done|intros u; solve [keeps_tac]|intros u; solve [pres_tac]].
    rewrite Forall_forall in *. intros u Hu. destruct (E5 u Hu) as (w21 & w22 & Hw21 & Hat21 & Hv).
    destruct (vet_update_Ok _ _ _ _ w _ Hv Hw21 Hat21). split_and!; [done..|]. by apply HQ.
  - eapply collect_changes; [exact E7|congruence|done].
  - eapply for_each_keep with (w := w) in E9;
      [|congruence|done|intros u; solve [keeps_tac]|intros u; solve [pres_tac]].
    eapply Forall_impl; [exact E9|]. intros p (w21 & w22 & _ & _ & Hv). by eapply check_attrs_Ok.
Qed.

Lemma vet_row_Ok ctx t types row w0 w w' :
  vet_row svc ctx t types row w0 = (Ok tt, w') → w_store w0 = w_store w → val_at Σ (w_val w0) →
  may_write w ctx t (row_FieldPath row) (derefString (row_Value row))
  ∧ validated t (row_FieldPath row)
      (stringToTypedValue (row_Value row) (lookupFieldType types (row_FieldPath row))).
Proof.
  intros E Hw Hat. apply bind_Ok in E as ([] & w1 & E1 & E). injection E1 as Hg <-. rewrite Hw in Hg.
  split; [done|]. by eapply validateField_Ok.
Qed.

Lemma Rollback_Ok k w ctx req resp w' t :
  RollbackToVersion svc ctx req w = (Ok resp, w') →
  st_inv (Datatypes.S k) (w_store w) → room w t → val_at Σ (w_val w) →
  (resolveTenantID (rb_TenantId req) w).1 = Ok t →
  ∃ n nv sets locks types rows, resp = configVersionToProto nv
    ∧ is_snapshot (histw w t) (rb_Version req) rows ∧ rows ≠ [] ∧ schema_types t types
    ∧ GetFieldLocks t (w_store w) = Ok locks ∧ (getSchemaFieldSets t w).1 = Ok sets
    ∧ Forall (λ row, may_write w (WithFieldLockCache ctx locks) t (row_FieldPath row)
                       (derefString (row_Value row))
               ∧ validated t (row_FieldPath row)
                   (stringToTypedValue (row_Value row) (lookupFieldType types (row_FieldPath row))))
        rows
    ∧ (∀ row, row ∈ rows → ∃ old, old_value (w_store w) t n (row_FieldPath row) old
                                 ∧ attrs_ok sets (row_FieldPath row) old)
    ∧ committed k w w' t n nv
        (Some (default ("Rollback to version " +:+ itoa (rb_Version req)) (rb_Description req)))
        (getActor ctx) rows
        [field_audit t (getActor ctx) "rollback" "" (ptrString "")
           (Some ("v" +:+ itoa (rb_Version req))) (n + 1)].
Proof.
  intros E Hi Hroom Hat Ht. unfold RollbackToVersion in E.
  vstep E u0 w0 E0 Hs0. vstep E t' w1 E1 Hs1.
  rewrite (resolveAccess_Ok _ _ _ _ w t t' _ E1) in * by done. clear t' E1.
  cbv zeta in E. vstep E rows w2 E2 Hs2. apply map_err_Ok in E2. injection E2 as E2 <-.
  case_bool_decide as Hlen; [done|].
  vstep E locks w4 E4 Hs4. apply map_err_Ok in E4. injection E4 as E4 <-.
  vstep E types w5 E5 Hs5. vstep E u6 w6 E6 Hs6. vstep E sets w7 E7 Hs7.
  vstep E latestVersion w8 E8 Hs8. vstep E u9 w9 E9 Hs9. vstep E rules w10 E10 Hs10.
  vstep E u11 w11 E11 Hs11. destruct u6, u9.
  eapply (write_tail k) with (w := w) in E as (n & nv & w12 & _ & Hcm & Epost);
    [|congruence|apply Rollback_tx_commits|intros ?; solve [keeps_tac]
     |intros ?; solve [pres_tac]|done|by eapply depRules_Ok|done..].
  apply bind_Ok in Epost as (u13 & w13 & _ & Epost). apply ret_Ok in Epost as [<- _].
  assert (latestVersion = n) as ->
    by (eapply (latest_read _ w w7); [done|congruence|apply Hcm|done]).
  assert (w_store w1 = w_store w) as Hw1 by congruence. rewrite Hw1 in E2, E4.
  exists n, nv, sets, locks, types, rows.
  split_and!; [done|by eapply st_full_Ok|by intros ->|by eapply fieldTypeMap_Ok|done| | | |done].
  - by rewrite (fieldSets_store w w6), E7 by congruence.
  - eapply for_each_keep with (w := w) in E6;
      [|congruence|done|intros u; solve [keeps_tac]|intros u; solve [pres_tac]].
    eapply Forall_impl; [exact E6|]. intros row (w21 & w22 & Hw21 & Hat21 & Hv). by eapply vet_row_Ok.
  - eapply for_each_keep with (w := w) in E9;
      [|congruence|done|intros u; solve [keeps_tac]|intros u; solve [pres_tac]].
    rewrite Forall_forall in E9. intros row Hin. destruct (E9 row Hin) as (w21 & w22 & Hw21 & Hat21 & Hv).
    destruct (WriteAttrs sets !! row_FieldPath row) as [a|] eqn:Ha.
    2:{ exists (current (histw w t) n (row_FieldPath row)). split; [by left|]. intros a' Ha'. congruence. }
    apply bind_Ok in Hv as (old & w23 & Hold & Hv). apply of_result_Ok in Hv as [Hv _].
    exists old. split; [|intros a' Ha'; congruence].
    rewrite <-Hw21. eapply (getCurrentValue_old (Datatypes.S k)); [by rewrite Hw21|done].
Qed.

Lemma vet_import_Ok ctx t types x w0 w w' :
  vet_import svc ctx t types x w0 = (Ok tt, w') → w_store w0 = w_store w → val_at Σ (w_val w0) →
  may_write w ctx t (ci_FieldPath x) (ci_Value x)
  ∧ validated t (ci_FieldPath x)
      (stringToTypedValue (Some (ci_Value x)) (default (FieldTypeOther "") (types !! ci_FieldPath x))).
Proof.
  intros E Hw Hat. unfold vet_import in E. cbv zeta in E. destruct (_ && _); [done|].
  apply bind_Ok in E as ([] & w1 & E1 & E). injection E1 as Hg <-. rewrite Hw in Hg.
  split; [done|]. by eapply validateField_Ok.
Qed.
End commit.

(** ** Imports *)
Section import.
Context {S C I P V : Type}.
Context `{StoreReliable S} `{ConfigCache C error, IdempotencyCache I error, Publisher P, ValidatorsOk V}.
Context `{XXHash, MapRange, Clock, Sched, CelCap, FloatOverflow, YamlLib}.
Context (svc : Service S) (Σ : va_Schemas).
Abbreviation W := (World S C I P V).
Abbreviation st := (w_store (S:=S) (C:=C) (I:=I) (P:=P) (V:=V)).
Implicit Types (w : W).
Abbreviation histw w t := (hist (st_abs (w_store w)) t).

Lemma getCurrentValue_exact k w t p n old w' :
  st_inv k (w_store w) → getCurrentValue t p n w = (Ok old, w') → old = current (histw w t) n p.
Proof.
  intros Hi E. unfold getCurrentValue in E. destruct (n =? 0)%Z eqn:Hn.
  { apply ret_Ok in E as [<- _]. apply Z.eqb_eq in Hn. by subst n. }
  apply bind_Ok in E as (r & w1 & E1 & E). apply try_Ok in E1. injection E1 as E1 <-.
  unfold current. destruct r as [row|e]; apply ret_Ok in E as [<- _].
  - by rewrite (st_value_Ok k _ _ _ _ _ Hi E1).
  - by rewrite (st_value_NotFound k _ _ _ _ _ Hi E1 (sr_value k _ _ _ _ _ Hi E1)).
Qed.

(** The values an import writes, by mode. *)
Definition import_selection (h : Hist) (n : Z) (mode : ImportMode)
    (values : list configValueImport) : list configValueImport :=
  match mode with
  | IMPORT_MODE_REPLACE => values
  | IMPORT_MODE_DEFAULTS => filter (λ v, snap h n (ci_FieldPath v) = None) values
  | _ => if (n =? 0)%Z then values
         else filter (λ v, current h n (ci_FieldPath v) ≠ ci_Value v) values
  end.

Lemma collect_changed k t n values kept w0 w w' :
  collect (λ v, current ← getCurrentValue t (ci_FieldPath v) n;
                mret (if bool_decide (current = ci_Value v) then None else Some v)) values w0
    = (Ok kept, w') → w_store w0 = w_store w → st_inv k (w_store w) →
  omap id kept = filter (λ v, current (histw w t) n (ci_FieldPath v) ≠ ci_Value v) values.
Proof.
  intros E Hw Hi. eapply collect_keep in E; [|done|intros x; keeps_tac].
  induction E as [|v y values ys (w1 & w2 & Hw1 & Ey) E IH]; [done|].
  apply bind_Ok in Ey as (old & w3 & E1 & Ey). apply ret_Ok in Ey as [<- _].
  apply (getCurrentValue_exact k) in E1; [|by rewrite Hw1]. rewrite Hw1 in E1. subst old.
  rewrite filter_cons. case_bool_decide; csimpl.
  - by rewrite decide_False by naive_solver.
  - rewrite decide_True by done. by f_equal.
Qed.

Lemma filterByImportMode_Ok k t n values mode vs w0 w w' :
  filterByImportMode t n values mode w0 = (Ok vs, w') → w_store w0 = w_store w →
  st_inv k (w_store w) → vs = import_selection (histw w t) n mode values.
Proof.
  intros E Hw Hi. unfold filterByImportMode, import_selection in *.
  assert (n = 0%Z → values = filter (λ v, snap (histw w t) n (ci_FieldPath v) = None) values) as Hz.
  { intros ->. symmetry. by apply list_filter_all. }
  destruct mode; [| |by apply ret_Ok in E as [<- _]|];
    (destruct (n =? 0)%Z eqn:Hn; [apply ret_Ok in E as [<- _]; try done; by apply Hz, Z.eqb_eq|]).
  1, 2: apply bind_Ok in E as (kept & w1 & E1 & E); apply ret_Ok in E as [<- _];
    by eapply collect_changed.
  apply bind_Ok in E as (r & w1 & E1 & E). apply try_Ok in E1. injection E1 as E1 <-.
  rewrite Hw in E1. destruct r as [rows|e].
  2:{ pose proof (sr_full k _ t n Hi) as Hf. by rewrite E1 in Hf. }
  apply ret_Ok in E as [<- _]. apply list_filter_iff. intros v.
  rewrite <-(is_snapshot_lookup _ _ rows) by (by eapply st_full_Ok). by rewrite find_row_None.
Qed.

Definition import_description (req : ImportConfigRequest) (parsed : ParsedImport) : string :=
  match im_Description req with
  | Some d => d
  | None => if bool_decide (pc_Description parsed = "") then "Import from YAML"
            else pc_Description parsed
  end.

Lemma Import_Ok k w ctx req resp w' t :
  ImportConfig svc ctx req w = (Ok resp, w') →
  st_inv (Datatypes.S k) (w_store w) → room w t → val_at Σ (w_val w) →
  (resolveTenantID (im_TenantId req) w).1 = Ok t →
  ∃ n nv sets types parsed values changes, resp = configVersionToProto nv
    ∧ schema_types svc Σ t types ∧ DispatchImport (im_YamlContent req) (default ∅ types) = Ok parsed
    ∧ Forall (λ v, may_write svc w ctx t (ci_FieldPath v) (ci_Value v)
                ∧ validated svc Σ t (ci_FieldPath v)
                    (stringToTypedValue (Some (ci_Value v))
                       (default (FieldTypeOther "") (default ∅ types !! ci_FieldPath v))))
        (pc_Values parsed)
    ∧ values = import_selection (histw w t) n (im_Mode req) (pc_Values parsed) ∧ values ≠ []
    ∧ (getSchemaFieldSets t w).1 = Ok sets
    ∧ Forall2 (λ v ch, change_of (w_store w) t n (ci_FieldPath v) (ci_Value v) ch) values changes
    ∧ Forall (λ p, attrs_ok sets (ci_FieldPath p.1) (cg_oldValue p.2)) (zip values changes)
    ∧ committed svc Σ k w w' t n nv (Some (import_description req parsed)) (getActor ctx)
        (import_row <$> values)
        (import_audit t (getActor ctx) (Sensitive sets) (n + 1) <$> zip values changes).
Proof.
  intros E Hi Hroom Hat Ht. unfold ImportConfig in E.
  vstep E u0 w0 E0 Hs0. cbv zeta in E. destruct (_ && _); [done|].
  vstep E t' w1 E1 Hs1.
  rewrite (resolveAccess_Ok _ _ _ _ _ w t t' _ E1) in * by done. clear t' E1.
  vstep E tn w2 E2 Hs2. vstep E types w3 E3 Hs3. vstep E parsed w4 E4 Hs4.
  apply map_err_Ok, of_result_Ok in E4 as [E4 _].
  vstep E u5 w5 E5 Hs5. vstep E latestVersion w6 E6 Hs6. vstep E values w7 E7 Hs7.
  case_bool_decide as Hlen; [done|]. vstep E changes w8 E8 Hs8. vstep E sets w9 E9 Hs9.
  vstep E u10 w10 E10 Hs10. vstep E rules w11 E11 Hs11. vstep E u12 w12 E12 Hs12. destruct u5, u10.
  eapply (write_tail svc Σ k) with (w := w) in E as (n & nv & w13 & _ & Hcm & Epost);
    [|congruence|apply Import_tx_commits|intros ?; solve [keeps_tac]
     |intros ?; solve [pres_tac]|done|by eapply depRules_Ok|done..].
  apply bind_Ok in Epost as (u14 & w14 & _ & Epost).
  apply bind_Ok in Epost as (u15 & w15 & _ & Epost). apply ret_Ok in Epost as [<- _].
  assert (latestVersion = n) as ->
    by (eapply (latest_read _ w w5); [done|congruence|apply Hcm|done]).
  exists n, nv, sets, types, parsed, values, changes.
  split_and!; [done| |done| | |by intros ->| | | |done].
  - by eapply fieldTypeMap_Ok.
  - eapply for_each_keep with (w := w) in E5;
      [|congruence|done|intros u; solve [keeps_tac]|intros u; solve [pres_tac]].
    eapply Forall_impl; [exact E5|]. intros v (w21 & w22 & Hw21 & Hat21 & Hv). by eapply vet_import_Ok.
  - eapply filterByImportMode_Ok; [exact E7|congruence|done].
  - by rewrite (fieldSets_store w w8), E9 by congruence.
  - eapply collect_changes; [exact E8|congruence|done].
  - eapply for_each_keep with (w := w) in E10;
      [|congruence|done|intros u; solve [keeps_tac]|intros u; solve [pres_tac]].
    eapply Forall_impl; [exact E10|]. intros p (w21 & w22 & _ & _ & Hv). by eapply check_attrs_Ok.
Qed.
End import.
