(* ===== verification/Scenario.v ===== *)
(** * A concrete deployment

    The service over its in-memory components, with one tenant, its schema and
    its rules: the inputs the witnesses of the service's theorems run on. *)
From S2P Require Import Prelude GoText GoTime Domain Convert Auth Cache PubSub CrossField ConfigStore.
From S2P Require Import Validation ValidatorFactory ValidatorFactoryFacts.
From Stdlib Require Import Ascii.
From S2P Require Import GoFloat GoAny ConfigYaml ConfigYamlFacts MemStore MemStoreFacts ConfigService ServiceLemmas ServiceCommits.
Import Convert Auth Authz.

(** ** The in-memory store as the factory's store

    A schema version is stored under its own key, and keys are injective. *)
Definition versions_keyed (s : MemStore.MemoryStore) : Prop :=
  map_Forall (λ k sv, k = MemStore.schema_key (sv_SchemaID sv) (sv_Version sv)) (MemStore.schemaVersions s).

Lemma schema_key_inj id1 v1 id2 v2 :
  MemStore.schema_key id1 v1 = MemStore.schema_key id2 v2 → id1 = id2 ∧ v1 = v2.
Proof.
  unfold MemStore.schema_key. intros E. assert (∀ s, ":" +:+ s = String ":"%char s) as Hs by done.
  rewrite !Hs in E. apply last_sep_inj in E as [-> E]; [|by apply no_char_itoa..].
  split; [done|by apply itoa_inj].
Qed.

Lemma versions_keyed_set sv s :
  versions_keyed s → versions_keyed (MemStore.SetSchemaVersion sv s).
Proof. intros Hs. by apply map_Forall_insert_2. Qed.

#[export] Instance mem_schema_store_ok `{Random, Clock, MapRange} : SchemaStoreOk MemStore.MemoryStore.
Proof.
  refine {| ss_ok := versions_keyed |}.
  intros s id v sv Hs E. simpl in E. unfold MemStore.GetSchemaVersion in E.
  destruct (_ !! _) as [sv'|] eqn:Hl; [|done]. simplify_eq. apply Hs in Hl.
  apply schema_key_inj in Hl as [-> ->]. done.
Defined.

(** A library that writes documents of native values: the document's number in
    stdpp's enumeration, in binary. *)
Module PlainYaml.
Import GoAny ConfigDoc.

Fixpoint bits (p : positive) : string :=
  match p with
  | xH => ""
  | xO p => String "0"%char (bits p)
  | xI p => String "1"%char (bits p)
  end.
Fixpoint unbits (s : string) : positive :=
  match s with
  | "" => xH
  | String c s => if bool_decide (c = "0"%char) then xO (unbits s) else xI (unbits s)
  end.
Lemma unbits_bits p : unbits (bits p) = p.
Proof. induction p as [p IH|p IH|]; simpl; by rewrite ?IH. Qed.

(** The values it can write, as trees, and how it reads them. *)
#[export] Instance float_countable : Countable float64.
Proof.
  refine (inj_countable'
    (λ x, match x with
          | S754_zero b => inl (inl (inl b)) | S754_infinity b => inl (inl (inr b)) | S754_nan => inl (inr tt)
          | S754_finite b m e => inr (b, m, e)
          end)
    (λ c, match c with
          | inl (inl (inl b)) => S754_zero b | inl (inl (inr b)) => S754_infinity b | inl (inr _) => S754_nan
          | inr (b, m, e) => S754_finite b m e
          end) _); by intros [].
Defined.
Abbreviation leaf := (string + Z + bool + unit + float64)%type.
Abbreviation code := (gen_tree leaf).
Fixpoint code_of (v : any) : option code :=
  match v with
  | AString s => Some (GenLeaf (inl (inl (inl (inl s)))))
  | AInt64 z => Some (GenLeaf (inl (inl (inl (inr z)))))
  | ABool b => Some (GenLeaf (inl (inl (inr b))))
  | ANil => Some (GenLeaf (inl (inr tt)))
  | GoAny.AFloat x => Some (GenLeaf (inr x))
  | AList l =>
      ts ← (fix go l := match l with [] => Some [] | x :: l => t ← code_of x; ts ← go l; Some (t :: ts) end) l;
      Some (GenNode 0 ts)
  | AMap m =>
      ts ← (fix go m := match m with
                        | [] => Some []
                        | (k, x) :: m =>
                            t ← code_of x; ts ← go m; Some (GenLeaf (inl (inl (inl (inl k)))) :: t :: ts)
                        end) m;
      Some (GenNode 1 ts)
  | _ => None
  end.
Fixpoint value_of (c : code) : any :=
  match c with
  | GenLeaf (inl (inl (inl (inl s)))) => AString s
  | GenLeaf (inl (inl (inl (inr z)))) => AInt z
  | GenLeaf (inl (inl (inr b))) => ABool b
  | GenLeaf (inl (inr _)) => ANil
  | GenLeaf (inr x) => GoAny.AFloat x
  | GenNode 0 ts => AList ((fix go l := match l with [] => [] | t :: l => value_of t :: go l end) ts)
  | GenNode _ ts =>
      AMap ((fix go l := match l with
                         | GenLeaf (inl (inl (inl (inl k)))) :: t :: l => (k, value_of t) :: go l
                         | _ => []
                         end) ts)
  end.
Definition encode_value (v : ConfigValueYAML) : option (code * string) :=
  if bool_decide (size (yv_Extensions v) = 0)
  then (λ c, (c, yv_Description v)) <$> code_of (yv_Value v) else None.
Definition decode_value (c : code * string) : ConfigValueYAML := mkValue (value_of c.1) c.2 ∅.

Abbreviation plain := (string * Z * string * gmap string (code * string))%type.
Definition write (doc : ConfigYAML) : result error string :=
  if bool_decide (map_Forall (λ _ v, is_Some (encode_value v)) (Values doc))
     && bool_decide (size (Extensions doc) = 0)
  then Ok (bits (encode (SpecVersion doc, yd_Version doc, yd_Description doc,
                         omap encode_value (Values doc) : gmap string (code * string))))
  else Err (Errorf "cannot write" []).
Definition read (data : string) : result error ConfigYAML :=
  match decode (unbits data) : option plain with
  | Some (spec, version, description, values) =>
      Ok (mkDoc spec version description (decode_value <$> values) ∅)
  | None => Err (Errorf "cannot read" [])
  end.
#[export] Instance lib : YamlLib := {|
  yaml_Header data := match read data with Ok doc => Ok (SpecVersion doc) | Err e => Err e end;
  yaml_Unmarshal := read;
  yaml_Marshal := write
|}.

Lemma reads_code v c : code_of v = Some c → reads_as v (value_of c).
Proof.
  revert c. induction v as [| | | | | | |l IH|m IH|] using any_nested_ind; intros c; cbn [code_of];
    try (by intros [= <-]; constructor); try done.
  - intros (ts & Hts & [= <-])%bind_Some. cbn [value_of]. constructor. revert ts Hts.
    induction IH as [|v l Hv _ IHl]; intros ts; [by intros [= <-]|].
    intros (t & Ht & (ts' & Hts & [= <-])%bind_Some)%bind_Some. constructor; [by apply Hv|by apply IHl].
  - intros (ts & Hts & [= <-])%bind_Some. cbn [value_of]. constructor. revert ts Hts.
    induction IH as [|[k v] m Hv _ IHm]; intros ts; [by intros [= <-]|].
    intros (t & Ht & (ts' & Hts & [= <-])%bind_Some)%bind_Some. constructor; [split; [done|by apply Hv]|by apply IHm].
Qed.

#[export] Instance lib_ok : YamlLibOk.
Proof.
  intros doc data E Hext Hval. simpl in *. unfold write in E.
  case_bool_decide as Hall; [|done]. rewrite Hext, map_size_empty in E. simpl in E.
  injection E as <-. unfold read. rewrite unbits_bits, decode_encode. split; [done|].
  eexists. split; [done|]. intros p. rewrite lookup_fmap, lookup_omap.
  destruct (Values doc !! p) as [v|] eqn:Hv; simpl; [|done].
  destruct (Hall p v Hv) as [c Hc]. rewrite Hc. simpl. unfold encode_value in Hc.
  case_bool_decide; [|done]. destruct (code_of (yv_Value v)) as [c0|] eqn:Hcode; [|done].
  simplify_eq/=. split_and!; [by apply reads_code|done..].
Qed.
End PlainYaml.

Module Scenario.

(** Sources outside the program. *)
#[export] Instance sc_range : MapRange := map_to_list_range.
#[export] Instance sc_range_ok : @MapRangeOk sc_range := map_to_list_range_ok.
#[export] Instance sc_random : Random := λ n, replicate 15 0%Z ++ [Z.of_nat n `mod` 256]%Z.
#[export] Instance sc_clock : Clock := λ n, (Second * Z.of_nat n)%Z.
#[export] Instance sc_hash : XXHash := λ s, Z.of_nat (str_len s).
#[export] Instance sc_sched : Sched := false.
#[export] Instance sc_cap : CelCap := 1000%Z.

(** Sources of the validators: one program, whatever the rule; patterns are
    literal texts; the JSON Schema library takes every document. *)
#[export] Instance sc_cel : CelCompile := {|
  cel_Env := unit;
  cel_NewEnv := Ok tt;
  cel_Program _ _ := Ok (λ act, Cel.OVal (Cel.CelBool (bool_decide (length act = 2))) (Some 1%Z))
|}.
#[export] Instance sc_regexp : Regexp := λ p, Ok (λ s, bool_decide (p = s)).
#[export] Instance sc_jsonschema : JsonSchema := {|
  js_doc := unit;
  js_schema := unit;
  js_UnmarshalJSON _ := Ok tt;
  js_AddResource _ := Ok tt;
  js_Compile _ := Ok tt;
  js_Validate _ _ := Ok tt
|}.
#[export] Instance sc_race : CompileRace := λ _, true.
(** The host is what is between two slashes and the next. *)
#[export] Instance sc_url : UrlRest := λ _ rest,
  match rest with
  | String "/" (String "/" r) => Some (match cut_char "/"%char r with Some (host, _) => host | None => r end)
  | _ => Some ""
  end.

(** The YAML library, and documents made with it. *)
#[export] Instance sc_yaml : YamlLib := PlainYaml.lib.
#[export] Instance sc_yaml_ok : @YamlLibOk sc_yaml := PlainYaml.lib_ok.
#[export] Instance sc_overflow : FloatOverflow := λ _, min_int64.
Definition document (values : list (string * string)) : string :=
  match MarshalConfigAt 0 "" ((λ p, Build_configRow p.1 p.2 None) <$> values) ∅ "" with
  | Ok data => data
  | Err _ => ""
  end.

(** The tenant and its schema. *)
Definition tid : string := "00000000-0000-0000-0000-0000000000aa".
(** A JSON string literal, and an object with one member. *)
Definition quoted (text : string) : string := String "034"%char text +:+ String "034"%char "".
Definition member (name value : string) : string := "{" +:+ quoted name +:+ ":" +:+ value +:+ "}".
(** At most eight characters. *)
Definition short : string := member "max_length" "8".
(** A certificate needs a key. *)
Definition cert_needs_key : list DependentRequired.DependentRequiredEntry :=
  [{| DependentRequired.TriggerField := "cert"; DependentRequired.DependentFields := ["key"] |}].
Definition typed_field (ft : FieldType) (constraints : option string) (path : string) (ro wo sensitive : bool) : SchemaField :=
  {| sf_ID := path; sf_SchemaVersionID := "sv"; sf_Path := path; sf_FieldType := ft;
     sf_Constraints := constraints; sf_Nullable := true; sf_Deprecated := false; sf_RedirectTo := None;
     sf_DefaultValue := None; sf_Description := None; sf_Title := None; sf_Example := None;
     sf_Examples := None; sf_ExternalDocs := None; sf_Tags := []; sf_Format := None;
     sf_ReadOnly := ro; sf_WriteOnce := wo; sf_Sensitive := sensitive |}.
Definition field : string → bool → bool → bool → SchemaField :=
  typed_field FieldTypeString (Some short).
Definition catalogue (s : MemStore.MemoryStore) : MemStore.MemoryStore :=
  MemStore.SetSchemaFields "sv"
    [field "name" false false false; typed_field FieldTypeString None "token" false false true;
     field "cert" false false false; field "key" false false false;
     field "serial" true false false; typed_field FieldTypeInteger None "port" false false false]
    (MemStore.SetSchemaVersion
       {| sv_ID := "sv"; sv_SchemaID := "sch"; sv_Version := 1; sv_ParentVersion := None;
          sv_Description := None; sv_Checksum := ""; sv_Published := true;
          sv_DependentRequired := DependentRequired.marshalDependentRequired cert_needs_key;
          sv_Validations := "[" +:+ member "rule" (quoted "has(tenant.id)") +:+ "]"; sv_CreatedAt := 0 |}
       (MemStore.SetTenant
          {| tn_ID := tid; tn_Name := "acme"; tn_SchemaID := "sch"; tn_SchemaVersion := 1;
             tn_CreatedAt := 0; tn_UpdatedAt := 0; tn_DeletedAt := None |} s)).

Abbreviation W := (World MemStore.MemoryStore MemoryCache.MemoryCache
  MemoryIdempotencyCache.MemoryIdempotencyCache MemoryPubSub.MemoryPubSub
  (ValidatorFactory MemStore.MemoryStore cel_Env)).

Definition svc : Service MemStore.MemoryStore := NewService true true true None None.
Definition admin : Ctx := mkCtx (Some {| Subject := "ann"; role := RoleAdmin; TenantIDs := [tid] |}) false None.

Definition world0 : W :=
  mkWorld (catalogue MemStore.NewMemoryStore) (MemoryCache.NewMemoryCache 4)
    (MemoryIdempotencyCache.NewMemoryIdempotencyCache 4) MemoryPubSub.NewMemoryPubSub
    (NewValidatorFactory (catalogue MemStore.NewMemoryStore) []) [] 0.

Definition set_req (path value : string) : SetFieldRequest :=
  {| sf_TenantId := "acme"; sf_FieldPath' := path; sf_Value := Some (Some (StringValue value));
     sf_ExpectedChecksum := None; sf_Description' := Some "d"; sf_ValueDescription := None;
     sf_IdempotencyKey := Some ("k-" +:+ path +:+ value) |}.

(** After [name] is set to "one", and then to "two" together with a token. *)
Definition world1 : W := (SetField svc admin (set_req "name" "one") world0).2.
Definition batch : SetFieldsRequest :=
  {| sfs_TenantId := "acme";
     sfs_Updates :=
       [{| fu_FieldPath := "name"; fu_Value := Some (Some (StringValue "two"));
           fu_ExpectedChecksum := Some (computeChecksum "one"); fu_ValueDescription := None |};
        {| fu_FieldPath := "token"; fu_Value := Some (Some (StringValue "secret"));
           fu_ExpectedChecksum := None; fu_ValueDescription := None |}];
     sfs_Description := None; sfs_IdempotencyKey := None |}.
Definition world2 : W := (SetFields svc admin batch world1).2.

(** ** The worlds are well formed *)
Lemma catalogue_inv k s : inv k s → inv k (catalogue s).
Proof. intros [[] Hs]. done. Qed.

Lemma sc_distinct i j : i < 4 → j < 4 → uuid_v4 (random i) = uuid_v4 (random j) → i = j.
Proof.
  intros Hi Hj E.
  destruct i as [|[|[|[|i]]]], j as [|[|[|[|j]]]]; try done; try lia; exfalso; vm_compute in E; done.
Qed.

Lemma world0_inv : st_inv 4 (w_store world0).
Proof. apply catalogue_inv, NewMemoryStore_inv, sc_distinct. Qed.
Lemma world0_room : room world0 tid.
Proof. intros n [[-> _]|[[x Hx] _]]; [done|]. vm_compute in Hx. done. Qed.

(** The schemas behind the factory: the catalogue, with the default limits. *)
Definition schemas := va_view (w_val world0).
Lemma world0_val : val_at schemas (w_val world0).
Proof.
  split; [|reflexivity]. apply factory_inv_New, versions_keyed_set.
  intros k sv Hk. vm_compute in Hk. discriminate Hk.
Qed.

(** The outcome of a run, when it succeeds. *)
Definition ok_of {A} (d : A) (r : result error A) : A := match r with Ok a => a | Err _ => d end.
Lemma run_ok {A} d (m : ST W A) w : is_Ok (m w).1 = true → m w = (Ok (ok_of d (m w).1), (m w).2).
Proof. by destruct (m w) as [[a|e] w']. Qed.
Lemma run_is {A} (m : ST W A) w r : (m w).1 = r → m w = (r, (m w).2).
Proof. intros <-. apply surjective_pairing. Qed.
Definition no_version : SetFieldResponse := {| resp_ConfigVersion := None |}.

Definition resp1 : SetFieldResponse :=
  ok_of no_version (SetField svc admin (set_req "name" "one") world0).1.
Lemma world1_run : SetField svc admin (set_req "name" "one") world0 = (Ok resp1, world1).
Proof.
  unfold resp1, world1. apply (run_ok no_version (SetField svc admin (set_req "name" "one")) world0).
  vm_compute. reflexivity.
Qed.
Definition resp2 : SetFieldResponse := ok_of no_version (SetFields svc admin batch world1).1.
Lemma world2_run : SetFields svc admin batch world1 = (Ok resp2, world2).
Proof.
  unfold resp2, world2. apply (run_ok no_version (SetFields svc admin batch) world1).
  vm_compute. reflexivity.
Qed.

Lemma room_latest k (w : W) n :
  st_inv k (w_store w) → latest (hist (st_abs (w_store w)) tid) n → (n < max_int32)%Z → room w tid.
Proof.
  intros Hi Hn Hmax m Hm. by rewrite (latest_unique _ m n (λ u, st_hist_pos _ _ _ _ Hi) Hm Hn).
Qed.

(** What the lemmas on the handlers say of the two writes. *)
Lemma world0_latest n : latest (hist (st_abs (w_store world0)) tid) n → n = 0%Z.
Proof. intros [[-> _]|[[x Hx] _]]; [done|]. vm_compute in Hx. done. Qed.

Lemma world1_facts :
  st_inv 3 (w_store world1) ∧ latest (hist (st_abs (w_store world1)) tid) 1 ∧ room world1 tid
  ∧ val_at schemas (w_val world1).
Proof.
  destruct (SetField_Ok svc schemas 3 _ _ _ _ _ tid world1_run world0_inv world0_room world0_val)
    as [[Hx _]|(n & nv & sets & old & _ & _ & _ & _ & _ & _ & _ & Hcm)];
    [reflexivity|vm_compute in Hx; discriminate Hx|].
  destruct Hcm as (Hl & _ & (_ & _ & _ & Hl' & _) & _ & Hi & Hat).
  apply world0_latest in Hl as ->.
  exact (conj Hi (conj Hl' (conj (room_latest _ _ _ Hi Hl' eq_refl) Hat))).
Qed.
Lemma world1_inv : st_inv 3 (w_store world1).
Proof. apply world1_facts. Qed.
Lemma world1_room : room world1 tid.
Proof. apply world1_facts. Qed.
Lemma world1_val : val_at schemas (w_val world1).
Proof. apply world1_facts. Qed.
Lemma world1_latest n : latest (hist (st_abs (w_store world1)) tid) n → n = 1%Z.
Proof.
  destruct world1_facts as (Hi & Hl & _). intros Hn.
  exact (latest_unique _ n 1 (λ u, st_hist_pos _ _ _ _ Hi) Hn Hl).
Qed.

Lemma world2_facts :
  st_inv 2 (w_store world2) ∧ latest (hist (st_abs (w_store world2)) tid) 2 ∧ room world2 tid
  ∧ val_at schemas (w_val world2).
Proof.
  destruct (SetFields_Ok svc schemas 2 _ _ _ _ _ tid world2_run world1_inv world1_room world1_val)
    as [[Hx _]|(n & nv & sets & locks & ch & _ & _ & _ & _ & _ & _ & Hcm)];
    [vm_compute; reflexivity|vm_compute in Hx; discriminate Hx|].
  destruct Hcm as (Hl & _ & (_ & _ & _ & Hl' & _) & _ & Hi & Hat).
  apply world1_latest in Hl as ->.
  exact (conj Hi (conj Hl' (conj (room_latest _ _ _ Hi Hl' eq_refl) Hat))).
Qed.
Lemma world2_inv : st_inv 2 (w_store world2).
Proof. apply world2_facts. Qed.
Lemma world2_room : room world2 tid.
Proof. apply world2_facts. Qed.
Lemma world2_val : val_at schemas (w_val world2).
Proof. apply world2_facts. Qed.
Lemma world2_latest n : latest (hist (st_abs (w_store world2)) tid) n → n = 2%Z.
Proof.
  destruct world2_facts as (Hi & Hl & _). intros Hn.
  exact (latest_unique _ n 2 (λ u, st_hist_pos _ _ _ _ Hi) Hn Hl).
Qed.
End Scenario.
