(* ===== verification/ServiceTheorems.v ===== *)
(** * What the config service guarantees: writes

    The claims about the four write handlers, for every store that meets the
    store's laws, with runs of the concrete deployment as witnesses. *)
From S2P Require Import Prelude GoText Domain Convert Auth Cache PubSub CrossField ConfigStore MemStore.
From S2P Require Import Validation ValidatorFactory MemStoreFacts ConfigYaml ConfigService ServiceLemmas ServiceCommits Scenario.
Import Convert Auth Authz.

Section writes.
Context {S C I P V : Type}.
Context `{StoreOk S} `{ConfigCache C error, IdempotencyCache I error, Publisher P, ValidatorsOk V}.
Context `{XXHash, MapRange, Clock, Sched, CelCap, FloatOverflow, YamlLib}.
Context (svc : Service S) (Σ : va_Schemas).
Abbreviation W := (World S C I P V).
Implicit Types (w : W).
Abbreviation histw w t := (hist (st_abs (w_store w)) t).

(** C1: What a successful [SetField] does. Unless it answers a replayed
    idempotency key (and then the store is as before), the guard let it
    through, the value passed the field's validator, the expected checksum,
    if any, is that of the stored value, and the field is neither read-only
    nor a write-once field that has a value in the latest version (a value
    the store fails to read counts as none, in this check and in the audit
    entry). It makes exactly the next version: the new snapshot holds the
    written value with its checksum at the path and is unchanged elsewhere;
    every older snapshot, every other tenant and the catalogue are untouched;
    one audit entry is added, whose values are redacted when the field is
    sensitive. *)
Theorem set_field_commits k w ctx req resp w' t :
  st_inv (Datatypes.S k) (w_store w) → room w t → val_at Σ (w_val w) →
  (resolveTenantID (sf_TenantId req) w).1 = Ok t →
  SetField svc ctx req w = (Ok resp, w') →
  let p := sf_FieldPath' req in
  let value := typedValueToString (sf_Value req) in
  (resp_ConfigVersion resp = None ∧ w_store w' = w_store w)
  ∨ ∃ n nv sets old, resp_ConfigVersion resp = Some (configVersionToProto nv)
      ∧ latest (histw w t) n ∧ latest (histw w' t) (n + 1)
      ∧ new_version nv t n (ptrString (default "" (sf_Description' req))) (getActor ctx)
      ∧ may_write svc w ctx t p (derefString value) ∧ validated svc Σ t p (sf_Value req)
      ∧ checksum_matches (histw w t) n p (sf_ExpectedChecksum req)
      ∧ (getSchemaFieldSets t w).1 = Ok sets ∧ old_value (w_store w) t n p old ∧ writable sets (w_store w) t n p
      ∧ (∀ q, snap (histw w' t) (n + 1) q
           = if decide (q = p)
             then Some {| row_FieldPath := p; row_Value := value; row_Checksum := checksumPtr value;
                          row_Description := ptrString (default "" (sf_ValueDescription req)) |}
             else snap (histw w t) n q)
      ∧ (∀ u q, (u ≤ n)%Z → snap (histw w' t) u q = snap (histw w t) u q)
      ∧ (∀ t', t' ≠ t → histw w' t' = histw w t')
      ∧ st_cat (w_store w') = st_cat (w_store w)
      ∧ a_audit (st_abs (w_store w')) = a_audit (st_abs (w_store w))
          ++ [SetField_audit ctx t req sets old (n + 1)].
Proof.
  intros Hi Hroom Hat Ht E. simpl.
  destruct (SetField_Ok svc Σ k w ctx req resp w' t E Hi Hroom Hat Ht)
    as [?|(n & nv & sets & old & ? & ? & ? & ? & ? & ? & ? & Hcm)]; [by left|right].
  destruct Hcm as (Hl & Hnv & (Hnew & Hold & Hoth & Hl' & Haud & Hcat) & _).
  exists n, nv, sets, old. split_and!; try done; [by eapply attrs_writable|]. intros q. rewrite Hnew. unfold find_row. simpl.
  destruct (decide (sf_FieldPath' req = q)) as [<-|Hne]; simpl; [by rewrite decide_True|].
  by rewrite decide_False.
Qed.

(** C6: What a successful [SetFields] does: the whole batch in one version.
    Every update was let through by the guard (with the locks read once),
    validated and checked against its expected checksum and its field's
    write attributes; the new snapshot has, at each path, the first update
    for it and otherwise what it had; there is one audit entry per update,
    and nothing else changes. *)
Theorem set_fields_commits k w ctx req resp w' t :
  st_inv (Datatypes.S k) (w_store w) → room w t → val_at Σ (w_val w) →
  (resolveTenantID (sfs_TenantId req) w).1 = Ok t →
  SetFields svc ctx req w = (Ok resp, w') →
  (resp_ConfigVersion resp = None ∧ w_store w' = w_store w)
  ∨ ∃ n nv sets locks changes, resp_ConfigVersion resp = Some (configVersionToProto nv)
      ∧ latest (histw w t) n
      ∧ new_version nv t n (ptrString (default "" (sfs_Description req))) (getActor ctx)
      ∧ GetFieldLocks t (w_store w) = Ok locks ∧ (getSchemaFieldSets t w).1 = Ok sets
      ∧ Forall (λ u, may_write svc w (WithFieldLockCache ctx locks) t (fu_FieldPath u)
                       (derefString (typedValueToString (fu_Value u)))
                     ∧ validated svc Σ t (fu_FieldPath u) (fu_Value u)
                     ∧ checksum_matches (histw w t) n (fu_FieldPath u) (fu_ExpectedChecksum u))
          (sfs_Updates req)
      ∧ Forall2 (λ u ch, change_of (w_store w) t n (fu_FieldPath u)
                           (typedValueToDisplayString (fu_Value u)) ch)
          (sfs_Updates req) changes
      ∧ Forall (λ p, attrs_ok sets (fu_FieldPath p.1) (cg_oldValue p.2))
          (zip (sfs_Updates req) changes)
      ∧ write_effect w w' t n (field_update_row <$> sfs_Updates req)
          (update_audit t (getActor ctx) (Sensitive sets) (n + 1)
             <$> zip (sfs_Updates req) changes).
Proof.
  intros Hi Hroom Hat Ht E.
  destruct (SetFields_Ok svc Σ k w ctx req resp w' t E Hi Hroom Hat Ht)
    as [?|(n & nv & sets & locks & changes & ? & ? & ? & ? & ? & ? & Hcm)]; [by left|right].
  destruct Hcm as (Hl & Hnv & Heff & _).
  exists n, nv, sets, locks, changes. split_and!; try done; apply Heff.
Qed.

(** C7: What a successful [RollbackToVersion] does: it writes the snapshot of
    the target version, which is not empty, as the next version. A field the
    target version has gets the target's row back; a field it does not have
    keeps the row of the latest version. Every restored row passed the guard
    and its validator; the history, the other tenants and the catalogue are
    untouched. *)
Theorem rollback_commits k w ctx req resp w' t :
  st_inv (Datatypes.S k) (w_store w) → room w t → val_at Σ (w_val w) →
  (resolveTenantID (rb_TenantId req) w).1 = Ok t →
  RollbackToVersion svc ctx req w = (Ok resp, w') →
  ∃ n nv locks types, resp = configVersionToProto nv
    ∧ latest (histw w t) n ∧ latest (histw w' t) (n + 1)
    ∧ new_version nv t n
        (Some (default ("Rollback to version " +:+ itoa (rb_Version req)) (rb_Description req)))
        (getActor ctx)
    ∧ schema_types svc Σ t types ∧ (∃ q, is_Some (snap (histw w t) (rb_Version req) q))
    ∧ (∀ q, snap (histw w' t) (n + 1) q
         = match snap (histw w t) (rb_Version req) q with
           | Some row => Some row
           | None => snap (histw w t) n q
           end)
    ∧ GetFieldLocks t (w_store w) = Ok locks
    ∧ (∀ q row, snap (histw w t) (rb_Version req) q = Some row →
         may_write svc w (WithFieldLockCache ctx locks) t q (derefString (row_Value row))
         ∧ validated svc Σ t q (stringToTypedValue (row_Value row) (lookupFieldType types q)))
    ∧ (∀ u q, (u ≤ n)%Z → snap (histw w' t) u q = snap (histw w t) u q)
    ∧ (∀ t', t' ≠ t → histw w' t' = histw w t')
    ∧ st_cat (w_store w') = st_cat (w_store w).
Proof.
  intros Hi Hroom Hat Ht E.
  destruct (Rollback_Ok svc Σ k w ctx req resp w' t E Hi Hroom Hat Ht)
    as (n & nv & sets & locks & types & rows & ? & Hsnap & Hne & ? & ? & ? & Hf & ? & Hcm).
  destruct Hcm as (Hl & Hnv & (Hnew & Hold & Hoth & Hl' & Haud & Hcat) & _).
  exists n, nv, locks, types. split_and!; try done.
  - destruct rows as [|row rows]; [done|]. exists (row_FieldPath row), row.
    apply Hsnap. set_solver.
  - intros q. by rewrite Hnew, (is_snapshot_lookup _ _ _ _ Hsnap).
  - intros q row Hq. pose proof (snap_path _ _ _ _ Hq) as <-.
    rewrite Forall_forall in Hf. apply Hf, Hsnap, Hq.
Qed.

(** C2: A write that fails changes nothing: when [SetField], [SetFields],
    [RollbackToVersion] or [ImportConfig] returns an error, for whatever
    reason and after whatever retries, the history of every tenant, the audit
    log and the catalogue are what they were. *)
Theorem failed_write_changes_nothing k w ctx req1 req2 req3 req4 e w' :
  st_inv k (w_store w) →
  SetField svc ctx req1 w = (Err e, w') ∨ SetFields svc ctx req2 w = (Err e, w')
  ∨ RollbackToVersion svc ctx req3 w = (Err e, w') ∨ ImportConfig svc ctx req4 w = (Err e, w') →
  st_inv k (w_store w') ∧ st_cat (w_store w') = st_cat (w_store w)
  ∧ (∀ t, histw w' t = histw w t)
  ∧ a_audit (st_abs (w_store w')) = a_audit (st_abs (w_store w)).
Proof.
  intros Hi [E|[E|[E|E]]];
    [destruct (atomic_SetField svc ctx req1 k w e w' Hi E) as (? & [? ?] & ?)
    |destruct (atomic_SetFields svc ctx req2 k w e w' Hi E) as (? & [? ?] & ?)
    |destruct (atomic_Rollback svc ctx req3 k w e w' Hi E) as (? & [? ?] & ?)
    |destruct (atomic_Import svc ctx req4 k w e w' Hi E) as (? & [? ?] & ?)]; done.
Qed.
End writes.

Section reliable.
Context {S C I P V : Type}.
Context `{StoreReliable S} `{ConfigCache C error, IdempotencyCache I error, Publisher P, ValidatorsOk V}.
Context `{XXHash, MapRange, Clock, Sched, CelCap, FloatOverflow, YamlLib}.
Context (svc : Service S) (Σ : va_Schemas).
Abbreviation W := (World S C I P V).
Implicit Types (w : W).
Abbreviation histw w t := (hist (st_abs (w_store w)) t).

(** C8: What a successful [ImportConfig] does, when the store fails only for
    missing entities: every value of the document passed the guard and its
    validator; the values the mode selects (all of them in replace mode, those
    of fields without a value in defaults mode, those that differ from the
    current value otherwise) are not empty and make up the next version. In
    defaults mode no field that has a row is changed. *)
Theorem import_commits k w ctx req resp w' t :
  st_inv (Datatypes.S k) (w_store w) → room w t → val_at Σ (w_val w) →
  (resolveTenantID (im_TenantId req) w).1 = Ok t →
  ImportConfig svc ctx req w = (Ok resp, w') →
  ∃ n nv sets types parsed values changes, resp = configVersionToProto nv
    ∧ latest (histw w t) n
    ∧ new_version nv t n (Some (import_description req parsed)) (getActor ctx)
    ∧ schema_types svc Σ t types ∧ DispatchImport (im_YamlContent req) (default ∅ types) = Ok parsed
    ∧ Forall (λ v, may_write svc w ctx t (ci_FieldPath v) (ci_Value v)
                ∧ validated svc Σ t (ci_FieldPath v)
                    (stringToTypedValue (Some (ci_Value v))
                       (default (FieldTypeOther "") (default ∅ types !! ci_FieldPath v))))
        (pc_Values parsed)
    ∧ values = import_selection (histw w t) n (im_Mode req) (pc_Values parsed) ∧ values ≠ []
    ∧ (getSchemaFieldSets t w).1 = Ok sets
    ∧ Forall2 (λ v ch, change_of (w_store w) t n (ci_FieldPath v) (ci_Value v) ch) values changes
    ∧ write_effect w w' t n (import_row <$> values)
        (import_audit t (getActor ctx) (Sensitive sets) (n + 1) <$> zip values changes)
    ∧ (im_Mode req = IMPORT_MODE_DEFAULTS → ∀ q row, snap (histw w t) n q = Some row →
         snap (histw w' t) (n + 1) q = Some row).
Proof.
  intros Hi Hroom Hat Ht E.
  destruct (Import_Ok svc Σ k w ctx req resp w' t E Hi Hroom Hat Ht)
    as (n & nv & sets & types & parsed & values & changes & ? & ? & ? & ? & Hv & ? & ? & ? & _ & Hcm).
  destruct Hcm as (Hl & Hnv & Heff & _).
  exists n, nv, sets, types, parsed, values, changes. split_and!; try done; try apply Heff.
  intros Hm q row Hq. rewrite (proj1 Heff). rewrite (proj2 (find_row_None q _)); [done|].
  rewrite Hv, Hm. rewrite <-list_fmap_compose. intros (v & -> & Hin)%list_elem_of_fmap.
  apply list_elem_of_filter in Hin as [Hin _]. simpl in Hq. congruence.
Qed.

End reliable.

(** ** Witnesses *)
Module WriteWitnesses.
Import Scenario.

Definition no_pb : pbConfigVersion := configVersionToProto
  {| cv_ID := ""; cv_TenantID := ""; cv_Version := 0; cv_Description := None; cv_CreatedBy := "";
     cv_CreatedAt := 0 |}.

Lemma set_field_commits_witness :
  snap (hist (st_abs (w_store world1)) tid) 1 "name"
  = Some {| row_FieldPath := "name"; row_Value := Some "one"; row_Checksum := Some (computeChecksum "one");
            row_Description := None |}
  ∧ validated svc schemas tid "name" (Some (Some (StringValue "one"))).
Proof.
  destruct (set_field_commits svc schemas 3 world0 admin (set_req "name" "one") resp1 world1 tid
    world0_inv world0_room world0_val eq_refl world1_run)
    as [[Hx _]|(n & nv & sets & old & _ & Hl & _ & _ & _ & Hval & _ & _ & _ & _ & Hs & _)].
  - vm_compute in Hx. discriminate Hx.
  - apply world0_latest in Hl as ->. split; [exact (Hs "name")|exact Hval].
Defined.

Lemma set_fields_commits_witness :
  snap (hist (st_abs (w_store world2)) tid) 2 "token"
  = Some (field_row "token" (Some (Some (StringValue "secret"))) None).
Proof.
  destruct (set_fields_commits svc schemas 2 world1 admin batch resp2 world2 tid
    world1_inv world1_room world1_val ltac:(vm_compute; reflexivity) world2_run)
    as [[Hx _]|(n & nv & sets & locks & changes & _ & Hl & _ & _ & _ & _ & _ & _ & Hs & _)].
  - vm_compute in Hx. discriminate Hx.
  - apply world1_latest in Hl as ->. exact (Hs "token").
Defined.

Definition to_v1 : RollbackToVersionRequest :=
  {| rb_TenantId := "acme"; rb_Version := 1; rb_Description := None |}.

(** The field set after the target version survives the rollback. *)
Lemma rollback_commits_witness :
  let world3 := (RollbackToVersion svc admin to_v1 world2).2 in
  snap (hist (st_abs (w_store world3)) tid) 3 "name"
    = snap (hist (st_abs (w_store world2)) tid) 1 "name"
  ∧ snap (hist (st_abs (w_store world3)) tid) 3 "token"
    = snap (hist (st_abs (w_store world2)) tid) 2 "token".
Proof.
  destruct (rollback_commits svc schemas 1 world2 admin to_v1
    (ok_of no_pb (RollbackToVersion svc admin to_v1 world2).1)
    (RollbackToVersion svc admin to_v1 world2).2 tid
    world2_inv world2_room world2_val ltac:(vm_compute; reflexivity))
    as (n & nv & locks & types & _ & Hl & _ & _ & _ & _ & Hs & _).
  - apply (run_ok no_pb (RollbackToVersion svc admin to_v1) world2). vm_compute. reflexivity.
  - apply world2_latest in Hl as ->. split; [exact (Hs "name")|exact (Hs "token")].
Defined.

(** A certificate without a key: the rule of the schema refuses it. *)
Definition bad_req : SetFieldRequest := set_req "cert" "c".
Lemma failed_write_changes_nothing_witness :
  hist (st_abs (w_store (SetField svc admin bad_req world1).2)) tid
  = hist (st_abs (w_store world1)) tid.
Proof.
  destruct (SetField svc admin bad_req world1) as [r w'] eqn:E.
  destruct (failed_write_changes_nothing svc 3 world1 admin bad_req batch to_v1
    {| im_TenantId := ""; im_YamlContent := ""; im_Description := None; im_Mode := IMPORT_MODE_MERGE |}
    (match r with Err e => e | Ok _ => ErrNotFound end) w' world1_inv) as (_ & _ & Hh & _).
  - left. rewrite E. f_equal.
    assert (is_Ok r = false) as Hr by (change r with (r, w').1; rewrite <-E; vm_compute; reflexivity).
    destruct r; [discriminate Hr|reflexivity].
  - exact (Hh tid).
Defined.

Definition defaults_req : ImportConfigRequest :=
  {| im_TenantId := "acme"; im_YamlContent := document [("name", "new"); ("token", "new")]; im_Description := None;
     im_Mode := IMPORT_MODE_DEFAULTS |}.

(** The document has both fields; [name] keeps its value, [token] gets one. *)
Lemma import_commits_witness :
  snap (hist (st_abs (w_store (ImportConfig svc admin defaults_req world1).2)) tid) 2 "name"
    = snap (hist (st_abs (w_store world1)) tid) 1 "name".
Proof.
  destruct (import_commits svc schemas 2 world1 admin defaults_req
    (ok_of no_pb (ImportConfig svc admin defaults_req world1).1)
    (ImportConfig svc admin defaults_req world1).2 tid
    world1_inv world1_room world1_val ltac:(vm_compute; reflexivity))
    as (n & nv & sets & types & parsed & values & changes & _ & Hl & _ & _ & _ & _ & _ & _ & _ & _ & _ & Hd).
  - apply (run_ok no_pb (ImportConfig svc admin defaults_req) world1). vm_compute. reflexivity.
  - apply world1_latest in Hl as ->. change (1 + 1)%Z with 2%Z in Hd.
    rewrite (Hd eq_refl "name" (field_row "name" (Some (Some (StringValue "one"))) None)).
    + vm_compute. reflexivity.
    + vm_compute. reflexivity.
Defined.

End WriteWitnesses.
