(* ===== verification/ServiceReads.v ===== *)
(** * What the config service guarantees: reads and access

    Access to every handler, the answers of the read handlers in terms of the
    abstract history, and reading back what was written. *)
From S2P Require Import Prelude GoText Domain Convert Auth Cache Pagination PubSub CrossField.
From S2P Require Import ConfigStore MemStore MemStoreFacts Validation ValidatorFactory ConfigYaml ConfigService ServiceLemmas ServiceCommits.
From S2P Require Import Scenario.
Import Convert Auth Authz AuthFacts.

(** ** Access *)
Section access.
Context {S C I P V : Type}.
Context `{Store S} `{ConfigCache C error, IdempotencyCache I error, Publisher P, Validators V}.
Context `{XXHash, MapRange, Clock, Sched, CelCap, FloatOverflow, YamlLib}.
Context (svc : Service S).
Abbreviation W := (World S C I P V).
Abbreviation st := (w_store (S:=S) (C:=C) (I:=I) (P:=P) (V:=V)).
Implicit Types (w : W).

(** [m] answers only callers with claims whom the guard lets act on the
    tenant named [name]. *)
Definition guarded {A} (ctx : Ctx) (action : Action) (name : string) (m : ST W A) : Prop :=
  ∀ w a w', m w = (Ok a, w') → MustHaveClaims ctx = Ok tt
    ∧ ∃ t p v, (resolveTenantID name w).1 = Ok t
      ∧ svc_guard svc (w_store w) ctx action
          {| res_TenantID := t; res_FieldPath := p; res_Value := v |} = Ok tt.

Lemma guarded_access {A} ctx action name (k : string → ST W A) :
  guarded ctx action name
    (must_have_claims ctx;; tenantID ← resolveTenantWithAccess svc ctx name action; k tenantID).
Proof.
  intros w a w' E. apply bind_Ok in E as ([] & w1 & E1 & E).
  apply of_result_Ok in E1 as [Hc <-]. split; [done|].
  apply bind_Ok in E as (t & w2 & E2 & _). apply bind_Ok in E2 as (t' & w3 & E3 & E2).
  apply bind_Ok in E2 as ([] & w4 & E4 & E2). apply ret_Ok in E2 as [-> _].
  injection E4 as Hg _. exists t, "", "". rewrite E3. split; [done|].
  rewrite (keeps_run st _ _ _ _ (keeps_resolveTenantID name) E3) in Hg. done.
Qed.

(** A handler that first looks at the size of the request. *)
Lemma guarded_limit {A} ctx action name (b : bool) e (k : string → ST W A) :
  guarded ctx action name
    (must_have_claims ctx;;
     if b then fail e else tenantID ← resolveTenantWithAccess svc ctx name action; k tenantID).
Proof.
  destruct b; [|apply guarded_access]. intros w a w' E. by apply bind_Ok in E as (? & ? & _ & E).
Qed.

Lemma guarded_bind {A B} ctx action name (m : ST W A) (k : A → ST W B) :
  guarded ctx action name m → guarded ctx action name (m ≫= k).
Proof. intros Hm w b w' E. apply bind_Ok in E as (a & w1 & E & _). by eapply Hm. Qed.

Lemma guarded_begin ctx req events :
  guarded ctx ActionRead (sub_TenantId req) (subscribe_begin svc ctx req events).
Proof. apply guarded_limit. Qed.

Lemma guarded_SetField ctx req : guarded ctx ActionWrite (sf_TenantId req) (SetField svc ctx req).
Proof.
  intros w a w' E. apply bind_Ok in E as ([] & w1 & E1 & E).
  apply of_result_Ok in E1 as [Hc <-]. split; [done|].
  destruct (bool_decide _); [done|]. apply bind_Ok in E as (t & w2 & E2 & E).
  apply bind_Ok in E as ([] & w3 & E3 & _). injection E3 as Hg _.
  eexists t, _, _. rewrite E2. split; [done|].
  rewrite (keeps_run st _ _ _ _ (keeps_resolveTenantID _) E2) in Hg. exact Hg.
Qed.
End access.

(** The requests of the service. *)
Inductive Request :=
| RGetConfig (r : GetConfigRequest) | RGetField (r : GetFieldRequest) | RGetFields (r : GetFieldsRequest)
| RListVersions (r : ListVersionsRequest) | RGetVersion (r : GetVersionRequest)
| RDiffVersions (r : DiffVersionsRequest) | RExportConfig (r : ExportConfigRequest)
| RSubscribe (r : SubscribeRequest) (events : result error (list ConfigChangeEvent))
| RSetField (r : SetFieldRequest) | RSetFields (r : SetFieldsRequest)
| RRollback (r : RollbackToVersionRequest) | RImport (r : ImportConfigRequest).

Definition req_tenant (r : Request) : string :=
  match r with
  | RGetConfig r => gc_TenantId r | RGetField r => gf_TenantId r | RGetFields r => gfs_TenantId r
  | RListVersions r => lv_TenantId r | RGetVersion r => gv_TenantId r
  | RDiffVersions r => dv_TenantId r | RExportConfig r => ex_TenantId r
  | RSubscribe r _ => sub_TenantId r | RSetField r => sf_TenantId r | RSetFields r => sfs_TenantId r
  | RRollback r => rb_TenantId r | RImport r => im_TenantId r
  end.
Definition req_action (r : Request) : Action :=
  match r with
  | RSetField _ | RSetFields _ | RRollback _ | RImport _ => ActionWrite
  | _ => ActionRead
  end.

Section dispatch.
Context {S C I P V : Type}.
Context `{Store S} `{ConfigCache C error, IdempotencyCache I error, Publisher P, Validators V}.
Context `{XXHash, MapRange, Clock, Sched, CelCap, FloatOverflow, YamlLib}.
Context (svc : Service S).
Abbreviation W := (World S C I P V).
Abbreviation st := (w_store (S:=S) (C:=C) (I:=I) (P:=P) (V:=V)).

(** One call of the service, its answer left out. *)
Definition done_with {A} (m : ST W A) : ST W unit := _ ← m; mret tt.
Definition call (ctx : Ctx) (r : Request) : ST W unit :=
  match r with
  | RGetConfig r => done_with (GetConfig svc ctx r)
  | RGetField r => done_with (GetField svc ctx r)
  | RGetFields r => done_with (GetFields svc ctx r)
  | RListVersions r => done_with (ListVersions svc ctx r)
  | RGetVersion r => done_with (GetVersion svc ctx r)
  | RDiffVersions r => done_with (DiffVersions svc ctx r)
  | RExportConfig r => done_with (ExportConfig svc ctx r)
  | RSubscribe r events => done_with (Subscribe svc ctx r events)
  | RSetField r => done_with (SetField svc ctx r)
  | RSetFields r => done_with (SetFields svc ctx r)
  | RRollback r => done_with (RollbackToVersion svc ctx r)
  | RImport r => done_with (ImportConfig svc ctx r)
  end.

Lemma guarded_call ctx r : guarded svc ctx (req_action r) (req_tenant r) (call ctx r).
Proof.
  destruct r; apply guarded_bind;
    first [apply guarded_SetField | apply guarded_bind, guarded_begin
          | apply guarded_access | apply guarded_limit].
Qed.

(** C9: Tenant isolation. Under the default guard chain, a call of any of the
    twelve RPCs succeeds only for a caller whose claims give access to the
    tenant the request names (or for an internal caller marked as exempt from
    authentication). *)
Theorem tenant_isolation validators idempotency recorder limits ctx r w w' :
  svc = NewService validators idempotency recorder None limits →
  call ctx r w = (Ok tt, w') →
  ∃ t, (resolveTenantID (req_tenant r) w).1 = Ok t
    ∧ (t ≠ "" → match ctx_claims ctx with
                 | Some c => role c = RoleSuperAdmin ∨ t ∈ TenantIDs c
                 | None => ctx_withoutAuth ctx = true
                 end).
Proof.
  intros Hsvc E. apply guarded_call in E as (_ & t & p & v & Ht & Hg). exists t. split; [done|].
  intros Hne. rewrite Hsvc in Hg. apply defaultGuard_access in Hg; [|by destruct r|done].
  unfold CheckTenantAccess in Hg. destruct (ctx_claims ctx) as [c|].
  - apply HasTenantAccess_true. by destruct (HasTenantAccess c t).
  - by destruct (ctx_withoutAuth ctx).
Qed.

(** ** Reads leave the store alone *)
Definition is_read (r : Request) : Prop := req_action r = ActionRead.

Lemma keeps_get_slot t v types sens d p : keeps st (get_slot t v types sens d p).
Proof. unfold get_slot. keeps_tac. Qed.
Lemma keeps_configMap t v : keeps st (configMapAtVersion t v).
Proof. unfold configMapAtVersion. keeps_tac. Qed.
Lemma keeps_fetch t v : keeps st (fetchAndCacheConfig t v).
Proof. unfold fetchAndCacheConfig. keeps_tac. Qed.
Lemma keeps_respond ctx t v vs : keeps st (respond_config svc ctx t v vs).
Proof. unfold respond_config. keeps_tac. Qed.
Lemma keeps_begin ctx req events : keeps st (subscribe_begin svc ctx req events).
Proof. unfold subscribe_begin. keeps_tac. Qed.
Lemma keeps_stream req x : keeps st (subscribe_stream req x).
Proof. unfold subscribe_stream. keeps_tac. Qed.
End dispatch.
#[export] Hint Resolve keeps_get_slot keeps_configMap keeps_fetch keeps_respond keeps_begin
  keeps_stream : frame.

(** ** What the reads answer *)
Section answers.
Context {S C I P V : Type}.
Context `{StoreReliable S} `{ConfigCache C error, IdempotencyCache I error, Publisher P, ValidatorsOk V}.
Context `{XXHash, MapRange, Clock, Sched, CelCap, FloatOverflow, YamlLib}.
Context (svc : Service S).
Abbreviation W := (World S C I P V).
Abbreviation st := (w_store (S:=S) (C:=C) (I:=I) (P:=P) (V:=V)).
Implicit Types (w : W).
Abbreviation histw w t := (hist (st_abs (w_store w)) t).

(** The first steps of a read handler, for a caller with access. *)
Lemma read_access {A} ctx name action (k : string → ST W A) w t :
  MustHaveClaims ctx = Ok tt → (resolveTenantID name w).1 = Ok t →
  svc_guard svc (w_store w) ctx action
    {| res_TenantID := t; res_FieldPath := ""; res_Value := "" |} = Ok tt →
  (must_have_claims ctx;; tenantID ← resolveTenantWithAccess svc ctx name action; k tenantID) w
  = k t w.
Proof.
  intros Hc Ht Hg. unfold must_have_claims, of_result, mbind, ST_bind. rewrite Hc.
  unfold resolveTenantWithAccess, mbind, ST_bind.
  assert ((resolveTenantID name w).2 = w) as Hw.
  { unfold resolveTenantID, mbind, ST_bind, map_err, reads.
    destruct (bool_decide _); [done|]. destruct (IsUUID name); [done|].
    by destruct (GetTenantByName name (w_store w)). }
  destruct (resolveTenantID name w) as [r w1]. simpl in Hw, Ht. subst r w1.
  unfold check. by rewrite Hg.
Qed.

Lemma resolveVersion_exact k w t n requested :
  st_inv k (w_store w) → latest (histw w t) n →
  resolveVersion t requested w = (Ok (default n requested), w).
Proof.
  intros Hi Hl. destruct requested as [v|]; [done|].
  assert (∃ m, resolveVersion t None w = (Ok m, w)) as [m E].
  { unfold resolveVersion, mbind, ST_bind, try, reads.
    destruct (GetLatestConfigVersion t (w_store w)) as [cv|e] eqn:Hg; [by exists (cv_Version cv)|].
    rewrite (sr_latest k _ _ _ Hi Hg). by exists 0%Z. }
  rewrite E. f_equal. f_equal. by eapply (latest_read k w w).
Qed.

Lemma getSensitive_world w t : (getSensitiveFieldSet (C:=C) (I:=I) (P:=P) (V:=V) t w).2 = w.
Proof.
  unfold getSensitiveFieldSet, getSensitiveFieldSetFromTenant, mbind, ST_bind, map_err, reads.
  destruct (GetTenantByID t (w_store w)) as [tn|]; simpl; [|done].
  destruct (GetSchemaVersion _ _ _) as [sv|]; simpl; [|done].
  by destruct (GetSchemaFields _ _).
Qed.




(** *** Several fields *)
Lemma collect_slots k w t v types sens d paths :
  st_inv k (w_store w) →
  collect (get_slot t v types sens d) paths w
  = (Ok ((λ p, field_value types sens d <$> snap (histw w t) v p) <$> paths), w).
Proof.
  intros Hi. induction paths as [|p paths IH]; [done|]. cbn [collect].
  assert (get_slot t v types sens d p w = (Ok (field_value types sens d <$> snap (histw w t) v p), w))
    as Hslot.
  { unfold get_slot, mbind, ST_bind, try, reads.
    destruct (GetConfigValueAtVersion t p v (w_store w)) as [row|e] eqn:Hg.
    - by rewrite (st_value_Ok k _ _ _ _ _ Hi Hg).
    - pose proof (sr_value k _ _ _ _ _ Hi Hg) as He.
      by rewrite (st_value_NotFound k _ _ _ _ _ Hi Hg He), He. }
  unfold mbind at 1, ST_bind at 1. rewrite Hslot. unfold mbind at 1, ST_bind at 1. by rewrite IH.
Qed.

Lemma sensitive_store w1 w2 t :
  w_store w1 = w_store w2 →
  (getSensitiveFieldSet t w1).1 = (getSensitiveFieldSet (C:=C) (I:=I) (P:=P) (V:=V) t w2).1.
Proof.
  intros E. unfold getSensitiveFieldSet, getSensitiveFieldSetFromTenant, mbind, ST_bind, map_err, reads.
  rewrite E. destruct (GetTenantByID t _) as [tn|]; simpl; [|done]. rewrite E.
  destruct (GetSchemaVersion _ _ _) as [sv|]; simpl; [|done]. rewrite E.
  by destruct (GetSchemaFields _ _).
Qed.

Lemma omap_id_fmap {A B} (f : A → option B) (l : list A) : omap id (f <$> l) = omap f l.
Proof. induction l as [|x l IH]; [done|]. csimpl. rewrite IH. by destruct (f x). Qed.

Lemma keeps_GetFields ctx req : keeps st (GetFields svc ctx req).
Proof. unfold GetFields. keeps_tac. Qed.

(** What [GetFields] answers a caller with access, when the type and the
    schema lookups work: for the requested paths in order, one value for each
    that the snapshot of the version has, each the value [GetField] shows,
    and nothing for the missing ones; a request beyond the list limit is
    refused. The store stays as it was. *)
Theorem get_fields_exact k w ctx req t n sens types :
  st_inv k (w_store w) → latest (histw w t) n →
  MustHaveClaims ctx = Ok tt → (resolveTenantID (gfs_TenantId req) w).1 = Ok t →
  svc_guard svc (w_store w) ctx ActionRead
    {| res_TenantID := t; res_FieldPath := ""; res_Value := "" |} = Ok tt →
  (getSensitiveFieldSet t w).1 = Ok sens → (fieldTypeMap svc t w).1 = Ok types →
  let len := Z.of_nat (length (gfs_FieldPaths req)) in
  let limit := MaxListLen (svc_limits svc) in
  (GetFields svc ctx req w).1
  = (if (0 <? limit)%Z && (limit <? len)%Z
     then Err (too_many "request has %d field_paths, exceeds limit of %d" len limit)
     else Ok (omap (λ p, field_value types sens (gfs_IncludeDescriptions req)
                           <$> snap (histw w t) (default n (gfs_Version req)) p)
                (gfs_FieldPaths req)))
  ∧ w_store (GetFields svc ctx req w).2 = w_store w.
Proof.
  intros Hi Hl Hc Ht Hg Hsens Htypes. simpl. split; [|apply keeps_GetFields]. unfold GetFields.
  destruct (_ && _).
  { unfold must_have_claims, of_result, mbind, ST_bind. by rewrite Hc. }
  rewrite (read_access _ _ _ _ _ _ Hc Ht Hg). destruct (fieldTypeMap svc t w) as [r w1] eqn:Hft.
  simpl in Htypes. subst r.
  assert (w_store w1 = w_store w) as Hw1.
  { exact (keeps_run st _ _ _ _ (keeps_fieldTypeMap svc t) Hft). }
  rewrite <-(sensitive_store w1 w) in Hsens by done.
  pose proof (getSensitive_world w1 t) as Hw2.
  destruct (getSensitiveFieldSet t w1) as [r w2] eqn:Hse. simpl in Hsens, Hw2. subst r w2.
  assert (both (both (resolveVersion t (gfs_Version req)) (fieldTypeMap svc t))
            (getSensitiveFieldSet t) w
          = (Ok (default n (gfs_Version req), types, sens), w1)) as Hboth.
  { unfold both, mbind, ST_bind, try. rewrite (resolveVersion_exact k w t n) by done.
    rewrite Hft. simpl. by rewrite Hse. }
  unfold mbind at 1, ST_bind at 1. rewrite Hboth. unfold mbind at 1, ST_bind at 1.
  rewrite (collect_slots k) by (by rewrite Hw1). by rewrite omap_id_fmap, Hw1.
Qed.

(** *** Versions *)
Lemma ClampPageSize_bounds n : (1 ≤ Pagination.ClampPageSize n 50 500 ≤ 500)%Z.
Proof.
  unfold Pagination.ClampPageSize. destruct (n <=? 0)%Z eqn:Hc1; bool_prop; [lia|].
  destruct (500 <? n)%Z eqn:Hc2; bool_prop; lia.
Qed.

(** One page of [ListVersions], as a client sees it. *)
Definition list_page (ctx : Ctx) (name : string) (size : Z) w (token : string) :
    result error (list pbConfigVersion * string) :=
  result_map (λ r, (lvr_Versions r, lvr_NextPageToken r))
    (ListVersions svc ctx {| lv_TenantId := name; lv_PageSize := size; lv_PageToken := token |} w).1.

Lemma list_page_exact k w ctx name size t token offset versions :
  st_inv k (w_store w) → newest_first (histw w t) versions →
  MustHaveClaims ctx = Ok tt → (resolveTenantID name w).1 = Ok t →
  svc_guard svc (w_store w) ctx ActionRead
    {| res_TenantID := t; res_FieldPath := ""; res_Value := "" |} = Ok tt →
  Pagination.DecodePageToken token = Ok offset →
  list_page ctx name size w token
  = Ok (Pagination.page (configVersionToProto <$> versions)
          (Pagination.ClampPageSize size 50 500) offset).
Proof.
  intros Hi Hv Hc Ht Hg Htok. unfold list_page, ListVersions. cbn [lv_TenantId lv_PageSize lv_PageToken].
  pose proof (ClampPageSize_bounds size) as Hps. revert Hps.
  generalize (Pagination.ClampPageSize size 50 500) as ps. intros ps Hps.
  rewrite (read_access _ _ _ _ _ _ Hc Ht Hg). rewrite Htok.
  unfold mbind, ST_bind, map_err, reads.
  rewrite int32_id by (unfold min_int32, max_int32; lia).
  destruct (ListConfigVersions _ (w_store w)) as [l|e] eqn:Hl.
  2:{ pose proof (sr_list k (w_store w) {| lcv_TenantID := t; lcv_Limit := ps + 1; lcv_Offset := offset |} Hi)
        as Hr. by rewrite Hl in Hr. }
  pose proof (Pagination.DecodePageToken_nonneg _ _ Htok) as Hoff.
  destruct (st_list_Ok k _ {| lcv_TenantID := t; lcv_Limit := ps + 1; lcv_Offset := offset |} l Hi Hoff Hl)
    as (versions' & Hv' & Hl').
  simpl in Hl', Hv'. rewrite (newest_first_unique _ _ _ Hv' Hv) in Hl'.
  rewrite (proj2 (Z.ltb_lt 0 (ps + 1))) in Hl' by lia. simpl. unfold Pagination.page.
  rewrite <-fmap_drop, <-fmap_take, <-Hl', length_fmap.
  assert (length l ≤ Z.to_nat (ps + 1)) by (rewrite Hl'; rewrite length_take; lia).
  rewrite int32_id by (unfold min_int32, max_int32; lia).
  do 2 f_equal. rewrite <-fmap_take. f_equal.
  destruct (ps <? _)%Z eqn:Hcmp; [done|]. bool_prop. rewrite take_ge; [done|lia].
Qed.

(** Paging through [ListVersions] from the empty token lists every
    version of the tenant exactly once, newest first, and ends, whatever page
    size is asked for (it is clamped to 1..500): with at least as many calls
    as there are pages, the versions collected are all of them. *)
Theorem list_versions_pages k w ctx name size t versions fuel :
  st_inv k (w_store w) → newest_first (histw w t) versions →
  (Z.of_nat (length versions) ≤ max_int32)%Z →
  MustHaveClaims ctx = Ok tt → (resolveTenantID name w).1 = Ok t →
  svc_guard svc (w_store w) ctx ActionRead
    {| res_TenantID := t; res_FieldPath := ""; res_Value := "" |} = Ok tt →
  (Z.of_nat (length versions) < Pagination.ClampPageSize size 50 500 * Z.of_nat fuel)%Z →
  Pagination.Iter (list_page ctx name size w) Pagination.collect fuel "" []
  = Some (configVersionToProto <$> versions).
Proof.
  intros Hi Hv Hlen Hc Ht Hg Hf. pose proof (ClampPageSize_bounds size) as Hps.
  eapply Pagination.Iter_pages; [|unfold max_int32|rewrite length_fmap; exact Hlen|by rewrite length_fmap].
  - intros token offset Htok. by eapply list_page_exact.
  - lia.
Qed.

Lemma configMap_exact k w t u m w' :
  st_inv k (w_store w) → configMapAtVersion t u w = (Ok m, w') →
  ∀ p, m !! p = derefString ∘ row_Value <$> snap (histw w t) u p.
Proof.
  intros Hi E p. apply bind_Ok in E as (rows & w1 & E1 & E). apply ret_Ok in E as [<- _].
  apply map_err_Ok in E1. injection E1 as E1 _.
  exact (rows_map_lookup (derefString ∘ row_Value) _ _ _ p (st_full_Ok k _ _ _ _ Hi E1)).
Qed.

(** What [DiffVersions] answers a caller with access, for two versions
    that exist: the exact difference of the two snapshots. Applied to the
    first snapshot it gives the second, every entry tells the truth about
    both, and the paths listed are exactly those whose stored text differs,
    each once and in byte order. *)
Theorem diff_versions_exact `{!MapRangeOk} k w ctx req t ds w' :
  st_inv k (w_store w) → (resolveTenantID (dv_TenantId req) w).1 = Ok t →
  DiffVersions svc ctx req w = (Ok ds, w') →
  let value u p := derefString ∘ row_Value <$> snap (histw w t) u p in
  ∃ old updated,
    (∀ p, old !! p = value (dv_FromVersion req) p)
    ∧ (∀ p, updated !! p = value (dv_ToVersion req) p)
    ∧ foldl apply_diff old ds = updated ∧ Forall (diff_accurate old updated) ds
    ∧ (∀ p, p ∈ fd_FieldPath <$> ds ↔ old !! p ≠ updated !! p)
    ∧ StronglySorted String.le (fd_FieldPath <$> ds) ∧ NoDup (fd_FieldPath <$> ds)
    ∧ is_Some (histw w t !! dv_FromVersion req) ∧ is_Some (histw w t !! dv_ToVersion req).
Proof.
  intros Hi Ht E. simpl. unfold DiffVersions in E.
  hstep E u0 w0 E0 Hs0. hstep E t' w1 E1 Hs1.
  rewrite (resolveAccess_Ok _ _ _ _ _ w t t' _ E1) in * by done. clear t' E1.
  hstep E cv2 w2 E2 Hs2. hstep E cv3 w3 E3 Hs3.
  apply map_err_Ok in E2, E3. injection E2 as E2 <-. injection E3 as E3 <-.
  hstep E old w4 E4 Hs4. hstep E updated w5 E5 Hs5. apply ret_Ok in E as [<- _].
  assert (w_store w1 = w_store w) as Hw1 by congruence.
  exists old, updated. destruct (diff_exact old updated) as (? & ? & ? & ? & ? & _).
  split_and!; try done.
  - rewrite <-Hw1. eapply configMap_exact; [by rewrite Hw1|exact E4].
  - assert (w_store w4 = w_store w) as Hw4 by congruence. rewrite <-Hw4.
    eapply configMap_exact; [by rewrite Hw4|exact E5].
  - rewrite Hw1 in E2. apply (st_version_Ok k) in E2; [|done]. by destruct (histw w t !! _).
  - rewrite Hw1 in E3. apply (st_version_Ok k) in E3; [|done]. by destruct (histw w t !! _).
Qed.


End answers.

(** ** Witnesses *)
Module ReadWitnesses.
Import Scenario.

Definition req_name : GetFieldRequest :=
  {| gf_TenantId := "acme"; gf_FieldPath := "name"; gf_Version := None; gf_IncludeDescription := false |}.

Lemma tenant_isolation_witness :
  ∃ t, (resolveTenantID (req_tenant (RGetField req_name)) world1).1 = Ok t
    ∧ (t ≠ "" → RoleAdmin = RoleSuperAdmin ∨ t ∈ [tid]).
Proof.
  destruct (tenant_isolation svc true true true None admin (RGetField req_name) world1
    (call svc admin (RGetField req_name) world1).2 eq_refl) as (t & Ht & Ha).
  - apply (run_is (call svc admin (RGetField req_name)) world1). vm_compute. reflexivity.
  - exists t. split; [exact Ht|exact Ha].
Defined.

Definition sens_of (w : W) : gmap string bool :=
  match (getSensitiveFieldSet tid w).1 with Ok m => m | Err _ => ∅ end.
Definition types_of (w : W) : option (gmap string FieldType) :=
  match (fieldTypeMap svc tid w).1 with Ok m => m | Err _ => None end.


Definition req_three : GetFieldsRequest :=
  {| gfs_TenantId := "acme"; gfs_FieldPaths := ["token"; "key"; "name"]; gfs_Version := None;
     gfs_IncludeDescriptions := true |}.

Lemma get_fields_exact_witness :
  (GetFields svc admin req_three world2).1
  = Ok (omap (λ p, field_value (types_of world2) (sens_of world2) true
                     <$> snap (hist (st_abs (w_store world2)) tid) 2 p) ["token"; "key"; "name"]).
Proof.
  apply (get_fields_exact svc 2 world2 admin req_three tid 2 (sens_of world2) (types_of world2)
    world2_inv (proj1 (proj2 world2_facts))); vm_compute; reflexivity.
Defined.

Definition all_versions : ListConfigVersionsParams :=
  {| lcv_TenantID := tid; lcv_Limit := 0; lcv_Offset := 0 |}.
Definition versions2 : list ConfigVersion :=
  match MemStore.ListConfigVersions all_versions (w_store world2) with Ok l => l | Err _ => [] end.

Lemma versions2_newest : newest_first (hist (st_abs (w_store world2)) tid) versions2.
Proof.
  destruct (st_list_Ok 2 (w_store world2) all_versions versions2 world2_inv)
    as (vs & Hv & Hl); [vm_compute; discriminate|vm_compute; reflexivity|]. simpl in Hl. by rewrite Hl.
Qed.

Lemma list_versions_pages_witness :
  Pagination.Iter (list_page svc admin "acme" 1 world2) Pagination.collect 3 "" []
  = Some (configVersionToProto <$> versions2).
Proof.
  apply (list_versions_pages svc 2 world2 admin "acme" 1 tid versions2 3 world2_inv
    versions2_newest).
  - vm_compute. discriminate.
  - reflexivity.
  - vm_compute. reflexivity.
  - vm_compute. reflexivity.
  - vm_compute. reflexivity.
Defined.

Definition diff12 : DiffVersionsRequest :=
  {| dv_TenantId := "acme"; dv_FromVersion := 1; dv_ToVersion := 2 |}.
Definition ok_list {A} (r : result error (list A)) : list A :=
  match r with Ok l => l | Err _ => [] end.

Lemma diff_versions_exact_witness :
  fd_FieldPath <$> ok_list (DiffVersions svc admin diff12 world2).1 = ["name"; "token"]
  ∧ NoDup (fd_FieldPath <$> ok_list (DiffVersions svc admin diff12 world2).1).
Proof.
  destruct (diff_versions_exact svc 2 world2 admin diff12 tid
    (ok_list (DiffVersions svc admin diff12 world2).1) (DiffVersions svc admin diff12 world2).2
    world2_inv) as (old & updated & _ & _ & _ & _ & _ & _ & Hnd & _).
  - vm_compute. reflexivity.
  - apply (run_is (DiffVersions svc admin diff12) world2). vm_compute. reflexivity.
  - split; [vm_compute; reflexivity|exact Hnd].
Defined.


End ReadWitnesses.
