(* ===== verification/ServiceCache.v ===== *)
(** * The config cache is never stale

    An invariant of the whole service: what the cache holds for a tenant and a
    version is the redacted snapshot of that version. It is kept by every call,
    so [GetConfig] answers from the cache what it would answer from the store.
    An invalidation may fail, as one of Redis can; then it matters that no
    version was cached before it existed. Calls are taken one after another. *)
From S2P Require Import Prelude GoText Domain Convert Auth Cache Pagination PubSub CrossField.
From S2P Require Import ConfigStore MemStore MemStoreFacts Validation ValidatorFactory ConfigYaml ConfigService ServiceLemmas ServiceCommits.
From S2P Require Import ServiceReads Scenario.
Import Convert Auth Authz AuthFacts.

Section coherence.
Context {S C I P V : Type}.
Context `{StoreOk S} `{ConfigCacheOk C error}.
Context `{IdempotencyCache I error, Publisher P, ValidatorsOk V}.
Context `{XXHash, MapRangeOk, Clock, Sched, CelCap, FloatOverflow, YamlLib}.
Context (svc : Service S).
Abbreviation W := (World S C I P V).
Abbreviation st := (w_store (S:=S) (C:=C) (I:=I) (P:=P) (V:=V)).
Implicit Types (w : W).
Abbreviation histw w t := (hist (st_abs (w_store w)) t).

(** The store and the cache, what the invariant speaks about. *)
Definition sc w : S * C := (w_store w, w_cache w).

(** The value a cached or fetched map has for a row. *)
Definition shown (sens : gmap string bool) (p : string) (row : Row) : string :=
  redactIfSensitive (is_sensitive sens p) (derefString (row_Value row)).
Definition shows w (t : string) (v : Z) (m : gmap string string) : Prop :=
  ∃ sens, (getSensitiveFieldSet t w).1 = Ok sens
    ∧ ∀ p, m !! p = shown sens p <$> snap (histw w t) v p.

(** A cache whose [Invalidate] does not fail. *)
Definition available : Prop := ∀ t (c : C), (cc_Invalidate t c).1 = Ok tt.
(** The cache has an entry for a tenant and a version; none is for a version
    that is still to come. *)
Definition holds_entry w (t : string) (v : Z) : Prop :=
  ∃ now, (∃ m, cc_Get now t v (w_cache w) = Ok (Some m)) ∨ cc_GetNegative now t v (w_cache w) = Ok true.
Definition up_to_latest w (t : string) (v : Z) : Prop := ∃ n, latest (histw w t) n ∧ (v ≤ n)%Z.
Definition bounded w : Prop := ∀ t v, holds_entry w t v → up_to_latest w t v.

Record coherent w : Prop := {
  co_inv : cc_inv (w_cache w);
  co_hit now t v m : cc_Get now t v (w_cache w) = Ok (Some m) → shows w t v m;
  co_neg now t v : cc_GetNegative now t v (w_cache w) = Ok true → shows w t v ∅;
  co_ahead : available ∨ bounded w }.

Definition clear (t : string) w : Prop :=
  ∀ now v, (∀ m, cc_Get now t v (w_cache w) ≠ Ok (Some m)) ∧ cc_GetNegative now t v (w_cache w) ≠ Ok true.

(** *** What coherence depends on *)
Lemma sensitive_cat w1 w2 t :
  st_cat (w_store w1) = st_cat (w_store w2) →
  (getSensitiveFieldSet t w1).1 = (getSensitiveFieldSet (C:=C) (I:=I) (P:=P) (V:=V) t w2).1.
Proof.
  intros E. destruct (st_cat_reads _ _ E) as (Ht & _ & Hf & Hsv & _).
  unfold getSensitiveFieldSet, getSensitiveFieldSetFromTenant, mbind, ST_bind, map_err, reads.
  rewrite Ht. destruct (GetTenantByID t _) as [tn|]; simpl; [|done]. rewrite Hsv.
  destruct (GetSchemaVersion _ _ _) as [sv|]; simpl; [|done]. rewrite Hf.
  by destruct (GetSchemaFields _ _).
Qed.

Lemma shows_same w w' t v m :
  st_cat (w_store w') = st_cat (w_store w) → (∀ p, snap (histw w' t) v p = snap (histw w t) v p) →
  shows w t v m → shows w' t v m.
Proof.
  intros Hc Hh (sens & Hs & Hm). exists sens. split; [by rewrite (sensitive_cat w' w)|].
  intros p. by rewrite Hh.
Qed.

(** A change of the store that spares what the cache knows of a tenant: none,
    or the next version, when the cache has nothing of the tenant or nothing
    for versions to come. *)
Definition next_version w w' (t : string) : Prop :=
  ∃ n, latest (histw w t) n ∧ latest (histw w' t) (n + 1)
    ∧ ∀ u p, (u ≤ n)%Z → snap (histw w' t) u p = snap (histw w t) u p.
Definition spares w w' (t : string) : Prop :=
  histw w' t = histw w t ∨ next_version w w' t ∧ (clear t w ∨ bounded w).

Lemma spares_snap k w w' t v p :
  st_inv k (w_store w) → spares w w' t → holds_entry w t v →
  snap (histw w' t) v p = snap (histw w t) v p.
Proof.
  intros Hi [->|[(n & Hl & _ & Hs) [Hclear|Hb]]] He; [done| |].
  - destruct He as (now & [[m Hm]|Hm]); [by destruct (proj1 (Hclear now v) m)|by destruct (proj2 (Hclear now v))].
  - apply Hs. destruct (Hb t v He) as (n' & Hl' & Hv).
    by rewrite (latest_unique _ n n' (λ u, st_hist_pos k _ _ _ Hi) Hl Hl').
Qed.
Lemma spares_latest k w w' t v :
  st_inv k (w_store w) → spares w w' t → up_to_latest w t v → up_to_latest w' t v.
Proof.
  intros Hi [E|[(n & Hl & Hl' & _) _]] (m & Hm & Hv); [exists m; by rewrite E|].
  exists (n + 1)%Z. rewrite (latest_unique _ m n (λ u, st_hist_pos k _ _ _ Hi) Hm Hl) in Hv. split; [done|lia].
Qed.

Lemma coherent_store k w w' :
  st_inv k (w_store w) → coherent w → w_cache w' = w_cache w → st_cat (w_store w') = st_cat (w_store w) →
  (∀ t, spares w w' t) → coherent w'.
Proof.
  intros Hi [Hci Hg Hn Ha] Hc Hcat Hh. split; rewrite ?Hc; [done|..].
  - intros now t v m Hm. apply (shows_same w); [done| |by eapply Hg].
    intros p. apply (spares_snap k); [done..|]. exists now. left. by exists m.
  - intros now t v Hm. apply (shows_same w); [done| |by eapply Hn].
    intros p. apply (spares_snap k); [done..|]. exists now. by right.
  - destruct Ha as [?|Hb]; [by left|right]. intros t v He. apply (spares_latest k w); [done..|].
    apply Hb. unfold holds_entry in *. by rewrite <-Hc.
Qed.

Lemma coherent_sc k w w' : st_inv k (w_store w) → coherent w → sc w' = sc w → coherent w'.
Proof.
  intros Hi Hc [= Hs Hcache]. eapply coherent_store; [done..|by rewrite Hs|].
  intros t. left. by rewrite Hs.
Qed.

(** *** Steps that leave the store alone and keep coherence *)
Definition safe {A} (m : ST W A) : Prop := ∀ k w r w',
  st_inv k (w_store w) → coherent w → m w = (r, w') → coherent w' ∧ w_store w' = w_store w.

Lemma safe_keeps {A} (m : ST W A) : keeps sc m → safe m.
Proof.
  intros Hm k w r w' Hi Hc E. pose proof (keeps_run sc m w r w' Hm E) as Hsc.
  split; [by eapply coherent_sc|by injection Hsc].
Qed.
Lemma safe_bind {A B} (m : ST W A) (g : A → ST W B) : safe m → (∀ a, safe (g a)) → safe (m ≫= g).
Proof.
  intros Hm Hg k w r w' Hi Hc E. unfold mbind, ST_bind in E. destruct (m w) as [[a|e] w1] eqn:Em.
  - destruct (Hm k w _ w1 Hi Hc Em) as [Hc1 Hs1]. rewrite <-Hs1 in Hi.
    destruct (Hg a k w1 r w' Hi Hc1 E). split; [done|congruence].
  - injection E as <- <-. by eapply Hm.
Qed.

(** The entries of a cache with fewer of them. *)
Lemma bounded_fewer w w' :
  w_store w' = w_store w → (∀ t v, holds_entry w' t v → holds_entry w t v) → bounded w → bounded w'.
Proof. intros Hs He Hb t v Hv. unfold up_to_latest. rewrite Hs. by apply Hb, He. Qed.

Lemma invalidate_clear t w w' r :
  coherent w → invalidate t w = (r, w') →
  coherent w' ∧ w_store w' = w_store w ∧ (clear t w' ∨ bounded w').
Proof.
  intros [Hi Hg Hn Ha] E. unfold invalidate, mbind, ST_bind, with_cache in E.
  pose proof (cc_Invalidate_inv t (w_cache w) Hi) as Hi'.
  pose proof (λ now t' v m, cc_Invalidate_hit t (w_cache w) now t' v m Hi) as Hhit.
  pose proof (λ now t' v, cc_Invalidate_neg t (w_cache w) now t' v Hi) as Hneg.
  assert (available → (cc_Invalidate t (w_cache w)).1 = Ok tt) as Hav by (intros Hav; apply Hav).
  destruct (cc_Invalidate t (w_cache w)) as [x c]. injection E as <- <-. simpl in *.
  set (w' := mkWorld _ c _ _ _ _ _).
  assert (∀ t v, holds_entry w' t v → holds_entry w t v) as Hfewer.
  { intros t' v (now & [[m Hm]|Hm]); exists now; [left; exists m; by apply Hhit|right; by apply Hneg]. }
  assert (bounded w → bounded w') as Hb by (by apply bounded_fewer).
  split_and!; [split|done|].
  - done.
  - intros now t' v m Hm. apply (shows_same w); [done..|]. by eapply Hg, Hhit.
  - intros now t' v Hm. apply (shows_same w); [done..|]. by eapply Hn, Hneg.
  - destruct Ha; [by left|right; auto].
  - destruct Ha as [Ha|Ha]; [left|right; auto]. intros now v. split.
    + intros m Hm. by destruct (proj2 (Hhit now t v m Hm) (Hav Ha)).
    + intros Hm. by destruct (proj2 (Hneg now t v Hm) (Hav Ha)).
Qed.
Lemma safe_invalidate t : safe (invalidate t).
Proof. intros k w r w' _ Hc E. by destruct (invalidate_clear t w w' r Hc E) as (? & ? & _). Qed.

(** The map a miss computes, and its entry in the cache. *)
Lemma coherent_Set w t v m now ttl :
  coherent w → shows w t v m → available ∨ up_to_latest w t v →
  coherent (mkWorld (w_store w) (cc_Set now t v m ttl (w_cache w)).2 (w_idem w) (w_pub w) (w_val w)
              (w_reads w) (w_ticks w)).
Proof.
  intros [Hi Hg Hn Ha] Hm Hv. set (w' := mkWorld _ _ _ _ _ _ _).
  assert (∀ now' t' v' m', cc_Get now' t' v' (w_cache w') = Ok (Some m') →
    (t' = t ∧ v' = v ∧ m' = m) ∨ cc_Get now' t' v' (w_cache w) = Ok (Some m')) as Hhit
    by (intros now' t' v' m' Hh; by apply cc_Set_hit in Hh).
  split.
  - by apply cc_Set_inv.
  - intros now' t' v' m' [(-> & -> & ->)|Hh]%Hhit; (apply (shows_same w); [done..|]); [done|by eapply Hg].
  - intros now' t' v' Hh. simpl in Hh. rewrite cc_Set_neg in Hh by done.
    apply (shows_same w); [done..|]. by eapply Hn.
  - destruct Ha as [?|Hb]; [by left|]. destruct Hv as [?|Hv]; [by left|right].
    intros t' v' (now' & [[m' [(-> & -> & _)|Hh]%Hhit]|Hh]); [done|apply Hb; exists now'; left; by exists m'|].
    simpl in Hh. rewrite cc_Set_neg in Hh by done. apply Hb. exists now'. by right.
Qed.
Lemma coherent_SetNegative w t v now ttl :
  coherent w → shows w t v ∅ → available ∨ up_to_latest w t v →
  coherent (mkWorld (w_store w) (cc_SetNegative now t v ttl (w_cache w)).2 (w_idem w) (w_pub w)
              (w_val w) (w_reads w) (w_ticks w)).
Proof.
  intros [Hi Hg Hn Ha] Hm Hv. set (w' := mkWorld _ _ _ _ _ _ _).
  assert (∀ now' t' v', cc_GetNegative now' t' v' (w_cache w') = Ok true →
    (t' = t ∧ v' = v) ∨ cc_GetNegative now' t' v' (w_cache w) = Ok true) as Hneg
    by (intros now' t' v' Hh; by apply cc_SetNegative_neg in Hh).
  split.
  - by apply cc_SetNegative_inv.
  - intros now' t' v' m' Hh. simpl in Hh. rewrite cc_SetNegative_hit in Hh by done.
    apply (shows_same w); [done..|]. by eapply Hg.
  - intros now' t' v' [(-> & ->)|Hh]%Hneg; (apply (shows_same w); [done..|]); [done|by eapply Hn].
  - destruct Ha as [?|Hb]; [by left|]. destruct Hv as [?|Hv]; [by left|right].
    intros t' v' (now' & [[m' Hh]|[(-> & ->)|Hh]%Hneg]); [|done|apply Hb; exists now'; by right].
    simpl in Hh. rewrite cc_SetNegative_hit in Hh by done. apply Hb. exists now'. left. by exists m'.
Qed.

(** The error of a read of a whole version. *)
Definition full_read_failed (s : S) (t : string) (v : Z) (e : error) : Prop :=
  e = Status0 Internal "failed to get config" ∧ ∃ e', GetFullConfigAtVersion t v s = Err e'.

Lemma fetch_spec k w t v r w' :
  st_inv k (w_store w) → coherent w → available ∨ up_to_latest w t v → fetchAndCacheConfig t v w = (r, w') →
  coherent w' ∧ w_store w' = w_store w
  ∧ match r with
    | Ok m => shows w t v m
    | Err e => (getSensitiveFieldSet t w).1 = Err e ∨ full_read_failed (w_store w) t v e
    end.
Proof.
  intros Hi Hc Hv E. unfold fetchAndCacheConfig in E.
  unfold mbind at 1, ST_bind at 1, map_err, reads in E.
  destruct (GetFullConfigAtVersion t v (w_store w)) as [rows|e] eqn:Hf.
  2:{ injection E as <- <-. split_and!; [done..|]. right. split; [done|by exists e]. }
  unfold mbind at 1, ST_bind at 1 in E. pose proof (getSensitive_world w t) as Hw.
  destruct (getSensitiveFieldSet t w) as [[sens|e] w1] eqn:Hs; simpl in Hw; subst w1.
  2:{ injection E as <- <-. split_and!; [done..|]. by left. }
  cbv zeta in E. revert E.
  match goal with |- context [foldl ?f ?z rows] => set (m := foldl f z rows) end. intros E.
  assert (shows w t v m) as Hm.
  { exists sens. rewrite Hs. split; [done|]. intros p.
    etrans; [exact (rows_map_lookup (λ r, shown sens (row_FieldPath r) r) _ _ rows p
                      (st_full_Ok k _ _ _ _ Hi Hf))|].
    destruct (snap _ v p) as [row|] eqn:Hr; [|done]. simpl. by rewrite (snap_path _ _ _ _ Hr). }
  unfold mbind, ST_bind, time_now in E. unfold with_cache in E. simpl in E.
  case_bool_decide as Hz; simpl in E.
  - destruct (cc_SetNegative _ _ _ _ (w_cache w)) as [x c] eqn:Hset. simpl in E. injection E as <- <-.
    rewrite Hz in Hm. split_and!; [|done|by rewrite Hz].
    pose proof (coherent_SetNegative w t v (clock (w_ticks w)) negativeCacheTTL Hc Hm Hv) as Hco.
    rewrite Hset in Hco. by eapply coherent_sc; [|exact Hco|].
  - destruct (cc_Set _ _ _ _ _ (w_cache w)) as [x c] eqn:Hset. simpl in E. injection E as <- <-.
    split_and!; [|done|done].
    pose proof (coherent_Set w t v m (clock (w_ticks w)) defaultCacheTTL Hc Hm Hv) as Hco.
    rewrite Hset in Hco. by eapply coherent_sc; [|exact Hco|].
Qed.

(** *** The primitive steps *)
Lemma sc_reads {A} (f : S → result error A) : keeps sc (reads f).
Proof. done. Qed.
Lemma sc_time : keeps sc time_now.
Proof. done. Qed.
Lemma sc_idem {A} (f : I → A * I) : keeps sc (with_idem f).
Proof. intros w. unfold with_idem. by destruct (f (w_idem w)). Qed.
Lemma sc_pub {A} (f : P → A * P) : keeps sc (with_pub f).
Proof. intros w. unfold with_pub. by destruct (f (w_pub w)). Qed.
Lemma sc_val {A} (f : V → result error A * V) : keeps sc (with_val f).
Proof. intros w. unfold with_val. by destruct (f (w_val w)). Qed.
Lemma sc_record t ps a : keeps sc (RecordReads svc t ps a).
Proof. done. Qed.
Lemma sc_check ctx action r : keeps sc (check svc ctx action r).
Proof. done. Qed.
Lemma sc_look {A} (f : C → A) : keeps sc (with_cache (λ c, (f c, c))).
Proof. done. Qed.
Hint Resolve sc_reads sc_time sc_idem sc_pub sc_val sc_record sc_check sc_look : frame.

(** The helpers of the handlers that touch neither component. *)
Ltac sc_tac :=
  unfold vet_update, vet_row, vet_import, filterByImportMode, subscribe_begin, subscribe_stream,
    get_slot, configMapAtVersion, respond_config, both, resolveTenantWithAccess, resolveTenantID,
    must_have_claims, resolveVersion, getCurrentValue, fieldTypeMap, validateField,
    fetchDependentRequiredRules, getSchemaFieldSets, getSensitiveFieldSet,
    getSensitiveFieldSetFromTenant, check_attrs, claimed_before, publishChanges;
  keeps_tac.

(** *** Whole calls *)
Definition good {A} k (m : ST W A) : Prop := ∀ w r w',
  coherent w → st_inv (Datatypes.S k) (w_store w) → (∀ t, room w t) → m w = (r, w') →
  coherent w' ∧ st_inv k (w_store w')
  ∧ (∀ t n, latest (histw w' t) n → ∃ m, latest (histw w t) m ∧ (n ≤ m + 1)%Z).

Lemma good_safe {A} k (m : ST W A) : safe m → good k m.
Proof.
  intros Hm w r w' Hc Hi Hroom E. destruct (Hm _ w r w' Hi Hc E) as [Hc' Hs]. rewrite Hs.
  split_and!; [done|by eapply st_inv_le; [|done]; lia|]. intros t n Hn. exists n. split; [done|lia].
Qed.
Lemma good_bind {A B} k (m : ST W A) (g : A → ST W B) :
  safe m → (∀ a, good k (g a)) → good k (m ≫= g).
Proof.
  intros Hm Hg w r w' Hc Hi Hroom E. unfold mbind, ST_bind in E.
  destruct (m w) as [[a|e] w1] eqn:Em; destruct (Hm _ w _ w1 Hi Hc Em) as [Hc1 Hs1].
  - destruct (Hg a w1 r w' Hc1) as (? & ? & ?); [by rewrite Hs1|unfold room; by rewrite Hs1|done|].
    by rewrite Hs1 in *.
  - injection E as <- <-. rewrite Hs1. split_and!; [done|by eapply st_inv_le; [|done]; lia|].
    intros t n Hn. exists n. split; [done|lia].
Qed.

Lemma runInTx_cache {A} (body : ST (V * S) A) w r w' :
  runInTxWithRetry body w = (r, w') → w_cache w' = w_cache w.
Proof.
  unfold runInTxWithRetry. destruct (retryOnVersionConflict _ _ _) as [? [? ?]]. by intros [= _ <-].
Qed.

Lemma good_tx {B} k f body t desc actor rows audits rules Q (post : ConfigVersion → ST W B) :
  (∀ Σ, tx_commits svc Σ body t desc actor rows audits rules Q) → (∀ nv, safe (post nv)) →
  good k (invalidate t;; (map_err f (runInTxWithRetry body) ≫= post)).
Proof.
  intros Hb Hp w r w' Hc Hi Hroom E. unfold mbind at 1, ST_bind at 1 in E.
  destruct (invalidate t w) as [x w1] eqn:Einv.
  destruct (invalidate_clear t w w1 x Hc Einv) as (Hc1 & Hs1 & Hclear).
  assert (x = Ok tt) as ->.
  { unfold invalidate, mbind, ST_bind, with_cache in Einv.
    destruct (cc_Invalidate t (w_cache w)). by injection Einv. }
  rewrite <-Hs1 in Hi |- *. unfold mbind, ST_bind, map_err in E.
  destruct (runInTxWithRetry body w1) as [[nv|e] w2] eqn:Erun;
    pose proof (runInTx_cache _ _ _ _ Erun) as Hcache.
  - destruct (run_tx_commits svc (va_view (w_val w1)) k body t desc actor rows audits rules Q w1 nv w2
      (Hb _) Hi)
      as (n & Hl & _ & _ & Hcm & Hi2 & Hcat & Hn & _); [unfold room; rewrite Hs1; apply Hroom|done|].
    destruct (commits_effect _ _ _ _ _ _ _ Hcm Hn Hl) as (_ & Hold & Hoth & Hl' & _).
    assert (coherent w2) as Hc2.
    { eapply coherent_store; [exact Hi|exact Hc1|done|done|]. intros t'.
      destruct (decide (t' = t)) as [->|]; [right|left; by apply Hoth]. split; [|done].
      exists n. split_and!; [done|done|]. intros u p. by apply Hold. }
    destruct (Hp nv k w2 r w' Hi2 Hc2 E) as [Hc' Hs']. rewrite Hs'. split_and!; [done|done|].
    intros t' m Hm. destruct (decide (t' = t)) as [->|Hne].
    + exists n. split; [done|].
      rewrite (latest_unique _ m (n + 1) (λ u, st_hist_pos _ _ _ _ Hi2) Hm Hl'). lia.
    + exists m. rewrite <-Hoth by done. split; [done|lia].
  - injection E as <- <-. destruct (run_tx_Err _ _ _ _ _ Hi Erun) as (Hi2 & Ha & Hcat). split_and!.
    + eapply coherent_store; [exact Hi|exact Hc1|done|done|]. intros t'. left. by rewrite Ha.
    + by eapply st_inv_le; [|done]; lia.
    + intros t' m Hm. exists m. rewrite Ha in Hm. split; [done|lia].
Qed.

Ltac safe_tac :=
  repeat first
    [ solve [apply safe_keeps; sc_tac] | apply safe_invalidate
    | apply safe_bind; [|intros ?]
    | match goal with |- safe (if ?x then _ else _) => destruct x end
    | match goal with |- safe (match ?x with _ => _ end) => destruct x end
    | progress cbv zeta ].
Ltac good_tac :=
  repeat first
    [ solve [apply good_safe, safe_keeps; sc_tac]
    | eapply good_tx; [intros ?Σ; first [apply SetField_tx_commits | apply SetFields_tx_commits
                             | apply Rollback_tx_commits | apply Import_tx_commits]
                      |intros ?; cbv zeta; solve [safe_tac]]
    | apply good_bind; [solve [safe_tac]|intros ?]
    | match goal with |- good _ (if ?x then _ else _) => destruct x end
    | progress cbv zeta ].

Lemma good_SetField k ctx req : good k (SetField svc ctx req).
Proof. unfold SetField. good_tac. Qed.
Lemma good_SetFields k ctx req : good k (SetFields svc ctx req).
Proof. unfold SetFields. good_tac. Qed.
Lemma good_Rollback k ctx req : good k (RollbackToVersion svc ctx req).
Proof. unfold RollbackToVersion. good_tac. Qed.
Lemma good_Import k ctx req : good k (ImportConfig svc ctx req).
Proof. unfold ImportConfig. good_tac. Qed.

(** *** The answer of [GetConfig] *)
Lemma shows_sens w t v m sens :
  shows w t v m → (getSensitiveFieldSet t w).1 = Ok sens →
  ∀ p, m !! p = shown sens p <$> snap (histw w t) v p.
Proof. intros (s' & Hs & Hm) Hs'. rewrite Hs in Hs'. by injection Hs' as <-. Qed.

(** A row as it is answered: with the checksum and the description of the row
    when descriptions are asked for, and otherwise with the checksum of the
    text shown. *)
Definition shown_value (sens : gmap string bool) (types : option (gmap string FieldType)) (desc : bool)
    (row : Row) : pbConfigValue :=
  let text := shown sens (row_FieldPath row) row in
  {| pv_FieldPath := row_FieldPath row;
     pv_Value := stringToTypedValue (Some text) (lookupFieldType types (row_FieldPath row));
     pv_Checksum := if desc then derefString (row_Checksum row) else computeChecksum text;
     pv_Description := if desc then row_Description row else None |}.

(** Every row of the snapshot is answered once, and nothing else. *)
Record answers w (t : string) (v : Z) sens types (desc : bool) (vs : list pbConfigValue) : Prop := {
  an_once : NoDup (pv_FieldPath <$> vs);
  an_rows pv : pv ∈ vs ↔
    ∃ row, snap (histw w t) v (row_FieldPath row) = Some row ∧ pv = shown_value sens types desc row }.

Lemma map_answers w t v sens types m :
  (∀ p, m !! p = shown sens p <$> snap (histw w t) v p) → answers w t v sens types false (map_values types m).
Proof.
  intros Hm. unfold map_values. split.
  - rewrite <-list_fmap_compose. apply NoDup_fst_map_range.
  - intros pv. rewrite list_elem_of_fmap. split.
    + intros ([p x] & -> & Hin). apply elem_of_map_range in Hin. rewrite Hm in Hin.
      apply fmap_Some in Hin as (row & Hs & ->). pose proof (snap_path _ _ _ _ Hs) as <-. by exists row.
    + intros (row & Hs & ->). exists (row_FieldPath row, shown sens (row_FieldPath row) row). split; [done|].
      apply elem_of_map_range. by rewrite Hm, Hs.
Qed.
Lemma rows_answer w t v sens types rows :
  is_snapshot (histw w t) v rows → answers w t v sens types true (shown_value sens types true <$> rows).
Proof.
  intros (_ & Hnd & Hr). split; [by rewrite <-list_fmap_compose|].
  intros pv. rewrite list_elem_of_fmap. setoid_rewrite Hr. naive_solver.
Qed.
Lemma map_values_empty types : map_values types ∅ = [].
Proof.
  unfold map_values. replace (map_range (∅ : gmap string string)) with (@nil (string * string)); [done|].
  symmetry. apply Permutation_nil_r. by rewrite map_range_perm, map_to_list_empty.
Qed.

(** The end of [GetConfig]: from the cache or from the store. *)
Definition from_cache (ctx : Ctx) (t : string) (v : Z) (types : option (gmap string FieldType)) :
    ST W pbConfig :=
  now ← time_now;
  cached ← with_cache (λ c, (cc_Get now t v c, c));
  match cached with
  | Ok (Some m) => respond_config svc ctx t v (map_values types m)
  | _ =>
      now ← time_now;
      neg ← with_cache (λ c, (cc_GetNegative now t v c, c));
      match neg with
      | Ok true => mret {| pc_TenantId := t; pc_Version := v; pc_ConfigValues := [] |}
      | _ => m ← fetchAndCacheConfig t v; respond_config svc ctx t v (map_values types m)
      end
  end.

(** What a call that got so far answers: the snapshot, or the error of a read
    it needed. *)
Definition served w (t : string) (v : Z) (types : option (gmap string FieldType)) (desc : bool)
    (r : result error pbConfig) : Prop :=
  match r with
  | Ok c => pc_TenantId c = t ∧ pc_Version c = v
      ∧ ∃ sens, (getSensitiveFieldSet t w).1 = Ok sens ∧ answers w t v sens types desc (pc_ConfigValues c)
  | Err e => (getSensitiveFieldSet t w).1 = Err e ∨ full_read_failed (w_store w) t v e
  end.

Lemma served_shows w t v types m : 
  shows w t v m →
  served w t v types false (Ok {| pc_TenantId := t; pc_Version := v; pc_ConfigValues := map_values types m |}).
Proof. intros (sens & Hs & Hm). split_and!; [done..|]. exists sens. split; [done|by apply map_answers]. Qed.
Lemma served_sc w w' t v types desc r : sc w' = sc w → served w' t v types desc r → served w t v types desc r.
Proof.
  intros [= Hs _]. unfold served, full_read_failed. destruct r as [c|e]; rewrite (sensitive_store w' w), ?Hs by done; [|done].
  intros (? & ? & sens & ? & Ha). split_and!; [done..|]. exists sens. split; [done|].
  destruct Ha as [Ho Hr]. split; [done|]. by rewrite Hs in Hr.
Qed.

Lemma fetch_served k w ctx t v types r w' :
  st_inv k (w_store w) → coherent w → available ∨ up_to_latest w t v →
  (m ← fetchAndCacheConfig t v; respond_config svc ctx t v (map_values types m)) w = (r, w') →
  coherent w' ∧ w_store w' = w_store w ∧ served w t v types false r.
Proof.
  intros Hi Hc Hv E. unfold mbind, ST_bind in E. destruct (fetchAndCacheConfig t v w) as [x w1] eqn:Ef.
  destruct (fetch_spec k w t v x w1 Hi Hc Hv Ef) as (Hc1 & Hs1 & Hx). destruct x as [m|e].
  - assert (sc w' = sc w1) as Hsc by (refine (keeps_run sc _ _ _ _ _ E); unfold respond_config; keeps_tac).
    assert (r = Ok {| pc_TenantId := t; pc_Version := v; pc_ConfigValues := map_values types m |}) as ->
      by (by injection E as <- _).
    split_and!; [by eapply coherent_sc; [rewrite Hs1| |]|by injection Hsc as -> _|by apply served_shows].
  - injection E as <- <-. done.
Qed.

Lemma from_cache_served k w ctx t v types r w' :
  st_inv k (w_store w) → coherent w → available ∨ up_to_latest w t v → from_cache ctx t v types w = (r, w') →
  coherent w' ∧ w_store w' = w_store w ∧ served w t v types false r.
Proof.
  intros Hi Hc Hv E. unfold from_cache in E.
  set (later n := mkWorld (w_store w) (w_cache w) (w_idem w) (w_pub w) (w_val w) (w_reads w) (n + w_ticks w)).
  assert (∀ n, coherent (later n)) as Hl by (intros n; by eapply coherent_sc).
  assert (∀ r w', ((now ← time_now; neg ← with_cache (λ c, (cc_GetNegative now t v c, c));
      match neg with
      | Ok true => mret {| pc_TenantId := t; pc_Version := v; pc_ConfigValues := [] |}
      | _ => m ← fetchAndCacheConfig t v; respond_config svc ctx t v (map_values types m)
      end : ST W pbConfig) (later 1) = (r, w')) →
    coherent w' ∧ w_store w' = w_store w ∧ served w t v types false r) as Hmiss.
  { intros r0 w0 E0. unfold mbind at 1 2, ST_bind at 1 2, time_now, with_cache in E0. simpl in E0.
    change (mkWorld (w_store w) (w_cache w) (w_idem w) (w_pub w) (w_val w) (w_reads w)
              (Datatypes.S (Datatypes.S (w_ticks w))))
      with (later 2) in E0.
    assert ((m ← fetchAndCacheConfig t v; respond_config svc ctx t v (map_values types m)) (later 2) = (r0, w0) →
      coherent w0 ∧ w_store w0 = w_store w ∧ served w t v types false r0) as Hf.
    { intros E1. destruct (fetch_served k (later 2) ctx t v types r0 w0) as (? & ? & Hsv); [done..|].
      split_and!; [done..|]. by eapply served_sc; [|exact Hsv]. }
    destruct (cc_GetNegative _ t v (w_cache w)) as [[|]|e] eqn:Hn; [|by apply Hf..].
    injection E0 as <- <-. split_and!; [done..|]. rewrite <-(map_values_empty types).
    apply served_shows. by eapply (co_neg w Hc). }
  unfold mbind at 1 2, ST_bind at 1 2, time_now at 1, with_cache at 1 in E. simpl in E.
  change (mkWorld (w_store w) (w_cache w) (w_idem w) (w_pub w) (w_val w) (w_reads w)
            (Datatypes.S (w_ticks w)))
    with (later 1) in E.
  destruct (cc_Get _ t v (w_cache w)) as [[m|]|e] eqn:Hg; [|by apply Hmiss..].
  assert (sc w' = sc (later 1)) as Hsc by (refine (keeps_run sc _ _ _ _ _ E); unfold respond_config; keeps_tac).
  injection E as <- <-. split_and!; [by eapply coherent_sc|done|]. apply served_shows. by eapply (co_hit w Hc).
Qed.

(** How far a call of [GetConfig] gets. *)
Definition refused (ctx : Ctx) (req : GetConfigRequest) w (e : error) : Prop :=
  MustHaveClaims ctx = Err e ∨ (resolveTenantID (gc_TenantId req) w).1 = Err e
  ∨ ∃ t, (resolveTenantID (gc_TenantId req) w).1 = Ok t
      ∧ (svc_guard svc (w_store w) ctx ActionRead
           {| res_TenantID := t; res_FieldPath := ""; res_Value := "" |} = Err e
         ∨ (resolveVersion t (gc_Version req) w).1 = Err e ∨ (fieldTypeMap svc t w).1 = Err e).

Definition GetConfig_tail (ctx : Ctx) (req : GetConfigRequest) (t : string) (v : Z)
    (types : option (gmap string FieldType)) : ST W pbConfig :=
  if negb (gc_IncludeDescriptions req) then from_cache ctx t v types
  else
    rows ← map_err (λ _, Status0 Internal "failed to get config") (reads (GetFullConfigAtVersion t v));
    sens ← getSensitiveFieldSet t;
    respond_config svc ctx t v (shown_value sens types true <$> rows).

Lemma resolveVersion_world w t v : (resolveVersion (C:=C) (I:=I) (P:=P) (V:=V) t v w).2 = w.
Proof.
  destruct v as [v|]; [done|]. unfold resolveVersion, mbind, ST_bind, try, reads.
  destruct (GetLatestConfigVersion t (w_store w)) as [cv|e]; [done|]. by destruct (is_NotFound e).
Qed.
Lemma resolveTenant_world w name : (resolveTenantID (C:=C) (I:=I) (P:=P) (V:=V) name w).2 = w.
Proof.
  unfold resolveTenantID, mbind, ST_bind, map_err, reads.
  destruct (bool_decide _); [done|]. destruct (IsUUID name); [done|].
  by destruct (GetTenantByName name (w_store w)).
Qed.

Lemma GetConfig_steps ctx req w r w' :
  GetConfig svc ctx req w = (r, w') →
  (∃ e, r = Err e ∧ refused ctx req w e ∧ sc w' = sc w)
  ∨ ∃ t v types w1, (resolveTenantID (gc_TenantId req) w).1 = Ok t
      ∧ resolveVersion t (gc_Version req) w = (Ok v, w) ∧ (fieldTypeMap svc t w).1 = Ok types
      ∧ sc w1 = sc w ∧ GetConfig_tail ctx req t v types w1 = (r, w').
Proof.
  intros E. unfold GetConfig in E. unfold must_have_claims, of_result, mbind at 1, ST_bind at 1 in E.
  destruct (MustHaveClaims ctx) as [[]|e] eqn:Hcl; [|injection E as <- <-; left; exists e; unfold refused; auto].
  pose proof (resolveTenant_world w (gc_TenantId req)) as Hw.
  unfold resolveTenantWithAccess, mbind, ST_bind in E. destruct (resolveTenantID _ w) as [[t|e] w0] eqn:Ht; simpl in Hw; subst w0.
  2:{ injection E as <- <-. left. exists e. unfold refused. rewrite Ht. auto. }
  unfold check in E. destruct (svc_guard _ _ _ _ _) as [[]|e] eqn:Hg.
  2:{ injection E as <- <-. left. exists e. split_and!; [done| |done]. right. right. exists t. rewrite Ht. auto. }
  simpl in E. unfold both, mbind, ST_bind, try in E. pose proof (resolveVersion_world w t (gc_Version req)) as Hw.
  destruct (resolveVersion t (gc_Version req) w) as [rv w0] eqn:Hv; simpl in Hw; subst w0.
  destruct (fieldTypeMap svc t w) as [rt w1] eqn:Hty.
  assert (sc w1 = sc w) as Hsc by (refine (keeps_run sc _ _ _ _ _ Hty); sc_tac).
  destruct rv as [v|ev], rt as [types|et]; simpl in E.
  - right. exists t, v, types, w1. rewrite Hty. split_and!; [done..|exact E].
  - injection E as <- <-. left. exists et. split_and!; [done| |done]. right. right. exists t. rewrite Ht, Hty. auto.
  - injection E as <- <-. left. exists ev. split_and!; [done| |done]. right. right. exists t. rewrite Ht, Hv. auto.
  - injection E as <- <-. left. eexists. split_and!; [done| |done]. right. right. exists t. rewrite Ht, Hv, Hty.
    destruct second_failed_first; auto.
Qed.

(** No version is asked for before it exists. *)
Definition timely (r : Request) w : Prop :=
  match r with
  | RGetConfig req => ∀ t v, (resolveTenantID (gc_TenantId req) w).1 = Ok t → gc_Version req = Some v →
      up_to_latest w t v
  | _ => True
  end.

Lemma GetConfig_served k w ctx req r w' :
  st_inv k (w_store w) → coherent w → available ∨ timely (RGetConfig req) w → GetConfig svc ctx req w = (r, w') →
  coherent w' ∧ w_store w' = w_store w
  ∧ ((∃ e, r = Err e ∧ refused ctx req w e)
     ∨ ∃ t v types, (resolveTenantID (gc_TenantId req) w).1 = Ok t ∧ resolveVersion t (gc_Version req) w = (Ok v, w)
         ∧ (fieldTypeMap svc t w).1 = Ok types ∧ served w t v types (gc_IncludeDescriptions req) r).
Proof.
  intros Hi Hc Htm E. destruct (GetConfig_steps _ _ _ _ _ E) as [(e & -> & Hr & Hsc)|(t & v & types & w1 & Ht & Hv & Hty & Hsc & E1)].
  { split_and!; [by eapply coherent_sc|by injection Hsc|left; by exists e]. }
  assert (w_store w1 = w_store w) as Hw1 by (by injection Hsc).
  assert (coherent w1) as Hc1 by (by eapply coherent_sc).
  assert (available ∨ up_to_latest w1 t v) as Hup.
  { destruct Htm as [?|Htm]; [by left|right]. unfold up_to_latest. rewrite Hw1.
    destruct (gc_Version req) as [v'|] eqn:Hreq; [injection Hv as ->; by apply (Htm t v)|].
    exists v. split; [by eapply resolveVersion_latest|done]. }
  cut (coherent w' ∧ w_store w' = w_store w1 ∧ served w1 t v types (gc_IncludeDescriptions req) r).
  { intros (? & Hs & Hsv). split_and!; [done|congruence|]. right. exists t, v, types. split_and!; [done..|by eapply served_sc]. }
  rewrite <-Hw1 in Hi. unfold GetConfig_tail in E1. destruct (gc_IncludeDescriptions req); simpl in E1.
  2:{ by eapply from_cache_served. }
  unfold mbind at 1, ST_bind at 1, map_err, reads in E1.
  destruct (GetFullConfigAtVersion t v (w_store w1)) as [rows|e] eqn:Hf.
  2:{ injection E1 as <- <-. split_and!; [done..|]. right. split; [done|by exists e]. }
  unfold mbind at 1, ST_bind at 1 in E1. pose proof (getSensitive_world w1 t) as Hw.
  destruct (getSensitiveFieldSet t w1) as [[sens|e] w2] eqn:Hs; simpl in Hw; subst w2.
  2:{ injection E1 as <- <-. split_and!; [done..|]. left. by rewrite Hs. }
  assert (sc w' = sc w1) as Hsc1 by (refine (keeps_run sc _ _ _ _ _ E1); unfold respond_config; keeps_tac).
  injection E1 as <- <-. split_and!; [by eapply coherent_sc|done|]. split_and!; [done..|]. exists sens.
  split; [by rewrite Hs|]. apply rows_answer. by eapply st_full_Ok.
Qed.

(** *** Sequences of calls *)
Lemma good_done {A} k (m : ST W A) : good k m → good k (done_with m).
Proof.
  intros Hm w r w' Hc Hi Hroom E. unfold done_with, mbind, ST_bind in E.
  destruct (m w) as [[a|e] w1] eqn:Em; injection E as _ <-; by eapply Hm.
Qed.

Lemma good_call k ctx r w x w' :
  coherent w → st_inv (Datatypes.S k) (w_store w) → (∀ t, room w t) → available ∨ timely r w →
  call svc ctx r w = (x, w') →
  coherent w' ∧ st_inv k (w_store w')
  ∧ (∀ t n, latest (histw w' t) n → ∃ m, latest (histw w t) m ∧ (n ≤ m + 1)%Z).
Proof.
  intros Hc Hi Hroom Htm E. destruct r as [req| | | | | | | | | | |].
  { unfold call, done_with, mbind, ST_bind in E. destruct (GetConfig svc ctx req w) as [rr w1] eqn:Eg.
    destruct (GetConfig_served _ _ _ _ _ _ Hi Hc Htm Eg) as (Hc1 & Hs1 & _).
    assert (w' = w1) as -> by (destruct rr; by injection E as _ <-). rewrite Hs1.
    split_and!; [done|by eapply st_inv_le; [|done]; lia|]. intros t n Hn. exists n. split; [done|lia]. }
  all: refine (good_done k _ _ w x w' Hc Hi Hroom E);
    first [apply good_SetField | apply good_SetFields | apply good_Rollback | apply good_Import
          | apply good_safe, safe_keeps;
            unfold GetField, GetFields, ListVersions, GetVersion, DiffVersions, ExportConfig, Subscribe; sc_tac].
Qed.

Fixpoint run_calls (calls : list (Ctx * Request)) (w : W) : W :=
  match calls with
  | [] => w
  | (ctx, r) :: calls => run_calls calls (call svc ctx r w).2
  end.
Fixpoint all_timely (calls : list (Ctx * Request)) (w : W) : Prop :=
  match calls with
  | [] => True
  | (ctx, r) :: calls => timely r w ∧ all_timely calls (call svc ctx r w).2
  end.

Lemma run_calls_good k calls w :
  coherent w → st_inv (k + length calls) (w_store w) → available ∨ all_timely calls w →
  (∀ t n, latest (histw w t) n → (n + Z.of_nat (length calls) ≤ max_int32)%Z) →
  coherent (run_calls calls w) ∧ st_inv k (w_store (run_calls calls w)).
Proof.
  revert w. induction calls as [|[ctx r] calls IH]; intros w Hc Hi Htm Hl.
  { split; [done|]. by rewrite Nat.add_0_r in Hi. }
  cbn [run_calls all_timely length] in *. rewrite Nat.add_succ_r in Hi.
  destruct (call svc ctx r w) as [x w'] eqn:E.
  destruct (good_call _ ctx r w x w' Hc Hi) as (Hc' & Hi' & Hl'); [|tauto|done|].
  { intros t n Hn. specialize (Hl t n Hn). lia. }
  apply IH; [done..|tauto|]. intros t n Hn. destruct (Hl' t n Hn) as (m & Hm & Hle).
  specialize (Hl t m Hm). lia.
Qed.

Lemma empty_coherent w : cc_inv (w_cache w) → (∀ t, clear t w) → coherent w.
Proof.
  intros Hi Hclear. split; [done|..].
  - intros now t v m Hm. by destruct (proj1 (Hclear t now v) m).
  - intros now t v Hm. by destruct (proj2 (Hclear t now v)).
  - right. intros t v (now & [[m Hm]|Hm]); [by destruct (proj1 (Hclear t now v) m)|by destruct (proj2 (Hclear t now v))].
Qed.

(** C3: The cache never makes [GetConfig] wrong. Start from a deployment whose
    cache is empty and make any sequence of calls of the config service, one
    after another, reads and writes, successful or not, over a store that may
    fail; and let the cache's [Invalidate] never fail, as that of the in-memory
    cache does not, or let no call ask for a version before it exists (with an
    invalidation that fails, as one of Redis can, a version cached ahead of its
    time stays stale). Then what [GetConfig] answers is, with or without
    descriptions, exactly the redacted snapshot of the requested (or latest)
    version as the store has it, each row once, whether it comes from the
    cache, from the negative cache or from the store. It fails only with the
    error of the access check or of a read it needs. (The schema service makes no
    calls here: when it binds the tenant to a schema version with other sensitive
    fields, cached texts keep their old redaction,
    [Findings.cache_keeps_old_redaction].) *)
Theorem get_config_never_stale k calls w0 ctx req r w' :
  cc_inv (w_cache w0) → (∀ t, clear t w0) → st_inv (k + length calls) (w_store w0) →
  (∀ t n, latest (histw w0 t) n → (n + Z.of_nat (length calls) ≤ max_int32)%Z) →
  available ∨ all_timely (calls ++ [(ctx, RGetConfig req)]) w0 →
  let w := run_calls calls w0 in
  GetConfig svc ctx req w = (r, w') →
  (∃ e, r = Err e ∧ refused ctx req w e)
  ∨ ∃ t v types, (resolveTenantID (gc_TenantId req) w).1 = Ok t
      ∧ match gc_Version req with Some u => v = u | None => latest (histw w t) v end
      ∧ (fieldTypeMap svc t w).1 = Ok types
      ∧ match r with
        | Ok c => pc_TenantId c = t ∧ pc_Version c = v
            ∧ ∃ sens, (getSensitiveFieldSet t w).1 = Ok sens
                ∧ answers w t v sens types (gc_IncludeDescriptions req) (pc_ConfigValues c)
        | Err e => (getSensitiveFieldSet t w).1 = Err e ∨ full_read_failed (w_store w) t v e
        end.
Proof.
  intros Hci Hclear Hi Hmax Htm w E. pose proof (empty_coherent w0 Hci Hclear) as Hc0.
  assert (available ∨ (all_timely calls w0 ∧ timely (RGetConfig req) w)) as Htm'.
  { destruct Htm as [?|Htm]; [by left|right]. unfold w. clear -Htm. revert w0 Htm.
    induction calls as [|[ctx' r] calls IH]; intros w0; simpl; [tauto|]. intros [? Ht]. apply IH in Ht. tauto. }
  destruct (run_calls_good k calls w0 Hc0 Hi) as [Hcoh Hik]; [tauto|done|]. fold w in Hcoh, Hik.
  destruct (GetConfig_served k w ctx req r w' Hik Hcoh ltac:(tauto) E)
    as (_ & _ & [?|(t & v & types & Ht & Hv & Hty & Hsv)]); [by left|right].
  exists t, v, types. split_and!; [done| |done|done].
  destruct (gc_Version req) as [u|]; [by injection Hv|by eapply resolveVersion_latest].
Qed.
End coherence.

(** ** Witness *)
Module CacheWitness.
Import Scenario.

Definition read_all : GetConfigRequest :=
  {| gc_TenantId := "acme"; gc_Version := None; gc_IncludeDescriptions := false |}.
(** Write, read (the answer is cached), write again. *)
Definition calls : list (Ctx * Request) :=
  [(admin, RSetField (set_req "name" "one")); (admin, RGetConfig read_all); (admin, RSetFields batch)].
Definition wn : W := run_calls svc calls world0.
Definition answer : pbConfig :=
  ok_of {| pc_TenantId := ""; pc_Version := 0; pc_ConfigValues := [] |} (GetConfig svc admin read_all wn).1.

Lemma cache0 : cc_inv (E:=error) (w_cache world0).
Proof. apply MemoryCacheFacts.New_inv. Qed.
Lemma clear0 t : clear t world0.
Proof. intros now v. by split. Qed.
Lemma max0 t n : latest (hist (st_abs (w_store world0)) t) n → (n + Z.of_nat (length calls) ≤ max_int32)%Z.
Proof. intros [[-> _]|[[x Hx] _]]; [done|]. vm_compute in Hx. done. Qed.

Lemma wn_latest : latest (hist (st_abs (w_store wn)) tid) 2.
Proof.
  destruct (run_calls_good svc 1 calls world0) as [_ Hi].
  - apply empty_coherent; [apply cache0|apply clear0].
  - exact world0_inv.
  - left. by intros t c.
  - exact max0.
  - assert (∃ cv, GetLatestConfigVersion tid (w_store wn) = Ok cv ∧ cv_Version cv = 2%Z) as (cv & Hg & <-)
      by (eexists; split; [vm_compute; reflexivity|reflexivity]).
    by apply (st_latest_Ok 1 (w_store wn) tid cv).
Qed.

(** The value before the last write, which the cache held, is not shown: the
    answer is that of the second version. *)
Lemma get_config_never_stale_witness :
  pc_Version answer = 2%Z
  ∧ ∃ sens types, answers wn tid 2 sens types false (pc_ConfigValues answer)
    ∧ (pv_FieldPath <$> pc_ConfigValues answer) ≡ₚ ["name"; "token"].
Proof.
  assert (GetConfig svc admin read_all wn = (Ok answer, (GetConfig svc admin read_all wn).2)) as E
    by (apply (run_ok {| pc_TenantId := ""; pc_Version := 0; pc_ConfigValues := [] |}); vm_compute; reflexivity).
  destruct (get_config_never_stale svc 1 calls world0 admin read_all (Ok answer)
    (GetConfig svc admin read_all wn).2 cache0 clear0 world0_inv max0 (or_introl (λ t c, eq_refl)) E)
    as [(e & He & _)|(t & v & types & Ht & _ & _ & Hid & Hv & sens & _ & Ha)]; [discriminate He|].
  assert (pc_Version answer = 2%Z) as E2 by (vm_compute; reflexivity).
  assert (pc_TenantId answer = tid) as E3 by (vm_compute; reflexivity).
  split; [exact E2|]. exists sens, types. rewrite E2 in Hv. rewrite E3 in Hid. subst v t.
  split; [exact Ha|]. vm_compute. constructor; constructor; constructor.
Defined.

(** An invalidation that fails: a version that was asked for before it existed
    is cached as empty, and is still empty when it has been written. *)
Record Failing := { inner : MemoryCache.MemoryCache }.
Definition on_inner {A} (f : MemoryCache.MemoryCache → A * MemoryCache.MemoryCache) (c : Failing) : A * Failing :=
  let '(a, c) := f (inner c) in (a, {| inner := c |}).
#[local] Instance failing_cache : ConfigCache Failing error := {|
  cc_Get now t v c := cc_Get now t v (inner c);
  cc_Set now t v m ttl := on_inner (cc_Set now t v m ttl);
  cc_Invalidate t c := (Err (Errorf "connection refused" []), c);
  cc_GetNegative now t v c := cc_GetNegative now t v (inner c);
  cc_SetNegative now t v ttl := on_inner (cc_SetNegative now t v ttl) |}.
Abbreviation WF := (World MemStore.MemoryStore Failing
  MemoryIdempotencyCache.MemoryIdempotencyCache MemoryPubSub.MemoryPubSub
  (ValidatorFactory MemStore.MemoryStore cel_Env)).
Definition failing0 : WF :=
  mkWorld (w_store world0) {| inner := w_cache world0 |} (w_idem world0) (w_pub world0) (w_val world0) [] 0.
Definition ahead : GetConfigRequest :=
  {| gc_TenantId := "acme"; gc_Version := Some 1%Z; gc_IncludeDescriptions := false |}.
Example cached_ahead_stays_stale :
  let w := run_calls svc [(admin, RGetConfig ahead); (admin, RSetField (set_req "name" "one"))] failing0 in
  (GetConfig svc admin read_all w).1 = Ok {| pc_TenantId := tid; pc_Version := 1; pc_ConfigValues := [] |}
  ∧ row_Value <$> snap (hist (st_abs (w_store w)) tid) 1 "name" = Some (Some "one").
Proof. vm_compute. done. Qed.
End CacheWitness.
