(* ===== verification/ServiceValidity.v ===== *)
(** * Every config the service ever holds is valid

    The checks of the four write handlers, put together: as long as the schemas
    stay as they are, no sequence of calls leads to a version whose values the
    schema's validators reject or whose snapshot breaks a dependentRequired
    rule. *)
From S2P Require Import Prelude GoText Domain Convert Auth Cache PubSub CrossField ConfigStore MemStore.
From S2P Require Import Validation ValidationFacts ValidatorFactory ValidatorFactoryFacts.
From S2P Require Import MemStoreFacts ConfigYaml ConfigYamlFacts ConfigService ServiceLemmas ServiceCommits Scenario.
From S2P Require Import ServiceReads ServiceCache.
Import Convert Auth Authz.

(** ** The factory through a call *)
Section factory.
Context {S C I P V : Type}.
Context `{StoreOk S} `{ConfigCache C error, IdempotencyCache I error, Publisher P, ValidatorsOk V}.
Context `{XXHash, MapRange, Clock, Sched, CelCap, FloatOverflow, YamlLib}.
Context (svc : Service S) (Σ : va_Schemas).
Abbreviation W := (World S C I P V).
Abbreviation st := (w_store (S:=S) (C:=C) (I:=I) (P:=P) (V:=V)).
Abbreviation atw := (λ w : W, val_at Σ (w_val w)).







End factory.

(** ** Valid configs *)
Section validity.
Context {S C I P V : Type}.
Context `{StoreReliable S} `{ConfigCache C error, IdempotencyCache I error, Publisher P, ValidatorsOk V}.
Context `{XXHash, MapRange, Clock, Sched, CelCap, FloatOverflow, YamlLib}.
Context (svc : Service S) (Σ : va_Schemas) (Hsvc : svc_validators svc = true).
Abbreviation W := (World S C I P V).
Abbreviation st := (w_store (S:=S) (C:=C) (I:=I) (P:=P) (V:=V)).
Implicit Types (w : W).
Abbreviation histw w t := (hist (st_abs (w_store w)) t).

















End validity.

(** ** Over the factory *)
Section over_factory.
Context {S C I P : Type}.
Context `{StoreReliable S} `{!SchemaStoreOk S}.
Context `{ConfigCache C error, IdempotencyCache I error, Publisher P}.
Context `{CelCompile, Regexp, JsonSchema, CompileRace, UrlRest}.
Context `{XXHash, MapRange, Clock, Sched, CelCap, FloatOverflow, YamlLib}.
Context (svc : Service S).
Abbreviation F := (ValidatorFactory S cel_Env).
Abbreviation W := (World S C I P F).
Implicit Types (w : W).
Abbreviation histw w t := (hist (st_abs (w_store w)) t).




End over_factory.

(** ** Witnesses *)
Module ValidityWitnesses.
Import Scenario CacheWitness.


(** A sensitive text field with at most eight characters. *)
Definition secret_options : list Validation.Option :=
  [Validation.WithSensitive; Validation.WithConstraints (unmarshalConstraints short)].
Lemma sensitive_errors_hide_value_witness :
  ∃ e, Validation.Validate (Validation.NewFieldValidator "pin" FIELD_TYPE_STRING secret_options)
         (Some (Some (StringValue "123456789"))) = Err (Wrap "field pin" e)
    ∧ e ∈ hidden_errors (Validation.resolveOptions secret_options) 9.
Proof.
  destruct (Validation.Validate (Validation.NewFieldValidator "pin" FIELD_TYPE_STRING secret_options)
    (Some (Some (StringValue "123456789")))) as [[]|e] eqn:E; [vm_compute in E; discriminate E|].
  destruct (sensitive_errors_hide_value "pin" FIELD_TYPE_STRING secret_options
    (StringValue "123456789") e) as (e' & -> & He); [reflexivity|left|exact E|].
  exists e'. split; [reflexivity|exact He].
Defined.

(** The tenant is bound to a second version of its schema. *)
Definition version2 : SchemaVersion :=
  {| sv_ID := "sv2"; sv_SchemaID := "sch"; sv_Version := 2; sv_ParentVersion := Some 1%Z;
     sv_Description := None; sv_Checksum := ""; sv_Published := true;
     sv_DependentRequired := ""; sv_Validations := ""; sv_CreatedAt := 0 |}.
Definition before : MemStore.MemoryStore := catalogue MemStore.NewMemoryStore.
Definition after : MemStore.MemoryStore :=
  MemStore.SetTenant
    {| tn_ID := tid; tn_Name := "acme"; tn_SchemaID := "sch"; tn_SchemaVersion := 2;
       tn_CreatedAt := 0; tn_UpdatedAt := 1; tn_DeletedAt := None |}
    (MemStore.SetSchemaVersion version2 before).

Lemma before_keyed : versions_keyed before.
Proof. apply versions_keyed_set. intros k sv Hk. vm_compute in Hk. discriminate Hk. Qed.

Lemma rebound : store_grows (λ t, t ≠ tid) (λ _, True) before after.
Proof.
  split.
  - intros _. apply (versions_keyed_set version2), before_keyed.
  - intros t tn Ht E. split; [done|]. exists tn. split; [|done]. simpl in *. unfold MemStore.GetTenantByID in *.
    simpl in *. by rewrite lookup_insert_ne.
  - intros id v sv _ E. exists sv. split; [|done]. simpl in *. unfold MemStore.GetSchemaVersion in *.
    destruct (decide (MemStore.schema_key id v = MemStore.schema_key "sch" 2)) as [Hk|Hk].
    + rewrite Hk in E. vm_compute in E. discriminate E.
    + simpl in *. by rewrite lookup_insert_ne.
  - intros id v sv fs _ _ E. exact E.
Qed.

(** The factory answers the rules of the first version, then the tenant moves to
    the second, which has none. *)
Lemma factory_answers_current_witness :
  let f0 := NewValidatorFactory before [] in
  let f1 := (GetDependentRequired tid f0).2 in
  let f2 := InvalidateRules tid (InvalidateValidators tid (with_store f1 after)) in
  (GetDependentRequired tid f1).1 = Ok (DependentRequired.marshalDependentRequired cert_needs_key)
  ∧ (GetDependentRequired tid f2).1 = Ok "".
Proof.
  intros f0 f1 f2.
  assert (rtc factory_step f0 f1) as H1 by (apply rtc_once; constructor).
  assert (rtc factory_step f0 f2) as H2.
  { eapply rtc_r; [exact H1|]. apply step_rebind. exact rebound. }
  destruct (factory_answers_current before [] f1 tid) as (_ & E1 & _); [exact before_keyed|exact H1|].
  destruct (factory_answers_current before [] f2 tid) as (_ & E2 & _); [exact before_keyed|exact H2|].
  split; [etransitivity; [exact E1|vm_compute; reflexivity]|].
  etransitivity; [exact E2|vm_compute; reflexivity].
Defined.

(** A port, a list of limits and a name, exported and read back in the order of
    their paths. *)
Definition limits_text : string :=
  "{" +:+ quoted "on" +:+ ":true," +:+ quoted "steps" +:+ ":[1,2.5,null," +:+ quoted "x" +:+ "]}".
Definition port_rows : list configRow :=
  [{| cr_FieldPath := "port"; cr_Value := "8080"; cr_Description := None |};
   {| cr_FieldPath := "limits"; cr_Value := limits_text; cr_Description := None |};
   {| cr_FieldPath := "name"; cr_Value := "one"; cr_Description := Some "who" |}].
Definition port_types : gmap string FieldType :=
  {["port" := FieldTypeInteger; "name" := FieldTypeString; "limits" := FieldTypeJSON]}.
Definition port_document : string := ok_of "" (MarshalConfigAt 3 "both" port_rows port_types "").
Definition port_values : list configValueImport :=
  [{| ci_FieldPath := "limits"; ci_Value := limits_text; ci_Description := None |};
   {| ci_FieldPath := "name"; ci_Value := "one"; ci_Description := Some "who" |};
   {| ci_FieldPath := "port"; ci_Value := "8080"; ci_Description := None |}].
Lemma export_then_import_witness :
  DispatchImport port_document port_types = Ok {| pc_Description := "both"; pc_Values := port_values |}.
Proof.
  rewrite (export_then_import 3 "both" port_rows port_types port_document).
  - vm_compute. reflexivity.
  - discriminate.
  - apply (bool_decide_eq_true_1 _). vm_compute. reflexivity.
  - constructor; [split; [discriminate|]|constructor; [split; [discriminate|]|constructor; [split; [discriminate|]|constructor]]].
    + change (canonical (ConfigDoc.type_at port_types "port") "8080").
      assert (ConfigDoc.type_at port_types "port" = FieldTypeInteger) as -> by (vm_compute; reflexivity).
      intros z Hz. vm_compute in Hz. injection Hz as <-. vm_compute. reflexivity.
    + change (canonical (ConfigDoc.type_at port_types "limits") limits_text).
      assert (ConfigDoc.type_at port_types "limits" = FieldTypeJSON) as -> by (vm_compute; reflexivity).
      intros v Hv. vm_compute in Hv. injection Hv as <-. split; [vm_compute; reflexivity|]. split; [|exact Logic.I].
      apply nz_map. repeat constructor; try discriminate.
    + change (canonical (ConfigDoc.type_at port_types "name") "one").
      assert (ConfigDoc.type_at port_types "name" = FieldTypeString) as -> by (vm_compute; reflexivity).
      exact Logic.I.
  - vm_compute. reflexivity.
Defined.

(** What is read from that document is what it holds. *)
Lemma import_reads_document_witness :
  ∃ doc, yaml_Unmarshal port_document = Ok doc ∧ doc_ok doc ∧ reads_values port_types doc port_values.
Proof.
  destruct (proj1 (import_reads_document port_document port_types {| pc_Description := "both"; pc_Values := port_values |}))
    as (doc & _ & Hu & Hd & _ & Hr).
  - vm_compute. reflexivity.
  - exists doc. split; [exact Hu|]. split; [exact Hd|exact Hr].
Defined.
End ValidityWitnesses.
