(* ===== verification/StoreTheorems.v ===== *)
(** * The in-memory store implements the store's contract

    [MemStoreFacts] proves the laws of [StoreOk] and [StoreReliable]; here the
    refinement is stated for the operations themselves. *)
From S2P Require Import Prelude GoText Domain Convert Auth ConfigStore MemStore MemStoreFacts.
From S2P Require Import ConfigService ServiceCommits Scenario.
Import MemStore.

Section refinement.
Context `{Random, Clock} {mr : MapRange} `{!MapRangeOk}.

(** C31: Reads of the in-memory store refine the abstract history. On every
    well-formed store, whatever order Go ranges over its maps in, a point read
    is the snapshot's row or NotFound, the full read is the snapshot sorted by
    path without repeats, so the two always agree, a version read is the
    version's record, and the latest version is the greatest one. Two runs
    that range in different orders answer the same. *)
Theorem memory_store_reads_refine (s : MemoryStore) (t : string) :
  wf s →
  (∀ v p, GetConfigValueAtVersion t p v s
     = match snap (hist (abs s) t) v p with Some r => Ok r | None => Err ErrNotFound end)
  ∧ (∀ v, ∃ rows, GetFullConfigAtVersion t v s = Ok rows ∧ is_snapshot (hist (abs s) t) v rows
       ∧ ∀ p, GetConfigValueAtVersion t p v s
              = match find_row p rows with Some r => Ok r | None => Err ErrNotFound end)
  ∧ (∀ v, GetConfigVersion t v s
       = match hist (abs s) t !! v with Some vr => Ok (vr_meta vr) | None => Err ErrNotFound end)
  ∧ match GetLatestConfigVersion t s with
    | Ok cv => latest (hist (abs s) t) (cv_Version cv)
        ∧ vr_meta <$> (hist (abs s) t !! cv_Version cv) = Some cv
    | Err e => e = ErrNotFound ∧ hist (abs s) t = ∅
    end
  ∧ (∀ (r : MapRange) (_ : @MapRangeOk r) v p,
       @GetConfigValueAtVersion r t p v s = @GetConfigValueAtVersion mr t p v s
       ∧ @GetFullConfigAtVersion r t v s = @GetFullConfigAtVersion mr t v s
       ∧ @GetConfigVersion r t v s = @GetConfigVersion mr t v s).
Proof.
  intros Hwf. split_and!.
  - intros v p. by apply GetConfigValueAtVersion_spec.
  - intros v. destruct (GetFullConfigAtVersion_spec s t v Hwf) as (rows & E & Hs).
    exists rows. split_and!; [done..|]. intros p.
    by rewrite (is_snapshot_lookup _ _ _ _ Hs), GetConfigValueAtVersion_spec.
  - intros v. by apply GetConfigVersion_spec.
  - by apply GetLatestConfigVersion_spec.
  - pose proof (λ v, GetFullConfigAtVersion_spec s t v Hwf) as Hfull.
    intros r Hr v p. rewrite !GetConfigValueAtVersion_spec, !GetConfigVersion_spec by done.
    split_and!; [done| |done].
    destruct (Hfull v) as (rows & -> & Hs).
    destruct (GetFullConfigAtVersion_spec s t v Hwf) as (rows' & -> & Hs').
    f_equal. by eapply is_snapshot_unique.
Qed.

(** C32: Writes of the in-memory store refine the abstract history: a version
    number not in use gets a fresh record with no rows and a new identifier,
    values set for a version are appended to its rows, and no other version,
    tenant or entity changes; both keep the store well formed with one
    identifier less at hand. *)
Theorem memory_store_writes_refine k (s s1 s2 : MemoryStore) arg cv args :
  inv (S k) s → hist (abs s) (ccv_TenantID arg) !! ccv_Version arg = None →
  (0 < ccv_Version arg)%Z → CreateConfigVersion arg s = (Ok cv, s1) →
  Forall (λ a, scv_ConfigVersionID a = cv_ID cv) args →
  BulkSetConfigValues args s1 = (Ok tt, s2) →
  inv k s2 ∧ version_of_params arg cv ∧ cat s2 = cat s
  ∧ (∀ t v vr, hist (abs s) t !! v = Some vr → cv_ID (vr_meta vr) ≠ cv_ID cv)
  ∧ abs s2 ≡ set_hist (abs s) (ccv_TenantID arg)
      (<[ccv_Version arg := {| vr_meta := cv; vr_rows := row_of_params <$> args |}]>
         (hist (abs s) (ccv_TenantID arg))).
Proof.
  intros Hi Hn Hpos Hc Hf Hb.
  destruct (CreateConfigVersion_spec k s arg cv s1 Hi Hn Hpos Hc) as (Hi1 & Hc1 & Hp & Hid & Ha1).
  assert (hist (abs s1) (ccv_TenantID arg) !! ccv_Version arg
          = Some {| vr_meta := cv; vr_rows := [] |}) as Hh.
  { rewrite Ha1, hist_set_eq. apply lookup_insert_eq. }
  destruct (@st_bulk_set_Ok MemoryStore _ memory_store_ok k s1 args s2 _ _ _ Hi1 Hh Hf Hb) as (Hi2 & Hc2 & Ha2).
  split_and!; [done|done|etrans; [exact Hc2|exact Hc1]|done|].
  change (abs s2 ≡ set_hist (abs s1) (ccv_TenantID arg)
    (<[ccv_Version arg := append_rows {| vr_meta := cv; vr_rows := [] |} (row_of_params <$> args)]>
       (hist (abs s1) (ccv_TenantID arg)))) in Ha2.
  rewrite Ha2, Ha1, hist_set_eq, set_hist_twice, insert_insert_eq. done.
Qed.
End refinement.

Module StoreWitnesses.
Import Scenario.

Lemma memory_store_reads_refine_witness :
  ∃ rows, GetFullConfigAtVersion tid 2 (w_store world2) = Ok rows
    ∧ is_snapshot (hist (abs (w_store world2)) tid) 2 rows.
Proof.
  destruct (memory_store_reads_refine (w_store world2) tid (proj1 (proj1 world2_facts)))
    as (_ & Hfull & _).
  destruct (Hfull 2%Z) as (rows & E & Hs & _). exists rows. split; [exact E|exact Hs].
Defined.

Definition arg3 : CreateConfigVersionParams :=
  {| ccv_TenantID := tid; ccv_Version := 3; ccv_Description := None; ccv_CreatedBy := "ann" |}.
Definition cv3 : ConfigVersion :=
  {| cv_ID := nextID (w_store world2); cv_TenantID := tid; cv_Version := 3; cv_Description := None;
     cv_CreatedBy := "ann"; cv_CreatedAt := clock (ticks (w_store world2)) |}.
Definition val3 : SetConfigValueParams :=
  {| scv_ConfigVersionID := cv_ID cv3; scv_FieldPath := "name"; scv_Value := Some "three";
     scv_Checksum := None; scv_Description := None |}.
Definition store3 : MemoryStore := (CreateConfigVersion arg3 (w_store world2)).2.
Definition store3' : MemoryStore := (BulkSetConfigValues [val3] store3).2.

Lemma memory_store_writes_refine_witness :
  inv 1 store3' ∧ cat store3' = cat (w_store world2).
Proof.
  destruct (memory_store_writes_refine 1 (w_store world2) store3 store3' arg3 cv3 [val3])
    as (Hi & _ & Hc & _).
  - exact (proj1 world2_facts).
  - vm_compute. reflexivity.
  - reflexivity.
  - reflexivity.
  - constructor; [reflexivity|constructor].
  - reflexivity.
  - split; [exact Hi|exact Hc].
Defined.
End StoreWitnesses.
