(* ===== verification/Findings.v ===== *)
(** * Behaviours of the config service that its documents do not say

    Each theorem states what the code does, in a case where a comment or a
    document of the repository says or suggests otherwise. *)
From S2P Require Import Prelude GoText Domain Convert Auth Cache PubSub CrossField ConfigStore.
From S2P Require Import GoFloat MemStore MemStoreFacts Validation ValidatorFactory ConfigYaml ConfigService ServiceLemmas ServiceCommits.
From S2P Require Import Scenario.
Import Convert Auth Authz.

(** ** Rollbacks are silent *)
Section silent.
Context {S C I P V : Type}.
Context `{Store S, ConfigCache C error, IdempotencyCache I error, Publisher P, Validators V}.
Context `{XXHash, MapRange, Clock, Sched, CelCap, FloatOverflow, YamlLib}.
Context (svc : Service S).
Abbreviation W := (World S C I P V).
Abbreviation pub := (w_pub (S:=S) (C:=C) (I:=I) (P:=P) (V:=V)).

Lemma pub_reads {A} (f : S → result error A) : keeps pub (reads f).
Proof. done. Qed.
Lemma pub_check ctx action r : keeps pub (check svc ctx action r).
Proof. done. Qed.
Lemma pub_cache {A} (f : C → A * C) : keeps pub (with_cache f).
Proof. intros w. unfold with_cache. by destruct (f (w_cache w)). Qed.
Lemma pub_val {A} (f : V → result error A * V) : keeps pub (with_val f).
Proof. intros w. unfold with_val. by destruct (f (w_val w)). Qed.
Lemma pub_tx {A} (fn : ST (V * S) A) : keeps pub (runInTxWithRetry fn).
Proof. intros w. unfold runInTxWithRetry. by destruct (retryOnVersionConflict _ _ _) as [? [? ?]]. Qed.
Hint Resolve pub_reads pub_check pub_cache pub_val pub_tx : frame.

(** [RollbackToVersion] publishes nothing: the publisher is the same
    before and after, whatever the outcome, so no subscriber hears of the new
    version of the config. *)
Theorem rollback_publishes_nothing ctx req (w : W) :
  w_pub (RollbackToVersion svc ctx req w).2 = w_pub w.
Proof.
  assert (keeps pub (RollbackToVersion svc ctx req)) as Hk; [|apply Hk].
  unfold RollbackToVersion, vet_row, resolveTenantWithAccess, resolveTenantID, must_have_claims,
    resolveVersion, getCurrentValue, fieldTypeMap, validateField, fetchDependentRequiredRules,
    getSchemaFieldSets, invalidate.
  keeps_tac.
Qed.
End silent.

Module Findings.
Import Scenario.

(** ** The replay of a subscription *)
Definition sub_from_1 : SubscribeRequest :=
  {| sub_TenantId := "acme"; sub_FieldPaths := []; sub_StartVersion := Some 1%Z |}.
(** The event [SetFields] publishes for the batch. *)
Definition event2 : ConfigChangeEvent :=
  {| ev_EventID := ""; ev_Seq := 2; ev_TenantID := tid; ev_Version := 2;
     ev_Changes := redact_changes {["token" := true]}
       [{| cg_fieldPath := "name"; cg_oldValue := "one"; cg_newValue := "two" |};
        {| cg_fieldPath := "token"; cg_oldValue := ""; cg_newValue := "secret" |}];
     ev_ChangedBy := "ann"; ev_ChangedAt := 0 |}.
Definition sent (r : result error (list ConfigChange)) (p : string) (v : Z) : list ConfigChange :=
  match r with
  | Ok l => filter (λ m, ch_FieldPath m = p ∧ ch_Version m = v) l
  | Err _ => []
  end.
(** The subscription reads the latest version before the batch is committed and
    the rows after it. *)
Definition interleaved : result error (list ConfigChange) :=
  match subscribe_begin svc admin sub_from_1 (Ok [event2]) world1 with
  | (Ok x, _) => (subscribe_stream sub_from_1 x world2).1
  | (Err e, _) => Err e
  end.

(** When a write commits between the two reads of a replay, its version is
    above the watermark but already among the rows: the subscriber is sent the
    change of [name] twice, once as a replay and once live. *)
Theorem subscribe_sends_twice : length (sent interleaved "name" 2) = 2.
Proof. vm_compute. reflexivity. Qed.

(** The replay and the comparison of versions show sensitive values:
    [GetField] has the redaction mark for the token, the replayed message and
    the entry of [DiffVersions] have its text. *)
Theorem replay_reveals_sensitive :
  pv_Value <$> (match (GetField svc admin {| gf_TenantId := "acme"; gf_FieldPath := "token";
                    gf_Version := None; gf_IncludeDescription := false |} world2).1 with
                | Ok cv => Some cv | Err _ => None end) = Some (Some (Some (StringValue redactedSentinel)))
  ∧ ch_NewValue <$> sent (Subscribe svc admin sub_from_1 (Ok []) world2).1 "token" 2
    = [Some (Some (StringValue "secret"))]
  ∧ match (DiffVersions svc admin {| dv_TenantId := "acme"; dv_FromVersion := 1; dv_ToVersion := 2 |} world2).1 with
    | Ok ds => fd_NewValue <$> filter (λ d, fd_FieldPath d = "token") ds
    | Err _ => []
    end = ["secret"].
Proof. split_and!; vm_compute; reflexivity. Qed.

(** ** Imports *)
Definition stored (w : W) (p : string) : option string :=
  match GetLatestConfigVersion tid (w_store w) with
  | Ok cv => match GetConfigValueAtVersion tid p (cv_Version cv) (w_store w) with
             | Ok row => row_Value row
             | Err _ => None
             end
  | Err _ => None
  end.
Definition import_req (content : string) : ImportConfigRequest :=
  {| im_TenantId := "acme"; im_YamlContent := content; im_Description := None;
     im_Mode := IMPORT_MODE_MERGE |}.
Definition exported (w : W) : string :=
  ok_of "" (ExportConfig svc admin {| ex_TenantId := "acme"; ex_Version := None; ex_SpecVersion := None |} w).1.
Definition shown_port (w : W) : option (option TypedValue) :=
  match (GetField svc admin {| gf_TenantId := "acme"; gf_FieldPath := "port"; gf_Version := None;
           gf_IncludeDescription := false |} w).1 with
  | Ok cv => Some (pv_Value cv) | Err _ => None end.

(** A config that is exported and imported again loses its secrets: the
    export has the redaction mark for a sensitive field, and the import stores
    the mark as the field's value. *)
Theorem reimport_overwrites_secrets :
  stored world2 "token" = Some "secret"
  ∧ is_Ok (ImportConfig svc admin (import_req (exported world2)) world2).1 = true
  ∧ stored (ImportConfig svc admin (import_req (exported world2)) world2).2 "token"
    = Some redactedSentinel.
Proof. split_and!; vm_compute; reflexivity. Qed.

(** So does a read, change and write of a sensitive field: [GetField] answers the
    mark with the checksum of the secret, and [SetField] takes that checksum for
    proof that the caller saw the value it replaces. *)
Example changed_mark_overwrites_secret :
  match (GetField svc admin {| gf_TenantId := "acme"; gf_FieldPath := "token"; gf_Version := None;
           gf_IncludeDescription := false |} world2).1 with
  | Ok cv =>
      let set := SetField svc admin {| sf_TenantId := "acme"; sf_FieldPath' := "token";
                   sf_Value := Some (Some (StringValue (redactedSentinel +:+ "!"))); sf_ExpectedChecksum := Some (pv_Checksum cv);
                   sf_Description' := None; sf_ValueDescription := None; sf_IdempotencyKey := None |} world2 in
      pv_Value cv = Some (Some (StringValue redactedSentinel)) ∧ is_Ok set.1 = true
      ∧ stored set.2 "token" = Some (redactedSentinel +:+ "!")
  | Err _ => False
  end.
Proof. vm_compute. split_and!; reflexivity. Qed.

(** An import takes any text for a field that is not a text: "abc" is
    committed as the value of an integer field, because it is validated as the
    zero that an unreadable text is shown as. *)
Theorem import_stores_unreadable_text :
  let imported := ImportConfig svc admin (import_req (document [("port", "abc")])) world1 in
  is_Ok imported.1 = true ∧ stored imported.2 "port" = Some "abc"
  ∧ shown_port imported.2 = Some (Some (Some (IntegerValue 0))).
Proof. split_and!; vm_compute; reflexivity. Qed.

(** ** Errors of sensitive fields *)

(** The error of a sensitive number field that is out of bounds has the value. *)
Theorem sensitive_bound_error_shows_value :
  Validation.Validate
    (Validation.NewFieldValidator "pin" FIELD_TYPE_INT
       [Validation.WithSensitive; Validation.WithConstraints (unmarshalConstraints (member "max" "8"))])
    (Some (Some (IntegerValue 9)))
  = Err (Wrap "field pin" (Errorf "value %v is greater than maximum %v"
      [AFloat (float_of_Z 9); AFloat (float_of_Z 8)])).
Proof. vm_compute. reflexivity. Qed.

(** ** Idempotency keys *)
(** A certificate without a key is refused; after the key is set, the client
    sends the same request again, with the same idempotency key. *)
Definition refused := SetField svc admin (set_req "cert" "c") world1.
Definition repaired : W := (SetField svc admin (set_req "key" "k") refused.2).2.
Definition retried := SetField svc admin (set_req "cert" "c") repaired.

(** An idempotency key is used up by a write that fails: the retry is
    answered as a success, and the field still has no value. *)
Theorem failed_write_uses_up_key :
  is_Ok refused.1 = false
  ∧ retried.1 = Ok {| resp_ConfigVersion := None |}
  ∧ is_Ok (GetField svc admin {| gf_TenantId := "acme"; gf_FieldPath := "cert"; gf_Version := None;
             gf_IncludeDescription := false |} retried.2).1 = false.
Proof. split_and!; vm_compute; reflexivity. Qed.

(** ** Transactions of the in-memory store *)
(** Two writers of [name]. The first clones the store; the second runs its whole
    transaction; then the first, whose copy knows nothing of it, commits. *)
Definition tx (value : string) : 
    ST (ValidatorFactory MemStore.MemoryStore cel_Env * MemStore.MemoryStore) ConfigVersion :=
  SetField_tx svc tid value (set_req "name" value) "" ∅ [].
Definition start : MemStore.MemoryStore := w_store world0.
Definition copy : MemStore.MemoryStore := MemStore.clone start.
Definition after_second := MemStore.RunInTx (tx "second") (w_val world0, start).
(** The random source and the clock are shared: they have moved on. *)
Definition later (s now : MemStore.MemoryStore) : MemStore.MemoryStore :=
  MemStore.mkStore (MemStore.configVersions s) (MemStore.configValues s) (MemStore.tenants s)
    (MemStore.schemaVersions s) (MemStore.schemaFields s) (MemStore.fieldLocks s) (MemStore.auditLog s)
    (MemStore.draws now) (MemStore.ticks now).
Definition first_body := tx "first" (w_val world0, later copy after_second.2.2).
Definition final : MemStore.MemoryStore := MemStore.mergeFrom after_second.2.2 first_body.2.2.

(** The transactions are not serialized: both report success and version 1,
    and the update of the second one is gone, with its audit entry. *)
Theorem memory_store_loses_update :
  is_Ok after_second.1 = true ∧ is_Ok first_body.1 = true
  ∧ MemStore.configVersions after_second.2.2 !! MemStore.nextID start ≠ None
  ∧ MemStore.configVersions final !! MemStore.nextID start = None
  ∧ match MemStore.GetConfigValueAtVersion tid "name" 1 final with
    | Ok row => row_Value row = Some "first" | Err _ => False end
  ∧ au_Actor ∘ MemStore.params <$> MemStore.auditLog final = ["first"].
Proof. split_and!; vm_compute; congruence. Qed.

(** ** A cached answer keeps its redaction

    The tenant moves to a schema version in which the field is sensitive. That
    invalidates validators and rules but not the config cache: until its entry
    expires, [GetConfig] shows the text that a read with descriptions hides. *)
Definition secretive (s : MemStore.MemoryStore) : MemStore.MemoryStore :=
  MemStore.SetSchemaFields "sv2" [field "name" false false true]
    (MemStore.SetSchemaVersion
       {| sv_ID := "sv2"; sv_SchemaID := "sch"; sv_Version := 2; sv_ParentVersion := Some 1%Z;
          sv_Description := None; sv_Checksum := ""; sv_Published := true;
          sv_DependentRequired := ""; sv_Validations := ""; sv_CreatedAt := 0 |}
       (MemStore.SetTenant
          {| tn_ID := tid; tn_Name := "acme"; tn_SchemaID := "sch"; tn_SchemaVersion := 2;
             tn_CreatedAt := 0; tn_UpdatedAt := 0; tn_DeletedAt := None |} s)).
Definition read_config (descriptions : bool) : GetConfigRequest :=
  {| gc_TenantId := "acme"; gc_Version := None; gc_IncludeDescriptions := descriptions |}.
Definition cached_then_secret : W :=
  let w := (GetConfig svc admin (read_config false) world1).2 in
  mkWorld (secretive (w_store w)) (w_cache w) (w_idem w) (w_pub w) (NewValidatorFactory (secretive (w_store w)) [])
    (w_reads w) (w_ticks w).
Definition values_shown (descriptions : bool) : list (option TypedValue) :=
  match (GetConfig svc admin (read_config descriptions) cached_then_secret).1 with
  | Ok c => pv_Value <$> pc_ConfigValues c
  | Err _ => []
  end.
Example cache_keeps_old_redaction :
  values_shown false = [Some (Some (StringValue "one"))]
  ∧ values_shown true = [Some (Some (StringValue redactedSentinel))].
Proof. split; vm_compute; reflexivity. Qed.
End Findings.

(** ** The memory backend *)
Section memory_backend.
Context {C I P V : Type}.
Context `{Random, Clock, MapRange}.
Context `{ConfigCache C error, IdempotencyCache I error, Publisher P, Validators V}.
Context `{XXHash, Sched, CelCap, FloatOverflow, YamlLib}.
Context (svc : Service MemStore.MemoryStore).
Abbreviation W := (World MemStore.MemoryStore C I P V).

(** C40: A config store without tenants, which is what the server makes for
    [STORAGE_BACKEND=memory] and what no operation of the service changes,
    accepts no write: [SetField] never answers with a version. *)
Theorem memory_backend_rejects_writes ctx req (w : W) resp :
  MemStore.tenants (w_store w) = ∅ → (SetField svc ctx req w).1 = Ok resp →
  resp_ConfigVersion resp = None.
Proof.
  intros Ht E. destruct (SetField svc ctx req w) as [r w'] eqn:Hrun. simpl in E. subst r.
  unfold SetField in Hrun. hstep Hrun u0 w0 E0 Hs0. case_bool_decide; [done|].
  hstep Hrun t w1 E1 Hs1. hstep Hrun u2 w2 E2 Hs2. hstep Hrun replay w3 E3 Hs3. destruct replay.
  { by apply ret_Ok in Hrun as [<- _]. }
  cbv zeta in Hrun. hstep Hrun u4 w4 E4 Hs4. hstep Hrun n w5 E5 Hs5. hstep Hrun old w6 E6 Hs6.
  hstep Hrun sets w7 E7 Hs7. exfalso.
  apply bind_Ok in E7 as (tn & w8 & E7 & _). apply map_err_Ok in E7. injection E7 as E7 _.
  assert (w_store w6 = w_store w) as Hw by congruence. rewrite Hw in E7. simpl in E7.
  unfold MemStore.GetTenantByID in E7. by rewrite Ht in E7.
Qed.
End memory_backend.

Module MemoryBackendWitness.
Import Scenario.
Definition empty_world : W :=
  mkWorld MemStore.NewMemoryStore (MemoryCache.NewMemoryCache 4)
    (MemoryIdempotencyCache.NewMemoryIdempotencyCache 4) MemoryPubSub.NewMemoryPubSub
    (NewValidatorFactory MemStore.NewMemoryStore []) [] 0.
(** A replayed key is the only success there is. *)
Definition again : SetFieldRequest :=
  {| sf_TenantId := tid; sf_FieldPath' := "name"; sf_Value := Some (Some (StringValue "one"));
     sf_ExpectedChecksum := None; sf_Description' := None; sf_ValueDescription := None;
     sf_IdempotencyKey := Some "k" |}.
Definition root : Ctx := mkCtx (Some {| Subject := "root"; role := RoleSuperAdmin; TenantIDs := [] |}) false None.
Definition tried : W := (SetField svc root again empty_world).2.

Lemma memory_backend_rejects_writes_witness :
  is_Ok (SetField svc root again empty_world).1 = false
  ∧ resp_ConfigVersion {| resp_ConfigVersion := None |} = None.
Proof.
  split; [vm_compute; reflexivity|].
  apply (memory_backend_rejects_writes svc root again tried {| resp_ConfigVersion := None |});
    vm_compute; reflexivity.
Defined.
End MemoryBackendWitness.
