(* ===== verification/SchemaTypes.v ===== *)
(** * Schemas: messages, conversion, checks ([internal/schema])

    The messages of the schema API and the parts of the package without state:
    [convert.go] (domain to proto, checksum, slugs), the stored form of fields
    ([createFieldsOn] of [service.go]), [validate_constraints.go],
    [validations.go], [limits.go] and [seed.go] (defaults of a new tenant).
    A pointer to a timestamp is the instant it holds. *)
From S2P Require Import Prelude GoText GoFloat GoTime Json GoAny Domain Convert Validation CrossField ValidatorFactory Sha256.
From Stdlib Require Import Ascii.
Import Convert Validation DependentRequired.

(** ** Messages *)
Record FieldExample := { fe_Value : string; fe_Summary : string }.
Record ExternalDocs := { ed_Description : string; ed_Url : string }.

Record pbSchemaField := {
  f_Path : string; f_Type : pbFieldType; f_Constraints : option FieldConstraints;
  f_Nullable : bool; f_Deprecated : bool; f_RedirectTo : option string;
  f_DefaultValue : option string; f_Description : option string; f_Title : option string;
  f_Example : option string; f_Examples : gmap string FieldExample; f_ExternalDocs : option ExternalDocs;
  f_Tags : list string; f_Format : option string; f_ReadOnly : bool; f_WriteOnce : bool; f_Sensitive : bool }.

Record SchemaContact := { ct_Name : string; ct_Email : string; ct_Url : string }.
Record SchemaInfo := {
  in_Title : string; in_Author : string; in_Contact : option SchemaContact; in_Labels : gmap string string }.

Record pbSchema := {
  ps_Id : string; ps_Name : string; ps_Description : string; ps_Version : Z;
  ps_ParentVersion : option Z; ps_VersionDescription : string; ps_Checksum : string;
  ps_Published : bool; ps_Fields : list pbSchemaField; ps_CreatedAt : option Timestamp;
  ps_DependentRequired : list DependentRequiredEntry; ps_Validations : list Cel.ValidationRule;
  ps_Info : option SchemaInfo }.

Record pbTenant := {
  pt_Id : string; pt_Name : string; pt_SchemaId : string; pt_SchemaVersion : Z;
  pt_CreatedAt : Timestamp; pt_UpdatedAt : Timestamp }.
Record pbFieldLock := { pl_TenantId : string; pl_FieldPath : string; pl_LockedValues : list string }.

(** [domain.Schema]. *)
Record Schema := {
  sc_ID : string; sc_Name : string; sc_Description : option string;
  sc_CreatedAt : Z; sc_UpdatedAt : Z; sc_DeletedAt : option Z }.

Record CreateSchemaFieldParams := {
  csf_SchemaVersionID : string; csf_Path : string; csf_FieldType : FieldType;
  csf_Constraints : option string; csf_Nullable : bool; csf_Deprecated : bool;
  csf_RedirectTo : option string; csf_DefaultValue : option string; csf_Description : option string;
  csf_Title : option string; csf_Example : option string; csf_Examples : option string;
  csf_ExternalDocs : option string; csf_Tags : list string; csf_Format : option string;
  csf_ReadOnly : bool; csf_WriteOnce : bool; csf_Sensitive : bool }.

(** ** JSON of the nested messages

    [json.Marshal] of the generated structs; members with a zero value are
    omitted. [None] is an error, of a float that is not finite. *)
Definition opt_member {A} (name : string) (enc : A → option string) (v : option A) : option (list (string * string)) :=
  match v with
  | None => Some []
  | Some x => t ← enc x; Some [(name, t)]
  end.
Definition list_member (name : string) (l : list string) : list (string * string) :=
  match l with [] => [] | _ => [(name, Json.Marshal_strings l)] end.
Definition str_member (name s : string) : list (string * string) :=
  if bool_decide (s = "") then [] else [(name, Json.encode_string s)].

Definition marshalConstraints (c : FieldConstraints) : option string :=
  let num := GoAny.float_json in
  let text s := Some (Json.encode_string s) in
  let int z := Some (itoa z) in
  min ← opt_member "min" num (Min c);
  max ← opt_member "max" num (Max c);
  regex ← opt_member "regex" text (Regex c);
  schema ← opt_member "json_schema" text (JsonSchemaDoc c);
  emin ← opt_member "exclusive_min" num (ExclusiveMin c);
  emax ← opt_member "exclusive_max" num (ExclusiveMax c);
  minl ← opt_member "min_length" int (MinLength c);
  maxl ← opt_member "max_length" int (MaxLength c);
  Some (Json.encode_object
    (min ++ max ++ regex ++ list_member "enum_values" (EnumValues c) ++ schema ++ emin ++ emax
     ++ minl ++ maxl ++ list_member "allowed_schemes" (AllowedSchemes c))).

Definition encode_example (e : FieldExample) : string :=
  Json.encode_object (str_member "value" (fe_Value e) ++ str_member "summary" (fe_Summary e)).
(** Map keys are written in order. *)
Definition marshalExamples (m : gmap string FieldExample) : string :=
  Json.encode_object ((λ p, (p.1, encode_example p.2)) <$> sort_on String.le fst (map_to_list m)).
Definition marshalDocs (d : ExternalDocs) : string :=
  Json.encode_object (str_member "description" (ed_Description d) ++ str_member "url" (ed_Url d)).

(** [json.Unmarshal] into [pb.FieldConstraints] reports the first member of a
    wrong type, here as the absence of a result. *)
Definition is_float_member (v : Json.json) : bool :=
  match v with Json.JNull => true | Json.JNum t => match ParseFloat t with (_, None) => true | _ => false end | _ => false end.
Definition is_int32_member (v : Json.json) : bool :=
  match v with Json.JNull => true | Json.JNum t => match ParseInt t 32 with (_, None) => true | _ => false end | _ => false end.
Definition is_text_member (v : Json.json) : bool :=
  match v with Json.JNull | Json.JStr _ => true | _ => false end.
Definition is_list_member (v : Json.json) : bool :=
  match v with Json.JNull => true | Json.JArr l => forallb is_text_member l | _ => false end.
Definition well_typed (ms : list (string * Json.json)) : bool :=
  let all ok name := forallb ok (Json.members name ms) in
  all is_float_member "min" && all is_float_member "max" && all is_text_member "regex"
  && all is_list_member "enum_values" && all is_text_member "json_schema"
  && all is_float_member "exclusive_min" && all is_float_member "exclusive_max"
  && all is_int32_member "min_length" && all is_int32_member "max_length"
  && all is_list_member "allowed_schemes".
Definition Unmarshal_constraints (raw : string) : option FieldConstraints :=
  match Json.parse raw with
  | Some (Json.JObj ms) => if well_typed ms then Some (unmarshalConstraints raw) else None
  | Some Json.JNull => Some no_constraints
  | _ => None
  end.

(** A string member of a nested message; null leaves it alone. *)
Definition text_of (name : string) (ms : list (string * Json.json)) : option string :=
  foldl (λ acc m, o ← acc; read_string o m) (Some "") (Json.members name ms).
Definition read_example (v : Json.json) : option FieldExample :=
  match v with
  | Json.JNull => Some (Build_FieldExample "" "")
  | Json.JObj ms => a ← text_of "value" ms; b ← text_of "summary" ms; Some (Build_FieldExample a b)
  | _ => None
  end.
Definition Unmarshal_examples (raw : string) : option (gmap string FieldExample) :=
  match Json.parse raw with
  | Some Json.JNull => Some ∅
  | Some (Json.JObj ms) =>
      l ← mapM (λ p, e ← read_example p.2; Some (p.1, e)) ms;
      Some (foldl (λ m p, <[p.1 := p.2]> m) ∅ l)
  | _ => None
  end.
Definition Unmarshal_docs (raw : string) : option ExternalDocs :=
  match Json.parse raw with
  | Some Json.JNull => Some (Build_ExternalDocs "" "")
  | Some (Json.JObj ms) => a ← text_of "description" ms; b ← text_of "url" ms; Some (Build_ExternalDocs a b)
  | _ => None
  end.

(** ** Validation rules as they are stored ([validations.go])

    [UnmarshalValidations] is [ValidatorFactory.decodeValidations]. *)
Definition MarshalValidations (entries : list Cel.ValidationRule) : string :=
  match entries with
  | [] => "[]"
  | _ =>
    Json.encode_array ((λ e,
      Json.encode_object
        (str_member "path" (Cel.rule_Path e)
         ++ [("rule", Json.encode_string (Cel.rule_Rule e)); ("message", Json.encode_string (Cel.rule_Message e))]
         ++ str_member "severity" (Cel.rule_Severity e) ++ str_member "reason" (Cel.rule_Reason e))) <$> entries)
  end.
Definition UnmarshalValidations (raw : string) : list Cel.ValidationRule := decodeValidations raw.

(** ** Domain to proto ([convert.go])

    A nil [[]byte] column is [None]. A column that does not decode is left out. *)
Definition fieldToProto (f : SchemaField) : pbSchemaField := {|
  f_Path := sf_Path f; f_Type := ToProto (sf_FieldType f);
  f_Constraints := raw ← sf_Constraints f; Unmarshal_constraints raw;
  f_Nullable := sf_Nullable f; f_Deprecated := sf_Deprecated f; f_RedirectTo := sf_RedirectTo f;
  f_DefaultValue := sf_DefaultValue f; f_Description := sf_Description f; f_Title := sf_Title f;
  f_Example := sf_Example f;
  f_Examples := default ∅ (raw ← sf_Examples f; Unmarshal_examples raw);
  f_ExternalDocs := raw ← sf_ExternalDocs f; Unmarshal_docs raw;
  f_Tags := sf_Tags f; f_Format := sf_Format f; f_ReadOnly := sf_ReadOnly f;
  f_WriteOnce := sf_WriteOnce f; f_Sensitive := sf_Sensitive f |}.

Definition schemaToProto (s : Schema) (v : SchemaVersion) (fields : list SchemaField) : pbSchema := {|
  ps_Id := sc_ID s; ps_Name := sc_Name s; ps_Description := derefString (sc_Description s);
  ps_Version := sv_Version v; ps_ParentVersion := sv_ParentVersion v;
  ps_VersionDescription := derefString (sv_Description v); ps_Checksum := sv_Checksum v;
  ps_Published := sv_Published v; ps_Fields := fieldToProto <$> fields;
  ps_CreatedAt := Some (timestamppb_New (sv_CreatedAt v));
  ps_DependentRequired := UnmarshalDependentRequired (sv_DependentRequired v);
  ps_Validations := UnmarshalValidations (sv_Validations v); ps_Info := None |}.

Definition tenantToProto (t : Tenant) : pbTenant := {|
  pt_Id := tn_ID t; pt_Name := tn_Name t; pt_SchemaId := tn_SchemaID t; pt_SchemaVersion := tn_SchemaVersion t;
  pt_CreatedAt := timestamppb_New (tn_CreatedAt t); pt_UpdatedAt := timestamppb_New (tn_UpdatedAt t) |}.

Definition fieldLockToProto (fl : TenantFieldLock) : pbFieldLock := {|
  pl_TenantId := lk_TenantID fl; pl_FieldPath := lk_FieldPath fl;
  pl_LockedValues := default [] (raw ← lk_LockedValues fl; Json.Unmarshal_strings raw) |}.

(** ** Checksum of a set of fields *)
Definition type_String (t : pbFieldType) : string :=
  match t with
  | FIELD_TYPE_UNSPECIFIED => "FIELD_TYPE_UNSPECIFIED"
  | FIELD_TYPE_INT => "FIELD_TYPE_INT"
  | FIELD_TYPE_NUMBER => "FIELD_TYPE_NUMBER"
  | FIELD_TYPE_STRING => "FIELD_TYPE_STRING"
  | FIELD_TYPE_BOOL => "FIELD_TYPE_BOOL"
  | FIELD_TYPE_TIME => "FIELD_TYPE_TIME"
  | FIELD_TYPE_DURATION => "FIELD_TYPE_DURATION"
  | FIELD_TYPE_URL => "FIELD_TYPE_URL"
  | FIELD_TYPE_JSON => "FIELD_TYPE_JSON"
  end.
(** What one field adds to the hashed text. *)
Definition checksum_text (f : pbSchemaField) : string :=
  f_Path f +:+ ":" +:+ type_String (f_Type f) +:+ ":" +:+ FormatBool (f_Nullable f) +:+ ":"
  +:+ FormatBool (f_Deprecated f) +:+ ":" +:+ FormatBool (f_Sensitive f) +:+ ":"
  +:+ FormatBool (f_ReadOnly f) +:+ ":" +:+ FormatBool (f_WriteOnce f)
  +:+ match f_Constraints f with
      | Some c => default "" (marshalConstraints c)
      | None => ""
      end.
Definition by_path (a b : pbSchemaField) : bool := bool_decide (f_Path a ≠ f_Path b ∧ String.le (f_Path a) (f_Path b)).
Definition computeChecksum `{SortSlice} (fields : list pbSchemaField) : string :=
  str_take 16 (Sha256.Sum256_hex (foldr (λ f acc, checksum_text f +:+ acc) "" (sort_slice by_path fields))).

(** ** Slugs: [^[a-z0-9]([a-z0-9-]*[a-z0-9])?$], 1 to 63 bytes *)
Definition slug_end (c : ascii) : bool := is_digit c || ((97 <=? byte_val c) && (byte_val c <=? 122))%Z.
Definition slug_char (c : ascii) : bool := slug_end c || bool_decide (c = "-"%char).
Fixpoint slug_tail (s : string) : bool :=
  match s with
  | "" => false
  | String c "" => slug_end c
  | String c s => slug_char c && slug_tail s
  end.
Definition isValidSlug (name : string) : bool :=
  (1 <=? str_len name) && (str_len name <=? 63)
  && match name with
     | "" => false
     | String c "" => slug_end c
     | String c s => slug_end c && slug_tail s
     end.

(** ** Limits ([limits.go]); zero is no limit *)
Record Limits := { MaxFields : Z; MaxDocBytes : Z; MaxRemoveFields : Z; RegexPatternMaxLength : Z }.
Definition DefaultLimits : Limits :=
  {| MaxFields := 10000; MaxDocBytes := 5 * 1024 * 1024; MaxRemoveFields := 1000; RegexPatternMaxLength := 1024 |}.

(** ** Constraints of a field ([validate_constraints.go]) *)
Fixpoint find_conflict (paths : list string) : option (string * string) :=
  match paths with
  | prev :: ((cur :: _) as rest) => if HasPrefix cur (prev +:+ ".") then Some (prev, cur) else find_conflict rest
  | _ => None
  end.
Definition validateNoPrefixOverlap (fields : list pbSchemaField) : result error unit :=
  if (length fields <? 2) then Ok tt else
  match find_conflict (merge_sort String.le (f_Path <$> fields)) with
  | Some (prev, cur) =>
    Err (Errorf "field paths conflict: %q is a strict prefix of %q (a path cannot be both a leaf and a parent)" [AStr prev; AStr cur])
  | None => Ok tt
  end.

Section constraints.
Context `{Regexp, JsonSchema}.

Definition not_valid_for (path name : string) (ft : pbFieldType) (only : string) : error :=
  Errorf "field %s: '%s' constraint is not valid for type %s (only %s)" [AStr path; AStr name; AStr (type_String ft); AStr only].

Definition check_regex (path : string) (regexMaxLen : Z) (re : string) : result error unit :=
  if (0 <? regexMaxLen)%Z && (regexMaxLen <? Z.of_nat (str_len re))%Z
  then Err (Errorf "field %s: regex pattern exceeds maximum length of %d characters" [AStr path; AInt regexMaxLen])
  else match regexp_Compile re with
       | Err e => Err (Errorf "field %s: invalid regex constraint: %w" [AStr path; AErr e])
       | Ok _ => Ok tt
       end.

Definition check_json_schema (path doc : string) : result error unit :=
  let bad e := Err (Errorf "field %s: invalid json_schema constraint: %w" [AStr path; AErr e]) in
  match js_UnmarshalJSON doc with
  | Err e => bad e
  | Ok d =>
    match js_AddResource d with
    | Err e => bad e
    | Ok _ => match js_Compile d with Err e => bad e | Ok _ => Ok tt end
    end
  end.

(** [ok] unless the constraint is set. *)
Definition unless_set {A} (c : option A) (ok : bool) (e : error) : result error unit :=
  if bool_decide (is_Some c) && negb ok then Err e else Ok tt.

Definition validateFieldConstraints (field : pbSchemaField) (regexMaxLen : Z) : result error unit :=
  match f_Constraints field with
  | None => Ok tt
  | Some c =>
    let path := f_Path field in
    let ft := f_Type field in
    let numericOnly := bool_decide (ft = FIELD_TYPE_INT) || bool_decide (ft = FIELD_TYPE_NUMBER)
                       || bool_decide (ft = FIELD_TYPE_DURATION) in
    let is_string := bool_decide (ft = FIELD_TYPE_STRING) in
    let is_json := bool_decide (ft = FIELD_TYPE_JSON) in
    let numeric := "integer, number, duration" in
    let? _ := unless_set (Min c) numericOnly (not_valid_for path "minimum" ft numeric) in
    let? _ := unless_set (Max c) numericOnly (not_valid_for path "maximum" ft numeric) in
    let? _ := unless_set (ExclusiveMin c) numericOnly (not_valid_for path "exclusiveMinimum" ft numeric) in
    let? _ := unless_set (ExclusiveMax c) numericOnly (not_valid_for path "exclusiveMaximum" ft numeric) in
    let? _ := unless_set (MinLength c) is_string (not_valid_for path "minLength" ft "string") in
    let? _ := unless_set (MaxLength c) is_string (not_valid_for path "maxLength" ft "string") in
    let? _ := unless_set (Regex c) is_string (not_valid_for path "pattern" ft "string") in
    let? _ := match Regex c with Some re => if is_string then check_regex path regexMaxLen re else Ok tt | None => Ok tt end in
    let? _ := unless_set (JsonSchemaDoc c) is_json (not_valid_for path "json_schema" ft "json") in
    let? _ := match JsonSchemaDoc c with Some doc => if is_json then check_json_schema path doc else Ok tt | None => Ok tt end in
    let? _ := match Min c, Max c with
              | Some a, Some b => if float_lt b a
                then Err (Errorf "field %s: minimum (%v) is greater than maximum (%v)" [AStr path; AFloat a; AFloat b]) else Ok tt
              | _, _ => Ok tt
              end in
    let? _ := match ExclusiveMin c, ExclusiveMax c with
              | Some a, Some b => if float_le b a
                then Err (Errorf "field %s: exclusiveMinimum (%v) must be less than exclusiveMaximum (%v)" [AStr path; AFloat a; AFloat b]) else Ok tt
              | _, _ => Ok tt
              end in
    match MinLength c, MaxLength c with
    | Some a, Some b => if (b <? a)%Z
      then Err (Errorf "field %s: minLength (%d) is greater than maxLength (%d)" [AStr path; AInt a; AInt b]) else Ok tt
    | _, _ => Ok tt
    end
  end.

Fixpoint validateFieldConstraintsBatch (fields : list pbSchemaField) (regexMaxLen : Z) : result error unit :=
  match fields with
  | [] => Ok tt
  | f :: fields => let? _ := validateFieldConstraints f regexMaxLen in validateFieldConstraintsBatch fields regexMaxLen
  end.

(** ** From proto to the stored form (the loop of [createFieldsOn])

    An encoding error leaves the column empty. *)
Definition field_params (versionID : string) (f : pbSchemaField) : CreateSchemaFieldParams := {|
  csf_SchemaVersionID := versionID; csf_Path := f_Path f; csf_FieldType := FieldTypeFromProto (f_Type f);
  csf_Constraints := c ← f_Constraints f; marshalConstraints c;
  csf_Nullable := f_Nullable f; csf_Deprecated := f_Deprecated f; csf_RedirectTo := f_RedirectTo f;
  csf_DefaultValue := f_DefaultValue f; csf_Description := f_Description f; csf_Title := f_Title f;
  csf_Example := f_Example f;
  csf_Examples := if (0 <? size (f_Examples f)) then Some (marshalExamples (f_Examples f)) else None;
  csf_ExternalDocs := marshalDocs <$> f_ExternalDocs f; csf_Tags := f_Tags f; csf_Format := f_Format f;
  csf_ReadOnly := f_ReadOnly f; csf_WriteOnce := f_WriteOnce f; csf_Sensitive := f_Sensitive f |}.
Fixpoint collect_params (versionID : string) (fields : list pbSchemaField) (regexMaxLen : Z) :
    result error (list CreateSchemaFieldParams) :=
  match fields with
  | [] => Ok []
  | f :: fields =>
    match validateFieldConstraints f regexMaxLen with
    | Err e => Err (Status InvalidArgument "%v" [AErr e])
    | Ok _ => let? ps := collect_params versionID fields regexMaxLen in Ok (field_params versionID f :: ps)
    end
  end.
End constraints.

(** ** Defaults of a new tenant ([seed.go]) *)
Record SeedValue := { sd_Value : string; sd_Checksum : string }.
Record SeedTenantConfigParams := { sp_TenantID : string; sp_Actor : string; sp_Values : gmap string SeedValue }.

Definition configValueChecksum `{XXHash} (value : string) : string := FormatUint (Sum64String value) 16.

Definition defaultToTypedValue (s : string) (ft : FieldType) : result error TypedValue :=
  match ft with
  | FieldTypeInteger =>
      match ParseInt s 64 with (n, None) => Ok (Some (IntegerValue n)) | _ => Err (Errorf "not an integer: %q" [AStr s]) end
  | FieldTypeNumber =>
      match ParseFloat s with (x, None) => Ok (Some (NumberValue x)) | _ => Err (Errorf "not a number: %q" [AStr s]) end
  | FieldTypeString => Ok (Some (StringValue s))
  | FieldTypeBool =>
      match ParseBool s with (b, None) => Ok (Some (BoolValue b)) | _ => Err (Errorf "not a bool: %q" [AStr s]) end
  | FieldTypeTime =>
      match ParseRFC3339Nano s with
      | Some t => Ok (Some (TimeValue (Some (timestamppb_New t))))
      | None => Err (Errorf "not an RFC3339 time: %q" [AStr s])
      end
  | FieldTypeDuration =>
      match ParseDuration s with
      | Some d => Ok (Some (DurationValue (Some (durationpb_New d))))
      | None => Err (Errorf "not a duration: %q" [AStr s])
      end
  | FieldTypeURL => Ok (Some (UrlValue s))
  | FieldTypeJSON => Ok (Some (JsonValue s))
  | FieldTypeOther _ => Ok (Some (StringValue s))
  end.

Section seed.
Context `{Regexp, JsonSchema, CompileRace, UrlRest, XXHash}.

Definition default_options (f : SchemaField) : result error (list Option) :=
  let opts := (if sf_Nullable f then [WithNullable] else []) ++ (if sf_Sensitive f then [WithSensitive] else []) in
  match sf_Constraints f with
  | None | Some "" => Ok opts
  | Some raw =>
    match Unmarshal_constraints raw with
    | None => Err (Errorf "field %s: invalid stored constraints: %w" [AStr (sf_Path f)])
    | Some c => Ok (opts ++ [WithConstraints c])
    end
  end.

Definition validateDefaultValue (f : SchemaField) : result error unit :=
  match sf_DefaultValue f with
  | None => Ok tt
  | Some text =>
    let? opts := default_options f in
    match defaultToTypedValue text (sf_FieldType f) with
    | Err e => Err (Errorf "field %s: invalid default value: %w" [AStr (sf_Path f); AErr e])
    | Ok tv =>
      match Validate (NewFieldValidator (sf_Path f) (ToProto (sf_FieldType f)) opts) (Some tv) with
      | Err e => Err (Wrap "invalid default value" e)
      | Ok _ => Ok tt
      end
    end
  end.

Fixpoint collect_defaults (fields : list SchemaField) (out : gmap string SeedValue) : result error (gmap string SeedValue) :=
  match fields with
  | [] => Ok out
  | f :: fields =>
    match sf_DefaultValue f with
    | None => collect_defaults fields out
    | Some text =>
      let? _ := validateDefaultValue f in
      collect_defaults fields (<[sf_Path f := {| sd_Value := text; sd_Checksum := configValueChecksum text |}]> out)
    end
  end.
Definition collectDefaultValues (fields : list SchemaField) : result error (gmap string SeedValue) :=
  collect_defaults fields ∅.
End seed.
