(* ===== verification/SchemaYaml.v ===== *)
(** * Schema documents ([internal/schema/yaml.go], [parser.go], [parser_v1.go])

    Exports and imports of a schema as YAML: the shape of a document, the checks
    of its structure, the conversion to the message of the API and back, and the
    registry of format versions. The YAML library is a parameter,
    [SchemaYamlLib]. *)
From S2P Require Import Prelude GoText GoFloat GoTime Json GoAny Domain Convert Validation CrossField ConfigYaml SchemaTypes.
From Stdlib Require Import Ascii.
Import Convert Validation DependentRequired GoAny.

(** ** Documents

    A nil slice or map is an empty one; a nil pointer is [None]. *)
Record ConstraintsYAML := {
  yc_Minimum : option float64; yc_Maximum : option float64;
  yc_ExclusiveMinimum : option float64; yc_ExclusiveMaximum : option float64;
  yc_MinLength : option Z; yc_MaxLength : option Z; yc_Pattern : string; yc_Enum : list string;
  yc_JSONSchema : string; yc_AllowedSchemes : list string; yc_Extensions : gmap string any }.
Record ExternalDocsYAML := { yd_Description : string; yd_URL : string; yd_Extensions : gmap string any }.
Record ExampleYAML := { ye_Value : string; ye_Summary : string; ye_Extensions : gmap string any }.
Record SchemaFieldYAML := {
  yf_Type : string; yf_Description : string; yf_Default : string; yf_Nullable : bool; yf_Deprecated : bool;
  yf_RedirectTo : string; yf_Constraints : option ConstraintsYAML; yf_Title : string; yf_Example : string;
  yf_Examples : gmap string ExampleYAML; yf_ExternalDocs : option ExternalDocsYAML; yf_Tags : list string;
  yf_Format : string; yf_ReadOnly : bool; yf_WriteOnce : bool; yf_Sensitive : bool;
  yf_Extensions : gmap string any }.
Record SchemaContactYAML := { yk_Name : string; yk_Email : string; yk_URL : string; yk_Extensions : gmap string any }.
Record SchemaInfoYAML := {
  yi_Title : string; yi_Author : string; yi_Contact : option SchemaContactYAML;
  yi_Labels : gmap string string; yi_Extensions : gmap string any }.
Record ValidationYAML := {
  yv_Path : string; yv_Rule : string; yv_Message : string; yv_Severity : string; yv_Reason : string;
  yv_Extensions : gmap string any }.
Record SchemaYAML := {
  ys_SpecVersion : string; ys_Schema : string; ys_ID : string; ys_Name : string; ys_Description : string;
  ys_Version : Z; ys_VersionDescription : string; ys_Info : option SchemaInfoYAML;
  ys_Fields : gmap string SchemaFieldYAML; ys_DependentRequired : gmap string (list string);
  ys_Validations : list ValidationYAML; ys_Extensions : gmap string any }.

(** gopkg.in/yaml.v3: [Unmarshal] into the header and into a document,
    [Marshal] of a document. *)
Class SchemaYamlLib := {
  sy_Header : string → result error string;
  sy_Unmarshal : string → result error SchemaYAML;
  sy_Marshal : SchemaYAML → result error string
}.

Module SchemaDoc.

Definition yamlSpecVersionV1 : string := "v1".
Definition metaSchemaURL : string := "https://schemas.opendecree.dev/schema/v0.1.0/decree-schema.json".

(** ** Grammars *)
Definition is_alnum (c : ascii) : bool := Url.is_alpha c || is_digit c.
Definition one_of (cs : list ascii) (c : ascii) : bool := bool_decide (c ∈ cs).

(** [[a-zA-Z0-9][a-zA-Z0-9._-]*], a segment of a URN. *)
Definition urn_segment (s : string) : bool :=
  match s with
  | "" => false
  | String c s => is_alnum c && all_bytes (λ c, is_alnum c || one_of ["."; "_"; "-"]%char c) s
  end.
(** [^urn:decree:schema:<segment>(?::<segment>)*$] *)
Definition urn_prefix : string := "urn:decree:schema:".
Definition schemaURN (s : string) : bool :=
  HasPrefix s urn_prefix && forallb urn_segment (Split ":"%char (str_skip (str_len urn_prefix) s)).
(** [^[a-zA-Z_][a-zA-Z0-9_.-]*$] *)
Definition fieldPath (s : string) : bool :=
  match s with
  | "" => false
  | String c s => (Url.is_alpha c || bool_decide (c = "_"%char))
                  && all_bytes (λ c, is_alnum c || one_of ["_"; "."; "-"]%char c) s
  end.
Definition fieldPathPattern : string := "^[a-zA-Z_][a-zA-Z0-9_.-]*$".

(** ** Types *)
Definition yamlTypeToProto (t : string) : pbFieldType * bool :=
  if bool_decide (t = "integer") then (FIELD_TYPE_INT, true)
  else if bool_decide (t = "number") then (FIELD_TYPE_NUMBER, true)
  else if bool_decide (t = "string") then (FIELD_TYPE_STRING, true)
  else if bool_decide (t = "bool") then (FIELD_TYPE_BOOL, true)
  else if bool_decide (t = "time") then (FIELD_TYPE_TIME, true)
  else if bool_decide (t = "duration") then (FIELD_TYPE_DURATION, true)
  else if bool_decide (t = "url") then (FIELD_TYPE_URL, true)
  else if bool_decide (t = "json") then (FIELD_TYPE_JSON, true)
  else (FIELD_TYPE_UNSPECIFIED, false).
Definition protoTypeToYAML (t : pbFieldType) : string :=
  match t with
  | FIELD_TYPE_INT => "integer"
  | FIELD_TYPE_NUMBER => "number"
  | FIELD_TYPE_STRING => "string"
  | FIELD_TYPE_BOOL => "bool"
  | FIELD_TYPE_TIME => "time"
  | FIELD_TYPE_DURATION => "duration"
  | FIELD_TYPE_URL => "url"
  | FIELD_TYPE_JSON => "json"
  | FIELD_TYPE_UNSPECIFIED => "string"
  end.

(** ** Proto to YAML *)
Definition protoConstraintsToYAML (c : FieldConstraints) : option ConstraintsYAML :=
  let yc := {|
    yc_Minimum := Min c; yc_Maximum := Max c; yc_ExclusiveMinimum := ExclusiveMin c;
    yc_ExclusiveMaximum := ExclusiveMax c; yc_MinLength := MinLength c; yc_MaxLength := MaxLength c;
    yc_Pattern := default "" (Regex c); yc_Enum := EnumValues c; yc_JSONSchema := default "" (JsonSchemaDoc c);
    yc_AllowedSchemes := AllowedSchemes c; yc_Extensions := ∅ |} in
  match yc_Minimum yc, yc_Maximum yc, yc_ExclusiveMinimum yc, yc_ExclusiveMaximum yc, yc_MinLength yc,
    yc_MaxLength yc, yc_Pattern yc, yc_Enum yc, yc_JSONSchema yc, yc_AllowedSchemes yc with
  | None, None, None, None, None, None, "", [], "", [] => None
  | _, _, _, _, _, _, _, _, _, _ => Some yc
  end.

Definition schemaInfoToYAML (info : option SchemaInfo) : option SchemaInfoYAML :=
  match info with
  | None => None
  | Some info =>
    let yi := {|
      yi_Title := in_Title info; yi_Author := in_Author info;
      yi_Contact := (λ k, {| yk_Name := ct_Name k; yk_Email := ct_Email k; yk_URL := ct_Url k; yk_Extensions := ∅ |})
                      <$> in_Contact info;
      yi_Labels := in_Labels info; yi_Extensions := ∅ |} in
    if bool_decide (yi_Title yi = "") && bool_decide (yi_Author yi = "")
       && bool_decide (yi_Contact yi = None) && bool_decide (yi_Labels yi = ∅)
    then None else Some yi
  end.

Definition protoValidationsToYAML (rules : list Cel.ValidationRule) : list ValidationYAML :=
  (λ v, {| yv_Path := Cel.rule_Path v; yv_Rule := Cel.rule_Rule v; yv_Message := Cel.rule_Message v;
           yv_Severity := Cel.rule_Severity v; yv_Reason := Cel.rule_Reason v; yv_Extensions := ∅ |}) <$> rules.
Definition protoDependentRequiredToYAML (entries : list DependentRequiredEntry) : gmap string (list string) :=
  foldl (λ m e, <[TriggerField e := merge_sort String.le (DependentFields e)]> m) ∅ entries.

(** The body of the loop over the fields. *)
Definition fieldToYAML (f : pbSchemaField) : SchemaFieldYAML := {|
  yf_Type := protoTypeToYAML (f_Type f); yf_Description := default "" (f_Description f);
  yf_Default := default "" (f_DefaultValue f); yf_Nullable := f_Nullable f; yf_Deprecated := f_Deprecated f;
  yf_RedirectTo := default "" (f_RedirectTo f); yf_Constraints := c ← f_Constraints f; protoConstraintsToYAML c;
  yf_Title := default "" (f_Title f); yf_Example := default "" (f_Example f);
  yf_Examples := (λ e, {| ye_Value := fe_Value e; ye_Summary := fe_Summary e; ye_Extensions := ∅ |}) <$> f_Examples f;
  yf_ExternalDocs := (λ d, {| yd_Description := ed_Description d; yd_URL := ed_Url d; yd_Extensions := ∅ |})
                       <$> f_ExternalDocs f;
  yf_Tags := f_Tags f; yf_Format := default "" (f_Format f); yf_ReadOnly := f_ReadOnly f;
  yf_WriteOnce := f_WriteOnce f; yf_Sensitive := f_Sensitive f; yf_Extensions := ∅ |}.

Definition schemaToYAML (s : pbSchema) : SchemaYAML := {|
  ys_SpecVersion := yamlSpecVersionV1; ys_Schema := metaSchemaURL;
  ys_ID := "urn:decree:schema:" +:+ ps_Name s +:+ ":v" +:+ itoa (ps_Version s);
  ys_Name := ps_Name s; ys_Description := ps_Description s; ys_Version := ps_Version s;
  ys_VersionDescription := ps_VersionDescription s; ys_Info := schemaInfoToYAML (ps_Info s);
  ys_Fields := foldl (λ m f, <[f_Path f := fieldToYAML f]> m) ∅ (ps_Fields s);
  ys_DependentRequired := protoDependentRequiredToYAML (ps_DependentRequired s);
  ys_Validations := protoValidationsToYAML (ps_Validations s); ys_Extensions := ∅ |}.

(** ** YAML to proto *)
(** The pointer to a text that is not empty. *)
Definition set_text (s : string) : option string := if bool_decide (s = "") then None else Some s.

Definition yamlConstraintsToProto (yc : ConstraintsYAML) : FieldConstraints :=
  mkConstraints (yc_Minimum yc) (yc_Maximum yc) (set_text (yc_Pattern yc)) (yc_Enum yc) (set_text (yc_JSONSchema yc))
    (yc_ExclusiveMinimum yc) (yc_ExclusiveMaximum yc) (yc_MinLength yc) (yc_MaxLength yc) (yc_AllowedSchemes yc).

(** The body of the loop over the fields. *)
Definition fieldFromYAML (path : string) (yf : SchemaFieldYAML) : pbSchemaField := {|
  f_Path := path; f_Type := (yamlTypeToProto (yf_Type yf)).1;
  f_Constraints := yamlConstraintsToProto <$> yf_Constraints yf; f_Nullable := yf_Nullable yf;
  f_Deprecated := yf_Deprecated yf; f_RedirectTo := set_text (yf_RedirectTo yf);
  f_DefaultValue := set_text (yf_Default yf); f_Description := set_text (yf_Description yf);
  f_Title := set_text (yf_Title yf); f_Example := set_text (yf_Example yf);
  f_Examples := (λ e, {| fe_Value := ye_Value e; fe_Summary := ye_Summary e |}) <$> yf_Examples yf;
  f_ExternalDocs := (λ d, {| ed_Description := yd_Description d; ed_Url := yd_URL d |}) <$> yf_ExternalDocs yf;
  f_Tags := yf_Tags yf; f_Format := set_text (yf_Format yf); f_ReadOnly := yf_ReadOnly yf;
  f_WriteOnce := yf_WriteOnce yf; f_Sensitive := yf_Sensitive yf |}.

Definition yamlToProtoValidations (rules : list ValidationYAML) : list Cel.ValidationRule :=
  (λ v, {| Cel.rule_Path := yv_Path v; Cel.rule_Rule := yv_Rule v; Cel.rule_Message := yv_Message v;
           Cel.rule_Severity := yv_Severity v; Cel.rule_Reason := yv_Reason v |}) <$> rules.
Definition yamlToProtoInfo (yi : option SchemaInfoYAML) : option SchemaInfo :=
  (λ yi, {| in_Title := yi_Title yi; in_Author := yi_Author yi;
            in_Contact := (λ k, {| ct_Name := yk_Name k; ct_Email := yk_Email k; ct_Url := yk_URL k |}) <$> yi_Contact yi;
            in_Labels := yi_Labels yi |}) <$> yi.

Section codec.
Context `{MapRange, SortSlice, UrlRest}.

Definition yamlToProtoDependentRequired (m : gmap string (list string)) : list DependentRequiredEntry :=
  (λ t, {| TriggerField := t; DependentFields := merge_sort String.le (default [] (m !! t)) |})
    <$> merge_sort String.le (map_range m).*1.
Definition yamlToProtoFields (doc : SchemaYAML) : list pbSchemaField :=
  sort_slice by_path ((λ p, fieldFromYAML p.1 p.2) <$> map_range (ys_Fields doc)).

(** ** Checks *)
(** The function of the same name and text in [internal/config/yaml.go]. *)
Definition validateExtensions (pathPrefix : string) (ext : gmap string any) : result error unit :=
  ConfigDoc.validateExtensions pathPrefix ext.

(** The loop is that of [validateDependentRequiredAgainstFields]. *)
Definition validateDependentRequiredYAML (doc : SchemaYAML) : result error unit :=
  lint_entries ((λ p, {| TriggerField := p.1; DependentFields := p.2 |}) <$> map_range (ys_DependentRequired doc))
    (dom (ys_Fields doc)).

Definition quoted (s : string) : string := String "034" (s +:+ String "034" "").
Fixpoint validate_rules (i : Z) (rules : list ValidationYAML) : result error unit :=
  match rules with
  | [] => Ok tt
  | v :: rules =>
      if bool_decide (yv_Rule v = "") then Err (Errorf "validations[%d]: rule is required" [Domain.AInt i])
      else if bool_decide (yv_Message v = "") then Err (Errorf "validations[%d]: message is required" [Domain.AInt i])
      else if bool_decide (yv_Severity v ∈ [""; "error"; "warning"]) then
        let? _ := validateExtensions ("validations[" +:+ itoa i +:+ "]") (yv_Extensions v) in
        validate_rules (i + 1)%Z rules
      else Err (Errorf ("validations[%d]: severity %q must be " +:+ quoted "error" +:+ " or " +:+ quoted "warning")
                  [Domain.AInt i; AStr (yv_Severity v)])
  end.
Definition validateValidationsYAML (doc : SchemaYAML) : result error unit := validate_rules 0 (ys_Validations doc).

Fixpoint validate_examples (prefix : string) (l : list (string * ExampleYAML)) : result error unit :=
  match l with
  | [] => Ok tt
  | (name, ex) :: l =>
      let? _ := validateExtensions (prefix +:+ name) (ye_Extensions ex) in validate_examples prefix l
  end.
Definition optionally {A} (check : A → result error unit) (v : option A) : result error unit :=
  match v with Some v => check v | None => Ok tt end.
Definition validate_field (path : string) (f : SchemaFieldYAML) : result error unit :=
  let at_field := "fields." +:+ path in
  if negb (fieldPath path)
  then Err (Errorf "invalid field path %q: must match %s" [AStr path; AStr fieldPathPattern])
  else if negb (yamlTypeToProto (yf_Type f)).2
  then Err (Errorf "field %s: unknown type %q" [AStr path; AStr (yf_Type f)])
  else
    let? _ := validateExtensions at_field (yf_Extensions f) in
    let? _ := optionally (λ c, validateExtensions (at_field +:+ ".constraints") (yc_Extensions c)) (yf_Constraints f) in
    let? _ := optionally (λ d, validateExtensions (at_field +:+ ".externalDocs") (yd_Extensions d)) (yf_ExternalDocs f) in
    validate_examples (at_field +:+ ".examples.") (map_range (yf_Examples f)).
Fixpoint validate_fields (l : list (string * SchemaFieldYAML)) : result error unit :=
  match l with
  | [] => Ok tt
  | (path, f) :: l => let? _ := validate_field path f in validate_fields l
  end.

Definition https_url (s : string) : bool :=
  match Url.Parse s with
  | Some (scheme, host) => bool_decide (scheme = "https") && negb (bool_decide (host = ""))
  | None => false
  end.

Definition validateSchemaYAML (doc : SchemaYAML) : result error unit :=
  if bool_decide (ys_SpecVersion doc = "") then Err (Errorf "spec_version is required" [])
  else if negb (bool_decide (ys_SpecVersion doc = yamlSpecVersionV1))
  then Err (Errorf "unsupported spec_version: %s" [AStr (ys_SpecVersion doc)])
  else if negb (bool_decide (ys_Schema doc = "")) && negb (https_url (ys_Schema doc))
  then Err (Errorf "$schema must be an HTTPS URL, got %q" [AStr (ys_Schema doc)])
  else if negb (bool_decide (ys_ID doc = "")) && negb (schemaURN (ys_ID doc))
  then Err (Errorf "$id must match urn:decree:schema:<segment>(:<segment>)*, got %q" [AStr (ys_ID doc)])
  else
    let? _ := validateExtensions "" (ys_Extensions doc) in
    let? _ := optionally (λ info,
        let? _ := validateExtensions "info" (yi_Extensions info) in
        optionally (λ k, validateExtensions "info.contact" (yk_Extensions k)) (yi_Contact info)) (ys_Info doc) in
    if bool_decide (ys_Name doc = "") then Err (Errorf "name is required" [])
    else if negb (isValidSlug (ys_Name doc))
    then Err (Errorf "name must be a slug: lowercase alphanumeric and hyphens, 1-63 chars" [])
    else if bool_decide (size (ys_Fields doc) = 0) then Err (Errorf "at least one field is required" [])
    else
      let? _ := validateDependentRequiredYAML doc in
      let? _ := validateValidationsYAML doc in
      validate_fields (map_range (ys_Fields doc)).

(** ** Parsers *)
Context `{SchemaYamlLib}.

Definition marshalSchemaYAML (doc : SchemaYAML) : result error string := sy_Marshal doc.
Definition unmarshalSchemaYAML (data : string) : result error SchemaYAML :=
  match sy_Unmarshal data with
  | Err e => Err (Wrap "invalid YAML" e)
  | Ok doc => let? _ := validateSchemaYAML doc in Ok doc
  end.

Record Parser := mkParser {
  p_SpecVersion : string; p_Parse : string → result error pbSchema; p_Marshal : pbSchema → result error string }.

(** The message an accepted document stands for. *)
Definition schemaFromYAML (doc : SchemaYAML) : pbSchema := {|
  ps_Id := ""; ps_Name := ys_Name doc; ps_Description := ys_Description doc; ps_Version := ys_Version doc;
  ps_ParentVersion := None; ps_VersionDescription := ys_VersionDescription doc; ps_Checksum := "";
  ps_Published := false; ps_Fields := yamlToProtoFields doc; ps_CreatedAt := None;
  ps_DependentRequired := yamlToProtoDependentRequired (ys_DependentRequired doc);
  ps_Validations := yamlToProtoValidations (ys_Validations doc); ps_Info := yamlToProtoInfo (ys_Info doc) |}.
Definition parserV1_Parse (data : string) : result error pbSchema :=
  let? doc := unmarshalSchemaYAML data in Ok (schemaFromYAML doc).
Definition parserV1_Marshal (s : pbSchema) : result error string := marshalSchemaYAML (schemaToYAML s).
Definition parserV1 : Parser := mkParser yamlSpecVersionV1 parserV1_Parse parserV1_Marshal.

(** [Register]; [None] is the panic on a version that is registered already. *)
Definition Register (p : Parser) (registry : gmap string Parser) : option (gmap string Parser) :=
  match registry !! p_SpecVersion p with
  | Some _ => None
  | None => Some (<[p_SpecVersion p := p]> registry)
  end.
(** After the package's [init] functions. *)
Definition parsers : gmap string Parser := default ∅ (Register parserV1 ∅).

Definition SupportedVersions : list string := merge_sort String.le (map_range parsers).*1.
Definition LatestVersion : string := default "" (last SupportedVersions).
Definition unsupported (v : string) : error :=
  Errorf "unsupported spec_version %q (supported: %v)" [AStr v; AStrs SupportedVersions].
End codec.
End SchemaDoc.
Import SchemaDoc.

(** ** The entry points of the service *)
Section entry.
Context `{MapRange, SortSlice, UrlRest, SchemaYamlLib}.

Definition Dispatch (data : string) : result error pbSchema :=
  match sy_Header data with
  | Err e => Err (Wrap "invalid YAML" e)
  | Ok v =>
      if bool_decide (v = "")
      then Err (Errorf "spec_version is required (supported: %v)" [AStrs SupportedVersions])
      else
        match parsers !! v with
        | None => Err (unsupported v)
        | Some p => p_Parse p data
        end
  end.

Definition MarshalSchemaAt (s : pbSchema) (version : string) : result error string :=
  let version := if bool_decide (version = "") then LatestVersion else version in
  match parsers !! version with
  | None => Err (unsupported version)
  | Some p => p_Marshal p s
  end.
End entry.
