(* ===== verification/SchemaYamlFacts.v ===== *)
(** * What schema documents carry

    Which documents an import accepts and what it reads from them; and that an
    export, read back, gives the schema that was exported. *)
From S2P Require Import Prelude GoText GoFloat GoTime Json GoAny Domain Convert Validation CrossField ConfigYaml ConfigYamlFacts SchemaTypes SchemaYaml.
From Stdlib Require Import Ascii.
Import Convert Validation DependentRequired GoAny SchemaDoc.

(** ** Sorting by path *)
Section sorting.
Context `{SortSliceOk}.

Lemma by_path_true a b : by_path a b = true ↔ f_Path a ≠ f_Path b ∧ String.le (f_Path a) (f_Path b).
Proof. apply bool_decide_eq_true. Qed.
Lemma by_path_false a b : by_path a b = false ↔ String.le (f_Path b) (f_Path a).
Proof.
  unfold by_path. rewrite bool_decide_eq_false. split.
  - intros Hn. destruct (decide (f_Path a = f_Path b)) as [->|Hne]; [done|].
    destruct (total String.le (f_Path a) (f_Path b)); naive_solver.
  - intros Hle [Hne Hle']. by apply Hne, (anti_symm String.le).
Qed.
Lemma by_path_strict_weak : strict_weak by_path.
Proof.
  split_and!.
  - intros x. by apply by_path_false.
  - intros x y z. rewrite !by_path_true. intros [Hxy Lxy] [Hyz Lyz]. split; [|by etrans].
    intros E. rewrite <-E in Lyz. by apply Hxy, (anti_symm String.le).
  - intros x y z. rewrite !by_path_false. intros ? ?. by etrans.
Qed.

Lemma sort_slice_by_path l : NoDup (f_Path <$> l) → sort_slice by_path l = sort_on String.le f_Path l.
Proof.
  intros Hnd. apply sort_slice_unique; [apply by_path_strict_weak| |by rewrite sort_on_perm].
  assert (NoDup (f_Path <$> sort_on String.le f_Path l)) as Hnd' by (by rewrite sort_on_perm).
  pose proof (sort_on_sorted String.le f_Path l) as Hs.
  induction Hs as [|x l' Hs IH Hx]; [constructor|]. rewrite fmap_cons, NoDup_cons in Hnd'.
  destruct Hnd' as [Hn Hnd']. constructor; [by apply IH|]. rewrite Forall_forall in Hx |- *.
  intros y Hy. apply by_path_true. split; [|by apply Hx].
  intros E. apply Hn. rewrite E. by apply list_elem_of_fmap_2.
Qed.
Lemma computeChecksum_perm l1 l2 :
  l1 ≡ₚ l2 → NoDup (f_Path <$> l1) → SchemaTypes.computeChecksum l1 = SchemaTypes.computeChecksum l2.
Proof.
  intros Hp Hnd. unfold SchemaTypes.computeChecksum. rewrite !sort_slice_by_path; [|by rewrite <-Hp|done].
  by rewrite (sort_on_unique String.le f_Path l1 l2 Hp Hnd).
Qed.
End sorting.

(** ** Which documents are accepted *)
Record rule_ok (v : ValidationYAML) : Prop := {
  ro_rule : yv_Rule v ≠ "";
  ro_message : yv_Message v ≠ "";
  ro_severity : yv_Severity v ∈ [""; "error"; "warning"];
  ro_ext : extensions_ok (yv_Extensions v) }.

Record field_ok (path : string) (f : SchemaFieldYAML) : Prop := {
  fo_path : fieldPath path = true;
  fo_type : ∃ ft, yf_Type f = protoTypeToYAML ft;
  fo_ext : extensions_ok (yf_Extensions f);
  fo_constraints c : yf_Constraints f = Some c → extensions_ok (yc_Extensions c);
  fo_docs d : yf_ExternalDocs f = Some d → extensions_ok (yd_Extensions d);
  fo_examples name e : yf_Examples f !! name = Some e → extensions_ok (ye_Extensions e) }.

Record schema_doc_ok `{UrlRest} (doc : SchemaYAML) : Prop := {
  sd_spec : ys_SpecVersion doc = yamlSpecVersionV1;
  sd_schema : ys_Schema doc = "" ∨
    ∃ host, Url.Parse (ys_Schema doc) = Some ("https", host) ∧ host ≠ "";
  sd_id : ys_ID doc = "" ∨ schemaURN (ys_ID doc) = true;
  sd_ext : extensions_ok (ys_Extensions doc);
  sd_info i : ys_Info doc = Some i → extensions_ok (yi_Extensions i);
  sd_contact i k : ys_Info doc = Some i → yi_Contact i = Some k → extensions_ok (yk_Extensions k);
  sd_name : isValidSlug (ys_Name doc) = true;
  sd_some : ys_Fields doc ≠ ∅;
  sd_rules : Forall rule_ok (ys_Validations doc);
  sd_dependents trigger deps : ys_DependentRequired doc !! trigger = Some deps →
    trigger ∈ dom (ys_Fields doc) ∧ NoDup deps ∧ (trigger ∉ deps) ∧ ∀ d, d ∈ deps → d ∈ dom (ys_Fields doc);
  sd_fields path f : ys_Fields doc !! path = Some f → field_ok path f }.

Section accepted.
Context `{MapRangeOk}.
#[local] Opaque ConfigDoc.validateExtensions.

(** A check before the rest. *)
Lemma checked_Ok {A} (r : result error unit) (k : result error A) x :
  (let? _ := r in k) = Ok x ↔ r = Ok tt ∧ k = Ok x.
Proof. destruct r as [[]|e]; simpl; naive_solver. Qed.

Lemma validate_rules_Ok i rules : validate_rules i rules = Ok tt ↔ Forall rule_ok rules.
Proof.
  revert i. induction rules as [|v rules IH]; intros i; simpl; [by rewrite Forall_nil|].
  rewrite Forall_cons. case_bool_decide as H1; [split; [done|by intros [[]]]|].
  case_bool_decide as H2; [split; [done|by intros [[]]]|].
  case_bool_decide as H3; [|split; [done|by intros [[]]]].
  unfold validateExtensions. rewrite checked_Ok, IH, validateExtensions_Ok.
  split; [intros [? ?]; split; [by split|done]|by intros [[] ?]].
Qed.

Lemma yamlTypeToProto_known t : (yamlTypeToProto t).2 = true ↔ ∃ ft, t = protoTypeToYAML ft.
Proof.
  split; [|by intros [[] ->]]. unfold yamlTypeToProto.
  repeat (case_bool_decide; [subst; intros _|]); [exists FIELD_TYPE_INT|exists FIELD_TYPE_NUMBER|exists FIELD_TYPE_STRING
    |exists FIELD_TYPE_BOOL|exists FIELD_TYPE_TIME|exists FIELD_TYPE_DURATION|exists FIELD_TYPE_URL|exists FIELD_TYPE_JSON|]; done.
Qed.

Lemma optionally_Ok {A} (check : A → result error unit) v :
  optionally check v = Ok tt ↔ ∀ a, v = Some a → check a = Ok tt.
Proof. destruct v; simpl; naive_solver. Qed.

Lemma validate_examples_Ok prefix l :
  validate_examples prefix l = Ok tt ↔ Forall (λ p, extensions_ok (ye_Extensions p.2)) l.
Proof.
  induction l as [|[name e] l IH]; simpl; [by rewrite Forall_nil|].
  unfold validateExtensions. by rewrite Forall_cons, checked_Ok, <-IH, validateExtensions_Ok.
Qed.

Lemma validate_field_Ok path f : validate_field path f = Ok tt ↔ field_ok path f.
Proof.
  unfold validate_field, validateExtensions.
  destruct (fieldPath path) eqn:Hp; simpl; [|split; [done|intros []; congruence]].
  pose proof (yamlTypeToProto_known (yf_Type f)) as Ht. destruct (yamlTypeToProto (yf_Type f)).2; simpl.
  2:{ split; [done|]. intros [_ Hf]. apply Ht in Hf. done. }
  rewrite !checked_Ok, !optionally_Ok, validate_examples_Ok, Forall_forall. setoid_rewrite validateExtensions_Ok. split.
  - intros (He & Hc & Hd & Hx). split; [done|by apply Ht|done..|].
    intros name e Hl%elem_of_map_range. by apply (Hx _ Hl).
  - intros [_ _ He Hc Hd Hx]. split_and!; [done..|]. intros [name e] Hl%elem_of_map_range. by eapply Hx.
Qed.
Lemma validate_fields_Ok l : validate_fields l = Ok tt ↔ Forall (λ p, field_ok p.1 p.2) l.
Proof.
  induction l as [|[p f] l IH]; simpl; [by rewrite Forall_nil|].
  by rewrite Forall_cons, checked_Ok, <-IH, validate_field_Ok.
Qed.

Context `{UrlRest}.

Lemma https_url_true s : https_url s = true ↔ ∃ host, Url.Parse s = Some ("https", host) ∧ host ≠ "".
Proof.
  unfold https_url. destruct (Url.Parse s) as [[scheme host]|]; [|naive_solver].
  rewrite andb_true_iff, negb_true_iff, bool_decide_eq_true, bool_decide_eq_false. naive_solver.
Qed.
(** A text that is only checked when it is given. *)
Lemma unless_empty s b : negb (bool_decide (s = "")) && negb b = false ↔ s = "" ∨ b = true.
Proof. rewrite andb_false_iff, !negb_false_iff, bool_decide_eq_true. done. Qed.
Lemma slug_not_empty s : isValidSlug s = true → s ≠ "".
Proof. by intros ? ->. Qed.

Lemma validateSchemaYAML_Ok doc : validateSchemaYAML doc = Ok tt ↔ schema_doc_ok doc.
Proof.
  unfold validateSchemaYAML, validateValidationsYAML, validateDependentRequiredYAML, validateExtensions.
  case_bool_decide as Hc1; [split; [done|intros [Hs]; by rewrite Hs in Hc1]|].
  case_bool_decide as Hc2; simpl; [|split; [done|by intros []]].
  pose proof (unless_empty (ys_Schema doc) (https_url (ys_Schema doc))) as Hc3. rewrite https_url_true in Hc3.
  destruct (negb _ && negb (https_url _)); [split; [done|intros [_ Hs]; by apply Hc3 in Hs]|].
  pose proof (unless_empty (ys_ID doc) (schemaURN (ys_ID doc))) as Hc5.
  destruct (negb _ && negb (schemaURN _)); [split; [done|intros [_ _ Hs]; by apply Hc5 in Hs]|].
  rewrite !checked_Ok, optionally_Ok. setoid_rewrite checked_Ok. setoid_rewrite optionally_Ok.
  setoid_rewrite validateExtensions_Ok.
  case_bool_decide as Hc6; [split; [by intros (_ & _ & ?)|intros []; by destruct (slug_not_empty (ys_Name doc))]|].
  destruct (isValidSlug (ys_Name doc)) eqn:Hc7; simpl; [|split; [by intros (_ & _ & ?)|intros []; congruence]].
  case_bool_decide as Hc8.
  { split; [by intros (_ & _ & ?)|]. intros []. by apply map_size_empty_inv in Hc8. }
  rewrite !checked_Ok, lint_entries_Ok, validate_rules_Ok, validate_fields_Ok, (Forall_forall _ (map_range _)). split.
  - intros (Hx & Hi & Hd & Hr & Hf). split; [done|by apply Hc3|by apply Hc5|done|..].
    + intros i E. by apply (Hi i E).
    + intros i k E. by apply (Hi i E).
    + done.
    + intros E. by rewrite E, map_size_empty in Hc8.
    + done.
    + intros t deps Hl%elem_of_map_range. specialize (Hd {| TriggerField := t; DependentFields := deps |}). simpl in Hd.
      apply Hd. by apply (list_elem_of_fmap_2' _ _ (t, deps)).
    + intros p f Hl%elem_of_map_range. by apply (Hf (p, f)).
  - intros [_ _ _ Hx Hi Hk _ _ Hr Hd Hf]. split_and!; [done| | |done|].
    + intros i E. split; [by apply Hi|]. intros k. by apply Hk.
    + intros e ([t deps] & -> & Hl%elem_of_map_range)%list_elem_of_fmap. by apply Hd.
    + intros [p f] Hl%elem_of_map_range. by apply Hf.
Qed.
End accepted.

(** ** What is read

    The message a document stands for, whatever order its maps are read in. *)
Definition read_field (p : string * SchemaFieldYAML) : pbSchemaField := fieldFromYAML p.1 p.2.
Definition read_dependents (p : string * list string) : DependentRequiredEntry :=
  {| TriggerField := p.1; DependentFields := merge_sort String.le p.2 |}.
Definition document_schema (doc : SchemaYAML) : pbSchema := {|
  ps_Id := ""; ps_Name := ys_Name doc; ps_Description := ys_Description doc; ps_Version := ys_Version doc;
  ps_ParentVersion := None; ps_VersionDescription := ys_VersionDescription doc; ps_Checksum := "";
  ps_Published := false; ps_CreatedAt := None;
  ps_Fields := sort_on String.le f_Path (read_field <$> map_to_list (ys_Fields doc));
  ps_DependentRequired := sort_on String.le TriggerField (read_dependents <$> map_to_list (ys_DependentRequired doc));
  ps_Validations := yamlToProtoValidations (ys_Validations doc); ps_Info := yamlToProtoInfo (ys_Info doc) |}.

Section reading.
Context `{MapRangeOk} `{SortSliceOk} `{UrlRest}.

Lemma yamlToProtoFields_sorted doc :
  yamlToProtoFields doc = sort_on String.le f_Path (read_field <$> map_to_list (ys_Fields doc)).
Proof.
  assert (∀ l : list (string * SchemaFieldYAML), f_Path <$> (read_field <$> l) = l.*1) as Hk.
  { intros l. rewrite <-list_fmap_compose. by apply list_fmap_ext. }
  unfold yamlToProtoFields. rewrite sort_slice_by_path; [|rewrite Hk; apply NoDup_fst_map_range].
  apply (sort_on_unique String.le f_Path); [exact (Permutation_map read_field (map_range_perm _))|].
  rewrite Hk. apply NoDup_fst_map_range.
Qed.

Lemma yamlToProtoDependentRequired_sorted m :
  yamlToProtoDependentRequired m = sort_on String.le TriggerField (read_dependents <$> map_to_list m).
Proof.
  assert (∀ l : list (string * list string), TriggerField <$> (read_dependents <$> l) = l.*1) as Hk.
  { intros l. rewrite <-list_fmap_compose. by apply list_fmap_ext. }
  unfold yamlToProtoDependentRequired. apply (sort_on_eq String.le TriggerField).
  - rewrite merge_sort_Permutation, map_range_perm, <-list_fmap_compose.
    apply Permutation_refl', list_fmap_ext. intros i [t deps] Hl%list_elem_of_lookup_2.
    apply elem_of_map_to_list in Hl. unfold read_dependents. simpl. by rewrite Hl.
  - rewrite <-list_fmap_compose, (list_fmap_ext _ id) by done. rewrite list_fmap_id. apply StronglySorted_merge_sort; apply _.
  - rewrite Hk. apply NoDup_fst_map_to_list.
Qed.

Lemma schemaFromYAML_document doc : schemaFromYAML doc = document_schema doc.
Proof. unfold schemaFromYAML. by rewrite yamlToProtoFields_sorted, yamlToProtoDependentRequired_sorted. Qed.

Context `{SchemaYamlLib}.

Lemma schema_parsers_lookup v : parsers !! v = if decide (v = yamlSpecVersionV1) then Some parserV1 else None.
Proof.
  unfold parsers, Register. rewrite lookup_empty. simpl. destruct (decide (v = yamlSpecVersionV1)) as [->|Hv].
  - apply lookup_insert_eq.
  - by rewrite lookup_insert_ne by (intros E; by rewrite <-E in Hv).
Qed.

Lemma Dispatch_Ok data s :
  Dispatch data = Ok s ↔
  ∃ doc, sy_Header data = Ok yamlSpecVersionV1 ∧ sy_Unmarshal data = Ok doc ∧ schema_doc_ok doc
    ∧ s = document_schema doc.
Proof.
  unfold Dispatch. destruct (sy_Header data) as [v|e]; [|naive_solver].
  case_bool_decide as Hv; [naive_solver|]. rewrite schema_parsers_lookup.
  destruct (decide (v = yamlSpecVersionV1)) as [->|Hne]; [|naive_solver].
  simpl. unfold parserV1_Parse, unmarshalSchemaYAML.
  destruct (sy_Unmarshal data) as [doc|e]; simpl; [|naive_solver].
  pose proof (validateSchemaYAML_Ok doc) as Hok. destruct (validateSchemaYAML doc) as [[]|e]; simpl.
  - rewrite schemaFromYAML_document. split; [intros [= <-]; exists doc; naive_solver|].
    by intros (? & _ & [= <-] & _ & ->).
  - split; [done|]. intros (? & _ & [= <-] & Hd & _). by apply Hok in Hd.
Qed.

(** Which schema documents an import accepts, and what it reads: the document
    is YAML with spec_version v1, its name is a slug, it has a field, every
    path, type, address and rule is well formed, every dependentRequired entry
    names fields of the document, and there are no keys but those of the format
    and x-* extensions. The schema read is that of the document, with fields and
    entries in the order of their paths, whatever order the maps are read in. *)
Theorem schema_import_reads data s :
  Dispatch data = Ok s ↔
  ∃ doc, sy_Header data = Ok yamlSpecVersionV1 ∧ sy_Unmarshal data = Ok doc ∧ schema_doc_ok doc
    ∧ s = document_schema doc.
Proof. apply Dispatch_Ok. Qed.
End reading.

(** ** Exports *)

(** What a document can say of a schema: a text that is given but empty is not
    given, constraints that constrain nothing are none, an unknown type is a
    string. *)
Definition tidy_text (s : option string) : option string := match s with Some "" => None | _ => s end.
Definition tidy_type (ft : pbFieldType) : pbFieldType :=
  match ft with FIELD_TYPE_UNSPECIFIED => FIELD_TYPE_STRING | _ => ft end.
Definition tidy_constraints (c : FieldConstraints) : option FieldConstraints :=
  match mkConstraints (Min c) (Max c) (tidy_text (Regex c)) (EnumValues c) (tidy_text (JsonSchemaDoc c))
          (ExclusiveMin c) (ExclusiveMax c) (MinLength c) (MaxLength c) (AllowedSchemes c) with
  | mkConstraints None None None [] None None None None None [] => None
  | c => Some c
  end.
Definition tidy_field (f : pbSchemaField) : pbSchemaField := {|
  f_Path := f_Path f; f_Type := tidy_type (f_Type f); f_Constraints := f_Constraints f ≫= tidy_constraints;
  f_Nullable := f_Nullable f; f_Deprecated := f_Deprecated f; f_RedirectTo := tidy_text (f_RedirectTo f);
  f_DefaultValue := tidy_text (f_DefaultValue f); f_Description := tidy_text (f_Description f);
  f_Title := tidy_text (f_Title f); f_Example := tidy_text (f_Example f); f_Examples := f_Examples f;
  f_ExternalDocs := f_ExternalDocs f; f_Tags := f_Tags f; f_Format := tidy_text (f_Format f);
  f_ReadOnly := f_ReadOnly f; f_WriteOnce := f_WriteOnce f; f_Sensitive := f_Sensitive f |}.
Definition tidy_info (i : SchemaInfo) : option SchemaInfo :=
  if bool_decide (in_Title i = "" ∧ in_Author i = "" ∧ in_Contact i = None ∧ in_Labels i = ∅) then None else Some i.
Definition tidy_entry (e : DependentRequiredEntry) : DependentRequiredEntry :=
  {| TriggerField := TriggerField e; DependentFields := merge_sort String.le (DependentFields e) |}.

(** A schema as it is read from its export. *)
Definition reimported (s : pbSchema) : pbSchema := {|
  ps_Id := ""; ps_Name := ps_Name s; ps_Description := ps_Description s; ps_Version := ps_Version s;
  ps_ParentVersion := None; ps_VersionDescription := ps_VersionDescription s; ps_Checksum := "";
  ps_Published := false; ps_CreatedAt := None;
  ps_Fields := sort_on String.le f_Path (tidy_field <$> ps_Fields s);
  ps_DependentRequired := sort_on String.le TriggerField (tidy_entry <$> ps_DependentRequired s);
  ps_Validations := ps_Validations s; ps_Info := ps_Info s ≫= tidy_info |}.

(** *** Fields *)
Lemma set_text_default s : set_text (default "" s) = tidy_text s.
Proof. by destruct s as [[]|]. Qed.
Lemma type_roundtrip ft : (yamlTypeToProto (protoTypeToYAML ft)).1 = tidy_type ft.
Proof. by destruct ft. Qed.
Lemma constraints_roundtrip c :
  yamlConstraintsToProto <$> protoConstraintsToYAML c = tidy_constraints c.
Proof.
  destruct c as [a b re en js ea eb la lb al]. unfold protoConstraintsToYAML, yamlConstraintsToProto, tidy_constraints. simpl.
  destruct a, b, re as [[]|], en, js as [[]|], ea, eb, la, lb, al; reflexivity.
Qed.
Lemma field_roundtrip f : fieldFromYAML (f_Path f) (fieldToYAML f) = tidy_field f.
Proof.
  unfold fieldFromYAML, fieldToYAML, tidy_field. simpl. rewrite !set_text_default, type_roundtrip. f_equal.
  - destruct (f_Constraints f) as [c|]; [apply constraints_roundtrip|done].
  - apply map_eq. intros k. rewrite !lookup_fmap. by destruct (f_Examples f !! k) as [[]|].
  - by destruct (f_ExternalDocs f) as [[]|].
Qed.
Lemma info_roundtrip i : yamlToProtoInfo (schemaInfoToYAML i) = i ≫= tidy_info.
Proof.
  destruct i as [[t a k ls]|]; [|done]. unfold schemaInfoToYAML, tidy_info. simpl.
  rewrite <-!bool_decide_and. destruct k as [[]|]; simpl; repeat case_bool_decide; naive_solver.
Qed.
Lemma rules_roundtrip rules : yamlToProtoValidations (protoValidationsToYAML rules) = rules.
Proof.
  unfold yamlToProtoValidations, protoValidationsToYAML. rewrite <-list_fmap_compose.
  rewrite (list_fmap_ext _ id); [apply list_fmap_id|]. by intros i [] _.
Qed.

(** *** Names and addresses *)
Lemma no_char_count c x : no_char c x = true → count_char c x = 0%nat.
Proof.
  unfold no_char. induction x as [|a x IH]; [done|]. cbn [all_bytes count_char]. intros [H1 H2]%andb_true_iff.
  apply negb_true_iff in H1. rewrite H1. by apply IH.
Qed.
Lemma Split_two c x y : no_char c x = true → no_char c y = true → Split c (x +:+ String c y) = [x; y].
Proof.
  intros Hx Hy. unfold Split. rewrite count_char_app. cbn [count_char].
  rewrite bool_decide_eq_true_2 by done. rewrite !no_char_count by done. simpl.
  by rewrite cut_char_app.
Qed.
Lemma all_bytes_impl (P Q : ascii → bool) s : (∀ c, P c = true → Q c = true) → all_bytes P s = true → all_bytes Q s = true.
Proof. intros HPQ. induction s as [|c s IH]; [done|]. simpl. rewrite !andb_true_iff. naive_solver. Qed.

Definition urn_char (c : ascii) : bool := is_alnum c || one_of ["."; "_"; "-"]%char c.
Lemma slug_urn_char c : slug_char c = true → urn_char c = true.
Proof.
  unfold slug_char, slug_end, urn_char, is_alnum, Url.is_alpha. intros H.
  repeat (apply orb_true_iff in H as [H|H]); rewrite ?H, ?orb_true_r; try done.
  apply bool_decide_eq_true in H as ->. done.
Qed.
Lemma slug_end_alnum c : slug_end c = true → is_alnum c = true.
Proof.
  unfold slug_end, is_alnum, Url.is_alpha. intros [H|H]%orb_true_iff; rewrite H; [apply orb_true_r|done].
Qed.
Lemma slug_tail_chars s : slug_tail s = true → all_bytes slug_char s = true.
Proof.
  induction s as [|c [|c' s] IH]; [done|..].
  - simpl. intros H. unfold slug_char. by rewrite H.
  - change (slug_char c && slug_tail (String c' s) = true → slug_char c && all_bytes slug_char (String c' s) = true).
    rewrite !andb_true_iff. naive_solver.
Qed.
Lemma slug_shape name :
  isValidSlug name = true → ∃ c s, name = String c s ∧ slug_end c = true ∧ all_bytes slug_char s = true.
Proof.
  unfold isValidSlug. intros [_ H]%andb_true_iff. destruct name as [|c [|c' s]]; [done|by exists c, ""|].
  apply andb_true_iff in H as [Hc Hs]. exists c, (String c' s). split_and!; [done..|by apply slug_tail_chars].
Qed.
Lemma slug_not_colon c : slug_char c = true → negb (bool_decide (c = ":"%char)) = true.
Proof. intros H. case_bool_decide as E; [|done]. rewrite E in H. done. Qed.
Lemma slug_segment name : isValidSlug name = true → urn_segment name = true ∧ no_char ":" name = true.
Proof.
  intros (c & s & -> & Hc & Hs)%slug_shape. split.
  - cbn [urn_segment]. rewrite (slug_end_alnum _ Hc). simpl. by apply (all_bytes_impl slug_char), Hs; intros; apply slug_urn_char.
  - unfold no_char. cbn [all_bytes]. rewrite andb_true_iff. split.
    + apply slug_not_colon. unfold slug_char. by rewrite Hc.
    + by apply (all_bytes_impl slug_char), Hs; intros; apply slug_not_colon.
Qed.
Lemma version_segment v : urn_segment ("v" +:+ itoa v) = true ∧ no_char ":" ("v" +:+ itoa v) = true.
Proof.
  split; [|exact (no_char_itoa ":" v eq_refl ltac:(done))].
  cbn -[itoa]. assert (∀ s, all_bytes is_digit s = true → all_bytes urn_char s = true) as Hd.
  { intros s. apply all_bytes_impl. intros c H. unfold urn_char, is_alnum. by rewrite H, orb_true_r. }
  unfold itoa, FormatInt. destruct (v <? 0)%Z; [|apply Hd, FormatUint_digits].
  exact (Hd _ (FormatUint_digits (- v))).
Qed.
Lemma str_skip_app p s : str_skip (str_len p) (p +:+ s) = s.
Proof. induction p as [|c p IH]; [done|]. rewrite str_app_cons. exact IH. Qed.
Lemma exported_id name v : isValidSlug name = true → schemaURN ("urn:decree:schema:" +:+ name +:+ ":v" +:+ itoa v) = true.
Proof.
  intros [Hs Hc]%slug_segment. destruct (version_segment v) as [Hv Hn]. unfold schemaURN, urn_prefix.
  rewrite HasPrefix_app, str_skip_app.
  assert (name +:+ ":v" +:+ itoa v = name +:+ String ":" ("v" +:+ itoa v)) as -> by done.
  rewrite Split_two by done. cbn -[itoa urn_segment]. by rewrite Hs, Hv.
Qed.

(** [net/url] on an address without ports, escapes, queries and the like. *)
Definition plain_host (c : ascii) : bool := is_alnum c || one_of ["."; "-"]%char c.
Definition plain_path (c : ascii) : bool := is_alnum c || one_of ["."; "-"; "_"; "/"]%char c.
Class UrlRestOk `{UrlRest} : Prop :=
  url_host_plain scheme host path : all_bytes plain_host host = true → all_bytes plain_path path = true →
    url_host scheme ("//" +:+ host +:+ "/" +:+ path) = Some host.

Lemma meta_schema_url `{UrlRestOk} : https_url metaSchemaURL = true.
Proof.
  unfold https_url.
  assert (Url.Parse metaSchemaURL = (host ← url_host "https" ("//" +:+ "schemas.opendecree.dev" +:+ "/"
            +:+ "schema/v0.1.0/decree-schema.json"); Some ("https", host))) as -> by reflexivity.
  by rewrite url_host_plain.
Qed.

(** *** Reading back *)
Definition bounds_of (c : ConstraintsYAML) : list (option float64) :=
  [yc_Minimum c; yc_Maximum c; yc_ExclusiveMinimum c; yc_ExclusiveMaximum c].
(** Documents without vendor extensions, and without a negative zero, which is
    written as an integer. *)
Record plain_field (f : SchemaFieldYAML) : Prop := {
  pf_ext : yf_Extensions f = ∅;
  pf_constraints c : yf_Constraints f = Some c → yc_Extensions c = ∅ ∧ Some (S754_zero true) ∉ bounds_of c;
  pf_docs d : yf_ExternalDocs f = Some d → yd_Extensions d = ∅;
  pf_examples : map_Forall (λ _ e, ye_Extensions e = ∅) (yf_Examples f) }.
Record plain_doc (doc : SchemaYAML) : Prop := {
  pd_ext : ys_Extensions doc = ∅;
  pd_info i : ys_Info doc = Some i → yi_Extensions i = ∅ ∧ ∀ k, yi_Contact i = Some k → yk_Extensions k = ∅;
  pd_fields : map_Forall (λ _ f, plain_field f) (ys_Fields doc);
  pd_rules : Forall (λ v, yv_Extensions v = ∅) (ys_Validations doc) }.

(** yaml.v3 reads back what it writes. *)
Class SchemaYamlOk `{SchemaYamlLib} : Prop :=
  sy_reads_back doc data : sy_Marshal doc = Ok data → plain_doc doc →
    sy_Header data = Ok (ys_SpecVersion doc) ∧ sy_Unmarshal data = Ok doc.

(** The schemas whose export is a valid document. *)
Record exportable (s : pbSchema) : Prop := {
  xp_name : isValidSlug (ps_Name s) = true;
  xp_some : ps_Fields s ≠ [];
  xp_NoDup : NoDup (f_Path <$> ps_Fields s);
  xp_paths f : f ∈ ps_Fields s → fieldPath (f_Path f) = true;
  xp_bounds f c : f ∈ ps_Fields s → f_Constraints f = Some c →
    Some (S754_zero true) ∉ [Min c; Max c; ExclusiveMin c; ExclusiveMax c];
  xp_triggers : NoDup (TriggerField <$> ps_DependentRequired s);
  xp_dependents : validateDependentRequiredAgainstFields (ps_DependentRequired s) (f_Path <$> ps_Fields s) = Ok tt;
  xp_rules : Forall (λ v, Cel.rule_Rule v ≠ "" ∧ Cel.rule_Message v ≠ ""
                          ∧ Cel.rule_Severity v ∈ [""; "error"; "warning"]) (ps_Validations s) }.

Section exports.
Context `{MapRangeOk} `{SortSliceOk} `{UrlRestOk} `{SchemaYamlOk}.
Implicit Types s : pbSchema.

Lemma exported_field s p yf : exportable s →
  ys_Fields (schemaToYAML s) !! p = Some yf ↔ ∃ f, f ∈ ps_Fields s ∧ f_Path f = p ∧ yf = fieldToYAML f.
Proof.
  intros Hx. simpl. rewrite <-elem_of_map_to_list.
  rewrite (foldl_insert_perm f_Path fieldToYAML _ (xp_NoDup _ Hx)), list_elem_of_fmap. naive_solver.
Qed.
Lemma exported_dependents s t deps : exportable s →
  ys_DependentRequired (schemaToYAML s) !! t = Some deps ↔
  ∃ e, e ∈ ps_DependentRequired s ∧ TriggerField e = t ∧ deps = merge_sort String.le (DependentFields e).
Proof.
  intros Hx. simpl. unfold protoDependentRequiredToYAML. rewrite <-elem_of_map_to_list.
  rewrite (foldl_insert_perm TriggerField (λ e, merge_sort String.le (DependentFields e)) _ (xp_triggers _ Hx)).
  rewrite list_elem_of_fmap. naive_solver.
Qed.

Lemma extensions_ok_empty : extensions_ok ∅.
Proof. intros key v Hv. by rewrite lookup_empty in Hv. Qed.
#[local] Hint Resolve extensions_ok_empty : core.

(** What is not there has no extensions. *)
Lemma protoConstraintsToYAML_plain c yc : protoConstraintsToYAML c = Some yc →
  yc_Extensions yc = ∅ ∧ bounds_of yc = [Min c; Max c; ExclusiveMin c; ExclusiveMax c].
Proof.
  unfold protoConstraintsToYAML. simpl. intros E.
  destruct (Min c), (Max c), (ExclusiveMin c), (ExclusiveMax c), (MinLength c), (MaxLength c), (default "" (Regex c)),
    (EnumValues c), (default "" (JsonSchemaDoc c)), (AllowedSchemes c); try discriminate E; injection E as <-; done.
Qed.
Lemma schemaInfoToYAML_plain i yi : schemaInfoToYAML i = Some yi →
  yi_Extensions yi = ∅ ∧ ∀ k, yi_Contact yi = Some k → yk_Extensions k = ∅.
Proof.
  destruct i as [i|]; [|done]. unfold schemaInfoToYAML. simpl. destruct (_ && _); [done|]. intros [= <-]. simpl.
  split; [done|]. destruct (in_Contact i); naive_solver.
Qed.

Lemma exported_field_plain s f : exportable s → f ∈ ps_Fields s → plain_field (fieldToYAML f).
Proof.
  intros Hx Hf. split; [done|..].
  - simpl. intros yc (c & Hc & Hy)%bind_Some. apply protoConstraintsToYAML_plain in Hy as [-> ->].
    split; [done|by apply (xp_bounds _ Hx f)].
  - simpl. destruct (f_ExternalDocs f); naive_solver.
  - intros k e. simpl. rewrite lookup_fmap. destruct (f_Examples f !! k); naive_solver.
Qed.
Lemma exported_plain s : exportable s → plain_doc (schemaToYAML s).
Proof.
  intros Hx. split; [done|..].
  - apply schemaInfoToYAML_plain.
  - intros p yf (f & Hf & _ & ->)%exported_field; [|done]. by apply (exported_field_plain s).
  - simpl. unfold protoValidationsToYAML. by apply Forall_fmap, Forall_true.
Qed.

Lemma plain_field_ok path f : plain_field f → fieldPath path = true → (∃ ft, yf_Type f = protoTypeToYAML ft) → field_ok path f.
Proof.
  intros [He Hc Hd Hx] Hp Ht. split; [done..|by rewrite He| | |].
  - intros c [-> _]%Hc. done.
  - intros d ->%Hd. done.
  - intros name e ->%Hx. done.
Qed.
Lemma exported_ok s : exportable s → schema_doc_ok (schemaToYAML s).
Proof.
  intros Hx. pose proof (exported_plain s Hx) as [He Hi Hf Hr].
  assert (∀ p, p ∈ dom (ys_Fields (schemaToYAML s)) ↔ p ∈ f_Path <$> ps_Fields s) as Hdom.
  { intros p. rewrite elem_of_dom, list_elem_of_fmap. unfold is_Some. setoid_rewrite (exported_field s); [|done]. naive_solver. }
  split; [done|right; by apply https_url_true, meta_schema_url|right; apply exported_id, Hx|by rewrite He| | |apply Hx| | | |].
  - intros i [-> _]%Hi. done.
  - intros i k [_ Hk]%Hi ->%Hk. done.
  - intros E. pose proof (xp_some _ Hx). destruct (ps_Fields s) as [|f l] eqn:El; [done|].
    assert (f_Path f ∈ dom (ys_Fields (schemaToYAML s))) as Hin by (apply Hdom; left).
    by rewrite E, dom_empty in Hin.
  - simpl. unfold protoValidationsToYAML. apply Forall_fmap. eapply Forall_impl; [apply (xp_rules _ Hx)|].
    intros v (? & ? & ?). by split.
  - intros t deps (e & Hin & <- & ->)%exported_dependents; [|done].
    destruct (proj1 (dependent_required_lint_exact _ _) (xp_dependents _ Hx) e Hin) as (Ht & Hnd & Hn & Hd).
    setoid_rewrite Hdom. rewrite merge_sort_Permutation. split_and!; [done..|]. intros d.
    rewrite merge_sort_Permutation. apply Hd.
  - intros p yf Hl. pose proof (Hf p yf Hl) as Hp. apply exported_field in Hl as (f & Hin & <- & ->); [|done].
    apply plain_field_ok; [done|by apply (xp_paths _ Hx)|by exists (f_Type f)].
Qed.

Lemma document_of_export s : exportable s → document_schema (schemaToYAML s) = reimported s.
Proof.
  intros Hx. unfold document_schema, reimported. simpl. rewrite rules_roundtrip, info_roundtrip. f_equal.
  - apply sort_on_unique; try apply _.
    + rewrite (foldl_insert_perm f_Path fieldToYAML _ (xp_NoDup _ Hx)), <-list_fmap_compose.
      apply Permutation_refl', list_fmap_ext. intros i f _. apply field_roundtrip.
    + rewrite <-list_fmap_compose. apply NoDup_fst_map_to_list.
  - apply sort_on_unique; try apply _.
    + unfold protoDependentRequiredToYAML.
      rewrite (foldl_insert_perm TriggerField (λ e, merge_sort String.le (DependentFields e)) _ (xp_triggers _ Hx)).
      rewrite <-list_fmap_compose. apply Permutation_refl', list_fmap_ext. intros i e _.
      cbn. unfold tidy_entry, read_dependents. cbn. by rewrite (merge_sort_idem String.le).
    + rewrite <-list_fmap_compose. apply NoDup_fst_map_to_list.
Qed.

Lemma schema_LatestVersion_v1 : LatestVersion = yamlSpecVersionV1.
Proof.
  unfold LatestVersion, SupportedVersions.
  assert ((map_range parsers).*1 = [yamlSpecVersionV1]) as ->; [|done].
  apply Permutation_singleton_r. rewrite map_range_perm. unfold parsers, Register.
  rewrite lookup_empty. simpl. by rewrite map_to_list_insert, map_to_list_empty.
Qed.

(** C28: The export of a schema that a document can express can be read back: for
    a schema whose name is a slug, which has at least one field, whose paths are
    distinct and follow the path grammar of documents, whose numeric bounds are
    not the negative zero, whose dependentRequired entries have distinct triggers
    and pass the import's check against the fields, and whose rules have a text,
    a message and a known severity (the record [exportable]), the document is
    accepted and carries the name, the descriptions, every field, the
    dependentRequired entries and the rules, in a fixed order. CreateSchema and
    UpdateSchema do not enforce all of this: they store paths whose export is
    refused ([SchemaFindings.export_not_importable]), which this does not cover.
    What a document cannot say is dropped: texts that are given but empty,
    constraints that constrain nothing. For fields without those the checksum is
    that of the exported schema, so that an import of the export finds nothing
    new. *)
Theorem schema_export_then_import s data :
  exportable s → MarshalSchemaAt s "" = Ok data →
  Dispatch data = Ok (reimported s)
  ∧ (Forall (λ f, tidy_field f = f) (ps_Fields s) →
     SchemaTypes.computeChecksum (ps_Fields (reimported s)) = SchemaTypes.computeChecksum (ps_Fields s)).
Proof.
  intros Hx E. unfold MarshalSchemaAt in E. rewrite bool_decide_eq_true_2 in E by done.
  rewrite schema_LatestVersion_v1, schema_parsers_lookup, decide_True in E by done.
  destruct (sy_reads_back _ _ E (exported_plain s Hx)) as [Hh Hu]. split.
  - apply Dispatch_Ok. exists (schemaToYAML s). split_and!; [done..|by apply exported_ok|].
    by rewrite document_of_export.
  - intros Ht. simpl. rewrite (list_fmap_ext _ id), list_fmap_id.
    + apply computeChecksum_perm; [by rewrite sort_on_perm|]. rewrite sort_on_perm. apply Hx.
    + intros i f Hf. by rewrite (Forall_lookup_1 _ _ _ _ Ht Hf).
Qed.
End exports.
