(* ===== verification/CelLint.v ===== *)
(** * The lint of validation rules ([internal/schema/cel/lint.go], [lint_types.go], [env.go])

    What an import checks of the CEL rules of a schema: that a rule compiles,
    that it names fields of the schema, that no native constraint says the same,
    and that its operands have types its operators take. Parsing and checking
    belong to cel-go and are a parameter, [CelParser]; the tree they produce is
    the type [Expr]. A text under construction is kept like a message, as its
    format and arguments. *)
From S2P Require Import Prelude GoText GoFloat Domain CrossField SchemaTypes.
From Stdlib Require Import Ascii.

(** ** Expressions (cel-go, [common/ast]) *)

(** The values of literals. *)
Inductive Val :=
| VNull | VBool (b : bool) | VInt (z : Z) | VUint (z : Z) | VDouble (x : float64)
| VString (s : string) | VBytes (s : string).

(** A call of a member function has a target. *)
Inductive Expr :=
| Unspecified
| Literal (v : Val)
| Ident (name : string)
| Select (operand : Expr) (field : string) (testOnly : bool)
| Call (fn : string) (target : option Expr) (args : list Expr)
| ListExpr (elements : list Expr)
| MapExpr (entries : list (Expr * Expr))
| StructExpr (typeName : string) (fields : list (string * Expr))
| Comprehension (iterRange accuInit loopCondition loopStep result : Expr).

(** [BuildEnv]: the environment with the variables [self] and [tenant], as the
    function that compiles a rule in it. *)
Class CelParser := BuildEnv : result error (string → result error Expr).

(** ** Types of the environment ([cel.Type]) *)
Inductive celType :=
| DynType | IntType | UintType | DoubleType | StringType | BoolType | BytesType | DurationType | TimestampType.
Global Instance celType_eq_dec : EqDecision celType.
Proof. solve_decision. Defined.

Module CelLint.

Definition celTypeFor (ft : pbFieldType) : celType :=
  match ft with
  | FIELD_TYPE_INT => IntType
  | FIELD_TYPE_NUMBER => DoubleType
  | FIELD_TYPE_STRING | FIELD_TYPE_URL => StringType
  | FIELD_TYPE_BOOL => BoolType
  | FIELD_TYPE_TIME => TimestampType
  | FIELD_TYPE_DURATION => DurationType
  | FIELD_TYPE_JSON | FIELD_TYPE_UNSPECIFIED => DynType
  end.
Definition selfDescriptor (fields : list pbSchemaField) : gmap string celType :=
  foldl (λ m f, <[f_Path f := celTypeFor (f_Type f)]> m) ∅ fields.

(** ** Paths *)
(** [strings.Join]. *)
Fixpoint join_with (sep : string) (l : list string) : string :=
  match l with
  | [] => ""
  | [s] => s
  | s :: l => s +:+ sep +:+ join_with sep l
  end.
Definition dotted : list string → string := join_with ".".

(** The proper prefixes of a path, by segments. *)
Definition prefixes (p : string) : list string :=
  let segments := Split "."%char p in
  (λ i, dotted (take i segments)) <$> seq 1 (length segments - 1).
Definition buildPathSets (fields : list pbSchemaField) : gset string * gset string :=
  foldl (λ sets f, ({[f_Path f]} ∪ sets.1, list_to_set (prefixes (f_Path f)) ∪ sets.2)) (∅, ∅) fields.

Fixpoint selfChainOf (e : Expr) : option (list string) :=
  match e with
  | Select operand field _ => base ← selfChainOf operand; Some (base ++ [field])
  | Call fn _ [operand; idx] =>
      if bool_decide (fn = "_[_]") then
        base ← selfChainOf operand;
        match idx with
        | Literal (VString s) => Some (base ++ [s])
        | _ => None
        end
      else None
  | Ident name => if bool_decide (name = "self") then Some [] else None
  | _ => None
  end.
Definition singleSelfChain (e : Expr) : option (list string) :=
  match selfChainOf e with
  | Some [] | None => None
  | Some chain => Some chain
  end.

(** The expressions [visit] calls its function on, in its order. *)
Fixpoint visit (e : Expr) : list Expr :=
  let all := fix all l := match l with [] => [] | e :: l => visit e ++ all l end in
  e :: match e with
       | Call _ target args => match target with Some t => visit t | None => [] end ++ all args
       | Select operand _ _ => visit operand
       | ListExpr elements => all elements
       | MapExpr entries =>
           (fix pairs l := match l with [] => [] | (k, v) :: l => visit k ++ visit v ++ pairs l end) entries
       | StructExpr _ fields =>
           (fix values l := match l with [] => [] | (_, v) :: l => visit v ++ values l end) fields
       | Comprehension r a c s x => visit r ++ visit a ++ visit c ++ visit s ++ visit x
       | _ => []
       end.

(** Of the chains with one key the first is kept. *)
Fixpoint dedupe (seen : gset string) (chains : list (list string)) : list (list string) :=
  match chains with
  | [] => []
  | c :: chains =>
      let key := join_with (String "000" "") c in
      if bool_decide (key ∈ seen) then dedupe seen chains else c :: dedupe ({[key]} ∪ seen) chains
  end.
Definition by_dotted (a b : list string) : bool := bool_decide (dotted a ≠ dotted b ∧ String.le (dotted a) (dotted b)).
Definition collectSelfChains `{SortSlice} (root : Expr) : list (list string) :=
  sort_slice by_dotted (dedupe ∅ (omap singleSelfChain (visit root))).

(** ** Rules a native constraint can express *)
Definition literalString (v : Val) : error :=
  match v with
  | VString s => Errorf "%q" [AStr s]
  | VBool b => Errorf "%t" [AStr (FormatBool b)]
  | VInt z | VUint z => Errorf "%v" [AInt z]
  | VDouble x => Errorf "%v" [AFloat x]
  | VBytes s => Errorf "%v" [AStrs ((λ c, itoa (byte_val c)) <$> String.list_ascii_of_string s)]
  | VNull => Errorf "%v" [AStr "NULL_VALUE"]
  end.
Definition constLiteral (e : Expr) : option error :=
  match e with Literal v => Some (literalString v) | _ => None end.
Definition is_comparison (fn : string) : bool := bool_decide (fn ∈ ["_<_"; "_<=_"; "_>_"; "_>=_"]).

Definition flipOp (fn : string) : string :=
  if bool_decide (fn = "_<_") then "_>_"
  else if bool_decide (fn = "_<=_") then "_>=_"
  else if bool_decide (fn = "_>_") then "_<_"
  else if bool_decide (fn = "_>=_") then "_<=_"
  else fn.
Definition comparisonSuggestion (fn : string) (literal : error) (flipped : bool) : error :=
  let op := if flipped then flipOp fn else fn in
  if bool_decide (op = "_>_") then Errorf "use exclusiveMinimum: %s on the field" [AErr literal]
  else if bool_decide (op = "_>=_") then Errorf "use minimum: %s on the field" [AErr literal]
  else if bool_decide (op = "_<_") then Errorf "use exclusiveMaximum: %s on the field" [AErr literal]
  else if bool_decide (op = "_<=_") then Errorf "use maximum: %s on the field" [AErr literal]
  else Errorf "use a native bound on the field" [].

(** A field and a literal, on either side: [equalityComponents], and
    [boundComponents] once the operator is known to compare. *)
Definition equalityComponents (a b : Expr) : option (list string * error) :=
  match singleSelfChain a, constLiteral b with
  | Some c, Some lit => Some (c, lit)
  | _, _ =>
      match singleSelfChain b, constLiteral a with
      | Some c, Some lit => Some (c, lit)
      | _, _ => None
      end
  end.
Definition suggestComparisonAgainstLiteral (fn : string) (args : list Expr) : option error :=
  match args with
  | [a; b] =>
      match singleSelfChain a, constLiteral b with
      | Some _, Some lit => Some (comparisonSuggestion fn lit false)
      | _, _ =>
          match singleSelfChain b, constLiteral a with
          | Some _, Some lit => Some (comparisonSuggestion fn lit true)
          | _, _ => None
          end
      end
  | _ => None
  end.
Definition suggestEqualityLiteral (args : list Expr) : option error :=
  match args with
  | [a; b] => '(_, lit) ← equalityComponents a b; Some (Errorf "use enum: [%s] on the field" [AErr lit])
  | _ => None
  end.

(** [path] and [values] so far; [None] is the result false. *)
Fixpoint collectEqualityLeaves (e : Expr) (path : string) (values : list error) : option (string * list error) :=
  match e with
  | Call fn _ [a; b] =>
      if bool_decide (fn = "_||_") then
        '(path, values) ← collectEqualityLeaves a path values;
        collectEqualityLeaves b path values
      else if bool_decide (fn = "_==_") then
        '(chain, lit) ← equalityComponents a b;
        let got := dotted chain in
        if negb (bool_decide (path = "")) && negb (bool_decide (path = got)) then None
        else Some (got, values ++ [lit])
      else None
  | _ => None
  end.
(** A format for that many texts with commas between. *)
Definition comma_format (n : nat) : string := join_with ", " (replicate n "%s").
Definition suggestEnumChain (args : list Expr) : option error :=
  match args with
  | [a; b] =>
      '(path, values) ← collectEqualityLeaves a "" [];
      '(path, values) ← collectEqualityLeaves b path values;
      if bool_decide (path = "") || (length values <? 2)%nat then None
      else Some (Errorf "use enum: [%s] on field %s" [AErr (Errorf (comma_format (length values)) (AErr <$> values)); AStr path])
  | _ => None
  end.

Definition hasSelf (e : Expr) : option string :=
  match e with
  | Select _ _ true => chain ← singleSelfChain e; Some (dotted chain)
  | _ => None
  end.
Definition negatedHasSelf (e : Expr) : option string :=
  match e with
  | Call fn _ [a] => if bool_decide (fn = "!_") then hasSelf a else None
  | _ => None
  end.
Definition suggestDependentRequiredImplication (args : list Expr) : option error :=
  match args with
  | [a; b] =>
      trigger ← negatedHasSelf a;
      dependent ← hasSelf b;
      Some (Errorf "use dependentRequired: { %s: [%s] }" [AStr trigger; AStr dependent])
  | _ => None
  end.

Definition boundComponents (e : Expr) : option (list string * error) :=
  match e with
  | Call fn _ [a; b] => if is_comparison fn then equalityComponents a b else None
  | _ => None
  end.
Definition suggestBoundedRange (args : list Expr) : option error :=
  match args with
  | [a; b] =>
      '(leftChain, leftLit) ← boundComponents a;
      '(rightChain, rightLit) ← boundComponents b;
      if bool_decide (dotted leftChain = dotted rightChain)
      then Some (Errorf "use minimum: %s and maximum: %s on field %s" [AErr leftLit; AErr rightLit; AStr (dotted leftChain)])
      else None
  | _ => None
  end.

Definition patternSubstitutable (root : Expr) : option error :=
  match root with
  | Call fn _ args =>
      if is_comparison fn then suggestComparisonAgainstLiteral fn args
      else if bool_decide (fn = "_==_") then suggestEqualityLiteral args
      else if bool_decide (fn = "_||_") then
        match suggestEnumChain args with
        | Some s => Some s
        | None => suggestDependentRequiredImplication args
        end
      else if bool_decide (fn = "_&&_") then suggestBoundedRange args
      else None
  | _ => None
  end.

(** ** Types of operands *)
(** The scalar types the check reasons about. *)
Definition isConcrete (t : celType) : bool := match t with DynType => false | _ => true end.
Definition isNumeric (t : celType) : bool :=
  match t with IntType | UintType | DoubleType => true | _ => false end.
Definition isTemporal (t : celType) : bool :=
  match t with DurationType | TimestampType => true | _ => false end.

Definition comparableMismatch (l r : celType) : bool :=
  if negb (isConcrete l) || negb (isConcrete r) then false
  else if isNumeric l && isNumeric r then false
  else if negb (bool_decide (l = r)) then true
  else match l with
       | StringType | BytesType | DurationType | TimestampType => false
       | _ => true
       end.
Definition arithMismatch (l r : celType) (isPlus : bool) : bool :=
  if negb (isConcrete l) || negb (isConcrete r) then false
  else if isTemporal l || isTemporal r then false
  else if isNumeric l && isNumeric r then false
  else if isPlus && bool_decide (l = StringType) && bool_decide (r = StringType) then false
  else if isPlus && bool_decide (l = BytesType) && bool_decide (r = BytesType) then false
  else true.
Definition arithResult (l r : celType) : celType :=
  if isNumeric l && isNumeric r then
    if bool_decide (l = DoubleType) || bool_decide (r = DoubleType) then DoubleType
    else if bool_decide (l = UintType) && bool_decide (r = UintType) then UintType
    else IntType
  else DynType.
Definition join (a b : celType) : celType := if bool_decide (a = b) then a else DynType.

Definition literalType (v : Val) : celType :=
  match v with
  | VInt _ => IntType
  | VUint _ => UintType
  | VDouble _ => DoubleType
  | VString _ => StringType
  | VBool _ => BoolType
  | VBytes _ => BytesType
  | VNull => DynType
  end.
Definition kindName (t : celType) : string :=
  match t with
  | DynType => "dyn"
  | IntType => "int"
  | UintType => "uint"
  | DoubleType => "double"
  | StringType => "string"
  | BoolType => "bool"
  | BytesType => "bytes"
  | DurationType => "google.protobuf.Duration"
  | TimestampType => "google.protobuf.Timestamp"
  end.
Definition describe (e : Expr) (t : celType) : string :=
  match singleSelfChain e with
  | Some chain => "self." +:+ dotted chain +:+ " (" +:+ kindName t +:+ ")"
  | None => kindName t
  end.

(** [strings.Trim(s, "_")] *)
Fixpoint drop_underscores (l : list ascii) : list ascii :=
  match l with "_"%char :: l => drop_underscores l | _ => l end.
Definition trim_underscores (s : string) : string :=
  String.string_of_list_ascii (reverse (drop_underscores (reverse (drop_underscores (String.list_ascii_of_string s))))).

(** A type and the errors reported on the way to it. *)
Definition inferred := (celType * list error)%type.
(** The parser gives every operator its operands; Go would panic without. *)
Definition arg_at (args : list Expr) (i : nat) : Expr := nth i args Unspecified.
Definition res_at (results : list inferred) (i : nat) : inferred := nth i results (DynType, []).

Definition report (b : bool) (e : error) : list error := if b then [e] else [].
(** An operand that must be a boolean. *)
Definition must_be_bool (format : string) (e : Expr) (r : inferred) : list error :=
  r.2 ++ report (isConcrete r.1 && negb (bool_decide (r.1 = BoolType))) (Errorf format [AStr (describe e r.1)]).

(** [inferCall], given what is inferred for the target and the arguments. *)
Definition inferCall (fn : string) (target : option (Expr * inferred)) (args : list Expr) (results : list inferred) : inferred :=
  match target with
  | Some (t, recv) =>
      let errs := recv.2 ++ concat results.*2 in
      if bool_decide (fn ∈ ["startsWith"; "endsWith"; "matches"]) then
        (BoolType, errs ++ report (isConcrete recv.1 && negb (bool_decide (recv.1 = StringType)))
                             (Errorf "%s() requires a string receiver, got %s" [AStr fn; AStr (describe t recv.1)]))
      else (DynType, errs)
  | None =>
      let a := arg_at args 0 in let b := arg_at args 1 in
      let l := res_at results 0 in let r := res_at results 1 in
      if is_comparison fn then
        (BoolType, l.2 ++ r.2 ++ report (comparableMismatch l.1 r.1)
                                   (Errorf "cannot order %s with %s" [AStr (describe a l.1); AStr (describe b r.1)]))
      else if bool_decide (fn ∈ ["_==_"; "_!=_"]) then (BoolType, l.2 ++ r.2)
      else if bool_decide (fn ∈ ["_&&_"; "_||_"]) then
        (BoolType, concat (zip_with (must_be_bool "logical operand must be bool, got %s") args results))
      else if bool_decide (fn = "!_") then (BoolType, must_be_bool "logical operand must be bool, got %s" a l)
      else if bool_decide (fn = "_?_:_") then
        let x := res_at results 2 in
        (join r.1 x.1, must_be_bool "ternary condition must be bool, got %s" a l ++ r.2 ++ x.2)
      else if bool_decide (fn = "_+_") then
        (arithResult l.1 r.1, l.2 ++ r.2 ++ report (arithMismatch l.1 r.1 true)
           (Errorf "cannot add %s and %s" [AStr (describe a l.1); AStr (describe b r.1)]))
      else if bool_decide (fn ∈ ["_-_"; "_*_"; "_/_"; "_%_"]) then
        (arithResult l.1 r.1, l.2 ++ r.2 ++ report (arithMismatch l.1 r.1 false)
           (Errorf "cannot apply %s to %s and %s" [AStr (trim_underscores fn); AStr (describe a l.1); AStr (describe b r.1)]))
      else if bool_decide (fn = "-_") then
        (l.1, l.2 ++ report (isConcrete l.1 && negb (isNumeric l.1)) (Errorf "cannot negate %s" [AStr (describe a l.1)]))
      else (DynType, concat results.*2)
  end.

Fixpoint inferType (leaves : gmap string celType) (e : Expr) : inferred :=
  let infer := inferType leaves in
  let all := fix all l := match l with [] => [] | e :: l => infer e :: all l end in
  match e with
  | Literal v => (literalType v, [])
  | Select operand _ testOnly =>
      if testOnly then (BoolType, [])
      else
        match singleSelfChain e with
        | Some chain => (default DynType (leaves !! dotted chain), [])
        | None =>
            match operand with
            | Ident name => if bool_decide (name = "tenant") then (StringType, []) else (DynType, [])
            | _ => (DynType, (infer operand).2)
            end
        end
  | Call fn target args =>
      inferCall fn (match target with Some t => Some (t, infer t) | None => None end) args (all args)
  | Comprehension r _ c s x => (DynType, (infer r).2 ++ (infer c).2 ++ (infer s).2 ++ (infer x).2)
  | ListExpr elements => (DynType, concat (all elements).*2)
  | MapExpr entries =>
      (DynType, (fix pairs l := match l with [] => [] | (k, v) :: l => (infer k).2 ++ (infer v).2 ++ pairs l end) entries)
  | Unspecified | Ident _ | StructExpr _ _ => (DynType, [])
  end.
Definition checkRuleTypes (root : Expr) (leaves : gmap string celType) : list error := (inferType leaves root).2.

(** ** The lint *)
(** [errors.Join]: nil when there is no error. *)
Definition errors_Join (errs : list error) : result error unit := match errs with [] => Ok tt | _ => Err (Join errs) end.

Section lint.
Context `{SortSlice}.

Definition unresolved (leaves parents : gset string) (chain : list string) : list error :=
  let path := dotted chain in
  if bool_decide (path ∈ leaves) || bool_decide (path ∈ parents) then []
  else [Errorf "self.%s does not resolve to a declared field" [AStr path]].

Definition lintOne (compile : string → result error Expr) (leaves parents : gset string) (leafTypes : gmap string celType)
    (r : Cel.ValidationRule) : result error unit :=
  let? root := compile (Cel.rule_Rule r) in
  match collectSelfChains root with
  | [] => Err (Errorf "rule must reference at least one self.* field" [])
  | chains =>
      errors_Join
        (concat (unresolved leaves parents <$> chains)
         ++ match patternSubstitutable root with
            | Some suggestion => [Errorf "rule is expressible with a native constraint — %s" [AErr suggestion]]
            | None => []
            end
         ++ checkRuleTypes root leafTypes)
  end.

Fixpoint lint_rules (lint : Cel.ValidationRule → result error unit) (i : Z) (rules : list Cel.ValidationRule) : list error :=
  match rules with
  | [] => []
  | r :: rules =>
      match lint r with
      | Ok _ => lint_rules lint (i + 1) rules
      | Err e => Errorf "validations[%d]: %w" [AInt i; AErr e] :: lint_rules lint (i + 1) rules
      end
  end.
End lint.
End CelLint.

Definition LintValidations `{SortSlice, CelParser} (rules : list Cel.ValidationRule) (fields : list pbSchemaField) : result error unit :=
  match rules with
  | [] => Ok tt
  | _ =>
      match BuildEnv with
      | Err e => Err (Wrap "build CEL env" e)
      | Ok compile =>
          let '(leaves, parents) := CelLint.buildPathSets fields in
          CelLint.errors_Join (CelLint.lint_rules (CelLint.lintOne compile leaves parents (CelLint.selfDescriptor fields)) 0 rules)
      end
  end.
