(* ===== verification/CelLintSpec.v ===== *)
(** * What the lint of validation rules asks, said without its code

    The parts of an expression, the paths of [self] in it, the shapes a native
    constraint can express and the typing rules of operators, as relations on
    expressions; and that the functions of the lint decide them. *)
From S2P Require Import Prelude GoText GoFloat Domain CrossField SchemaTypes CelLint.
From Stdlib Require Import Ascii.
Import CelLint.

Lemma list_elem_of_concat {A} (x : A) ls : x ∈ concat ls ↔ ∃ l, l ∈ ls ∧ x ∈ l.
Proof. rewrite list_elem_of_In, in_concat. setoid_rewrite list_elem_of_In. done. Qed.

(** ** Expressions *)
Section expr_ind.
Context (P : Expr → Prop).
Hypothesis HUnspecified : P Unspecified.
Hypothesis HLiteral : ∀ v, P (Literal v).
Hypothesis HIdent : ∀ name, P (Ident name).
Hypothesis HSelect : ∀ operand field testOnly, P operand → P (Select operand field testOnly).
Hypothesis HCall : ∀ fn target args, (∀ t, target = Some t → P t) → Forall P args → P (Call fn target args).
Hypothesis HList : ∀ elements, Forall P elements → P (ListExpr elements).
Hypothesis HMap : ∀ entries, Forall (λ p, P p.1 ∧ P p.2) entries → P (MapExpr entries).
Hypothesis HStruct : ∀ name fields, Forall (λ p, P p.2) fields → P (StructExpr name fields).
Hypothesis HComprehension : ∀ r a c s x, P r → P a → P c → P s → P x → P (Comprehension r a c s x).

Fixpoint Expr_rect_nested (e : Expr) : P e :=
  let all := fix all l : Forall P l :=
    match l with [] => List.Forall_nil _ | e :: l => List.Forall_cons _ _ _ (Expr_rect_nested e) (all l) end in
  match e with
  | Unspecified => HUnspecified
  | Literal v => HLiteral v
  | Ident name => HIdent name
  | Select o f b => HSelect o f b (Expr_rect_nested o)
  | Call fn target args =>
      HCall fn target args
        (match target as o return ∀ t, o = Some t → P t with
         | Some x => λ t E, eq_rect x P (Expr_rect_nested x) t (f_equal (default x) E)
         | None => λ t E, False_ind _ (eq_ind None (λ o, match o with None => True | Some _ => False end) I _ E)
         end) (all args)
  | ListExpr elements => HList elements (all elements)
  | MapExpr entries =>
      HMap entries ((fix pairs l : Forall (λ p, P p.1 ∧ P p.2) l :=
        match l with
        | [] => List.Forall_nil _
        | p :: l => List.Forall_cons _ _ _
            (match p as q return P q.1 ∧ P q.2 with (k, v) => conj (Expr_rect_nested k) (Expr_rect_nested v) end) (pairs l)
        end) entries)
  | StructExpr name fields =>
      HStruct name fields ((fix values l : Forall (λ p, P p.2) l :=
        match l with
        | [] => List.Forall_nil _
        | p :: l => List.Forall_cons _ _ _ (match p as q return P q.2 with (_, v) => Expr_rect_nested v end) (values l)
        end) fields)
  | Comprehension r a c s x =>
      HComprehension r a c s x (Expr_rect_nested r) (Expr_rect_nested a) (Expr_rect_nested c) (Expr_rect_nested s) (Expr_rect_nested x)
  end.
End expr_ind.

(** The parts of an expression, and all that occur in it. *)
Definition children (e : Expr) : list Expr :=
  match e with
  | Call _ target args => option_list target ++ args
  | Select operand _ _ => [operand]
  | ListExpr elements => elements
  | MapExpr entries => concat ((λ p, [p.1; p.2]) <$> entries)
  | StructExpr _ fields => fields.*2
  | Comprehension r a c s x => [r; a; c; s; x]
  | Unspecified | Literal _ | Ident _ => []
  end.
Inductive occurs : Expr → Expr → Prop :=
| occurs_here e : occurs e e
| occurs_in e e1 e' : e1 ∈ children e → occurs e' e1 → occurs e' e.

Lemma visit_children e : visit e = e :: concat (visit <$> children e).
Proof.
  destruct e as [| | | |fn target args|l|l|name l|]; try done; cbn.
  - f_equal. by rewrite app_nil_r.
  - f_equal. rewrite fmap_app, concat_app. f_equal; [destruct target; cbn; by rewrite ?app_nil_r|].
    induction args as [|a args IH]; [done|]. cbn. by rewrite IH.
  - f_equal. induction l as [|a l IH]; [done|]. cbn. by rewrite IH.
  - f_equal. induction l as [|[k v] l IH]; [done|]. cbn. by rewrite IH.
  - f_equal. induction l as [|[k v] l IH]; [done|]. cbn. by rewrite IH.
  - by rewrite app_nil_r.
Qed.
Lemma children_ind (P : Expr → Prop) : (∀ e, (∀ e', e' ∈ children e → P e') → P e) → ∀ e, P e.
Proof.
  intros HP e. induction e as [| | |o f b IH|fn target args IHt IHa|l IH|l IH|name l IH|r a c s x IHr IHa IHc IHs IHx]
    using Expr_rect_nested; apply HP; cbn; intros e' He.
  1-3: by apply not_elem_of_nil in He.
  - by apply list_elem_of_singleton in He as ->.
  - apply elem_of_app in He as [He|He]; [|by eapply Forall_forall in IHa].
    destruct target as [t|]; [|by apply not_elem_of_nil in He]. apply list_elem_of_singleton in He as ->. by apply IHt.
  - by eapply Forall_forall in IH.
  - apply list_elem_of_concat in He as (l' & Hl' & He). rewrite Forall_forall in IH.
    apply list_elem_of_fmap in Hl' as ([k v] & -> & Hp). destruct (IH _ Hp). set_solver.
  - apply list_elem_of_fmap in He as ([k v] & -> & Hp). rewrite Forall_forall in IH. by apply (IH _ Hp).
  - set_solver.
Qed.
Lemma elem_of_visit e e' : e' ∈ visit e ↔ occurs e' e.
Proof.
  revert e. refine (children_ind _ _). intros e IH. rewrite visit_children, elem_of_cons, list_elem_of_concat. split.
  - intros [->|(l & Hl & He)]; [constructor|]. apply list_elem_of_fmap in Hl as (e1 & -> & H1).
    apply (occurs_in _ e1); [done|by apply IH].
  - intros Ho. inversion Ho as [|? e1 ? H1 Ho']; subst; [by left|]. right. exists (visit e1).
    split; [by apply list_elem_of_fmap_2|by apply IH].
Qed.

(** ** Paths of [self]

    [self] itself, a field of a path (also under [has]), and a path indexed by a
    constant text. *)
Inductive self_path : Expr → list string → Prop :=
| sp_self : self_path (Ident "self") []
| sp_field operand p field testOnly : self_path operand p → self_path (Select operand field testOnly) (p ++ [field])
| sp_index target operand p s : self_path operand p → self_path (Call "_[_]" target [operand; Literal (VString s)]) (p ++ [s]).
Definition field_path (e : Expr) (p : list string) : Prop := self_path e p ∧ p ≠ [].

Lemma selfChainOf_path e p : selfChainOf e = Some p ↔ self_path e p.
Proof.
  revert p. pattern e. revert e. refine (children_ind _ _). intros e IH p.
  destruct e as [| |name|operand field b|fn target args| | | |]; cbn [selfChainOf]; try (split; [done|]; intros Hs; by inversion Hs).
  - case_bool_decide as Hn; (split; [|intros Hs; inversion Hs; by subst]); [intros [= <-]; subst; constructor|done].
  - split.
    + intros (base & Hb & [= <-])%bind_Some. constructor. apply IH; [by left|done].
    + intros Hs. inversion Hs as [|? base ? ? Ho|]; subst. apply bind_Some. exists base. split; [|done]. apply IH; [by left|done].
  - split.
    + destruct args as [|operand [|idx [|]]]; try done. case_bool_decide as Hfn; [|done]. subst fn.
      intros (base & Hb & E)%bind_Some. destruct idx as [|v| | | | | | |]; try done. destruct v; try done. injection E as <-.
      constructor. apply IH; [|done]. cbn. set_solver.
    + intros Hs. inversion Hs as [| |? operand base str Ho]; subst. rewrite bool_decide_eq_true_2 by done.
      apply bind_Some. exists base. split; [|done]. apply IH; [|done]. cbn. set_solver.
Qed.
Lemma singleSelfChain_path e p : singleSelfChain e = Some p ↔ field_path e p.
Proof.
  unfold field_path. rewrite <-selfChainOf_path. unfold singleSelfChain. destruct (selfChainOf e) as [[]|]; naive_solver.
Qed.
Lemma singleSelfChain_None e : singleSelfChain e = None ↔ ∀ p, ¬ field_path e p.
Proof.
  setoid_rewrite <-singleSelfChain_path. destruct (singleSelfChain e) as [p|]; [|naive_solver]. split; [done|]. intros Hn. by destruct (Hn p).
Qed.
Lemma field_path_det e p q : field_path e p → field_path e q → p = q.
Proof. rewrite <-!singleSelfChain_path. congruence. Qed.

(** ** Shapes of native constraints *)

(** A path of [self] on one side and a literal on the other. *)
Definition against_literal (a b : Expr) (p : list string) : Prop :=
  (field_path a p ∧ ∃ v, b = Literal v) ∨ (field_path b p ∧ ∃ v, a = Literal v).
(** A bound on a path: minimum, maximum and the exclusive ones. *)
Inductive bound_on (path : string) : Expr → Prop :=
| bound_on_intro op target a b p :
    op ∈ ["_<_"; "_<=_"; "_>_"; "_>=_"] → against_literal a b p → dotted p = path → bound_on path (Call op target [a; b]).
(** A path that is one of some literals: enum. *)
Inductive one_of_literals (path : string) : Expr → Prop :=
| one_literal target a b p : against_literal a b p → dotted p = path → one_of_literals path (Call "_==_" target [a; b])
| more_literals target a b : one_of_literals path a → one_of_literals path b → one_of_literals path (Call "_||_" target [a; b]).
(** [has] of a path of [self]. *)
Inductive presence : Expr → Prop :=
| presence_intro operand field p : field_path (Select operand field true) p → presence (Select operand field true).

Inductive native_shape : Expr → Prop :=
| native_bound path e : bound_on path e → native_shape e
| native_enum path e : one_of_literals path e → native_shape e
| native_range path target a b : bound_on path a → bound_on path b → native_shape (Call "_&&_" target [a; b])
| native_requires target target' a b :
    presence a → presence b → native_shape (Call "_||_" target [Call "!_" target' [a]; b]).

Lemma constLiteral_is e lit : constLiteral e = Some lit ↔ ∃ v, e = Literal v ∧ lit = literalString v.
Proof. destruct e; naive_solver. Qed.
Lemma literal_no_path v p : ¬ field_path (Literal v) p.
Proof. intros [Hs _]. inversion Hs. Qed.
Lemma equalityComponents_Some a b chain lit : equalityComponents a b = Some (chain, lit) →
  singleSelfChain a = Some chain ∧ constLiteral b = Some lit ∨ singleSelfChain b = Some chain ∧ constLiteral a = Some lit.
Proof.
  unfold equalityComponents. destruct (singleSelfChain a), (constLiteral b), (singleSelfChain b), (constLiteral a); naive_solver.
Qed.
Lemma equalityComponents_against a b p lit : equalityComponents a b = Some (p, lit) → against_literal a b p.
Proof.
  intros [[Hp Hl]|[Hp Hl]]%equalityComponents_Some; apply singleSelfChain_path in Hp;
    apply constLiteral_is in Hl as (v & Hv & _); [left|right]; eauto.
Qed.
Lemma against_equalityComponents a b p : against_literal a b p → ∃ lit, equalityComponents a b = Some (p, lit).
Proof.
  unfold equalityComponents. intros [[Hp [v ->]]|[Hp [v ->]]]; apply singleSelfChain_path in Hp; rewrite Hp.
  - by eexists.
  - cbn. eauto.
Qed.
Lemma suggestComparison_is fn a b :
  is_Some (suggestComparisonAgainstLiteral fn [a; b]) ↔ ∃ p, against_literal a b p.
Proof.
  transitivity (is_Some (equalityComponents a b)).
  - unfold suggestComparisonAgainstLiteral, equalityComponents.
    destruct (singleSelfChain a), (constLiteral b), (singleSelfChain b), (constLiteral a); naive_solver.
  - split; [intros [[p lit] E]; eauto using equalityComponents_against|].
    intros [p [lit E]%against_equalityComponents]. eauto.
Qed.

(** No path of the rule is the empty text. *)
Definition named_paths (e : Expr) : Prop := ∀ e' p, occurs e' e → field_path e' p → dotted p ≠ "".
Lemma named_paths_in e e' : named_paths e → e' ∈ children e → named_paths e'.
Proof. intros Hn He e1 p Ho. apply Hn. by apply (occurs_in _ e'). Qed.
Lemma against_named fn target a b p : named_paths (Call fn target [a; b]) → against_literal a b p → dotted p ≠ "".
Proof.
  intros Hn [[Hp _]|[Hp _]]; (eapply Hn; [|exact Hp]); (eapply occurs_in; [|constructor]); cbn; set_solver.
Qed.

Lemma leaves_literals e path values path' values' :
  named_paths e → collectEqualityLeaves e path values = Some (path', values') →
  one_of_literals path' e ∧ (path = "" ∨ path = path') ∧ path' ≠ "" ∧ (length values < length values')%nat.
Proof.
  revert path values path' values'. pattern e. revert e. refine (children_ind _ _).
  intros e IH path values path' values' Hn E.
  destruct e as [| | | |fn target args| | | |]; try done. destruct args as [|a [|b [|]]]; try done.
  cbn [collectEqualityLeaves] in E. case_bool_decide as Hor; [|case_bool_decide as Heq; [|done]]; subst fn.
  - apply bind_Some in E as ([path1 values1] & E1 & E2).
    assert (a ∈ children (Call "_||_" target [a; b]) ∧ b ∈ children (Call "_||_" target [a; b])) as [Ha Hb] by (cbn; set_solver).
    destruct (IH a Ha _ _ _ _ (named_paths_in _ _ Hn Ha) E1) as (R1 & P1 & N1 & L1).
    destruct (IH b Hb _ _ _ _ (named_paths_in _ _ Hn Hb) E2) as (R2 & [->| ->] & N2 & L2); [done|].
    split_and!; [by constructor|done..|lia].
  - apply bind_Some in E as ([chain lit] & Ec & E). apply equalityComponents_against in Ec.
    destruct (negb _ && negb _) eqn:Hb; [done|]. injection E as <- <-.
    rewrite andb_false_iff, !negb_false_iff, !bool_decide_eq_true in Hb.
    split_and!; [by econstructor|naive_solver|by eapply against_named|rewrite length_app; cbn; lia].
Qed.
Lemma literals_leaves q e : one_of_literals q e → ∀ path values, path = "" ∨ path = q →
  ∃ more, collectEqualityLeaves e path values = Some (q, values ++ more) ∧ more ≠ [].
Proof.
  induction 1 as [target a b p Ha Hq|target a b _ IHa _ IHb]; intros path values Hp; cbn [collectEqualityLeaves].
  - rewrite bool_decide_eq_false_2, bool_decide_eq_true_2 by done.
    destruct (against_equalityComponents _ _ _ Ha) as [lit ->]. cbn. exists [lit]. rewrite Hq.
    replace (negb _ && negb _) with false; [done|]. symmetry.
    rewrite andb_false_iff, !negb_false_iff, !bool_decide_eq_true. naive_solver.
  - rewrite bool_decide_eq_true_2 by done. destruct (IHa path values Hp) as (m1 & -> & H1). cbn.
    destruct (IHb q (values ++ m1) (or_intror eq_refl)) as (m2 & -> & H2). exists (m1 ++ m2).
    rewrite app_assoc. split; [done|]. by destruct m1.
Qed.
Lemma enumChain_is target a b : named_paths (Call "_||_" target [a; b]) →
  is_Some (suggestEnumChain [a; b]) ↔ ∃ path, one_of_literals path (Call "_||_" target [a; b]).
Proof.
  intros Hn. assert (named_paths a ∧ named_paths b) as [Na Nb] by (split; apply (named_paths_in _ _ Hn); cbn; set_solver).
  cbn [suggestEnumChain]. split.
  - intros [s ([p1 v1] & E1 & ([p2 v2] & E2 & _)%bind_Some)%bind_Some].
    destruct (leaves_literals _ _ _ _ _ Na E1) as (R1 & _ & N1 & _).
    destruct (leaves_literals _ _ _ _ _ Nb E2) as (R2 & [->| ->] & _); [done|]. exists p2. by constructor.
  - intros [path Hone]. inversion Hone as [|? ? ? Ha Hb]; subst.
    destruct (literals_leaves _ _ Ha "" [] (or_introl eq_refl)) as (m1 & E1 & H1). rewrite E1. cbn.
    destruct (literals_leaves _ _ Hb path m1 (or_intror eq_refl)) as (m2 & E2 & H2). rewrite E2. cbn.
    assert (path ≠ "") as Hne by (by apply (leaves_literals _ _ _ _ _ Na E1)).
    rewrite bool_decide_eq_false_2 by done. destruct m1, m2; try done. rewrite length_app. cbn. rewrite Nat.add_succ_r. by eexists.
Qed.

Lemma hasSelf_is e : is_Some (hasSelf e) ↔ presence e.
Proof.
  split.
  - intros [s E]. destruct e as [| | |operand field []| | | | |]; try done. apply bind_Some in E as (p & Hp & _).
    apply singleSelfChain_path in Hp. by econstructor.
  - intros [operand field p Hp]. apply singleSelfChain_path in Hp. unfold hasSelf. rewrite Hp. by eexists.
Qed.
Lemma negatedHasSelf_is e : is_Some (negatedHasSelf e) ↔ ∃ target a, e = Call "!_" target [a] ∧ presence a.
Proof.
  setoid_rewrite <-hasSelf_is. split.
  - destruct e as [| | | |fn target args| | | |]; try by intros [? ?]. destruct args as [|a [|]]; try by intros [? ?]. cbn.
    case_bool_decide; [subst; eauto|by intros [? ?]].
  - intros (target & a & -> & Ha). done.
Qed.
Lemma boundComponents_is e path : (∃ p lit, boundComponents e = Some (p, lit) ∧ dotted p = path) ↔ bound_on path e.
Proof.
  split.
  - intros (p & lit & E & Hp). destruct e as [| | | |fn target args| | | |]; try done. destruct args as [|a [|b [|]]]; try done.
    cbn in E. destruct (is_comparison fn) eqn:Hfn; [|done]. apply bool_decide_eq_true in Hfn.
    econstructor; [done|by eapply equalityComponents_against|done].
  - intros [op target a b p Hop Ha Hp]. destruct (against_equalityComponents _ _ _ Ha) as [lit E]. exists p, lit.
    split; [|done]. cbn. unfold is_comparison. by rewrite bool_decide_eq_true_2.
Qed.
Lemma boundedRange_is a b : is_Some (suggestBoundedRange [a; b]) ↔ ∃ path, bound_on path a ∧ bound_on path b.
Proof.
  setoid_rewrite <-boundComponents_is. cbn [suggestBoundedRange]. split.
  - intros [s ([p1 l1] & E1 & ([p2 l2] & E2 & E)%bind_Some)%bind_Some]. case_bool_decide; [|done]. naive_solver.
  - intros (path & (p1 & l1 & -> & H1) & (p2 & l2 & -> & H2)). cbn. rewrite bool_decide_eq_true_2 by congruence. by eexists.
Qed.

(** The lint suggests a native constraint for exactly these shapes. *)
Lemma patternSubstitutable_is e : named_paths e → is_Some (patternSubstitutable e) ↔ native_shape e.
Proof.
  intros Hn. destruct e as [| | | |fn target args| | | |];
    try (split; [by intros [? ?]|]; intros Hs; inversion Hs as [? ? Hb|? ? Hb| |]; inversion Hb).
  cbn [patternSubstitutable]. destruct (is_comparison fn) eqn:Hcmp.
  { apply bool_decide_eq_true in Hcmp. transitivity (∃ path, bound_on path (Call fn target args)).
    - destruct args as [|a [|b [|]]]; try (split; [by intros [? ?]|intros [path Hb]; inversion Hb]).
      rewrite suggestComparison_is. split; [intros [p Hp]; exists (dotted p); by econstructor|].
      intros [path Hb]. inversion Hb; eauto.
    - split; [intros [path Hb]; by eapply native_bound|]. intros Hs.
      inversion Hs as [? ? Hb|? ? Hb|? ? ? ? ? ?|]; subst; [by eauto|inversion Hb; subst|..]; set_solver. }
  apply bool_decide_eq_false in Hcmp. assert (∀ path, ¬ bound_on path (Call fn target args)) as Hnb by (intros path Hb; by inversion Hb).
  case_bool_decide as Heq; [subst fn|case_bool_decide as Hor; [subst fn|case_bool_decide as Hand; [subst fn|]]].
  - destruct args as [|a [|b [|]]]; try (split; [by intros [? ?]|intros Hs; inversion Hs as [? ? Hb|? ? Hb| |]; inversion Hb]).
    cbn [suggestEqualityLiteral]. split.
    + intros [s ([p lit] & E & _)%bind_Some]. eapply native_enum, one_literal; [by eapply equalityComponents_against|done].
    + intros Hs. inversion Hs as [? ? Hb|? ? Hb| |]; subst; [by apply Hnb in Hb|]. inversion Hb as [? ? ? p Ha _|]; subst.
      destruct (against_equalityComponents _ _ _ Ha) as [lit ->]. by eexists.
  - destruct args as [|a [|b [|]]]; try (split; [by intros [? ?]|intros Hs; inversion Hs as [? ? Hb|? ? Hb| |]; inversion Hb]).
    pose proof (enumChain_is target a b Hn) as Hen.
    assert (is_Some (suggestDependentRequiredImplication [a; b]) ↔ is_Some (negatedHasSelf a) ∧ is_Some (hasSelf b)) as Hdep.
    { cbn. destruct (negatedHasSelf a), (hasSelf b); cbn; naive_solver. }
    rewrite negatedHasSelf_is, hasSelf_is in Hdep. split.
    + intros Hs. destruct (suggestEnumChain [a; b]) as [s|]; [|].
      * destruct (proj1 Hen ltac:(by eexists)) as [path Hp]. by eapply native_enum.
      * apply Hdep in Hs as ((t & x & -> & Hx) & Hb). by constructor.
    + intros Hs. destruct (suggestEnumChain [a; b]) as [s|] eqn:Es; [by eexists|].
      inversion Hs as [? ? Hb|? ? Hb| |]; subst; [by apply Hnb in Hb|..].
      * destruct Hen as [_ Hen]. by destruct (Hen ltac:(eauto)).
      * apply Hdep. eauto.
  - destruct args as [|a [|b [|]]]; try (split; [by intros [? ?]|intros Hs; inversion Hs as [? ? Hb|? ? Hb| |]; inversion Hb]).
    rewrite boundedRange_is. split; [intros (path & ? & ?); by eapply native_range|].
    intros Hs. inversion Hs as [? ? Hb|? ? Hb| |]; subst; [by apply Hnb in Hb|inversion Hb|eauto].
  - split; [by intros [? ?]|]. intros Hs. inversion Hs as [? ? Hb|? ? Hb| |]; subst; [by apply Hnb in Hb|by inversion Hb|done..].
Qed.

(** ** Types of operands

    The typing rules of the lint, which are looser than those of CEL: numbers of
    all kinds mix, what is not known has the type [dyn] and goes anywhere. *)
Inductive numeric : celType → Prop :=
| numeric_int : numeric IntType
| numeric_uint : numeric UintType
| numeric_double : numeric DoubleType.
Inductive temporal : celType → Prop :=
| temporal_duration : temporal DurationType
| temporal_timestamp : temporal TimestampType.

(** Operands of [<], [<=], [>] and [>=]. *)
Inductive ordered : celType → celType → Prop :=
| ordered_dyn_l r : ordered DynType r
| ordered_dyn_r l : ordered l DynType
| ordered_numbers l r : numeric l → numeric r → ordered l r
| ordered_same t : t ∈ [StringType; BytesType; DurationType; TimestampType] → ordered t t.

(** Two numbers give a double if one is a double, an unsigned integer if both
    are, and else an integer. *)
Inductive wider : celType → celType → celType → Prop :=
| wider_double_l r : numeric r → wider DoubleType r DoubleType
| wider_double_r l : numeric l → wider l DoubleType DoubleType
| wider_uint : wider UintType UintType UintType
| wider_int l r : l ∈ [IntType; UintType] → r ∈ [IntType; UintType] → l = IntType ∨ r = IntType → wider l r IntType.
(** Operands and result of arithmetic; only [+] joins texts. *)
Inductive combines (plus : bool) : celType → celType → celType → Prop :=
| combines_numbers l r t : wider l r t → combines plus l r t
| combines_open l r : l = DynType ∨ r = DynType ∨ temporal l ∨ temporal r → combines plus l r DynType
| combines_texts t : plus = true → t ∈ [StringType; BytesType] → combines plus t t DynType.

(** The type of the branches of a conditional. *)
Inductive joins : celType → celType → celType → Prop :=
| joins_same t : joins t t t
| joins_other l r : l ≠ r → joins l r DynType.

Inductive literal_type : Val → celType → Prop :=
| lt_null : literal_type VNull DynType
| lt_bool b : literal_type (VBool b) BoolType
| lt_int z : literal_type (VInt z) IntType
| lt_uint z : literal_type (VUint z) UintType
| lt_double x : literal_type (VDouble x) DoubleType
| lt_string s : literal_type (VString s) StringType
| lt_bytes s : literal_type (VBytes s) BytesType.

Inductive kind_of : pbFieldType → celType → Prop :=
| ko_int : kind_of FIELD_TYPE_INT IntType
| ko_number : kind_of FIELD_TYPE_NUMBER DoubleType
| ko_string : kind_of FIELD_TYPE_STRING StringType
| ko_url : kind_of FIELD_TYPE_URL StringType
| ko_bool : kind_of FIELD_TYPE_BOOL BoolType
| ko_time : kind_of FIELD_TYPE_TIME TimestampType
| ko_duration : kind_of FIELD_TYPE_DURATION DurationType
| ko_json : kind_of FIELD_TYPE_JSON DynType
| ko_unspecified : kind_of FIELD_TYPE_UNSPECIFIED DynType.
(** What the fields say of a path; the last declaration of a path counts. *)
Inductive path_type (fields : list pbSchemaField) (path : string) : celType → Prop :=
| pt_field before f after t :
    fields = before ++ f :: after → f_Path f = path → path ∉ f_Path <$> after → kind_of (f_Type f) t → path_type fields path t
| pt_other : path ∉ f_Path <$> fields → path_type fields path DynType.

(** The operators, by the number of their operands. *)
Definition comparisons : list string := ["_<_"; "_<=_"; "_>_"; "_>=_"].
Definition equalities : list string := ["_==_"; "_!=_"].
Definition connectives : list string := ["_&&_"; "_||_"].
Definition arithmetic : list string := ["_-_"; "_*_"; "_/_"; "_%_"].
Definition unary : list string := ["!_"; "-_"].
Definition binary : list string := comparisons ++ equalities ++ connectives ++ ["_+_"] ++ arithmetic.
Definition ternary : list string := ["_?_:_"].
Definition text_tests : list string := ["startsWith"; "endsWith"; "matches"].

Section typing.
Context (fields : list pbSchemaField).

(** An expression has a type when no operator in it has operands it does not
    take. The operand of [has] and the initial value of a comprehension are not
    looked at. *)
Inductive types : Expr → celType → Prop :=
| ty_literal v t : literal_type v t → types (Literal v) t
| ty_ident name : types (Ident name) DynType
| ty_unspecified : types Unspecified DynType
| ty_struct name l : types (StructExpr name l) DynType
| ty_has operand field : types (Select operand field true) BoolType
| ty_path operand field p t :
    field_path (Select operand field false) p → path_type fields (dotted p) t → types (Select operand field false) t
| ty_tenant field : types (Select (Ident "tenant") field false) StringType
| ty_select operand field :
    (∀ p, ¬ field_path (Select operand field false) p) → operand ≠ Ident "tenant" → (∃ t, types operand t) →
    types (Select operand field false) DynType
| ty_list l : Forall (λ e, ∃ t, types e t) l → types (ListExpr l) DynType
| ty_map l : Forall (λ p, (∃ t, types p.1 t) ∧ ∃ t, types p.2 t) l → types (MapExpr l) DynType
| ty_comprehension r a c s x :
    Forall (λ e, ∃ t, types e t) [r; c; s; x] → types (Comprehension r a c s x) DynType
| ty_text_test fn target t args :
    fn ∈ text_tests → types target t → t = DynType ∨ t = StringType → Forall (λ e, ∃ t, types e t) args →
    types (Call fn (Some target) args) BoolType
| ty_member fn target args :
    fn ∉ text_tests → (∃ t, types target t) → Forall (λ e, ∃ t, types e t) args → types (Call fn (Some target) args) DynType
| ty_comparison fn a b l r : fn ∈ comparisons → types a l → types b r → ordered l r → types (Call fn None [a; b]) BoolType
| ty_equality fn a b l r : fn ∈ equalities → types a l → types b r → types (Call fn None [a; b]) BoolType
| ty_connective fn args :
    fn ∈ connectives → Forall (λ e, types e BoolType ∨ types e DynType) args → types (Call fn None args) BoolType
| ty_not a : types a BoolType ∨ types a DynType → types (Call "!_" None [a]) BoolType
| ty_conditional c a b l r t :
    types c BoolType ∨ types c DynType → types a l → types b r → joins l r t → types (Call "_?_:_" None [c; a; b]) t
| ty_plus a b l r t : types a l → types b r → combines true l r t → types (Call "_+_" None [a; b]) t
| ty_arithmetic fn a b l r t :
    fn ∈ arithmetic → types a l → types b r → combines false l r t → types (Call fn None [a; b]) t
| ty_minus a t : types a t → t = DynType ∨ numeric t → types (Call "-_" None [a]) t
| ty_function fn args :
    fn ∉ unary ++ binary ++ ternary → Forall (λ e, ∃ t, types e t) args → types (Call fn None args) DynType.
End typing.

(** The parser gives every operator its operands. *)
Record arity_ok (e : Expr) : Prop := {
  ar_unary fn args : occurs (Call fn None args) e → fn ∈ unary → ∃ a, args = [a];
  ar_binary fn args : occurs (Call fn None args) e → fn ∈ binary → ∃ a b, args = [a; b];
  ar_ternary fn args : occurs (Call fn None args) e → fn ∈ ternary → ∃ a b c, args = [a; b; c] }.
Lemma arity_ok_in e e' : arity_ok e → e' ∈ children e → arity_ok e'.
Proof. intros [Hu Hb Ht] He. split; intros fn args Ho; [apply Hu|apply Hb|apply Ht]; by apply (occurs_in _ e'). Qed.

(** *** The tables of the lint *)
Lemma ordered_is l r : comparableMismatch l r = false ↔ ordered l r.
Proof.
  split.
  - destruct l, r; try done; intros _;
      first [by apply ordered_dyn_l|by apply ordered_dyn_r|apply ordered_same; set_solver|by apply ordered_numbers; constructor].
  - intros [r'|l'|? ? [] []|t Ht]; try done; [by destruct l'|]. by repeat (apply elem_of_cons in Ht as [->|Ht]; [done|]); apply elem_of_nil in Ht.
Qed.
Lemma combines_is plus l r t : combines plus l r t ↔ arithMismatch l r plus = false ∧ t = arithResult l r.
Proof.
  split.
  - intros [l' r' t' Hw|l' r' Ho|t' -> Ht].
    + destruct Hw as [r'' []|l'' []| |l'' r'' Hl Hr Hi]; try done.
      rewrite !elem_of_cons in Hl, Hr. destruct Hl as [->|[->|Hl]], Hr as [->|[->|Hr]]; try done;
        first [by destruct Hi|by apply elem_of_nil in Hl|by apply elem_of_nil in Hr].
    + destruct Ho as [->|[->|[[]|[]]]]; [done|by destruct l'|by destruct r'..|by destruct l'|by destruct l'].
    + rewrite !elem_of_cons in Ht. destruct Ht as [->|[->|Ht]]; [done..|by apply elem_of_nil in Ht].
  - intros [Hm ->]. destruct l, r; try (destruct plus; done); cbn;
      first [by apply combines_open; auto 6 using temporal_duration, temporal_timestamp
            |by apply combines_texts; [destruct plus|set_solver]
            |apply combines_numbers; first [by repeat constructor|by apply wider_int; [set_solver..|auto]]].
Qed.
Lemma joins_is l r t : joins l r t ↔ t = join l r.
Proof.
  unfold join. split; [intros [|? ? Hn]|intros ->]; case_bool_decide; subst; first [done|by constructor].
Qed.
Lemma literal_type_is v t : literal_type v t ↔ t = literalType v.
Proof. split; [by intros []|intros ->; destruct v; constructor]. Qed.
Lemma kind_of_is ft t : kind_of ft t ↔ t = celTypeFor ft.
Proof. split; [by intros []|intros ->; destruct ft; constructor]. Qed.

Lemma path_type_is fields path t : path_type fields path t ↔ t = default DynType (selfDescriptor fields !! path).
Proof.
  unfold selfDescriptor. induction fields as [|f fields IH] using rev_ind.
  { cbn. split; [by intros [[] ? ? ? ? | ?]|]. intros ->. constructor. set_solver. }
  rewrite foldl_app. cbn. destruct (decide (f_Path f = path)) as [Hp|Hp].
  - rewrite Hp, lookup_insert_eq. cbn. rewrite <-kind_of_is. split.
    + intros [before f' after t' E Hf Ha Hk|Hn].
      * destruct after as [|g after _] using rev_ind; [apply app_inj_tail in E as [_ <-]; done|].
        rewrite app_comm_cons, app_assoc in E. apply app_inj_tail in E as [_ <-]. destruct Ha. rewrite fmap_app. set_solver.
      * destruct Hn. rewrite fmap_app. set_solver.
    + intros Hk. apply (pt_field _ _ fields f []); [done..|set_solver|done].
  - rewrite lookup_insert_ne by done. rewrite <-IH. split.
    + intros [before f' after t' E Hf Ha Hk|Hn].
      * destruct after as [|g after _] using rev_ind; [apply app_inj_tail in E as [_ <-]; done|].
        rewrite app_comm_cons, app_assoc in E. apply app_inj_tail in E as [-> <-].
        eapply pt_field; [done..| |done]. rewrite fmap_app in Ha. set_solver.
      * apply pt_other. rewrite fmap_app in Hn. set_solver.
    + intros [before f' after t' -> Hf Ha Hk|Hn].
      * eapply (pt_field _ _ before f' (after ++ [f])); [by rewrite <-app_assoc|done| |done]. rewrite fmap_app. set_solver.
      * apply pt_other. rewrite fmap_app. set_solver.
Qed.

(** *** Inference decides typing *)
Section inference.
Context (leaves : gmap string celType).
Abbreviation infer := (inferType leaves).

Lemma infer_call fn target args :
  infer (Call fn target args) = inferCall fn ((λ t, (t, infer t)) <$> target) args (infer <$> args).
Proof. by destruct target. Qed.
Lemma infer_list l : infer (ListExpr l) = (DynType, concat (infer <$> l).*2).
Proof. done. Qed.
Lemma infer_map l : infer (MapExpr l) = (DynType, concat ((λ p, (infer p.1).2 ++ (infer p.2).2) <$> l)).
Proof. cbn. f_equal. induction l as [|[k v] l IH]; [done|]. cbn. by rewrite IH, app_assoc. Qed.

Lemma inferred_eq (t t' : celType) (l l' : list error) : ((t, l) : inferred) = (t', l') ↔ t = t' ∧ l = l'.
Proof. naive_solver. Qed.
Lemma report_nil b e : report b e = [] ↔ b = false.
Proof. by destruct b. Qed.
Lemma errors_nil l : concat (infer <$> l).*2 = [] ↔ Forall (λ e, (infer e).2 = []) l.
Proof. induction l as [|e l IH]; cbn; [by rewrite Forall_nil|]. by rewrite app_nil, Forall_cons, IH. Qed.
Lemma must_be_bool_nil format e r :
  must_be_bool format e r = [] ↔ r = (BoolType, []) ∨ r = (DynType, []).
Proof. unfold must_be_bool. rewrite app_nil, report_nil. destruct r as [[] errs]; cbn; naive_solver. Qed.
Lemma all_bool_nil format l :
  concat (zip_with (must_be_bool format) l (infer <$> l)) = [] ↔
  Forall (λ e, infer e = (BoolType, []) ∨ infer e = (DynType, [])) l.
Proof. induction l as [|e l IH]; cbn; [by rewrite Forall_nil|]. by rewrite app_nil, Forall_cons, IH, must_be_bool_nil. Qed.
Lemma numeric_is t : isNumeric t = true ↔ numeric t.
Proof. split; [destruct t; try done; constructor|by intros []]. Qed.
End inference.

(** The operators of a group, one by one. *)
Ltac each_operator H :=
  repeat (apply elem_of_cons in H as [->|H]); [..|by apply elem_of_nil in H].
(** A named operator is in no other group than its own. *)
Ltac wrong_group :=
  match goal with
  | H : _ ∈ _ |- _ => pose proof (bool_decide_pack _ H) as Hin; vm_compute in Hin; exact Hin
  | H : _ ∉ _ |- _ => apply H; refine (bool_decide_unpack _ _); vm_compute; exact I
  end.
Ltac other_operator :=
  exfalso; solve
    [ done | wrong_group | match goal with H : ?fn ∈ _ |- _ => is_var fn; each_operator H; first [done|wrong_group] end ].

Section decides.
Context (fields : list pbSchemaField).
Abbreviation infer := (inferType (selfDescriptor fields)).
Abbreviation ty := (types fields).

(** The parts of a call are decided. *)
Definition decided (e : Expr) : Prop := ∀ t, ty e t ↔ infer e = (t, []).
Lemma decided_typed e : decided e → (∃ t, ty e t) ↔ (infer e).2 = [].
Proof. intros Hd. setoid_rewrite (Hd _). destruct (infer e) as [t errs]. naive_solver. Qed.
Lemma decided_all l : Forall decided l → Forall (λ e, ∃ t, ty e t) l ↔ Forall (λ e, (infer e).2 = []) l.
Proof. induction 1 as [|e l He _ IH]; [by rewrite !Forall_nil|]. by rewrite !Forall_cons, IH, decided_typed. Qed.
Lemma decided_bools l : Forall decided l →
  Forall (λ e, ty e BoolType ∨ ty e DynType) l ↔ Forall (λ e, infer e = (BoolType, []) ∨ infer e = (DynType, [])) l.
Proof. induction 1 as [|e l He _ IH]; [by rewrite !Forall_nil|]. by rewrite !Forall_cons, IH, !(He _). Qed.

(** A member function. *)
Lemma decides_member fn target args :
  decided target → Forall decided args → decided (Call fn (Some target) args).
Proof.
  intros Ht Ha t. rewrite infer_call. cbn [fmap option_fmap option_map inferCall]. case_bool_decide as Hfn.
  - rewrite inferred_eq, !app_nil, report_nil, errors_nil, <-decided_all by done. split.
    + intros Hty. inversion Hty as [| | | | | | | | | | |? ? tt ? _ Htt Hs Hargs|? ? ? Hn| | | | | | | | |]; subst; [|done].
      apply Ht in Htt. rewrite Htt. split_and!; [done..|]. by destruct Hs as [->| ->].
    + intros (<- & (He & Hargs) & Hr). destruct (infer target) as [tt errs] eqn:E. cbn in *. subst errs.
      apply (ty_text_test _ _ _ tt); [done|by apply Ht| |done]. destruct tt; auto; done.
  - rewrite inferred_eq, !app_nil, errors_nil, <-decided_all, <-decided_typed by done. split.
    + intros Hty. inversion Hty as [| | | | | | | | | | |? ? tt ? Hn|? ? ? _ Htt Hargs| | | | | | | | |]; subst; done.
    + intros (<- & Htt & Hargs). by apply ty_member.
Qed.

(** An operator with two operands. *)
Lemma decides_binary fn a b : fn ∈ binary → decided a → decided b → decided (Call fn None [a; b]).
Proof.
  intros Hfn Ha Hb t. rewrite infer_call. unfold inferCall, is_comparison, arg_at, res_at. cbn [fmap option_fmap option_map list_fmap map nth].
  destruct (infer a) as [l la] eqn:Ea, (infer b) as [r lb] eqn:Eb. cbn [fst snd].
  assert (la = [] → ty a l) as Hta by (intros ->; by apply Ha). assert (lb = [] → ty b r) as Htb by (intros ->; by apply Hb).
  assert (∀ t, ty a t → t = l ∧ la = []) as Hua by (intros t' Hty%Ha; rewrite Ea in Hty; naive_solver).
  assert (∀ t, ty b t → t = r ∧ lb = []) as Hub by (intros t' Hty%Hb; rewrite Eb in Hty; naive_solver).
  case_bool_decide as Hc; [|case_bool_decide as He; [|case_bool_decide as Hl; [|case_bool_decide as Hn; [subst fn; other_operator|
    case_bool_decide as Ht; [subst fn; other_operator|case_bool_decide as Hp; [|case_bool_decide as Hr; [|other_operator]]]]]]].
  - rewrite inferred_eq, !app_nil, report_nil, ordered_is. split.
    + intros Hty. inversion Hty; subst; try other_operator.
      repeat match goal with H : ty a _ |- _ => apply Hua in H as [-> ->] | H : ty b _ |- _ => apply Hub in H as [-> ->] end. done.
    + intros (<- & -> & -> & Ho). by apply (ty_comparison _ _ _ _ l r); auto.
  - rewrite inferred_eq, !app_nil. split.
    + intros Hty. inversion Hty; subst; try other_operator.
      repeat match goal with H : ty a _ |- _ => apply Hua in H as [-> ->] | H : ty b _ |- _ => apply Hub in H as [-> ->] end. done.
    + intros (<- & -> & ->). by apply (ty_equality _ _ _ _ l r); auto.
  - cbn [zip_with concat]. rewrite inferred_eq, !app_nil, !must_be_bool_nil. rewrite <-Ea, <-Eb, <-!(Ha _), <-!(Hb _). split.
    + intros Hty. inversion Hty as [| | | | | | | | | | | | | | |? ? _ Hargs| | | | | |]; subst; try other_operator.
      rewrite !Forall_cons in Hargs. naive_solver.
    + intros (<- & Hta' & Htb' & _). by apply ty_connective; [|rewrite !Forall_cons].
  - rewrite inferred_eq, !app_nil, report_nil. pose proof (combines_is true l r t) as Hcm. split.
    + intros Hty. inversion Hty; subst; try other_operator.
      repeat match goal with H : ty a _ |- _ => apply Hua in H as [-> ->] | H : ty b _ |- _ => apply Hub in H as [-> ->] end.
      naive_solver.
    + intros (<- & -> & -> & Ho). subst fn. by apply (ty_plus _ _ _ l r); [auto..|apply combines_is].
  - rewrite inferred_eq, !app_nil, report_nil. pose proof (combines_is false l r t) as Hcm. split.
    + intros Hty. inversion Hty; subst; try other_operator.
      repeat match goal with H : ty a _ |- _ => apply Hua in H as [-> ->] | H : ty b _ |- _ => apply Hub in H as [-> ->] end.
      naive_solver.
    + intros (<- & -> & -> & Ho). by apply (ty_arithmetic _ _ _ _ l r); [auto..|apply combines_is].
Qed.

(** The other operators, and functions. *)
Lemma decides_unary fn a : fn ∈ unary → decided a → decided (Call fn None [a]).
Proof.
  intros Hfn Ha t. rewrite infer_call. unfold unary in Hfn. each_operator Hfn;
    cbn [inferCall fmap option_fmap option_map list_fmap map arg_at res_at nth]; unfold is_comparison;
    repeat (case_bool_decide; [try other_operator|try other_operator]).
  - rewrite inferred_eq, must_be_bool_nil, <-!(Ha _). split.
    + intros Hty. inversion Hty; subst; try other_operator. done.
    + intros [<- ?]. by constructor.
  - destruct (infer a) as [l la] eqn:Ea. cbn [fst snd]. rewrite inferred_eq, app_nil, report_nil. split.
    + intros Hty. inversion Hty as [| | | | | | | | | | | | | | | | | | | |? ? Hl Hn|]; subst; try other_operator.
      apply Ha in Hl. rewrite Ea in Hl. injection Hl as -> ->. split_and!; [done..|]. by destruct Hn as [->|[]].
    + intros (<- & -> & Hm). apply ty_minus; [by apply Ha|]. destruct l; try done; auto using numeric.
Qed.
Lemma decides_ternary c a b : decided c → decided a → decided b → decided (Call "_?_:_" None [c; a; b]).
Proof.
  intros Hc Ha Hb t. rewrite infer_call.
  cbn [inferCall fmap option_fmap option_map list_fmap map arg_at res_at nth]; unfold is_comparison;
    repeat (case_bool_decide; [try other_operator|try other_operator]).
  rewrite inferred_eq, !app_nil, must_be_bool_nil, <-!(Hc _).
  destruct (infer a) as [l la] eqn:Ea, (infer b) as [r lb] eqn:Eb. cbn [fst snd]. pose proof (joins_is l r t) as Hj. split.
  - intros Hty. inversion Hty as [| | | | | | | | | | | | | | | | |? ? ? l' r' ? Hty1 Hty2 Hty3 Hjn| | | |]; subst; try other_operator.
    apply Ha in Hty2. apply Hb in Hty3. rewrite Ea in Hty2. rewrite Eb in Hty3. naive_solver.
  - intros (<- & Hc' & -> & ->). apply (ty_conditional _ _ _ _ l r); [done|by apply Ha|by apply Hb|by apply joins_is].
Qed.
Lemma decides_function fn args :
  fn ∉ unary ++ binary ++ ternary → Forall decided args → decided (Call fn None args).
Proof.
  intros Hfn Ha t. rewrite infer_call. cbn [inferCall fmap option_fmap option_map]. unfold is_comparison.
  assert (∀ l : list string, (∀ x, x ∈ l → x ∈ unary ++ binary ++ ternary) → bool_decide (fn ∈ l) = false) as Hl.
  { intros l Hl. apply bool_decide_eq_false_2. intros Hin. by apply Hfn, Hl. }
  assert (∀ x : string, x ∈ unary ++ binary ++ ternary → bool_decide (fn = x) = false) as Hx.
  { intros x Hin. apply bool_decide_eq_false_2. by intros ->. }
  rewrite !Hl by (intros x Hin; each_operator Hin; refine (bool_decide_unpack _ _); vm_compute; exact I).
  rewrite !Hx by (refine (bool_decide_unpack _ _); vm_compute; exact I).
  rewrite inferred_eq, errors_nil, <-decided_all by done. split.
  - intros Hty. inversion Hty; subst; try other_operator. done.
  - intros [<- ?]. by apply ty_function.
Qed.

(** A selection. *)
Lemma decides_select operand field b : decided operand → decided (Select operand field b).
Proof.
  intros Ho t. destruct b.
  { cbn. rewrite inferred_eq. split; [by inversion 1|]. intros [<- _]. constructor. }
  cbn [inferType]. destruct (singleSelfChain (Select operand field false)) as [p|] eqn:Hp.
  { apply singleSelfChain_path in Hp. rewrite inferred_eq. split.
    - intros Hty. inversion Hty as [| | | | |? ? p' ? Hp' Ht| |? ? Hn| | | | | | | | | | | | | |]; subst.
      + rewrite (field_path_det _ _ _ Hp Hp'). split; [|done]. symmetry. by apply path_type_is.
      + destruct Hp as [Hs Hne]. inversion Hs as [|? ? ? ? Hs'|]; subst. inversion Hs'.
      + by destruct (Hn p).
    - intros [<- _]. apply (ty_path _ _ _ p); [done|by apply path_type_is]. }
  pose proof (proj1 (singleSelfChain_None _) Hp) as Hn.
  assert (ty (Select operand field false) t ↔
    operand = Ident "tenant" ∧ t = StringType ∨ operand ≠ Ident "tenant" ∧ (infer operand).2 = [] ∧ t = DynType) as ->.
  { rewrite <-decided_typed by done. split.
    - intros Hty. inversion Hty as [| | | | |? ? p' ? Hp' _| | | | | | | | | | | | | | | |]; subst; [by destruct (Hn p')|auto..].
    - intros [[-> ->]|(Hne & Ht & ->)]; by constructor. }
  destruct operand as [|v|name| | | | | |]; try (rewrite inferred_eq; naive_solver).
  case_bool_decide as Hname; rewrite inferred_eq; [subst; naive_solver|]. cbn. naive_solver.
Qed.

(** The lint finds no type error exactly in expressions that have a type. *)
Lemma types_decided e : arity_ok e → decided e.
Proof.
  pattern e. revert e. refine (children_ind _ _). intros e IH Har.
  assert (∀ e', e' ∈ children e → decided e') as IH' by (intros e' He; apply IH; [done|by eapply arity_ok_in]). clear IH.
  destruct e as [|v|name|operand field b|fn target args|l|l|name l|r a c s x]; try (intros t; cbn; split; [by inversion 1|]; intros [= <-]; by constructor).
  - intros t. cbn. rewrite inferred_eq. split; [intros Hty; inversion Hty as [? ? Hl| | | | | | | | | | | | | | | | | | | | |]; subst|intros [<- _]; constructor].
    + by apply literal_type_is in Hl as ->.
    + by apply literal_type_is.
  - by apply decides_select, IH', list_elem_of_singleton.
  - destruct target as [target|].
    + apply decides_member; [apply IH'; cbn; set_solver|]. apply Forall_forall. intros e He. apply IH'. cbn. set_solver.
    + assert (Forall decided args) as Hargs by (apply Forall_forall; intros e He; apply IH', He).
      destruct (decide (fn ∈ unary ++ binary ++ ternary)) as [Hfn|Hfn]; [|by apply decides_function].
      rewrite !elem_of_app in Hfn. destruct Har as [Hu Hb Ht]. destruct Hfn as [Hfn|[Hfn|Hfn]].
      * destruct (Hu fn args (occurs_here _) Hfn) as [x ->]. apply decides_unary; [done|]. by inversion Hargs.
      * destruct (Hb fn args (occurs_here _) Hfn) as (x & y & ->). rewrite !Forall_cons in Hargs. by apply decides_binary; [|apply Hargs..].
      * destruct (Ht fn args (occurs_here _) Hfn) as (x & y & z & ->). rewrite !Forall_cons in Hargs.
        unfold ternary in Hfn. apply list_elem_of_singleton in Hfn as ->. by apply decides_ternary; apply Hargs.
  - intros t. rewrite infer_list, inferred_eq, errors_nil, <-decided_all by (by apply Forall_forall). split.
    + by inversion 1.
    + intros [<- ?]. by constructor.
  - intros t. rewrite infer_map, inferred_eq. transitivity (DynType = t ∧ Forall (λ p, (infer p.1).2 = [] ∧ (infer p.2).2 = []) l).
    + assert (Forall (λ p, decided p.1 ∧ decided p.2) l) as Hl.
      { apply Forall_forall. intros [k v] Hp. split; apply IH'; cbn; apply list_elem_of_concat; exists [k; v];
          (split; [apply list_elem_of_fmap; by exists (k, v)|set_solver]). }
      assert (Forall (λ p, (∃ t, ty p.1 t) ∧ ∃ t, ty p.2 t) l ↔ Forall (λ p, (infer p.1).2 = [] ∧ (infer p.2).2 = []) l) as <-.
      { clear -Hl. induction Hl as [|p l [Hk Hv] _ IHl]; [by rewrite !Forall_nil|]. by rewrite !Forall_cons, IHl, !decided_typed. }
      split; [by inversion 1|]. intros [<- ?]. by constructor.
    + clear. induction l as [|p l IHl]; cbn; [rewrite Forall_nil; naive_solver|]. rewrite Forall_cons, !app_nil. naive_solver.
  - intros t. cbn [inferType]. rewrite inferred_eq, !app_nil. rewrite <-!decided_typed by (apply IH'; cbn; set_solver). split.
    + intros Hty. inversion Hty as [| | | | | | | | | |? ? ? ? ? Hf| | | | | | | | | | |]; subst. rewrite !Forall_cons in Hf. naive_solver.
    + intros (<- & Hr & Hc & Hs & Hx). constructor. by rewrite !Forall_cons.
Qed.
Lemma checkRuleTypes_nil e : arity_ok e → checkRuleTypes e (selfDescriptor fields) = [] ↔ ∃ t, ty e t.
Proof. intros Har. unfold checkRuleTypes. by rewrite (decided_typed e (types_decided e Har)). Qed.
End decides.
