(* ===== verification/CelLintFacts.v ===== *)
(** * What the lint of validation rules accepts

    It accepts exactly the rules that meet the specification of [CelLintSpec]: the
    chains it collects are those of the rule, the paths it resolves are the fields
    and their parents. A rule it wants replaced by a native constraint reads one
    field only. *)
From S2P Require Import Prelude GoText GoFloat Domain CrossField SchemaTypes CelLint CelLintSpec.
From Stdlib Require Import Ascii.
Import CelLint.

(** ** Paths and their segments *)
Lemma cut_char_Some c s x y : cut_char c s = Some (x, y) → count_char c s = S (count_char c y).
Proof.
  revert x. induction s as [|a s IH]; intros x; [done|]. cbn [cut_char count_char]. case_bool_decide as Ha.
  - intros [= <- <-]. lia.
  - destruct (cut_char c s) as [[x' y']|]; [|done]. intros [= <- <-]. by rewrite (IH x').
Qed.
Lemma cut_char_None c s : cut_char c s = None → count_char c s = 0%nat.
Proof.
  induction s as [|a s IH]; [done|]. cbn [cut_char count_char]. case_bool_decide; [done|].
  destruct (cut_char c s) as [[]|]; [done|]. intros _. by rewrite IH.
Qed.
Lemma Split_unfold c s : Split c s = match cut_char c s with None => [s] | Some (x, y) => x :: Split c y end.
Proof.
  unfold Split. destruct (cut_char c s) as [[x y]|] eqn:E.
  - rewrite (cut_char_Some _ _ _ _ E). cbn. by rewrite E.
  - by rewrite (cut_char_None _ _ E).
Qed.
Lemma Split_char c a s :
  Split c (String a s) = if bool_decide (a = c) then "" :: Split c s
                         else match Split c s with [] => [] | h :: t => String a h :: t end.
Proof.
  rewrite Split_unfold. cbn [cut_char]. case_bool_decide; [done|]. rewrite (Split_unfold c s).
  by destruct (cut_char c s) as [[]|].
Qed.
Lemma Split_not_nil c s : Split c s ≠ [].
Proof. rewrite Split_unfold. by destruct (cut_char c s) as [[]|]. Qed.
Lemma Split_app c x y : Split c (x +:+ String c y) = Split c x ++ Split c y.
Proof.
  induction x as [|a x IH].
  - change ("" +:+ String c y) with (String c y). rewrite Split_char. by rewrite bool_decide_eq_true_2.
  - rewrite str_app_cons, !Split_char, IH. case_bool_decide; [done|].
    pose proof (Split_not_nil c x). by destruct (Split c x).
Qed.
Lemma Split_plain c x : no_char c x = true → Split c x = [x].
Proof. intros Hx. by rewrite Split_unfold, (cut_char_none _ _ Hx). Qed.

Lemma join_cons sep s l : l ≠ [] → join_with sep (s :: l) = s +:+ sep +:+ join_with sep l.
Proof. by destruct l. Qed.
Lemma join_app sep l1 l2 : l1 ≠ [] → l2 ≠ [] → join_with sep (l1 ++ l2) = join_with sep l1 +:+ sep +:+ join_with sep l2.
Proof.
  intros H1 H2. induction l1 as [|x [|x' l1] IH]; [done|cbn [app]; by rewrite join_cons|].
  change ((x :: x' :: l1) ++ l2) with (x :: ((x' :: l1) ++ l2)). rewrite !join_cons, IH by done.
  by rewrite !str_app_assoc.
Qed.
Lemma join_Split c s : join_with (String c "") (Split c s) = s.
Proof.
  induction s as [|a s IH]; [done|]. rewrite Split_char. pose proof (Split_not_nil c s) as Hn. case_bool_decide as Ha.
  - rewrite join_cons by done. rewrite IH, Ha. done.
  - destruct (Split c s) as [|h [|h' t]]; [done|cbn in *; by rewrite IH|].
    rewrite join_cons in * by done. by rewrite str_app_cons, IH.
Qed.
Lemma Split_join c l : l ≠ [] → Forall (λ s, no_char c s = true) l → Split c (join_with (String c "") l) = l.
Proof.
  intros Hl Hf. induction Hf as [|s l Hs Hf IH]; [done|]. destruct l as [|s' l]; [by apply Split_plain|].
  rewrite join_cons by done. change (String c "" +:+ ?x) with (String c x). rewrite Split_app, IH by done.
  by rewrite Split_plain.
Qed.

Lemma elem_of_prefixes p q : q ∈ prefixes p ↔ ∃ rest, p = q +:+ "." +:+ rest.
Proof.
  unfold prefixes, dotted. rewrite list_elem_of_fmap. setoid_rewrite elem_of_seq. split.
  - intros (i & -> & Hi). exists (join_with "." (drop i (Split "." p))). rewrite <-join_app.
    + rewrite take_drop. symmetry. apply join_Split.
    + intros E. apply (f_equal length) in E. rewrite length_take in E. cbn [length] in E. lia.
    + intros E. apply (f_equal length) in E. rewrite length_drop in E. cbn [length] in E. lia.
  - intros [rest ->]. exists (length (Split "." q)). change ("." +:+ rest) with (String "." rest).
    rewrite Split_app, take_app_length, length_app. split; [symmetry; apply join_Split|].
    assert (∀ s, length (Split "." s) ≠ 0%nat) as Hl by (intros s E; by apply nil_length_inv, Split_not_nil in E).
    pose proof (Hl q). pose proof (Hl rest). lia.
Qed.

(** A path that is a field or leads to one. *)
Definition names_field (fields : list pbSchemaField) (path : string) : Prop :=
  ∃ f, f ∈ fields ∧ (f_Path f = path ∨ ∃ rest, f_Path f = path +:+ "." +:+ rest).

Lemma elem_of_path_sets fields p :
  p ∈ (buildPathSets fields).1 ∨ p ∈ (buildPathSets fields).2 ↔ names_field fields p.
Proof.
  unfold buildPathSets, names_field.
  assert (∀ l sets, p ∈ (foldl (λ sets f, ({[f_Path f]} ∪ sets.1, list_to_set (prefixes (f_Path f)) ∪ sets.2)) sets l).1
      ∨ p ∈ (foldl (λ sets f, ({[f_Path f]} ∪ sets.1, list_to_set (prefixes (f_Path f)) ∪ sets.2)) sets l).2
    ↔ (p ∈ (sets : gset string * gset string).1 ∨ p ∈ sets.2)
      ∨ ∃ f, f ∈ l ∧ (f_Path f = p ∨ ∃ rest, f_Path f = p +:+ "." +:+ rest)) as Hgo.
  { induction l as [|f l IH]; intros sets; cbn [foldl]; [set_solver|]. rewrite IH. cbn [fst snd].
    setoid_rewrite elem_of_cons. rewrite !elem_of_union, elem_of_singleton, elem_of_list_to_set, elem_of_prefixes.
    naive_solver. }
  rewrite Hgo. set_solver.
Qed.

(** ** The chains of a rule *)
(** An expression of the rule that reads a path of [self]. *)
Definition mentions (e : Expr) (chain : list string) : Prop := ∃ e', occurs e' e ∧ field_path e' chain.
(** Names as an identifier can be; the key of a chain separates them by NUL. *)
Definition plain_names (e : Expr) : Prop :=
  ∀ chain, mentions e chain → Forall (λ s, no_char "000" s = true) chain.
(** A rule as the parser leaves it: every operator has its operands, and the
    names in its paths are plain and not all empty. *)
Record well_parsed (e : Expr) : Prop := {
  wp_plain : plain_names e;
  wp_named chain : mentions e chain → dotted chain ≠ "";
  wp_arity : arity_ok e }.

Lemma elem_of_chains e c : c ∈ omap singleSelfChain (visit e) ↔ mentions e c.
Proof.
  rewrite list_elem_of_omap. unfold mentions. setoid_rewrite elem_of_visit. by setoid_rewrite singleSelfChain_path.
Qed.

(** No chain is lost as long as keys tell chains apart. *)
Lemma elem_of_dedupe seen l c :
  (∀ a b, a ∈ l → b ∈ l → join_with (String "000" "") a = join_with (String "000" "") b → a = b) →
  c ∈ dedupe seen l ↔ c ∈ l ∧ join_with (String "000" "") c ∉ seen.
Proof.
  revert seen. induction l as [|a l IH]; intros seen Hinj; cbn [dedupe]; [set_solver|].
  assert (∀ a b, a ∈ l → b ∈ l → join_with (String "000" "") a = join_with (String "000" "") b → a = b) as Hinj'
    by (intros; apply Hinj; set_solver).
  case_bool_decide as Hs; rewrite ?elem_of_cons, IH by done; [set_solver|]. rewrite not_elem_of_union, not_elem_of_singleton.
  split; [set_solver|]. intros [[->|Hc] Hn]; [by left|]. destruct (decide (c = a)) as [->|Hne]; [by left|].
  right. split_and!; [done| |done]. intros E. by apply Hne, Hinj; [right|left|].
Qed.

Section lint_facts.
Context `{SortSliceOk}.

Lemma elem_of_collectSelfChains e c : plain_names e → c ∈ collectSelfChains e ↔ mentions e c.
Proof.
  intros Hp. unfold collectSelfChains. rewrite sort_slice_perm, elem_of_dedupe; [rewrite elem_of_chains; set_solver|].
  intros a b Ha%elem_of_chains Hb%elem_of_chains E.
  assert (∀ c, mentions e c → c ≠ []) as Hn.
  { intros c' (e' & _ & _ & He) ->. done. }
  rewrite <-(Split_join "000" a), <-(Split_join "000" b) by auto. by rewrite E.
Qed.

(** What the lint asks of a compiled rule. *)
Record rule_fine (fields : list pbSchemaField) (e : Expr) : Prop := {
  rf_self : ∃ chain, mentions e chain;
  rf_fields chain : mentions e chain → names_field fields (dotted chain);
  rf_native : ¬ native_shape e;
  rf_types : ∃ t, types fields e t }.
Lemma well_parsed_native e : well_parsed e → patternSubstitutable e = None ↔ ¬ native_shape e.
Proof.
  intros Hw. rewrite <-patternSubstitutable_is, eq_None_not_Some; [done|]. intros e' p Ho Hp. apply (wp_named _ Hw). by exists e'.
Qed.

Lemma errors_Join_Ok errs : errors_Join errs = Ok tt ↔ errs = [].
Proof. by destruct errs. Qed.
Lemma lint_rules_nil lint i rules : lint_rules lint i rules = [] ↔ ∀ r, r ∈ rules → lint r = Ok tt.
Proof.
  revert i. induction rules as [|r rules IH]; intros i; cbn [lint_rules]; [set_solver|].
  setoid_rewrite elem_of_cons. destruct (lint r) as [[]|err] eqn:E; [rewrite IH; naive_solver|].
  split; [done|]. intros Hall. specialize (Hall r (or_introl eq_refl)). congruence.
Qed.
Lemma unresolved_nil leaves parents chains :
  concat (unresolved leaves parents <$> chains) = [] ↔
  ∀ c, c ∈ chains → dotted c ∈ leaves ∨ dotted c ∈ parents.
Proof.
  induction chains as [|c l IH]; cbn; [set_solver|]. setoid_rewrite elem_of_cons. rewrite app_nil, IH. unfold unresolved.
  destruct (bool_decide (dotted c ∈ leaves)) eqn:E1; [apply bool_decide_eq_true in E1|apply bool_decide_eq_false in E1]; cbn; [naive_solver|].
  case_bool_decide; naive_solver.
Qed.

Lemma lintOne_Ok compile fields r :
  (∀ e, compile (Cel.rule_Rule r) = Ok e → well_parsed e) →
  lintOne compile (buildPathSets fields).1 (buildPathSets fields).2 (selfDescriptor fields) r = Ok tt ↔
  ∃ e, compile (Cel.rule_Rule r) = Ok e ∧ rule_fine fields e.
Proof.
  intros Hp. unfold lintOne. destruct (compile _) as [e|err]; cbn [result_bind]; [|naive_solver].
  specialize (Hp e eq_refl). pose proof (λ c, elem_of_collectSelfChains e c (wp_plain _ Hp)) as Hc.
  assert ((∃ e0, Ok (E:=error) e = Ok e0 ∧ rule_fine fields e0) ↔ rule_fine fields e) as -> by naive_solver.
  destruct (collectSelfChains e) as [|c0 l] eqn:El.
  { split; [done|]. intros [[c Hm] _ _ _]. apply Hc in Hm. by apply not_elem_of_nil in Hm. }
  rewrite <-El in *. rewrite errors_Join_Ok, !app_nil, unresolved_nil, (checkRuleTypes_nil fields e (wp_arity _ Hp)).
  pose proof (well_parsed_native e Hp) as Hnat. split.
  - intros (Hr & Hn & Ht). split; [|intros c Hm%Hc; by apply elem_of_path_sets, Hr|apply Hnat; by destruct (patternSubstitutable e)|done].
    exists c0. apply Hc. rewrite El. by left.
  - intros [_ Hr Hn Ht]. apply Hnat in Hn. split_and!; [|by rewrite Hn|done]. intros c Hm%Hc. by apply elem_of_path_sets, Hr.
Qed.

(** C35: The lint accepts the rules of a schema exactly when every rule compiles,
    reads at least one path of [self], reads only paths of declared fields and
    their parents, is not of a shape that a native constraint expresses (a bound
    or an equality of one path with a literal, a disjunction of such equalities or
    a conjunction of two such bounds on one path, [!has(a) || has(b)]), and is
    well typed. The shapes and the typing rules are stated as relations on
    expressions, apart from the code; the typing rules are the lint's, not CEL's:
    numbers of all kinds mix, booleans have no order, [dyn] goes anywhere. The
    parser is taken to give every operator its operands; paths with a NUL in a
    name, or that are empty, are not covered. *)
Theorem lint_accepts_iff `{CelParser} compile rules fields :
  BuildEnv = Ok compile →
  (∀ r e, r ∈ rules → compile (Cel.rule_Rule r) = Ok e → well_parsed e) →
  LintValidations rules fields = Ok tt ↔
  ∀ r, r ∈ rules → ∃ e, compile (Cel.rule_Rule r) = Ok e ∧ rule_fine fields e.
Proof.
  intros HB Hp. unfold LintValidations. destruct rules as [|r0 rules]; [set_solver|]. rewrite HB.
  destruct (buildPathSets fields) as [leaves parents] eqn:Es. rewrite errors_Join_Ok, lint_rules_nil.
  assert (leaves = (buildPathSets fields).1 ∧ parents = (buildPathSets fields).2) as [-> ->] by (by rewrite Es).
  split; intros Hall r Hr; apply lintOne_Ok; eauto.
Qed.
End lint_facts.

(** ** Rules for which a native constraint is suggested *)
(** A path the rule reads: the longest chain at a place. *)
Inductive reads : Expr → list string → Prop :=
| reads_chain e c : singleSelfChain e = Some c → reads e c
| reads_part e e' c : singleSelfChain e = None → e' ∈ children e → reads e' c → reads e c.

Lemma reads_mentions e c : reads e c → mentions e c.
Proof.
  induction 1 as [e c E%singleSelfChain_path|e e' c _ He _ (e1 & Ho & E)]; [exists e; split; [constructor|done]|].
  exists e1. split; [by apply (occurs_in _ e')|done].
Qed.









