(* ===== verification/SchemaStore.v ===== *)
(** * The schema store ([internal/schema/store.go], [store_memory.go])

    The [Store] interface of the schema package as the class [SchemaDB] and its
    in-memory implementation [SchemaMem]. As in [MemStore], maps are finite
    maps, loops over a map follow the order of the run ([MapRange]), a
    transaction is [clone], body and [mergeFrom], and the store counts its draws
    from the random source and its readings of the clock. *)
From S2P Require Import Prelude GoText GoTime Pagination Domain ConfigStore MemStore Convert SchemaTypes.
Local Open Scope Z_scope.

(** ** Parameters *)
Record CreateSchemaParams := { cs_Name : string; cs_Description : option string }.
Record CreateSchemaVersionParams := {
  csv_SchemaID : string; csv_Version : Z; csv_ParentVersion : option Z; csv_Description : option string;
  csv_Checksum : string; csv_DependentRequired : string; csv_Validations : string }.
Record CreateTenantParams := { ct_Name : string; ct_SchemaID : string; ct_SchemaVersion : Z }.
(** [ListTenantsParams], and with a schema [ListTenantsBySchemaParams]. *)
Record ListTenantsParams := {
  lt_Limit : Z; lt_Offset : Z; lt_Cursor : option Pagination.PageCursor; lt_Allowed : option (list string) }.
Record CreateFieldLockParams := { cl_TenantID : string; cl_FieldPath : string; cl_LockedValues : option string }.

(** ** The interface *)
Class SchemaDB (S : Type) := {
  db_RunInTx {A T : Type} (fn : ST (T * S) A) : ST (T * S) A;
  db_InsertAuditWriteLog (arg : InsertAuditWriteLogParams) (s : S) : result error unit * S;
  db_CreateSchema (arg : CreateSchemaParams) (s : S) : result error Schema * S;
  db_GetSchemaByID (id : string) (s : S) : result error Schema;
  db_GetSchemaByName (name : string) (s : S) : result error Schema;
  db_ListSchemas (limit offset : Z) (s : S) : result error (list Schema);
  db_DeleteSchema (id : string) (s : S) : result error unit * S;
  db_CreateSchemaVersion (arg : CreateSchemaVersionParams) (s : S) : result error SchemaVersion * S;
  db_GetSchemaVersion (schemaID : string) (version : Z) (s : S) : result error SchemaVersion;
  db_GetLatestSchemaVersion (schemaID : string) (s : S) : result error SchemaVersion;
  db_PublishSchemaVersion (schemaID : string) (version : Z) (s : S) : result error SchemaVersion * S;
  db_GetLatestSchemaVersionsBatch (schemaIDs : list string) (s : S) : result error (list SchemaVersion);
  db_BulkCreateSchemaFields (args : list CreateSchemaFieldParams) (s : S) : result error (list SchemaField) * S;
  db_GetSchemaFields (schemaVersionID : string) (s : S) : result error (list SchemaField);
  db_GetSchemaFieldsByVersionIDs (versionIDs : list string) (s : S) : result error (list SchemaField);
  db_CreateTenant (arg : CreateTenantParams) (s : S) : result error Tenant * S;
  db_GetTenantByID (id : string) (s : S) : result error Tenant;
  db_GetTenantByName (name : string) (s : S) : result error Tenant;
  db_ListTenants (arg : ListTenantsParams) (s : S) : result error (list Tenant);
  db_ListTenantsBySchema (schemaID : string) (arg : ListTenantsParams) (s : S) : result error (list Tenant);
  db_UpdateTenantName (id name : string) (s : S) : result error Tenant * S;
  db_UpdateTenantSchemaVersion (id : string) (version : Z) (s : S) : result error Tenant * S;
  db_DeleteTenant (id : string) (s : S) : result error unit * S;
  db_CreateFieldLock (arg : CreateFieldLockParams) (s : S) : result error unit * S;
  db_DeleteFieldLock (tenantID fieldPath : string) (s : S) : result error unit * S;
  db_ListFieldLocks (tenantID : string) (limit offset : Z) (s : S) : result error (list TenantFieldLock);
  db_SeedTenantConfig (arg : SeedTenantConfigParams) (s : S) : result error unit * S
}.

(** ** The in-memory store *)
Module SchemaMem.

Record MemoryStore := mkStore {
  schemas : gmap string Schema;                       (* id → schema *)
  schemaVersions : gmap string SchemaVersion;         (* id → version *)
  schemaFields : gmap string (list SchemaField);      (* schemaVersionID → fields *)
  tenants : gmap string Tenant;                       (* id → tenant *)
  fieldLocks : gmap string (list TenantFieldLock);    (* tenantID → locks *)
  configVersions : gmap string ConfigVersion;         (* id → seeded version *)
  configValues : gmap string (list ConfigValue);      (* configVersionID → values *)
  auditLog : list MemStore.auditEntry;
  draws : nat;
  ticks : nat
}.

Definition NewMemoryStore : MemoryStore := mkStore ∅ ∅ ∅ ∅ ∅ ∅ ∅ [] 0 0.

Definition clone (m : MemoryStore) : MemoryStore :=
  mkStore (schemas m) (schemaVersions m) (schemaFields m) (tenants m) (fieldLocks m) (configVersions m)
    (configValues m) (auditLog m) (draws m) (ticks m).
Definition mergeFrom (m src : MemoryStore) : MemoryStore :=
  mkStore (schemas src) (schemaVersions src) (schemaFields src) (tenants src) (fieldLocks src)
    (configVersions src) (configValues src) (auditLog src) (draws src) (ticks src).

Definition RunInTx {A T} (fn : ST (T * MemoryStore) A) : ST (T * MemoryStore) A := λ '(t, m),
  let tmp := clone m in
  match fn (t, tmp) with
  | (Err e, (t, _)) => (Err e, (t, m))
  | (Ok a, (t, tmp)) => (Ok a, (t, mergeFrom m tmp))
  end.

(** [paginate]: a slice from [offset] on, at most [limit] long when that is
    positive. *)
Definition paginate {A} (items : list A) (offset limit : Z) : list A :=
  if (Z.of_nat (length items) <=? offset) then [] else
  let items := drop (Z.to_nat offset) items in
  if (0 <? limit) && (limit <? Z.of_nat (length items)) then take (Z.to_nat limit) items else items.

Section ops.
Context `{Random, Clock, MapRange, SortSlice}.

Definition nextID (m : MemoryStore) : string := uuid_v4 (random (draws m)).

Definition InsertAuditWriteLog (arg : InsertAuditWriteLogParams) (m : MemoryStore) : result error unit * MemoryStore :=
  (Ok tt, mkStore (schemas m) (schemaVersions m) (schemaFields m) (tenants m) (fieldLocks m) (configVersions m)
    (configValues m) (auditLog m ++ [{| MemStore.params := arg; MemStore.createdAt := clock (ticks m) |}])
    (draws m) (S (ticks m))).

(** *** Schemas *)
Definition alive_schema (name : string) (s : Schema) : Prop := sc_Name s = name ∧ sc_DeletedAt s = None.

Definition CreateSchema (arg : CreateSchemaParams) (m : MemoryStore) : result error Schema * MemoryStore :=
  match list_find (λ p, alive_schema (cs_Name arg) p.2) (map_range (schemas m)) with
  | Some _ => (Err (Errorf "schema with name %q already exists" [AStr (cs_Name arg)]), m)
  | None =>
    let now := clock (ticks m) in
    let s := {| sc_ID := nextID m; sc_Name := cs_Name arg; sc_Description := cs_Description arg;
                sc_CreatedAt := now; sc_UpdatedAt := now; sc_DeletedAt := None |} in
    (Ok s, mkStore (<[sc_ID s := s]> (schemas m)) (schemaVersions m) (schemaFields m) (tenants m) (fieldLocks m)
             (configVersions m) (configValues m) (auditLog m) (S (draws m)) (S (ticks m)))
  end.

Definition GetSchemaByID (id : string) (m : MemoryStore) : result error Schema :=
  match schemas m !! id with
  | Some s => if bool_decide (sc_DeletedAt s = None) then Ok s else Err ErrNotFound
  | None => Err ErrNotFound
  end.
Definition GetSchemaByName (name : string) (m : MemoryStore) : result error Schema :=
  match list_find (λ p, alive_schema name p.2) (map_range (schemas m)) with
  | Some (_, (_, s)) => Ok s
  | None => Err ErrNotFound
  end.
Definition ListSchemas (limit offset : Z) (m : MemoryStore) : result error (list Schema) :=
  let all := filter (λ s, sc_DeletedAt s = None) (map_range (schemas m)).*2 in
  Ok (paginate (sort_slice (λ a b, String.ltb (sc_ID a) (sc_ID b)) all) offset limit).
Definition DeleteSchema (id : string) (m : MemoryStore) : result error unit * MemoryStore :=
  match GetSchemaByID id m with
  | Err e => (Err e, m)
  | Ok s =>
    let s := {| sc_ID := sc_ID s; sc_Name := sc_Name s; sc_Description := sc_Description s;
                sc_CreatedAt := sc_CreatedAt s; sc_UpdatedAt := sc_UpdatedAt s; sc_DeletedAt := Some (clock (ticks m)) |} in
    (Ok tt, mkStore (<[id := s]> (schemas m)) (schemaVersions m) (schemaFields m) (tenants m) (fieldLocks m)
              (configVersions m) (configValues m) (auditLog m) (draws m) (S (ticks m)))
  end.

(** *** Versions *)
Definition with_versions (vs : gmap string SchemaVersion) (d t : nat) (m : MemoryStore) : MemoryStore :=
  mkStore (schemas m) vs (schemaFields m) (tenants m) (fieldLocks m) (configVersions m)
    (configValues m) (auditLog m) (d + draws m) (t + ticks m).
Definition CreateSchemaVersion (arg : CreateSchemaVersionParams) (m : MemoryStore) :
    result error SchemaVersion * MemoryStore :=
  match schemas m !! csv_SchemaID arg with
  | None => (Err ErrNotFound, m)
  | Some _ =>
    let or_empty raw := if bool_decide (raw = "") then "[]" else raw in
    let sv := {| sv_ID := nextID m; sv_SchemaID := csv_SchemaID arg; sv_Version := csv_Version arg;
                 sv_ParentVersion := csv_ParentVersion arg; sv_Description := csv_Description arg;
                 sv_Checksum := csv_Checksum arg; sv_Published := false;
                 sv_DependentRequired := or_empty (csv_DependentRequired arg);
                 sv_Validations := or_empty (csv_Validations arg); sv_CreatedAt := clock (ticks m) |} in
    (Ok sv, with_versions (<[sv_ID sv := sv]> (schemaVersions m)) 1 1 m)
  end.

Definition is_version (schemaID : string) (version : Z) (sv : SchemaVersion) : Prop :=
  sv_SchemaID sv = schemaID ∧ sv_Version sv = version.
Definition GetSchemaVersion (schemaID : string) (version : Z) (m : MemoryStore) : result error SchemaVersion :=
  match list_find (λ p, is_version schemaID version p.2) (map_range (schemaVersions m)) with
  | Some (_, (_, sv)) => Ok sv
  | None => Err ErrNotFound
  end.

(** The loop body of the two searches for a latest version. *)
Definition later_version (latest : option SchemaVersion) (sv : SchemaVersion) : option SchemaVersion :=
  match latest with
  | None => Some sv
  | Some l => if sv_Version l <? sv_Version sv then Some sv else Some l
  end.
Definition GetLatestSchemaVersion (schemaID : string) (m : MemoryStore) : result error SchemaVersion :=
  match foldl (λ latest p, if bool_decide (sv_SchemaID p.2 = schemaID) then later_version latest p.2 else latest)
          None (map_range (schemaVersions m)) with
  | None => Err ErrNotFound
  | Some sv => Ok sv
  end.
Definition GetLatestSchemaVersionsBatch (schemaIDs : list string) (m : MemoryStore) : result error (list SchemaVersion) :=
  let latest := foldl (λ (acc : gmap string SchemaVersion) p,
      if bool_decide (sv_SchemaID p.2 ∈ schemaIDs) then
        match later_version (acc !! sv_SchemaID p.2) p.2 with
        | Some l => <[sv_SchemaID p.2 := l]> acc
        | None => acc
        end
      else acc) ∅ (map_range (schemaVersions m)) in
  Ok (map_range latest).*2.

Definition publish (sv : SchemaVersion) : SchemaVersion :=
  {| sv_ID := sv_ID sv; sv_SchemaID := sv_SchemaID sv; sv_Version := sv_Version sv;
     sv_ParentVersion := sv_ParentVersion sv; sv_Description := sv_Description sv;
     sv_Checksum := sv_Checksum sv; sv_Published := true; sv_DependentRequired := sv_DependentRequired sv;
     sv_Validations := sv_Validations sv; sv_CreatedAt := sv_CreatedAt sv |}.
Definition PublishSchemaVersion (schemaID : string) (version : Z) (m : MemoryStore) :
    result error SchemaVersion * MemoryStore :=
  match list_find (λ p, is_version schemaID version p.2) (map_range (schemaVersions m)) with
  | None => (Err ErrNotFound, m)
  | Some (_, (id, sv)) => (Ok (publish sv), with_versions (<[id := publish sv]> (schemaVersions m)) 0 0 m)
  end.

(** *** Fields *)
Definition fields_of (m : MemoryStore) (id : string) : list SchemaField := default [] (schemaFields m !! id).
Definition with_fields (id : string) (fs : list SchemaField) (d : nat) (m : MemoryStore) : MemoryStore :=
  mkStore (schemas m) (schemaVersions m) (<[id := fs]> (schemaFields m)) (tenants m) (fieldLocks m)
    (configVersions m) (configValues m) (auditLog m) (d + draws m) (ticks m).
Definition new_field (id : string) (arg : CreateSchemaFieldParams) : SchemaField :=
  {| sf_ID := id; sf_SchemaVersionID := csf_SchemaVersionID arg; sf_Path := csf_Path arg;
     sf_FieldType := csf_FieldType arg; sf_Constraints := csf_Constraints arg;
     sf_Nullable := csf_Nullable arg; sf_Deprecated := csf_Deprecated arg;
     sf_RedirectTo := csf_RedirectTo arg; sf_DefaultValue := csf_DefaultValue arg;
     sf_Description := csf_Description arg; sf_Title := csf_Title arg; sf_Example := csf_Example arg;
     sf_Examples := csf_Examples arg; sf_ExternalDocs := csf_ExternalDocs arg; sf_Tags := csf_Tags arg;
     sf_Format := csf_Format arg; sf_ReadOnly := csf_ReadOnly arg; sf_WriteOnce := csf_WriteOnce arg;
     sf_Sensitive := csf_Sensitive arg |}.
Definition CreateSchemaField (arg : CreateSchemaFieldParams) (m : MemoryStore) : result error SchemaField * MemoryStore :=
  match schemaVersions m !! csf_SchemaVersionID arg with
  | None => (Err ErrNotFound, m)
  | Some _ =>
    let f := new_field (nextID m) arg in
    (Ok f, with_fields (csf_SchemaVersionID arg) (fields_of m (csf_SchemaVersionID arg) ++ [f]) 1 m)
  end.
Fixpoint BulkCreateSchemaFields (args : list CreateSchemaFieldParams) (m : MemoryStore) :
    result error (list SchemaField) * MemoryStore :=
  match args with
  | [] => (Ok [], m)
  | a :: args =>
    match CreateSchemaField a m with
    | (Err e, m) => (Err e, m)
    | (Ok f, m) =>
      match BulkCreateSchemaFields args m with
      | (Err e, m) => (Err e, m)
      | (Ok fs, m) => (Ok (f :: fs), m)
      end
    end
  end.
Definition GetSchemaFields (schemaVersionID : string) (m : MemoryStore) : result error (list SchemaField) :=
  Ok (fields_of m schemaVersionID).
Definition GetSchemaFieldsByVersionIDs (versionIDs : list string) (m : MemoryStore) : result error (list SchemaField) :=
  Ok (concat (filter (λ p, p.1 ∈ versionIDs) (map_range (schemaFields m))).*2).
(** The first element that satisfies [P] is taken out. *)
Fixpoint remove_first {A} (P : A → bool) (l : list A) : option (list A) :=
  match l with
  | [] => None
  | x :: l => if P x then Some l else (x ::.) <$> remove_first P l
  end.
Definition DeleteSchemaField (schemaVersionID path : string) (m : MemoryStore) : result error unit * MemoryStore :=
  match fields ← schemaFields m !! schemaVersionID; remove_first (λ f, bool_decide (sf_Path f = path)) fields with
  | None => (Err ErrNotFound, m)
  | Some fields => (Ok tt, with_fields schemaVersionID fields 0 m)
  end.

(** *** Tenants *)
Definition with_tenants (ts : gmap string Tenant) (d t : nat) (m : MemoryStore) : MemoryStore :=
  mkStore (schemas m) (schemaVersions m) (schemaFields m) ts (fieldLocks m) (configVersions m)
    (configValues m) (auditLog m) (d + draws m) (t + ticks m).
Definition CreateTenant (arg : CreateTenantParams) (m : MemoryStore) : result error Tenant * MemoryStore :=
  let now := clock (ticks m) in
  let t := {| tn_ID := nextID m; tn_Name := ct_Name arg; tn_SchemaID := ct_SchemaID arg;
              tn_SchemaVersion := ct_SchemaVersion arg; tn_CreatedAt := now; tn_UpdatedAt := now; tn_DeletedAt := None |} in
  (Ok t, with_tenants (<[tn_ID t := t]> (tenants m)) 1 1 m).
Definition GetTenantByID (id : string) (m : MemoryStore) : result error Tenant :=
  match tenants m !! id with
  | Some t => if bool_decide (tn_DeletedAt t = None) then Ok t else Err ErrNotFound
  | None => Err ErrNotFound
  end.
Definition GetTenantByName (name : string) (m : MemoryStore) : result error Tenant :=
  match list_find (λ p, tn_Name p.2 = name ∧ tn_DeletedAt p.2 = None) (map_range (tenants m)) with
  | Some (_, (_, t)) => Ok t
  | None => Err ErrNotFound
  end.
Definition GetTenantsByNames (names : list string) (m : MemoryStore) : result error (list Tenant) :=
  Ok (filter (λ t, tn_DeletedAt t = None ∧ tn_Name t ∈ names) (map_range (tenants m)).*2).

Definition newer_tenant (a b : Tenant) : bool :=
  if tn_CreatedAt a =? tn_CreatedAt b then String.ltb (tn_ID b) (tn_ID a) else tn_CreatedAt b <? tn_CreatedAt a.
Definition tenant_after (cur : Pagination.PageCursor) (t : Tenant) : bool :=
  (tn_CreatedAt t <? Pagination.Time cur)
  || (tn_CreatedAt t =? Pagination.Time cur) && String.ltb (tn_ID t) (Pagination.ID cur).
Definition paginateTenants (ts : list Tenant) (cursor : option Pagination.PageCursor) (offset limit : Z) : list Tenant :=
  let ts := sort_slice newer_tenant ts in
  match cursor with
  | None => paginate ts offset limit
  | Some cur =>
    let ts := filter (λ t, tenant_after cur t = true) ts in
    if (0 <? limit) && (limit <? Z.of_nat (length ts)) then take (Z.to_nat limit) ts else ts
  end.
Definition allowed (ids : option (list string)) (t : Tenant) : Prop :=
  match ids with None => True | Some ids => tn_ID t ∈ ids end.
Global Instance allowed_dec ids t : Decision (allowed ids t).
Proof. destruct ids; simpl; apply _. Defined.
Definition ListTenants (arg : ListTenantsParams) (m : MemoryStore) : result error (list Tenant) :=
  let all := filter (λ t, tn_DeletedAt t = None ∧ allowed (lt_Allowed arg) t) (map_range (tenants m)).*2 in
  Ok (paginateTenants all (lt_Cursor arg) (lt_Offset arg) (lt_Limit arg)).
Definition ListTenantsBySchema (schemaID : string) (arg : ListTenantsParams) (m : MemoryStore) : result error (list Tenant) :=
  let all := filter (λ t, (tn_DeletedAt t = None ∧ tn_SchemaID t = schemaID) ∧ allowed (lt_Allowed arg) t)
               (map_range (tenants m)).*2 in
  Ok (paginateTenants all (lt_Cursor arg) (lt_Offset arg) (lt_Limit arg)).

(** The three updates of a tenant that is not deleted. *)
Definition change_tenant (id : string) (f : Z → Tenant → Tenant) (m : MemoryStore) : result error Tenant * MemoryStore :=
  match GetTenantByID id m with
  | Err e => (Err e, m)
  | Ok t => let t := f (clock (ticks m)) t in (Ok t, with_tenants (<[id := t]> (tenants m)) 0 1 m)
  end.
Definition UpdateTenantName (id name : string) : MemoryStore → result error Tenant * MemoryStore :=
  change_tenant id (λ now t, {| tn_ID := tn_ID t; tn_Name := name; tn_SchemaID := tn_SchemaID t;
    tn_SchemaVersion := tn_SchemaVersion t; tn_CreatedAt := tn_CreatedAt t; tn_UpdatedAt := now; tn_DeletedAt := tn_DeletedAt t |}).
Definition UpdateTenantSchemaVersion (id : string) (version : Z) : MemoryStore → result error Tenant * MemoryStore :=
  change_tenant id (λ now t, {| tn_ID := tn_ID t; tn_Name := tn_Name t; tn_SchemaID := tn_SchemaID t;
    tn_SchemaVersion := version; tn_CreatedAt := tn_CreatedAt t; tn_UpdatedAt := now; tn_DeletedAt := tn_DeletedAt t |}).
Definition soft_delete (now : Z) (t : Tenant) : Tenant :=
  {| tn_ID := tn_ID t; tn_Name := tn_Name t; tn_SchemaID := tn_SchemaID t; tn_SchemaVersion := tn_SchemaVersion t;
     tn_CreatedAt := tn_CreatedAt t; tn_UpdatedAt := tn_UpdatedAt t; tn_DeletedAt := Some now |}.
Definition DeleteTenant (id : string) (m : MemoryStore) : result error unit * MemoryStore :=
  let '(r, m) := change_tenant id soft_delete m in
  (match r with Ok _ => Ok tt | Err e => Err e end, m).

(** *** Field locks *)
Definition locks_of (m : MemoryStore) (id : string) : list TenantFieldLock := default [] (fieldLocks m !! id).
Definition with_locks (id : string) (l : list TenantFieldLock) (m : MemoryStore) : MemoryStore :=
  mkStore (schemas m) (schemaVersions m) (schemaFields m) (tenants m) (<[id := l]> (fieldLocks m))
    (configVersions m) (configValues m) (auditLog m) (draws m) (ticks m).
Definition CreateFieldLock (arg : CreateFieldLockParams) (m : MemoryStore) : result error unit * MemoryStore :=
  match GetTenantByID (cl_TenantID arg) m with
  | Err e => (Err e, m)
  | Ok _ =>
    let lock := {| lk_TenantID := cl_TenantID arg; lk_FieldPath := cl_FieldPath arg; lk_LockedValues := cl_LockedValues arg |} in
    (Ok tt, with_locks (cl_TenantID arg) (locks_of m (cl_TenantID arg) ++ [lock]) m)
  end.
Definition DeleteFieldLock (tenantID fieldPath : string) (m : MemoryStore) : result error unit * MemoryStore :=
  match locks ← fieldLocks m !! tenantID; remove_first (λ l, bool_decide (lk_FieldPath l = fieldPath)) locks with
  | None => (Err ErrNotFound, m)
  | Some locks => (Ok tt, with_locks tenantID locks m)
  end.
Definition GetFieldLocks (tenantID : string) (m : MemoryStore) : result error (list TenantFieldLock) :=
  Ok (locks_of m tenantID).
Definition ListFieldLocks (tenantID : string) (limit offset : Z) (m : MemoryStore) : result error (list TenantFieldLock) :=
  Ok (paginate (locks_of m tenantID) offset limit).

(** *** The first config of a tenant *)
Definition SeedTenantConfig (arg : SeedTenantConfigParams) (m : MemoryStore) : result error unit * MemoryStore :=
  if bool_decide (size (sp_Values arg) = 0%nat) then (Ok tt, m) else
  let cvID := nextID m in
  let cv := {| cv_ID := cvID; cv_TenantID := sp_TenantID arg; cv_Version := 1;
               cv_Description := Some "Initial config from schema defaults"; cv_CreatedBy := sp_Actor arg;
               cv_CreatedAt := clock (ticks m) |} in
  let values := (λ p, {| val_ConfigVersionID := cvID; val_FieldPath := p.1; val_Value := Some (sd_Value p.2);
                         val_Checksum := Some (sd_Checksum p.2); val_Description := None |})
                  <$> map_range (sp_Values arg) in
  (Ok tt, mkStore (schemas m) (schemaVersions m) (schemaFields m) (tenants m) (fieldLocks m)
            (<[cvID := cv]> (configVersions m)) (<[cvID := values]> (configValues m)) (auditLog m)
            (S (draws m)) (S (ticks m))).

#[export] Instance memory_schema_db : SchemaDB MemoryStore := {|
  db_RunInTx := @RunInTx;
  db_InsertAuditWriteLog := InsertAuditWriteLog;
  db_CreateSchema := CreateSchema;
  db_GetSchemaByID := GetSchemaByID;
  db_GetSchemaByName := GetSchemaByName;
  db_ListSchemas := ListSchemas;
  db_DeleteSchema := DeleteSchema;
  db_CreateSchemaVersion := CreateSchemaVersion;
  db_GetSchemaVersion := GetSchemaVersion;
  db_GetLatestSchemaVersion := GetLatestSchemaVersion;
  db_PublishSchemaVersion := PublishSchemaVersion;
  db_GetLatestSchemaVersionsBatch := GetLatestSchemaVersionsBatch;
  db_BulkCreateSchemaFields := BulkCreateSchemaFields;
  db_GetSchemaFields := GetSchemaFields;
  db_GetSchemaFieldsByVersionIDs := GetSchemaFieldsByVersionIDs;
  db_CreateTenant := CreateTenant;
  db_GetTenantByID := GetTenantByID;
  db_GetTenantByName := GetTenantByName;
  db_ListTenants := ListTenants;
  db_ListTenantsBySchema := ListTenantsBySchema;
  db_UpdateTenantName := UpdateTenantName;
  db_UpdateTenantSchemaVersion := UpdateTenantSchemaVersion;
  db_DeleteTenant := DeleteTenant;
  db_CreateFieldLock := CreateFieldLock;
  db_DeleteFieldLock := DeleteFieldLock;
  db_ListFieldLocks := ListFieldLocks;
  db_SeedTenantConfig := SeedTenantConfig
|}.
End ops.
End SchemaMem.
