(* ===== verification/SchemaService.v ===== *)
(** * The schema service ([internal/schema/service.go])

    The handlers for schemas, tenants and field locks, over any store
    ([SchemaDB]) and any validator factory that can drop what it holds for a
    tenant or a schema ([ValidatorCaches]). The state is that factory and the
    store. Logging and metrics are left out. *)
From S2P Require Import Prelude GoText GoTime Json Pagination Domain ConfigStore MemStore Convert Auth Validation CrossField ValidatorFactory SchemaTypes SchemaYaml CelLint SchemaStore.
Import Convert Auth Authz.
Local Open Scope Z_scope.

(** ** Interfaces *)
Class ValidatorCaches (V : Type) := {
  drop_tenant (tenantID : string) (v : V) : V;       (* Cache().Invalidate and InvalidateRules *)
  drop_schema (schemaID : string) (v : V) : V        (* InvalidateSchemaPrograms *)
}.
(** A nil factory. *)
#[export] Instance no_factory : ValidatorCaches unit := {| drop_tenant _ v := v; drop_schema _ v := v |}.


(** ** Requests and responses *)
Record CreateSchemaRequest := { cr_Name : string; cr_Description : string; cr_Fields : list pbSchemaField }.
Record GetSchemaRequest := { gs_Id : string; gs_Version : option Z }.
Record ListSchemasRequest := { ls_PageSize : Z; ls_PageToken : string }.
Record ListSchemasResponse := { lsr_Schemas : list pbSchema; lsr_NextPageToken : string }.
Record UpdateSchemaRequest := {
  us_Id : string; us_Fields : list pbSchemaField; us_RemoveFields : list string; us_VersionDescription : string }.
Record PublishSchemaRequest := { pu_Id : string; pu_Version : Z }.
Record CreateTenantRequest := { tc_Name : string; tc_SchemaId : string; tc_SchemaVersion : Z }.
Record ListTenantsRequest := { tl_SchemaId : option string; tl_PageSize : Z; tl_PageToken : string }.
Record ListTenantsResponse := { tlr_Tenants : list pbTenant; tlr_NextPageToken : string }.
Record UpdateTenantRequest := { tu_Id : string; tu_Name : option string; tu_SchemaVersion : option Z }.
Record LockFieldRequest := { lo_TenantId : string; lo_FieldPath : string; lo_LockedValues : list string }.
Record UnlockFieldRequest := { un_TenantId : string; un_FieldPath : string }.
Record ListFieldLocksRequest := { fl_TenantId : string; fl_PageSize : Z; fl_PageToken : string }.
Record ListFieldLocksResponse := { flr_Locks : list pbFieldLock; flr_NextPageToken : string }.
Record ExportSchemaRequest := { ex_Id : string; ex_Version : option Z; ex_SpecVersion : option string }.
Record ImportSchemaRequest := { is_YamlContent : string; is_AutoPublish : bool }.

(** ** Errors *)
Definition is_AlreadyExists (e : error) : bool :=
  errors_Is (λ e, match e with ErrAlreadyExists => true | _ => false end) e.
Definition is_ReferencedByOther (e : error) : bool :=
  errors_Is (λ e, match e with ErrReferencedByOther => true | _ => false end) e.
Definition errToStatus (notFoundMsg failedMsg : string) (e : error) : error :=
  if is_NotFound e then Status0 NotFound notFoundMsg
  else if is_AlreadyExists e then Status0 AlreadyExists "resource with this name already exists"
  else if is_ReferencedByOther e then Status0 FailedPrecondition "schema is referenced by active config versions"
  else Status0 Internal failedMsg.
(** An error that has a status is returned as it is. *)
Definition status_or (failedMsg : string) (e : error) : error :=
  match status_code_of e with Some _ => e | None => Status0 Internal failedMsg end.
Definition internal (failedMsg : string) (_ : error) : error := Status0 Internal failedMsg.

Definition getActor (ctx : Ctx) : string :=
  match ctx_claims ctx with Some c => Subject c | None => "unknown" end.

(** ** The service *)
Record Service := { svc_guard : Guard; svc_limits : Limits }.
Definition NewService (limits : option Limits) (guard : option Guard) : Service := {|
  svc_guard := default (Chain [TenantScopeGuard; RolePolicyGuard]) guard;
  svc_limits := default DefaultLimits limits |}.

Definition global_resource : Resource := {| res_TenantID := ""; res_FieldPath := ""; res_Value := "" |}.
Definition tenant_resource (id : string) : Resource := {| res_TenantID := id; res_FieldPath := ""; res_Value := "" |}.
Definition slug_error : error :=
  Status0 InvalidArgument "name must be a slug: lowercase alphanumeric and hyphens, 1-63 chars".
Definition id_required : error := Status0 InvalidArgument "schema id or name required".
Definition too_many_fields (n limit : Z) : error :=
  Status InvalidArgument "schema has %d fields, exceeds limit of %d" [AInt n; AInt limit].

(** An audit entry of this package; there is no config version. *)
Definition audit (tenantID actor action kind : string) (path old new meta : option string) : InsertAuditWriteLogParams := {|
  au_TenantID := tenantID; au_Actor := actor; au_Action := action; au_ObjectKind := kind; au_FieldPath := path;
  au_OldValue := old; au_NewValue := new; au_ConfigVersion := None; au_Metadata := meta |}.
Definition json_opt_string (s : option string) : string := match s with Some s => Json.encode_string s | None => "null" end.
Definition json_opt_int (z : option Z) : string := match z with Some z => itoa z | None => "null" end.

Section handlers.
Context {S V : Type}.
Context `{SchemaDB S, ValidatorCaches V, SchemaYamlLib, CelParser}.
Context `{XXHash, Regexp, JsonSchema, CompileRace, UrlRest, MapRange, SortSlice}.
Context (svc : Service).
Abbreviation M := (ST (V * S)).

(** Reads and writes of the store the state holds, which is the transaction's
    own inside one. *)
Definition reads {A} (f : S → result error A) : M A := λ '(v, s), (f s, (v, s)).
Definition writes {A} (f : S → result error A * S) : M A := λ '(v, s), let '(r, s) := f s in (r, (v, s)).
Definition caches (f : V → V) : M unit := λ '(v, s), (Ok tt, (f v, s)).

Definition must_have_claims (ctx : Ctx) : M unit := of_result (MustHaveClaims ctx).
Definition check (ctx : Ctx) (action : Action) (r : Resource) : M unit := of_result (svc_guard svc ctx action r).
Definition require (ok : bool) (e : error) : M unit := if ok then mret tt else fail e.

Definition resolveSchema (idOrName : string) : M Schema :=
  reads (if IsUUID idOrName then db_GetSchemaByID idOrName else db_GetSchemaByName idOrName).

Definition resolveTenantWithAccess (ctx : Ctx) (idOrName : string) : M Tenant :=
  require (negb (bool_decide (idOrName = ""))) (Status0 InvalidArgument "tenant id or name required") ;;
  tenant ← map_err (λ e, if is_NotFound e then Status0 NotFound "tenant not found" else Status0 Internal "failed to resolve tenant")
    (reads (if IsUUID idOrName then db_GetTenantByID idOrName else db_GetTenantByName idOrName));
  map_err (λ e, if bool_decide (status_code_of e = Some PermissionDenied) then Status0 NotFound "tenant not found" else e)
    (check ctx ActionRead (tenant_resource (tn_ID tenant))) ;;
  mret tenant.

(** [createFieldsOn]. *)
Definition createFieldsOn (versionID : string) (fields : list pbSchemaField) : M (list SchemaField) :=
  map_err (λ e, Status InvalidArgument "%v" [AErr e]) (of_result (validateNoPrefixOverlap fields)) ;;
  params ← of_result (collect_params versionID fields (RegexPatternMaxLength (svc_limits svc)));
  map_err (internal "failed to create schema fields") (writes (db_BulkCreateSchemaFields params)).

(** *** Schemas *)
Definition CreateSchema_tx (actor checksum : string) (req : CreateSchemaRequest) : M (Schema * SchemaVersion * list SchemaField) :=
  sc ← map_err (λ e, if is_AlreadyExists e then Status0 AlreadyExists "schema with this name already exists" else e)
    (writes (db_CreateSchema {| cs_Name := cr_Name req; cs_Description := ptrString (cr_Description req) |}));
  version ← writes (db_CreateSchemaVersion {| csv_SchemaID := sc_ID sc; csv_Version := 1; csv_ParentVersion := None;
    csv_Description := None; csv_Checksum := checksum; csv_DependentRequired := ""; csv_Validations := "" |});
  fields ← createFieldsOn (sv_ID version) (cr_Fields req);
  writes (db_InsertAuditWriteLog (audit "" actor "create_schema" "schema" None None (ptrString (sc_ID sc))
    (Some (Json.encode_object [("name", Json.encode_string (cr_Name req))])))) ;;
  mret (sc, version, fields).

Definition CreateSchema (ctx : Ctx) (req : CreateSchemaRequest) : M pbSchema :=
  must_have_claims ctx ;;
  check ctx ActionGlobal global_resource ;;
  require (negb (bool_decide (cr_Name req = ""))) (Status0 InvalidArgument "name is required") ;;
  require (isValidSlug (cr_Name req)) slug_error ;;
  let n := Z.of_nat (length (cr_Fields req)) in
  let limit := MaxFields (svc_limits svc) in
  require (negb ((0 <? limit) && (limit <? n))) (too_many_fields n limit) ;;
  '(sc, version, fields) ← map_err (status_or "failed to create schema")
    (db_RunInTx (CreateSchema_tx (getActor ctx) (SchemaTypes.computeChecksum (cr_Fields req)) req));
  mret (schemaToProto sc version fields).

Definition GetSchema (ctx : Ctx) (req : GetSchemaRequest) : M pbSchema :=
  must_have_claims ctx ;;
  require (negb (bool_decide (gs_Id req = ""))) id_required ;;
  schema ← map_err (errToStatus "schema not found" "failed to get schema") (resolveSchema (gs_Id req));
  version ← map_err (errToStatus "schema version not found" "failed to get schema version")
    (reads (match gs_Version req with
            | Some v => db_GetSchemaVersion (sc_ID schema) v
            | None => db_GetLatestSchemaVersion (sc_ID schema)
            end));
  fields ← map_err (internal "failed to get schema fields") (reads (db_GetSchemaFields (sv_ID version)));
  mret (schemaToProto schema version fields).

(** The fields of a list, grouped by version. *)
Definition group_fields (fields : list SchemaField) : gmap string (list SchemaField) :=
  foldl (λ m f, <[sf_SchemaVersionID f := default [] (m !! sf_SchemaVersionID f) ++ [f]]> m) ∅ fields.

Definition ListSchemas (ctx : Ctx) (req : ListSchemasRequest) : M ListSchemasResponse :=
  must_have_claims ctx ;;
  let pageSize := Pagination.ClampPageSize (ls_PageSize req) 50 100 in
  match Pagination.DecodePageToken (ls_PageToken req) with
  | Err _ => fail (Status0 InvalidArgument "invalid page token")
  | Ok offset =>
    found ← map_err (internal "failed to list schemas") (reads (db_ListSchemas (int32 (pageSize + 1)) offset));
    let count := int32 (Z.of_nat (length found)) in
    let nextToken := Pagination.NextPageToken pageSize count offset in
    let page := if pageSize <? count then take (Z.to_nat pageSize) found else found in
    match page with
    | [] => mret {| lsr_Schemas := []; lsr_NextPageToken := nextToken |}
    | _ =>
      versions ← map_err (internal "failed to get latest schema versions")
        (reads (db_GetLatestSchemaVersionsBatch (sc_ID <$> page)));
      let versionsBySchema := foldl (λ (m : gmap string SchemaVersion) v, <[sv_SchemaID v := v]> m) ∅ versions in
      allFields ← map_err (internal "failed to get schema fields")
        (reads (db_GetSchemaFieldsByVersionIDs (sv_ID <$> versions)));
      let fieldsByVersion := group_fields allFields in
      mret {| lsr_Schemas := omap (λ sc, v ← versionsBySchema !! sc_ID sc;
                               Some (schemaToProto sc v (default [] (fieldsByVersion !! sv_ID v)))) page;
              lsr_NextPageToken := nextToken |}
    end
  end.

(** The fields of the next version: the existing ones, without those removed,
    with those of the request. *)
Definition merge_fields (existing : list SchemaField) (req : UpdateSchemaRequest) : gmap string pbSchemaField :=
  let m := foldl (λ m f, <[sf_Path f := fieldToProto f]> m) ∅ existing in
  let m := foldl (λ m p, delete p m) m (us_RemoveFields req) in
  foldl (λ m f, <[f_Path f := f]> m) m (us_Fields req).

Definition UpdateSchema_tx (actor checksum : string) (schema : Schema) (latest : SchemaVersion)
    (merged : list pbSchemaField) (req : UpdateSchemaRequest) : M (SchemaVersion * list SchemaField) :=
  newVersion ← writes (db_CreateSchemaVersion {| csv_SchemaID := sc_ID schema; csv_Version := int32 (sv_Version latest + 1);
    csv_ParentVersion := Some (sv_Version latest); csv_Description := ptrString (us_VersionDescription req);
    csv_Checksum := checksum; csv_DependentRequired := ""; csv_Validations := "" |});
  fields ← createFieldsOn (sv_ID newVersion) merged;
  writes (db_InsertAuditWriteLog (audit "" actor "update_schema" "schema" None None (ptrString (sc_ID schema))
    (Some (Json.encode_object [("schema_id", Json.encode_string (sc_ID schema)); ("version", itoa (sv_Version newVersion))])))) ;;
  mret (newVersion, fields).

Definition UpdateSchema (ctx : Ctx) (req : UpdateSchemaRequest) : M pbSchema :=
  must_have_claims ctx ;;
  check ctx ActionGlobal global_resource ;;
  require (negb (bool_decide (us_Id req = ""))) id_required ;;
  let n := Z.of_nat (length (us_RemoveFields req)) in
  let limit := MaxRemoveFields (svc_limits svc) in
  require (negb ((0 <? limit) && (limit <? n)))
    (Status InvalidArgument "remove_fields has %d entries, exceeds limit of %d" [AInt n; AInt limit]) ;;
  schema ← map_err (errToStatus "schema not found" "failed to get schema") (resolveSchema (us_Id req));
  latest ← map_err (internal "failed to get latest version") (reads (db_GetLatestSchemaVersion (sc_ID schema)));
  existing ← map_err (internal "failed to get fields") (reads (db_GetSchemaFields (sv_ID latest)));
  let merged := (map_range (merge_fields existing req)).*2 in
  '(newVersion, fields) ← map_err (status_or "failed to update schema")
    (db_RunInTx (UpdateSchema_tx (getActor ctx) (SchemaTypes.computeChecksum merged) schema latest merged req));
  mret (schemaToProto schema newVersion fields).

Definition DeleteSchema_tx (actor : string) (schema : Schema) : M unit :=
  writes (db_DeleteSchema (sc_ID schema)) ;;
  writes (db_InsertAuditWriteLog (audit "" actor "delete_schema" "schema" None (ptrString (sc_ID schema)) None None)).
Definition DeleteSchema (ctx : Ctx) (id : string) : M unit :=
  must_have_claims ctx ;;
  check ctx ActionGlobal global_resource ;;
  require (negb (bool_decide (id = ""))) id_required ;;
  schema ← map_err (errToStatus "schema not found" "failed to resolve schema") (resolveSchema id);
  map_err (errToStatus "schema not found" "failed to delete schema") (db_RunInTx (DeleteSchema_tx (getActor ctx) schema)) ;;
  caches (drop_schema (sc_ID schema)).

Definition PublishSchema_tx (actor : string) (schema : Schema) (version : Z) : M (SchemaVersion * list SchemaField) :=
  v ← writes (db_PublishSchemaVersion (sc_ID schema) version);
  fields ← reads (db_GetSchemaFields (sv_ID v));
  writes (db_InsertAuditWriteLog (audit "" actor "publish_schema" "schema" None None (ptrString (sc_ID schema))
    (Some (Json.encode_object [("schema_id", Json.encode_string (sc_ID schema)); ("version", itoa version)])))) ;;
  mret (v, fields).
Definition PublishSchema (ctx : Ctx) (req : PublishSchemaRequest) : M pbSchema :=
  must_have_claims ctx ;;
  check ctx ActionGlobal global_resource ;;
  require (negb (bool_decide (pu_Id req = ""))) id_required ;;
  schema ← map_err (errToStatus "schema not found" "failed to get schema") (resolveSchema (pu_Id req));
  '(version, fields) ← map_err (errToStatus "schema version not found" "failed to publish schema version")
    (db_RunInTx (PublishSchema_tx (getActor ctx) schema (pu_Version req)));
  mret (schemaToProto schema version fields).

(** *** Tenants *)
Definition unpublished : error :=
  Status0 FailedPrecondition "schema version must be published before assigning to a tenant".

Definition CreateTenant_tx (actor : string) (req : CreateTenantRequest) (defaults : gmap string SeedValue) : M Tenant :=
  tenant ← map_err (λ e, if is_AlreadyExists e then Status0 AlreadyExists "tenant with this name already exists" else e)
    (writes (db_CreateTenant {| ct_Name := tc_Name req; ct_SchemaID := tc_SchemaId req; ct_SchemaVersion := tc_SchemaVersion req |}));
  (if (0 <? size defaults)%nat
   then writes (db_SeedTenantConfig {| sp_TenantID := tn_ID tenant; sp_Actor := actor; sp_Values := defaults |})
   else mret tt) ;;
  writes (db_InsertAuditWriteLog (audit (tn_ID tenant) actor "create_tenant" "tenant" None None (ptrString (tn_ID tenant))
    (Some (Json.encode_object [("name", Json.encode_string (tc_Name req)); ("schema_id", Json.encode_string (tc_SchemaId req));
                               ("schema_version", itoa (tc_SchemaVersion req))])))) ;;
  mret tenant.

Definition CreateTenant (ctx : Ctx) (req : CreateTenantRequest) : M pbTenant :=
  must_have_claims ctx ;;
  check ctx ActionGlobal global_resource ;;
  require (negb (bool_decide (tc_Name req = ""))) (Status0 InvalidArgument "name is required") ;;
  require (isValidSlug (tc_Name req)) slug_error ;;
  require (IsUUID (tc_SchemaId req)) (Status0 InvalidArgument "invalid schema id") ;;
  version ← map_err (errToStatus "schema version not found" "failed to get schema version")
    (reads (db_GetSchemaVersion (tc_SchemaId req) (tc_SchemaVersion req)));
  require (sv_Published version) unpublished ;;
  fields ← map_err (internal "failed to load schema fields") (reads (db_GetSchemaFields (sv_ID version)));
  defaults ← map_err (λ e, Status FailedPrecondition "%v" [AErr e]) (of_result (collectDefaultValues fields));
  tenant ← map_err (status_or "failed to create tenant") (db_RunInTx (CreateTenant_tx (getActor ctx) req defaults));
  mret (tenantToProto tenant).

Definition GetTenant (ctx : Ctx) (id : string) : M pbTenant :=
  must_have_claims ctx ;;
  tenant ← resolveTenantWithAccess ctx id;
  mret (tenantToProto tenant).

Definition ListTenants (ctx : Ctx) (req : ListTenantsRequest) : M ListTenantsResponse :=
  must_have_claims ctx ;;
  let pageSize := Pagination.ClampPageSize (tl_PageSize req) 50 500 in
  match Pagination.DecodeTokenKind (tl_PageToken req) with
  | Err _ => fail (Status0 InvalidArgument "invalid page token")
  | Ok (kind, offset, cursor) =>
    let arg := {| lt_Limit := int32 (pageSize + 1); lt_Offset := offset;
                  lt_Cursor := match kind with Pagination.KindCursor => Some cursor | _ => None end;
                  lt_Allowed := AllowedTenantIDs ctx |} in
    found ← match tl_SchemaId req with
            | Some id =>
              if bool_decide (id = "") then map_err (internal "failed to list tenants") (reads (db_ListTenants arg)) else
              require (IsUUID id) (Status0 InvalidArgument "invalid schema id") ;;
              map_err (internal "failed to list tenants") (reads (db_ListTenantsBySchema id arg))
            | None => map_err (internal "failed to list tenants") (reads (db_ListTenants arg))
            end;
    let count := int32 (Z.of_nat (length found)) in
    let nextToken :=
      match kind with
      | Pagination.KindOffset => Pagination.NextPageToken pageSize count offset
      | _ =>
        if pageSize <? count then
          match found !! Z.to_nat (pageSize - 1) with
          | Some last => Pagination.EncodeCursorToken {| Pagination.Time := tn_CreatedAt last; Pagination.ID := tn_ID last |}
          | None => ""
          end
        else ""
      end in
    let page := if pageSize <? count then take (Z.to_nat pageSize) found else found in
    mret {| tlr_Tenants := tenantToProto <$> page; tlr_NextPageToken := nextToken |}
  end.

(** A Go [domain.Tenant] that no branch has assigned. *)
Definition zero_tenant : Tenant :=
  {| tn_ID := ""; tn_Name := ""; tn_SchemaID := ""; tn_SchemaVersion := 0; tn_CreatedAt := zero_time;
     tn_UpdatedAt := zero_time; tn_DeletedAt := None |}.
Definition UpdateTenant_tx (actor tenantID : string) (req : UpdateTenantRequest) : M Tenant :=
  renamed ← match tu_Name req with
            | Some name =>
              if bool_decide (name = "") then mret zero_tenant else
              require (isValidSlug name) slug_error ;;
              map_err (errToStatus "tenant not found" "failed to update tenant name") (writes (db_UpdateTenantName tenantID name))
            | None => mret zero_tenant
            end;
  rebound ← match tu_SchemaVersion req with
            | Some v => map_err (errToStatus "tenant not found" "failed to update tenant schema version")
                          (writes (db_UpdateTenantSchemaVersion tenantID v))
            | None => mret renamed
            end;
  tenant ← match tu_Name req, tu_SchemaVersion req with
           | None, None => map_err (errToStatus "tenant not found" "failed to get tenant") (reads (db_GetTenantByID tenantID))
           | _, _ => mret rebound
           end;
  writes (db_InsertAuditWriteLog (audit tenantID actor "update_tenant" "tenant" None None (ptrString tenantID)
    (Some (Json.encode_object [("name", json_opt_string (tu_Name req)); ("schema_version", json_opt_int (tu_SchemaVersion req))])))) ;;
  mret tenant.

Definition UpdateTenant (ctx : Ctx) (req : UpdateTenantRequest) : M pbTenant :=
  must_have_claims ctx ;;
  resolved ← resolveTenantWithAccess ctx (tu_Id req);
  check ctx ActionGlobal global_resource ;;
  match tu_SchemaVersion req with
  | Some v =>
    sv ← map_err (errToStatus "schema version not found" "failed to get schema version")
      (reads (db_GetSchemaVersion (tn_SchemaID resolved) v));
    require (sv_Published sv) unpublished
  | None => mret tt
  end ;;
  tenant ← db_RunInTx (UpdateTenant_tx (getActor ctx) (tn_ID resolved) req);
  match tu_SchemaVersion req with Some _ => caches (drop_tenant (tn_ID resolved)) | None => mret tt end ;;
  mret (tenantToProto tenant).

Definition DeleteTenant_tx (actor : string) (tenant : Tenant) : M unit :=
  writes (db_DeleteTenant (tn_ID tenant)) ;;
  writes (db_InsertAuditWriteLog (audit (tn_ID tenant) actor "delete_tenant" "tenant" None (ptrString (tn_ID tenant)) None None)).
Definition DeleteTenant (ctx : Ctx) (id : string) : M unit :=
  must_have_claims ctx ;;
  tenant ← resolveTenantWithAccess ctx id;
  check ctx ActionGlobal global_resource ;;
  map_err (internal "failed to delete tenant") (db_RunInTx (DeleteTenant_tx (getActor ctx) tenant)).

(** *** Field locks *)
Definition path_required : error := Status0 InvalidArgument "field_path must not be empty".
Definition lock_audit (tenant : Tenant) (actor action path : string) : M unit :=
  writes (db_InsertAuditWriteLog (audit (tn_ID tenant) actor action "lock" (ptrString path) None None None)).

Definition LockField_tx (actor : string) (tenant : Tenant) (req : LockFieldRequest) : M unit :=
  writes (db_CreateFieldLock {| cl_TenantID := tn_ID tenant; cl_FieldPath := lo_FieldPath req;
    cl_LockedValues := match lo_LockedValues req with [] => None | l => Some (Json.Marshal_strings l) end |}) ;;
  lock_audit tenant actor "lock_field" (lo_FieldPath req).
Definition LockField (ctx : Ctx) (req : LockFieldRequest) : M unit :=
  must_have_claims ctx ;;
  require (negb (bool_decide (lo_FieldPath req = ""))) path_required ;;
  tenant ← resolveTenantWithAccess ctx (lo_TenantId req);
  check ctx ActionWrite (tenant_resource (tn_ID tenant)) ;;
  map_err (internal "failed to lock field") (db_RunInTx (LockField_tx (getActor ctx) tenant req)).

Definition UnlockField_tx (actor : string) (tenant : Tenant) (path : string) : M unit :=
  writes (db_DeleteFieldLock (tn_ID tenant) path) ;;
  lock_audit tenant actor "unlock_field" path.
Definition UnlockField (ctx : Ctx) (req : UnlockFieldRequest) : M unit :=
  must_have_claims ctx ;;
  require (negb (bool_decide (un_FieldPath req = ""))) path_required ;;
  tenant ← resolveTenantWithAccess ctx (un_TenantId req);
  check ctx ActionWrite (tenant_resource (tn_ID tenant)) ;;
  map_err (internal "failed to unlock field") (db_RunInTx (UnlockField_tx (getActor ctx) tenant (un_FieldPath req))).

Definition ListFieldLocks (ctx : Ctx) (req : ListFieldLocksRequest) : M ListFieldLocksResponse :=
  must_have_claims ctx ;;
  tenant ← resolveTenantWithAccess ctx (fl_TenantId req);
  let pageSize := Pagination.ClampPageSize (fl_PageSize req) 50 200 in
  match Pagination.DecodePageToken (fl_PageToken req) with
  | Err _ => fail (Status0 InvalidArgument "invalid page token")
  | Ok offset =>
    locks ← map_err (internal "failed to list field locks") (reads (db_ListFieldLocks (tn_ID tenant) (int32 (pageSize + 1)) offset));
    let count := int32 (Z.of_nat (length locks)) in
    let page := if pageSize <? count then take (Z.to_nat pageSize) locks else locks in
    mret {| flr_Locks := fieldLockToProto <$> page; flr_NextPageToken := Pagination.NextPageToken pageSize count offset |}
  end.

(** *** Documents *)
Definition ExportSchema (ctx : Ctx) (req : ExportSchemaRequest) : M string :=
  must_have_claims ctx ;;
  schema ← GetSchema ctx {| gs_Id := ex_Id req; gs_Version := ex_Version req |};
  map_err (λ e, Status InvalidArgument "%v" [AErr e])
    (of_result (MarshalSchemaAt schema (default "" (ex_SpecVersion req)))).

(** A version made from a document, outside any transaction. *)
Definition import_version (sc : Schema) (version : Z) (parent : option Z) (parsed : pbSchema) (checksum : string) : M pbSchema :=
  v ← map_err (internal "failed to create schema version")
    (writes (db_CreateSchemaVersion {| csv_SchemaID := sc_ID sc; csv_Version := version; csv_ParentVersion := parent;
      csv_Description := ptrString (ps_VersionDescription parsed); csv_Checksum := checksum;
      csv_DependentRequired := DependentRequired.marshalDependentRequired (ps_DependentRequired parsed);
      csv_Validations := MarshalValidations (ps_Validations parsed) |}));
  fields ← createFieldsOn (sv_ID v) (ps_Fields parsed);
  mret (schemaToProto sc v fields).
Definition importCreateNew (parsed : pbSchema) (checksum : string) : M pbSchema :=
  sc ← map_err (internal "failed to create schema")
    (writes (db_CreateSchema {| cs_Name := ps_Name parsed; cs_Description := ptrString (ps_Description parsed) |}));
  import_version sc 1 None parsed checksum.
Definition importNewVersion (sc : Schema) (latest : SchemaVersion) (parsed : pbSchema) (checksum : string) : M pbSchema :=
  import_version sc (int32 (sv_Version latest + 1)) (Some (sv_Version latest)) parsed checksum.

Definition autoPublish (ctx : Ctx) (schema : pbSchema) : M pbSchema :=
  PublishSchema ctx {| pu_Id := ps_Id schema; pu_Version := ps_Version schema |}.

(** What an import checks before it touches the store. *)
Definition vet_document (req : ImportSchemaRequest) : result error pbSchema :=
  let bad e := Status InvalidArgument "%v" [AErr e] in
  let or_bad {A} (r : result error A) : result error A := match r with Ok a => Ok a | Err e => Err (bad e) end in
  let l := svc_limits svc in
  let n := Z.of_nat (str_len (is_YamlContent req)) in
  let? _ := if (0 <? MaxDocBytes l) && (MaxDocBytes l <? n)
            then Err (Status InvalidArgument "schema document is %d bytes, exceeds limit of %d" [AInt n; AInt (MaxDocBytes l)])
            else Ok tt in
  let? parsed := match Dispatch (is_YamlContent req) with
                 | Err e => Err (Status InvalidArgument "invalid schema YAML: %v" [AErr e])
                 | Ok p => Ok p
                 end in
  let fields := ps_Fields parsed in
  let k := Z.of_nat (length fields) in
  let? _ := if (0 <? MaxFields l) && (MaxFields l <? k) then Err (too_many_fields k (MaxFields l)) else Ok tt in
  let? _ := or_bad (validateFieldConstraintsBatch fields (RegexPatternMaxLength l)) in
  let? _ := or_bad (DependentRequired.validateDependentRequiredAgainstFields (ps_DependentRequired parsed) (f_Path <$> fields)) in
  let? _ := or_bad (LintValidations (ps_Validations parsed) fields) in
  Ok parsed.

Definition ImportSchema (ctx : Ctx) (req : ImportSchemaRequest) : M pbSchema :=
  must_have_claims ctx ;;
  check ctx ActionGlobal global_resource ;;
  parsed ← of_result (vet_document req);
  let checksum := SchemaTypes.computeChecksum (ps_Fields parsed) in
  let publish_if schema := if is_AutoPublish req then autoPublish ctx schema else mret schema in
  found ← try (reads (db_GetSchemaByName (ps_Name parsed)));
  match found with
  | Err e =>
    if is_NotFound e then importCreateNew parsed checksum ≫= publish_if
    else fail (Status0 Internal "failed to look up schema")
  | Ok existing =>
    latest ← map_err (internal "failed to get latest version") (reads (db_GetLatestSchemaVersion (sc_ID existing)));
    if bool_decide (sv_Checksum latest = checksum) then
      map_err (internal "failed to get fields") (reads (db_GetSchemaFields (sv_ID latest))) ;;
      fail (Status0 AlreadyExists "schema is identical to the latest version")
    else importNewVersion existing latest parsed checksum ≫= publish_if
  end.
End handlers.
