(* ===== verification/SchemaFacts.v ===== *)
(** * The schema store keeps its invariant

    A small program logic for the handlers of [SchemaService] over the
    in-memory store, the invariant of that store and how it may evolve, and one
    triple per operation of the store. *)
From S2P Require Import Prelude GoText GoTime Json Pagination Domain ConfigStore MemStore Convert Auth Validation CrossField ValidatorFactory SchemaTypes SchemaYaml SchemaStore SchemaService.
Import SchemaMem.
Local Open Scope Z_scope.

(** ** A logic for handlers

    Identifiers are random: a run is well behaved as long as its draws do not
    repeat, which is known for the first [N] of them. A triple speaks of runs
    that stay within those draws. *)
Section logic.
Context {V : Type} (N : nat).
Abbreviation W := (V * MemoryStore)%type.
Implicit Types (P : MemoryStore → Prop).

Definition used (w : W) : nat := draws w.2.
Definition mono {A} (c : ST W A) : Prop := ∀ w, (used w ≤ used (c w).2)%nat.
Definition triple {A} P (c : ST W A) (Q : A → MemoryStore → Prop) (E : MemoryStore → Prop) : Prop :=
  ∀ w, P w.2 → (used (c w).2 ≤ N)%nat →
  match c w with (Ok a, w') => Q a w'.2 | (Err _, w') => E w'.2 end.

Lemma mono_ret {A} (a : A) : mono (mret a).
Proof. intros w. done. Qed.
Lemma mono_fail {A} e : mono (fail e : ST W A).
Proof. intros w. done. Qed.
Lemma mono_of_result {A} (r : result error A) : mono (of_result r).
Proof. intros w. done. Qed.
Lemma mono_bind {A B} (c : ST W A) (k : A → ST W B) : mono c → (∀ a, mono (k a)) → mono (c ≫= k).
Proof.
  intros Hc Hk w. unfold mbind, ST_bind. specialize (Hc w). destruct (c w) as [[a|e] w1]; simpl in *; [|done].
  specialize (Hk a w1). lia.
Qed.
Lemma mono_map_err {A} f (c : ST W A) : mono c → mono (map_err f c).
Proof. intros Hc w. unfold map_err. specialize (Hc w). by destruct (c w) as [[a|e] w1]. Qed.
Lemma mono_try {A} (c : ST W A) : mono c → mono (try c).
Proof. intros Hc w. unfold try. specialize (Hc w). by destruct (c w) as [r w1]. Qed.
Lemma mono_require b e : mono (require b e : ST W unit).
Proof. intros w. by destruct b. Qed.
Lemma mono_reads {A} (f : MemoryStore → result error A) : mono (reads f : ST W A).
Proof. by intros [v m]. Qed.
Lemma mono_caches f : mono (caches f : ST W unit).
Proof. by intros [v m]. Qed.
Lemma mono_writes {A} (f : MemoryStore → result error A * MemoryStore) :
  (∀ m, draws m ≤ draws (f m).2)%nat → mono (writes f : ST W A).
Proof. intros Hf [v m]. unfold writes, used. specialize (Hf m). by destruct (f m). Qed.
Lemma mono_tx {A} (fn : ST W A) : mono fn → mono (RunInTx fn).
Proof.
  intros Hf [v m]. unfold RunInTx. specialize (Hf (v, clone m)). unfold used in *.
  destruct (fn (v, clone m)) as [[a|e] [v' m']]; simpl in *; [done|lia].
Qed.

Lemma triple_weaken {A} P P' (c : ST W A) Q Q' E E' :
  triple P' c Q' E' → (∀ m, P m → P' m) → (∀ a m, Q' a m → Q a m) → (∀ m, E' m → E m) → triple P c Q E.
Proof.
  intros Hc HP HQ HE w Hw Hn. specialize (Hc w (HP _ Hw) Hn). destruct (c w) as [[a|e] w1]; eauto.
Qed.
Lemma triple_any_error {A} P (c : ST W A) Q E : triple P c Q E → triple P c Q (λ _, True).
Proof. intros Hc. by eapply triple_weaken. Qed.
Lemma triple_ret {A} P (a : A) (Q : A → MemoryStore → Prop) E : (∀ m, P m → Q a m) → triple P (mret a) Q E.
Proof. intros HQ w Hw _. by apply HQ. Qed.
Lemma triple_fail {A} P e (Q : A → MemoryStore → Prop) (E : MemoryStore → Prop) : (∀ m, P m → E m) → triple P (fail e) Q E.
Proof. intros HE w Hw _. by apply HE. Qed.
Lemma triple_bind {A B} P (c : ST W A) (k : A → ST W B) R Q E :
  triple P c R E → (∀ a, triple (R a) (k a) Q E) → (∀ a, mono (k a)) → triple P (c ≫= k) Q E.
Proof.
  intros Hc Hk Hm w Hw. unfold mbind, ST_bind. specialize (Hc w Hw).
  destruct (c w) as [[a|e] w1]; [|done]. intros Hn. pose proof (Hm a w1).
  apply Hk; [|done]. apply Hc. simpl in *. lia.
Qed.
Lemma triple_of_result {A} P (r : result error A) (Q : A → MemoryStore → Prop) (E : MemoryStore → Prop) :
  (∀ m, P m → E m) → (∀ a m, r = Ok a → P m → Q a m) → triple P (of_result r) Q E.
Proof. intros HE HQ w Hw _. simpl. destruct r; eauto. Qed.
Lemma triple_map_err {A} P f (c : ST W A) Q E : triple P c Q E → triple P (map_err f c) Q E.
Proof.
  intros Hc w Hw. specialize (Hc w Hw). unfold map_err in *. by destruct (c w) as [[a|e] w1].
Qed.
Lemma triple_try {A} P (c : ST W A) (Q : result error A → MemoryStore → Prop) E :
  (∀ w, P w.2 → (used (c w).2 ≤ N)%nat → Q (c w).1 (c w).2.2) → triple P (try c) Q E.
Proof. intros HQ w Hw. specialize (HQ w Hw). unfold try. by destruct (c w) as [r w1]. Qed.
Lemma triple_require P b e (Q : unit → MemoryStore → Prop) (E : MemoryStore → Prop) :
  (∀ m, P m → E m) → (∀ m, b = true → P m → Q tt m) → triple P (require b e) Q E.
Proof. intros HE HQ w Hw _. destruct b; simpl; eauto. Qed.
Lemma triple_reads {A} P (f : MemoryStore → result error A) (Q : A → MemoryStore → Prop) (E : MemoryStore → Prop) :
  (∀ m, P m → match f m with Ok a => Q a m | Err _ => E m end) → triple P (reads f) Q E.
Proof. intros HQ [v m] Hw _. simpl in *. specialize (HQ m Hw). by destruct (f m). Qed.
Lemma triple_caches P f (Q : unit → MemoryStore → Prop) E : (∀ m, P m → Q tt m) → triple P (caches f) Q E.
Proof. intros HQ [v m] Hw _. by apply HQ. Qed.
Lemma triple_writes {A} P (f : MemoryStore → result error A * MemoryStore) (Q : A → MemoryStore → Prop) (E : MemoryStore → Prop) :
  (∀ m, P m → (draws (f m).2 ≤ N)%nat → match f m with (Ok a, m') => Q a m' | (Err _, m') => E m' end) →
  triple P (writes f) Q E.
Proof.
  intros HQ [v m] Hw. unfold writes, used. specialize (HQ m Hw). destruct (f m) as [[a|e] m']; done.
Qed.

(** A transaction starts from the store as it is and leaves it alone when it
    fails. *)
Lemma triple_tx {A} m0 (fn : ST W A) Q (E : MemoryStore → Prop) :
  triple (λ m, m = m0) fn Q (λ _, True) → E m0 → triple (λ m, m = m0) (RunInTx fn) Q E.
Proof.
  intros Hf HE [v m] Hm. simpl in Hm. subst m. unfold RunInTx.
  specialize (Hf (v, clone m0)). assert (clone m0 = m0) as Hclone by by destruct m0.
  simpl in Hf. rewrite Hclone in *. specialize (Hf eq_refl).
  destruct (fn (v, m0)) as [[a|e] [v' m']]; simpl in *; [|done].
  replace (mergeFrom m0 m') with m' by by destruct m'. exact Hf.
Qed.
End logic.

(** ** The invariant *)
Definition issued `{Random} (m : MemoryStore) (id : string) : Prop := ∃ i, (i < draws m)%nat ∧ id = uuid_v4 (random i).

(** A published version the tenant may be bound to. *)
Definition published_version (m : MemoryStore) (schemaID : string) (version : Z) : Prop :=
  ∃ id sv, schemaVersions m !! id = Some sv ∧ is_version schemaID version sv ∧ sv_Published sv = true.

(** Version 1 has no parent; a later one follows the version before it. *)
Definition follows (m : MemoryStore) (sv : SchemaVersion) : Prop :=
  (sv_Version sv = 1 ∧ sv_ParentVersion sv = None)
  ∨ (1 < sv_Version sv ∧ sv_ParentVersion sv = Some (sv_Version sv - 1)
     ∧ ∃ id sv', schemaVersions m !! id = Some sv' ∧ is_version (sv_SchemaID sv) (sv_Version sv - 1) sv').

Record wf_store `{Random} (m : MemoryStore) : Prop := {
  wf_sid id s : schemas m !! id = Some s → sc_ID s = id ∧ issued m id;
  wf_vid id sv : schemaVersions m !! id = Some sv → sv_ID sv = id ∧ issued m id;
  wf_tid id t : tenants m !! id = Some t → tn_ID t = id ∧ issued m id;
  wf_cid id cv : configVersions m !! id = Some cv → issued m id;
  wf_schema id sv : schemaVersions m !! id = Some sv → is_Some (schemas m !! sv_SchemaID sv);
  wf_range id sv : schemaVersions m !! id = Some sv → 1 ≤ sv_Version sv ≤ Z.of_nat (draws m);
  wf_unique id1 id2 a b : schemaVersions m !! id1 = Some a → schemaVersions m !! id2 = Some b →
    sv_SchemaID a = sv_SchemaID b → sv_Version a = sv_Version b → id1 = id2;
  wf_follows id sv : schemaVersions m !! id = Some sv → follows m sv;
  wf_bound id t : tenants m !! id = Some t → published_version m (tn_SchemaID t) (tn_SchemaVersion t);
  wf_field_version id : is_Some (schemaFields m !! id) → is_Some (schemaVersions m !! id);
  wf_field_id id f : f ∈ fields_of m id → sf_SchemaVersionID f = id;
}.

(** ** How the store evolves

    A version stays as it is, or is published; its fields stay; a tenant keeps
    its identity and its schema. *)
Definition same_or_published (sv sv' : SchemaVersion) : Prop := sv' = sv ∨ sv' = publish sv.
Record extends (m m' : MemoryStore) : Prop := {
  ext_draws : (draws m ≤ draws m')%nat;
  ext_schemas id s : schemas m !! id = Some s → ∃ s', schemas m' !! id = Some s' ∧ sc_Name s' = sc_Name s;
  ext_versions id sv : schemaVersions m !! id = Some sv →
    ∃ sv', schemaVersions m' !! id = Some sv' ∧ same_or_published sv sv' ∧ fields_of m' id = fields_of m id;
  ext_tenants id t : tenants m !! id = Some t → ∃ t', tenants m' !! id = Some t' ∧ tn_SchemaID t' = tn_SchemaID t;
}.

Lemma publish_publish sv : publish (publish sv) = publish sv.
Proof. done. Qed.

Global Instance extends_refl : Reflexive extends.
Proof.
  intros m. constructor; [done|intros ?? ->; by eexists| |intros ?? ->; by eexists].
  intros ? sv ->. exists sv. split_and!; [done|by left|done].
Qed.
Global Instance extends_trans : Transitive extends.
Proof.
  intros m1 m2 m3 [d1 s1 v1 t1] [d2 s2 v2 t2]. constructor; [lia| | |].
  - intros id s (s' & Hs' & E)%s1. apply s2 in Hs' as (s'' & ? & ?). exists s''. split; [done|congruence].
  - intros id sv (sv' & Hsv' & Hp & Ef)%v1. apply v2 in Hsv' as (sv'' & ? & Hp' & Ef'). exists sv''.
    split_and!; [done| |congruence].
    destruct Hp as [->| ->], Hp' as [->| ->]; rewrite ?publish_publish; first [by left|by right].
  - intros id t (t' & Ht' & E)%t1. apply t2 in Ht' as (t'' & ? & ?). exists t''. split; [done|congruence].
Qed.

Section ops_facts.
Context `{Random, Clock} {mr : MapRange} `{!MapRangeOk, SortSlice}.
Variable N : nat.
Hypothesis no_collisions : ∀ i j, (i < N)%nat → (j < N)%nat → uuid_v4 (random i) = uuid_v4 (random j) → i = j.
Implicit Types m : MemoryStore.

Lemma issued_mono m m' id : (draws m ≤ draws m')%nat → issued m id → issued m' id.
Proof. intros ? (i & ? & ?). exists i. split; [lia|done]. Qed.

Lemma next_fresh m : (draws m < N)%nat → ¬ issued m (nextID m).
Proof. intros Hd (i & Hi & E). apply no_collisions in E; lia. Qed.
Lemma next_issued m m' : (draws m < draws m')%nat → issued m' (nextID m).
Proof. intros. by exists (draws m). Qed.

Lemma fresh_schema m : wf_store m → (draws m < N)%nat → schemas m !! nextID m = None.
Proof. intros Hwf Hd. apply eq_None_not_Some. intros [s [_ Hs]%(wf_sid m Hwf)]. by apply (next_fresh m). Qed.
Lemma fresh_version m : wf_store m → (draws m < N)%nat → schemaVersions m !! nextID m = None.
Proof. intros Hwf Hd. apply eq_None_not_Some. intros [s [_ Hs]%(wf_vid m Hwf)]. by apply (next_fresh m). Qed.
Lemma fresh_tenant m : wf_store m → (draws m < N)%nat → tenants m !! nextID m = None.
Proof. intros Hwf Hd. apply eq_None_not_Some. intros [s [_ Hs]%(wf_tid m Hwf)]. by apply (next_fresh m). Qed.

(** A store that differs only in parts the invariant does not read. *)
Lemma wf_same m m' :
  wf_store m → draws m' = draws m → schemas m' = schemas m → schemaVersions m' = schemaVersions m →
  schemaFields m' = schemaFields m → tenants m' = tenants m → configVersions m' = configVersions m →
  wf_store m' ∧ extends m m'.
Proof.
  destruct m, m'. simpl. intros [] -> -> -> -> -> ->. split; [by constructor|].
  constructor; simpl; [done|intros ?? ->; by eexists| |intros ?? ->; by eexists].
  intros ? sv ->. exists sv. split_and!; [done|by left|done].
Qed.

Lemma list_find_range {A} (P : string * A → Prop) `{∀ x, Decision (P x)} (mp : gmap string A) i k x :
  list_find P (map_range mp) = Some (i, (k, x)) → mp !! k = Some x ∧ P (k, x).
Proof. intros (Hi & HP & _)%list_find_Some. split; [|done]. apply elem_of_map_range. by eapply list_elem_of_lookup_2. Qed.

(** *** Reads *)
Lemma GetSchemaVersion_Ok schemaID version m sv :
  GetSchemaVersion schemaID version m = Ok sv → ∃ id, schemaVersions m !! id = Some sv ∧ is_version schemaID version sv.
Proof.
  unfold GetSchemaVersion. destruct (list_find _ _) as [[i [id x]]|] eqn:E; [|done]. intros [= ->].
  apply list_find_range in E as [? ?]. by exists id.
Qed.

(** The one version of a schema with a number is found. *)
Lemma GetSchemaVersion_wf schemaID version m id sv :
  wf_store m → schemaVersions m !! id = Some sv → is_version schemaID version sv → GetSchemaVersion schemaID version m = Ok sv.
Proof.
  intros Hwf Hsv [Hs Hv]. unfold GetSchemaVersion. destruct (list_find _ _) as [[i [id' x]]|] eqn:E.
  - apply list_find_range in E as [Hx [Hs' Hv']]. simpl in *.
    assert (id = id') as -> by (apply (wf_unique m Hwf _ _ _ _ Hsv Hx); congruence). congruence.
  - apply list_find_None in E. rewrite Forall_forall in E. destruct (E (id, sv)); [by apply elem_of_map_range|done].
Qed.

Lemma latest_fold schemaID (l : list (string * SchemaVersion)) acc :
  let r := foldl (λ latest p, if bool_decide (sv_SchemaID p.2 = schemaID) then later_version latest p.2 else latest) acc l in
  match r with
  | None => acc = None ∧ ∀ p, p ∈ l → sv_SchemaID p.2 ≠ schemaID
  | Some sv => (acc = Some sv ∨ ∃ id, (id, sv) ∈ l ∧ sv_SchemaID sv = schemaID)
      ∧ (∀ a, acc = Some a → sv_Version a ≤ sv_Version sv)
      ∧ ∀ p, p ∈ l → sv_SchemaID p.2 = schemaID → sv_Version p.2 ≤ sv_Version sv
  end.
Proof.
  revert acc. induction l as [|[id x] l IH]; intros acc; simpl.
  { destruct acc as [a|]; [|split; [done|]]; [split_and!; [by left|intros ? [= ->]; lia|]|];
      intros p Hp; by apply not_elem_of_nil in Hp. }
  specialize (IH (if bool_decide (sv_SchemaID x = schemaID) then later_version acc x else acc)).
  simpl in IH. destruct (foldl _ _ l) as [sv|].
  - destruct IH as (Hin & Hacc & Hall).
    destruct (bool_decide_reflect (sv_SchemaID x = schemaID)) as [Hx|Hx].
    + assert (sv_Version x ≤ sv_Version sv ∧ (∀ a, acc = Some a → sv_Version a ≤ sv_Version sv)) as [Hle Hle'].
      { unfold later_version in Hacc. destruct acc as [a|]; [|split; [by apply Hacc|done]].
        destruct (Z.ltb_spec (sv_Version a) (sv_Version x)); specialize (Hacc _ eq_refl); (split; [lia|intros ? [= ->]; lia]). }
      split_and!; [|done|intros p [->|Hp]%elem_of_cons Hs; [done|by apply Hall]].
      destruct Hin as [Hin|(id' & ? & ?)]; [|right; exists id'; split; [by right|done]].
      unfold later_version in Hin. destruct acc as [a|]; [destruct (_ <? _)|]; simplify_eq; auto;
        right; exists id; (split; [by left|done]).
    + split_and!; [|done|intros p [->|Hp]%elem_of_cons Hs; [done|by apply Hall]].
      destruct Hin as [?|(id' & ? & ?)]; [by left|right; exists id'; split; [by right|done]].
  - destruct IH as [Hacc Hall]. destruct (bool_decide_reflect (sv_SchemaID x = schemaID)) as [Hx|Hx].
    + unfold later_version in Hacc. destruct acc; [destruct (_ <? _)|]; done.
    + split; [done|]. intros p [->|Hp]%elem_of_cons; [done|by apply Hall].
Qed.

Lemma GetLatestSchemaVersion_Ok schemaID m sv :
  GetLatestSchemaVersion schemaID m = Ok sv →
  ∃ id, schemaVersions m !! id = Some sv ∧ sv_SchemaID sv = schemaID
  ∧ ∀ id' sv', schemaVersions m !! id' = Some sv' → sv_SchemaID sv' = schemaID → sv_Version sv' ≤ sv_Version sv.
Proof.
  unfold GetLatestSchemaVersion. pose proof (latest_fold schemaID (map_range (schemaVersions m)) None) as Hf.
  simpl in Hf. destruct (foldl _ _ _) as [x|]; [|done]. intros [= ->].
  destruct Hf as ([?|(id & Hin & Hs)] & _ & Hall); [done|]. exists id. apply elem_of_map_range in Hin.
  split_and!; [done..|]. intros id' sv' Hsv'. by apply (Hall (id', sv')), elem_of_map_range.
Qed.

Lemma GetTenantByID_Ok id m t : GetTenantByID id m = Ok t → tenants m !! id = Some t ∧ tn_DeletedAt t = None.
Proof. unfold GetTenantByID. destruct (tenants m !! id); [|done]. case_bool_decide; [|done]. by intros [= ->]. Qed.
Lemma GetTenantByName_Ok name m t :
  GetTenantByName name m = Ok t → ∃ id, tenants m !! id = Some t ∧ tn_DeletedAt t = None.
Proof.
  unfold GetTenantByName. destruct (list_find _ _) as [[i [id x]]|] eqn:E; [|done]. intros [= ->].
  apply list_find_range in E as [? [? ?]]. by exists id.
Qed.

(** *** Writes *)
Lemma op_CreateSchema arg m s m' :
  wf_store m → CreateSchema arg m = (Ok s, m') → (draws m' ≤ N)%nat →
  wf_store m' ∧ extends m m' ∧ schemas m' !! sc_ID s = Some s
  ∧ ∀ id sv, schemaVersions m' !! id = Some sv → sv_SchemaID sv ≠ sc_ID s.
Proof.
  intros Hwf. unfold CreateSchema. destruct (list_find _ _); [done|]. intros [= <- <-] Hd. simpl in *.
  pose proof (fresh_schema m Hwf ltac:(lia)) as Hfresh.
  set (m' := mkStore _ _ _ _ _ _ _ _ _ _).
  assert (∀ id, issued m id → issued m' id) as Hiss by (intros id; apply issued_mono; simpl; lia).
  split_and!; [| |by rewrite lookup_insert_eq|].
  - destruct Hwf. constructor; simpl; try done.
    + intros id s [[<- <-]|[_ Hs]]%lookup_insert_Some; [split; [done|apply next_issued; simpl; lia]|].
      apply wf_sid0 in Hs as [? ?]. auto.
    + intros id sv [? ?]%wf_vid0. auto.
    + intros id t [? ?]%wf_tid0. auto.
    + intros id cv ?%wf_cid0. auto.
    + intros id sv Hsv%wf_schema0. rewrite lookup_insert_is_Some. destruct (decide (nextID m = sv_SchemaID sv)); auto.
    + intros id sv Hsv%wf_range0. lia.
  - constructor; simpl; [lia| | |intros ?? ->; by eexists].
    + intros id s Hs. exists s. split; [|done]. rewrite lookup_insert_ne; [done|]. intros <-. congruence.
    + intros id sv ->. exists sv. split_and!; [done|by left|done].
  - intros id sv Hsv E. destruct (wf_schema m Hwf id sv Hsv) as [? ?]. rewrite E in *. congruence.
Qed.

Lemma op_CreateSchemaVersion arg m sv m' :
  wf_store m → CreateSchemaVersion arg m = (Ok sv, m') → (draws m' ≤ N)%nat →
  1 ≤ csv_Version arg ≤ Z.of_nat (draws m) + 1 →
  (∀ id x, schemaVersions m !! id = Some x → sv_SchemaID x = csv_SchemaID arg → sv_Version x ≠ csv_Version arg) →
  (csv_Version arg = 1 ∧ csv_ParentVersion arg = None
   ∨ 1 < csv_Version arg ∧ csv_ParentVersion arg = Some (csv_Version arg - 1)
     ∧ ∃ id x, schemaVersions m !! id = Some x ∧ is_version (csv_SchemaID arg) (csv_Version arg - 1) x) →
  wf_store m' ∧ extends m m' ∧ schemaVersions m !! sv_ID sv = None ∧ schemaVersions m' !! sv_ID sv = Some sv
  ∧ is_version (csv_SchemaID arg) (csv_Version arg) sv.
Proof.
  intros Hwf. unfold CreateSchemaVersion. destruct (schemas m !! csv_SchemaID arg) eqn:Hsc; [|done].
  intros [= <- <-] Hd Hrange Hnew Hfollow. simpl in *.
  pose proof (fresh_version m Hwf ltac:(lia)) as Hfresh.
  assert (∀ id x, schemaVersions m !! id = Some x → id ≠ nextID m) as Hne by (intros ???; congruence).
  set (sv := Build_SchemaVersion _ _ _ _ _ _ _ _ _ _). set (m' := with_versions _ _ _ _).
  assert (∀ id, issued m id → issued m' id) as Hiss by (intros id; apply issued_mono; simpl; lia).
  assert (∀ id x, schemaVersions m !! id = Some x → schemaVersions m' !! id = Some x) as Hkeep.
  { intros id x Hx. simpl. rewrite lookup_insert_ne; [done|]. by specialize (Hne id x Hx). }
  split_and!; [| |done|by rewrite lookup_insert_eq|done].
  - pose proof Hwf as Hwf'. destruct Hwf. constructor; simpl; try done.
    + intros id s0 [? ?]%wf_sid0. auto.
    + intros id x [[<- <-]|[_ Hx]]%lookup_insert_Some; [split; [done|apply next_issued; simpl; lia]|].
      apply wf_vid0 in Hx as [? ?]. auto.
    + intros id t [? ?]%wf_tid0. auto.
    + intros id cv ?%wf_cid0. auto.
    + intros id x [[<- <-]|[_ Hx]]%lookup_insert_Some; [simpl; by eexists|by apply wf_schema0 in Hx].
    + intros id x [[<- <-]|[_ Hx]]%lookup_insert_Some; [simpl; lia|apply wf_range0 in Hx; lia].
    + intros id1 id2 a b [[<- <-]|[_ Ha]]%lookup_insert_Some [[<- <-]|[_ Hb]]%lookup_insert_Some; simpl; [done| | |by apply wf_unique0].
      * intros E1 E2. by destruct (Hnew id2 b Hb).
      * intros E1 E2. by destruct (Hnew id1 a Ha).
    + intros id x [[<- <-]|[_ Hx]]%lookup_insert_Some; unfold follows; simpl.
      * destruct Hfollow as [?|(? & ? & id' & x & Hx & ?)]; [by left|right]. split_and!; [done..|]. by exists id', x; auto.
      * apply wf_follows0 in Hx as [?|(? & ? & id' & y & Hy & ?)]; [by left|right]. split_and!; [done..|]. exists id', y. auto.
    + intros id t (id' & x & Hx & ? & ?)%wf_bound0. exists id', x. auto.
    + intros id Hf%wf_field_version0. rewrite lookup_insert_is_Some. destruct (decide (nextID m = id)); auto.
  - constructor; simpl; [lia|intros ?? ->; by eexists| |intros ?? ->; by eexists].
    intros id x Hx. exists x. split_and!; [by apply Hkeep|by left|done].
Qed.

(** Fields go to a version that the store the run started from does not have. *)
Lemma op_CreateSchemaField m0 id arg m :
  wf_store m → extends m0 m → schemaVersions m0 !! id = None → csf_SchemaVersionID arg = id →
  wf_store (CreateSchemaField arg m).2 ∧ extends m0 (CreateSchemaField arg m).2.
Proof.
  intros Hwf Hext Hnew Hid. unfold CreateSchemaField.
  destruct (schemaVersions m !! csf_SchemaVersionID arg) as [sv|] eqn:Hsv; [|done]. rewrite Hid in *. simpl.
  assert (∀ id', fields_of (with_fields id (fields_of m id ++ [new_field (nextID m) arg]) 1 m) id' =
    if decide (id' = id) then fields_of m id ++ [new_field (nextID m) arg] else fields_of m id') as Hfields.
  { intros id'. unfold fields_of at 1. simpl. case_decide as E; [subst; by rewrite lookup_insert_eq|].
    by rewrite lookup_insert_ne. }
  set (m' := with_fields _ _ _ _) in *.
  assert (∀ id, issued m id → issued m' id) as Hiss by (intros ?; apply issued_mono; simpl; lia).
  split.
  - destruct Hwf. constructor; simpl; try done.
    + intros ? ? [? ?]%wf_sid0. auto.
    + intros ? ? [? ?]%wf_vid0. auto.
    + intros ? ? [? ?]%wf_tid0. auto.
    + intros ? ? ?%wf_cid0. auto.
    + intros ? ? ?%wf_range0. lia.
    + intros id' [<-|[_ Hf]]%lookup_insert_is_Some; [by eexists|by apply wf_field_version0].
    + intros id' f. rewrite Hfields. case_decide as E; [|apply wf_field_id0]. subst id'.
      intros [?|Hf%list_elem_of_singleton]%elem_of_app; [by apply wf_field_id0|by subst f].
  - destruct Hext as [Hd Hs Hv Ht]. constructor; simpl; [lia|done| |done].
    intros id' sv' Hsv'. destruct (Hv id' sv' Hsv') as (x & ? & ? & Hf). exists x. split_and!; [done..|].
    rewrite Hfields, decide_False; [done|]. intros ->. congruence.
Qed.

Lemma op_BulkCreateSchemaFields m0 id args m :
  Forall (λ a, csf_SchemaVersionID a = id) args →
  wf_store m → extends m0 m → schemaVersions m0 !! id = None →
  wf_store (BulkCreateSchemaFields args m).2 ∧ extends m0 (BulkCreateSchemaFields args m).2.
Proof.
  intros Hargs. revert m. induction Hargs as [|a args Ha Hargs IH]; intros m Hwf Hext Hnew; [done|]. simpl.
  destruct (op_CreateSchemaField m0 id a m Hwf Hext Hnew Ha) as [Hwf1 Hext1].
  destruct (CreateSchemaField a m) as [[f|e] m1]; simpl in *; [|done].
  destruct (IH m1 Hwf1 Hext1 Hnew) as [Hwf2 Hext2].
  by destruct (BulkCreateSchemaFields args m1) as [[fs|e] m2].
Qed.

Lemma op_PublishSchemaVersion schemaID version m :
  wf_store m → let m' := (PublishSchemaVersion schemaID version m).2 in wf_store m' ∧ extends m m'.
Proof.
  intros Hwf. unfold PublishSchemaVersion. destruct (list_find _ _) as [[i [id sv]]|] eqn:E; [|done].
  apply list_find_range in E as [Hsv [Hs Hv]]. simpl in *.
  assert (∀ P : SchemaVersion → Prop, (∀ x, P x → P (publish x)) → ∀ id' x,
    <[id := publish sv]> (schemaVersions m) !! id' = Some x → (∀ y, schemaVersions m !! id' = Some y → P y) → P x) as Hup.
  { intros P HP id' x [[<- <-]|[_ Hx]]%lookup_insert_Some Hall; [by apply HP, Hall|by apply Hall]. }
  assert (∀ P : SchemaVersion → Prop, (∀ x, P x → P (publish x)) → ∀ id' x, schemaVersions m !! id' = Some x → P x →
    ∃ y, <[id := publish sv]> (schemaVersions m) !! id' = Some y ∧ P y) as Hdown.
  { intros P HP id' x Hx HPx. destruct (decide (id = id')) as [<-|Hne].
    - exists (publish sv). rewrite lookup_insert_eq. split; [done|]. apply HP. by simplify_eq.
    - exists x. by rewrite lookup_insert_ne. }
  split.
  - destruct Hwf. constructor; simpl; try done.
    + intros id' x Hx. split; [by eapply (Hup (λ x, sv_ID x = id')); [| |intros ? [? ?]%wf_vid0]|].
      assert (is_Some (schemaVersions m !! id')) as [y [_ Hy]%wf_vid0]; [|done].
      apply mk_is_Some in Hx. rewrite lookup_insert_is_Some in Hx. destruct Hx as [<-|[_ ?]]; [by eexists|done].
    + intros id' x Hx. eapply (Hup (λ x, is_Some (schemas m !! sv_SchemaID x))); [done|exact Hx|].
      intros y Hy. by apply wf_schema0 in Hy.
    + intros id' x Hx. eapply (Hup (λ x, 1 ≤ sv_Version x ≤ Z.of_nat (draws m))); [done|exact Hx|].
      intros y Hy. by apply wf_range0 in Hy.
    + intros id1 id2 a b Ha Hb.
      eapply (Hup (λ a, sv_SchemaID a = sv_SchemaID b → sv_Version a = sv_Version b → id1 = id2)); [done|exact Ha|].
      intros a' Ha'. eapply (Hup (λ b, sv_SchemaID a' = sv_SchemaID b → sv_Version a' = sv_Version b → id1 = id2)); [done|exact Hb|].
      intros b' Hb'. by apply wf_unique0.
    + intros id' x Hx. eapply (Hup (follows (with_versions (<[id:=publish sv]> (schemaVersions m)) 0 0 m))); [done|exact Hx|].
      intros y [?|(? & ? & id2 & z & Hz & Hz')]%wf_follows0; [by left|right]. split_and!; [done..|].
      destruct (Hdown (is_version (sv_SchemaID y) (sv_Version y - 1)) ltac:(done) id2 z Hz Hz') as (z' & ? & ?).
      by exists id2, z'.
    + intros id' t (id2 & z & Hz & Hz1 & Hz2)%wf_bound0.
      destruct (Hdown (λ z, is_version (tn_SchemaID t) (tn_SchemaVersion t) z ∧ sv_Published z = true) ltac:(by intros x [? _])
        id2 z Hz (conj Hz1 Hz2)) as (z' & ? & ? & ?). by exists id2, z'.
    + intros id' Hf%wf_field_version0. rewrite lookup_insert_is_Some. destruct (decide (id = id')); auto.
  - constructor; simpl; [done|intros ?? ->; by eexists| |intros ?? ->; by eexists].
    intros id' x Hx. destruct (decide (id = id')) as [<-|Hne].
    + exists (publish sv). rewrite lookup_insert_eq. simplify_eq. split_and!; [done|by right|done].
    + exists x. rewrite lookup_insert_ne by done. split_and!; [done|by left|done].
Qed.

Lemma op_DeleteSchema id m :
  wf_store m → let m' := (DeleteSchema id m).2 in wf_store m' ∧ extends m m'.
Proof.
  intros Hwf. unfold DeleteSchema, GetSchemaByID. destruct (schemas m !! id) as [s|] eqn:Hs; [|done].
  case_bool_decide; [|done]. simpl. split.
  - destruct Hwf. constructor; simpl; try done.
    + intros id' x [[<- <-]|[_ Hx]]%lookup_insert_Some; [by apply wf_sid0 in Hs|by apply wf_sid0].
    + intros id' sv Hsv%wf_schema0. rewrite lookup_insert_is_Some. destruct (decide (id = sv_SchemaID sv)); auto.
  - constructor; simpl; [done| |intros ? sv ->; exists sv; split_and!; [done|by left|done]|intros ?? ->; by eexists].
    intros id' x Hx. destruct (decide (id = id')) as [<-|Hne].
    + rewrite lookup_insert_eq. eexists. split; [done|]. simpl. congruence.
    + rewrite lookup_insert_ne by done. eauto.
Qed.

Lemma op_CreateTenant arg m t m' :
  wf_store m → published_version m (ct_SchemaID arg) (ct_SchemaVersion arg) →
  CreateTenant arg m = (Ok t, m') → (draws m' ≤ N)%nat →
  wf_store m' ∧ extends m m' ∧ tenants m' !! tn_ID t = Some t ∧ tenants m !! tn_ID t = None.
Proof.
  intros Hwf Hpub [= <- <-] Hd. simpl in *. pose proof (fresh_tenant m Hwf ltac:(lia)) as Hfresh.
  set (m' := with_tenants _ _ _ _).
  assert (∀ id, issued m id → issued m' id) as Hiss by (intros ?; apply issued_mono; simpl; lia).
  split_and!; [| |by rewrite lookup_insert_eq|done].
  - destruct Hwf. constructor; simpl; try done.
    + intros ? ? [? ?]%wf_sid0. auto.
    + intros ? ? [? ?]%wf_vid0. auto.
    + intros id t [[<- <-]|[_ Ht]]%lookup_insert_Some; [split; [done|apply next_issued; simpl; lia]|].
      apply wf_tid0 in Ht as [? ?]. auto.
    + intros ? ? ?%wf_cid0. auto.
    + intros ? ? ?%wf_range0. lia.
    + intros id t [[<- <-]|[_ Ht]]%lookup_insert_Some; [done|by apply wf_bound0 in Ht].
  - constructor; simpl; [lia|intros ?? ->; by eexists|intros ? sv ->; exists sv; split_and!; [done|by left|done]|].
    intros id t Ht. exists t. split; [|done]. rewrite lookup_insert_ne; [done|]. intros <-. congruence.
Qed.

(** A change that keeps the tenant's identity and leaves it bound to a
    published version. *)
Lemma op_change_tenant id f m :
  wf_store m →
  (∀ now t, tenants m !! id = Some t → tn_ID (f now t) = tn_ID t ∧ tn_SchemaID (f now t) = tn_SchemaID t
    ∧ published_version m (tn_SchemaID t) (tn_SchemaVersion (f now t))) →
  let m' := (change_tenant id f m).2 in
  wf_store m' ∧ extends m m' ∧ schemaVersions m' = schemaVersions m ∧ schemaFields m' = schemaFields m.
Proof.
  intros Hwf Hf. unfold change_tenant. destruct (GetTenantByID id m) as [t|] eqn:Ht; [|done]. simpl.
  apply GetTenantByID_Ok in Ht as [Ht _]. destruct (Hf (clock (ticks m)) t Ht) as (E1 & E2 & Hpub). split_and!; [| |done..].
  - destruct Hwf. constructor; simpl; try done.
    + intros id' x [[<- <-]|[_ Hx]]%lookup_insert_Some; [apply wf_tid0 in Ht as [? ?]; split; [congruence|done]|by apply wf_tid0].
    + intros id' x [[<- <-]|[_ Hx]]%lookup_insert_Some; [by rewrite E2|by apply wf_bound0 in Hx].
  - constructor; simpl; [done|intros ?? ->; by eexists|intros ? sv ->; exists sv; split_and!; [done|by left|done]|].
    intros id' x Hx. destruct (decide (id = id')) as [<-|Hne].
    + rewrite lookup_insert_eq. eexists. split; [done|]. congruence.
    + rewrite lookup_insert_ne by done. eauto.
Qed.

Lemma op_SeedTenantConfig arg m :
  wf_store m → (draws (SeedTenantConfig arg m).2 ≤ N)%nat →
  let m' := (SeedTenantConfig arg m).2 in wf_store m' ∧ extends m m'.
Proof.
  intros Hwf. unfold SeedTenantConfig. case_bool_decide; [done|]. simpl. intros Hd.
  set (m' := mkStore _ _ _ _ _ _ _ _ _ _).
  assert (∀ id, issued m id → issued m' id) as Hiss by (intros ?; apply issued_mono; simpl; lia). split.
  - destruct Hwf. constructor; simpl; try done.
    + intros ? ? [? ?]%wf_sid0. auto.
    + intros ? ? [? ?]%wf_vid0. auto.
    + intros ? ? [? ?]%wf_tid0. auto.
    + intros id cv [[<- <-]|[_ Hcv]]%lookup_insert_Some; [apply next_issued; simpl; lia|apply wf_cid0 in Hcv; auto].
    + intros ? ? ?%wf_range0. lia.
  - constructor; simpl; [lia|intros ?? ->; by eexists|intros ? sv ->; exists sv; split_and!; [done|by left|done]|intros ?? ->; by eexists].
Qed.
End ops_facts.
