(* ===== verification/SchemaRuns.v ===== *)
(** * Runs of the schema service

    Every handler upholds the invariant of the in-memory store and only extends
    what is there, so the same holds after any sequence of calls. *)
From S2P Require Import Prelude GoText GoTime Json Pagination Domain ConfigStore MemStore Convert Auth Validation CrossField ValidatorFactory SchemaTypes SchemaYaml CelLint SchemaStore SchemaService SchemaFacts.
Import SchemaMem.
Local Open Scope Z_scope.

(** ** Draws only grow *)
Section draws.
Context `{Random, Clock, MapRange, SortSlice}.
Implicit Types m : MemoryStore.

Lemma draws_CreateSchema arg m : (draws m ≤ draws (CreateSchema arg m).2)%nat.
Proof. unfold CreateSchema. destruct (list_find _ _); simpl; lia. Qed.
Lemma draws_CreateSchemaVersion arg m : (draws m ≤ draws (CreateSchemaVersion arg m).2)%nat.
Proof. unfold CreateSchemaVersion. destruct (schemas m !! _); simpl; lia. Qed.
Lemma draws_BulkCreateSchemaFields args m : (draws m ≤ draws (BulkCreateSchemaFields args m).2)%nat.
Proof.
  revert m. induction args as [|a args IH]; intros m; [done|]. simpl.
  assert (draws m ≤ draws (CreateSchemaField a m).2)%nat as Ha.
  { unfold CreateSchemaField. destruct (schemaVersions m !! _); simpl; lia. }
  destruct (CreateSchemaField a m) as [[f|e] m1]; simpl in *; [|lia].
  specialize (IH m1). destruct (BulkCreateSchemaFields args m1) as [[fs|e] m2]; simpl in *; lia.
Qed.
Lemma draws_PublishSchemaVersion id v m : (draws m ≤ draws (PublishSchemaVersion id v m).2)%nat.
Proof. unfold PublishSchemaVersion. destruct (list_find _ _) as [[? [? ?]]|]; simpl; lia. Qed.
Lemma draws_DeleteSchema id m : (draws m ≤ draws (DeleteSchema id m).2)%nat.
Proof. unfold DeleteSchema. destruct (GetSchemaByID id m); simpl; lia. Qed.
Lemma draws_CreateTenant arg m : (draws m ≤ draws (CreateTenant arg m).2)%nat.
Proof. simpl. lia. Qed.
Lemma draws_change_tenant id f m : (draws m ≤ draws (change_tenant id f m).2)%nat.
Proof. unfold change_tenant. destruct (GetTenantByID id m); simpl; lia. Qed.
Lemma DeleteTenant_change id m : (DeleteTenant id m).2 = (change_tenant id soft_delete m).2.
Proof. unfold DeleteTenant. by destruct (change_tenant id soft_delete m). Qed.
Lemma draws_DeleteTenant id m : (draws m ≤ draws (DeleteTenant id m).2)%nat.
Proof. rewrite DeleteTenant_change. apply draws_change_tenant. Qed.
Lemma draws_SeedTenantConfig arg m : (draws m ≤ draws (SeedTenantConfig arg m).2)%nat.
Proof. unfold SeedTenantConfig. case_bool_decide; simpl; lia. Qed.
Lemma draws_CreateFieldLock arg m : (draws m ≤ draws (CreateFieldLock arg m).2)%nat.
Proof. unfold CreateFieldLock. destruct (GetTenantByID _ m); simpl; lia. Qed.
Lemma draws_DeleteFieldLock t p m : (draws m ≤ draws (DeleteFieldLock t p m).2)%nat.
Proof. unfold DeleteFieldLock. destruct (_ ≫= _); simpl; lia. Qed.
Lemma draws_InsertAuditWriteLog arg m : (draws m ≤ draws (InsertAuditWriteLog arg m).2)%nat.
Proof. done. Qed.
End draws.

Create HintDb schema_mono.
#[export] Hint Resolve mono_ret mono_fail mono_of_result mono_require mono_reads mono_caches : schema_mono.
#[export] Hint Resolve draws_CreateSchema draws_CreateSchemaVersion draws_BulkCreateSchemaFields draws_PublishSchemaVersion : schema_mono.
#[export] Hint Resolve draws_DeleteSchema draws_CreateTenant draws_change_tenant draws_DeleteTenant draws_SeedTenantConfig : schema_mono.
#[export] Hint Resolve draws_CreateFieldLock draws_DeleteFieldLock draws_InsertAuditWriteLog : schema_mono.

(** The operations behind the interface. *)
Ltac open_db :=
  cbn [db_RunInTx db_InsertAuditWriteLog db_CreateSchema db_GetSchemaByID db_GetSchemaByName db_ListSchemas db_DeleteSchema
    db_CreateSchemaVersion db_GetSchemaVersion db_GetLatestSchemaVersion db_PublishSchemaVersion
    db_BulkCreateSchemaFields db_GetSchemaFields db_CreateTenant db_GetTenantByID db_GetTenantByName db_UpdateTenantName
    db_UpdateTenantSchemaVersion db_DeleteTenant db_CreateFieldLock db_DeleteFieldLock db_SeedTenantConfig memory_schema_db].

(** Monotonicity is a matter of syntax. *)
Ltac mono_step :=
  match goal with
  | |- ∀ _, _ => intros ?
  | |- mono (mbind _ _) => apply mono_bind
  | |- mono (map_err _ _) => apply mono_map_err
  | |- mono (try _) => apply mono_try
  | |- mono (writes _) => apply mono_writes; open_db
  | |- mono (db_RunInTx _) => apply mono_tx
  | |- mono (let '_ := ?x in _) => destruct x
  | |- mono (match ?x with _ => _ end) => destruct x
  | |- mono (if ?x then _ else _) => destruct x
  | _ => solve [eauto with schema_mono]
  | _ => progress unfold CreateSchema_tx, UpdateSchema_tx, DeleteSchema_tx, PublishSchema_tx, CreateTenant_tx,
      UpdateTenant_tx, DeleteTenant_tx, LockField_tx, UnlockField_tx, lock_audit, createFieldsOn, resolveTenantWithAccess,
      resolveSchema, check, must_have_claims, importCreateNew, importNewVersion, import_version, autoPublish, PublishSchema,
      UpdateTenantName, UpdateTenantSchemaVersion
  end.
Ltac mono_tac := repeat mono_step.

(** ** Steps that only read *)
Section reading.
Context {V : Type} (N : nat) (m0 : MemoryStore).
Abbreviation W := (V * MemoryStore)%type.
Context {A B : Type} (k : A → ST W B) (Q : B → MemoryStore → Prop) (E : MemoryStore → Prop).
Abbreviation here := (λ m, m = m0).
Hypothesis HE : E m0.
Hypothesis Hmono : ∀ a, mono (k a).

Lemma seq_of_result (r : result error A) :
  (∀ a, r = Ok a → triple N here (k a) Q E) → triple N here (of_result r ≫= k) Q E.
Proof.
  intros Hk. eapply (triple_bind _ _ _ _ (λ a m, r = Ok a ∧ m = m0)); [|intros a|done].
  - apply triple_of_result; [by intros m ->|by intros a m ? ->].
  - intros w [? ?]. by apply Hk.
Qed.
Lemma seq_map_err f c : triple N here (c ≫= k) Q E → triple N here (map_err f c ≫= k) Q E.
Proof.
  intros Hc w Hw. specialize (Hc w Hw). unfold mbind, ST_bind, map_err in *. by destruct (c w) as [[a|e] w1].
Qed.
Lemma seq_reads f : (∀ a, f m0 = Ok a → triple N here (k a) Q E) → triple N here (reads f ≫= k) Q E.
Proof.
  intros Hk. eapply (triple_bind _ _ _ _ (λ a m, f m0 = Ok a ∧ m = m0)); [|intros a|done].
  - apply triple_reads. intros m ->. by destruct (f m0).
  - intros w [? ?]. by apply Hk.
Qed.
End reading.

Lemma seq_require {V B} N m0 b e (k : unit → ST (V * MemoryStore) B) Q (E : MemoryStore → Prop) :
  E m0 → (∀ a, mono (k a)) → (b = true → triple N (λ m, m = m0) (k tt) Q E) →
  triple N (λ m, m = m0) (require b e ≫= k) Q E.
Proof.
  intros HE Hm Hk. eapply (triple_bind _ _ _ _ (λ a m, b = true ∧ m = m0)); [|intros []|done].
  - apply triple_require; [by intros m ->|done].
  - intros w [? ?]. by apply Hk.
Qed.

(** A fact that does not speak of the store. *)
Lemma triple_fact {V A} N P (φ : Prop) (c : ST (V * MemoryStore) A) Q E :
  (φ → triple N P c Q E) → triple N (λ m, P m ∧ φ) c Q E.
Proof. intros Hc w [? ?]. by apply Hc. Qed.

Section handlers.
Context `{Random, Clock} {mr : MapRange} `{!MapRangeOk, SortSlice}.
Context {V : Type} `{ValidatorCaches V, SchemaYamlLib, CelParser}.
Context `{Convert.XXHash, Regexp, JsonSchema, CompileRace, UrlRest}.
Variable svc : Service.
Variable N : nat.
Hypothesis no_collisions : ∀ i j, (i < N)%nat → (j < N)%nat → uuid_v4 (random i) = uuid_v4 (random j) → i = j.
Hypothesis N_small : Z.of_nat N ≤ max_int32.
Abbreviation W := (V * MemoryStore)%type.
Implicit Types m : MemoryStore.

Definition good m0 m : Prop := wf_store m ∧ extends m0 m.
Definition is_latest m (sv : SchemaVersion) : Prop :=
  ∃ id, schemaVersions m !! id = Some sv
  ∧ ∀ id' sv', schemaVersions m !! id' = Some sv' → sv_SchemaID sv' = sv_SchemaID sv → sv_Version sv' ≤ sv_Version sv.

Lemma good_step m0 m m' : good m0 m → wf_store m' ∧ extends m m' → good m0 m'.
Proof. intros [_ ?] [? ?]. split; [done|by etrans]. Qed.
Lemma good_new m0 m id : good m0 m → schemaVersions m !! id = None → schemaVersions m0 !! id = None.
Proof.
  intros [_ Hext] Hn. apply eq_None_not_Some. intros [sv (? & ? & _)%(ext_versions _ _ Hext)]. congruence.
Qed.

(** *** Blocks of the transactions *)
Lemma t_audit m0 arg (Q : MemoryStore → Prop) :
  (∀ m, good m0 m → Q m) → triple N (good m0) (writes (db_InsertAuditWriteLog arg) : ST W unit) (λ _, Q) (λ _, True).
Proof.
  intros HQ. apply triple_writes. intros m Hg _. simpl. apply HQ. eapply good_step; [done|]. apply wf_same; try done. by destruct Hg.
Qed.

Lemma collect_params_id id fields n ps :
  collect_params id fields n = Ok ps → Forall (λ a, csf_SchemaVersionID a = id) ps.
Proof.
  revert ps. induction fields as [|f fields IH]; simpl; intros ps; [by intros [= <-]|].
  destruct (validateFieldConstraints f n); [|done]. destruct (collect_params id fields n) as [qs|]; [|done].
  simpl. intros [= <-]. constructor; [done|by apply IH].
Qed.

Lemma t_fields m0 id fields :
  triple N (λ m, good m0 m ∧ schemaVersions m0 !! id = None) (createFieldsOn svc id fields : ST W _)
    (λ _ m, good m0 m) (good m0).
Proof.
  unfold createFieldsOn. eapply (triple_bind _ _ _ _ (λ _ m, good m0 m ∧ schemaVersions m0 !! id = None)); [|intros []|mono_tac].
  { apply triple_map_err, triple_of_result; [by intros m [? ?]|done]. }
  eapply (triple_bind _ _ _ _ (λ ps m, (good m0 m ∧ schemaVersions m0 !! id = None) ∧ Forall (λ a, csf_SchemaVersionID a = id) ps));
    [|intros ps|mono_tac].
  { apply triple_of_result; [by intros m [? ?]|]. intros ps m ?%collect_params_id ?. done. }
  apply triple_map_err, triple_writes. intros m [[Hg Hnew] Hps] _. open_db.
  destruct Hg as [Hwf Hext]. pose proof (op_BulkCreateSchemaFields m0 id ps m Hps Hwf Hext Hnew) as Hop.
  by destruct (BulkCreateSchemaFields ps m) as [[fs|e] m'].
Qed.

Lemma t_first_version m0 arg :
  csv_Version arg = 1 → csv_ParentVersion arg = None →
  triple N (λ m, good m0 m ∧ ∀ id sv, schemaVersions m !! id = Some sv → sv_SchemaID sv ≠ csv_SchemaID arg)
    (writes (db_CreateSchemaVersion arg) : ST W _) (λ sv m, good m0 m ∧ schemaVersions m0 !! sv_ID sv = None) (good m0).
Proof.
  intros E1 E2. apply triple_writes. intros m [Hg Hno]. open_db.
  destruct (CreateSchemaVersion arg m) as [[sv|e] m'] eqn:Hc; intros Hd.
  - destruct (op_CreateSchemaVersion N no_collisions arg m sv m') as (? & ? & Hnew & ? & ?); [by destruct Hg|done|done| | |by left|].
    + lia.
    + intros id x Hx Hs. by destruct (Hno id x Hx).
    + split; [by eapply good_step|by eapply good_new].
  - unfold CreateSchemaVersion in Hc. destruct (schemas m !! _); by simplify_eq.
Qed.

Lemma t_next_version m0 arg latest :
  csv_SchemaID arg = sv_SchemaID latest → csv_Version arg = int32 (sv_Version latest + 1) →
  csv_ParentVersion arg = Some (sv_Version latest) →
  triple N (λ m, good m0 m ∧ is_latest m latest)
    (writes (db_CreateSchemaVersion arg) : ST W _) (λ sv m, good m0 m ∧ schemaVersions m0 !! sv_ID sv = None) (good m0).
Proof.
  intros E1 E2 E3. apply triple_writes. intros m [Hg (lid & Hl & Hmax)]. open_db.
  destruct (CreateSchemaVersion arg m) as [[sv|e] m'] eqn:Hc; intros Hd.
  - assert (draws m' = S (draws m)) as Hdraws.
    { unfold CreateSchemaVersion in Hc. destruct (schemas m !! _); [|done]. by injection Hc as _ <-. }
    pose proof (wf_range m (proj1 Hg) lid latest Hl) as Hr.
    rewrite int32_id in E2 by (unfold min_int32; simpl in *; lia).
    destruct (op_CreateSchemaVersion N no_collisions arg m sv m') as (? & ? & Hnew & ? & ?); [by destruct Hg|done|done| | | |].
    + lia.
    + intros id x Hx Hs Hv. specialize (Hmax id x Hx ltac:(congruence)). lia.
    + right. split_and!; [lia|rewrite E3; f_equal; lia|]. exists lid, latest. split; [done|]. split; [done|lia].
    + split; [by eapply good_step|by eapply good_new].
  - unfold CreateSchemaVersion in Hc. destruct (schemas m !! _); by simplify_eq.
Qed.

(** *** Handlers

    [upholds c]: from a store that meets the invariant, whatever [c] answers, the
    store still meets it and extends what it was. *)
Definition upholds {A} (c : ST W A) : Prop :=
  ∀ m0, wf_store m0 → triple N (λ m, m = m0) c (λ _ m, good m0 m) (good m0).

Lemma good_refl m0 : wf_store m0 → good m0 m0.
Proof. by split. Qed.

(** The steps before a transaction, read off the syntax. *)
Ltac read_step :=
  match goal with
  | |- triple _ _ (mbind _ (of_result _)) _ _ => apply seq_of_result; [by apply good_refl|mono_tac|intros ? ?]
  | |- triple _ _ (mbind _ (must_have_claims _)) _ _ => apply seq_of_result; [by apply good_refl|mono_tac|intros ? ?]
  | |- triple _ _ (mbind _ (check _ _ _ _)) _ _ => apply seq_of_result; [by apply good_refl|mono_tac|intros ? ?]
  | |- triple _ _ (mbind _ (require _ _)) _ _ => apply seq_require; [by apply good_refl|mono_tac|intros ?]
  | |- triple _ _ (mbind _ (map_err _ _)) _ _ => apply seq_map_err
  | |- triple _ _ (mbind _ (reads _)) _ _ => apply seq_reads; [by apply good_refl|mono_tac|intros ? ?]
  | |- triple _ _ (mbind _ (resolveSchema _)) _ _ => apply seq_reads; [by apply good_refl|mono_tac|intros ? ?]
  end.

(** A block of a transaction, whose errors do not matter. *)
Ltac block lem :=
  eapply triple_weaken; [apply lem; reflexivity|intros ? Hblock; exact Hblock|intros ? ? Hblock; exact Hblock|done].

(** A transaction and the reply made from its result. *)
Lemma tx_reply {A B} m0 (fn : ST W A) (k : A → ST W B) :
  wf_store m0 → triple N (λ m, m = m0) fn (λ _ m, good m0 m) (λ _, True) →
  (∀ a, triple N (good m0) (k a) (λ _ m, good m0 m) (good m0)) → (∀ a, mono (k a)) →
  triple N (λ m, m = m0) (db_RunInTx fn ≫= k) (λ _ m, good m0 m) (good m0).
Proof.
  intros Hwf Hfn Hk Hm. eapply triple_bind; [|exact Hk|done]. apply triple_tx; [done|by apply good_refl].
Qed.

Lemma upholds_CreateSchema ctx req : upholds (SchemaService.CreateSchema svc ctx req : ST W _).
Proof.
  intros m0 Hwf. unfold SchemaService.CreateSchema. cbv zeta. repeat read_step.
  apply tx_reply; [done| |intros [[? ?] ?]; by apply triple_ret|intros [[? ?] ?]; mono_tac].
  unfold CreateSchema_tx.
  eapply (triple_bind _ _ _ _ (λ sc m, good m0 m ∧ ∀ id sv, schemaVersions m !! id = Some sv → sv_SchemaID sv ≠ sc_ID sc));
    [|intros sc|mono_tac].
  { apply triple_map_err, triple_writes. intros m ->. open_db.
    destruct (SchemaMem.CreateSchema _ m0) as [[sc|e] m'] eqn:Hc; [|done]. intros Hd.
    destruct (op_CreateSchema N no_collisions _ _ _ _ Hwf Hc Hd) as (? & ? & _ & ?). done. }
  eapply triple_bind; [block t_first_version|intros v|mono_tac].
  eapply triple_bind; [block t_fields|intros fs|mono_tac].
  eapply triple_bind; [by apply (t_audit m0 _ (good m0))|intros []; by apply triple_ret|mono_tac].
Qed.

Lemma upholds_UpdateSchema ctx req : upholds (UpdateSchema svc ctx req : ST W _).
Proof.
  intros m0 Hwf. unfold UpdateSchema. cbv zeta. repeat read_step.
  match goal with Hl : db_GetLatestSchemaVersion _ _ = Ok ?l |- _ => apply GetLatestSchemaVersion_Ok in Hl as (lid & Hl & Hs & Hmax); set (latest := l) in * end.
  apply tx_reply; [done| |intros [? ?]; by apply triple_ret|intros [? ?]; mono_tac].
  unfold UpdateSchema_tx.
  eapply triple_bind; [|intros v|mono_tac].
  { eapply triple_weaken; [apply (t_next_version m0 _ latest); [done|reflexivity|reflexivity]| |intros ? ? Hblock; exact Hblock|done].
    intros m ->. split; [by apply good_refl|]. exists lid. rewrite Hs. done. }
  eapply triple_bind; [block t_fields|intros fs|mono_tac].
  eapply triple_bind; [by apply (t_audit m0 _ (good m0))|intros []; by apply triple_ret|mono_tac].
Qed.

Lemma upholds_DeleteSchema ctx id : upholds (SchemaService.DeleteSchema svc ctx id : ST W _).
Proof.
  intros m0 Hwf. unfold SchemaService.DeleteSchema. repeat read_step.
  apply tx_reply; [done| |intros ?; by apply triple_caches|intros ?; mono_tac].
  unfold DeleteSchema_tx. eapply (triple_bind _ _ _ _ (λ _ m, good m0 m)); [|intros ?|mono_tac].
  - apply triple_writes. intros m -> _. open_db. match goal with |- context [SchemaMem.DeleteSchema ?i m0] => pose proof (op_DeleteSchema i m0 Hwf) as Hop end.
    destruct (SchemaMem.DeleteSchema _ m0) as [[?|e] m']; [exact Hop|done].
  - by apply (t_audit m0 _ (good m0)).
Qed.

Lemma upholds_PublishSchema ctx req : upholds (PublishSchema svc ctx req : ST W _).
Proof.
  intros m0 Hwf. unfold PublishSchema. repeat read_step.
  apply tx_reply; [done| |intros [? ?]; by apply triple_ret|intros [? ?]; mono_tac].
  unfold PublishSchema_tx. eapply (triple_bind _ _ _ _ (λ _ m, good m0 m)); [|intros v|mono_tac].
  { apply triple_writes. intros m -> _. open_db.
    match goal with |- context [PublishSchemaVersion ?i ?v m0] => pose proof (op_PublishSchemaVersion i v m0 Hwf) as Hop end.
    destruct (PublishSchemaVersion _ _ m0) as [[?|e] m']; [exact Hop|done]. }
  eapply (triple_bind _ _ _ _ (λ _ m, good m0 m)); [by apply triple_reads|intros fs|mono_tac].
  eapply triple_bind; [by apply (t_audit m0 _ (good m0))|intros []; by apply triple_ret|mono_tac].
Qed.

Lemma upholds_CreateTenant ctx req : upholds (SchemaService.CreateTenant svc ctx req : ST W _).
Proof.
  intros m0 Hwf. unfold SchemaService.CreateTenant. repeat read_step.
  match goal with Hv : db_GetSchemaVersion _ _ _ = Ok ?x, Hp : sv_Published ?x = true |- _ =>
    apply GetSchemaVersion_Ok in Hv as (vid & Hv & Hver);
    assert (published_version m0 (tc_SchemaId req) (tc_SchemaVersion req)) as Hpub by by exists vid, x end.
  apply tx_reply; [done| |intros ?; by apply triple_ret|intros ?; mono_tac].
  unfold CreateTenant_tx. eapply (triple_bind _ _ _ _ (λ _ m, good m0 m)); [|intros t|mono_tac].
  { apply triple_map_err, triple_writes. intros m ->. open_db. intros Hd.
    match goal with |- context [SchemaMem.CreateTenant ?arg m0] => destruct (SchemaMem.CreateTenant arg m0) as [[t|e] m'] eqn:Hc;
      [destruct (op_CreateTenant N no_collisions arg m0 t m' Hwf Hpub Hc Hd) as (? & ? & _)|]; done end. }
  eapply (triple_bind _ _ _ _ (λ _ m, good m0 m)); [|intros ?|mono_tac].
  { destruct (0 <? size _)%nat; [|by apply triple_ret]. apply triple_writes. intros m Hg. open_db. intros Hd.
    match type of Hd with context [SeedTenantConfig ?arg m] => pose proof (op_SeedTenantConfig N arg m (proj1 Hg) Hd) as Hop end.
    destruct (SeedTenantConfig _ m) as [[?|e] m']; [by eapply good_step|done]. }
  eapply triple_bind; [by apply (t_audit m0 _ (good m0))|intros []; by apply triple_ret|mono_tac].
Qed.

(** The tenant a handler works on is one of the store's. *)
Lemma seq_tenant {B} m0 ctx id (k : Tenant → ST W B) Q :
  wf_store m0 → (∀ a, mono (k a)) →
  (∀ t, tenants m0 !! tn_ID t = Some t → triple N (λ m, m = m0) (k t) Q (good m0)) →
  triple N (λ m, m = m0) (resolveTenantWithAccess svc ctx id ≫= k) Q (good m0).
Proof.
  intros Hwf Hm Hk. eapply (triple_bind _ _ _ _ (λ t m, tenants m0 !! tn_ID t = Some t ∧ m = m0)); [|intros t|done].
  2:{ intros w [? ?]. by apply Hk. }
  unfold resolveTenantWithAccess. repeat read_step.
  apply triple_ret. intros m ->. split; [|done].
  destruct (IsUUID id).
  - match goal with Hg : db_GetTenantByID _ _ = Ok _ |- _ => apply GetTenantByID_Ok in Hg as [Ht _] end.
    by rewrite (proj1 (wf_tid m0 Hwf _ _ Ht)).
  - match goal with Hg : db_GetTenantByName _ _ = Ok _ |- _ => apply GetTenantByName_Ok in Hg as (i & Ht & _) end.
    by rewrite (proj1 (wf_tid m0 Hwf _ _ Ht)).
Qed.

(** A change of one tenant inside a transaction: it upholds its schema, and the
    version it is left with is a published one. *)
Lemma t_change_tenant {A} m0 t0 (f : Z → Tenant → Tenant) (g : MemoryStore → result error A * MemoryStore) :
  tenants m0 !! tn_ID t0 = Some t0 → (∀ m, (g m).2 = (change_tenant (tn_ID t0) f m).2) →
  (∀ now t, tn_ID (f now t) = tn_ID t ∧ tn_SchemaID (f now t) = tn_SchemaID t) →
  (∀ now t, tn_SchemaVersion (f now t) = tn_SchemaVersion t ∨ published_version m0 (tn_SchemaID t0) (tn_SchemaVersion (f now t))) →
  triple N (λ m, good m0 m ∧ schemaVersions m = schemaVersions m0) (writes g : ST W A)
    (λ _ m, good m0 m ∧ schemaVersions m = schemaVersions m0) (λ _, True).
Proof.
  intros Ht0 Hg Hid Hpub. apply triple_writes. intros m [[Hwf Hext] Hv] _.
  destruct (g m) as [[a|e] m'] eqn:Hgm; [|done]. specialize (Hg m). rewrite Hgm in Hg. simpl in Hg. subst m'.
  destruct (op_change_tenant (tn_ID t0) f m Hwf) as (? & ? & Hv' & _).
  - intros now t Ht. destruct (Hid now t) as [? ?]. split_and!; [done|done|].
    destruct (ext_tenants _ _ Hext _ _ Ht0) as (t' & Ht' & Hs). simplify_eq.
    destruct (Hpub now t) as [->|(vid & sv & ? & ? & ?)]; [by apply (wf_bound m Hwf) in Ht|].
    exists vid, sv. by rewrite Hv, Hs.
  - split; [by apply (good_step m0 m)|congruence].
Qed.

Lemma upholds_UpdateTenant ctx req : upholds (UpdateTenant svc ctx req : ST W _).
Proof.
  intros m0 Hwf. unfold UpdateTenant. read_step. apply seq_tenant; [done|mono_tac|intros t0 Ht0]. read_step.
  eapply (triple_bind _ _ _ _ (λ _ m, m = m0 ∧ ∀ v, tu_SchemaVersion req = Some v → published_version m0 (tn_SchemaID t0) v));
    [|intros []|mono_tac].
  { destruct (tu_SchemaVersion req) as [v|]; [|apply triple_ret; intros m ->; done]. read_step. read_step.
    match goal with Hv : db_GetSchemaVersion _ _ _ = Ok _ |- _ => apply GetSchemaVersion_Ok in Hv as (vid & Hv & Hver) end.
    apply triple_require; [by intros m ->; apply good_refl|]. intros m Hp ->. split; [done|]. intros ? [= <-]. by eexists _, _. }
  apply triple_fact. intros Hpub.
  apply tx_reply; [done| |intros t|intros ?; mono_tac].
  2:{ destruct (tu_SchemaVersion req); [|by apply triple_ret].
      eapply (triple_bind _ _ _ _ (λ _ m, good m0 m)); [by apply triple_caches|intros ?; by apply triple_ret|mono_tac]. }
  unfold UpdateTenant_tx.
  set (keep := λ m, good m0 m ∧ schemaVersions m = schemaVersions m0).
  eapply (triple_bind _ _ _ _ (λ _, keep)); [|intros renamed|mono_tac].
  { apply triple_weaken with (P' := keep) (Q' := λ _, keep) (E' := λ _, True); [|by intros m ->; split; [apply good_refl|]|done|done].
    destruct (tu_Name req) as [name|]; [|by apply triple_ret]. destruct (bool_decide _); [by apply triple_ret|].
    eapply (triple_bind _ _ _ _ (λ _, keep)); [by apply triple_require|intros []|mono_tac].
    apply triple_map_err. eapply (t_change_tenant m0 t0); [done|intros m; reflexivity|done|by left]. }
  eapply (triple_bind _ _ _ _ (λ _, keep)); [|intros rebound|mono_tac].
  { destruct (tu_SchemaVersion req) as [v|]; [|by apply triple_ret].
    apply triple_map_err. eapply (t_change_tenant m0 t0); [done|intros m; reflexivity|done|right; by apply Hpub]. }
  eapply (triple_bind _ _ _ _ (λ _, good m0)); [|intros tenant|mono_tac].
  { destruct (tu_Name req), (tu_SchemaVersion req); [by apply triple_ret; intros ? []..|].
    apply triple_map_err, triple_reads. intros m []. by destruct (db_GetTenantByID _ _). }
  eapply triple_bind; [by apply (t_audit m0 _ (good m0))|intros []; by apply triple_ret|mono_tac].
Qed.

Lemma upholds_DeleteTenant ctx id : upholds (SchemaService.DeleteTenant svc ctx id : ST W _).
Proof.
  intros m0 Hwf. unfold SchemaService.DeleteTenant. read_step. apply seq_tenant; [done|mono_tac|intros t0 Ht0]. read_step.
  apply triple_map_err, triple_tx; [|by apply good_refl]. unfold DeleteTenant_tx.
  eapply (triple_bind _ _ _ _ (λ _, good m0)); [|intros []; by apply (t_audit m0 _ (good m0))|mono_tac].
  eapply triple_weaken; [eapply (t_change_tenant m0 t0); [done|apply DeleteTenant_change|done|by left]
    |by intros m ->; split; [apply good_refl|]|by intros ? ? []|done].
Qed.

Lemma upholds_LockField ctx req : upholds (LockField svc ctx req : ST W _).
Proof.
  intros m0 Hwf. unfold LockField. read_step. read_step. apply seq_tenant; [done|mono_tac|intros t0 Ht0]. read_step.
  apply triple_map_err, triple_tx; [|by apply good_refl]. unfold LockField_tx.
  eapply (triple_bind _ _ _ _ (λ _, good m0)); [|intros []; by apply (t_audit m0 _ (good m0))|mono_tac].
  apply triple_writes. intros m -> _. open_db. unfold CreateFieldLock. destruct (GetTenantByID _ m0); [|done].
  by apply wf_same.
Qed.

Lemma upholds_UnlockField ctx req : upholds (UnlockField svc ctx req : ST W _).
Proof.
  intros m0 Hwf. unfold UnlockField. read_step. read_step. apply seq_tenant; [done|mono_tac|intros t0 Ht0]. read_step.
  apply triple_map_err, triple_tx; [|by apply good_refl]. unfold UnlockField_tx.
  eapply (triple_bind _ _ _ _ (λ _, good m0)); [|intros []; by apply (t_audit m0 _ (good m0))|mono_tac].
  apply triple_writes. intros m -> _. open_db. unfold DeleteFieldLock. destruct (_ ≫= _); [|done].
  by apply wf_same.
Qed.

(** An import is not one transaction: what it wrote before it failed stays, in a
    store that meets the invariant. *)
Lemma upholds_then_publish m0 ctx req schema :
  triple N (good m0) (if is_AutoPublish req then autoPublish svc ctx schema else mret schema : ST W _) (λ _, good m0) (good m0).
Proof.
  destruct (is_AutoPublish req); [|by apply triple_ret]. intros w Hg Hn.
  pose proof (upholds_PublishSchema ctx {| pu_Id := ps_Id schema; pu_Version := ps_Version schema |} w.2 (proj1 Hg) w eq_refl Hn) as Hk.
  unfold autoPublish. destruct (PublishSchema _ _ _ w) as [[?|?] w']; by eapply good_step.
Qed.

Lemma upholds_ImportSchema ctx req : upholds (ImportSchema svc ctx req : ST W _).
Proof.
  intros m0 Hwf. unfold ImportSchema. cbv zeta. repeat read_step.
  eapply (triple_bind _ _ _ _ (λ r m, m = m0)); [apply triple_try; intros [v m] Hm _; exact Hm|intros found|mono_tac].
  destruct found as [existing|e].
  - repeat read_step.
    match goal with Hl : db_GetLatestSchemaVersion _ _ = Ok ?l |- _ =>
      apply GetLatestSchemaVersion_Ok in Hl as (lid & Hl & Hs & Hmax); set (latest := l) in * end.
    destruct (bool_decide _).
    + repeat read_step. apply triple_fail. intros m ->. by apply good_refl.
    + eapply (triple_bind _ _ _ _ (λ _, good m0)); [|intros schema; apply upholds_then_publish|mono_tac].
      unfold importNewVersion, import_version. eapply triple_bind; [|intros v|mono_tac].
      { apply triple_map_err. eapply triple_weaken;
          [apply (t_next_version m0 _ latest); [done|reflexivity|reflexivity]| |intros ? ? Hblock; exact Hblock|done].
        intros m ->. split; [by apply good_refl|]. exists lid. by rewrite Hs. }
      eapply triple_bind; [apply t_fields|intros fs; by apply triple_ret|mono_tac].
  - destruct (is_NotFound e); [|apply triple_fail; intros m ->; by apply good_refl].
    eapply (triple_bind _ _ _ _ (λ _, good m0)); [|intros schema; apply upholds_then_publish|mono_tac].
    unfold importCreateNew, import_version.
    eapply (triple_bind _ _ _ _ (λ sc m, good m0 m ∧ ∀ id sv, schemaVersions m !! id = Some sv → sv_SchemaID sv ≠ sc_ID sc));
      [|intros sc|mono_tac].
    { apply triple_map_err, triple_writes. intros m ->. open_db.
      destruct (SchemaMem.CreateSchema _ m0) as [[sc|?] m'] eqn:Hc; intros Hd.
      - destruct (op_CreateSchema N no_collisions _ _ _ _ Hwf Hc Hd) as (? & ? & _ & ?). done.
      - unfold SchemaMem.CreateSchema in Hc. destruct (list_find _ _); [|done]. simplify_eq. by apply good_refl. }
    eapply triple_bind; [|intros v|mono_tac].
    { apply triple_map_err. eapply triple_weaken;
        [apply (t_first_version m0); reflexivity|intros ? Hblock; exact Hblock|intros ? ? Hblock; exact Hblock|done]. }
    eapply triple_bind; [apply t_fields|intros fs; by apply triple_ret|mono_tac].
Qed.
End handlers.
