(* ===== verification/SchemaTheorems.v ===== *)
(** * What the schema service promises

    Sequences of calls of its sixteen RPCs on the in-memory store: the invariant
    they keep, what they never change, and what a call that fails leaves
    behind. *)
From S2P Require Import Prelude GoText GoTime Json Pagination Domain ConfigStore MemStore Convert Auth Validation CrossField ValidatorFactory ServiceLemmas SchemaTypes SchemaYaml CelLint SchemaStore SchemaService SchemaFacts SchemaRuns.
Import SchemaMem.
Local Open Scope Z_scope.

(** ** Calls *)
Inductive schema_call :=
  | CallCreateSchema (req : CreateSchemaRequest)
  | CallGetSchema (req : GetSchemaRequest)
  | CallListSchemas (req : ListSchemasRequest)
  | CallUpdateSchema (req : UpdateSchemaRequest)
  | CallDeleteSchema (id : string)
  | CallPublishSchema (req : PublishSchemaRequest)
  | CallCreateTenant (req : CreateTenantRequest)
  | CallGetTenant (id : string)
  | CallListTenants (req : ListTenantsRequest)
  | CallUpdateTenant (req : UpdateTenantRequest)
  | CallDeleteTenant (id : string)
  | CallLockField (req : LockFieldRequest)
  | CallUnlockField (req : UnlockFieldRequest)
  | CallListFieldLocks (req : ListFieldLocksRequest)
  | CallExportSchema (req : ExportSchemaRequest)
  | CallImportSchema (req : ImportSchemaRequest).

Definition is_import (c : schema_call) : bool := match c with CallImportSchema _ => true | _ => false end.

(** A call of a client, without its answer. *)
Section calls.
Context {S V : Type} `{SchemaDB S, ValidatorCaches V, SchemaYamlLib, CelParser}.
Context `{Convert.XXHash, Regexp, JsonSchema, CompileRace, UrlRest, MapRange, SortSlice}.
Variable svc : Service.

Definition run_call (ctx : Auth.Ctx) (c : schema_call) : ST (V * S) unit :=
  match c with
  | CallCreateSchema req => SchemaService.CreateSchema svc ctx req ;; mret tt
  | CallGetSchema req => GetSchema ctx req ;; mret tt
  | CallListSchemas req => SchemaService.ListSchemas ctx req ;; mret tt
  | CallUpdateSchema req => UpdateSchema svc ctx req ;; mret tt
  | CallDeleteSchema id => SchemaService.DeleteSchema svc ctx id
  | CallPublishSchema req => PublishSchema svc ctx req ;; mret tt
  | CallCreateTenant req => SchemaService.CreateTenant svc ctx req ;; mret tt
  | CallGetTenant id => GetTenant svc ctx id ;; mret tt
  | CallListTenants req => SchemaService.ListTenants ctx req ;; mret tt
  | CallUpdateTenant req => UpdateTenant svc ctx req ;; mret tt
  | CallDeleteTenant id => SchemaService.DeleteTenant svc ctx id
  | CallLockField req => LockField svc ctx req
  | CallUnlockField req => UnlockField svc ctx req
  | CallListFieldLocks req => SchemaService.ListFieldLocks svc ctx req ;; mret tt
  | CallExportSchema req => ExportSchema ctx req ;; mret tt
  | CallImportSchema req => ImportSchema svc ctx req ;; mret tt
  end.
Definition run_calls (calls : list (Auth.Ctx * schema_call)) (w : V * S) : V * S :=
  foldl (λ w p, (run_call p.1 p.2 w).2) w calls.
End calls.

(** ** What a call leaves alone

    [keeps id c]: the call only reads; [keeps fst c]: it does not touch the
    validator factory. *)
Section frames.
Context {V : Type}.
Abbreviation W := (V * MemoryStore)%type.

Lemma keeps_require {X} (f : W → X) b e : keeps f (require b e).
Proof. by destruct b. Qed.
Lemma keeps_reads {X A} (f : W → X) (g : MemoryStore → result error A) : keeps f (reads g).
Proof. by intros []. Qed.
Lemma keeps_writes {X A} (f : W → X) (g : MemoryStore → result error A * MemoryStore) :
  (∀ v m, f (v, (g m).2) = f (v, m)) → keeps f (writes g).
Proof. intros Hg [v m]. unfold writes. specialize (Hg v m). by destruct (g m). Qed.
Lemma keeps_caches {X} (f : MemoryStore → X) g : keeps (λ w : W, f w.2) (caches g).
Proof. by intros []. Qed.
(** Of a transaction that failed nothing is left in the store. *)
Lemma keeps_tx_caches {A} (fn : ST W A) : keeps fst fn → keeps fst (RunInTx fn).
Proof. intros Hf [v m]. unfold RunInTx. specialize (Hf (v, clone m)). by destruct (fn (v, clone m)) as [[a|e] [v' m']]. Qed.

(** *** Calls that succeed or change nothing *)
Definition atomic {A} (c : ST W A) : Prop := ∀ w e w', c w = (Err e, w') → w' = w.
Definition infallible {A} (c : ST W A) : Prop := ∀ w e w', c w ≠ (Err e, w').

Lemma reads_only_atomic {A} (c : ST W A) : keeps id c → atomic c.
Proof. intros Hc w e w' E. by apply (keeps_run id c w _ _ Hc E). Qed.
Lemma schema_atomic_bind {A B} (c : ST W A) (k : A → ST W B) : keeps id c → (∀ a, atomic (k a)) → atomic (c ≫= k).
Proof.
  intros Hc Hk w e w'. unfold mbind, ST_bind. specialize (Hc w). destruct (c w) as [[a|?] w1]; simpl in *; subst;
    [apply Hk|by intros [= _ <-]].
Qed.
Lemma atomic_then {A B} (c : ST W A) (k : A → ST W B) : atomic c → (∀ a, infallible (k a)) → atomic (c ≫= k).
Proof.
  intros Hc Hk w e w'. unfold mbind, ST_bind. destruct (c w) as [[a|?] w1] eqn:E.
  - intros E2. by destruct (Hk a w1 e w').
  - intros [= -> ->]. by apply (Hc w e w').
Qed.
Lemma atomic_map_err {A} f (c : ST W A) : atomic c → atomic (map_err f c).
Proof. intros Hc w e w'. unfold map_err. destruct (c w) as [[a|?] w1] eqn:E; [done|]. intros [= _ <-]. by eapply Hc. Qed.
(** A transaction that only touches the store. *)
Lemma schema_atomic_tx {A} (fn : ST W A) : keeps fst fn → atomic (RunInTx fn).
Proof.
  intros Hf [v m] e w'. unfold RunInTx. specialize (Hf (v, clone m)).
  destruct (fn (v, clone m)) as [[a|?] [v' m']]; simpl in *; [done|]. by intros [= _ <-]; subst.
Qed.
Lemma infallible_ret {A} (a : A) : infallible (mret a).
Proof. by intros w e w'. Qed.
Lemma infallible_caches f : infallible (caches f : ST W unit).
Proof. by intros [v m] e w'. Qed.
Lemma infallible_bind {A B} (c : ST W A) (k : A → ST W B) : infallible c → (∀ a, infallible (k a)) → infallible (c ≫= k).
Proof.
  intros Hc Hk w e w'. unfold mbind, ST_bind. destruct (c w) as [[a|e1] w1] eqn:E; [apply Hk|].
  intros _. by destruct (Hc w e1 w1).
Qed.

End frames.

Create HintDb schema_frame.

(** Both are matters of syntax. *)
Ltac syntax_step :=
  match goal with
  | |- ∀ _, _ => intros ?
  | |- keeps _ (mbind _ _) => apply keeps_bind
  | |- keeps _ (map_err _ _) => apply keeps_map_err
  | |- keeps _ (try _) => apply keeps_try
  | |- keeps _ (writes _) => apply keeps_writes; first [done|intros; open_db; by eauto with schema_frame]
  | |- keeps fst (db_RunInTx _) => apply keeps_tx_caches
  | |- keeps _ (of_result _) => apply keeps_of_result
  | |- keeps _ (reads _) => apply keeps_reads
  | |- keeps _ (require _ _) => apply keeps_require
  | |- keeps _ (mret _) => apply keeps_ret
  | |- keeps _ (fail _) => apply keeps_fail
  | |- infallible (mbind _ _) => apply infallible_bind
  | |- infallible (mret _) => apply infallible_ret
  | |- infallible (caches _) => apply infallible_caches
  | |- ?P (let '_ := ?x in _) => destruct x
  | |- ?P (match ?x with _ => _ end) => destruct x
  | |- ?P (if ?x then _ else _) => destruct x
  | _ => progress unfold resolveTenantWithAccess, resolveSchema, check, must_have_claims, GetSchema, SchemaService.ListSchemas,
      GetTenant, SchemaService.ListTenants, SchemaService.ListFieldLocks, ExportSchema, createFieldsOn, lock_audit, CreateSchema_tx,
      UpdateSchema_tx, DeleteSchema_tx, PublishSchema_tx, CreateTenant_tx, UpdateTenant_tx, DeleteTenant_tx, LockField_tx, UnlockField_tx,
      importCreateNew, importNewVersion, import_version, autoPublish
  end.
Ltac by_syntax := repeat (cbv zeta; syntax_step).

Section runs.
Context `{Random, Clock} {mr : MapRange} `{!MapRangeOk, SortSlice}.
Context {V : Type} `{ValidatorCaches V, SchemaYamlLib, CelParser}.
Context `{Convert.XXHash, Regexp, JsonSchema, CompileRace, UrlRest}.
Variable svc : Service.
Abbreviation W := (V * MemoryStore)%type.
Abbreviation run_call := (run_call (S:=MemoryStore) (V:=V) svc).
Abbreviation run_calls := (run_calls (S:=MemoryStore) (V:=V) svc).
Implicit Types (w : W) (m : MemoryStore).

Definition only_reads (c : schema_call) : bool :=
  match c with
  | CallGetSchema _ | CallListSchemas _ | CallGetTenant _ | CallListTenants _ | CallListFieldLocks _ | CallExportSchema _ => true
  | _ => false
  end.
Lemma only_reads_spec ctx c : only_reads c = true → keeps id (run_call ctx c).
Proof. destruct c; simpl; intros [=]; by_syntax. Qed.

(** The checks before a transaction only read; nothing after it can fail. *)
Ltac atomic_step :=
  match goal with
  | |- ∀ _, _ => intros ?
  | |- atomic (mbind _ (db_RunInTx _)) => apply atomic_then; [apply schema_atomic_tx; by_syntax|by_syntax]
  | |- atomic (mbind _ (map_err _ (db_RunInTx _))) => apply atomic_then; [apply atomic_map_err, schema_atomic_tx; by_syntax|by_syntax]
  | |- atomic (map_err _ (db_RunInTx _)) => apply atomic_map_err, schema_atomic_tx; by_syntax
  | |- atomic (mbind _ _) => apply schema_atomic_bind; [by_syntax|]
  end.
Lemma atomic_call ctx c : is_import c = false → atomic (run_call ctx c).
Proof.
  destruct (only_reads c) eqn:Hr; [intros _; by apply reads_only_atomic, only_reads_spec|].
  destruct c; simpl in *; try discriminate; intros _;
    try (match goal with |- atomic (mbind (λ _, mret tt) _) => apply atomic_then; [|by_syntax] end).
  all: unfold SchemaService.CreateSchema, UpdateSchema, SchemaService.DeleteSchema, PublishSchema, SchemaService.CreateTenant,
    UpdateTenant, SchemaService.DeleteTenant, LockField, UnlockField; cbv zeta; repeat atomic_step.
Qed.

(** *** Runs *)
Lemma upholds_call N ctx c :
  (∀ i j, (i < N)%nat → (j < N)%nat → uuid_v4 (random i) = uuid_v4 (random j) → i = j) → Z.of_nat N ≤ max_int32 →
  upholds N (run_call ctx c).
Proof.
  intros Hnc Hsmall. destruct (only_reads c) eqn:Hr.
  { intros m0 Hwf [v m] Hm. simpl in Hm. subst m. pose proof (only_reads_spec ctx c Hr (v, m0)) as E.
    destruct (run_call ctx c (v, m0)) as [[?|?] w]; simpl in E; subst; intros; by apply good_refl. }
  assert (∀ A (c : ST W A), upholds N c → upholds N (c ;; mret tt)) as Hthen.
  { intros A c' Hc m0 Hwf. eapply triple_bind; [by apply Hc|intros ?; by apply triple_ret|mono_tac]. }
  destruct c; simpl in *; try discriminate; try apply Hthen.
  - by apply upholds_CreateSchema.
  - by apply upholds_UpdateSchema.
  - by apply upholds_DeleteSchema.
  - by apply upholds_PublishSchema.
  - by apply upholds_CreateTenant.
  - by apply upholds_UpdateTenant.
  - by apply upholds_DeleteTenant.
  - by apply upholds_LockField.
  - by apply upholds_UnlockField.
  - by apply upholds_ImportSchema.
Qed.

Lemma mono_call ctx c : mono (run_call ctx c).
Proof.
  destruct (only_reads c) eqn:Hr; [intros w; pose proof (only_reads_spec ctx c Hr w) as E; simpl in E; by rewrite E|].
  destruct c; simpl in *; try discriminate;
    unfold SchemaService.CreateSchema, UpdateSchema, SchemaService.DeleteSchema, PublishSchema, SchemaService.CreateTenant,
      UpdateTenant, SchemaService.DeleteTenant, LockField, UnlockField, ImportSchema; cbv zeta; mono_tac.
Qed.
Lemma mono_calls calls w : (draws w.2 ≤ draws (run_calls calls w).2)%nat.
Proof.
  revert w. induction calls as [|[ctx c] calls IH]; intros w; [done|]. simpl.
  etrans; [apply (mono_call ctx c)|apply IH].
Qed.
Lemma run_calls_app l1 l2 w : run_calls (l1 ++ l2) w = run_calls l2 (run_calls l1 w).
Proof. apply foldl_app. Qed.

(** A start store; identifiers drawn from the random source do not repeat among
    the first [N], which is all a run uses. *)
Lemma wf_store_new : wf_store NewMemoryStore.
Proof. by constructor; intros *; try (unfold fields_of; simpl; rewrite ?lookup_empty; by intros ?%elem_of_nil || by intros [? ?] || by intros ?). Qed.

Definition distinct_draws (N : nat) : Prop :=
  ∀ i j, (i < N)%nat → (j < N)%nat → uuid_v4 (random i) = uuid_v4 (random j) → i = j.

Section bounded.
Variable N : nat.
Hypothesis no_collisions : distinct_draws N.
Hypothesis N_small : Z.of_nat N ≤ max_int32.

Lemma runs_good calls w :
  wf_store w.2 → (draws (run_calls calls w).2 ≤ N)%nat → good w.2 (run_calls calls w).2.
Proof.
  revert w. induction calls as [|[ctx c] calls IH]; intros w Hwf Hd; [by apply good_refl|]. simpl in *.
  pose proof (mono_calls calls (run_call ctx c w).2) as Hm.
  assert (good w.2 (run_call ctx c w).2.2) as Hg.
  { pose proof (upholds_call N ctx c no_collisions N_small w.2 Hwf w eq_refl) as Hk. unfold used in Hk.
    specialize (Hk ltac:(lia)). by destruct (run_call ctx c w) as [[?|?] w']. }
  eapply good_step; [done|]. apply IH; [by destruct Hg|done].
Qed.
End bounded.

(** A version's predecessors are all there. *)
Lemma version_chain m id sv n :
  wf_store m → schemaVersions m !! id = Some sv → 1 ≤ n ≤ sv_Version sv →
  ∃ id' sv', schemaVersions m !! id' = Some sv' ∧ is_version (sv_SchemaID sv) n sv'.
Proof.
  intros Hwf Hsv Hn. remember (Z.to_nat (sv_Version sv - n)) as k eqn:Hk.
  revert id sv Hsv Hn Hk. induction k as [|k IH]; intros id sv Hsv Hn Hk.
  { exists id, sv. split; [done|]. split; [done|lia]. }
  destruct (wf_follows m Hwf id sv Hsv) as [[? _]|(? & _ & id' & sv' & Hsv' & Hs & Hv)]; [lia|].
  rewrite <-Hs. by apply (IH id' sv'); [|lia..].
Qed.

(** C19: The versions of a schema are numbered 1, 2, ... without gaps or repeats,
    whatever calls are made, failed ones included: below any stored version,
    every number is taken by exactly one version of the same schema, the first
    has no parent and each other one has the one before it as its parent. A
    version belongs to a schema of the store. *)
Theorem schema_versions_numbered calls v :
  let m := (run_calls calls (v, NewMemoryStore)).2 in
  distinct_draws (draws m) → Z.of_nat (draws m) ≤ max_int32 →
  ∀ id sv, schemaVersions m !! id = Some sv →
    sv_ID sv = id ∧ is_Some (schemas m !! sv_SchemaID sv) ∧ 1 ≤ sv_Version sv
    ∧ sv_ParentVersion sv = (if sv_Version sv =? 1 then None else Some (sv_Version sv - 1))
    ∧ ∀ n, 1 ≤ n ≤ sv_Version sv →
        ∃ id', ∀ id2, id2 = id' ↔ ∃ sv2, schemaVersions m !! id2 = Some sv2 ∧ is_version (sv_SchemaID sv) n sv2.
Proof.
  intros m Hd Hs id sv Hsv.
  destruct (runs_good (draws m) Hd Hs calls (v, NewMemoryStore) wf_store_new (le_n _)) as [Hwf _]. fold m in Hwf.
  destruct (wf_range m Hwf id sv Hsv) as [? _]. split_and!; [by apply (wf_vid m Hwf)|by eapply wf_schema|done| |].
  - destruct (wf_follows m Hwf id sv Hsv) as [[-> ->]|(? & -> & _)]; [done|]. by rewrite (proj2 (Z.eqb_neq _ _)) by lia.
  - intros n Hn. destruct (version_chain m id sv n Hwf Hsv Hn) as (id' & sv' & Hsv' & Hs' & Hv').
    exists id'. intros id2. split; [intros ->; by exists sv'|]. intros (sv2 & Hsv2 & Hs2 & Hv2).
    apply (wf_unique m Hwf _ _ _ _ Hsv2 Hsv'); congruence.
Qed.

(** C18: A tenant is only ever bound to a published version, whatever calls are
    made and whichever of them fail; every tenant a run leaves behind, deleted
    ones included, has a version of its schema that exists and is published. *)
Theorem tenants_bound_to_published calls v :
  let m := (run_calls calls (v, NewMemoryStore)).2 in
  distinct_draws (draws m) → Z.of_nat (draws m) ≤ max_int32 →
  ∀ id t, tenants m !! id = Some t →
    tn_ID t = id ∧ ∃ sv, schemaVersions m !! sv_ID sv = Some sv
      ∧ is_version (tn_SchemaID t) (tn_SchemaVersion t) sv ∧ sv_Published sv = true
      ∧ GetSchemaVersion (tn_SchemaID t) (tn_SchemaVersion t) m = Ok sv.
Proof.
  intros m Hd Hs id t Ht.
  destruct (runs_good (draws m) Hd Hs calls (v, NewMemoryStore) wf_store_new (le_n _)) as [Hwf _]. fold m in Hwf.
  split; [by apply (wf_tid m Hwf)|]. destruct (wf_bound m Hwf id t Ht) as (vid & sv & Hsv & Hver & Hpub).
  exists sv. rewrite (proj1 (wf_vid m Hwf _ _ Hsv)). split_and!; [done..|].
  by apply GetSchemaVersion_wf with vid.
Qed.

(** C20: A stored version is never rewritten. Take the store after some calls and
    after more calls, by anyone: each version of the first is in the second with
    the same fields, and is the same but that it may have been published
    since, which is never taken back; a tenant stays with its schema. *)
Theorem versions_immutable calls more v :
  let m := (run_calls calls (v, NewMemoryStore)).2 in
  let m' := (run_calls (calls ++ more) (v, NewMemoryStore)).2 in
  distinct_draws (draws m') → Z.of_nat (draws m') ≤ max_int32 →
  (∀ id sv, schemaVersions m !! id = Some sv →
     ∃ sv', schemaVersions m' !! id = Some sv' ∧ (sv' = sv ∨ sv' = publish sv) ∧ fields_of m' id = fields_of m id)
  ∧ ∀ id t, tenants m !! id = Some t → ∃ t', tenants m' !! id = Some t' ∧ tn_SchemaID t' = tn_SchemaID t.
Proof.
  intros m m' Hd Hs.
  assert (draws m ≤ draws m')%nat as Hle by (unfold m, m'; rewrite run_calls_app; apply mono_calls).
  destruct (runs_good (draws m') Hd Hs calls (v, NewMemoryStore) wf_store_new Hle) as [Hwf _].
  destruct (runs_good (draws m') Hd Hs more (run_calls calls (v, NewMemoryStore)) Hwf) as [_ Hext].
  { by rewrite <-run_calls_app. }
  rewrite <-run_calls_app in Hext. split; [apply (ext_versions _ _ Hext)|apply (ext_tenants _ _ Hext)].
Qed.

(** C21: A call that fails changes nothing: whichever of the fifteen RPCs other
    than ImportSchema returns an error, for whatever reason and after whatever
    steps, the store and the validator factory are as they were. *)
Theorem failed_schema_call_changes_nothing ctx c w e w' :
  is_import c = false → run_call ctx c w = (Err e, w') → w' = w.
Proof. intros Hc. apply (atomic_call ctx c Hc). Qed.
End runs.
