(* ===== verification/SchemaTenants.v ===== *)
(** * Tenants: who learns of one, and what a new one is given

    A caller without access to a tenant gets from every RPC that names it the
    answer it would get if there were no such tenant. A new tenant is bound to
    the version asked for and starts with exactly the defaults of that version's
    fields, each one a value the field's validator accepts (for a JSON field, a
    validator with limits no lower than the default ones). *)
From S2P Require Import Prelude GoText GoFloat GoTime Json Pagination Domain ConfigStore MemStore Convert Auth Validation ValidationFacts CrossField ValidatorFactory ServiceLemmas SchemaTypes SchemaYaml CelLint SchemaStore SchemaService SchemaFacts SchemaRuns SchemaTheorems.
Import SchemaMem.
Local Open Scope Z_scope.

(** ** Access *)

(** The tenant a call names. *)
Definition names_tenant (c : schema_call) : option string :=
  match c with
  | CallGetTenant id | CallDeleteTenant id => Some id
  | CallUpdateTenant req => Some (tu_Id req)
  | CallLockField req => Some (lo_TenantId req)
  | CallUnlockField req => Some (un_TenantId req)
  | CallListFieldLocks req => Some (fl_TenantId req)
  | _ => None
  end.

Section access.
Context {S V : Type} `{SchemaDB S, ValidatorCaches V, SchemaYamlLib, CelParser}.
Context `{Convert.XXHash, Regexp, JsonSchema, CompileRace, UrlRest, MapRange, SortSlice}.
Implicit Types (s : S) (v : V).

(** The lookup behind [resolveTenantWithAccess]. *)
Definition find_tenant (idOrName : string) (s : S) : result error Tenant :=
  if IsUUID idOrName then db_GetTenantByID idOrName s else db_GetTenantByName idOrName s.

(** The answer to a caller who may not know of the tenant. *)
Definition unknown_tenant (idOrName : string) : error :=
  if bool_decide (idOrName = "") then Status0 InvalidArgument "tenant id or name required" else Status0 NotFound "tenant not found".

Definition hidden (svc : Service) (ctx : Auth.Ctx) (id : string) (s : S) : Prop :=
  find_tenant id s = Err ErrNotFound
  ∨ ∃ t e, find_tenant id s = Ok t ∧ svc_guard svc ctx Authz.ActionRead (tenant_resource (tn_ID t)) = Err e
      ∧ status_code_of e = Some PermissionDenied.

Lemma resolve_hidden svc ctx id v s :
  hidden svc ctx id s → resolveTenantWithAccess svc ctx id (v, s) = (Err (unknown_tenant id), (v, s)).
Proof.
  intros Hh. unfold resolveTenantWithAccess, unknown_tenant, require, mbind, ST_bind. destruct (bool_decide (id = "")); [done|].
  simpl. unfold map_err at 1, reads. unfold hidden, find_tenant in Hh.
  destruct (IsUUID id); destruct Hh as [->|(t & e & -> & Hg & Hc)]; try done; unfold check, map_err, of_result; rewrite Hg;
    by rewrite (bool_decide_true (status_code_of e = Some PermissionDenied)).
Qed.

(** What a call that names a hidden tenant answers. *)
Definition hidden_answer (ctx : Auth.Ctx) (c : schema_call) (id : string) : error :=
  match Auth.MustHaveClaims ctx with
  | Err e => e
  | Ok _ =>
    match c with
    | CallLockField req => if bool_decide (lo_FieldPath req = "") then path_required else unknown_tenant id
    | CallUnlockField req => if bool_decide (un_FieldPath req = "") then path_required else unknown_tenant id
    | _ => unknown_tenant id
    end
  end.

Lemma call_hidden svc ctx c id v s :
  names_tenant c = Some id → hidden svc ctx id s →
  run_call svc ctx c (v, s) = (Err (hidden_answer ctx c id), (v, s)).
Proof.
  intros Hn Hh. pose proof (resolve_hidden svc ctx id v s Hh) as Hr. unfold hidden_answer.
  destruct c; simpl in Hn; try discriminate; injection Hn as <-; simpl;
    unfold GetTenant, UpdateTenant, SchemaService.DeleteTenant, LockField, UnlockField, SchemaService.ListFieldLocks, must_have_claims, of_result, mbind, ST_bind in *;
    destruct (Auth.MustHaveClaims ctx); try done; simpl; rewrite ?Hr; try done;
    unfold require; case_bool_decide; simpl; by rewrite ?Hr.
Qed.
End access.

Section listing.
Context `{Random, Clock} {mr : MapRange} `{!MapRangeOk, SortSliceOk}.
Implicit Types m : MemoryStore.

Lemma elem_of_paginate {A} (l : list A) offset limit x : x ∈ paginate l offset limit → x ∈ l.
Proof.
  unfold paginate. destruct (_ <=? _); [by intros ?%elem_of_nil|]. intros Hx.
  apply (subseteq_drop (Z.to_nat offset)). destruct (_ && _); [by apply subseteq_take in Hx|done].
Qed.
Lemma elem_of_paginateTenants ts cursor offset limit t : t ∈ paginateTenants ts cursor offset limit → t ∈ ts.
Proof.
  unfold paginateTenants. intros Hx. rewrite <-(sort_slice_perm newer_tenant ts).
  destruct cursor as [cur|]; [|by apply elem_of_paginate in Hx].
  assert (t ∈ filter (λ t, tenant_after cur t = true) (sort_slice newer_tenant ts)) as [_ ?]%list_elem_of_filter; [|done].
  destruct (_ && _); [by apply subseteq_take in Hx|done].
Qed.

(** What a page of tenants may hold. *)
Definition listed (arg : ListTenantsParams) m (t : Tenant) : Prop :=
  tenants m !! tn_ID t = Some t ∧ tn_DeletedAt t = None ∧ allowed (lt_Allowed arg) t.
Lemma ListTenants_listed arg m l :
  wf_store m → SchemaMem.ListTenants arg m = Ok l → Forall (listed arg m) l.
Proof.
  intros Hwf [= <-]. apply Forall_forall. intros t ((? & ?) & ([id ?] & -> & Hx)%list_elem_of_fmap)%elem_of_paginateTenants%list_elem_of_filter.
  apply elem_of_map_range in Hx. split_and!; [|done..]. simpl. by rewrite (proj1 (wf_tid m Hwf _ _ Hx)).
Qed.
Lemma ListTenantsBySchema_listed id arg m l :
  wf_store m → ListTenantsBySchema id arg m = Ok l → Forall (listed arg m) l.
Proof.
  intros Hwf [= <-]. apply Forall_forall.
  intros t (((? & ?) & ?) & ([tid ?] & -> & Hx)%list_elem_of_fmap)%elem_of_paginateTenants%list_elem_of_filter.
  apply elem_of_map_range in Hx. split_and!; [|done..]. simpl. by rewrite (proj1 (wf_tid m Hwf _ _ Hx)).
Qed.
End listing.

Section access_claim.
Context `{Random, Clock} {mr : MapRange} `{!MapRangeOk, SortSliceOk}.
Context {V : Type} `{ValidatorCaches V, SchemaYamlLib, CelParser}.
Context `{Convert.XXHash, Regexp, JsonSchema, CompileRace, UrlRest}.
Implicit Types m : MemoryStore.

Lemma page_of_listed arg m found n (b : bool) :
  Forall (listed arg m) found →
  Forall (λ pt, ∃ t, pt = tenantToProto t ∧ listed arg m t) (tenantToProto <$> (if b then take n found else found)).
Proof.
  intros Hf. apply Forall_fmap. destruct b; [apply Forall_take|]; (eapply Forall_impl; [exact Hf|]); intros t Ht; by exists t.
Qed.

Lemma service_ListTenants ctx req (v : V) m r w' :
  wf_store m → SchemaService.ListTenants ctx req (v, m) = (Ok r, w') →
  Forall (λ pt, ∃ t, pt = tenantToProto t ∧ tenants m !! tn_ID t = Some t ∧ tn_DeletedAt t = None
    ∧ allowed (Auth.AllowedTenantIDs ctx) t) (tlr_Tenants r).
Proof.
  intros Hwf. unfold SchemaService.ListTenants, must_have_claims, of_result. unfold mbind at 1, ST_bind at 1.
  destruct (Auth.MustHaveClaims ctx) as [[]|]; [|done]. cbv zeta.
  destruct (Pagination.DecodeTokenKind (tl_PageToken req)) as [[[kind offset] cursor]|]; [|done].
  set (arg := {| lt_Limit := _ |}). unfold mbind at 1, ST_bind at 1.
  assert (∀ l, Forall (listed arg m) l → ∀ n b,
    Forall (λ pt, ∃ t, pt = tenantToProto t ∧ tenants m !! tn_ID t = Some t ∧ tn_DeletedAt t = None
      ∧ allowed (Auth.AllowedTenantIDs ctx) t) (tenantToProto <$> (if b : bool then take n l else l))) as Hpage.
  { intros l Hl n b. by apply (page_of_listed arg m). }
  destruct (tl_SchemaId req) as [id|]; [case_bool_decide|]; unfold map_err, reads, require, mbind, ST_bind;
    try (destruct (IsUUID id); [|done]); simpl; intros [= <- <-]; simpl; apply Hpage;
    first [by apply (ListTenants_listed arg)|by apply (ListTenantsBySchema_listed id arg)].
Qed.

Lemma uuid_v4_nonempty b : uuid_v4 b ≠ "".
Proof. unfold uuid_v4. cbv zeta. by destruct (hex_bytes (take 4 _)). Qed.

Lemma default_guard_denies limits ctx claims t :
  Auth.ctx_claims ctx = Some claims → t ≠ "" → Auth.HasTenantAccess claims t = false →
  ∃ e, svc_guard (NewService limits None) ctx Authz.ActionRead (tenant_resource t) = Err e
    ∧ status_code_of e = Some PermissionDenied.
Proof.
  intros Hc Ht Ha. eexists. simpl. unfold Authz.TenantScopeGuard, Auth.CheckTenantAccess. simpl.
  rewrite (bool_decide_false (t = "")) by done. simpl. rewrite Hc, Ha. done.
Qed.

(** C23: A caller cannot find out that a tenant exists. Under the default guard,
    to a caller whose claims do not give access to a tenant, each of the six
    RPCs that name a tenant by id or name gives the same answer on a store with
    the tenant as on any store without it, and changes neither; and a page of
    ListTenants shows only live tenants the caller has access to, when the claims
    are as the interceptors make them: of a superadmin, or with some tenant. *)
Theorem tenant_existence_hidden limits ctx claims (v : V) m :
  let svc := NewService limits None in
  Auth.ctx_claims ctx = Some claims → wf_store m →
  (∀ c id m' t, names_tenant c = Some id → find_tenant id m = Ok t →
     Auth.HasTenantAccess claims (tn_ID t) = false → find_tenant id m' = Err ErrNotFound →
     ∃ e, run_call svc ctx c (v, m) = (Err e, (v, m)) ∧ run_call svc ctx c (v, m') = (Err e, (v, m')))
  ∧ ∀ req r w', Auth.role claims = Auth.RoleSuperAdmin ∨ Auth.TenantIDs claims ≠ [] →
      SchemaService.ListTenants ctx req (v, m) = (Ok r, w') →
      Forall (λ pt, Auth.HasTenantAccess claims (pt_Id pt) = true
        ∧ ∃ t, tenants m !! pt_Id pt = Some t ∧ tn_DeletedAt t = None ∧ pt = tenantToProto t) (tlr_Tenants r).
Proof.
  intros svc Hc Hwf. split.
  - intros c id m' t Hn Hf Ha Hf'. exists (hidden_answer ctx c id).
    split; apply call_hidden; try done; [right|by left].
    destruct (default_guard_denies limits ctx claims (tn_ID t)) as (e & ? & ?); [done| |done|by exists t, e].
    assert (∃ k, tenants m !! k = Some t) as [k Hk].
    { unfold find_tenant in Hf. destruct (IsUUID id); [apply GetTenantByID_Ok in Hf as [? _]|apply GetTenantByName_Ok in Hf as (? & ? & _)]; eauto. }
    destruct (wf_tid m Hwf k t Hk) as [-> (i & _ & ->)]. apply uuid_v4_nonempty.
  - intros req r w' Hmade E. eapply Forall_impl; [by eapply service_ListTenants|]. intros pt (t & -> & Ht & Hd & Hal).
    split; [|by exists t]. simpl. unfold Auth.AllowedTenantIDs in Hal. rewrite Hc in Hal. apply AuthFacts.HasTenantAccess_true.
    unfold Auth.claims_IsSuperAdmin in Hal. case_bool_decide; [by left|]. destruct Hmade as [?|Hne]; [done|].
    right. by destruct (Auth.TenantIDs claims).
Qed.
End access_claim.

(** ** Defaults *)
Section defaults.
Context `{Regexp, JsonSchema, CompileRace, UrlRest, Convert.XXHash}.
Import Convert Validation.

(** A default is stored as text, and the config service reads that text as the
    value that was checked. *)
Lemma default_read_back text ft tv : defaultToTypedValue text ft = Ok tv → stringToTypedValue (Some text) ft = Some tv.
Proof.
  unfold defaultToTypedValue, stringToTypedValue. destruct ft; intros E.
  - destruct (ParseInt text 64) as [n [e|]]; by simplify_eq/=.
  - destruct (ParseFloat text) as [x [e|]]; by simplify_eq/=.
  - by simplify_eq/=.
  - destruct (ParseBool text) as [b [e|]]; by simplify_eq/=.
  - destruct (ParseRFC3339Nano text); by simplify_eq/=.
  - destruct (ParseDuration text); by simplify_eq/=.
  - by simplify_eq/=.
  - by simplify_eq/=.
  - by simplify_eq/=.
Qed.

Lemma Unmarshal_constraints_same raw c : Unmarshal_constraints raw = Some c → c = unmarshalConstraints raw.
Proof.
  unfold Unmarshal_constraints, unmarshalConstraints. destruct (Json.parse raw) as [[]|]; try done; [by intros [= <-]|].
  destruct (well_typed _); [|done]. by intros [= <-].
Qed.

(** No constraints, and constraints that ask for nothing. *)
Lemma accepts_no_constraints ft l sem nullable sensitive tv :
  accepts ft (mkOptions l sem nullable sensitive None) tv →
  accepts ft (mkOptions l sem nullable sensitive (Some no_constraints)) tv.
Proof.
  destruct tv as [[k|]|]; simpl; try done. intros [Hk _]. split; [|intros c [= <-]; by left].
  destruct Hk as [?|[? Hk]]; [by left|right; split; [done|]]. destruct k; simpl in *; try done.
  - intros c [= <-]. split_and!; by intros ?.
  - destruct Hk as [? _]. split; [done|]. intros c [= <-]. split_and!; by intros ?.
  - intros c [= <-]. unfold length_ok, regex_ok. simpl. split; [split; by intros ?|by intros ?].
  - intros c [= <-]. split_and!; by intros ?.
  - intros c [= <-]. by intros ?.
Qed.

(** The check of a default, which runs with the default limits, passes only what
    the config service's validator of the field takes; that validator runs with
    the limits of the server's configuration, which matter to JSON fields only. *)
Lemma default_accepted f text l v :
  validateDefaultValue f = Ok tt → sf_DefaultValue f = Some text →
  sf_FieldType f ≠ FieldTypeJSON ∨ as_lenient DefaultLimits l → field_validator l f = Ok v →
  Validate v (stringToTypedValue (Some text) (sf_FieldType f)) = Ok tt.
Proof.
  intros E Hd Hl. unfold field_validator. destruct (_ && _); [done|]. intros [= <-]. apply Validate_accepts.
  unfold validateDefaultValue in E. rewrite Hd in E. apply result_bind_Ok in E as (opts & Ho & E).
  destruct (defaultToTypedValue text _) as [tv|] eqn:Htv; [|done]. rewrite (default_read_back _ _ _ Htv).
  destruct (Validate _ _) as [[]|] eqn:Hv; [|done]. apply Validate_accepts in Hv.
  assert (ToProto (sf_FieldType f) ≠ FIELD_TYPE_JSON ∨ as_lenient DefaultLimits l) as Hlim.
  { destruct Hl as [Hl|]; [left|by right]. by destruct (sf_FieldType f). }
  revert Hv. unfold default_options in Ho. unfold field_options. destruct (sf_Constraints f) as [raw|].
  - destruct raw as [|c raw].
    + injection Ho as <-. destruct (sf_Nullable f), (sf_Sensitive f); intros Hv;
        (eapply accepts_lenient; [exact Hlim|apply accepts_no_constraints, Hv]).
    + destruct (Unmarshal_constraints _) as [cs|] eqn:Hcs; [|done]. injection Ho as <-.
      rewrite (Unmarshal_constraints_same _ _ Hcs). destruct (sf_Nullable f), (sf_Sensitive f); intros Hv; (eapply accepts_lenient; [exact Hlim|exact Hv]).
  - injection Ho as <-. destruct (sf_Nullable f), (sf_Sensitive f); intros Hv; (eapply accepts_lenient; [exact Hlim|exact Hv]).
Qed.
End defaults.

(** *** Collecting the defaults *)
Section collect.
Context `{Regexp, JsonSchema, CompileRace, UrlRest, Convert.XXHash}.

(** The seed of a path is the default of a field with that path. *)
Definition seeds (p : string) (sd : SeedValue) (f : SchemaField) : Prop :=
  sf_Path f = p ∧ sf_DefaultValue f = Some (sd_Value sd) ∧ sd_Checksum sd = configValueChecksum (sd_Value sd)
  ∧ validateDefaultValue f = Ok tt.

Lemma collect_defaults_spec fields out r :
  collect_defaults fields out = Ok r →
  (∀ p sd, r !! p = Some sd → out !! p = Some sd ∨ ∃ f, f ∈ fields ∧ seeds p sd f)
  ∧ (∀ p, is_Some (out !! p) → is_Some (r !! p))
  ∧ ∀ f, f ∈ fields → is_Some (sf_DefaultValue f) → is_Some (r !! sf_Path f).
Proof.
  revert out. induction fields as [|f fields IH]; intros out; simpl.
  { intros [= <-]. split_and!; [by left|done|by intros ? ?%elem_of_nil]. }
  destruct (sf_DefaultValue f) as [text|] eqn:Hd.
  - intros E. apply result_bind_Ok in E as ([] & Hv & E). destruct (IH _ E) as (Hr & Hout & Hfs). split_and!.
    + intros p sd Hp. destruct (Hr p sd Hp) as [Hin|(f' & ? & ?)]; [|right; exists f'; split; [by right|done]].
      apply lookup_insert_Some in Hin as [[<- <-]|[_ ?]]; [right|by left]. exists f. split; [by left|done].
    + intros p [sd Hp]. apply Hout. destruct (decide (sf_Path f = p)) as [->|?]; [by rewrite lookup_insert_eq|by rewrite lookup_insert_ne].
    + intros f' [->|Hf']%elem_of_cons ?; [|by apply Hfs]. apply Hout. by rewrite lookup_insert_eq.
  - intros E. destruct (IH _ E) as (Hr & Hout & Hfs). split_and!; [|done|].
    + intros p sd Hp. destruct (Hr p sd Hp) as [?|(f' & ? & ?)]; [by left|right; exists f'; split; [by right|done]].
    + intros f' [->|Hf']%elem_of_cons Hs; [by rewrite Hd in Hs; destruct Hs|by apply Hfs].
Qed.

(** The rows of a first config. *)
Definition seed_row (cvID : string) (p : string * SeedValue) : ConfigValue :=
  {| val_ConfigVersionID := cvID; val_FieldPath := p.1; val_Value := Some (sd_Value p.2);
     val_Checksum := Some (sd_Checksum p.2); val_Description := None |}.

(** What the rows [rows] say of the fields [fs]. *)
Record default_rows (fs : list SchemaField) (rows : list ConfigValue) : Prop := {
  dr_once : NoDup (val_FieldPath <$> rows);
  dr_all f : f ∈ fs → is_Some (sf_DefaultValue f) → sf_Path f ∈ val_FieldPath <$> rows;
  dr_only row : row ∈ rows → ∃ f text, f ∈ fs ∧ sf_Path f = val_FieldPath row ∧ sf_DefaultValue f = Some text
    ∧ val_Value row = Some text ∧ val_Checksum row = Some (configValueChecksum text)
    ∧ ∀ l v, sf_FieldType f ≠ FieldTypeJSON ∨ as_lenient Validation.DefaultLimits l → field_validator l f = Ok v →
        Validation.Validate v (Convert.stringToTypedValue (val_Value row) (sf_FieldType f)) = Ok tt
}.

Lemma seed_rows_ok {mr : MapRange} `{!MapRangeOk} fs d cvID :
  collectDefaultValues fs = Ok d → default_rows fs (seed_row cvID <$> map_range d).
Proof.
  intros E. destruct (collect_defaults_spec _ _ _ E) as (Hr & _ & Hall). split.
  - rewrite <-list_fmap_compose. apply (NoDup_fst_map_range d).
  - intros f Hf Hs. destruct (Hall f Hf Hs) as [sd Hsd]. apply list_elem_of_fmap.
    exists (seed_row cvID (sf_Path f, sd)). split; [done|]. apply list_elem_of_fmap_2. by apply elem_of_map_range.
  - intros row ([p sd] & -> & Hin)%list_elem_of_fmap. apply elem_of_map_range in Hin. simpl in *.
    destruct (Hr p sd Hin) as [?|(f & Hf & <- & Hd & Hc & Hv)]; [done|]. exists f, (sd_Value sd).
    do 4 (split; [done|]). split; [by rewrite <-Hc|]. intros l v Hl Hv'. by eapply default_accepted.
Qed.
End collect.

Section creation.
Context `{Random, Clock} {mr : MapRange} `{!MapRangeOk, SortSlice}.
Context {V : Type} `{ValidatorCaches V, SchemaYamlLib, CelParser}.
Context `{Convert.XXHash, Regexp, JsonSchema, CompileRace, UrlRest}.
Implicit Types m : MemoryStore.

(** The config versions of [m'] are those of [m] and, when there are rows, the
    first version of tenant [id] with these rows. *)
Definition first_config m m' (id : string) (rows : list ConfigValue) : Prop :=
  match rows with
  | [] => configVersions m' = configVersions m ∧ configValues m' = configValues m
  | _ => ∃ cv, cv_TenantID cv = id ∧ cv_Version cv = 1 ∧ configVersions m !! cv_ID cv = None
      ∧ configVersions m' = <[cv_ID cv := cv]> (configVersions m) ∧ configValues m' = <[cv_ID cv := rows]> (configValues m)
  end.

Lemma writes_Ok {A} (f : MemoryStore → result error A * MemoryStore) (v : V) m a w' :
  writes f (v, m) = (Ok a, w') → f m = (Ok a, w'.2) ∧ w'.1 = v.
Proof. unfold writes. destruct (f m). by intros [= -> <-]. Qed.

Lemma reads_Ok {A} (f : MemoryStore → result error A) (w w' : V * MemoryStore) a :
  reads f w = (Ok a, w') → f w.2 = Ok a ∧ w' = w.
Proof. destruct w. unfold reads. by intros [= E <-]. Qed.
Lemma require_Ok b e (w w' : V * MemoryStore) a : require b e w = (Ok a, w') → b = true ∧ w' = w.
Proof. destruct b; [|done]. by intros [= _ <-]. Qed.

(** The steps before the transaction. *)
Lemma CreateTenant_Ok svc ctx req (v : V) m reply w' :
  SchemaService.CreateTenant svc ctx req (v, m) = (Ok reply, w') →
  ∃ sv defaults t, GetSchemaVersion (tc_SchemaId req) (tc_SchemaVersion req) m = Ok sv ∧ sv_Published sv = true
  ∧ collectDefaultValues (fields_of m (sv_ID sv)) = Ok defaults ∧ reply = tenantToProto t
  ∧ RunInTx (CreateTenant_tx (getActor ctx) req defaults) (v, m) = (Ok t, w').
Proof.
  unfold SchemaService.CreateTenant, must_have_claims, check. intros E. st_inv.
  repeat match goal with
  | Hr : require _ _ _ = (Ok _, _) |- _ => apply require_Ok in Hr as [? ->]
  | Hr : reads _ _ = (Ok _, _) |- _ => apply reads_Ok in Hr as [? ->]
  end.
  match goal with Hf : db_GetSchemaFields _ _ = Ok _ |- _ => injection Hf as <- end.
  by eexists _, _, _.
Qed.

(** The transaction of a creation, step by step. *)
Lemma CreateTenant_tx_Ok actor req defaults (v : V) m t w' :
  CreateTenant_tx actor req defaults (v, m) = (Ok t, w') →
  ∃ m1, SchemaMem.CreateTenant {| ct_Name := tc_Name req; ct_SchemaID := tc_SchemaId req; ct_SchemaVersion := tc_SchemaVersion req |} m = (Ok t, m1)
  ∧ let m2 := (SeedTenantConfig {| sp_TenantID := tn_ID t; sp_Actor := actor; sp_Values := defaults |} m1).2 in
    tenants w'.2 = tenants m2 ∧ configVersions w'.2 = configVersions m2 ∧ configValues w'.2 = configValues m2
    ∧ draws w'.2 = draws m2.
Proof.
  unfold CreateTenant_tx. intros E. apply bind_Ok in E as (t1 & [v1 m1] & E1 & E). apply map_err_Ok, writes_Ok in E1 as [E1 Hv1].
  apply bind_Ok in E as ([] & [v2 m2] & E2 & E). apply bind_Ok in E as ([] & [v3 m3] & E3 & E). apply ret_Ok in E as [-> <-].
  exists m1. split; [exact E1|]. apply writes_Ok in E3 as [[= <-] _]. simpl.
  replace (SeedTenantConfig _ m1).2 with m2; [done|]. destruct (0 <? size defaults)%nat eqn:Hs.
  - apply writes_Ok in E2 as [E2 _]. simpl in E2. by rewrite E2.
  - apply ret_Ok in E2 as [_ [= _ <-]]. unfold SeedTenantConfig. simpl. by rewrite bool_decide_true by (apply Nat.ltb_ge in Hs; lia).
Qed.

Lemma seed_effect arg m :
  let m' := (SeedTenantConfig arg m).2 in
  let rows := seed_row (nextID m) <$> map_range (sp_Values arg) in
  tenants m' = tenants m ∧ (draws m ≤ draws m')%nat ∧ (rows ≠ [] → draws m < draws m')%nat
  ∧ (configVersions m !! nextID m = None ∨ rows = [] → first_config m m' (sp_TenantID arg) rows).
Proof.
  unfold SeedTenantConfig. simpl. pose proof (length_map_range (sp_Values arg)) as Hl. case_bool_decide as Hz.
  - destruct (map_range (sp_Values arg)); [|simpl in Hl; lia]. simpl. split_and!; [done|lia|done|done].
  - destruct (map_range (sp_Values arg)) as [|p ps] eqn:Hr; [simpl in Hl; lia|]. simpl. split_and!; [done|lia|lia|].
    intros [Hf|?]; [|done]. match goal with |- context [<[_ := ?cv]> (configVersions m)] => by exists cv end.
Qed.

(** C22: What a successful CreateTenant does. The version asked for exists and is
    published; exactly one tenant is added, under an identifier not used before,
    with the name and the version asked for; and it starts with exactly the
    defaults of that version's fields: no config if there are none, otherwise a
    first config version with one row per path that has a default, which carries
    the default's text and checksum. Read as the field's type, the text is a value
    that the validator the config service's factory builds for the field accepts,
    under whatever limits the server is configured with, except that for a JSON
    field they must be as lenient as the default limits (schema nesting and
    compilation timeout unlimited or at least the defaults, 64 and 5 seconds),
    which are those CreateTenant checks with. Compiling one schema is taken to be
    in time always or never, and for a pattern above its length limit the
    factory builds no validator at all. *)
Theorem create_tenant_seeds_defaults svc ctx req (v : V) m reply w' :
  wf_store m → SchemaService.CreateTenant svc ctx req (v, m) = (Ok reply, w') → distinct_draws (draws w'.2) →
  ∃ sv t rows, GetSchemaVersion (tc_SchemaId req) (tc_SchemaVersion req) m = Ok sv ∧ sv_Published sv = true
  ∧ reply = tenantToProto t ∧ tenants m !! tn_ID t = None ∧ tenants w'.2 = <[tn_ID t := t]> (tenants m)
  ∧ (tn_Name t, tn_SchemaID t, tn_SchemaVersion t, tn_DeletedAt t) = (tc_Name req, tc_SchemaId req, tc_SchemaVersion req, None)
  ∧ first_config m w'.2 (tn_ID t) rows ∧ default_rows (fields_of m (sv_ID sv)) rows.
Proof.
  intros Hwf E Hd. destruct (CreateTenant_Ok _ _ _ _ _ _ _ E) as (sv & defaults & t & Hsv & Hpub & Hdef & -> & Htx).
  exists sv, t. unfold RunInTx in Htx. replace (clone m) with m in Htx by (by destruct m).
  destruct (CreateTenant_tx _ _ _ _) as [[t'|] [v' m']] eqn:Hbody; [|done]. injection Htx as -> <-.
  apply CreateTenant_tx_Ok in Hbody as (m1 & Hc & Ht & Hcv & Hcr & Hdraws).
  set (arg := {| sp_TenantID := tn_ID t |}) in *. simpl in *.
  destruct (seed_effect arg m1) as (Htm & Hle & Hlt & Hfirst).
  assert (published_version m (tc_SchemaId req) (tc_SchemaVersion req)) as Hbound.
  { apply GetSchemaVersion_Ok in Hsv as (vid & ? & ?). by exists vid, sv. }
  pose proof (op_CreateTenant (draws m') Hd (Build_CreateTenantParams _ _ _) m t m1 Hwf Hbound Hc ltac:(lia)) as (Hwf1 & _ & Hin & Hnew).
  set (rows := seed_row (nextID m1) <$> map_range (sp_Values arg)) in *.
  assert (first_config m1 m' (tn_ID t) rows) as Hrows.
  { assert (configVersions m1 !! nextID m1 = None ∨ rows = []) as Hfresh.
    { destruct (decide (rows = [])) as [?|Hne]; [by right|left]. apply eq_None_not_Some. intros [cv Hcv1].
      apply (next_fresh (draws m') Hd m1); [specialize (Hlt Hne); lia|]. by eapply wf_cid. }
    specialize (Hfirst Hfresh). unfold first_config in *. by rewrite Hcv, Hcr. }
  exists rows. injection Hc as <- <-. do 3 (split; [done|]). split; [done|]. split; [by rewrite Ht, Htm|].
  split; [done|]. split; [done|]. by apply seed_rows_ok.
Qed.
End creation.
