(* ===== verification/SchemaFactory.v ===== *)
(** * The schema service and the validator factory together

    The factory of the config service reads the same store the schema service
    writes, and the schema service tells it when a tenant is bound to another
    version or a schema is deleted. However calls of the two are interleaved,
    the factory's caches never show. *)
From S2P Require Import Prelude GoText GoTime Json Pagination Domain ConfigStore MemStore Convert Auth Lru Validation CrossField ValidatorFactory ValidatorFactoryFacts ServiceLemmas SchemaTypes SchemaYaml CelLint SchemaStore SchemaService SchemaFacts SchemaRuns SchemaTheorems SchemaTenants.
Import SchemaMem.
Local Open Scope Z_scope.

(** ** The store as the factory sees it *)
Section store.
Context `{Random} {mr : MapRange} `{!MapRangeOk}.
Implicit Types m : MemoryStore.

#[export] Instance schema_store : SchemaStore MemoryStore := {|
  ss_GetTenantByID := GetTenantByID;
  ss_GetSchemaVersion := GetSchemaVersion;
  ss_GetSchemaFields := GetSchemaFields |}.
#[export] Instance schema_store_ok : SchemaStoreOk MemoryStore.
Proof.
  refine {| ss_ok _ := True |}. intros m id v sv _ E. apply GetSchemaVersion_Ok in E as (_ & _ & ?). done.
Defined.

(** The tenants of [T] keep their schema version. *)
Definition bindings_kept (T : string → Prop) m m' : Prop := ∀ t tn, T t → GetTenantByID t m = Ok tn →
  ∃ tn', GetTenantByID t m' = Ok tn' ∧ tn_SchemaID tn' = tn_SchemaID tn ∧ tn_SchemaVersion tn' = tn_SchemaVersion tn.

Lemma grows_of_good T m m' : wf_store m → good m m' → bindings_kept T m m' → store_grows T (λ _, True) m m'.
Proof.
  intros Hwf [Hwf' Hext] Hb. split.
  - done.
  - intros t tn Ht E. split; [done|]. by apply Hb.
  - intros id v sv _ E. apply GetSchemaVersion_Ok in E as (vid & Hsv & Hver).
    destruct (ext_versions _ _ Hext _ _ Hsv) as (sv' & Hsv' & Hsame & _). exists sv'. split.
    + apply (GetSchemaVersion_wf id v m' vid); [done..|]. by destruct Hsame as [->| ->].
    + by destruct Hsame as [->| ->].
  - intros id v sv fs _ E [= <-]. apply GetSchemaVersion_Ok in E as (vid & Hsv & _).
    destruct (ext_versions _ _ Hext _ _ Hsv) as (_ & _ & _ & Hf). destruct (wf_vid m Hwf _ _ Hsv) as [-> _].
    simpl. unfold GetSchemaFields. by rewrite Hf.
Qed.

Lemma bindings_same T m m' : tenants m' = tenants m → bindings_kept T m m'.
Proof. intros E t tn _. unfold GetTenantByID. rewrite E. intros Ht. by exists tn. Qed.
Lemma bindings_trans T m1 m2 m3 : bindings_kept T m1 m2 → bindings_kept T m2 m3 → bindings_kept T m1 m3.
Proof.
  intros H12 H23 t tn Ht E. destruct (H12 t tn Ht E) as (t2 & E2 & ? & ?). destruct (H23 t t2 Ht E2) as (t3 & ? & ? & ?).
  exists t3. split_and!; [done|congruence..].
Qed.
(** A new tenant, and a change of one. *)
Lemma bindings_new T m m' id tn : tenants m !! id = None → tenants m' = <[id := tn]> (tenants m) → bindings_kept T m m'.
Proof.
  intros Hn E t tn' _. unfold GetTenantByID. rewrite E. intros Ht. exists tn'. split; [|done].
  destruct (decide (id = t)) as [->|?]; [by rewrite Hn in Ht|by rewrite lookup_insert_ne].
Qed.
Lemma bindings_change `{Clock} (T : string → Prop) id g m :
  (T id → ∀ now t, tn_SchemaID (g now t) = tn_SchemaID t ∧ tn_SchemaVersion (g now t) = tn_SchemaVersion t
     ∧ tn_DeletedAt (g now t) = tn_DeletedAt t) →
  bindings_kept T m (change_tenant id g m).2.
Proof.
  intros Hg t tn Ht E. unfold change_tenant. destruct (GetTenantByID id m) as [t0|] eqn:E0; [|by exists tn]. simpl.
  destruct (decide (id = t)) as [->|Hne].
  - rewrite E in E0. injection E0 as <-. apply GetTenantByID_Ok in E as [_ Hd].
    destruct (Hg Ht (clock (ticks m)) tn) as (? & ? & Hd'). eexists. split; [|done].
    unfold GetTenantByID. simpl. rewrite lookup_insert_eq. by rewrite bool_decide_true by congruence.
  - exists tn. split; [|done]. unfold GetTenantByID in *. simpl. by rewrite lookup_insert_ne.
Qed.
End store.

Section deployment.
Context `{Random, Clock} {mr : MapRange} `{!MapRangeOk, SortSlice}.
Context `{SchemaYamlLib, CelParser, CelCompile}.
Context `{Convert.XXHash, Regexp, JsonSchema, CompileRace, UrlRest}.
Variable svc : Service.
Abbreviation F := (ValidatorFactory MemoryStore cel_Env).
Abbreviation W := (F * MemoryStore)%type.
Implicit Types (f : F) (m : MemoryStore) (w : W).

(** [service.go]: [s.validator.Cache().Invalidate] and [InvalidateRules];
    [InvalidateSchemaPrograms]. *)
#[export] Instance factory_caches : ValidatorCaches F := {|
  drop_tenant t f := InvalidateRules t (InvalidateValidators t f);
  drop_schema id f := InvalidateSchemaPrograms id f |}.

(** ** Tenants through a call *)
Abbreviation tenants_of := (λ w : W, tenants w.2).

Lemma keeps_tx_tenants {A} (fn : ST W A) : keeps tenants_of fn → keeps tenants_of (RunInTx fn).
Proof.
  intros Hf [f m]. unfold RunInTx. specialize (Hf (f, clone m)). destruct (fn (f, clone m)) as [[a|e] [f' m']]; simpl in *; [|done].
  by rewrite Hf; destruct m.
Qed.

Lemma tenants_CreateSchema arg m : tenants (SchemaMem.CreateSchema arg m).2 = tenants m.
Proof. unfold SchemaMem.CreateSchema. by destruct (list_find _ _). Qed.
Lemma tenants_CreateSchemaVersion arg m : tenants (CreateSchemaVersion arg m).2 = tenants m.
Proof. unfold CreateSchemaVersion. by destruct (schemas m !! _). Qed.
Lemma tenants_BulkCreateSchemaFields args m : tenants (BulkCreateSchemaFields args m).2 = tenants m.
Proof.
  revert m. induction args as [|a args IH]; intros m; [done|]. simpl.
  assert (tenants (CreateSchemaField a m).2 = tenants m) as Ha by (unfold CreateSchemaField; by destruct (schemaVersions m !! _)).
  destruct (CreateSchemaField a m) as [[x|e] m1]; simpl in *; [|done].
  specialize (IH m1). destruct (BulkCreateSchemaFields args m1) as [[fs|e] m2]; simpl in *; congruence.
Qed.
Lemma tenants_PublishSchemaVersion id v m : tenants (PublishSchemaVersion id v m).2 = tenants m.
Proof. unfold PublishSchemaVersion. by destruct (list_find _ _) as [[? [? ?]]|]. Qed.
Lemma tenants_DeleteSchema id m : tenants (SchemaMem.DeleteSchema id m).2 = tenants m.
Proof. unfold SchemaMem.DeleteSchema. by destruct (GetSchemaByID id m). Qed.
Lemma tenants_CreateFieldLock arg m : tenants (CreateFieldLock arg m).2 = tenants m.
Proof. unfold CreateFieldLock. by destruct (GetTenantByID _ m). Qed.
Lemma tenants_DeleteFieldLock t p m : tenants (DeleteFieldLock t p m).2 = tenants m.
Proof. unfold DeleteFieldLock. by destruct (_ ≫= _). Qed.
Lemma tenants_InsertAuditWriteLog arg m : tenants (InsertAuditWriteLog arg m).2 = tenants m.
Proof. done. Qed.
Local Hint Resolve tenants_CreateSchema tenants_CreateSchemaVersion tenants_BulkCreateSchemaFields tenants_PublishSchemaVersion
  tenants_DeleteSchema tenants_CreateFieldLock tenants_DeleteFieldLock tenants_InsertAuditWriteLog : schema_frame.

Definition writes_tenants (c : schema_call) : bool :=
  match c with CallCreateTenant _ | CallUpdateTenant _ | CallDeleteTenant _ => true | _ => false end.
Definition writes_caches (c : schema_call) : bool :=
  match c with CallUpdateTenant _ | CallDeleteSchema _ => true | _ => false end.

Ltac open_handlers := unfold run_call, SchemaService.CreateSchema, UpdateSchema, SchemaService.DeleteSchema, PublishSchema,
  SchemaService.CreateTenant, UpdateTenant, SchemaService.DeleteTenant, LockField, UnlockField, ImportSchema.
Lemma call_keeps_tenants ctx c : writes_tenants c = false → keeps tenants_of (run_call svc ctx c).
Proof.
  destruct c; simpl; try discriminate; intros _; open_handlers;
    repeat (by_syntax; first [apply keeps_tx_tenants|apply keeps_caches|progress open_handlers]).
Qed.
Lemma call_keeps_caches ctx c : writes_caches c = false → keeps fst (run_call svc ctx c).
Proof. destruct c; simpl; try discriminate; intros _; open_handlers; repeat (by_syntax; progress open_handlers). Qed.

(** *** A new binding *)
Lemma preserves_writes {A} (P : MemoryStore → Prop) (g : MemoryStore → result error A * MemoryStore) :
  (∀ m, P m → P (g m).2) → preserves (λ w : W, P w.2) (writes g).
Proof. intros Hg [f m] Hm. unfold writes. specialize (Hg m Hm). by destruct (g m). Qed.
Lemma keeps_preserves {A} (P : W → Prop) (c : ST W A) : keeps id c → preserves P c.
Proof. intros Hc w Hw. specialize (Hc w). simpl in Hc. by rewrite Hc. Qed.

Lemma UpdateTenant_tx_bindings m0 actor id req :
  preserves (λ w, bindings_kept (λ t, tu_SchemaVersion req = None ∨ t ≠ id) m0 w.2) (UpdateTenant_tx actor id req : ST W _).
Proof.
  set (T := λ t, _ ∨ _). unfold UpdateTenant_tx.
  assert (∀ g, (T id → ∀ now t, tn_SchemaID (g now t) = tn_SchemaID t ∧ tn_SchemaVersion (g now t) = tn_SchemaVersion t
     ∧ tn_DeletedAt (g now t) = tn_DeletedAt t) → preserves (λ w : W, bindings_kept T m0 w.2) (writes (change_tenant id g))) as Hch.
  { intros g Hg. apply (preserves_writes (λ m, bindings_kept T m0 m)). intros m Hm. eapply bindings_trans; [exact Hm|by apply bindings_change]. }
  apply preserves_bind; [|intros renamed; apply preserves_bind; [|intros rebound; apply preserves_bind; [|intros t; apply preserves_bind]]].
  - destruct (tu_Name req); [|apply preserves_ret]. destruct (bool_decide _); [apply preserves_ret|].
    apply preserves_bind; [apply keeps_preserves, keeps_require|intros []]. apply preserves_map_err. by apply Hch.
  - destruct (tu_SchemaVersion req) as [v|] eqn:Hv; [|apply preserves_ret]. apply preserves_map_err, Hch.
    intros [?|?]; [congruence|done].
  - destruct (tu_Name req), (tu_SchemaVersion req); try apply preserves_ret. apply preserves_map_err, keeps_preserves, keeps_reads.
  - by apply (preserves_writes (λ m, bindings_kept T m0 m)).
  - intros []. apply preserves_ret.
Qed.

Lemma UpdateTenant_effect ctx req f m r w' :
  UpdateTenant svc ctx req (f, m) = (Ok r, w') →
  ∃ id, bindings_kept (λ t, tu_SchemaVersion req = None ∨ t ≠ id) m w'.2
    ∧ w'.1 = match tu_SchemaVersion req with Some _ => drop_tenant id f | None => f end.
Proof.
  unfold UpdateTenant. intros E. apply bind_Ok in E as ([] & w1 & E1 & E). apply of_result_Ok in E1 as [_ <-].
  apply bind_Ok in E as (t0 & w2 & E2 & E).
  assert (w2 = (f, m)) as -> by (apply (keeps_run id _ _ _ _) in E2; [done|by_syntax]).
  apply bind_Ok in E as ([] & w3 & E3 & E). apply of_result_Ok in E3 as [_ <-].
  apply bind_Ok in E as ([] & w4 & E4 & E).
  assert (w4 = (f, m)) as -> by (apply (keeps_run id _ _ _ _) in E4; [done|by_syntax]).
  apply bind_Ok in E as (t & [f5 m5] & E5 & E). apply bind_Ok in E as ([] & w6 & E6 & E). apply ret_Ok in E as [_ <-].
  pose proof (UpdateTenant_tx_bindings m (getActor ctx) (tn_ID t0) req (f, m)) as Hb.
  assert (keeps fst (UpdateTenant_tx (getActor ctx) (tn_ID t0) req : ST W _)) as Hk by by_syntax. specialize (Hk (f, m)).
  simpl in E5. unfold RunInTx in E5. replace (clone m) with m in E5 by (by destruct m).
  destruct (UpdateTenant_tx _ _ _ (f, m)) as [[?|?] [f' m']]; [|done]. injection E5 as -> <- <-. simpl in *. subst f'.
  exists (tn_ID t0). destruct (tu_SchemaVersion req); injection E6 as <-; (split; [|done]); by apply Hb, bindings_same.
Qed.

Lemma DeleteSchema_effect ctx id f m r w' :
  SchemaService.DeleteSchema svc ctx id (f, m) = (Ok r, w') → ∃ sid, w'.1 = drop_schema sid f.
Proof.
  unfold SchemaService.DeleteSchema. intros E. apply bind_Ok in E as ([] & w1 & E1 & E). apply of_result_Ok in E1 as [_ <-].
  apply bind_Ok in E as ([] & w2 & E2 & E). apply of_result_Ok in E2 as [_ <-].
  apply bind_Ok in E as ([] & w3 & E3 & E). apply require_Ok in E3 as [_ ->].
  apply bind_Ok in E as (sc & w4 & E4 & E). apply map_err_Ok in E4. unfold resolveSchema in E4. apply reads_Ok in E4 as [_ ->].
  apply bind_Ok in E as ([] & [f5 m5] & E5 & E). apply map_err_Ok in E5.
  assert (f5 = f) as ->.
  { apply (keeps_run fst _ _ _ _) in E5; [done|by_syntax]. }
  injection E as _ <-. by eexists.
Qed.

Lemma CreateTenant_bindings T ctx req f m r w' :
  wf_store m → distinct_draws (draws w'.2) → SchemaService.CreateTenant svc ctx req (f, m) = (Ok r, w') → bindings_kept T m w'.2.
Proof.
  intros Hwf Hd E. destruct (CreateTenant_Ok _ _ _ _ _ _ _ E) as (sv & defaults & t & Hsv & Hpub & _ & _ & Htx).
  unfold RunInTx in Htx. replace (clone m) with m in Htx by (by destruct m).
  destruct (CreateTenant_tx _ _ _ _) as [[t'|] [v' m']] eqn:Hbody; [|done]. injection Htx as -> <-.
  apply CreateTenant_tx_Ok in Hbody as (m1 & Hc & Ht & _ & _ & Hdraws). simpl in *.
  match type of Ht with context [SeedTenantConfig ?arg m1] => destruct (seed_effect arg m1) as (Htm & Hle & _) end.
  apply (bindings_new T m _ (nextID m) t).
  - apply (fresh_tenant (draws m') Hd m Hwf). injection Hc as <- <-. simpl in *. lia.
  - simpl. rewrite Ht, Htm. by injection Hc as <- <-.
Qed.

(** ** Coherence *)
Definition coherent w : Prop := factory_inv (with_store w.1 w.2).

Lemma inv_InvalidateSchemaPrograms id f : factory_inv f → factory_inv (InvalidateSchemaPrograms id f).
Proof.
  intros []. split; try done. simpl. intros sid v i prog Hp. apply map_lookup_filter_Some in Hp as [Hp _]. by apply co_programs.
Qed.
Lemma coherent_drop_schema id f m : coherent (f, m) → coherent (drop_schema id f, m).
Proof. exact (inv_InvalidateSchemaPrograms id (with_store f m)). Qed.
Lemma coherent_grow f m m' :
  coherent (f, m) → wf_store m → good m m' → bindings_kept (λ _, True) m m' → coherent (f, m').
Proof.
  intros Hc Hwf Hg Hb. apply (factory_step_inv (with_store f m) (with_store f m')); [|done].
  apply (step_grow m' (with_store f m)). by apply grows_of_good.
Qed.
Lemma coherent_rebind t f m m' :
  coherent (f, m) → wf_store m → good m m' → bindings_kept (λ t', t' ≠ t) m m' → coherent (drop_tenant t f, m').
Proof.
  intros Hc Hwf Hg Hb. apply (factory_step_inv (with_store f m) (with_store (drop_tenant t f) m')); [|done].
  apply (step_rebind t m' (with_store f m)). by apply grows_of_good.
Qed.

Definition deletes_tenant (c : schema_call) : bool := match c with CallDeleteTenant _ => true | _ => false end.

Lemma call_coherent N ctx c f m :
  distinct_draws N → Z.of_nat N ≤ max_int32 → deletes_tenant c = false → wf_store m →
  (draws (run_call svc ctx c (f, m)).2.2 ≤ N)%nat → coherent (f, m) → coherent (run_call svc ctx c (f, m)).2.
Proof.
  intros Hd Hs Hc Hwf Hn Hco. pose proof (upholds_call svc N ctx c Hd Hs m Hwf (f, m) eq_refl Hn) as Hg.
  destruct (run_call svc ctx c (f, m)) as [[a|e] [f' m']] eqn:E; simpl in *.
  - destruct (writes_caches c) eqn:Hwc.
    + destruct c; try discriminate; simpl in E.
      * destruct (DeleteSchema_effect _ _ _ _ _ _ E) as [sid Hf]. simpl in Hf. subst f'.
        apply coherent_drop_schema. apply (coherent_grow f m m'); [done..|]. apply bindings_same.
        pose proof (call_keeps_tenants ctx (CallDeleteSchema id) eq_refl (f, m)) as Hk. simpl in Hk. by rewrite E in Hk.
      * apply bind_Ok in E as (r & w & E & E'). apply ret_Ok in E' as [_ ->].
        destruct (UpdateTenant_effect _ _ _ _ _ _ E) as (id & Hb & Hf). simpl in *. subst f'.
        destruct (tu_SchemaVersion req).
        -- apply (coherent_rebind id f m m'); [done..|]. intros t tn Ht. apply Hb. by right.
        -- apply (coherent_grow f m m'); [done..|]. intros t tn _. apply Hb. by left.
    + pose proof (keeps_run fst _ _ _ _ (call_keeps_caches ctx c Hwc) E) as Hf. simpl in Hf. subst f'.
      apply (coherent_grow f m m'); [done..|]. destruct (writes_tenants c) eqn:Hwt.
      * destruct c; try discriminate. simpl in E. apply bind_Ok in E as (r & w & E & E'). apply ret_Ok in E' as [_ ->].
        eapply (CreateTenant_bindings _ _ _ _ _ _ (f, m')); [done| |exact E]. intros i j ? ?. simpl in *. apply Hd; lia.
      * apply bindings_same. exact (keeps_run tenants_of _ _ _ _ (call_keeps_tenants ctx c Hwt) E).
  - destruct (is_import c) eqn:Hi.
    + destruct c; try discriminate. 
      pose proof (keeps_run fst _ _ _ _ (call_keeps_caches ctx (CallImportSchema req) eq_refl) E) as Hf. simpl in Hf. subst f'.
      apply (coherent_grow f m m'); [done..|]. apply bindings_same.
      exact (keeps_run tenants_of _ _ _ _ (call_keeps_tenants ctx (CallImportSchema req) eq_refl) E).
    + by apply (atomic_call svc ctx c Hi) in E as [= -> ->].
Qed.

(** ** Calls of both services, in any order *)
Inductive step :=
  | SchemaCall (ctx : Auth.Ctx) (c : schema_call)
  | AskValidators (t : string)
  | AskDependentRequired (t : string)
  | AskValidations (t : string)
  | AskPrograms (t : string).

(** The factory works on the store as it is. *)
Definition run_step w (st : step) : W :=
  let f := with_store w.1 w.2 in
  match st with
  | SchemaCall ctx c => (run_call svc ctx c w).2
  | AskValidators t => ((GetValidators t f).2, w.2)
  | AskDependentRequired t => ((GetDependentRequired t f).2, w.2)
  | AskValidations t => ((GetValidations t f).2, w.2)
  | AskPrograms t => ((GetCelArtifacts t f).2, w.2)
  end.
Definition run_steps (steps : list step) w : W := foldl run_step w steps.

Definition keeps_tenants (st : step) : bool := match st with SchemaCall _ c => negb (deletes_tenant c) | _ => true end.

Lemma mono_step st w : (draws w.2 ≤ draws (run_step w st).2)%nat.
Proof. destruct st as [ctx c|t|t|t|t]; simpl; [apply (mono_call svc ctx c w)|done..]. Qed.
Lemma mono_steps steps w : (draws w.2 ≤ draws (run_steps steps w).2)%nat.
Proof. revert w. induction steps as [|st steps IH]; intros w; [done|]. etrans; [apply (mono_step st)|apply IH]. Qed.

(** Asking leaves the factory's store alone. *)
Lemma coherent_ask {A} (ask : F → result error A * F) f m :
  (∀ g r g', factory_inv g → ask g = (r, g') → factory_inv g' ∧ f_store g' = f_store g) →
  coherent (f, m) → coherent ((ask (with_store f m)).2, m).
Proof.
  intros Ha Hc. destruct (ask (with_store f m)) as [r g'] eqn:E. destruct (Ha _ _ _ Hc E) as [Hg Hs]. simpl in *.
  unfold coherent. simpl. replace (with_store g' m) with g'; [done|]. destruct g'. simpl in Hs. by subst.
Qed.

Lemma steps_coherent N steps w :
  distinct_draws N → Z.of_nat N ≤ max_int32 → Forall (λ st, keeps_tenants st = true) steps →
  wf_store w.2 → (draws (run_steps steps w).2 ≤ N)%nat → coherent w → coherent (run_steps steps w).
Proof.
  intros Hd Hs Hk. revert w. induction Hk as [|st steps Hst Hk IH]; intros w Hwf Hn Hc; [done|]. simpl in *.
  pose proof (mono_steps steps (run_step w st)) as Hm. destruct w as [f m]. simpl in *.
  assert (wf_store (run_step (f, m) st).2 ∧ coherent (run_step (f, m) st)) as [Hwf' Hc']; [|by apply IH].
  destruct st as [ctx c|t|t|t|t]; simpl in *.
  - split; [|by apply (call_coherent N); [..|by apply negb_true_iff| |lia|]].
    pose proof (upholds_call svc N ctx c Hd Hs m Hwf (f, m) eq_refl ltac:(unfold used; lia)) as Hg.
    by destruct (run_call svc ctx c (f, m)) as [[?|?] [? ?]]; destruct Hg.
  - split; [done|]. apply (coherent_ask (factory_GetValidators t) f m); [|done]. intros g r g' Hg E. by apply GetValidators_ok in E as (_ & ? & ? & _).
  - split; [done|]. apply (coherent_ask (factory_GetDependentRequired t) f m); [|done]. intros g r g' Hg E. by apply GetDependentRequired_ok in E as (_ & ? & ? & _).
  - split; [done|]. apply (coherent_ask (factory_GetValidations t) f m); [|done]. intros g r g' Hg E. by apply GetValidations_ok in E as (_ & ? & ? & _).
  - split; [done|]. apply (coherent_ask (factory_GetCelArtifacts t) f m); [|done]. intros g r g' Hg E. by apply GetCelArtifacts_ok in E as (_ & ? & ? & _).
Qed.

(** C24: The validator factory never answers from a schema a tenant is no longer
    bound to. Start the schema service and the factory on an empty store, and let
    schema calls, failed ones included, and lookups of the config service follow
    each other in any order (no tenant is deleted: a deleted one keeps its
    entries, and is not looked up any more). Then for every tenant the
    validators, the dependentRequired rules, the validation rules and the
    compiled programs the factory answers are those of the version the store
    now binds the tenant to. *)
Theorem factory_follows_schema_service opts steps :
  let w := run_steps steps (NewValidatorFactory NewMemoryStore opts, NewMemoryStore) in
  let f := with_store w.1 w.2 in
  Forall (λ st, keeps_tenants st = true) steps → distinct_draws (draws w.2) → Z.of_nat (draws w.2) ≤ max_int32 →
  ∀ t, (GetValidators t f).1 = load_validators (f_limits f) t w.2
    ∧ (GetDependentRequired t f).1 = load_dependentRequired w.2 t
    ∧ (GetValidations t f).1 = load_validations w.2 t
    ∧ (GetCelArtifacts t f).1 = load_programs w.2 t.
Proof.
  intros w f Hk Hd Hs t.
  assert (coherent w) as Hc by (by apply (steps_coherent (draws w.2)); [..|apply wf_store_new| |apply factory_inv_New]).
  destruct (GetValidators t f) as [r1 f1] eqn:E1, (GetDependentRequired t f) as [r2 f2] eqn:E2,
    (GetValidations t f) as [r3 f3] eqn:E3, (GetCelArtifacts t f) as [r4 f4] eqn:E4.
  apply GetValidators_ok in E1 as [-> _]; [|done]. apply GetDependentRequired_ok in E2 as [-> _]; [|done].
  apply GetValidations_ok in E3 as [-> _]; [|done]. by apply GetCelArtifacts_ok in E4 as [-> _].
Qed.
End deployment.
