(* ===== verification/SchemaScenario.v ===== *)
(** * A concrete run of the schema service

    One schema with two published versions and a tenant that moves from the
    first to the second: the inputs of the witnesses of the schema service's
    theorems, and runs that show where the code departs from its documentation. *)
From S2P Require Import Prelude GoText GoFloat GoTime Json Pagination Domain ConfigStore MemStore Convert Auth Validation CrossField ValidatorFactory ValidatorFactoryFacts Scenario.
From S2P Require Import SchemaTypes SchemaYaml SchemaYamlFacts CelLint CelLintSpec CelLintFacts SchemaStore SchemaService SchemaFacts SchemaRuns SchemaTheorems SchemaTenants SchemaFactory.
From Stdlib Require Import Ascii.
Import SchemaMem.
Local Open Scope Z_scope.

(** A library that writes documents without bounds on numbers: a document as a
    tree, the tree's number in stdpp's enumeration, in binary. *)
Module PlainSchemaYaml.
Abbreviation tree := (gen_tree (string + Z)).

Definition str (s : string) : tree := GenLeaf (inl s).
Definition int (z : Z) : tree := GenLeaf (inr z).
Definition bool_ (b : bool) : tree := int (if b then 1 else 0).
Definition node (l : list tree) : tree := GenNode 0 l.
Definition list_ {A} (f : A → tree) (l : list A) : tree := node (f <$> l).
Definition opt {A} (f : A → tree) (o : option A) : tree := list_ f (option_list o).
Definition map_ {A} (f : A → tree) (m : gmap string A) : tree := list_ (λ p, node [str p.1; f p.2]) (map_to_list m).

Definition to_str (t : tree) : string := match t with GenLeaf (inl s) => s | _ => "" end.
Definition to_int (t : tree) : Z := match t with GenLeaf (inr z) => z | _ => 0 end.
Definition to_bool (t : tree) : bool := bool_decide (to_int t = 1).
Definition to_list {A} (g : tree → A) (t : tree) : list A := match t with GenNode _ l => g <$> l | GenLeaf _ => [] end.
Definition to_opt {A} (g : tree → A) (t : tree) : option A := head (to_list g t).
Definition at_ (t : tree) (i : nat) : tree := match t with GenNode _ l => nth i l (node []) | GenLeaf _ => node [] end.
Definition to_map {A} (g : tree → A) (t : tree) : gmap string A :=
  list_to_map (to_list (λ t, (to_str (at_ t 0), g (at_ t 1))) t).

Lemma to_list_list {A} (f : A → tree) g l : Forall (λ x, g (f x) = x) l → to_list g (list_ f l) = l.
Proof. induction 1 as [|x l Hx _ IH]; [done|]. change (g (f x) :: to_list g (list_ f l) = x :: l). by rewrite Hx, IH. Qed.
Lemma to_list_str l : to_list to_str (list_ str l) = l.
Proof. by apply to_list_list, Forall_true. Qed.
Lemma to_opt_opt {A} (f : A → tree) g o : (∀ x, o = Some x → g (f x) = x) → to_opt g (opt f o) = o.
Proof. intros Ho. unfold to_opt, opt. rewrite to_list_list; [by destruct o|]. destruct o; repeat constructor. by apply Ho. Qed.
Lemma to_opt_int o : to_opt to_int (opt int o) = o.
Proof. by apply to_opt_opt. Qed.
Lemma to_map_map {A} (f : A → tree) g (m : gmap string A) : map_Forall (λ _ x, g (f x) = x) m → to_map g (map_ f m) = m.
Proof.
  intros Hm. unfold to_map, map_. rewrite to_list_list; [apply list_to_map_to_list|]. apply Forall_forall.
  intros [k x] Hk%elem_of_map_to_list. simpl. by rewrite (Hm k x Hk).
Qed.
Lemma to_bool_bool b : to_bool (bool_ b) = b.
Proof. by destruct b. Qed.

Definition constraints (c : ConstraintsYAML) : tree :=
  node [opt int (yc_MinLength c); opt int (yc_MaxLength c); str (yc_Pattern c); list_ str (yc_Enum c);
        str (yc_JSONSchema c); list_ str (yc_AllowedSchemes c)].
Definition to_constraints (t : tree) : ConstraintsYAML :=
  {| yc_Minimum := None; yc_Maximum := None; yc_ExclusiveMinimum := None; yc_ExclusiveMaximum := None;
     yc_MinLength := to_opt to_int (at_ t 0); yc_MaxLength := to_opt to_int (at_ t 1); yc_Pattern := to_str (at_ t 2);
     yc_Enum := to_list to_str (at_ t 3); yc_JSONSchema := to_str (at_ t 4);
     yc_AllowedSchemes := to_list to_str (at_ t 5); yc_Extensions := ∅ |}.
Definition example (e : ExampleYAML) : tree := node [str (ye_Value e); str (ye_Summary e)].
Definition to_example (t : tree) : ExampleYAML :=
  {| ye_Value := to_str (at_ t 0); ye_Summary := to_str (at_ t 1); ye_Extensions := ∅ |}.
Definition docs (d : ExternalDocsYAML) : tree := node [str (yd_Description d); str (yd_URL d)].
Definition to_docs (t : tree) : ExternalDocsYAML :=
  {| yd_Description := to_str (at_ t 0); yd_URL := to_str (at_ t 1); yd_Extensions := ∅ |}.
Definition field (f : SchemaFieldYAML) : tree :=
  node [str (yf_Type f); str (yf_Description f); str (yf_Default f); bool_ (yf_Nullable f); bool_ (yf_Deprecated f);
        str (yf_RedirectTo f); opt constraints (yf_Constraints f); str (yf_Title f); str (yf_Example f);
        map_ example (yf_Examples f); opt docs (yf_ExternalDocs f); list_ str (yf_Tags f); str (yf_Format f);
        bool_ (yf_ReadOnly f); bool_ (yf_WriteOnce f); bool_ (yf_Sensitive f)].
Definition to_field (t : tree) : SchemaFieldYAML :=
  {| yf_Type := to_str (at_ t 0); yf_Description := to_str (at_ t 1); yf_Default := to_str (at_ t 2);
     yf_Nullable := to_bool (at_ t 3); yf_Deprecated := to_bool (at_ t 4); yf_RedirectTo := to_str (at_ t 5);
     yf_Constraints := to_opt to_constraints (at_ t 6); yf_Title := to_str (at_ t 7); yf_Example := to_str (at_ t 8);
     yf_Examples := to_map to_example (at_ t 9); yf_ExternalDocs := to_opt to_docs (at_ t 10);
     yf_Tags := to_list to_str (at_ t 11); yf_Format := to_str (at_ t 12); yf_ReadOnly := to_bool (at_ t 13);
     yf_WriteOnce := to_bool (at_ t 14); yf_Sensitive := to_bool (at_ t 15); yf_Extensions := ∅ |}.
Definition contact (k : SchemaContactYAML) : tree := node [str (yk_Name k); str (yk_Email k); str (yk_URL k)].
Definition to_contact (t : tree) : SchemaContactYAML :=
  {| yk_Name := to_str (at_ t 0); yk_Email := to_str (at_ t 1); yk_URL := to_str (at_ t 2); yk_Extensions := ∅ |}.
Definition info (i : SchemaInfoYAML) : tree :=
  node [str (yi_Title i); str (yi_Author i); opt contact (yi_Contact i); map_ str (yi_Labels i)].
Definition to_info (t : tree) : SchemaInfoYAML :=
  {| yi_Title := to_str (at_ t 0); yi_Author := to_str (at_ t 1); yi_Contact := to_opt to_contact (at_ t 2);
     yi_Labels := to_map to_str (at_ t 3); yi_Extensions := ∅ |}.
Definition rule (v : ValidationYAML) : tree :=
  node [str (yv_Path v); str (yv_Rule v); str (yv_Message v); str (yv_Severity v); str (yv_Reason v)].
Definition to_rule (t : tree) : ValidationYAML :=
  {| yv_Path := to_str (at_ t 0); yv_Rule := to_str (at_ t 1); yv_Message := to_str (at_ t 2);
     yv_Severity := to_str (at_ t 3); yv_Reason := to_str (at_ t 4); yv_Extensions := ∅ |}.
Definition document (d : SchemaYAML) : tree :=
  node [str (ys_SpecVersion d); str (ys_Schema d); str (ys_ID d); str (ys_Name d); str (ys_Description d);
        int (ys_Version d); str (ys_VersionDescription d); opt info (ys_Info d); map_ field (ys_Fields d);
        map_ (list_ str) (ys_DependentRequired d); list_ rule (ys_Validations d)].
Definition to_document (t : tree) : SchemaYAML :=
  {| ys_SpecVersion := to_str (at_ t 0); ys_Schema := to_str (at_ t 1); ys_ID := to_str (at_ t 2);
     ys_Name := to_str (at_ t 3); ys_Description := to_str (at_ t 4); ys_Version := to_int (at_ t 5);
     ys_VersionDescription := to_str (at_ t 6); ys_Info := to_opt to_info (at_ t 7);
     ys_Fields := to_map to_field (at_ t 8); ys_DependentRequired := to_map (to_list to_str) (at_ t 9);
     ys_Validations := to_list to_rule (at_ t 10); ys_Extensions := ∅ |}.

Definition no_bounds (f : SchemaFieldYAML) : bool :=
  match yf_Constraints f with
  | Some c => match bounds_of c with [None; None; None; None] => true | _ => false end
  | None => true
  end.
Definition write (d : SchemaYAML) : result error string :=
  if forallb (λ p, no_bounds p.2) (map_to_list (ys_Fields d)) then Ok (PlainYaml.bits (encode (document d)))
  else Err (Errorf "cannot write" []).
Definition read (data : string) : result error SchemaYAML :=
  match decode (PlainYaml.unbits data) : option tree with
  | Some t => Ok (to_document t)
  | None => Err (Errorf "cannot read" [])
  end.
#[export] Instance lib : SchemaYamlLib := {|
  sy_Header data := match read data with Ok doc => Ok (ys_SpecVersion doc) | Err e => Err e end;
  sy_Unmarshal := read;
  sy_Marshal := write
|}.

Lemma to_constraints_id c :
  yc_Extensions c = ∅ → bounds_of c = [None; None; None; None] → to_constraints (constraints c) = c.
Proof.
  destruct c. intros E [= -> -> -> ->]. simpl in E. subst. unfold to_constraints, constraints. cbn -[opt list_].
  by rewrite !to_opt_int, !to_list_str.
Qed.
Lemma to_field_id f : plain_field f → no_bounds f = true → to_field (field f) = f.
Proof.
  intros [He Hc Hd Hx] Hb. unfold no_bounds in Hb. destruct f as [? ? ? ? ? ? con ? ? ex ed ? ? ? ? ? ext].
  unfold to_field, field. cbn -[opt list_ map_ bounds_of] in *. subst.
  rewrite !to_bool_bool, to_list_str, !to_opt_opt, to_map_map; [done|..].
  - intros k [? ? x] Hl. pose proof (Hx _ _ Hl : x = ∅). by subst.
  - intros [? ? x] E. pose proof (Hd _ E : x = ∅). by subst.
  - intros c ->. destruct (Hc c eq_refl) as [E _]. apply to_constraints_id; [done|]. by destruct c as [[] [] [] []].
Qed.
Lemma to_document_id d :
  plain_doc d → forallb (λ p, no_bounds p.2) (map_to_list (ys_Fields d)) = true → to_document (document d) = d.
Proof.
  intros [He Hi Hf Hr] Hb. rewrite forallb_forall in Hb. destruct d as [? ? ? ? ? ? ? i fs dr vs ext].
  unfold to_document, document. cbn -[opt list_ map_] in *. subst.
  rewrite to_opt_opt, !to_map_map, to_list_list; [done|..].
  - eapply Forall_impl; [exact Hr|]. intros [? ? ? ? ? x] E. simpl in E. by subst.
  - intros k l _. apply to_list_str.
  - intros p f Hl. apply to_field_id; [by apply (Hf p)|]. apply (Hb (p, f)), list_elem_of_In. by apply elem_of_map_to_list.
  - intros [t a k l x] Ei. destruct (Hi _ Ei) as [E Hk]. simpl in E, Hk. subst x.
    unfold to_info, info. cbn -[opt map_]. rewrite to_map_map, to_opt_opt; [done| |done].
    intros [? ? ? y] Ek. pose proof (Hk _ Ek : y = ∅). by subst.
Qed.
#[export] Instance lib_ok : SchemaYamlOk.
Proof.
  intros doc data E Hp. cbn [sy_Marshal lib] in E. unfold write in E.
  destruct (forallb _ _) eqn:Hb; [|done]. injection E as <-. cbn [sy_Header sy_Unmarshal lib]. unfold read.
  rewrite PlainYaml.unbits_bits, decode_encode, to_document_id by done. done.
Qed.
End PlainSchemaYaml.

Module SchemaScenario.
Import Scenario CelLint.CelLint.

#[export] Instance sc_sort : SortSlice := stable_sort.
#[export] Instance sc_sort_ok : @SortSliceOk sc_sort := stable_sort_ok.

Definition typed (path : string) (ft : pbFieldType) (def : option string) : pbSchemaField :=
  {| f_Path := path; f_Type := ft; f_Constraints := None; f_Nullable := false; f_Deprecated := false; f_RedirectTo := None;
     f_DefaultValue := def; f_Description := None; f_Title := None; f_Example := None; f_Examples := ∅; f_ExternalDocs := None;
     f_Tags := []; f_Format := None; f_ReadOnly := false; f_WriteOnce := false; f_Sensitive := false |}.
#[export] Instance sc_schema_yaml : SchemaYamlLib := PlainSchemaYaml.lib.
#[export] Instance sc_schema_yaml_ok : SchemaYamlOk := PlainSchemaYaml.lib_ok.
#[export] Instance sc_url_ok : UrlRestOk.
Proof.
  intros scheme host path Hh _. unfold url_host, sc_url.
  change (Some (match cut_char "/"%char (host +:+ String "/" path) with
                | Some (h, _) => h | None => host +:+ String "/" path end) = Some host).
  rewrite cut_char_app; [done|]. unfold no_char. apply (all_bytes_impl plain_host); [|done].
  intros c Hc. case_bool_decide as E; [|done]. by rewrite E in Hc.
Qed.
(** The text of a schema with these fields. *)
Definition doc (fields : list pbSchemaField) : pbSchema :=
  {| ps_Id := ""; ps_Name := "paths"; ps_Description := ""; ps_Version := 1; ps_ParentVersion := None; ps_VersionDescription := "";
     ps_Checksum := ""; ps_Published := false; ps_Fields := fields; ps_CreatedAt := None;
     ps_DependentRequired := []; ps_Validations := []; ps_Info := None |}.
Definition text (s : pbSchema) : string := match MarshalSchemaAt s "" with Ok data => data | Err _ => "" end.
(** A compiler that knows three rules. *)
Definition self (path : string) : Expr := Select (Ident "self") path false.
Definition compile_rule (rule : string) : result error Expr :=
  if bool_decide (rule = "self.low < self.high") then Ok (Call "_<_" None [self "low"; self "high"])
  else if bool_decide (rule = "self.low < self.name") then Ok (Call "_<_" None [self "low"; self "name"])
  else if bool_decide (rule = "5 <= self.low && self.low < 10")
  then Ok (Call "_&&_" None [Call "_<=_" None [Literal (VInt 5); self "low"]; Call "_<_" None [self "low"; Literal (VInt 10)]])
  else Err (Errorf "syntax error" []).
#[export] Instance sc_parser : CelParser := Ok compile_rule.

Definition root : Auth.Ctx :=
  Auth.mkCtx (Some {| Auth.Subject := "root"; Auth.role := Auth.RoleSuperAdmin; Auth.TenantIDs := [] |}) false None.
Definition guest : Auth.Ctx :=
  Auth.mkCtx (Some {| Auth.Subject := "guest"; Auth.role := Auth.RoleUser; Auth.TenantIDs := [tid] |}) false None.
Definition svc : Service := NewService None None.
Definition uuid (n : nat) : string := uuid_v4 (random n).

Definition create : schema_call := CallCreateSchema {| cr_Name := "app"; cr_Description := "";
  cr_Fields := [typed "port" FIELD_TYPE_INT (Some "8080"); typed "name" FIELD_TYPE_STRING None] |}.
Definition publish (v : Z) : schema_call := CallPublishSchema {| pu_Id := "app"; pu_Version := v |}.
Definition tenant_of (v : Z) : CreateTenantRequest := {| tc_Name := "acme"; tc_SchemaId := uuid 0; tc_SchemaVersion := v |}.
Definition add_host : schema_call := CallUpdateSchema {| us_Id := "app"; us_Fields := [typed "host" FIELD_TYPE_STRING (Some "localhost")];
  us_RemoveFields := ["name"]; us_VersionDescription := "hosts" |}.
Definition rebind (v : Z) : schema_call :=
  CallUpdateTenant {| tu_Id := "acme"; tu_Name := None; tu_SchemaVersion := Some v |}.

Definition first_calls : list (Auth.Ctx * schema_call) :=
  (root,.) <$> [create; CallCreateTenant (tenant_of 1); publish 1; CallCreateTenant (tenant_of 1)].
Definition later_calls : list (Auth.Ctx * schema_call) :=
  [(root, add_host); (root, rebind 2); (root, publish 2); (guest, rebind 2); (root, rebind 2)].
Abbreviation start := (tt, NewMemoryStore).
Definition m1 : MemoryStore := (run_calls svc first_calls start).2.
Definition m2 : MemoryStore := (run_calls svc (first_calls ++ later_calls) start).2.

(** A schema with a rule between its fields. *)
Definition portable : pbSchema :=
  {| ps_Id := "id"; ps_Name := "app"; ps_Description := "the app"; ps_Version := 3; ps_ParentVersion := Some 2;
     ps_VersionDescription := "ports"; ps_Checksum := ""; ps_Published := true;
     ps_Fields := [typed "port" FIELD_TYPE_INT (Some "8080"); typed "host" FIELD_TYPE_STRING None]; ps_CreatedAt := None;
     ps_DependentRequired := [DependentRequired.Build_DependentRequiredEntry "port" ["host"]];
     ps_Validations := []; ps_Info := None |}.
(** The first ids differ. *)
Definition draws_differ (n : nat) : bool :=
  forallb (λ i, forallb (λ j, implb (String.eqb (uuid i) (uuid j)) (Nat.eqb i j)) (seq 0 n)) (seq 0 n).
Lemma distinct_draws_check n : draws_differ n = true → distinct_draws n.
Proof.
  intros Hc i j Hi Hj E. unfold draws_differ in Hc. rewrite forallb_forall in Hc. specialize (Hc i).
  rewrite forallb_forall in Hc. specialize (Hc ltac:(apply in_seq; lia) j ltac:(apply in_seq; lia)).
  unfold uuid in Hc. rewrite E, String.eqb_refl in Hc. by apply Nat.eqb_eq.
Qed.
Lemma distinct_le n k : (n ≤ k)%nat → distinct_draws k → distinct_draws n.
Proof. intros Hn Hk i j ? ?. apply Hk; lia. Qed.
Lemma ten_distinct : distinct_draws 10.
Proof. apply distinct_draws_check. vm_compute. reflexivity. Qed.

Example run_shape :
  (draws m1, draws m2, size (schemaVersions m2), tn_SchemaVersion <$> (tenants m2 !! uuid 4)) = (6%nat, 9%nat, 2%nat, Some 2).
Proof. vm_compute. reflexivity. Qed.

(** ** Witnesses *)
Lemma drawn n (m : MemoryStore) : draws m = n → (n ≤ 10)%nat → distinct_draws (draws m) ∧ Z.of_nat (draws m) ≤ max_int32.
Proof. intros -> Hn. split; [by apply (distinct_le n 10), ten_distinct|unfold max_int32; lia]. Qed.
Lemma draws_m1 : draws m1 = 6%nat.
Proof. vm_compute. reflexivity. Qed.
Lemma draws_m2 : draws m2 = 9%nat.
Proof. vm_compute. reflexivity. Qed.

(** Version 2 of the run: its parent is version 1, which is there once. *)
Lemma schema_versions_numbered_witness :
  ∃ sv, schemaVersions m2 !! uuid 6 = Some sv ∧ sv_ParentVersion sv = Some 1
  ∧ ∃ id', ∀ id2, id2 = id' ↔ ∃ sv2, schemaVersions m2 !! id2 = Some sv2 ∧ is_version (sv_SchemaID sv) 1 sv2.
Proof.
  destruct (drawn 9 m2 draws_m2 ltac:(lia)) as [Hd Hs]. destruct (schemaVersions m2 !! uuid 6) as [sv|] eqn:E.
  2:{ vm_compute in E. discriminate E. }
  assert (sv_Version <$> (schemaVersions m2 !! uuid 6) = Some 2) as Ev by (vm_compute; reflexivity).
  rewrite E in Ev. injection Ev as Ev.
  destruct (schema_versions_numbered (V:=unit) svc (first_calls ++ later_calls) tt Hd Hs (uuid 6) sv E) as (_ & _ & _ & Hp & Hn).
  exists sv. split; [reflexivity|]. rewrite Ev in Hp, Hn. split; [exact Hp|]. apply Hn. lia.
Defined.

Lemma tenants_bound_to_published_witness :
  ∃ t sv, tenants m2 !! uuid 4 = Some t ∧ tn_SchemaVersion t = 2
  ∧ GetSchemaVersion (tn_SchemaID t) (tn_SchemaVersion t) m2 = Ok sv ∧ sv_Published sv = true.
Proof.
  destruct (drawn 9 m2 draws_m2 ltac:(lia)) as [Hd Hs]. destruct (tenants m2 !! uuid 4) as [t|] eqn:E.
  2:{ vm_compute in E. discriminate E. }
  assert (tn_SchemaVersion <$> (tenants m2 !! uuid 4) = Some 2) as Ev by (vm_compute; reflexivity).
  rewrite E in Ev. injection Ev as Ev.
  destruct (tenants_bound_to_published (V:=unit) svc (first_calls ++ later_calls) tt Hd Hs (uuid 4) t E) as (_ & sv & _ & _ & Hp & Hg).
  exists t, sv. split; [reflexivity|]. split; [exact Ev|]. split; [exact Hg|exact Hp].
Defined.

(** Version 1 is as it was after the later calls. *)
Lemma versions_immutable_witness :
  ∃ sv sv', schemaVersions m1 !! uuid 1 = Some sv ∧ schemaVersions m2 !! uuid 1 = Some sv'
  ∧ (sv' = sv ∨ sv' = SchemaMem.publish sv) ∧ fields_of m2 (uuid 1) = fields_of m1 (uuid 1).
Proof.
  destruct (drawn 9 m2 draws_m2 ltac:(lia)) as [Hd Hs]. destruct (schemaVersions m1 !! uuid 1) as [sv|] eqn:E.
  2:{ vm_compute in E. discriminate E. }
  destruct (versions_immutable (V:=unit) svc first_calls later_calls tt Hd Hs) as [Hv _].
  destruct (Hv (uuid 1) sv E) as (sv' & E' & Hsame & Hf). exists sv, sv'. split; [reflexivity|]. split; [exact E'|].
  split; [exact Hsame|exact Hf].
Defined.

(** The second call of the run is too early. *)
Lemma failed_schema_call_changes_nothing_witness :
  let w := run_calls svc [(root, create)] start in
  ∃ e, run_call svc root (CallCreateTenant (tenant_of 1)) w = (Err e, w) ∧ e = unpublished.
Proof.
  intros w. destruct (run_call svc root (CallCreateTenant (tenant_of 1)) w) as [[a|e] w'] eqn:E.
  - exfalso. apply (f_equal fst) in E. vm_compute in E. discriminate E.
  - exists e. rewrite (failed_schema_call_changes_nothing (V:=unit) svc root (CallCreateTenant (tenant_of 1)) w e w' eq_refl E). split; [reflexivity|].
    apply (f_equal fst) in E. vm_compute in E. injection E as <-. reflexivity.
Defined.

Definition ready : unit * MemoryStore := run_calls svc [(root, create); (root, publish 1)] start.
Lemma ready_wf : wf_store ready.2.
Proof.
  assert (draws ready.2 = 4%nat) as Hd by (vm_compute; reflexivity).
  apply (runs_good (V:=unit) svc 10 ten_distinct ltac:(unfold max_int32; lia) [(root, create); (root, publish 1)] start wf_store_new).
  change (draws ready.2 ≤ 10)%nat. rewrite Hd. lia.
Qed.

(** The new tenant's first config has the port. *)
Lemma create_tenant_seeds_defaults_witness :
  ∃ reply w' rows row, SchemaService.CreateTenant svc root (tenant_of 1) ready = (Ok reply, w')
  ∧ first_config ready.2 w'.2 (pt_Id reply) rows ∧ row ∈ rows ∧ val_FieldPath row = "port".
Proof.
  destruct ready as [[] m] eqn:Er. pose proof ready_wf as Hwf. rewrite Er in Hwf.
  destruct (SchemaService.CreateTenant svc root (tenant_of 1) ((), m)) as [[reply|e] w'] eqn:E.
  2:{ exfalso. rewrite <-Er in E. apply (f_equal fst) in E. vm_compute in E. discriminate E. }
  assert (distinct_draws (draws w'.2)) as Hd.
  { apply (distinct_le _ 10); [|exact ten_distinct]. rewrite <-Er in E. apply (f_equal (λ p, draws p.2.2)) in E. simpl in E. rewrite <-E.
    vm_compute. lia. }
  destruct (create_tenant_seeds_defaults (V:=unit) svc root (tenant_of 1) tt m reply w' Hwf E Hd)
    as (sv & t & rows & Hsv & _ & Hreply & _ & _ & _ & Hfirst & Hrows).
  assert ("port" ∈ val_FieldPath <$> rows) as Hp.
  { assert (sv_ID <$> match GetSchemaVersion (uuid 0) 1 ready.2 with Ok v => Some v | Err _ => None end = Some (uuid 1)) as Hid
      by (vm_compute; reflexivity).
    rewrite Er in Hid. cbn [snd] in Hid. unfold tenant_of in Hsv. cbn [tc_SchemaId tc_SchemaVersion] in Hsv. rewrite Hsv in Hid. injection Hid as Hid.
    assert (Exists (λ f, sf_Path f = "port" ∧ is_Some (sf_DefaultValue f)) (fields_of ready.2 (uuid 1))) as Hf.
    { vm_compute. left. split; [reflexivity|eexists; reflexivity]. }
    rewrite Er in Hf. apply Exists_exists in Hf as (f & Hin & Hpath & Hdef). rewrite <-Hpath.
    apply (dr_all _ _ Hrows); [rewrite Hid; exact Hin|exact Hdef]. }
  apply list_elem_of_fmap in Hp as (row & Hpath & Hin). exists reply, w', rows, row.
  split; [reflexivity|]. split; [rewrite Hreply; exact Hfirst|]. split; [exact Hin|]. symmetry. exact Hpath.
Defined.

(** To a guest, the tenant of the run and no tenant are the same. *)
Lemma tenant_existence_hidden_witness :
  ∃ e, run_call svc guest (CallGetTenant "acme") (tt, m1) = (Err e, (tt, m1))
     ∧ run_call svc guest (CallGetTenant "acme") (tt, NewMemoryStore) = (Err e, (tt, NewMemoryStore))
     ∧ match (SchemaService.ListTenants guest {| tl_SchemaId := None; tl_PageSize := 0; tl_PageToken := "" |} (tt, m1)).1 with
       | Ok r => Forall (λ pt, Auth.HasTenantAccess {| Auth.Subject := "guest"; Auth.role := Auth.RoleUser; Auth.TenantIDs := [tid] |} (pt_Id pt) = true)
                   (tlr_Tenants r)
       | Err _ => False
       end.
Proof.
  destruct (drawn 6 m1 draws_m1 ltac:(lia)) as [Hd Hs].
  assert (wf_store m1) as Hwf by exact (proj1 (runs_good (V:=unit) svc (draws m1) Hd Hs first_calls start wf_store_new (le_n _))).
  destruct (tenant_existence_hidden (V:=unit) None guest {| Auth.Subject := "guest"; Auth.role := Auth.RoleUser; Auth.TenantIDs := [tid] |} tt m1 eq_refl Hwf)
    as [Hh Hl].
  destruct (SchemaService.ListTenants guest {| tl_SchemaId := None; tl_PageSize := 0; tl_PageToken := "" |} (tt, m1)) as [[r|e] w'] eqn:El.
  2:{ apply (f_equal fst) in El. vm_compute in El. discriminate El. }
  assert (Auth.TenantIDs {| Auth.Subject := "guest"; Auth.role := Auth.RoleUser; Auth.TenantIDs := [tid] |} ≠ []) as Hids by discriminate.
  pose proof (Hl {| tl_SchemaId := None; tl_PageSize := 0; tl_PageToken := "" |} r w' (or_intror Hids) El) as Hpage.
  destruct (find_tenant "acme" m1) as [t|e] eqn:Ef; [|vm_compute in Ef; discriminate Ef].
  assert (Auth.HasTenantAccess {| Auth.Subject := "guest"; Auth.role := Auth.RoleUser; Auth.TenantIDs := [tid] |} (tn_ID t) = false) as Ha.
  { assert (match find_tenant "acme" m1 with Ok t => tn_ID t | Err _ => "" end = uuid 4) as Hid by (vm_compute; reflexivity).
    rewrite Ef in Hid. rewrite Hid. vm_compute. reflexivity. }
  destruct (Hh (CallGetTenant "acme") "acme" NewMemoryStore t eq_refl Ef Ha eq_refl) as (e & E1 & E2).
  exists e. split; [exact E1|]. split; [exact E2|]. simpl. eapply Forall_impl; [exact Hpage|]. intros pt [Hacc _]. exact Hacc.
Defined.

(** The factory answers version 1 before the tenant moves and version 2 after. *)
Definition moves : list step :=
  (SchemaCall root <$> [create; publish 1; CallCreateTenant (tenant_of 1)]) ++ [AskValidators (uuid 4)]
  ++ (SchemaCall root <$> [add_host; publish 2; rebind 2]).
Lemma factory_follows_schema_service_witness :
  let w := run_steps svc moves (NewValidatorFactory NewMemoryStore [], NewMemoryStore) in
  let f := with_store w.1 w.2 in
  (GetValidators (uuid 4) f).1 = load_validators (f_limits f) (uuid 4) w.2
  ∧ match (GetValidators (uuid 4) f).1 with Ok vs => ("host" ∈ dom vs) | Err _ => False end.
Proof.
  intros w f. assert (draws w.2 = 9%nat) as Hn by (vm_compute; reflexivity).
  destruct (drawn 9 w.2 Hn ltac:(lia)) as [Hd Hs].
  destruct (factory_follows_schema_service svc [] moves ltac:(repeat constructor) Hd Hs (uuid 4)) as (Hv & _).
  split; [exact Hv|]. fold w in Hv. fold f in Hv. rewrite Hv.
  assert (match load_validators (f_limits f) (uuid 4) w.2 with Ok vs => bool_decide (is_Some (vs !! "host")) | Err _ => false end = true) as Hh
    by (vm_compute; reflexivity).
  destruct (load_validators _ _ _) as [vs|]; [|discriminate Hh]. apply bool_decide_eq_true in Hh. by apply elem_of_dom.
Defined.

Lemma portable_exportable : exportable portable.
Proof.
  split; [reflexivity|discriminate|by apply (bool_decide_unpack _)| | |by apply (bool_decide_unpack _)|reflexivity|constructor].
  - intros f Hf. simpl in Hf. by repeat (apply elem_of_cons in Hf as [->|Hf]; [reflexivity|]); apply not_elem_of_nil in Hf.
  - intros f c Hf E. simpl in Hf.
    by repeat (apply elem_of_cons in Hf as [->|Hf]; [discriminate E|]); apply not_elem_of_nil in Hf.
Qed.
Lemma schema_export_then_import_witness :
  match Dispatch (text portable) with
  | Ok s => f_Path <$> ps_Fields s = ["host"; "port"] ∧ ps_DependentRequired s = ps_DependentRequired portable
            ∧ SchemaTypes.computeChecksum (ps_Fields s) = SchemaTypes.computeChecksum (ps_Fields portable)
  | Err _ => False
  end.
Proof.
  assert (MarshalSchemaAt portable "" = Ok (text portable)) as E by (vm_compute; reflexivity).
  destruct (schema_export_then_import portable (text portable) portable_exportable E) as [Hd Hc]. rewrite Hd.
  split; [vm_compute; reflexivity|]. split; [vm_compute; reflexivity|]. apply Hc. repeat constructor.
Defined.
Lemma schema_import_reads_witness :
  ∃ doc, sy_Unmarshal (text portable) = Ok doc ∧ schema_doc_ok doc ∧ reimported portable = document_schema doc.
Proof.
  assert (is_Ok (Dispatch (text portable)) = true) as E by (vm_compute; reflexivity).
  destruct (Dispatch (text portable)) as [s|e] eqn:Ed; [|discriminate E].
  destruct (proj1 (schema_import_reads (text portable) s) Ed) as (doc & _ & Hu & Hok & ->).
  exists doc. split; [exact Hu|]. split; [exact Hok|].
  assert (sy_Unmarshal (text portable) = Ok (SchemaDoc.schemaToYAML portable)) as Hp by (vm_compute; reflexivity).
  rewrite Hp in Hu. injection Hu as <-. vm_compute. reflexivity.
Defined.

(** *** Rules *)
Definition cel_rule (text : string) : Cel.ValidationRule :=
  {| Cel.rule_Path := ""; Cel.rule_Rule := text; Cel.rule_Message := "no"; Cel.rule_Severity := ""; Cel.rule_Reason := "" |}.
Definition range_fields : list pbSchemaField :=
  [typed "low" FIELD_TYPE_INT None; typed "high" FIELD_TYPE_INT None; typed "name" FIELD_TYPE_STRING None].
Definition less : Expr := Call "_<_" None [self "low"; self "high"].

Lemma less_mentions c : mentions less c → c = ["low"] ∨ c = ["high"].
Proof. intros Hm%elem_of_chains. vm_compute in Hm. set_solver. Qed.
Lemma less_parsed : well_parsed less.
Proof.
  split; [intros c [->| ->]%less_mentions; repeat constructor|by intros c [->| ->]%less_mentions|].
  split; intros fn args Ho%elem_of_visit Hfn; cbn in Ho;
    repeat (apply elem_of_cons in Ho as [Ho|Ho]; [simplify_eq; first [by eauto|other_operator]|]); by apply not_elem_of_nil in Ho.
Qed.

(** The rule between two numbers passes. *)
Lemma lint_accepts_iff_witness :
  LintValidations [cel_rule "self.low < self.high"] range_fields = Ok tt
  ∧ ∃ e, e = less ∧ rule_fine range_fields e.
Proof.
  assert (∀ r e, r ∈ [cel_rule "self.low < self.high"] →
    compile_rule (Cel.rule_Rule r) = Ok e → well_parsed e) as Hp.
  { intros r e Hr. apply list_elem_of_singleton in Hr as ->. intros [= <-]. exact less_parsed. }
  assert (LintValidations [cel_rule "self.low < self.high"] range_fields = Ok tt) as E by (vm_compute; reflexivity).
  split; [exact E|].
  destruct (proj1 (lint_accepts_iff compile_rule [cel_rule "self.low < self.high"] range_fields eq_refl Hp) E
              (cel_rule "self.low < self.high") ltac:(by left)) as (e & He & Hf).
  exists e. split; [by injection He|exact Hf].
Defined.
End SchemaScenario.
