(* ===== verification/SchemaFindings.v ===== *)
(** * Where the schema service departs from its documentation

    Runs of the service on the in-memory store. *)
From S2P Require Import Prelude GoText GoFloat GoTime Json GoAny Pagination Domain ConfigStore MemStore Convert Auth Validation CrossField ValidatorFactory Scenario.
From S2P Require Import SchemaTypes SchemaYaml SchemaYamlFacts CelLint SchemaStore SchemaService SchemaFacts SchemaRuns SchemaTheorems SchemaTenants SchemaScenario.
Import SchemaMem.
Local Open Scope Z_scope.

Module SchemaFindings.
Import Scenario SchemaScenario.

Definition import (doc : string) : ImportSchemaRequest := {| is_YamlContent := doc; is_AutoPublish := false |}.
Definition start0 : unit * MemoryStore := (tt, NewMemoryStore).
(** What clients see of an error. *)
Definition code_of {A} (r : result error A) : option Domain.code := match r with Ok _ => None | Err e => status_code_of e end.

(** An import that is refused because two paths conflict has already created the
    schema and its first version, which has no fields, and no entry of the audit
    log tells; a corrected import is then version 2. *)
Example failed_import_leaves_schema :
  let '(r, (_, m)) := ImportSchema svc root (import (text (doc [typed "db" FIELD_TYPE_STRING None; typed "db.host" FIELD_TYPE_STRING None]))) start0 in
  let '(r', (_, m')) := ImportSchema svc root (import (text (doc [typed "db" FIELD_TYPE_STRING None]))) (tt, m) in
  (code_of r, size (SchemaMem.schemas m), (λ p, (sv_Version p.2, fields_of m p.1)) <$> map_to_list (schemaVersions m), auditLog m)
    = (Some InvalidArgument, 1%nat, [(1, [])], [])
  ∧ match r' with Ok p => ps_Version p = 2 | Err _ => False end.
Proof. vm_compute. split; reflexivity. Qed.

(** Sorted neighbours do not show every conflict: a path between [a] and [a.b]
    need not start with [a.]. *)
Example overlap_missed :
  let fields := (λ p, typed p FIELD_TYPE_STRING None) <$> ["a"; "a-b"; "a.b"] in
  validateNoPrefixOverlap fields = Ok tt ∧ is_Ok (validateNoPrefixOverlap [typed "a" FIELD_TYPE_STRING None; typed "a.b" FIELD_TYPE_STRING None]) = false.
Proof. vm_compute. split; reflexivity. Qed.

(** Deleting a schema leaves its versions and its tenants; even a new tenant can
    be bound to it. *)
Example deleted_schema_keeps_tenants :
  let m := (run_calls svc (first_calls ++ [(root, CallDeleteSchema "app")]) start0).2 in
  (code_of (GetSchema root {| gs_Id := "app"; gs_Version := None |} (tt, m)).1,
   is_Ok (GetTenant svc root "acme" (tt, m)).1,
   is_Ok (SchemaService.CreateTenant svc root (tenant_of 1) (tt, m)).1) = (Some NotFound, true, true).
Proof. vm_compute. reflexivity. Qed.

(** A second schema of the same name is an internal error, and a second tenant
    of the same name is accepted. *)
Example memory_names_not_unique :
  let m := (run_calls svc first_calls start0).2 in
  (code_of (run_call svc root create (tt, m)).1,
   is_Ok (SchemaService.CreateTenant svc root (tenant_of 1) (tt, m)).1) = (Some Internal, true).
Proof. vm_compute. reflexivity. Qed.

(** An update can take a schema over the limit on fields. *)
Example update_ignores_max_fields :
  let svc := NewService (Some {| SchemaTypes.MaxFields := 2; SchemaTypes.MaxDocBytes := 0; SchemaTypes.MaxRemoveFields := 0;
    SchemaTypes.RegexPatternMaxLength := 0 |}) None in
  let grow := CallUpdateSchema {| us_Id := "app"; us_Fields := [typed "host" FIELD_TYPE_STRING None]; us_RemoveFields := [];
                                  us_VersionDescription := "" |} in
  let m := (run_calls svc [(root, create); (root, grow)] start0).2 in
  length (fields_of m (uuid 4)) = 3%nat.
Proof. vm_compute. reflexivity. Qed.

(** An update with an empty name answers an empty tenant. *)
Example empty_rename_answers_nothing :
  let m := (run_calls svc first_calls start0).2 in
  match (UpdateTenant svc root {| tu_Id := "acme"; tu_Name := Some ""; tu_SchemaVersion := None |} (tt, m)).1 with
  | Ok t => (pt_Id t, pt_Name t) = ("", "")
  | Err _ => False
  end.
Proof. vm_compute. reflexivity. Qed.

(** One bound that JSON cannot write takes all constraints of the field with
    it. *)
Example nan_bound_drops_constraints :
  let nan := (ParseFloat "nan").1 in
  let f := {| f_Path := "rate"; f_Type := FIELD_TYPE_NUMBER;
     f_Constraints := Some (Validation.mkConstraints (Some nan) (Some (float_of_Z 10)) None ["1"; "2"] None None None None None []);
     f_Nullable := false; f_Deprecated := false; f_RedirectTo := None; f_DefaultValue := None; f_Description := None;
     f_Title := None; f_Example := None; f_Examples := ∅; f_ExternalDocs := None; f_Tags := []; f_Format := None;
     f_ReadOnly := false; f_WriteOnce := false; f_Sensitive := false |} in
  validateFieldConstraints f 1024 = Ok tt ∧ csf_Constraints (field_params "v" f) = None.
Proof. vm_compute. split; reflexivity. Qed.

(** A new version loses the rules of the one it was made from. *)
Example update_drops_rules :
  let ruled := {| csv_SchemaID := uuid 0; csv_Version := 2; csv_ParentVersion := Some 1; csv_Description := None; csv_Checksum := "";
    csv_DependentRequired := DependentRequired.marshalDependentRequired cert_needs_key; csv_Validations := "" |} in
  let m := (CreateSchemaVersion ruled (run_calls svc [(root, create)] start0).2).2 in
  let m' := (run_call svc root add_host (tt, m)).2.2 in
  (sv_Version <$> (schemaVersions m' !! uuid 5), sv_DependentRequired <$> (schemaVersions m' !! uuid 5)) = (Some 3, Some "[]").
Proof. vm_compute. reflexivity. Qed.

(** Claims without tenants see every tenant: the nil slice means all. Only the
    interceptors keep such claims out. *)
Example claims_without_tenants_list_all :
  let nobody := Auth.mkCtx (Some {| Auth.Subject := "nobody"; Auth.role := Auth.RoleUser; Auth.TenantIDs := [] |}) false None in
  let m := (run_calls svc first_calls start0).2 in
  (code_of (GetTenant svc nobody "acme" (tt, m)).1,
   match (SchemaService.ListTenants nobody {| tl_SchemaId := None; tl_PageSize := 0; tl_PageToken := "" |} (tt, m)).1 with
   | Ok r => pt_Name <$> tlr_Tenants r
   | Err _ => []
   end) = (Some NotFound, ["acme"]).
Proof. vm_compute. reflexivity. Qed.

(** ** Documents *)
Definition export (name : string) : ExportSchemaRequest := {| ex_Id := name; ex_Version := None; ex_SpecVersion := None |}.
Definition constrained (c : Validation.FieldConstraints) (f : pbSchemaField) : pbSchemaField :=
  {| f_Path := f_Path f; f_Type := f_Type f; f_Constraints := Some c; f_Nullable := f_Nullable f; f_Deprecated := f_Deprecated f;
     f_RedirectTo := f_RedirectTo f; f_DefaultValue := f_DefaultValue f; f_Description := f_Description f; f_Title := f_Title f;
     f_Example := f_Example f; f_Examples := f_Examples f; f_ExternalDocs := f_ExternalDocs f; f_Tags := f_Tags f;
     f_Format := f_Format f; f_ReadOnly := f_ReadOnly f; f_WriteOnce := f_WriteOnce f; f_Sensitive := f_Sensitive f |}.
Definition redirected (path : string) (f : pbSchemaField) : pbSchemaField :=
  {| f_Path := f_Path f; f_Type := f_Type f; f_Constraints := f_Constraints f; f_Nullable := f_Nullable f; f_Deprecated := true;
     f_RedirectTo := Some path; f_DefaultValue := f_DefaultValue f; f_Description := f_Description f; f_Title := f_Title f;
     f_Example := f_Example f; f_Examples := f_Examples f; f_ExternalDocs := f_ExternalDocs f; f_Tags := f_Tags f;
     f_Format := f_Format f; f_ReadOnly := f_ReadOnly f; f_WriteOnce := f_WriteOnce f; f_Sensitive := f_Sensitive f |}.

(** Defaults are checked under the default limits, and writes under those of the
    server's configuration: with a lower nesting limit, a tenant is seeded with a
    JSON default that the field's validator then refuses to be written. *)
Definition nested_schema : string := Json.encode_object [("items", Json.encode_object [("items", "{}")])].
Definition shallow : Validation.Limits :=
  {| Validation.CompileTimeout := Validation.CompileTimeout Validation.DefaultLimits; Validation.MaxDepth := 1;
     Validation.MaxConcurrentCompiles := 32; Validation.RegexMaxLength := 1024 |}.
Example seeded_default_refused :
  let f := constrained (Validation.mkConstraints None None None [] (Some nested_schema) None None None None [])
             (typed "matrix" FIELD_TYPE_JSON (Some "[[1]]")) in
  let calls := (root,.) <$> [CallCreateSchema {| cr_Name := "app"; cr_Description := ""; cr_Fields := [f] |}; publish 1;
                             CallCreateTenant (tenant_of 1)] in
  let m := (run_calls svc calls start0).2 in
  val_Value <$> concat (snd <$> map_to_list (configValues m)) = [Some "[[1]]"]
  ∧ ((λ f, match field_validator shallow f with
            | Ok v => is_Ok (Validation.Validate v (Convert.stringToTypedValue (sf_DefaultValue f) (sf_FieldType f)))
            | Err _ => true
            end) <$> fields_of m (uuid 1)) = [false].
Proof. vm_compute. split; reflexivity. Qed.

(** The checksum that decides whether an import brings something new covers
    neither defaults nor rules: a changed default is refused as identical. *)
Example changed_default_is_identical :
  let m := (ImportSchema svc root (import (text (doc [typed "port" FIELD_TYPE_INT (Some "80")]))) start0).2 in
  code_of (ImportSchema svc root (import (text (doc [typed "port" FIELD_TYPE_INT (Some "8080")]))) m).1 = Some AlreadyExists.
Proof. vm_compute. reflexivity. Qed.

(** A redirect to a path that is not there is imported. *)
Example redirect_not_checked :
  is_Ok (ImportSchema svc root (import (text (doc [redirected "nowhere" (typed "port" FIELD_TYPE_INT None)]))) start0).1 = true.
Proof. vm_compute. reflexivity. Qed.

(** An empty default is lost in an export, and with it the value a new tenant
    starts with. *)
Example empty_default_lost :
  match Dispatch (text (doc [typed "suffix" FIELD_TYPE_STRING (Some "")])) with
  | Ok s => f_DefaultValue <$> ps_Fields s = [None]
  | Err _ => False
  end.
Proof. vm_compute. reflexivity. Qed.

(** A schema can be created with a path that its own export is refused for. *)
Example export_not_importable :
  let m := (SchemaService.CreateSchema svc root {| cr_Name := "paths"; cr_Description := "";
              cr_Fields := [typed "1st place" FIELD_TYPE_STRING None] |} start0).2 in
  match (ExportSchema root (export "paths") m).1 with
  | Ok data => code_of (ImportSchema svc root (import data) start0).1 = Some InvalidArgument
  | Err _ => False
  end.
Proof. vm_compute. reflexivity. Qed.

(** Constraints that constrain nothing are part of the checksum and not of the
    export, so that importing an export of the latest version makes another. *)
Example reimport_makes_version :
  let c := Validation.no_constraints in
  let m := (SchemaService.CreateSchema svc root {| cr_Name := "paths"; cr_Description := "";
              cr_Fields := [constrained c (typed "port" FIELD_TYPE_INT None)] |} start0).2 in
  match (ExportSchema root (export "paths") m).1 with
  | Ok data => match (ImportSchema svc root (import data) m).1 with Ok p => ps_Version p = 2 | Err _ => False end
  | Err _ => False
  end.
Proof. vm_compute. reflexivity. Qed.

(** Vendor extensions are accepted and are in no export; the owner's metadata
    is not stored. *)
Example extensions_not_preserved :
  let info := {| yi_Title := "App"; yi_Author := ""; yi_Contact := None; yi_Labels := ∅; yi_Extensions := ∅ |} in
  let d := SchemaDoc.schemaToYAML portable in
  let d := {| ys_SpecVersion := ys_SpecVersion d; ys_Schema := ys_Schema d; ys_ID := ys_ID d; ys_Name := ys_Name d;
    ys_Description := ys_Description d; ys_Version := ys_Version d; ys_VersionDescription := ys_VersionDescription d;
    ys_Info := Some info; ys_Fields := ys_Fields d; ys_DependentRequired := ys_DependentRequired d;
    ys_Validations := ys_Validations d; ys_Extensions := {["x-team" := GoAny.GoAny.AString "payments"]} |} in
  SchemaDoc.validateSchemaYAML d = Ok tt ∧ size (ys_Extensions (SchemaDoc.schemaToYAML (SchemaDoc.schemaFromYAML d))) = 0%nat.
Proof. vm_compute. split; reflexivity. Qed.
Example info_not_stored :
  let s := {| ps_Id := ""; ps_Name := "paths"; ps_Description := ""; ps_Version := 1; ps_ParentVersion := None;
    ps_VersionDescription := ""; ps_Checksum := ""; ps_Published := false; ps_Fields := [typed "port" FIELD_TYPE_INT None];
    ps_CreatedAt := None; ps_DependentRequired := []; ps_Validations := [];
    ps_Info := Some {| in_Title := "Paths"; in_Author := "ops"; in_Contact := None; in_Labels := ∅ |} |} in
  match Dispatch (text s), (ImportSchema svc root (import (text s)) start0).1 with
  | Ok read, Ok stored => is_Some (ps_Info read) ∧ ps_Info stored = None
  | _, _ => False
  end.
Proof. vm_compute. split; [eexists|]; reflexivity. Qed.

(** ** Rules *)
(** A range whose upper bound comes first, or with two lower bounds, is refused
    with a suggestion that means something else. *)
Example range_suggestion_wrong :
  CelLint.patternSubstitutable (Call "_&&_" None [Call "_>_" None [Literal (VInt 10); self "x"]; Call "_>_" None [self "x"; Literal (VInt 5)]])
  = Some (Errorf "use minimum: %s and maximum: %s on field %s" [AErr (Errorf "%v" [AInt 10]); AErr (Errorf "%v" [AInt 5]); AStr "x"])
  ∧ is_Some (CelLint.patternSubstitutable (Call "_&&_" None [Call "_>_" None [self "x"; Literal (VInt 5)]; Call "_>_" None [self "x"; Literal (VInt 10)]])).
Proof. vm_compute. split; [reflexivity|eexists; reflexivity]. Qed.

(** An order on a text is refused in favour of a constraint that a text field
    cannot have. *)
Example string_order_has_no_constraint :
  CelLint.patternSubstitutable (Call "_<_" None [self "name"; Literal (VString "m")])
  = Some (Errorf "use exclusiveMaximum: %s on the field" [AErr (Errorf "%q" [AStr "m"])])
  ∧ is_Ok (validateFieldConstraints
      (constrained (Validation.mkConstraints None None None [] None None (Some (float_of_Z 1)) None None []) (typed "name" FIELD_TYPE_STRING None)) 1024)
    = false.
Proof. vm_compute. split; reflexivity. Qed.

(** The sum of an integer and a number passes, and an order of booleans does
    not; CEL has no overload for the one and one for the other. *)
Example operand_types_not_those_of_cel :
  CelLint.arithMismatch IntType DoubleType true = false ∧ CelLint.comparableMismatch BoolType BoolType = true.
Proof. split; reflexivity. Qed.
End SchemaFindings.
