(* ===== verification/WatchValue.v ===== *)
(** * Live values of the watcher SDK

    [sdk/configclient/typed_value.go] (typed values and their text) and
    [sdk/configwatcher/value.go], [types.go]: a value that the watcher updates
    and whose changes a consumer receives through a channel of 16 places. The
    six instances of the generic [Value[T]] are the types of [vtype]. Each
    method holds the value's mutex for its whole body, so it is one step for the
    other methods; consumers receive from the channel without the mutex, so that
    their receives fall also into the middle of an update, where [race] puts
    them. A [time.Time] is its instant: typed values from the wire are in UTC. *)
From S2P Require Import Prelude GoText GoFloat GoTime GoAny.

(** ** Typed values *)
Module TypedValue.

Inductive ValueKind :=
  KindInvalid | KindString | KindInteger | KindNumber | KindBool | KindTime | KindDuration
| KindURL | KindJSON.
Global Instance ValueKind_eq_dec : EqDecision ValueKind.
Proof. solve_decision. Defined.

Record TypedValue := mkTV {
  kind : ValueKind; str : string; i : Z; num : float64; b : bool; t : Z; d : Z }.

Definition zero : TypedValue := mkTV KindInvalid "" 0 float_zero false zero_time 0.
Definition StringVal (s : string) : TypedValue := mkTV KindString s 0 float_zero false zero_time 0.
Definition IntVal (n : Z) : TypedValue := mkTV KindInteger "" n float_zero false zero_time 0.
Definition FloatVal (f : float64) : TypedValue := mkTV KindNumber "" 0 f false zero_time 0.
Definition BoolVal (b : bool) : TypedValue := mkTV KindBool "" 0 float_zero b zero_time 0.
Definition TimeVal (t : Z) : TypedValue := mkTV KindTime "" 0 float_zero false t 0.
Definition DurationVal (d : Z) : TypedValue := mkTV KindDuration "" 0 float_zero false zero_time d.
Definition URLVal (s : string) : TypedValue := mkTV KindURL s 0 float_zero false zero_time 0.
Definition JSONVal (s : string) : TypedValue := mkTV KindJSON s 0 float_zero false zero_time 0.

(** The accessors with their [ok] result: [None] is the zero value and false. *)
Definition when_kind {A} (k : ValueKind) (tv : TypedValue) (x : A) : option A :=
  if bool_decide (kind tv = k) then Some x else None.
Definition StringValue (tv : TypedValue) : option string := when_kind KindString tv (str tv).
Definition IntValue (tv : TypedValue) : option Z := when_kind KindInteger tv (i tv).
Definition FloatValue (tv : TypedValue) : option float64 := when_kind KindNumber tv (num tv).
Definition BoolValue (tv : TypedValue) : option bool := when_kind KindBool tv (b tv).
Definition TimeValue (tv : TypedValue) : option Z := when_kind KindTime tv (t tv).
Definition DurationValue (tv : TypedValue) : option Z := when_kind KindDuration tv (d tv).
Definition URLValue (tv : TypedValue) : option string := when_kind KindURL tv (str tv).
Definition JSONValue (tv : TypedValue) : option string := when_kind KindJSON tv (str tv).

(** [String]. *)
Definition text (tv : TypedValue) : string :=
  match kind tv with
  | KindString | KindURL | KindJSON => str tv
  | KindInteger => FormatInt (i tv) 10
  | KindNumber => GoAny.float_v (num tv)
  | KindBool => FormatBool (b tv)
  | KindTime => FormatRFC3339Nano (t tv)
  | KindDuration => Duration_String (d tv)
  | KindInvalid => ""
  end.
End TypedValue.
Import TypedValue (TypedValue).

(** ** The types of values *)
Inductive vtype := VString | VInt | VFloat | VBool | VDuration | VTime.
Definition denote (ty : vtype) : Type :=
  match ty with
  | VString => string | VInt => Z | VFloat => float64 | VBool => bool | VDuration => Z | VTime => Z
  end.

(** The parsers of [types.go]; [None] is the error. *)
Definition ok_only {A E} (r : A * option E) : option A :=
  match r with (x, None) => Some x | _ => None end.
Definition parse (ty : vtype) : string → option (denote ty) :=
  match ty with
  | VString => λ s, Some s
  | VInt => λ s, ok_only (ParseInt s 64)
  | VFloat => λ s, ok_only (ParseFloat s)
  | VBool => λ s, ok_only (ParseBool s)
  | VDuration => ParseDuration
  | VTime => ParseRFC3339Nano
  end.

(** [makeEqual]: [time.Time.Equal] compares instants, [reflect.DeepEqual] of
    floats is [==]. *)
Definition equal (ty : vtype) : denote ty → denote ty → bool :=
  match ty with
  | VString => λ x y, bool_decide (x = y)
  | VFloat => float_eq
  | VBool => Bool.eqb
  | VInt | VDuration | VTime => Z.eqb
  end.

(** [typedUpdater] up to its fallback: the payload of a kind whose dynamic
    type is [T]. An [int64] is not a [time.Duration]. *)
Definition direct (ty : vtype) (tv : TypedValue) : option (denote ty) :=
  match TypedValue.kind tv, ty return option (denote ty) with
  | TypedValue.KindInteger, VInt => TypedValue.IntValue tv
  | TypedValue.KindNumber, VFloat => TypedValue.FloatValue tv
  | TypedValue.KindBool, VBool => TypedValue.BoolValue tv
  | TypedValue.KindTime, VTime => TypedValue.TimeValue tv
  | TypedValue.KindDuration, VDuration => TypedValue.DurationValue tv
  | (TypedValue.KindString | TypedValue.KindURL | TypedValue.KindJSON), VString => Some (TypedValue.text tv)
  | _, _ => None
  end.

(** ** [Value] *)

(** What consumers receive while a change is sent to a full channel: how many
    changes after the failed send and before the drain, and after the drain and
    before the second send. *)
Record race := mkRace { before_drain : nat; before_send : nat }.
Definition undisturbed : race := mkRace 0 0.

Module Value.
Section value.
Context {ty : vtype}.
Abbreviation T := (denote ty).

Record Change := { Old : T; New : T; WasNull : bool; IsNull : bool }.

(** The channel is its buffer and whether it is closed. [received] is no field of
    the struct: it remembers what consumers have received. *)
Record Value := mkValue {
  current : T; isSet : bool; closed : bool; defaultVal : T;
  changes : list Change; ch_closed : bool; dropped : Z; received : list Change }.

Definition channel_cap : nat := 16.

Definition newValue (defaultVal : T) : Value := mkValue defaultVal false false defaultVal [] false 0 [].

Definition Get (v : Value) : T := current v.
Definition GetWithNull (v : Value) : T * bool := (current v, isSet v).
Definition DroppedCount (v : Value) : Z := dropped v.

Definition with_changes (cs : list Change) (v : Value) : Value :=
  mkValue (current v) (isSet v) (closed v) (defaultVal v) cs (ch_closed v) (dropped v) (received v).
Definition with_current (x : T) (set : bool) (v : Value) : Value :=
  mkValue x set (closed v) (defaultVal v) (changes v) (ch_closed v) (dropped v) (received v).

(** [select { case ch <- c: default: }]: whether it was sent; a send on a
    closed channel panics, which is [None]. *)
Definition try_send (c : Change) (v : Value) : option (bool * Value) :=
  if ch_closed v then None
  else if length (changes v) <? channel_cap then Some (true, with_changes (changes v ++ [c]) v)
  else Some (false, v).

Definition count_drop (v : Value) : Value :=
  mkValue (current v) (isSet v) (closed v) (defaultVal v) (changes v) (ch_closed v) (int64 (dropped v + 1)) (received v).

(** A receive of the consumer from [Changes()], and up to [n] of them. *)
Definition receive (v : Value) : option (Change * Value) :=
  match changes v with
  | c :: cs => Some (c, mkValue (current v) (isSet v) (closed v) (defaultVal v) cs (ch_closed v) (dropped v) (received v ++ [c]))
  | [] => None
  end.
Fixpoint receives (n : nat) (v : Value) : Value :=
  match n with
  | O => v
  | S n => match receive v with Some (_, v) => receives n v | None => v end
  end.

(** [notifyLocked]: nothing when closed or unchanged. When the channel is full the
    drop is counted, then the oldest change taken out, if there still is one, and
    the new one sent; consumers may receive in between. *)
Definition notifyLocked (r : race) (oldVal : T) (wasNull : bool) (v : Value) : option Value :=
  if closed v then Some v
  else if Bool.eqb wasNull (negb (isSet v)) && equal ty oldVal (current v) then Some v
  else
    let change := {| Old := oldVal; New := current v; WasNull := wasNull; IsNull := negb (isSet v) |} in
    '(sent, v) ← try_send change v;
    if (sent : bool) then Some v
    else
      let v := count_drop v in
      let v := receives (before_drain r) v in
      let v := with_changes (tail (changes v)) v in
      let v := receives (before_send r) v in
      '(_, v) ← try_send change v; Some v.

Definition update (r : race) (rawValue : string) (set : bool) (v : Value) : option Value :=
  let oldVal := current v in
  let wasNull := negb (isSet v) in
  let v :=
    if negb set then with_current (defaultVal v) false v
    else match parse ty rawValue with
         | None => with_current (defaultVal v) false v
         | Some parsed => with_current parsed true v
         end in
  notifyLocked r oldVal wasNull v.

Definition updateDirect (r : race) (val : T) (v : Value) : option Value :=
  notifyLocked r (current v) (negb (isSet v)) (with_current val true v).

(** The closure of [typedUpdater]. *)
Definition typedUpdate (r : race) (tv : TypedValue) (v : Value) : option Value :=
  match direct ty tv with
  | Some x => updateDirect r x v
  | None => update r (TypedValue.text tv) true v
  end.

(** What the watcher does with a value of the server, absent ones included. *)
Definition apply (r : race) (otv : option TypedValue) (v : Value) : option Value :=
  match otv with Some tv => typedUpdate r tv v | None => update r "" false v end.

(** [close]; closing a closed channel would panic. *)
Definition close (v : Value) : option Value :=
  if closed v then Some v
  else if ch_closed v then None
  else Some (mkValue (current v) (isSet v) true (defaultVal v) (changes v) true (dropped v) (received v)).
End value.
Global Arguments Value : clear implicits.
Global Arguments Change : clear implicits.
End Value.

(** ** What a value shows *)
Definition reads (ty : vtype) (def : denote ty) (otv : option TypedValue) : denote ty * bool :=
  match otv with
  | None => (def, false)
  | Some tv =>
      match direct ty tv with
      | Some x => (x, true)
      | None => match parse ty (TypedValue.text tv) with Some x => (x, true) | None => (def, false) end
      end
  end.

(** ** Runs of one value

    The watcher's updates, its close and the receives of consumers in any order,
    receives within an update included. Next to the value a run keeps the
    transitions that are due to the consumers, by a definition of its own. *)
Module ValueRun.
Import Value.
Inductive vop := OApply (r : race) (otv : option TypedValue) | OClose | OReceive.

Section runs.
Context {ty : vtype}.

Definition due (old new : denote ty * bool) : list (Change ty) :=
  if Bool.eqb old.2 new.2 && equal ty old.1 new.1 then []
  else [{| Old := old.1; New := new.1; WasNull := negb old.2; IsNull := negb new.2 |}].

Record St := mkSt { val : Value ty; announced : list (Change ty) }.

Definition vstep (op : vop) (s : St) : option St :=
  match op with
  | OApply r otv =>
      v ← apply r otv (val s);
      Some (mkSt v (announced s ++ (if closed (val s) then [] else due (GetWithNull (val s)) (GetWithNull v))))
  | OClose => v ← close (val s); Some (mkSt v (announced s))
  | OReceive =>
      match receive (val s) with
      | Some (_, v) => Some (mkSt v (announced s))
      | None => Some s
      end
  end.

Fixpoint vrun (ops : list vop) (s : St) : option St :=
  match ops with [] => Some s | op :: ops => s ← vstep op s; vrun ops s end.
End runs.
Global Arguments St : clear implicits.
End ValueRun.

(** * Properties *)
Module ValueFacts.
Import Value ValueRun.

(** Two floats that compare equal are the same or both zero. *)
Lemma float_eq_cases x y :
  float_eq x y = true → x = y ∨ ∃ s s', x = S754_zero s ∧ y = S754_zero s'.
Proof.
  unfold float_eq, SFeqb. destruct x as [| [] | | [] m e], y as [| [] | | [] m' e']; simpl; try done; eauto.
  all: destruct (Z.compare_spec e e') as [->| |]; try done.
  all: destruct (Pos.compare_cont _ _ _) eqn:E; try done.
  all: apply Pos.compare_eq in E as ->; by left.
Qed.

Lemma equal_trans ty (x y z : denote ty) : equal ty x y = true → equal ty y z = true → equal ty x z = true.
Proof.
  destruct ty; simpl; try rewrite !Z.eqb_eq; try rewrite !Bool.eqb_true_iff;
    try rewrite !bool_decide_eq_true; try congruence.
  intros Hxy Hyz. destruct (float_eq_cases x y Hxy) as [->|(s & s' & -> & ->)]; [done|].
  by destruct (float_eq_cases _ z Hyz) as [<-|(s1 & s2 & _ & ->)].
Qed.

Lemma int64_add_l x y : int64 (int64 x + y) = int64 (x + y).
Proof.
  unfold int64, wrap. f_equal.
  replace ((x + 2 ^ (64 - 1)) `mod` 2 ^ 64 - 2 ^ (64 - 1) + y + 2 ^ (64 - 1))%Z
    with ((x + 2 ^ (64 - 1)) `mod` 2 ^ 64 + y)%Z by lia.
  rewrite Zplus_mod_idemp_l. f_equal. lia.
Qed.

Section facts.
Context {ty : vtype}.
Implicit Types v : Value ty.

Record value_ok v : Prop := {
  vo_closed : ch_closed v = closed v;
  vo_cap : length (changes v) ≤ channel_cap }.

Lemma newValue_ok d : value_ok (newValue (ty := ty) d).
Proof. split; simpl; [done|lia]. Qed.

(** What consumers have received and what waits for them. *)
Definition kept v : list (Change ty) := received v ++ changes v.

(** Receives move changes from the queue to the consumers. *)
Lemma receives_spec n v :
  receives n v = mkValue (current v) (isSet v) (closed v) (defaultVal v) (drop n (changes v)) (ch_closed v) (dropped v)
                   (received v ++ take n (changes v)).
Proof.
  revert v. induction n as [|n IH]; intros v; [by destruct v; rewrite app_nil_r|].
  destruct v as [x set cl def [|c cs] chc d rec]; simpl; [by rewrite app_nil_r|].
  rewrite IH. simpl. by rewrite <- app_assoc.
Qed.

(** The effect of [notifyLocked]: it never panics, and touches the queue only. A
    change that is due is added, and when a drop is counted, one change is lost
    unless the consumers have emptied the queue first. *)
Definition queued r v v' (new : list (Change ty)) : Prop :=
  (kept v' = kept v ++ new ∧ dropped v' = dropped v)
  ∨ ∃ c, new = [c] ∧ dropped v' = int64 (dropped v + 1)
    ∧ ((kept v' = kept v ++ [c] ∧ channel_cap ≤ before_drain r)
       ∨ ∃ l x l', kept v = l ++ x :: l' ∧ kept v' = l ++ l' ++ [c]).

Lemma notify_spec r oldVal wasNull v :
  value_ok v →
  ∃ cs n rec, let v' := mkValue (current v) (isSet v) (closed v) (defaultVal v) cs (ch_closed v) n rec in
    notifyLocked r oldVal wasNull v = Some v' ∧ length cs ≤ channel_cap
    ∧ queued r v v' (if closed v then [] else due (oldVal, negb wasNull) (GetWithNull v)).
Proof.
  intros [Hcl Hcap]. unfold notifyLocked, queued, kept, due, GetWithNull, try_send, channel_cap in *.
  destruct v as [x set [] def cs chc n rec]; simpl in *; subst chc.
  { exists cs, n, rec. rewrite app_nil_r. auto. }
  assert (Bool.eqb wasNull (negb set) = Bool.eqb (negb wasNull) set) as -> by (by destruct wasNull, set).
  destruct (Bool.eqb _ _ && _); simpl.
  { exists cs, n, rec. rewrite app_nil_r. auto. }
  rewrite Bool.negb_involutive. set (c := {| Old := oldVal; New := x; WasNull := wasNull; IsNull := negb set |}).
  destruct (Nat.ltb_spec (length cs) 16); simpl.
  { exists (cs ++ [c]), n, rec. rewrite length_app, app_assoc. simpl. split_and!; [done|lia|auto]. }
  rewrite !receives_spec. simpl. assert (length (drop (before_send r) (tail (drop (before_drain r) cs))) < 16) as Hlen.
  { rewrite length_drop. assert (length (drop (before_drain r) cs) ≤ 16) by (rewrite length_drop; lia).
    destruct (drop (before_drain r) cs); simpl in *; lia. }
  rewrite (proj2 (Nat.ltb_lt _ _) Hlen). simpl. eexists _, _, _. split; [done|]. split; [rewrite length_app; simpl; lia|].
  right. exists c. split_and!; [done..|]. destruct (drop (before_drain r) cs) as [|x0 cs1] eqn:Hd; simpl.
  - left. apply (f_equal length) in Hd as Hl. rewrite length_drop in Hl. simpl in Hl. split; [|lia].
    rewrite drop_nil, take_nil, app_nil_r. simpl. by rewrite take_ge by lia.
  - right. exists (rec ++ take (before_drain r) cs), x0, cs1. rewrite <- !app_assoc, <- Hd, take_drop. split; [done|].
    do 2 f_equal. by rewrite app_assoc, take_drop.
Qed.

(** One value of the server, whatever was shown before. *)
Lemma apply_with r otv v :
  ∃ x set, (x, set) = reads ty (defaultVal v) otv
    ∧ apply r otv v = notifyLocked r (current v) (negb (isSet v)) (with_current x set v).
Proof.
  destruct otv as [tv|]; simpl; [|by exists (defaultVal v), false].
  unfold typedUpdate. destruct (direct ty tv) as [x|]; [by exists x, true|].
  unfold update. simpl. destruct (parse ty (TypedValue.text tv)) as [x|];
    [by exists x, true|by exists (defaultVal v), false].
Qed.

Lemma apply_spec r otv v :
  value_ok v →
  ∃ v', apply r otv v = Some v' ∧ value_ok v' ∧ GetWithNull v' = reads ty (defaultVal v) otv
    ∧ defaultVal v' = defaultVal v ∧ closed v' = closed v
    ∧ queued r v v' (if closed v then [] else due (GetWithNull v) (GetWithNull v')).
Proof.
  intros Hok. destruct (apply_with r otv v) as (x & set & Hr & ->).
  destruct (notify_spec r (current v) (negb (isSet v)) (with_current x set v)) as (cs & n & rec & -> & Hl & Hq).
  { split; apply Hok. }
  eexists. split; [done|]. split_and!; simpl; try done.
  - split; simpl; [apply Hok|done].
  - rewrite Bool.negb_involutive in Hq. exact Hq.
Qed.

Lemma close_spec v :
  value_ok v →
  close v = Some (mkValue (current v) (isSet v) true (defaultVal v) (changes v) true (dropped v) (received v)).
Proof.
  intros [Hcl _]. unfold close. destruct v as [x set [] def cs chc n rec]; simpl in *; by subst.
Qed.

(** The value after the last transition that was due is the one shown. *)
Definition shown_last (def : denote ty) (ann : list (Change ty)) v : Prop :=
  let '(x, null) := match last ann with Some c => (New c, IsNull c) | None => (def, true) end in
  isSet v = negb null ∧ (current v = x ∨ equal ty x (current v) = true).

(** The drops counted, against the changes that are missing: all of those are
    counted, and if [exact] only those. *)
Definition drops_counted (exact : Prop) (ann : list (Change ty)) v : Prop :=
  ∃ d : nat, dropped v = int64 (Z.of_nat d) ∧ length ann ≤ length (kept v) + d ∧ d ≤ length ann
    ∧ (exact → length ann = length (kept v) + d).

Record run_ok (exact : Prop) (def : denote ty) (s : St ty) : Prop := {
  ro_value : value_ok (val s);
  ro_sub : kept (val s) `sublist_of` announced s;
  ro_last : last (kept (val s)) = last (announced s);
  ro_dropped : drops_counted exact (announced s) (val s);
  ro_shown : closed (val s) = false → shown_last def (announced s) (val s) }.

Lemma shown_last_due def ann v v' :
  shown_last def ann v → shown_last def (ann ++ due (GetWithNull v) (GetWithNull v')) v'.
Proof.
  unfold shown_last, due, GetWithNull. simpl.
  destruct (Bool.eqb (isSet v) (isSet v') && equal ty (current v) (current v')) eqn:E.
  - apply andb_true_iff in E as [E1%Bool.eqb_prop E2]. rewrite app_nil_r, <- E1.
    destruct (match last ann with Some c => _ | None => _ end) as [x null].
    intros [-> [<-|H]]; split; eauto using equal_trans.
  - intros _. rewrite last_snoc. simpl. rewrite Bool.negb_involutive. auto.
Qed.

(** An update in whose middle the consumers do not empty the queue. *)
Definition brief (r : race) : Prop := before_drain r < channel_cap.

Lemma queued_counted (exact : Prop) r v v' ann new :
  (exact → brief r) → queued r v v' new → drops_counted exact ann v → drops_counted exact (ann ++ new) v'.
Proof.
  intros Hbr Hq (d & Hd & Hle & Hmax & Hex). destruct Hq as [[Hk Hd']|(c & -> & Hd' & [[Hk Hr]|(l & x & l' & Hk & Hk')])].
  - exists d. rewrite Hd', Hk, !length_app. split_and!; [done|lia|lia|]. intros He. specialize (Hex He). lia.
  - exists (S d). rewrite Hd', Hd, int64_add_l, Hk, !length_app. simpl. split_and!; [f_equal; lia|lia|lia|].
    intros He. unfold brief in Hbr. specialize (Hbr He). lia.
  - exists (S d). rewrite Hd', Hd, int64_add_l, Hk', !length_app. rewrite Hk, length_app in Hle, Hex. simpl in *.
    split_and!; [f_equal; lia|lia|lia|]. intros He. specialize (Hex He). lia.
Qed.

Lemma queued_kept r v v' ann new :
  queued r v v' new → kept v `sublist_of` ann → last (kept v) = last ann →
  kept v' `sublist_of` ann ++ new ∧ last (kept v') = last (ann ++ new).
Proof.
  intros Hq Hsub Hlast. destruct Hq as [[-> _]|(c & -> & _ & [[-> _]|(l & x & l' & Hk & ->)])].
  - rewrite !(last_app _ new), Hlast. split; [by apply sublist_app|done].
  - rewrite !last_snoc. split; [by apply sublist_app|done].
  - rewrite app_assoc, !last_snoc. split; [|done]. apply sublist_app; [|done]. rewrite <- Hsub, Hk.
    apply sublist_app; [done|]. by apply sublist_cons.
Qed.

Lemma apply_run_ok (exact : Prop) def r otv s :
  (exact → brief r) → run_ok exact def s → ∃ s', vstep (OApply r otv) s = Some s' ∧ run_ok exact def s'.
Proof.
  intros Hbr [Hv Hsub Hlast Hdrop Hshown]. destruct s as [v ann]; simpl in *.
  destruct (apply_spec r otv v Hv) as (v' & -> & Hv' & _ & _ & Hcl & Hq). simpl. eexists. split; [done|].
  destruct (queued_kept _ _ _ _ _ Hq Hsub Hlast) as [Hsub' Hlast'].
  pose proof (queued_counted exact _ _ _ _ _ Hbr Hq Hdrop) as Hdrop'. split; simpl; try done.
  rewrite Hcl. intros Hc. rewrite Hc. apply shown_last_due. auto.
Qed.

Lemma receive_kept v c v' : receive v = Some (c, v') → v' = receives 1 v ∧ kept v' = kept v.
Proof.
  unfold receive, receives, receive, kept. destruct (changes v) as [|c' cs]; [done|]. intros [= <- <-]. simpl.
  by rewrite <- app_assoc.
Qed.

Lemma vstep_ok (exact : Prop) def op s :
  (exact → ∀ r otv, op = OApply r otv → brief r) →
  run_ok exact def s → ∃ s', vstep op s = Some s' ∧ run_ok exact def s'.
Proof.
  destruct op as [r otv| |]; intros Hbr Hs; [by apply apply_run_ok; eauto|..];
    destruct Hs as [Hv Hsub Hlast Hdrop Hshown]; destruct s as [v ann]; simpl in *.
  - rewrite (close_spec v Hv). simpl. eexists. split; [done|]. split; simpl; try done.
    split; simpl; [done|apply Hv].
  - destruct (receive v) as [[c v']|] eqn:E; [|by eexists]. apply receive_kept in E as [-> Hk].
    eexists. split; [done|]. destruct Hdrop as (d & ? & ? & ? & ?), Hv as [? Hl].
    rewrite receives_spec in *. split; simpl; rewrite ?Hk; try done.
    + split; simpl; [done|rewrite length_drop; lia].
    + exists d. by rewrite Hk.
Qed.

Lemma vrun_ok (exact : Prop) def ops s :
  (exact → ∀ r otv, OApply r otv ∈ ops → brief r) →
  run_ok exact def s → ∃ s', vrun ops s = Some s' ∧ run_ok exact def s'.
Proof.
  revert s. induction ops as [|op ops IH]; intros s Hbr Hs; simpl; [by exists s|].
  destruct (vstep_ok exact def op s) as (s' & -> & Hs'); [|done|].
  - intros He r otv ->. apply (Hbr He r otv). by left.
  - apply IH; [|done]. intros He r otv Hin. apply (Hbr He r otv). by right.
Qed.

(** C29: Whatever the order of updates, close and receives, with receives of
    consumers also in the middle of an update that finds the channel full: no
    step panics, the queue never holds more than 16 changes, the changes received
    and queued are the transitions due, in their order and with some missing, the
    latest one is never lost, and as long as the value is open it is the value
    shown, up to the type's equality. The counter of drops counts every missing
    change, and no more than that if in no update the consumers empty the channel
    between the failed send and the drain; when they do, a drop is counted
    although nothing is lost ([WatcherFindings.drop_counted_nothing_lost]). *)
Theorem changes_keep_latest (def : denote ty) (ops : list vop) :
  ∃ s, vrun ops (mkSt (newValue def) []) = Some s
    ∧ length (changes (val s)) ≤ channel_cap
    ∧ received (val s) ++ changes (val s) `sublist_of` announced s
    ∧ last (received (val s) ++ changes (val s)) = last (announced s)
    ∧ (let missing := length (announced s) - length (received (val s) ++ changes (val s)) in
       ∃ d : nat, DroppedCount (val s) = int64 (Z.of_nat d) ∧ missing ≤ d ≤ length (announced s)
         ∧ ((∀ r otv, OApply r otv ∈ ops → before_drain r < channel_cap) → d = missing))
    ∧ (closed (val s) = false → shown_last def (announced s) (val s)).
Proof.
  set (exact := ∀ r otv, OApply r otv ∈ ops → before_drain r < channel_cap).
  destruct (vrun_ok exact def ops (mkSt (newValue def) [])) as (s & Hrun & [[_ Hcap] Hsub Hlast (d & Hd & Hle & Hmax & Hex) Hshown]).
  { done. }
  { split; simpl; auto using newValue_ok; [by exists 0|]. intros _. split; simpl; auto. }
  exists s. unfold kept in *. split_and!; try done. exists d. split_and!; [done|lia|lia|]. intros He. specialize (Hex He). lia.
Qed.
End facts.
End ValueFacts.
