(* ===== verification/Watcher.v ===== *)
(** * The watcher SDK

    [sdk/configwatcher/watcher.go] and [write.go]: registration of fields,
    [Start], [Close], the subscription loop and writes through the watcher, as
    threads over shared memory. A step is one section under the watcher's mutex
    or one operation on a value, a channel, the context or the transport, so a
    run is any interleaving of any number of callers with the loop. The lock is
    a guard: a section that takes it for writing waits for the loops over the
    fields, which hold it for reading. Closing a closed channel or sending on
    one is recorded as a panic.

    The transport is the other side of [GetConfig], [Subscribe] and [SetField],
    and every call of it can fail at any time. Of the server the model has the log
    of the changes it has committed, with their versions, and what it sends:
    [GetConfig] answers the newest version with its values; a stream begins with
    the changes from its start version on that are in the log when it is opened,
    in their order, read from the store and so with those of rollbacks; after them
    come live events, of which nothing is promised: any change of the log that the
    subscription asks for may come, at any time, in any order, more than once or
    never (a rollback sends none, a slow subscriber loses some). What a value
    looks like on each of the three ways is a parameter, [Rendering]: the service
    shows a null as an empty text in one answer and as absent in another, and
    redacts. *)
From S2P Require Import Prelude GoText GoFloat GoTime WatchValue.
Import TypedValue (TypedValue).

(** ** Field entries: a registered value with its type *)
Definition fieldEntry : Type := {ty : vtype & Value.Value ty}.
Definition entry_map (f : ∀ ty, Value.Value ty → option (Value.Value ty)) (e : fieldEntry) :
    option fieldEntry :=
  match e with existT ty v => existT ty <$> f ty v end.

(** [typedUpdate], and [rawUpdate] with the empty text for an absent value. *)
Definition entry_apply (r : race) (otv : option TypedValue) : fieldEntry → option fieldEntry :=
  entry_map (λ _, Value.apply r otv).
(** [closeFunc]. *)
Definition entry_close : fieldEntry → option fieldEntry := entry_map (λ _, Value.close).
(** A receive of the consumer. *)
Definition entry_receive : fieldEntry → option fieldEntry :=
  entry_map (λ _ v, snd <$> Value.receive v).
Definition entry_closed (e : fieldEntry) : bool := match e with existT _ v => Value.closed v end.
(** The value and its null state are those of the server's value. *)
Definition entry_shows (e : fieldEntry) (otv : option TypedValue) : Prop :=
  match e with existT ty v => Value.GetWithNull v = reads ty (Value.defaultVal v) otv end.

(** ** The server *)
Record change := mkChange { c_ver : Z; c_path : string; c_value : option TypedValue }.
Record Server := mkServer { log : list change; version : Z }.

Definition in_version (n : Z) (p : string) (c : change) : bool :=
  bool_decide (c_path c = p) && (c_ver c <=? n)%Z.
(** The value of a path at version [n]. *)
Definition value_at (n : Z) (p : string) (l : list change) : option TypedValue :=
  c ← last (filter (λ c, in_version n p c) l); c_value c.
(** How a value of a path is shown in the answer of [GetConfig], in the replay of
    a subscription and in a live event. *)
Inductive channel := Snapshot | Replay | Live.
Class Rendering := render : channel → string → option TypedValue → option TypedValue.
(** The answer of [GetConfig]. *)
Definition snapshot `{Rendering} (s : Server) : list (string * option TypedValue) :=
  (λ c, (c_path c, render Snapshot (c_path c) (value_at (version s) (c_path c) (log s)))) <$> log s.
Definition commit (cs : list (string * option TypedValue)) (s : Server) : Server :=
  let n := (version s + 1)%Z in
  mkServer (log s ++ ((λ '(p, v), mkChange n p v) <$> cs)) n.

(** ** State *)
Inductive werror := ErrStarted | ErrClosed | ErrSnapshot.

Record Watcher := mkWatcher {
  fields : gmap string nat; started : bool; closed : bool;
  (* [cancel], once assigned, with whether its context is done *)
  cancel : option bool; cancelReady : nat; done : bool }.

(** Values and channels are referred to by their index; a channel is whether
    it is closed. *)
Record Memory := mkMemory { heap : list fieldEntry; chans : list bool; panicked : bool }.

(** The map a snapshot is turned into, and the entries still to visit of a
    range over [w.fields]. *)
Abbreviation values := (gmap string (option TypedValue)).
Abbreviation entries := (gmap string nat).

Inductive start_pc :=
| SLoad | SApply (v : Z) (vals : values) (todo : entries) | SAssign (v : Z) | SReady (v : Z) | SSpawn (v : Z)
| SCloseOld (old : nat) | SReturned (err : option werror).

Inductive close_pc :=
| CWait (ready : nat) | CCancel | CDone | CLock | CValues (all todo : entries)
| CReturned (all : entries) | CAgain.

Inductive loop_pc :=
| LStart (v : Z)
| LSubscribe (v backoff : Z) (paths : list string)
(* the stream replays the first [base] changes of the log and is at [pos] of them;
   [live] remembers the last live event of each path *)
| LStream (v backoff : Z) (paths : list string) (base pos : nat) (live : gmap string nat)
| LFailed (v backoff : Z) (paths : list string)
| LWait (v backoff : Z) (paths : list string)
| LReload (v backoff : Z) (paths : list string)
| LApply (v : Z) (paths : list string) (vals : values) (todo : entries)
| LExit.

Inductive set_pc :=
| SetSent (p : string) (tv : TypedValue) | SetLooked (p : string) (id : option nat) (tv : TypedValue)
| SetReturned.

Record Threads := mkThreads {
  starts : list start_pc; closers : list close_pc; loops : list loop_pc; sets : list set_pc }.

(** [touched] remembers the paths a write through the watcher has updated. *)
Record St := mkSt {
  w : Watcher; mem : Memory; thr : Threads; srv : Server; touched : gset string }.

(** ** Updates of the state *)
Definition with_w (x : Watcher) (s : St) : St := mkSt x (mem s) (thr s) (srv s) (touched s).
Definition with_mem (m : Memory) (s : St) : St := mkSt (w s) m (thr s) (srv s) (touched s).
Definition with_srv (x : Server) (s : St) : St := mkSt (w s) (mem s) (thr s) x (touched s).
Definition with_thr (t : Threads) (s : St) : St := mkSt (w s) (mem s) t (srv s) (touched s).
Definition touch (p : string) (s : St) : St := mkSt (w s) (mem s) (thr s) (srv s) ({[p]} ∪ touched s).

Definition goto_start (i : nat) (pc : start_pc) (s : St) : St :=
  with_thr (mkThreads (<[i := pc]> (starts (thr s))) (closers (thr s)) (loops (thr s)) (sets (thr s))) s.
Definition goto_close (i : nat) (pc : close_pc) (s : St) : St :=
  with_thr (mkThreads (starts (thr s)) (<[i := pc]> (closers (thr s))) (loops (thr s)) (sets (thr s))) s.
Definition goto_loop (i : nat) (pc : loop_pc) (s : St) : St :=
  with_thr (mkThreads (starts (thr s)) (closers (thr s)) (<[i := pc]> (loops (thr s))) (sets (thr s))) s.
Definition goto_set (i : nat) (pc : set_pc) (s : St) : St :=
  with_thr (mkThreads (starts (thr s)) (closers (thr s)) (loops (thr s)) (<[i := pc]> (sets (thr s)))) s.
Definition spawn_start (pc : start_pc) (s : St) : St :=
  with_thr (mkThreads (starts (thr s) ++ [pc]) (closers (thr s)) (loops (thr s)) (sets (thr s))) s.
Definition spawn_close (pc : close_pc) (s : St) : St :=
  with_thr (mkThreads (starts (thr s)) (closers (thr s) ++ [pc]) (loops (thr s)) (sets (thr s))) s.
Definition spawn_loop (pc : loop_pc) (s : St) : St :=
  with_thr (mkThreads (starts (thr s)) (closers (thr s)) (loops (thr s) ++ [pc]) (sets (thr s))) s.
Definition spawn_set (pc : set_pc) (s : St) : St :=
  with_thr (mkThreads (starts (thr s)) (closers (thr s)) (loops (thr s)) (sets (thr s) ++ [pc])) s.

Definition panic (s : St) : St := with_mem (mkMemory (heap (mem s)) (chans (mem s)) true) s.

Definition set_cancel (b : bool) (x : Watcher) : Watcher :=
  mkWatcher (fields x) (started x) (closed x) (Some b) (cancelReady x) (done x).

(** [close(ch)] of a channel of the memory, and of [w.done]. *)
Definition close_chan (c : nat) (s : St) : St :=
  match chans (mem s) !! c with
  | Some false => with_mem (mkMemory (heap (mem s)) (<[c := true]> (chans (mem s))) (panicked (mem s))) s
  | _ => panic s
  end.
Definition close_done (s : St) : St :=
  if done (w s) then panic s
  else with_w (mkWatcher (fields (w s)) (started (w s)) (closed (w s)) (cancel (w s)) (cancelReady (w s)) true) s.

(** A method of the value at [id]. *)
Definition at_entry (f : fieldEntry → option fieldEntry) (id : nat) (s : St) : St :=
  match heap (mem s) !! id with
  | Some e =>
      match f e with
      | Some e => with_mem (mkMemory (<[id := e]> (heap (mem s))) (chans (mem s)) (panicked (mem s))) s
      | None => panic s
      end
  | None => panic s
  end.

(** ** The lock: who holds it for reading *)
Definition start_reads (pc : start_pc) : bool := match pc with SApply _ _ _ => true | _ => false end.
Definition close_reads (pc : close_pc) : bool := match pc with CValues _ _ => true | _ => false end.
Definition loop_reads (pc : loop_pc) : bool := match pc with LApply _ _ _ _ => true | _ => false end.
Definition rlocked (s : St) : bool :=
  existsb start_reads (starts (thr s)) || existsb close_reads (closers (thr s))
  || existsb loop_reads (loops (thr s)).

(** ** Operations *)
Definition New : St :=
  mkSt (mkWatcher ∅ false false None 0 false) (mkMemory [] [false] false) (mkThreads [] [] [] [])
       (mkServer [] 0) ∅.

(** [registerField] with the value [newValue] of a type and its default: the
    handle is the index of the value. *)
Definition registerField (path : string) (ty : vtype) (defaultVal : denote ty) (s : St) :
    result werror nat * St :=
  if started (w s) then (Err ErrStarted, s)
  else
    let id := length (heap (mem s)) in
    (Ok id,
     with_mem (mkMemory (heap (mem s) ++ [existT ty (Value.newValue defaultVal)]) (chans (mem s)) (panicked (mem s)))
       (with_w (mkWatcher (<[path := id]> (fields (w s))) (started (w s)) (closed (w s)) (cancel (w s))
                  (cancelReady (w s)) (done (w s))) s)).

(** The first section of [Start]. *)
Definition Start_begin (s : St) : St :=
  if closed (w s) then spawn_start (SReturned (Some ErrClosed)) s
  else if started (w s) then spawn_start (SReturned None) s
  else spawn_start SLoad
         (with_w (mkWatcher (fields (w s)) true (closed (w s)) (cancel (w s)) (cancelReady (w s)) (done (w s))) s).

(** The map of the values of a response, a later one replacing an earlier. *)
Definition values_of (resp : list (string * option TypedValue)) : values :=
  foldl (λ m x, <[x.1 := x.2]> m) ∅ resp.
(** The value [loadSnapshot] gives to a path: [ok && tv != nil]. *)
Definition loaded (vals : values) (p : string) : option TypedValue := mjoin (vals !! p).

(** The section that rolls a failed [Start] back. *)
Definition Start_rollback (i : nat) (s : St) : St :=
  let old := cancelReady (w s) in
  goto_start i (SCloseOld old)
    (with_mem (mkMemory (heap (mem s)) (chans (mem s) ++ [false]) (panicked (mem s)))
      (with_w (mkWatcher (fields (w s)) false (closed (w s)) (cancel (w s)) (length (chans (mem s))) (done (w s))) s)).

(** The first section of [Close]. *)
Definition Close_begin (s : St) : St :=
  if closed (w s) then spawn_close CAgain s
  else spawn_close (if started (w s) then CWait (cancelReady (w s)) else CLock)
         (with_w (mkWatcher (fields (w s)) (started (w s)) true (cancel (w s)) (cancelReady (w s)) (done (w s))) s).

(** ** Threads

    What the surroundings decide at a step: a call of the transport answers or
    fails (or a timer fires before the context is done), a range over a map visits
    a path, a stream brings the next change of its replay or a live event; and, for
    an update of a value, what its consumers receive in the middle of it. *)
Inductive choice := Answer | Fail | Pick (p : string) (r : race) | Next (r : race) | Event (n : nat) (r : race).

(** One entry of a range over the fields. *)
Definition visit (f : string → fieldEntry → option fieldEntry) (p : string) (todo : entries) (s : St) :
    option (entries * St) :=
  id ← todo !! p; Some (delete p todo, at_entry (f p) id s).

(** [Start] after its first section. *)
Definition start_step `{Rendering} (i : nat) (c : choice) (s : St) : option St :=
  pc ← starts (thr s) !! i;
  match pc, c with
  | SLoad, Answer =>
      Some (goto_start i (SApply (version (srv s)) (values_of (snapshot (srv s))) (fields (w s))) s)
  | SLoad, Fail => if rlocked s then None else Some (Start_rollback i s)
  | SApply v vals todo, Pick p r =>
      '(todo, s) ← visit (λ p, entry_apply r (loaded vals p)) p todo s; Some (goto_start i (SApply v vals todo) s)
  | SApply v vals todo, Answer => if bool_decide (todo = ∅) then Some (goto_start i (SAssign v) s) else None
  | SAssign v, (Answer | Fail) =>   (* the caller's context is done already on [Fail] *)
      if rlocked s then None
      else Some (goto_start i (SReady v)
                   (with_w (set_cancel (match c with Fail => true | _ => false end) (w s)) s))
  | SReady v, Answer => Some (goto_start i (SSpawn v) (close_chan (cancelReady (w s)) s))
  | SSpawn v, Answer => Some (goto_start i (SReturned None) (spawn_loop (LStart v) s))
  | SCloseOld old, Answer => Some (goto_start i (SReturned (Some ErrSnapshot)) (close_chan old s))
  | _, _ => None
  end.

(** [Close] after its first section. *)
Definition close_step (i : nat) (c : choice) (s : St) : option St :=
  pc ← closers (thr s) !! i;
  match pc, c with
  | CWait ready, Answer =>
      if bool_decide (chans (mem s) !! ready = Some true) then Some (goto_close i CCancel s) else None
  | CCancel, Answer =>
      match cancel (w s) with
      | Some _ => Some (goto_close i CDone (with_w (set_cancel true (w s)) s))
      | None => Some (goto_close i CLock s)
      end
  | CDone, Answer => if done (w s) then Some (goto_close i CLock s) else None
  | CLock, Answer => Some (goto_close i (CValues (fields (w s)) (fields (w s))) s)
  | CValues all todo, Pick p _ =>
      '(todo, s) ← visit (λ _, entry_close) p todo s; Some (goto_close i (CValues all todo) s)
  | CValues all todo, Answer =>
      if bool_decide (todo = ∅) then Some (goto_close i (CReturned all) s) else None
  | _, _ => None
  end.

(** Whether the stream of a subscription delivers a change: [startVersion] is
    an [int32], and no paths mean all. *)
Definition startVersion (v : Z) : Z := int32 (v + 1).
Definition delivers (v : Z) (paths : list string) (c : change) : bool :=
  (startVersion v <=? c_ver c)%Z && (bool_decide (paths = []) || bool_decide (c_path c ∈ paths)).

(** The body of [subscribe]'s loop. *)
Definition deliver `{Rendering} (r : race) (ch : channel) (c : change) (s : St) : St :=
  match fields (w s) !! c_path c with
  | Some id => at_entry (entry_apply r (render ch (c_path c) (c_value c))) id s
  | None => s
  end.

Section loop.
Context `{Rendering} (minBackoff maxBackoff : Z).

Definition next_backoff (b : Z) : Z := Z.min (int64 (b * 2)) maxBackoff.
Definition ctx_done (s : St) : bool := bool_decide (cancel (w s) = Some true).

(** [subscriptionLoop]. *)
Definition loop_step (i : nat) (c : choice) (s : St) : option St :=
  pc ← loops (thr s) !! i;
  match pc, c with
  | LStart v, Answer => Some (goto_loop i (LSubscribe v minBackoff (elements (dom (fields (w s))))) s)
  | LSubscribe v b ps, Answer => Some (goto_loop i (LStream v b ps (length (log (srv s))) 0 ∅) s)
  | LSubscribe v b ps, Fail => Some (goto_loop i (LFailed v b ps) s)
  | LStream v b ps base k live, Next r =>
      if k <? base then
        c ← log (srv s) !! k;
        Some (goto_loop i (LStream v b ps base (S k) live) (if delivers v ps c then deliver r Replay c s else s))
      else None
  | LStream v b ps base k live, Event n r =>
      if k =? base then
        c ← log (srv s) !! n;
        if delivers v ps c
        then Some (goto_loop i (LStream v b ps base k (<[c_path c := n]> live)) (deliver r Live c s))
        else None
      else None
  | LStream v b ps base k live, Fail => Some (goto_loop i (LFailed v b ps) s)
  | LFailed v b ps, Answer =>
      if ctx_done s then Some (goto_loop i LExit (close_done s)) else Some (goto_loop i (LWait v b ps) s)
  | LWait v b ps, Fail => if ctx_done s then Some (goto_loop i LExit (close_done s)) else None
  | LWait v b ps, Answer => Some (goto_loop i (LReload v (next_backoff b) ps) s)
  | LReload v b ps, Answer =>
      Some (goto_loop i (LApply (version (srv s)) ps (values_of (snapshot (srv s))) (fields (w s))) s)
  | LReload v b ps, Fail => Some (goto_loop i (LSubscribe v b ps) s)
  | LApply v ps vals todo, Pick p r =>
      '(todo, s) ← visit (λ p, entry_apply r (loaded vals p)) p todo s; Some (goto_loop i (LApply v ps vals todo) s)
  | LApply v ps vals todo, Answer =>
      if bool_decide (todo = ∅) then Some (goto_loop i (LSubscribe v minBackoff ps) s) else None
  | _, _ => None
  end.

(** [set] after the server has committed: the lookup under the lock, then the
    update of the entry found. *)
Definition set_step (i : nat) (r : race) (s : St) : option St :=
  pc ← sets (thr s) !! i;
  match pc with
  | SetSent p tv => Some (goto_set i (SetLooked p (fields (w s) !! p) tv) s)
  | SetLooked p (Some id) tv =>
      Some (goto_set i SetReturned (touch p (at_entry (entry_apply r (Some tv)) id s)))
  | SetLooked p None tv => Some (goto_set i SetReturned s)
  | SetReturned => None
  end.

(** ** The system *)
Inductive action :=
| ARegister (path : string) (ty : vtype) (defaultVal : denote ty)
| AStart | AStartStep (i : nat) (c : choice)
| AClose | ACloseStep (i : nat) (c : choice)
| ALoopStep (i : nat) (c : choice)
| ASet (p : string) (tv : TypedValue) (cs : list (string * option TypedValue)) | ASetStep (i : nat) (r : race)
| ACommit (cs : list (string * option TypedValue))
| ACancelCtx
| AReceive (id : nat).

(** The server's versions are [int32]: it refuses a write past the last. *)
Definition can_commit (s : St) : bool := (version (srv s) <? max_int32)%Z.

Definition step (a : action) (s : St) : option St :=
  match a with
  | ARegister path ty d => if rlocked s then None else Some (registerField path ty d s).2
  | AStart => if rlocked s then None else Some (Start_begin s)
  | AStartStep i c => start_step i c s
  | AClose => if rlocked s then None else Some (Close_begin s)
  | ACloseStep i c => close_step i c s
  | ALoopStep i c => loop_step i c s
  | ASet p tv cs =>
      if can_commit s then Some (spawn_set (SetSent p tv) (with_srv (commit cs (srv s)) s)) else None
  | ASetStep i r => set_step i r s
  | ACommit cs => if can_commit s then Some (with_srv (commit cs (srv s)) s) else None
  | ACancelCtx =>
      match cancel (w s) with Some _ => Some (with_w (set_cancel true (w s)) s) | None => None end
  | AReceive id =>
      e ← heap (mem s) !! id; e ← entry_receive e;
      Some (with_mem (mkMemory (<[id := e]> (heap (mem s))) (chans (mem s)) (panicked (mem s))) s)
  end.

Fixpoint run (l : list action) (s : St) : option St :=
  match l with [] => Some s | a :: l => s ← step a s; run l s end.

Definition steps (s s' : St) : Prop := ∃ a, step a s = Some s'.
Definition reachable (s : St) : Prop := rtc steps New s.
End loop.
