(* ===== verification/WatcherFacts.v ===== *)
(** * Properties of the watcher

    Three invariants of the reachable states, each over the part of the state
    it needs: the life cycle (who may start, close and run the loop, and which
    channels are closed), the memory (handles and values), and the data (what
    a value shows compared with the server). *)
From S2P Require Import Prelude GoText GoFloat GoTime WatchValue Watcher.
Import TypedValue (TypedValue).

(** The result of a step, from the conditions of its branch. *)
Ltac step_inv :=
  repeat match goal with
  | H : Some _ = Some _ |- _ => injection H as H; try subst
  | H : None = Some _ |- _ => discriminate H
  | H : (if bool_decide ?P then _ else _) = Some _ |- _ => case_bool_decide; simpl in H
  | H : (if ?b then _ else _) = Some _ |- _ =>
      lazymatch type of b with bool => destruct b eqn:?; simpl in H end
  | H : visit _ _ _ _ ≫= _ = Some _ |- _ =>
      let Hv := fresh "Hvisit" in apply bind_Some in H as ([? ?] & Hv & H); simpl in H
  end.

(** ** The life cycle *)
Module Life.

(** The part of the state that the life cycle is about. *)
Record view := mkView {
  v_started : bool; v_closed : bool; v_cancel : option bool; v_ready : nat; v_done : bool;
  v_chans : list bool; v_starts : list start_pc; v_closers : list close_pc; v_loops : list loop_pc }.
Definition life_of (s : St) : view :=
  mkView (started (w s)) (closed (w s)) (cancel (w s)) (cancelReady (w s)) (done (w s))
    (chans (mem s)) (starts (thr s)) (closers (thr s)) (loops (thr s)).

Definition active (pc : start_pc) : bool :=
  match pc with SLoad | SApply _ _ _ | SAssign _ | SReady _ | SSpawn _ => true | _ => false end.
Definition assigned (pc : start_pc) : bool :=
  match pc with SReady _ | SSpawn _ => true | _ => false end.
Definition signalled (pc : start_pc) : bool := match pc with SSpawn _ => true | _ => false end.
Definition exited (l : loop_pc) : bool := match l with LExit => true | _ => false end.

(** Nobody is starting, one call of [Start] is, or the loop has been spawned. *)
Inductive phase := Idle | Active (i : nat) (pc : start_pc) | Running (l : loop_pc).

Definition none_active (v : view) : Prop := ∀ j pc, v_starts v !! j = Some pc → active pc = false.
Definition in_phase (ph : phase) (v : view) : Prop :=
  match ph with
  | Idle => v_started v = false ∧ v_cancel v = None ∧ v_loops v = [] ∧ v_done v = false
      ∧ v_chans v !! v_ready v = Some false ∧ none_active v
  | Active i pc => v_started v = true ∧ bool_decide (is_Some (v_cancel v)) = assigned pc ∧ v_loops v = []
      ∧ v_done v = false ∧ v_chans v !! v_ready v = Some (signalled pc)
      ∧ v_starts v !! i = Some pc ∧ active pc = true
      ∧ (∀ j pc', v_starts v !! j = Some pc' → active pc' = true → j = i)
  | Running l => v_started v = true ∧ is_Some (v_cancel v) ∧ v_loops v = [l] ∧ v_done v = exited l
      ∧ v_chans v !! v_ready v = Some true ∧ none_active v
  end.

(** The channels of earlier attempts: each is closed, or a call of [Start] is
    about to close it. *)
Record olds_ok (v : view) : Prop := {
  oo_len : length (v_chans v) = S (v_ready v);
  oo_open c : c < v_ready v → v_chans v !! c = Some false → ∃ i, v_starts v !! i = Some (SCloseOld c);
  oo_old i c : v_starts v !! i = Some (SCloseOld c) → c < v_ready v ∧ v_chans v !! c = Some false;
  oo_one i j c : v_starts v !! i = Some (SCloseOld c) → v_starts v !! j = Some (SCloseOld c) → i = j }.

(** The one call of [Close] that does the work, at each of its steps. *)
Definition spawned (ph : phase) : bool :=
  match ph with Running _ => true | Active _ (SSpawn _) => true | _ => false end.
Definition over (ph : phase) : bool := match ph with Idle => true | Running LExit => true | _ => false end.
Definition closer_at (ph : phase) (v : view) (pc : close_pc) : Prop :=
  match pc with
  | CWait r => match ph with Idle => r < v_ready v | _ => r = v_ready v end
  | CCancel => ph = Idle ∨ spawned ph = true
  | CDone => spawned ph = true ∧ v_cancel v = Some true
  | CLock | CValues _ _ | CReturned _ => over ph = true
  | CAgain => True
  end.
Definition worker (pc : close_pc) : bool := match pc with CAgain => false | _ => true end.
Record closers_ok (ph : phase) (v : view) : Prop := {
  co_at j pc : v_closers v !! j = Some pc → closer_at ph v pc;
  co_closed j pc : v_closers v !! j = Some pc → worker pc = true → v_closed v = true;
  co_one i j pc pc' : v_closers v !! i = Some pc → v_closers v !! j = Some pc' →
    worker pc = true → worker pc' = true → i = j;
  co_some : v_closed v = true → ∃ j pc, v_closers v !! j = Some pc ∧ worker pc = true }.

Record life_ok (ph : phase) (v : view) : Prop := {
  lo_phase : in_phase ph v; lo_olds : olds_ok v; lo_closers : closers_ok ph v }.

Lemma init_life : life_ok Idle (life_of New).
Proof. split; split; simpl; try done; try lia; try naive_solver lia. Qed.

(** *** Frames *)
Lemma life_at_entry f id s : life_of (at_entry f id s) = life_of s.
Proof. unfold at_entry. destruct (heap (mem s) !! id) as [e|]; [destruct (f e)|]; done. Qed.
Lemma life_deliver `{Rendering} r ch c s : life_of (deliver r ch c s) = life_of s.
Proof. unfold deliver. destruct (fields (w s) !! c_path c); [apply life_at_entry|done]. Qed.
Lemma life_register path ty d s : life_of (registerField path ty d s).2 = life_of s.
Proof.
  unfold registerField. destruct (started (w s)) eqn:E; [done|]. unfold life_of. simpl. by rewrite E.
Qed.
Lemma visit_at_entry f p todo s todo' s' :
  visit f p todo s = Some (todo', s') →
  ∃ id, todo !! p = Some id ∧ todo' = delete p todo ∧ s' = at_entry (f p) id s.
Proof. unfold visit. destruct (todo !! p); simpl; [intros [= <- <-]; eauto|done]. Qed.

(** *** Moves of [Start] *)
Definition vstart (i : nat) (pc : start_pc) (v : view) : view :=
  mkView (v_started v) (v_closed v) (v_cancel v) (v_ready v) (v_done v) (v_chans v)
    (<[i := pc]> (v_starts v)) (v_closers v) (v_loops v).
Definition not_old (pc : start_pc) : Prop := match pc with SCloseOld _ => False | _ => True end.

(** A thread that neither holds an old channel nor takes one. *)
Lemma olds_move i pc pc' v v' :
  v_starts v !! i = Some pc → not_old pc → not_old pc' →
  v_starts v' = <[i := pc']> (v_starts v) → v_ready v' = v_ready v → length (v_chans v') = length (v_chans v) →
  (∀ c, c < v_ready v → v_chans v' !! c = v_chans v !! c) →
  olds_ok v → olds_ok v'.
Proof.
  intros Hi Hpc Hpc' Hst Hr Hlen Hch [Hl Hopen Hold Hone].
  assert (∀ j c, v_starts v' !! j = Some (SCloseOld c) ↔ v_starts v !! j = Some (SCloseOld c)) as Hiff.
  { intros j c. rewrite Hst. destruct (decide (i = j)) as [<-|]; [|by rewrite list_lookup_insert_ne].
    rewrite list_lookup_insert_eq by (by eapply lookup_lt_Some). rewrite Hi.
    split; intros [= ->]; done. }
  split.
  - by rewrite Hlen, Hr.
  - intros c Hc. rewrite Hr in Hc. rewrite (Hch c Hc). intros H. destruct (Hopen c Hc H) as [j Hj].
    exists j. by apply Hiff.
  - intros j c Hj%Hiff. destruct (Hold j c Hj) as [? ?]. rewrite Hr, Hch by done. done.
  - intros j j' c Hj%Hiff Hj'%Hiff. by eapply Hone.
Qed.

(** The closers see of a step of the others only the phase, the channel they
    wait for and the context. *)
Lemma closers_frame ph ph' v v' :
  v_closers v' = v_closers v → v_closed v' = v_closed v →
  (∀ j pc, v_closers v !! j = Some pc → closer_at ph v pc → closer_at ph' v' pc) →
  closers_ok ph v → closers_ok ph' v'.
Proof.
  intros Hc Hcl Hat [H1 H2 H3 H4]. split; rewrite ?Hc, ?Hcl; eauto.
Qed.

Ltac frame_closers H :=
  match type of H with closers_ok ?ph ?v =>
  match goal with |- closers_ok ?ph' ?v' => apply (closers_frame ph ph' v v' eq_refl eq_refl); [|exact H] end end.

Lemma active_move i pc pc' v :
  life_ok (Active i pc) v → active pc' = true → assigned pc' = assigned pc → signalled pc' = signalled pc →
  life_ok (Active i pc') (vstart i pc' v).
Proof.
  intros [(Hs & Hc & Hl & Hd & Hch & Hi & Ha & Hu) Ho Hcl] Ha' Has Hsig.
  assert (i < length (v_starts v)) as Hlt by (by eapply lookup_lt_Some).
  split.
  - simpl. rewrite list_lookup_insert_eq by done. split_and!; try done; try congruence.
    intros j pc0 [(-> & _ & _)|[? Hj]]%list_lookup_insert_Some ?; eauto.
  - eapply (olds_move i pc pc'); try done; by destruct pc, pc'.
  - frame_closers Hcl. intros j pc0 _. destruct pc0; simpl; try done.
    + intros [?|?]; [done|right]. by destruct pc, pc'.
    + intros [? ?]. split; [by destruct pc, pc'|done].
Qed.

Lemma assign_move i vr b v :
  life_ok (Active i (SAssign vr)) v →
  life_ok (Active i (SReady vr))
    (mkView (v_started v) (v_closed v) (Some b) (v_ready v) (v_done v) (v_chans v)
       (<[i := SReady vr]> (v_starts v)) (v_closers v) (v_loops v)).
Proof.
  intros [(Hs & Hc & Hl & Hd & Hch & Hi & Ha & Hu) Ho Hcl].
  assert (i < length (v_starts v)) as Hlt by (by eapply lookup_lt_Some).
  split.
  - simpl. rewrite list_lookup_insert_eq by done. split_and!; try done.
    intros j pc0 [(-> & _ & _)|[? Hj]]%list_lookup_insert_Some ?; eauto.
  - by eapply (olds_move i (SAssign vr) (SReady vr)).
  - frame_closers Hcl. intros j pc0 _. destruct pc0; simpl; naive_solver.
Qed.

Lemma ready_move i vr v :
  life_ok (Active i (SReady vr)) v →
  life_ok (Active i (SSpawn vr))
    (mkView (v_started v) (v_closed v) (v_cancel v) (v_ready v) (v_done v) (<[v_ready v := true]> (v_chans v))
       (<[i := SSpawn vr]> (v_starts v)) (v_closers v) (v_loops v)).
Proof.
  intros [(Hs & Hc & Hl & Hd & Hch & Hi & Ha & Hu) Ho Hcl].
  assert (i < length (v_starts v)) as Hlt by (by eapply lookup_lt_Some).
  assert (v_ready v < length (v_chans v)) as Hlc by (by eapply lookup_lt_Some).
  split.
  - simpl. rewrite !list_lookup_insert_eq by done. split_and!; try done.
    intros j pc0 [(-> & _ & _)|[? Hj]]%list_lookup_insert_Some ?; eauto.
  - eapply (olds_move i (SReady vr) (SSpawn vr)); simpl; try done; [by rewrite length_insert|].
    intros c ?. rewrite list_lookup_insert_ne by lia. done.
  - frame_closers Hcl. intros j pc0 _. destruct pc0; simpl; naive_solver.
Qed.

Lemma spawn_move i vr v :
  life_ok (Active i (SSpawn vr)) v →
  life_ok (Running (LStart vr))
    (mkView (v_started v) (v_closed v) (v_cancel v) (v_ready v) (v_done v) (v_chans v)
       (<[i := SReturned None]> (v_starts v)) (v_closers v) (v_loops v ++ [LStart vr])).
Proof.
  intros [(Hs & Hc & Hl & Hd & Hch & Hi & Ha & Hu) Ho Hcl].
  split.
  - simpl in *. rewrite Hl. apply bool_decide_eq_true in Hc. split_and!; try done.
    intros j pc0 [(-> & <- & _)|[? Hj]]%list_lookup_insert_Some; [done|].
    destruct (active pc0) eqn:E; [|done]. by rewrite (Hu j pc0 Hj E) in *.
  - by eapply (olds_move i (SSpawn vr) (SReturned None)).
  - frame_closers Hcl. intros j pc0 _. destruct pc0; simpl; naive_solver.
Qed.

Lemma rollback_move i v :
  life_ok (Active i SLoad) v →
  life_ok Idle
    (mkView false (v_closed v) (v_cancel v) (length (v_chans v)) (v_done v) (v_chans v ++ [false])
       (<[i := SCloseOld (v_ready v)]> (v_starts v)) (v_closers v) (v_loops v)).
Proof.
  intros [(Hs & Hc & Hl & Hd & Hch & Hi & Ha & Hu) [Hlen Hopen Hold Hone] Hcl].
  assert (i < length (v_starts v)) as Hlt by (by eapply lookup_lt_Some).
  assert (v_cancel v = None) as Hn by (apply bool_decide_eq_false in Hc; by apply eq_None_not_Some).
  split.
  - simpl. rewrite lookup_snoc_Some. split_and!; auto.
    intros j pc0 [(-> & <- & _)|[? Hj]]%list_lookup_insert_Some; [done|].
    destruct (active pc0) eqn:E; [|done]. by rewrite (Hu j pc0 Hj E) in *.
  - split; simpl.
    + rewrite length_app. simpl. lia.
    + intros c Hc'. rewrite lookup_app_l by lia. intros Hf.
      destruct (decide (c = v_ready v)) as [->|].
      { exists i. by rewrite list_lookup_insert_eq. }
      destruct (Hopen c ltac:(lia) Hf) as [j Hj]. exists j.
      rewrite list_lookup_insert_ne; [done|]. intros ->. by rewrite Hi in Hj.
    + intros j c [(-> & [= <-] & _)|[? Hj]]%list_lookup_insert_Some.
      { rewrite lookup_app_l by lia. split; [lia|done]. }
      destruct (Hold j c Hj) as [? Hf]. rewrite lookup_app_l by lia. split; [lia|done].
    + intros j j' c [(-> & [= <-] & _)|[? Hj]]%list_lookup_insert_Some
        [(? & ? & _)|[? Hj']]%list_lookup_insert_Some; simplify_eq; try done; eauto.
      * destruct (Hold _ _ Hj'). lia.
      * destruct (Hold _ _ Hj). lia.
  - frame_closers Hcl. intros j pc0 _. clear -Hlen. destruct pc0; simpl; try (intros; (done || auto || naive_solver)). lia.
Qed.

Lemma close_old_move ph i c err v :
  life_ok ph v → v_starts v !! i = Some (SCloseOld c) →
  v_chans v !! c = Some false
  ∧ life_ok ph
    (mkView (v_started v) (v_closed v) (v_cancel v) (v_ready v) (v_done v) (<[c := true]> (v_chans v))
       (<[i := SReturned err]> (v_starts v)) (v_closers v) (v_loops v)).
Proof.
  intros [Hp Ho Hcl] Hi. pose proof Ho as [Hlen Hopen Hold Hone].
  destruct (Hold i c Hi) as [Hlt Hf]. split; [done|].
  assert (∀ j pc, <[i := SReturned err]> (v_starts v) !! j = Some pc → active pc = true →
                  v_starts v !! j = Some pc) as Hact.
  { intros j pc [(-> & <- & _)|[? Hj]]%list_lookup_insert_Some ?; done. }
  assert (∀ j pc, v_starts v !! j = Some pc → active pc = true → i ≠ j) as Hne.
  { intros j pc Hj ? <-. rewrite Hi in Hj. by simplify_eq. }
  assert (<[c := true]> (v_chans v) !! v_ready v = v_chans v !! v_ready v) as Hr
    by (apply list_lookup_insert_ne; lia).
  assert (none_active v →
    none_active (mkView (v_started v) (v_closed v) (v_cancel v) (v_ready v) (v_done v) (<[c := true]> (v_chans v))
       (<[i := SReturned err]> (v_starts v)) (v_closers v) (v_loops v))) as Hna.
  { intros Hna j pc Hj. simpl in Hj. destruct (active pc) eqn:E; [|done]. by rewrite <- E, (Hna j pc) by eauto. }
  split.
  - destruct ph as [|i' pc|l]; simpl in *; rewrite Hr.
    + destruct Hp as (?&?&?&?&?&?). split_and!; auto.
    + destruct Hp as (?&?&?&?&?&?&?&?). split_and!; eauto.
      rewrite list_lookup_insert_ne by eauto. done.
    + destruct Hp as (?&?&?&?&?&?). split_and!; auto.
  - split; simpl.
    + by rewrite length_insert.
    + intros c' Hc'. destruct (decide (c' = c)) as [->|].
      { rewrite list_lookup_insert_eq by lia. done. }
      rewrite list_lookup_insert_ne by done. intros Hf'. destruct (Hopen c' Hc' Hf') as [j Hj].
      exists j. rewrite list_lookup_insert_ne; [done|]. intros ->. rewrite Hi in Hj. by simplify_eq.
    + intros j c' [(_ & [=] & _)|[Hij Hj]]%list_lookup_insert_Some.
      destruct (Hold j c' Hj) as [? ?]. split; [done|]. rewrite list_lookup_insert_ne; [done|].
      intros ->. by apply Hij, (Hone i j c').
    + intros j j' c' [(_ & [=] & _)|[? Hj]]%list_lookup_insert_Some
        [(_ & [=] & _)|[? Hj']]%list_lookup_insert_Some. eauto.
  - by frame_closers Hcl.
Qed.

(** A new call of [Start] that returns at once, and one that goes on. *)
Lemma start_joins ph v v' pc :
  life_ok ph v → not_old pc → v_starts v' = v_starts v ++ [pc] →
  v_ready v' = v_ready v → v_chans v' = v_chans v → olds_ok v'.
Proof.
  intros [_ [Hlen Hopen Hold Hone] _] Hpc Hst Hr Hch.
  assert (∀ j c, v_starts v' !! j = Some (SCloseOld c) ↔ v_starts v !! j = Some (SCloseOld c)) as Hiff.
  { intros j c. rewrite Hst, lookup_snoc_Some. split.
    - intros [[_ ?]|[_ ->]]; done.
    - intros Hj. left. split; [by eapply lookup_lt_Some|done]. }
  split; rewrite ?Hr, ?Hch; [done| | |].
  - intros c ? ?. destruct (Hopen c) as [j ?]; [done..|]. exists j. by apply Hiff.
  - intros j c Hj%Hiff. eauto.
  - intros j j' c Hj%Hiff Hj'%Hiff. eauto.
Qed.

Lemma start_refused ph err v :
  life_ok ph v →
  life_ok ph
    (mkView (v_started v) (v_closed v) (v_cancel v) (v_ready v) (v_done v) (v_chans v)
       (v_starts v ++ [SReturned err]) (v_closers v) (v_loops v)).
Proof.
  intros Hl. pose proof Hl as [Hp Ho Hcl].
  assert (∀ j pc, (v_starts v ++ [SReturned err]) !! j = Some pc → active pc = true → v_starts v !! j = Some pc) as Hact.
  { intros j pc [[_ ?]|[_ <-]]%lookup_snoc_Some ?; done. }
  split.
  - destruct ph as [|i' pc|l]; simpl in *.
    + destruct Hp as (?&?&?&?&?&Hna). split_and!; auto.
      intros j pc Hj. destruct (active pc) eqn:E; [|done]. by rewrite <- E, (Hna j pc) by eauto.
    + destruct Hp as (?&?&?&?&?&?&?&?). split_and!; eauto. by apply lookup_app_l_Some.
    + destruct Hp as (?&?&?&?&?&Hna). split_and!; auto.
      intros j pc Hj. destruct (active pc) eqn:E; [|done]. by rewrite <- E, (Hna j pc) by eauto.
  - by apply (start_joins ph v _ (SReturned err)).
  - by frame_closers Hcl.
Qed.

Lemma start_accepted v :
  life_ok Idle v → v_closed v = false →
  life_ok (Active (length (v_starts v)) SLoad)
    (mkView true (v_closed v) (v_cancel v) (v_ready v) (v_done v) (v_chans v)
       (v_starts v ++ [SLoad]) (v_closers v) (v_loops v)).
Proof.
  intros Hl Hnc. pose proof Hl as [(?&Hca&?&?&?&Hna) Ho Hcl]. split.
  - simpl. rewrite Hca. split_and!; auto.
    + rewrite lookup_snoc_Some. auto.
    + intros j pc [[_ Hj]|[-> _]]%lookup_snoc_Some Ha; [|done]. by rewrite (Hna j pc Hj) in Ha.
  - by apply (start_joins Idle v _ SLoad).
  - frame_closers Hcl. intros j pc Hj _. assert (worker pc = false) as Hw.
    { destruct (worker pc) eqn:E; [|done]. by rewrite (co_closed _ _ Hcl j pc Hj E) in Hnc. }
    by destruct pc.
Qed.

(** *** Moves of [Close] *)
Definition vclose (j : nat) (pc : close_pc) (v : view) : view :=
  mkView (v_started v) (v_closed v) (v_cancel v) (v_ready v) (v_done v) (v_chans v)
    (v_starts v) (<[j := pc]> (v_closers v)) (v_loops v).

Lemma closer_move ph j pc pc' v :
  life_ok ph v → v_closers v !! j = Some pc → worker pc = true → worker pc' = true →
  closer_at ph v pc' → life_ok ph (vclose j pc' v).
Proof.
  intros [Hp [Hlen Hopen Hold Hone] [Hat Hcl H1 Hsome]] Hj Hw Hw' Hpc. split.
  - by destruct ph.
  - by split.
  - split; simpl.
    + intros j' pc0 [(-> & <- & _)|[? Hj']]%list_lookup_insert_Some; [by destruct pc'|].
      specialize (Hat _ _ Hj'). by destruct pc0.
    + intros j' pc0 _ _. by eapply Hcl.
    + intros i' j' pc0 pc1 [(<- & <- & _)|[? Hi']]%list_lookup_insert_Some
        [(<- & <- & _)|[? Hj']]%list_lookup_insert_Some; eauto.
    + intros _. exists j, pc'. split; [|done]. apply list_lookup_insert_eq. by eapply lookup_lt_Some.
Qed.

Lemma close_joins v :
  ∀ ph, life_ok ph v →
  life_ok ph
    (mkView (v_started v) true (v_cancel v) (v_ready v) (v_done v) (v_chans v) (v_starts v)
       (v_closers v ++ [if v_closed v then CAgain
                        else if v_started v then CWait (v_ready v) else CLock]) (v_loops v)).
Proof.
  intros ph [Hp [Hlen Hopen Hold Hone] [Hat Hcl H1 Hsome]]. set (pc := if v_closed v then _ else _).
  assert (worker pc = true → v_closed v = false) as Hpc by (unfold pc; by destruct (v_closed v)).
  split.
  - by destruct ph.
  - by split.
  - split; simpl.
    + intros j pc0 [[_ Hj]|[-> <-]]%lookup_snoc_Some; [specialize (Hat _ _ Hj); by destruct pc0|].
      unfold pc. destruct (v_closed v); [done|].
      destruct ph; simpl in Hp; destruct Hp as (-> & _); done.
    + done.
    + intros i j pc0 pc1 [[_ Hi]|[-> <-]]%lookup_snoc_Some [[_ Hj]|[-> <-]]%lookup_snoc_Some ??; eauto.
      * assert (v_closed v = true) by eauto. rewrite Hpc in * by done. done.
      * assert (v_closed v = true) by eauto. rewrite Hpc in * by done. done.
    + intros _. destruct (v_closed v) eqn:E.
      * destruct (Hsome eq_refl) as (j & pc0 & Hj & ?). exists j, pc0. split; [by apply lookup_app_l_Some|done].
      * exists (length (v_closers v)), pc. split; [rewrite lookup_snoc_Some; auto|].
        unfold pc. by destruct (v_started v).
Qed.

(** *** The context and the loop *)
Lemma cancel_move ph v :
  life_ok ph v → is_Some (v_cancel v) →
  life_ok ph
    (mkView (v_started v) (v_closed v) (Some true) (v_ready v) (v_done v) (v_chans v)
       (v_starts v) (v_closers v) (v_loops v)).
Proof.
  intros [Hp [Hlen Hopen Hold Hone] Hcl] Hc. split.
  - destruct ph; simpl in *.
    + destruct Hp as (_ & Hn & _). rewrite Hn in Hc. by destruct Hc.
    + destruct Hp as (?&Ha&?&?&?&?&?&?). rewrite bool_decide_eq_true_2 in Ha by done. split_and!; auto.
    + destruct Hp as (?&?&?&?&?&?). split_and!; eauto.
  - by split.
  - frame_closers Hcl. intros j pc _. destruct pc; simpl; naive_solver.
Qed.

Lemma loop_move l l' v :
  life_ok (Running l) v → exited l = false →
  life_ok (Running l')
    (mkView (v_started v) (v_closed v) (v_cancel v) (v_ready v) (exited l') (v_chans v)
       (v_starts v) (v_closers v) [l']).
Proof.
  intros [Hp [Hlen Hopen Hold Hone] Hcl] Hl. split.
  - simpl in *. destruct Hp as (?&?&?&?&?&?). split_and!; auto.
  - by split.
  - frame_closers Hcl. intros j pc _. clear -Hl. destruct pc; simpl; auto; destruct l; naive_solver.
Qed.

(** *** Every step keeps the life cycle *)
Lemma active_phase ph i pc v :
  life_ok ph v → v_starts v !! i = Some pc → active pc = true → ph = Active i pc.
Proof.
  intros [Hp _ _] Hi Ha. destruct ph as [|i' pc'|l]; simpl in Hp.
  - destruct Hp as (_&_&_&_&_&Hna). by rewrite (Hna i pc Hi) in Ha.
  - destruct Hp as (_&_&_&_&_&Hi'&_&Hu). rewrite <- (Hu i pc Hi Ha) in *. by simplify_eq.
  - destruct Hp as (_&_&_&_&_&Hna). by rewrite (Hna i pc Hi) in Ha.
Qed.

Lemma loop_phase ph i l v :
  life_ok ph v → v_loops v !! i = Some l → ph = Running l ∧ i = 0 ∧ v_loops v = [l].
Proof.
  intros [Hp _ _] Hi. destruct ph as [|i' pc'|l']; simpl in Hp.
  - destruct Hp as (_&_&Hl&_). by rewrite Hl in Hi.
  - destruct Hp as (_&_&Hl&_). by rewrite Hl in Hi.
  - destruct Hp as (_&_&Hl&_). rewrite Hl in *. by apply list_lookup_singleton_Some in Hi as [-> ->].
Qed.

Lemma close_chan_ok c s :
  chans (mem s) !! c = Some false →
  close_chan c s = with_mem (mkMemory (heap (mem s)) (<[c := true]> (chans (mem s))) (panicked (mem s))) s.
Proof. intros H. unfold close_chan. by rewrite H. Qed.

Lemma start_step_life `{Rendering} ph i c s s' :
  life_ok ph (life_of s) → start_step i c s = Some s' → ∃ ph', life_ok ph' (life_of s').
Proof.
  intros Hl. unfold start_step. destruct (starts (thr s) !! i) as [pc|] eqn:Hi; [|done]. simpl.
  assert (active pc = true → ph = Active i pc) as Hph by (intros; by eapply active_phase).
  destruct pc as [|v vals todo|v|v|v|old|err], c as [| |p rc|rc|n rc]; try done; simpl in Hph; intros Hstep;
    try (rewrite Hph in Hl by done); step_inv; subst.
  - eexists. by apply (active_move i SLoad (SApply _ _ _) (life_of s)).
  - eexists. by apply (rollback_move i (life_of s)).
  - eexists. by apply (active_move i (SApply v vals ∅) (SAssign v) (life_of s)).
  - apply visit_at_entry in Hvisit as (id & _ & -> & ->).
    eexists. change (life_of (goto_start i ?pc ?s1)) with (vstart i pc (life_of s1)).
    rewrite life_at_entry. by apply (active_move i (SApply v vals todo) _ (life_of s)).
  - eexists. by apply (assign_move i v _ (life_of s)).
  - eexists. by apply (assign_move i v _ (life_of s)).
  - rewrite close_chan_ok by apply (lo_phase _ _ Hl). eexists. by apply (ready_move i v (life_of s)).
  - eexists. by apply (spawn_move i v (life_of s)).
  - destruct (close_old_move ph i old (Some ErrSnapshot) _ Hl Hi) as [Hf Hl'].
    rewrite close_chan_ok by done. by exists ph.
Qed.

Lemma spawned_cancel ph v : life_ok ph v → spawned ph = true → is_Some (v_cancel v).
Proof.
  intros [Hp _ _]. destruct ph as [|i pc|l]; simpl in *; [done| |by intros _; apply Hp].
  destruct pc; try done. intros _. by apply (bool_decide_eq_true_1 _ (proj1 (proj2 Hp))).
Qed.

(** The wait for [ready] ends only when there is nothing to cancel or the
    cancel function is assigned. *)
Lemma ready_phase ph r v :
  life_ok ph v → closer_at ph v (CWait r) → v_chans v !! r = Some true → closer_at ph v CCancel.
Proof.
  intros [Hp _ _]. destruct ph as [|i pc|l]; simpl in *; auto.
  intros -> Hr. destruct Hp as (_&_&_&_&Hc&_). rewrite Hc in Hr. right. by destruct pc.
Qed.

Lemma done_phase ph v : life_ok ph v → spawned ph = true → v_done v = true → over ph = true.
Proof.
  intros [Hp _ _]. destruct ph as [|i pc|l]; simpl in *; [done| |].
  - destruct Hp as (_&_&_&Hd&_). by rewrite Hd.
  - destruct Hp as (_&_&_&Hd&_). rewrite Hd. by destruct l.
Qed.

Lemma close_step_life ph i c s s' :
  life_ok ph (life_of s) → close_step i c s = Some s' → life_ok ph (life_of s').
Proof.
  intros Hl. unfold close_step. destruct (closers (thr s) !! i) as [pc|] eqn:Hi; [|done]. simpl.
  pose proof (co_at _ _ (lo_closers _ _ Hl) i pc Hi) as Hat.
  destruct pc as [r| | | |all todo|all|], c as [| |p rc|rc|n rc]; try done; intros Hstep; step_inv.
  - apply (closer_move ph i (CWait r) CCancel (life_of s)); eauto using ready_phase.
  - destruct (cancel (w s)) as [b|] eqn:Hc; step_inv.
    + assert (is_Some (v_cancel (life_of s))) as Hsome by (simpl; rewrite Hc; eauto).
      destruct Hat as [->|Hsp].
      { destruct (lo_phase _ _ Hl) as (_ & Hn & _). rewrite Hn in Hsome. by destruct Hsome. }
      by apply (closer_move ph i CCancel CDone _ (cancel_move ph _ Hl Hsome)).
    + apply (closer_move ph i CCancel CLock (life_of s)); try done. simpl.
      destruct Hat as [->|Hsp]; [done|]. destruct (spawned_cancel _ _ Hl Hsp) as [? Hs]. simpl in Hs. congruence.
  - apply (closer_move ph i CDone CLock (life_of s)); try done. destruct Hat. by eapply done_phase.
  - by apply (closer_move ph i CLock (CValues _ _) (life_of s)).
  - by eapply (closer_move ph i (CValues all _) (CReturned all) (life_of s)).
  - apply visit_at_entry in Hvisit as (id & _ & -> & ->).
    change (life_of (goto_close i ?pc ?s1)) with (vclose i pc (life_of s1)). rewrite life_at_entry.
    by apply (closer_move ph i (CValues all todo) (CValues all _) (life_of s)).
Qed.

Lemma close_done_ok s : done (w s) = false →
  close_done s = with_w (mkWatcher (fields (w s)) (started (w s)) (closed (w s)) (cancel (w s)) (cancelReady (w s)) true) s.
Proof. unfold close_done. by intros ->. Qed.

Lemma loop_step_life `{Rendering} mn mx ph i c s s' :
  life_ok ph (life_of s) → loop_step mn mx i c s = Some s' → ∃ ph', life_ok ph' (life_of s').
Proof.
  intros Hl. unfold loop_step. destruct (loops (thr s) !! i) as [l|] eqn:Hi; [|done]. simpl.
  destruct (loop_phase ph i l _ Hl Hi) as (-> & -> & Hloops). simpl in Hloops.
  assert (∀ s1 l', life_of s1 = life_of s → exited l = false → exited l' = false →
            life_ok (Running l') (life_of (goto_loop 0 l' s1))) as Hmove.
  { intros s1 l' Hs1 He He'. pose proof (loop_move l l' _ Hl He) as Hm. rewrite He', <- Hs1 in Hm.
    destruct (lo_phase _ _ Hl) as (_&_&_&Hd&_). rewrite He, <- Hs1 in Hd. simpl in Hd.
    unfold life_of. simpl. rewrite Hd. assert (loops (thr s1) = [l]) as ->; [|exact Hm].
    rewrite <- Hloops. by injection Hs1. }
  assert (exited l = false → life_ok (Running LExit) (life_of (goto_loop 0 LExit (close_done s)))) as Hexit.
  { intros He. destruct (lo_phase _ _ Hl) as (_&_&_&Hd&_). rewrite He in Hd. rewrite close_done_ok by done.
    pose proof (loop_move l LExit _ Hl He) as Hm. unfold life_of in *. simpl in *. by rewrite Hloops. }
  destruct l as [v|v b ps|v b ps base k live|v b ps|v b ps|v b ps|v ps vals todo|], c as [| |p rc|rc|n rc]; try done;
    intros Hstep; step_inv; eauto.
  - destruct (log (srv s) !! k) as [ch|]; [|done]. simpl in Hstep. step_inv. eexists. apply Hmove; try done.
    destruct (delivers v ps ch); [apply life_deliver|done].
  - destruct (log (srv s) !! n) as [ch|]; [|done]. simpl in Hstep. step_inv. eexists. apply Hmove; try done. apply life_deliver.
  - apply visit_at_entry in Hvisit as (id & _ & -> & ->). eexists. apply Hmove; try done. apply life_at_entry.
Qed.

Lemma step_life `{Rendering} mn mx a ph s s' :
  life_ok ph (life_of s) → step mn mx a s = Some s' → ∃ ph', life_ok ph' (life_of s').
Proof.
  intros Hl. destruct a as [path ty d| |i c| |i c|i c|p tv cs|i r|cs| |id]; simpl; intros Hstep; step_inv;
    eauto using start_step_life, close_step_life, loop_step_life.
  - exists ph. by rewrite life_register.
  - unfold Start_begin. destruct (closed (w s)) eqn:Hc; [|destruct (started (w s)) eqn:Hst].
    + eexists. by apply (start_refused ph _ (life_of s)).
    + eexists. by apply (start_refused ph _ (life_of s)).
    + destruct ph as [| |]; [|by destruct (lo_phase _ _ Hl) as (Hs & _); simpl in Hs; congruence..].
      eexists. pose proof (start_accepted (life_of s) Hl Hc) as Ha. unfold life_of in *. simpl in *.
      rewrite Hc in Ha. exact Ha.
  - exists ph. pose proof (close_joins _ _ Hl) as Hj. unfold Close_begin, life_of in *. simpl in Hj.
    destruct (closed (w s)) eqn:Hc; simpl in *; [|done]. by rewrite Hc.
  - unfold set_step in Hstep. destruct (sets (thr s) !! i) as [[p tv|p [id|] tv|]|]; simpl in Hstep; step_inv;
      try done; exists ph; try exact Hl.
    change (life_of (goto_set i SetReturned (touch p ?s1))) with (life_of s1). by rewrite life_at_entry.
  - destruct (cancel (w s)) eqn:Hc; step_inv. exists ph. apply (cancel_move ph (life_of s) Hl). simpl. rewrite Hc. eauto.
  - destruct (heap (mem s) !! id) as [e|]; [|done]. simpl in Hstep.
    destruct (entry_receive e); simpl in Hstep; step_inv. by exists ph.
Qed.
End Life.

(** ** Memory: handles, values, and no panic *)
Module Mem.
Import Life.

Definition entry_ok (e : fieldEntry) : Prop := match e with existT _ v => ValueFacts.value_ok v end.
Definition closed_at (h : list fieldEntry) (id : nat) : Prop :=
  ∃ e, h !! id = Some e ∧ entry_closed e = true.
Definition valid (h : list fieldEntry) (m : gmap string nat) : Prop :=
  map_Forall (λ _ id, id < length h) m.

Definition start_mem (fs : gmap string nat) (pc : start_pc) : Prop :=
  match pc with SApply _ _ todo => todo ⊆ fs | _ => True end.
Definition loop_mem (fs : gmap string nat) (pc : loop_pc) : Prop :=
  match pc with LApply _ _ _ todo => todo ⊆ fs | _ => True end.
Definition set_mem (h : list fieldEntry) (pc : set_pc) : Prop :=
  match pc with SetLooked _ (Some id) _ => id < length h | _ => True end.
(** A close has closed what it has visited. *)
Definition closer_mem (st : bool) (fs : gmap string nat) (h : list fieldEntry) (pc : close_pc) : Prop :=
  match pc with
  | CValues all todo => valid h all ∧ todo ⊆ all ∧ (st = true → all = fs)
      ∧ ∀ p id, all !! p = Some id → todo !! p = None → closed_at h id
  | CReturned all => (st = true → all = fs) ∧ ∀ p id, all !! p = Some id → closed_at h id
  | _ => True
  end.

Record mem_ok (s : St) : Prop := {
  mo_entries : Forall entry_ok (heap (mem s));
  mo_fields : valid (heap (mem s)) (fields (w s));
  mo_starts : Forall (start_mem (fields (w s))) (starts (thr s));
  mo_loops : Forall (loop_mem (fields (w s))) (loops (thr s));
  mo_closers : Forall (closer_mem (started (w s)) (fields (w s)) (heap (mem s))) (closers (thr s));
  mo_sets : Forall (set_mem (heap (mem s))) (sets (thr s));
  mo_panic : panicked (mem s) = false }.

Lemma init_mem : mem_ok New.
Proof. split; simpl; auto. apply map_Forall_empty. Qed.

(** *** Methods of a value *)
Definition good (f : fieldEntry → option fieldEntry) : Prop :=
  ∀ e, entry_ok e → ∃ e', f e = Some e' ∧ entry_ok e' ∧ (entry_closed e = true → entry_closed e' = true).

Lemma good_apply r otv : good (entry_apply r otv).
Proof.
  intros [ty v] Hok. simpl in *. destruct (ValueFacts.apply_spec r otv v Hok) as (v' & -> & Hok' & _ & _ & Hc & _).
  eexists. split; [done|]. split; [done|]. simpl. by rewrite Hc.
Qed.
Lemma good_close : good entry_close.
Proof.
  intros [ty v] Hok. simpl in *. rewrite (ValueFacts.close_spec v Hok). eexists. split; [done|]. split; [|done].
  split; simpl; [done|apply Hok].
Qed.
Lemma close_closes e e' : entry_ok e → entry_close e = Some e' → entry_closed e' = true.
Proof.
  destruct e as [ty v]. unfold entry_close. simpl. intros Hok.
  by rewrite (ValueFacts.close_spec v Hok); intros [= <-].
Qed.

(** One heap that refines another: nothing disappears, nothing reopens. *)
Definition grows (h h' : list fieldEntry) : Prop :=
  length h ≤ length h' ∧ ∀ id, closed_at h id → closed_at h' id.
Lemma grows_refl h : grows h h.
Proof. split; auto. Qed.
Lemma grows_insert h id e e' :
  h !! id = Some e → (entry_closed e = true → entry_closed e' = true) → grows h (<[id := e']> h).
Proof.
  intros Hid Hc. split; [by rewrite length_insert|]. intros id' (e0 & He0 & Hcl).
  destruct (decide (id = id')) as [<-|].
  - simplify_eq. exists e'. split; [apply list_lookup_insert_eq; by eapply lookup_lt_Some|auto].
  - exists e0. by rewrite list_lookup_insert_ne.
Qed.
Lemma grows_app h l : grows h (h ++ l).
Proof.
  split; [rewrite length_app; lia|]. intros id (e & He & Hc). exists e. split; [by apply lookup_app_l_Some|done].
Qed.

Lemma valid_grows h h' m : grows h h' → valid h m → valid h' m.
Proof. intros [Hl _] Hv p id Hp. specialize (Hv p id Hp). simpl in *. lia. Qed.
Lemma closer_grows st fs h h' pc : grows h h' → closer_mem st fs h pc → closer_mem st fs h' pc.
Proof.
  intros Hg. destruct pc; simpl; try done.
  - intros (?&?&?&?). split_and!; eauto using valid_grows. intros. apply Hg. eauto.
  - intros [? ?]. split; [done|]. intros. apply Hg. eauto.
Qed.
Lemma set_grows h h' pc : grows h h' → set_mem h pc → set_mem h' pc.
Proof. intros [Hl _]. destruct pc as [|p [id|] tv|]; simpl; try done. lia. Qed.

Lemma heap_ok s h :
  mem_ok s → grows (heap (mem s)) h → Forall entry_ok h →
  mem_ok (with_mem (mkMemory h (chans (mem s)) (panicked (mem s))) s).
Proof.
  intros [H1 H2 H3 H4 H5 H6 H7] Hg Hh. split; simpl; eauto using valid_grows.
  - eapply Forall_impl; [done|]. eauto using closer_grows.
  - eapply Forall_impl; [done|]. eauto using set_grows.
Qed.

Lemma at_entry_spec f id s :
  mem_ok s → good f → id < length (heap (mem s)) →
  ∃ e e', heap (mem s) !! id = Some e ∧ f e = Some e' ∧ entry_ok e
    ∧ at_entry f id s = with_mem (mkMemory (<[id := e']> (heap (mem s))) (chans (mem s)) (panicked (mem s))) s
    ∧ mem_ok (at_entry f id s).
Proof.
  intros Hok Hf [e He]%lookup_lt_is_Some. pose proof (mo_entries s Hok) as Hall.
  rewrite Forall_lookup in Hall. destruct (Hf e (Hall _ _ He)) as (e' & Hfe & Hok' & Hc).
  exists e, e'. unfold at_entry. rewrite He, Hfe. split_and!; eauto.
  apply heap_ok; [done|by eapply grows_insert|]. apply Forall_insert; [apply Hok|done].
Qed.

(** *** Steps *)
Lemma goto_start_mem i pc s : mem_ok s → start_mem (fields (w s)) pc → mem_ok (goto_start i pc s).
Proof. intros [] ?. split; simpl; auto using Forall_insert. Qed.
Lemma goto_close_mem i pc s :
  mem_ok s → closer_mem (started (w s)) (fields (w s)) (heap (mem s)) pc → mem_ok (goto_close i pc s).
Proof. intros [] ?. split; simpl; auto using Forall_insert. Qed.
Lemma goto_loop_mem i pc s : mem_ok s → loop_mem (fields (w s)) pc → mem_ok (goto_loop i pc s).
Proof. intros [] ?. split; simpl; auto using Forall_insert. Qed.
Lemma goto_set_mem i pc s : mem_ok s → set_mem (heap (mem s)) pc → mem_ok (goto_set i pc s).
Proof. intros [] ?. split; simpl; auto using Forall_insert. Qed.
Lemma spawn_start_mem pc s : mem_ok s → start_mem (fields (w s)) pc → mem_ok (spawn_start pc s).
Proof. intros [] ?. split; simpl; auto using Forall_app_2. Qed.
Lemma spawn_close_mem pc s :
  mem_ok s → closer_mem (started (w s)) (fields (w s)) (heap (mem s)) pc → mem_ok (spawn_close pc s).
Proof. intros [] ?. split; simpl; auto using Forall_app_2. Qed.
Lemma spawn_loop_mem pc s : mem_ok s → loop_mem (fields (w s)) pc → mem_ok (spawn_loop pc s).
Proof. intros [] ?. split; simpl; auto using Forall_app_2. Qed.
Lemma spawn_set_mem pc s : mem_ok s → set_mem (heap (mem s)) pc → mem_ok (spawn_set pc s).
Proof. intros [] ?. split; simpl; auto using Forall_app_2. Qed.
Lemma with_srv_mem x s : mem_ok s → mem_ok (with_srv x s).
Proof. by intros []. Qed.
Lemma touch_mem p s : mem_ok s → mem_ok (touch p s).
Proof. by intros []. Qed.
Lemma set_cancel_mem b s : mem_ok s → mem_ok (with_w (set_cancel b (w s)) s).
Proof. by intros []. Qed.
Lemma close_chan_mem c s : mem_ok s → chans (mem s) !! c = Some false → mem_ok (close_chan c s).
Proof. intros [] Hc. rewrite close_chan_ok by done. by split. Qed.
Lemma close_done_mem s : mem_ok s → done (w s) = false → mem_ok (close_done s).
Proof. intros [] Hd. rewrite close_done_ok by done. by split. Qed.
Lemma fields_at_entry f id s : w (at_entry f id s) = w s.
Proof. unfold at_entry. destruct (heap (mem s) !! id) as [e|]; [destruct (f e)|]; done. Qed.
#[local] Hint Resolve goto_start_mem goto_close_mem goto_loop_mem goto_set_mem spawn_start_mem spawn_close_mem
  spawn_loop_mem spawn_set_mem with_srv_mem touch_mem set_cancel_mem close_chan_mem close_done_mem
  good_apply good_close : decree.

(** A visit of one entry of the fields. *)
Lemma visit_mem f fs p todo s todo' s' :
  mem_ok s → (∀ p, good (f p)) → valid (heap (mem s)) fs → todo ⊆ fs →
  visit f p todo s = Some (todo', s') →
  mem_ok s' ∧ w s' = w s ∧ thr s' = thr s ∧ todo' ⊆ fs ∧ todo' = delete p todo
  ∧ ∃ id e e', todo !! p = Some id ∧ heap (mem s) !! id = Some e ∧ f p e = Some e' ∧ entry_ok e
      ∧ heap (mem s') = <[id := e']> (heap (mem s)).
Proof.
  intros Hok Hf Hv Hsub (id & Hid & -> & ->)%visit_at_entry.
  assert (id < length (heap (mem s))) as Hlt by (eapply (Hv p), lookup_weaken; done).
  destruct (at_entry_spec (f p) id s Hok (Hf p) Hlt) as (e & e' & He & Hfe & Hoke & Heq & Hok').
  split_and!; [done|apply fields_at_entry|by rewrite Heq|by etrans; [apply delete_subseteq|]|done|].
  exists id, e, e'. by rewrite Heq.
Qed.

Lemma start_step_mem `{Rendering} ph i c s s' :
  life_ok ph (life_of s) → mem_ok s → start_step i c s = Some s' → mem_ok s'.
Proof.
  intros Hl Hok. unfold start_step. destruct (starts (thr s) !! i) as [pc|] eqn:Hi; [|done]. simpl.
  assert (active pc = true → ph = Active i pc) as Hph by (intros; by eapply active_phase).
  pose proof (proj1 (Forall_lookup _ _) (mo_starts s Hok) i pc Hi) as Hpc.
  destruct pc as [|v vals todo|v|v|v|old|err], c as [| |p rc|rc|n rc]; try done; simpl in Hph; intros Hstep;
    try (rewrite Hph in Hl by done); step_inv; subst.
  - apply goto_start_mem; [done|]. simpl. reflexivity.
  - apply goto_start_mem; [|done]. destruct Hok as [H1 H2 H3 H4 H5 H6 H7]. split; simpl; auto.
    eapply Forall_impl; [exact H5|]. intros []; simpl; naive_solver.
  - by apply goto_start_mem.
  - eapply visit_mem in Hvisit as (Hok' & Hw & _ & Hsub & _); eauto using good_apply; [|apply Hok].
    apply goto_start_mem; [done|]. simpl. by rewrite Hw.
  - by apply goto_start_mem; auto with decree.
  - by apply goto_start_mem; auto with decree.
  - apply goto_start_mem; [|done]. apply close_chan_mem; [done|]. apply (lo_phase _ _ Hl).
  - apply goto_start_mem; [|done]. by apply spawn_loop_mem.
  - apply goto_start_mem; [|done]. apply close_chan_mem; [done|].
    by apply (oo_old _ (lo_olds _ _ Hl) i old).
Qed.

Lemma close_step_mem i c s s' : mem_ok s → close_step i c s = Some s' → mem_ok s'.
Proof.
  intros Hok. unfold close_step. destruct (closers (thr s) !! i) as [pc|] eqn:Hi; [|done]. simpl.
  pose proof (proj1 (Forall_lookup _ _) (mo_closers s Hok) i pc Hi) as Hpc.
  destruct pc as [r| | | |all todo|all|], c as [| |p rc|rc|n rc]; try done; intros Hstep; step_inv.
  - by apply goto_close_mem.
  - destruct (cancel (w s)); step_inv; apply goto_close_mem; auto with decree; done.
  - by apply goto_close_mem.
  - apply goto_close_mem; [done|]. simpl. split_and!; [apply Hok|done|done|congruence].
  - destruct Hpc as (?&?&?&Hc). apply goto_close_mem; [done|]. simpl. split; [done|].
    intros p id Hp. apply (Hc p id Hp). subst. apply lookup_empty.
  - destruct Hpc as (Hv & Hsub & Hst & Hc).
    eapply visit_mem in Hvisit as (Hok' & Hw & Hthr & Hsub' & -> & id & e & e' & Hp & He & Hce & Hoke & Hh);
      eauto using good_close.
    apply goto_close_mem; [done|]. simpl. rewrite Hw, Hh.
    assert (grows (heap (mem s)) (<[id := e']> (heap (mem s)))) as Hg.
    { eapply grows_insert; [done|]. intros _. by eapply close_closes. }
    split_and!; eauto using valid_grows. intros q id' Hq. rewrite lookup_delete_None. intros [<-|Hn].
    + assert (id' = id) as -> by (eapply lookup_weaken in Hp; [|done]; congruence).
      exists e'. split; [apply list_lookup_insert_eq; by eapply lookup_lt_Some|by eapply close_closes].
    + apply Hg. eauto.
Qed.

Lemma deliver_mem `{Rendering} r ch c s :
  mem_ok s → mem_ok (deliver r ch c s) ∧ w (deliver r ch c s) = w s ∧ thr (deliver r ch c s) = thr s.
Proof.
  intros Hok. unfold deliver. destruct (fields (w s) !! c_path c) as [id|] eqn:Hid; [|done].
  destruct (at_entry_spec (entry_apply r (render ch (c_path c) (c_value c))) id s Hok (good_apply _ _)) as (e & e' & _ & _ & _ & Heq & Hok').
  { by apply (mo_fields s Hok (c_path c)). }
  split; [done|]. by rewrite Heq.
Qed.

Lemma loop_step_mem `{Rendering} mn mx ph i c s s' :
  life_ok ph (life_of s) → mem_ok s → loop_step mn mx i c s = Some s' → mem_ok s'.
Proof.
  intros Hl Hok. unfold loop_step. destruct (loops (thr s) !! i) as [l|] eqn:Hi; [|done]. simpl.
  destruct (loop_phase ph i l _ Hl Hi) as (-> & -> & Hloops).
  assert (exited l = false → mem_ok (goto_loop 0 LExit (close_done s))) as Hexit.
  { intros He. apply goto_loop_mem; [|done]. apply close_done_mem; [done|].
    destruct (lo_phase _ _ Hl) as (_&_&_&Hd&_). by rewrite He in Hd. }
  pose proof (proj1 (Forall_lookup _ _) (mo_loops s Hok) 0 l Hi) as Hpc.
  destruct l as [v|v b ps|v b ps base k live|v b ps|v b ps|v b ps|v ps vals todo|], c as [| |p rc|rc|n rc]; try done;
    intros Hstep; step_inv; auto; try (by apply goto_loop_mem).
  - destruct (log (srv s) !! k) as [ch|]; [|done]. simpl in Hstep. step_inv.
    apply goto_loop_mem; [|done]. destruct (delivers v ps ch); [|done]. by apply deliver_mem.
  - destruct (log (srv s) !! n) as [ch|]; [|done]. simpl in Hstep. step_inv. apply goto_loop_mem; [|done]. by apply deliver_mem.
  - apply goto_loop_mem; [done|]. simpl. reflexivity.
  - eapply visit_mem in Hvisit as (Hok' & Hw & _ & Hsub & _); eauto using good_apply; [|apply Hok].
    apply goto_loop_mem; [done|]. simpl. by rewrite Hw.
Qed.

Lemma no_reader {A} (f : A → bool) l : existsb f l = false → Forall (λ x, f x = false) l.
Proof. induction l as [|x l IH]; simpl; [done|]. intros [? ?]%orb_false_iff. auto. Qed.

Lemma register_mem path ty d s : mem_ok s → rlocked s = false → mem_ok (registerField path ty d s).2.
Proof.
  intros Hok [[Hr1%no_reader Hr2%no_reader]%orb_false_iff Hr3%no_reader]%orb_false_iff.
  unfold registerField. destruct (started (w s)) eqn:Hst; [done|]. simpl.
  destruct Hok as [H1 H2 H3 H4 H5 H6 H7].
  pose proof (grows_app (heap (mem s)) [existT ty (Value.newValue d)]) as Hg. split; simpl.
  - apply Forall_app_2; [done|]. apply Forall_singleton. apply ValueFacts.newValue_ok.
  - apply map_Forall_insert_2; [rewrite length_app; simpl; lia|by eapply valid_grows].
  - eapply Forall_impl; [exact Hr1|]. by intros [].
  - eapply Forall_impl; [exact Hr3|]. by intros [].
  - eapply Forall_impl; [apply Forall_and; split; [exact H5|exact Hr2]|]. rewrite Hst.
    intros pc [Hpc Hr]. destruct pc; simpl in *; try done. destruct Hpc as [_ Hc]. split; [done|].
    intros. apply Hg. eauto.
  - eapply Forall_impl; [exact H6|]. eauto using set_grows.
  - done.
Qed.

Lemma start_begin_mem ph s : life_ok ph (life_of s) → mem_ok s → mem_ok (Start_begin s).
Proof.
  intros Hl Hok. unfold Start_begin. destruct (closed (w s)) eqn:Hc; [by apply spawn_start_mem|].
  destruct (started (w s)) eqn:Hst; [by apply spawn_start_mem|].
  apply spawn_start_mem; [|done]. destruct Hok as [H1 H2 H3 H4 H5 H6 H7]. split; simpl; auto.
  apply Forall_lookup. intros j pc Hj.
  assert (worker pc = false) as Hw; [|by destruct pc].
  destruct (worker pc) eqn:E; [|done]. pose proof (co_closed _ _ (lo_closers _ _ Hl) j pc Hj E). simpl in *. congruence.
Qed.

Lemma receive_good e e' : entry_ok e → entry_receive e = Some e' →
  entry_ok e' ∧ entry_closed e' = entry_closed e.
Proof.
  destruct e as [ty v]. simpl. unfold Value.receive. intros [Hc Hl]. destruct (Value.changes v) as [|c cs] eqn:E; [done|].
  intros [= <-]. split; [|done]. split; simpl in *; [done|lia].
Qed.

Lemma step_mem `{Rendering} mn mx ph a s s' :
  life_ok ph (life_of s) → mem_ok s → step mn mx a s = Some s' → mem_ok s'.
Proof.
  intros Hl Hok. destruct a as [path ty d| |i c| |i c|i c|p tv cs|i r|cs| |id]; simpl; intros Hstep; step_inv;
    eauto using start_step_mem, close_step_mem, loop_step_mem, register_mem, start_begin_mem.
  - unfold Close_begin. destruct (closed (w s)); [by apply spawn_close_mem|].
    apply spawn_close_mem; [|by destruct (started (w s))]. by destruct Hok.
  - apply spawn_set_mem; [by apply with_srv_mem|done].
  - unfold set_step in Hstep. destruct (sets (thr s) !! i) as [pc|] eqn:Hi; [|done]. simpl in Hstep.
    pose proof (proj1 (Forall_lookup _ _) (mo_sets s Hok) i pc Hi) as Hpc.
    destruct pc as [p tv|p [id|] tv|]; step_inv; apply goto_set_mem; try done.
    + simpl. destruct (fields (w s) !! p) as [id|] eqn:Hp; [|done]. by apply (mo_fields s Hok p).
    + apply touch_mem.
      by destruct (at_entry_spec (entry_apply r (Some tv)) id s Hok (good_apply _ _) Hpc) as (? & ? & _ & _ & _ & _ & ?).
  - by apply with_srv_mem.
  - destruct (cancel (w s)); step_inv. by apply set_cancel_mem.
  - destruct (heap (mem s) !! id) as [e|] eqn:He; [|done]. simpl in Hstep.
    destruct (entry_receive e) as [e'|] eqn:Hr; [|done]. simpl in Hstep. step_inv.
    destruct (receive_good e e') as [Hok' Hc]; [|done|].
    { by apply (proj1 (Forall_lookup _ _) (mo_entries s Hok) id). }
    apply heap_ok; [done|eapply grows_insert; [done|by rewrite Hc]|]. apply Forall_insert; [apply Hok|done].
Qed.
End Mem.
