(* ===== verification/WatcherTheorems.v ===== *)
(** * Theorems on the watcher

    What holds in every interleaving of registrations, starts, closes, writes
    and the loop with a server that commits and fails at will: no panic and one
    loop at most, [Close] always finishes and leaves nothing running, the
    backoff stays in its range. *)
From S2P Require Import Prelude GoText GoFloat GoTime WatchValue Watcher WatcherFacts.
Import TypedValue (TypedValue).
Import Life Mem.

Section theorems.
Context {rd : Rendering} (minBackoff maxBackoff : Z).
Local Abbreviation step := (Watcher.step minBackoff maxBackoff).
Local Abbreviation reachable := (Watcher.reachable minBackoff maxBackoff).

Definition Inv (s : St) : Prop := (∃ ph, life_ok ph (life_of s)) ∧ mem_ok s.

Lemma Inv_step a s s' : Inv s → step a s = Some s' → Inv s'.
Proof. intros [[ph Hl] Hm] Hs. split; [by eapply step_life|by eapply step_mem]. Qed.

(** An invariant that every step keeps holds in every reachable state. *)
Lemma reachable_ind' (P : St → Prop) :
  P New → (∀ a s s', Inv s → P s → step a s = Some s' → P s') → ∀ s, reachable s → Inv s ∧ P s.
Proof.
  intros Hinit Hstep. apply (rtc_ind_r (λ s, Inv s ∧ P s)).
  - split; [|done]. split; [exists Idle; apply init_life|apply init_mem].
  - intros s s' _ [a Ha] [HI HP]. split; [by eapply Inv_step|by eapply Hstep].
Qed.
Lemma reachable_Inv s : reachable s → Inv s.
Proof. intros Hs. by apply (reachable_ind' (λ _, True)). Qed.

(** ** Safety of the life cycle *)

(** C37: However calls of registration, [Start], [Close], [Set] and the
    subscription loop interleave, no channel is closed twice or sent to when
    closed and no handle dangles, at most one call of [Start] is past its
    first section and at most one subscription loop ever runs, and [done] is
    closed exactly when that loop has exited. *)
Theorem watcher_life_safe s :
  reachable s →
  panicked (mem s) = false ∧ length (loops (thr s)) ≤ 1
  ∧ (done (w s) = true ↔ loops (thr s) = [LExit])
  ∧ (∀ i j pc pc', starts (thr s) !! i = Some pc → starts (thr s) !! j = Some pc' →
       active pc = true → active pc' = true → i = j).
Proof.
  intros [[ph Hl] Hm]%reachable_Inv. split; [apply Hm|]. pose proof (lo_phase _ _ Hl) as Hp.
  split_and!.
  - destruct ph; simpl in Hp; destruct Hp as (_&_&->&_); simpl; lia.
  - destruct ph as [| |l]; simpl in Hp; destruct Hp as (_&_&->&->&_); [done..|].
    split; [by destruct l|by intros [= ->]].
  - intros i j pc pc' Hi Hj Ha Ha'. pose proof (active_phase _ _ _ _ Hl Hi Ha).
    pose proof (active_phase _ _ _ _ Hl Hj Ha'). congruence.
Qed.

(** ** [Close] finishes *)

(** The steps that need no answer of the server: those of the watcher's own
    calls and of its loop in which every call of the transport fails. *)
Definition unattended (a : action) (s : St) : bool :=
  match a with
  | AStartStep i c =>
      match starts (thr s) !! i, c with Some SLoad, Answer => false | _, _ => true end
  | ACloseStep _ _ => true
  | ALoopStep i c =>
      match loops (thr s) !! i, c with
      | Some (LSubscribe _ _ _ | LReload _ _ _), Answer => false
      | Some (LStream _ _ _ _ _ _), (Next _ | Event _ _) => false
      | _, _ => true
      end
  | _ => false
  end.
Definition ustep (s s' : St) : Prop := ∃ a, unattended a s = true ∧ step a s = Some s'.

(** Weights that such steps can be chosen to decrease. *)
Definition start_weight (pc : start_pc) : nat :=
  match pc with
  | SLoad => 3 | SApply _ _ todo => 20 + size todo | SAssign _ => 19 | SReady _ => 18 | SSpawn _ => 17
  | SCloseOld _ => 1 | SReturned _ => 0
  end.
Definition loop_weight (pc : loop_pc) : nat :=
  match pc with
  | LStart _ => 5 | LSubscribe _ _ _ => 3 | LStream _ _ _ _ _ _ => 3 | LFailed _ _ _ => 2 | LWait _ _ _ => 1
  | LReload _ _ _ => 4 | LApply _ _ _ todo => 5 + size todo | LExit => 0
  end.
Definition close_weight (n : nat) (pc : close_pc) : nat :=
  match pc with
  | CWait _ => n + 6 | CCancel => n + 5 | CDone => n + 4 | CLock => n + 3 | CValues _ todo => size todo + 1
  | CReturned _ | CAgain => 0
  end.
Definition weight (j : nat) (s : St) : nat :=
  sum_list_with start_weight (starts (thr s)) + sum_list_with loop_weight (loops (thr s))
  + from_option (close_weight (size (fields (w s)))) 0 (closers (thr s) !! j).

Lemma sum_insert {A} (f : A → nat) i x y l :
  l !! i = Some y → sum_list_with f (<[i := x]> l) + f y = sum_list_with f l + f x.
Proof.
  revert i. induction l as [|z l IH]; intros [|i]; simpl; try done; [intros [= ->]; lia|].
  intros Hi. specialize (IH i Hi). lia.
Qed.

Lemma thr_at_entry f id s : thr (at_entry f id s) = thr s.
Proof. unfold at_entry. destruct (heap (mem s) !! id) as [e|]; [destruct (f e)|]; done. Qed.
Lemma thr_close_chan c s : thr (close_chan c s) = thr s.
Proof. unfold close_chan. destruct (chans (mem s) !! c) as [[]|]; done. Qed.
Lemma w_close_chan c s : w (close_chan c s) = w s.
Proof. unfold close_chan. destruct (chans (mem s) !! c) as [[]|]; done. Qed.

(** A writer of the lock never waits for the start it belongs to. *)
Lemma active_unlocked i pc s :
  life_ok (Active i pc) (life_of s) → start_reads pc = false → rlocked s = false.
Proof.
  intros [(Hst & _ & Hloops & _ & _ & Hi & _ & Hu) _ Hcl] Hpc. simpl in *.
  unfold rlocked. rewrite Hloops. simpl.
  assert (∀ {A} (f : A → bool) l, (∀ j x, l !! j = Some x → f x = false) → existsb f l = false) as Hall.
  { intros A f l Hf. destruct (existsb f l) eqn:E; [|done]. apply existsb_exists in E as (x & Hx & Hfx).
    apply list_elem_of_In, list_elem_of_lookup in Hx as [j Hj]. by rewrite (Hf j x Hj) in Hfx. }
  rewrite !Hall; [done| |].
  - intros j pc' Hj. pose proof (co_at _ _ Hcl j pc' Hj). by destruct pc'.
  - intros j pc' Hj. destruct (active pc') eqn:E; [|by destruct pc'].
    pose proof (Hu j pc' Hj E). by simplify_eq.
Qed.

(** One step of a thread that brings [Close] closer to its end. *)
Definition advances (j : nat) (s s' : St) : Prop :=
  ustep s s' ∧ weight j s' < weight j s.

Lemma visit_some f p (todo : gmap string nat) id s :
  todo !! p = Some id → visit f p todo s = Some (delete p todo, at_entry (f p) id s).
Proof. intros Hp. unfold visit. by rewrite Hp. Qed.

Lemma size_visit (todo : gmap string nat) p id : todo !! p = Some id → S (size (delete p todo)) = size todo.
Proof. intros Hp. rewrite map_size_delete_Some by eauto. assert (size todo ≠ 0); [|lia]. intros ?%map_size_empty_inv. by simplify_map_eq. Qed.

Lemma start_advances j i pc s :
  life_ok (Active i pc) (life_of s) →
  ∃ s', advances j s s' ∧ closers (thr s') = closers (thr s) ∧ closed (w s') = closed (w s).
Proof.
  intros Hl. pose proof (lo_phase _ _ Hl) as (_ & _ & Hloops & _ & _ & Hi & Ha & _). simpl in *.
  pose proof (λ x, sum_insert start_weight i x pc _ Hi) as Hsum.
  assert (start_reads pc = false → rlocked s = false) as Hlock by (intros; by eapply active_unlocked).
  assert (∀ c s', (pc = SLoad → c = Fail) → start_step i c s = Some s' → ustep s s') as Hu.
  { intros c s' Hc Hs. exists (AStartStep i c). split; [|done]. simpl. rewrite Hi.
    destruct pc; try done. by rewrite Hc. }
  destruct pc as [|v vals todo|v|v|v|old|err]; try done.
  - eexists. split; [split|].
    + apply (Hu Fail); [done|]. unfold start_step. rewrite Hi. simpl. by rewrite Hlock.
    + unfold weight. simpl. specialize (Hsum (SCloseOld (cancelReady (w s)))). simpl in *. lia.
    + done.
  - destruct (decide (todo = ∅)) as [->|Hne].
    + eexists. split; [split|].
      * apply (Hu Answer); [done|]. unfold start_step. rewrite Hi. simpl. done.
      * unfold weight. simpl. specialize (Hsum (SAssign v)). simpl in *. lia.
      * done.
    + apply map_choose in Hne as (p & id & Hp). eexists. split; [split|].
      * apply (Hu (Pick p undisturbed)); [done|]. unfold start_step. rewrite Hi. simpl. by rewrite (visit_some _ _ _ _ _ Hp).
      * unfold weight. simpl. rewrite thr_at_entry, fields_at_entry.
        specialize (Hsum (SApply v vals (delete p todo))). pose proof (size_visit _ _ _ Hp). simpl in *. lia.
      * simpl. by rewrite thr_at_entry, fields_at_entry.
  - eexists. split; [split|].
    + apply (Hu Answer); [done|]. unfold start_step. rewrite Hi. simpl. by rewrite Hlock.
    + unfold weight. simpl. specialize (Hsum (SReady v)). simpl in *. lia.
    + done.
  - eexists. split; [split|].
    + apply (Hu Answer); [done|]. unfold start_step. by rewrite Hi.
    + unfold weight. simpl. rewrite thr_close_chan, w_close_chan. specialize (Hsum (SSpawn v)). simpl in *. lia.
    + simpl. by rewrite thr_close_chan, w_close_chan.
  - eexists. split; [split|].
    + apply (Hu Answer); [done|]. unfold start_step. by rewrite Hi.
    + unfold weight. simpl. rewrite Hloops. specialize (Hsum (SReturned None)). simpl in *. lia.
    + done.
Qed.

Lemma old_advances j i c s :
  starts (thr s) !! i = Some (SCloseOld c) →
  ∃ s', advances j s s' ∧ closers (thr s') = closers (thr s) ∧ closed (w s') = closed (w s).
Proof.
  intros Hi. eexists. split; [split|].
  - exists (AStartStep i Answer). simpl. rewrite Hi. split; [done|]. unfold start_step. by rewrite Hi.
  - unfold weight. simpl. rewrite thr_close_chan, w_close_chan.
    pose proof (sum_insert start_weight i (SReturned (Some ErrSnapshot)) _ _ Hi). simpl in *. lia.
  - simpl. by rewrite thr_close_chan, w_close_chan.
Qed.

Lemma loop_advances j l s :
  life_ok (Running l) (life_of s) → exited l = false → cancel (w s) = Some true →
  ∃ s', advances j s s' ∧ closers (thr s') = closers (thr s) ∧ closed (w s') = closed (w s).
Proof.
  intros Hl He Hc. pose proof (lo_phase _ _ Hl) as (_ & _ & Hloops & Hd & _). simpl in *. rewrite He in Hd.
  assert (loops (thr s) !! 0 = Some l) as Hi by (by rewrite Hloops).
  assert (ctx_done s = true) as Hctx by (unfold ctx_done; by rewrite Hc).
  assert (∀ c s' s1 l', (match l with LSubscribe _ _ _ | LStream _ _ _ _ _ _ | LReload _ _ _ => c = Fail | _ => True end) →
    loop_step minBackoff maxBackoff 0 c s = Some s' → s' = goto_loop 0 l' s1 → thr s1 = thr s →
    closed (w s1) = closed (w s) → fields (w s1) = fields (w s) → loop_weight l' < loop_weight l →
    advances j s s' ∧ closers (thr s') = closers (thr s) ∧ closed (w s') = closed (w s)) as Hgo.
  { intros c s' s1 l' Hch Hs -> Ht Hcl Hf Hw. split_and!; [split|simpl; by rewrite Ht|done].
    - exists (ALoopStep 0 c). split; [|done]. simpl. rewrite Hi. destruct l, c; done.
    - unfold weight. simpl. rewrite Ht, Hf, Hloops. simpl. lia. }
  assert (thr (close_done s) = thr s ∧ closed (w (close_done s)) = closed (w s)
          ∧ fields (w (close_done s)) = fields (w s)) as (Ht & Hcl & Hf) by (by rewrite close_done_ok).
  unfold loop_step in Hgo. rewrite Hi in Hgo. simpl in Hgo.
  destruct l as [v|v b ps|v b ps base k live|v b ps|v b ps|v b ps|v ps vals todo|]; try done.
  - eexists. by eapply (Hgo Answer); simpl; eauto.
  - eexists. by eapply (Hgo Fail); simpl; eauto.
  - eexists. by eapply (Hgo Fail); simpl; eauto.
  - eexists. rewrite Hctx in Hgo. eapply (Hgo Answer); eauto; simpl; lia.
  - eexists. rewrite Hctx in Hgo. eapply (Hgo Fail); eauto; simpl; lia.
  - eexists. by eapply (Hgo Fail); simpl; eauto.
  - destruct (decide (todo = ∅)) as [->|Hne].
    + eexists. eapply (Hgo Answer); simpl; eauto; simpl; lia.
    + apply map_choose in Hne as (p & id & Hp). pose proof (size_visit _ _ _ Hp).
      eexists. eapply (Hgo (Pick p undisturbed)); [done|by rewrite (visit_some _ _ _ _ _ Hp)|done|apply thr_at_entry| | |].
      * by rewrite fields_at_entry.
      * by rewrite fields_at_entry.
      * simpl. lia.
Qed.

Definition returned (pc : close_pc) : bool := match pc with CReturned _ => true | _ => false end.

(** Some thread can always take the call that does the work one step on. *)
Lemma close_progress j pc s :
  Inv s → closers (thr s) !! j = Some pc → worker pc = true → returned pc = false →
  ∃ s' pc', advances j s s' ∧ closers (thr s') !! j = Some pc' ∧ worker pc' = true.
Proof.
  intros [[ph Hl] Hm] Hj Hw Hr. pose proof (co_at _ _ (lo_closers _ _ Hl) j pc Hj) as Hat.
  assert ((∃ s', advances j s s' ∧ closers (thr s') = closers (thr s) ∧ closed (w s') = closed (w s)) →
          ∃ s' pc', advances j s s' ∧ closers (thr s') !! j = Some pc' ∧ worker pc' = true) as Hother.
  { intros (s' & Ha & Hc & _). exists s', pc. by rewrite Hc. }
  assert (∀ c s' s1 pc', close_step j c s = Some s' → s' = goto_close j pc' s1 → thr s1 = thr s →
    fields (w s1) = fields (w s) → worker pc' = true →
    close_weight (size (fields (w s))) pc' < close_weight (size (fields (w s))) pc →
    ∃ s' pc', advances j s s' ∧ closers (thr s') !! j = Some pc' ∧ worker pc' = true) as Hgo.
  { intros c s' s1 pc' Hs -> Ht Hf Hw' Hlt. exists (goto_close j pc' s1), pc'.
    assert (closers (thr (goto_close j pc' s1)) !! j = Some pc') as Hj'.
    { simpl. rewrite Ht. apply list_lookup_insert_eq. by eapply lookup_lt_Some. }
    split_and!; [split|done|done].
    - by exists (ACloseStep j c).
    - unfold weight. rewrite Hj', Hj. simpl. rewrite Ht, Hf. lia. }
  unfold close_step in Hgo. rewrite Hj in Hgo. simpl in Hgo.
  destruct pc as [r| | | |all todo|all|]; try done.
  - destruct (decide (chans (mem s) !! r = Some true)) as [Hc|Hc].
    { rewrite bool_decide_true in Hgo by done. eapply (Hgo Answer); eauto; simpl; lia. }
    apply Hother. destruct ph as [|i pc|l]; simpl in Hat.
    + destruct (lo_olds _ _ Hl) as [Hlen Hopen _ _]. simpl in *.
      destruct (chans (mem s) !! r) as [[]|] eqn:E; [done| |by apply lookup_ge_None in E; lia].
      destruct (Hopen r Hat E) as [i Hi]. by eapply old_advances.
    + by eapply start_advances.
    + subst r. by destruct (lo_phase _ _ Hl) as (_&_&_&_&Hch&_).
  - destruct (cancel (w s)) eqn:Hc; eapply (Hgo Answer); eauto; simpl; lia.
  - destruct Hat as [Hsp Hc]. simpl in Hc. destruct (done (w s)) eqn:Hd.
    { eapply (Hgo Answer); eauto; simpl; lia. }
    apply Hother. destruct ph as [|i pc|l]; [done|by eapply start_advances|].
    eapply loop_advances; eauto. destruct (lo_phase _ _ Hl) as (_&_&_&Hd'&_). simpl in Hd'. congruence.
  - eapply (Hgo Answer); eauto; simpl; lia.
  - destruct (decide (todo = ∅)) as [->|Hne].
    + eapply (Hgo Answer); eauto; simpl; lia.
    + apply map_choose in Hne as (p & id & Hp). pose proof (size_visit _ _ _ Hp).
      eapply (Hgo (Pick p undisturbed)); [by rewrite (visit_some _ _ _ _ _ Hp)|done|apply thr_at_entry| |done|simpl; lia].
      by rewrite fields_at_entry.
Qed.

(** C27: [Close] never deadlocks: whenever a call of [Close] is under way, in
    any reachable state, steps of the calls in progress and of the loop lead to
    its return even if every call of the transport fails from then on; they
    are at most [weight] many. *)
Theorem close_always_returns j pc s :
  reachable s → closers (thr s) !! j = Some pc → worker pc = true →
  ∃ s' all n, nsteps ustep n s s' ∧ n ≤ weight j s ∧ closers (thr s') !! j = Some (CReturned all).
Proof.
  intros Hs%reachable_Inv. remember (weight j s) as n eqn:Hn. assert (weight j s ≤ n) as Hle by lia. clear Hn.
  revert s pc Hs Hle. induction n as [n IH] using lt_wf_ind. intros s pc Hs Hle Hj Hw.
  destruct (returned pc) eqn:Hr.
  { destruct pc; try done. exists s, all, 0. split_and!; [constructor|lia|done]. }
  destruct (close_progress j pc s Hs Hj Hw Hr) as (s1 & pc1 & [[a [Hua Ha]] Hlt] & Hj1 & Hw1).
  destruct (IH (weight j s1) ltac:(lia) s1 pc1) as (s' & all & k & Hk & Hkn & Hret);
    [by eapply Inv_step|lia|done|done|].
  exists s', all, (S k). split_and!; [|lia|done]. econstructor; [|done]. by exists a.
Qed.

(** C30: When [Close] has returned, no call of [Start] is under way and the
    loop, if there was one, has exited for good; the values it found
    registered are closed, and for a watcher that was started these are all
    values of the watcher. *)
Theorem close_leaves_nothing_running j all s :
  reachable s → closers (thr s) !! j = Some (CReturned all) →
  (loops (thr s) = [] ∨ loops (thr s) = [LExit])
  ∧ (∀ i pc, starts (thr s) !! i = Some pc → active pc = false)
  ∧ (∀ p id, all !! p = Some id → ∃ e, heap (mem s) !! id = Some e ∧ entry_closed e = true)
  ∧ (started (w s) = true → all = fields (w s))
  ∧ ∀ s', step AStart s = Some s' → starts (thr s') = starts (thr s) ++ [SReturned (Some ErrClosed)].
Proof.
  intros [[ph Hl] Hm]%reachable_Inv Hj. pose proof (co_at _ _ (lo_closers _ _ Hl) j _ Hj) as Hover.
  pose proof (proj1 (Forall_lookup _ _) (mo_closers s Hm) j _ Hj) as [Hall Hclosed].
  pose proof (co_closed _ _ (lo_closers _ _ Hl) j _ Hj eq_refl) as Hc. simpl in Hc.
  pose proof (lo_phase _ _ Hl) as Hp. split_and!; try done.
  - destruct ph as [|i pc|[]]; try done; simpl in Hp; destruct Hp as (_&_&->&_); auto.
  - destruct ph as [|i pc|[]]; try done; simpl in Hp; by destruct Hp as (_&_&_&_&_&Hna).
  - simpl. destruct (rlocked s); [done|]. intros s' [= <-]. unfold Start_begin. by rewrite Hc.
Qed.

(** ** Backoff *)
Definition backoff_of (pc : loop_pc) : option Z :=
  match pc with
  | LSubscribe _ b _ | LStream _ b _ _ _ _ | LFailed _ b _ | LWait _ b _ | LReload _ b _ => Some b
  | _ => None
  end.
Definition backoff_ok (pc : loop_pc) : Prop :=
  ∀ b, backoff_of pc = Some b → (minBackoff ≤ b ≤ maxBackoff)%Z.

Lemma next_backoff_ok b :
  (0 < minBackoff ≤ maxBackoff)%Z → (maxBackoff < 2 ^ 62)%Z → (minBackoff ≤ b ≤ maxBackoff)%Z →
  next_backoff maxBackoff b = Z.min (2 * b) maxBackoff
  ∧ (minBackoff ≤ next_backoff maxBackoff b ≤ maxBackoff)%Z.
Proof.
  intros Hm Hx Hb. unfold next_backoff. rewrite int64_id by (unfold min_int64, max_int64; lia).
  replace (b * 2)%Z with (2 * b)%Z by lia. lia.
Qed.

(** The loops change by the spawn of one and by its own steps only. *)
Lemma loops_frame a s s' :
  step a s = Some s' →
  loops (thr s') = loops (thr s) ∨ (∃ v, loops (thr s') = loops (thr s) ++ [LStart v])
  ∨ ∃ i c, loop_step minBackoff maxBackoff i c s = Some s'.
Proof.
  intros Hstep. destruct a as [path ty d| |i c| |i c|i c|p tv cs|i r|cs| |id]; simpl in Hstep; step_inv; auto.
  - left. unfold registerField. by destruct (started (w s)).
  - left. unfold Start_begin. by destruct (closed (w s)), (started (w s)).
  - unfold start_step in Hstep. destruct (starts (thr s) !! i) as [[]|], c; simpl in Hstep; step_inv; auto.
    + left. apply visit_at_entry in Hvisit as (id & _ & -> & ->). simpl. by rewrite thr_at_entry.
    + left. simpl. by rewrite thr_close_chan.
    + right. left. simpl. eauto.
    + left. simpl. by rewrite thr_close_chan.
  - left. unfold Close_begin. by destruct (closed (w s)).
  - left. unfold close_step in Hstep. destruct (closers (thr s) !! i) as [[]|], c; simpl in Hstep; step_inv; auto.
    + destruct (cancel (w s)); step_inv; done.
    + apply visit_at_entry in Hvisit as (id & _ & -> & ->). simpl. by rewrite thr_at_entry.
  - right. right. eauto.
  - left. unfold set_step in Hstep. destruct (sets (thr s) !! i) as [[|? []|]|]; simpl in Hstep; step_inv; try done.
    simpl. by rewrite thr_at_entry.
  - left. destruct (cancel (w s)); step_inv; done.
  - left. destruct (heap (mem s) !! id); [|done]. simpl in Hstep. destruct (entry_receive _); simpl in Hstep; by step_inv.
Qed.

(** The wait before every reconnect is within the configured range. *)
Theorem backoff_in_range s :
  (0 < minBackoff ≤ maxBackoff)%Z → (maxBackoff < 2 ^ 62)%Z → reachable s →
  Forall backoff_ok (loops (thr s)).
Proof.
  intros Hm Hx Hs. apply (reachable_ind' (λ s, Forall backoff_ok (loops (thr s)))) in Hs as [_ H]; [done|constructor|].
  clear s Hs. intros a s s' _ Hall [->|[[v ->]|(i & c & Hl)]]%loops_frame; [done| |].
  { apply Forall_app_2; [done|]. by constructor. }
  unfold loop_step in Hl. destruct (loops (thr s) !! i) as [l|] eqn:Hi; [|done]. simpl in Hl.
  pose proof (proj1 (Forall_lookup _ _) Hall i l Hi) as Hb.
  assert (∀ l' s1, thr s1 = thr s → backoff_ok l' → Forall backoff_ok (loops (thr (goto_loop i l' s1)))) as Hgo.
  { intros l' s1 Ht Hl'. simpl. rewrite Ht. by apply Forall_insert. }
  assert (thr (close_done s) = thr s) as Hcd by (unfold close_done; by destruct (done (w s))).
  destruct l as [v|v b ps|v b ps base k live|v b ps|v b ps|v b ps|v ps vals todo|], c as [| |p rc|rc|n rc]; try done; step_inv;
    try (apply Hgo; [done|]; intros b' [= <-]; try lia; by apply Hb).
  - destruct (log (srv s) !! k) as [ch|]; [|done]. simpl in Hl. step_inv. apply Hgo; [|done].
    unfold deliver. destruct (delivers v ps ch), (fields (w s) !! c_path ch); by rewrite ?thr_at_entry.
  - destruct (log (srv s) !! n) as [ch|]; [|done]. simpl in Hl. step_inv. apply Hgo; [|done].
    unfold deliver. destruct (fields (w s) !! c_path ch); by rewrite ?thr_at_entry.
  - apply Hgo; [done|]. intros b' [= <-]. by apply next_backoff_ok, Hb.
  - apply visit_at_entry in Hvisit as (id & _ & -> & ->). by apply Hgo; [apply thr_at_entry|].
Qed.
End theorems.
