(* ===== verification/WatcherData.v ===== *)
(** * What the values of a watcher show

    The invariant that ties every registered value to the server's log: either
    the replay still holds a change of its path, or the value is what the loop was
    told last of it: by a live event, by the replay or by the snapshot. Writes
    through the watcher update a value beside the stream, so their paths are left
    out. *)
From S2P Require Import Prelude GoText GoFloat GoTime WatchValue Watcher WatcherFacts WatcherTheorems.
Import TypedValue (TypedValue).
Import Life Mem.

(** ** The server's log *)
Record srv_ok (x : Server) : Prop := {
  so_max n c : log x !! n = Some c → (c_ver c ≤ version x)%Z;
  so_sorted n m c d : n ≤ m → log x !! n = Some c → log x !! m = Some d → (c_ver c ≤ c_ver d)%Z;
  so_range : (0 ≤ version x ≤ max_int32)%Z }.

Lemma commit_lookup cs x n c :
  log (commit cs x) !! n = Some c →
  log x !! n = Some c ∨ (length (log x) ≤ n ∧ c_ver c = (version x + 1)%Z).
Proof.
  simpl. intros [?|[Hn Hc]]%lookup_app_Some; [by left|right].
  rewrite list_lookup_fmap in Hc. destruct (cs !! _) as [[p v]|]; simplify_eq/=. split; [lia|done].
Qed.

Lemma commit_ok cs x : srv_ok x → (version x < max_int32)%Z → srv_ok (commit cs x).
Proof.
  intros [Hmax Hsort Hr] Hlt. split.
  - intros n c [Hc|[_ ->]]%commit_lookup; simpl; [|lia]. specialize (Hmax n c Hc). lia.
  - intros n m c d Hnm [Hc|[Hn Hc]]%commit_lookup [Hd|[Hm Hd]]%commit_lookup.
    + by eapply Hsort.
    + specialize (Hmax n c Hc). lia.
    + apply lookup_lt_Some in Hd. lia.
    + lia.
  - simpl. lia.
Qed.

(** *** The last change with a property *)
Lemma last_filter_Some {A} (P : A → Prop) `{∀ x, Decision (P x)} l c :
  last (filter P l) = Some c ↔ ∃ k, l !! k = Some c ∧ P c ∧ ∀ m d, k < m → l !! m = Some d → ¬ P d.
Proof.
  induction l as [|x l IH] using rev_ind; [split; [done|by intros (k & ? & _)]|].
  rewrite filter_app. destruct (decide (P x)) as [Hx|Hx].
  - rewrite filter_cons_True, filter_nil, last_snoc by done. split.
    + intros [= ->]. exists (length l). split_and!; [rewrite lookup_snoc_Some; auto|done|].
      intros m d Hm Hd. apply lookup_lt_Some in Hd. rewrite length_app in Hd. simpl in Hd. lia.
    + intros (k & [[Hk Hc]|[-> ->]]%lookup_snoc_Some & _ & Hn); [|done]. exfalso. apply (Hn (length l) x); [lia| |done].
      rewrite lookup_snoc_Some. auto.
  - rewrite filter_cons_False, filter_nil, app_nil_r, IH by done. split.
    + intros (k & Hk & Hc & Hn). exists k. split_and!; [by apply lookup_app_l_Some|done|].
      intros m d Hm [[_ Hd]|[_ ->]]%lookup_snoc_Some; [by eapply Hn|done].
    + intros (k & [[Hk Hc]|[-> ->]]%lookup_snoc_Some & Hp & Hn); [|done]. exists k. split_and!; [done..|].
      intros m d Hm Hd. apply (Hn m); [done|by apply lookup_app_l_Some].
Qed.
Lemma last_filter_None {A} (P : A → Prop) `{∀ x, Decision (P x)} l :
  last (filter P l) = None ↔ ∀ k d, l !! k = Some d → ¬ P d.
Proof.
  rewrite last_None. split.
  - intros Hf k d Hd Hp. assert (d ∈ filter P l) as Hin by (apply list_elem_of_filter; eauto using list_elem_of_lookup_2).
    rewrite Hf in Hin. by apply elem_of_nil in Hin.
  - intros Hn. destruct (filter P l) as [|d l'] eqn:E; [done|]. assert (d ∈ filter P l) as Hin by (rewrite E; by left).
    apply list_elem_of_filter in Hin as [Hp [k Hk]%list_elem_of_lookup]. by destruct (Hn k d Hk).
Qed.
Lemma lookup_take_elim {A} (l : list A) n m x : take n l !! m = Some x ↔ m < n ∧ l !! m = Some x.
Proof.
  destruct (decide (m < n)) as [Hm|Hm]; [by rewrite lookup_take_lt by done; naive_solver|].
  rewrite lookup_take_ge by lia. split; [done|lia].
Qed.

(** The last change of a path. *)
Definition latest (p : string) (l : list change) : option change := last (filter (λ c, c_path c = p) l).

(** What [loadSnapshot] reads of a path from the answer at version [v]. *)
Definition loaded_at `{Rendering} (v : Z) (p : string) (l : list change) : option TypedValue :=
  match last (filter (λ c, in_version v p c) l) with Some c => render Snapshot p (c_value c) | None => None end.
Lemma loaded_snapshot `{Rendering} x p :
  srv_ok x → loaded (values_of (snapshot x)) p = loaded_at (version x) p (log x).
Proof.
  intros Hok. unfold loaded, values_of, snapshot, loaded_at.
  assert (∀ l m, foldl (λ m x, <[x.1:=x.2]> m) m ((λ c, (c_path c, render Snapshot (c_path c) (value_at (version x) (c_path c) (log x)))) <$> l) !! p
    = if decide (p ∈ c_path <$> l) then Some (render Snapshot p (value_at (version x) p (log x))) else (m : values) !! p) as Hfold.
  { induction l as [|c l IH]; intros m; simpl; [done|]. rewrite IH.
    destruct (decide (p ∈ c_path <$> l)) as [Hin|Hin]; [rewrite decide_True by (by right); done|].
    destruct (decide (p = c_path c)) as [->|Hne].
    - rewrite lookup_insert_eq, decide_True by left. done.
    - rewrite lookup_insert_ne, decide_False by set_solver. done. }
  rewrite Hfold. unfold value_at. destruct (last (filter _ _)) as [c|] eqn:E.
  - apply last_filter_Some in E as (k & Hk & [Hp%bool_decide_eq_true _]%Is_true_true%andb_true_iff & _).
    rewrite decide_True; [done|]. rewrite <- Hp. apply list_elem_of_fmap_2. by eapply list_elem_of_lookup_2.
  - rewrite decide_False; [by rewrite lookup_empty|]. intros (c & -> & [k Hk]%list_elem_of_lookup)%list_elem_of_fmap.
    destruct (proj1 (last_filter_None _ _) E k c Hk). unfold in_version. rewrite bool_decide_true by done.
    by rewrite (proj2 (Z.leb_le _ _) (so_max _ Hok k c Hk)).
Qed.
Lemma loaded_at_app `{Rendering} v p l l' : (∀ c, c ∈ l' → (v < c_ver c)%Z) → loaded_at v p (l ++ l') = loaded_at v p l.
Proof.
  intros Hn. unfold loaded_at. rewrite filter_app. assert (filter (λ c, in_version v p c) l' = []) as ->; [|by rewrite app_nil_r].
  apply last_None, last_filter_None. intros k c Hk [_ Hv%Z.leb_le]%Is_true_true%andb_true_iff.
  specialize (Hn c ltac:(by eapply list_elem_of_lookup_2)). lia.
Qed.

(** ** The invariant *)
Definition shows (s : St) (p : string) (otv : option TypedValue) : Prop :=
  ∃ id e, fields (w s) !! p = Some id ∧ heap (mem s) !! id = Some e ∧ entry_shows e otv.

(** A change that a subscription after version [v] asks for. *)
Definition newer (v : Z) (p : string) (c : change) : Prop := c_path c = p ∧ (startVersion v ≤ c_ver c)%Z.
(** There is one of [p] from position [k] to before [hi]. *)
Definition pending (v : Z) (k hi : nat) (p : string) (l : list change) : Prop :=
  ∃ n c, k ≤ n < hi ∧ l !! n = Some c ∧ newer v p c.

Section invariant.
Context {rd : Rendering}.

(** What the loop was told last of a path. *)
Definition told (v : Z) (base : nat) (live : gmap string nat) (p : string) (l : list change) : option TypedValue :=
  match live !! p with
  | Some n => c ← l !! n; render Live p (c_value c)
  | None =>
      match last (filter (λ c, newer v p c) (take base l)) with
      | Some c => render Replay p (c_value c)
      | None => loaded_at v p l
      end
  end.

(** Before a subscription: the value is the snapshot's, or the log has a change
    that the subscription will ask for. *)
Definition tracked (v : Z) (s : St) (p : string) : Prop :=
  pending v 0 (length (log (srv s))) p (log (srv s)) ∨ shows s p (loaded_at v p (log (srv s))).
(** Within one. *)
Definition streamed (v : Z) (base k : nat) (live : gmap string nat) (s : St) (p : string) : Prop :=
  pending v k base p (log (srv s)) ∨ shows s p (told v base live p (log (srv s))).
(** For every registered path, except those still to visit and those touched. *)
Definition everywhere (Q : string → Prop) (todo : gmap string nat) (s : St) : Prop :=
  ∀ p, is_Some (fields (w s) !! p) → todo !! p = None → p ∉ touched s → Q p.
Definition all_tracked (v : Z) (todo : gmap string nat) (s : St) : Prop := everywhere (tracked v s) todo s.
Definition cursor_ok (v : Z) (s : St) : Prop := (0 ≤ v ≤ version (srv s))%Z.
Definition answer_ok (v : Z) (vals : values) (s : St) : Prop :=
  ∀ p, loaded vals p = loaded_at v p (log (srv s)).
(** The part of the log a stream replays, and its live events. *)
Record stream_ok (v : Z) (base k : nat) (live : gmap string nat) (l : list change) : Prop := {
  sk_base : k ≤ base ≤ length l;
  sk_after n c : base ≤ n → l !! n = Some c → (v < c_ver c)%Z;
  sk_live p n : live !! p = Some n → k = base ∧ ∃ c, l !! n = Some c ∧ newer v p c }.

Definition start_data (s : St) (pc : start_pc) : Prop :=
  match pc with
  | SApply v vals todo => cursor_ok v s ∧ answer_ok v vals s ∧ all_tracked v todo s
  | SAssign v | SReady v | SSpawn v => cursor_ok v s ∧ all_tracked v ∅ s
  | _ => True
  end.
Definition paths_ok (ps : list string) (s : St) : Prop := ∀ p, is_Some (fields (w s) !! p) → p ∈ ps.
Definition loop_data (s : St) (pc : loop_pc) : Prop :=
  match pc with
  | LStart v => cursor_ok v s ∧ all_tracked v ∅ s
  | LSubscribe v _ ps | LFailed v _ ps | LWait v _ ps | LReload v _ ps =>
      cursor_ok v s ∧ paths_ok ps s ∧ all_tracked v ∅ s
  | LStream v _ ps base k live =>
      cursor_ok v s ∧ paths_ok ps s ∧ stream_ok v base k live (log (srv s)) ∧ everywhere (streamed v base k live s) ∅ s
  | LApply v ps vals todo => cursor_ok v s ∧ paths_ok ps s ∧ answer_ok v vals s ∧ all_tracked v todo s
  | LExit => True
  end.
(** The entry a write has looked up belongs to no other path. *)
Definition set_data (s : St) (pc : set_pc) : Prop :=
  match pc with
  | SetLooked p (Some id) _ => id < length (heap (mem s)) ∧ ∀ q, fields (w s) !! q = Some id → q = p
  | _ => True
  end.

Record data_ok (s : St) : Prop := {
  do_srv : srv_ok (srv s);
  do_inj p q id : fields (w s) !! p = Some id → fields (w s) !! q = Some id → p = q;
  do_starts : Forall (start_data s) (starts (thr s));
  do_loops : Forall (loop_data s) (loops (thr s));
  do_sets : Forall (set_data s) (sets (thr s)) }.

Lemma init_data : data_ok New.
Proof. by split. Qed.

(** *** Steps that leave what is shown alone *)
Record calm (s s' : St) : Prop := {
  ca_fields : fields (w s') = fields (w s);
  ca_srv : srv s' = srv s;
  ca_touched : touched s ⊆ touched s';
  ca_heap : length (heap (mem s')) = length (heap (mem s));
  ca_shows p otv : p ∉ touched s' → shows s p otv → shows s' p otv }.

Lemma calm_everywhere (Q Q' : string → Prop) todo s s' :
  calm s s' → (∀ p, p ∉ touched s' → Q p → Q' p) → everywhere Q todo s → everywhere Q' todo s'.
Proof.
  intros [Hf Hs Ht _ Hsh] HQ H p Hp Hn Htp. rewrite Hf in Hp. apply HQ; [done|]. apply H; [done..|]. set_solver.
Qed.
Lemma calm_tracked v todo s s' : calm s s' → all_tracked v todo s → all_tracked v todo s'.
Proof.
  intros Hc. apply calm_everywhere; [done|]. unfold tracked. rewrite (ca_srv _ _ Hc).
  intros p Hp [?|?]; [by left|right]. by apply (ca_shows _ _ Hc).
Qed.
Lemma calm_streamed v base k live todo s s' :
  calm s s' → everywhere (streamed v base k live s) todo s → everywhere (streamed v base k live s') todo s'.
Proof.
  intros Hc. apply calm_everywhere; [done|]. unfold streamed. rewrite (ca_srv _ _ Hc).
  intros p Hp [?|?]; [by left|right]. by apply (ca_shows _ _ Hc).
Qed.
Lemma calm_start s s' pc : calm s s' → start_data s pc → start_data s' pc.
Proof.
  intros Hc. pose proof (ca_srv _ _ Hc) as Hs. unfold start_data, cursor_ok, answer_ok. rewrite Hs.
  destruct pc; naive_solver eauto using calm_tracked.
Qed.
Lemma calm_loop s s' pc : calm s s' → loop_data s pc → loop_data s' pc.
Proof.
  intros Hc. pose proof (ca_srv _ _ Hc) as Hs. pose proof (ca_fields _ _ Hc) as Hf.
  unfold loop_data, cursor_ok, answer_ok, paths_ok. rewrite Hs, Hf.
  destruct pc; naive_solver eauto using calm_tracked, calm_streamed.
Qed.
Lemma calm_set s s' pc : calm s s' → set_data s pc → set_data s' pc.
Proof. intros [Hf _ _ Hh _]. unfold set_data. by rewrite Hf, Hh. Qed.

Lemma calm_data s s' :
  calm s s' → data_ok s → Forall (start_data s) (starts (thr s')) → Forall (loop_data s) (loops (thr s')) →
  Forall (set_data s) (sets (thr s')) → data_ok s'.
Proof.
  intros Hc [H1 H2 _ _ _] H3 H4 H5. split.
  - by rewrite (ca_srv _ _ Hc).
  - rewrite (ca_fields _ _ Hc). apply H2.
  - eapply Forall_impl; [exact H3|]. eauto using calm_start.
  - eapply Forall_impl; [exact H4|]. eauto using calm_loop.
  - eapply Forall_impl; [exact H5|]. eauto using calm_set.
Qed.

Lemma calm_same s s' :
  fields (w s') = fields (w s) → heap (mem s') = heap (mem s) → srv s' = srv s → touched s' = touched s →
  calm s s'.
Proof.
  intros Hf Hh Hs Ht. split; rewrite ?Hf, ?Hh, ?Ht; try done. intros p otv _ (id & e & Hp & He & Hsh).
  exists id, e. by rewrite Hf, Hh.
Qed.

(** *** Updates of one value *)
Definition keeps (f : fieldEntry → option fieldEntry) : Prop :=
  ∀ e e' otv, f e = Some e' → entry_shows e otv → entry_shows e' otv.
Lemma keeps_close : keeps entry_close.
Proof.
  intros [ty v] e' otv. unfold entry_close. simpl. unfold Value.close.
  destruct (Value.closed v); [by intros [= <-]|]. destruct (Value.ch_closed v); by intros [= <-].
Qed.
Lemma keeps_receive : keeps entry_receive.
Proof.
  intros [ty v] e' otv. unfold entry_receive. simpl. unfold Value.receive.
  destruct (Value.changes v); by intros [= <-].
Qed.

Lemma frame_at_entry f id s :
  fields (w (at_entry f id s)) = fields (w s) ∧ srv (at_entry f id s) = srv s
  ∧ touched (at_entry f id s) = touched s ∧ thr (at_entry f id s) = thr s
  ∧ length (heap (mem (at_entry f id s))) = length (heap (mem s)).
Proof.
  unfold at_entry. destruct (heap (mem s) !! id) as [e|]; [destruct (f e)|]; simpl; rewrite ?length_insert; done.
Qed.

(** Values at other places, and all values for a method that keeps them. *)
Lemma at_entry_shows f id s p otv :
  keeps f ∨ fields (w s) !! p ≠ Some id → shows s p otv → shows (at_entry f id s) p otv.
Proof.
  intros Hk (id' & e & Hp & He & Hsh). unfold at_entry.
  destruct (heap (mem s) !! id) as [e0|] eqn:E; [|by exists id', e].
  destruct (f e0) as [e0'|] eqn:Hf; [|by exists id', e]. destruct (decide (id = id')) as [<-|].
  - simplify_eq. destruct Hk as [Hk|]; [|done]. exists id, e0'. split_and!; [done| |by eapply Hk].
    simpl. apply list_lookup_insert_eq. by eapply lookup_lt_Some.
  - exists id', e. simpl. by rewrite list_lookup_insert_ne.
Qed.

Lemma calm_at_entry f id s : keeps f → calm s (at_entry f id s).
Proof.
  intros Hk. destruct (frame_at_entry f id s) as (Hf & Hs & Ht & _ & Hl). split; rewrite ?Ht; try done.
  intros p otv _. apply at_entry_shows. by left.
Qed.

Lemma calm_touch r p id tv s :
  (∀ q, fields (w s) !! q = Some id → q = p) → calm s (touch p (at_entry (entry_apply r (Some tv)) id s)).
Proof.
  intros Hq. destruct (frame_at_entry (entry_apply r (Some tv)) id s) as (Hf & Hs & Ht & _ & Hl).
  split; simpl; rewrite ?Ht; try done; [set_solver|]. intros q otv Hn Hsh.
  apply (at_entry_shows (entry_apply r (Some tv)) id) in Hsh as (id' & e & ? & ? & ?); [by exists id', e|].
  right. intros Hq'. apply Hn. rewrite (Hq q Hq'). set_solver.
Qed.

(** An update makes its value that of the server's text, typed or absent. *)
Lemma update_shows r s p id otv :
  mem_ok s → fields (w s) !! p = Some id → shows (at_entry (entry_apply r otv) id s) p otv.
Proof.
  intros Hm Hp. destruct (at_entry_spec (entry_apply r otv) id s Hm (good_apply _ _)) as (e & e' & He & Hfe & Hok & Heq & _).
  { by apply (mo_fields s Hm p). }
  rewrite Heq. exists id, e'. split_and!; [done|simpl; apply list_lookup_insert_eq; by eapply lookup_lt_Some|].
  destruct e as [ty v]. unfold entry_apply in Hfe. simpl in *.
  destruct (ValueFacts.apply_spec r otv v Hok) as (v' & Hv' & _ & Hr & Hd & _). rewrite Hv' in Hfe.
  injection Hfe as <-. simpl. by rewrite Hd.
Qed.

(** *** Snapshots *)
Lemma startVersion_le v x : (0 ≤ v ≤ version x)%Z → srv_ok x → (startVersion v ≤ v + 1)%Z.
Proof.
  intros Hv [_ _ Hr]. unfold startVersion. destruct (decide (v + 1 ≤ max_int32)%Z).
  - rewrite int32_id; [lia|]. unfold min_int32. lia.
  - pose proof (wrap_range 32 (v + 1) ltac:(lia)) as Hw. unfold int32, max_int32 in *. lia.
Qed.

Lemma pending_dec v k hi p l : pending v k hi p l ∨ ¬ pending v k hi p l.
Proof.
  destruct (decide (Exists (λ c, newer v p c) (drop k (take hi l)))) as [H|H].
  - left. apply Exists_exists in H as (c & [n Hn]%list_elem_of_lookup & Hc).
    rewrite lookup_drop in Hn. apply lookup_take_elim in Hn as [? ?]. exists (k + n), c. split_and!; [lia..|done|done].
  - right. intros (n & c & Hk & Hc & Hp). apply H, Exists_exists. exists c. split; [|done].
    apply list_elem_of_lookup. exists (n - k). rewrite lookup_drop. replace (k + (n - k)) with n by lia.
    apply lookup_take_elim. split; [lia|done].
Qed.

(** The visit of one entry by [loadSnapshot]. *)
Lemma visit_tracked v vals todo todo' r p s s' :
  mem_ok s → data_ok s → cursor_ok v s → answer_ok v vals s → todo ⊆ fields (w s) →
  visit (λ p, entry_apply r (loaded vals p)) p todo s = Some (todo', s') →
  all_tracked v todo s → all_tracked v todo' s' ∧ cursor_ok v s' ∧ answer_ok v vals s'.
Proof.
  intros Hm Hd Hv Ha Hsub (id & Hid & -> & ->)%visit_at_entry Hall. set (f := entry_apply _ _).
  assert (fields (w s) !! p = Some id) as Hp by (by eapply lookup_weaken).
  destruct (frame_at_entry f id s) as (Hf & Hs & Ht & _ & _).
  unfold all_tracked, everywhere, cursor_ok, answer_ok, tracked. rewrite Hf, Hs, Ht.
  split; [|split; [exact Hv|exact Ha]]. intros q Hq Hn Htq. destruct (decide (q = p)) as [->|Hne].
  - right. rewrite <- (Ha p). by apply update_shows.
  - rewrite lookup_delete_ne in Hn by done. destruct (Hall q Hq Hn Htq) as [|Hsh]; [by left|right].
    apply at_entry_shows; [|done]. right. intros Hq'. apply Hne. by eapply (do_inj s Hd).
Qed.

(** *** The stream *)

(** It opens with the whole log to replay. *)
Lemma subscribe_streamed v s :
  all_tracked v ∅ s → stream_ok v (length (log (srv s))) 0 ∅ (log (srv s))
    ∧ everywhere (streamed v (length (log (srv s))) 0 ∅ s) ∅ s.
Proof.
  intros Hall. split.
  - split; [lia| |done]. intros n c Hn Hc. apply lookup_lt_Some in Hc. lia.
  - intros p Hp Hn Ht. destruct (pending_dec v 0 (length (log (srv s))) p (log (srv s))) as [|Hnp]; [by left|right].
    destruct (Hall p Hp Hn Ht) as [|Hsh]; [done|]. unfold told. rewrite lookup_empty.
    assert (last (filter (λ c, newer v p c) (take (length (log (srv s))) (log (srv s)))) = None) as ->; [|done].
    apply last_filter_None. intros k c [? Hk]%lookup_take_elim Hc. apply Hnp. exists k, c. split_and!; [lia..|done|done].
Qed.

(** What was told is the snapshot or a change that a new subscription asks for
    again. *)
Lemma streamed_tracked v base k live s :
  stream_ok v base k live (log (srv s)) → everywhere (streamed v base k live s) ∅ s → all_tracked v ∅ s.
Proof.
  intros [Hb _ Hl] Hall p Hp Hn Ht.
  assert (∀ n c, log (srv s) !! n = Some c → newer v p c → pending v 0 (length (log (srv s))) p (log (srv s))) as Hpe.
  { intros n c Hc ?. exists n, c. pose proof (lookup_lt_Some _ _ _ Hc). split_and!; [lia..|done|done]. }
  destruct (Hall p Hp Hn Ht) as [(n & c & _ & Hc & Hv)|Hsh]; [left; eauto|]. unfold told in Hsh.
  destruct (live !! p) as [n|] eqn:En; [left; destruct (Hl p n En) as (_ & c & ? & ?); eauto|].
  destruct (last (filter _ _)) as [c|] eqn:E; [left|by right].
  apply last_filter_Some in E as (n & [_ Hc]%lookup_take_elim & Hv & _). eauto.
Qed.

Lemma frame_deliver r ch c s :
  fields (w (deliver r ch c s)) = fields (w s) ∧ srv (deliver r ch c s) = srv s
  ∧ touched (deliver r ch c s) = touched s ∧ thr (deliver r ch c s) = thr s
  ∧ length (heap (mem (deliver r ch c s))) = length (heap (mem s)).
Proof. unfold deliver. destruct (fields (w s) !! c_path c) as [id|]; [apply frame_at_entry|done]. Qed.

(** A change that is delivered is shown, and no other value changes. *)
Lemma deliver_shows r ch c s p :
  mem_ok s → c_path c = p → is_Some (fields (w s) !! p) → shows (deliver r ch c s) p (render ch p (c_value c)).
Proof. intros Hm <- [id Hid]. unfold deliver. rewrite Hid. by apply update_shows. Qed.
Lemma deliver_other r ch c s p otv :
  data_ok s → c_path c ≠ p → shows s p otv → shows (deliver r ch c s) p otv.
Proof.
  intros Hd Hne Hsh. unfold deliver. destruct (fields (w s) !! c_path c) as [id|] eqn:Hid; [|done].
  apply at_entry_shows; [|done]. right. intros Hp. apply Hne. by eapply (do_inj s Hd).
Qed.

Lemma pending_later v k hi p l c :
  l !! k = Some c → pending v k hi p l → pending v (S k) hi p l ∨ newer v p c.
Proof.
  intros Hc (n & d & Hn & Hd & Hv). destruct (decide (n = k)) as [->|].
  - right. by simplify_eq.
  - left. exists n, d. split_and!; [lia..|done|done].
Qed.

(** The next change of the replay. *)
Lemma next_streamed v ps base k live r c s :
  let s' := if delivers v ps c then deliver r Replay c s else s in
  mem_ok s → data_ok s → paths_ok ps s → stream_ok v base k live (log (srv s)) → k < base → log (srv s) !! k = Some c →
  everywhere (streamed v base k live s) ∅ s → everywhere (streamed v base (S k) live s') ∅ s'.
Proof.
  intros s' Hm Hd Hps [_ _ Hl] Hk Hc Hall p Hp Hn Ht.
  assert (fields (w s') = fields (w s) ∧ srv s' = srv s ∧ touched s' = touched s) as (Hf & Hs & Htc).
  { unfold s'. destruct (delivers v ps c); [|done]. by destruct (frame_deliver r Replay c s) as (? & ? & ? & _). }
  rewrite Hf in Hp. rewrite Htc in Ht. unfold streamed. rewrite Hs.
  destruct (decide (newer v p c)) as [[Hpath Hver]|Hnew].
  - assert (delivers v ps c = true) as Hdel.
    { unfold delivers. rewrite (proj2 (Z.leb_le _ _) Hver). simpl. rewrite orb_true_iff, !bool_decide_eq_true. right.
      rewrite Hpath. by apply Hps. }
    unfold s'. rewrite Hdel. destruct (pending_dec v (S k) base p (log (srv s))) as [|Hnp]; [by left|right].
    unfold told. destruct (live !! p) as [n|] eqn:En; [destruct (Hl p n En); lia|].
    assert (last (filter (λ c, newer v p c) (take base (log (srv s)))) = Some c) as ->; [|by apply deliver_shows].
    apply last_filter_Some. exists k. split_and!; [by apply lookup_take_elim|done|].
    intros m d Hm' [? Hmd]%lookup_take_elim Hnd. apply Hnp. exists m, d. split_and!; [lia..|done|done].
  - destruct (Hall p Hp Hn Ht) as [Hpe|Hsh].
    { destruct (pending_later _ _ _ _ _ _ Hc Hpe); [by left|done]. }
    right. unfold s'. destruct (delivers v ps c) eqn:Hdel; [|done]. apply deliver_other; [done| |done].
    intros Hpath. apply Hnew. split; [done|]. by apply andb_true_iff in Hdel as [?%Z.leb_le _].
Qed.

(** A live event. *)
Lemma event_streamed v ps base live r n c s :
  mem_ok s → data_ok s → log (srv s) !! n = Some c → delivers v ps c = true →
  everywhere (streamed v base base live s) ∅ s →
  everywhere (streamed v base base (<[c_path c := n]> live) (deliver r Live c s)) ∅ (deliver r Live c s).
Proof.
  intros Hm Hd Hc Hdel Hall p Hp Hn Ht. destruct (frame_deliver r Live c s) as (Hf & Hs & Htc & _).
  rewrite Hf in Hp. rewrite Htc in Ht. unfold streamed. rewrite Hs. right. unfold told.
  destruct (decide (c_path c = p)) as [Hpath|Hne].
  - rewrite Hpath, lookup_insert_eq, Hc. simpl. by apply deliver_shows.
  - rewrite lookup_insert_ne by done. destruct (Hall p Hp Hn Ht) as [(m & d & ? & _)|Hsh]; [lia|].
    by apply deliver_other.
Qed.
Lemma event_stream_ok v ps base live n c l :
  stream_ok v base base live l → l !! n = Some c → delivers v ps c = true →
  stream_ok v base base (<[c_path c := n]> live) l.
Proof.
  intros [Hb Ha Hl] Hc [Hver%Z.leb_le _]%andb_true_iff. split; [done..|]. intros p m.
  intros [[<- <-]|[_ Hm]]%lookup_insert_Some; [|by apply Hl]. split; [done|]. by exists c.
Qed.

(** *** Commits *)
Lemma commit_log cs s : ∃ new, log (srv (with_srv (commit cs (srv s)) s)) = log (srv s) ++ new
  ∧ ∀ c, c ∈ new → c_ver c = (version (srv s) + 1)%Z.
Proof. eexists. split; [done|]. by intros c ([p tv] & -> & _)%list_elem_of_fmap. Qed.

Lemma commit_tracked v todo cs s :
  cursor_ok v s → all_tracked v todo s → all_tracked v todo (with_srv (commit cs (srv s)) s).
Proof.
  intros [_ Hv] Hall p Hp Hn Ht. destruct (commit_log cs s) as (new & Hlog & Hnew). unfold tracked. rewrite Hlog.
  destruct (Hall p Hp Hn Ht) as [(n & c & Hk & Hc & Hver)|Hsh].
  - left. exists n, c. rewrite length_app. split_and!; [lia..|by apply lookup_app_l_Some|done].
  - right. rewrite loaded_at_app; [done|]. intros c Hc. rewrite (Hnew c Hc). lia.
Qed.
Lemma commit_stream_ok v base k live cs s :
  cursor_ok v s → stream_ok v base k live (log (srv s)) →
  stream_ok v base k live (log (srv (with_srv (commit cs (srv s)) s))).
Proof.
  intros [_ Hv] [Hb Ha Hl]. destruct (commit_log cs s) as (new & -> & Hnew). split.
  - rewrite length_app. lia.
  - intros n c Hn [Hc|[_ Hc]]%lookup_app_Some; [by apply (Ha n)|]. rewrite (Hnew c) by (by eapply list_elem_of_lookup_2). lia.
  - intros p n Hp. destruct (Hl p n Hp) as (? & c & Hc & ?). split; [done|]. exists c. split; [by apply lookup_app_l_Some|done].
Qed.
Lemma commit_streamed v base k live todo cs s :
  cursor_ok v s → stream_ok v base k live (log (srv s)) →
  everywhere (streamed v base k live s) todo s →
  everywhere (streamed v base k live (with_srv (commit cs (srv s)) s)) todo (with_srv (commit cs (srv s)) s).
Proof.
  intros [_ Hv] [Hb Ha Hl] Hall p Hp Hn Ht. destruct (commit_log cs s) as (new & Hlog & Hnew). unfold streamed. rewrite Hlog.
  destruct (Hall p Hp Hn Ht) as [(n & c & Hk & Hc & Hver)|Hsh].
  - left. exists n, c. split_and!; [lia..|by apply lookup_app_l_Some|done].
  - right. assert (told v base live p (log (srv s) ++ new) = told v base live p (log (srv s))) as ->; [|done].
    unfold told. destruct (live !! p) as [n|] eqn:En.
    + destruct (Hl p n En) as (_ & c & Hc & _). by rewrite Hc, (lookup_app_l_Some _ _ _ _ Hc).
    + rewrite take_app_le by lia. rewrite loaded_at_app; [done|]. intros c Hc. rewrite (Hnew c Hc). lia.
Qed.

Lemma commit_answer v vals cs s :
  cursor_ok v s → answer_ok v vals s → answer_ok v vals (with_srv (commit cs (srv s)) s).
Proof.
  intros [_ Hv] Ha p. destruct (commit_log cs s) as (new & -> & Hnew). rewrite Ha, loaded_at_app; [done|].
  intros c Hc. rewrite (Hnew c Hc). lia.
Qed.
Lemma commit_cursor v cs s : cursor_ok v s → cursor_ok v (with_srv (commit cs (srv s)) s).
Proof. intros [? ?]. split; simpl; lia. Qed.

Lemma commit_data cs s : data_ok s → can_commit s = true → data_ok (with_srv (commit cs (srv s)) s).
Proof.
  intros [H1 H2 H3 H4 H5] Hc%Z.ltb_lt. split; [by apply commit_ok|done| | |done].
  - eapply Forall_impl; [exact H3|]. intros []; unfold start_data;
      naive_solver eauto using commit_cursor, commit_answer, commit_tracked.
  - eapply Forall_impl; [exact H4|]. intros [v|v b ps|v b ps base k live|v b ps|v b ps|v b ps|v ps vals todo|]; unfold loop_data;
      try naive_solver eauto using commit_cursor, commit_answer, commit_tracked.
    intros (?&?&?&?). split_and!; [by apply commit_cursor|done|by apply commit_stream_ok|by apply commit_streamed].
Qed.

(** *** Every step *)

(** While one call of [Start] is at work no other thread has data. *)
Lemma other_starts i pc s s' :
  life_ok (Active i pc) (life_of s) → (∀ pc', start_data s' pc' → Forall (start_data s') (<[i := pc']> (starts (thr s)))).
Proof.
  intros [(_&_&_&_&_&_&_&Hu) _ _] pc' Hpc. apply Forall_lookup. intros j pc0.
  intros [(_ & <- & _)|[Hne Hj]]%list_lookup_insert_Some; [done|].
  destruct (active pc0) eqn:E; [|by destruct pc0]. by destruct Hne; rewrite (Hu j pc0 Hj E).
Qed.

Lemma set_data_frame s s' :
  fields (w s') = fields (w s) → length (heap (mem s')) = length (heap (mem s)) →
  Forall (set_data s) (sets (thr s)) → Forall (set_data s') (sets (thr s)).
Proof. intros Hf Hh H. eapply Forall_impl; [exact H|]. unfold set_data. by rewrite Hf, Hh. Qed.

(** Steps of threads that touch no value. *)
Lemma goto_start_data i pc s s1 :
  data_ok s → fields (w s1) = fields (w s) → heap (mem s1) = heap (mem s) → srv s1 = srv s →
  touched s1 = touched s → thr s1 = thr s → start_data s pc → data_ok (goto_start i pc s1).
Proof.
  intros Hd Hf Hh Hs Ht Hthr Hpc. apply (calm_data s); [by apply calm_same|done| | |]; simpl; rewrite Hthr; try apply Hd.
  apply Forall_insert; [apply Hd|done].
Qed.
Lemma goto_loop_data i pc s s1 :
  data_ok s → fields (w s1) = fields (w s) → heap (mem s1) = heap (mem s) → srv s1 = srv s →
  touched s1 = touched s → thr s1 = thr s → loop_data s pc → data_ok (goto_loop i pc s1).
Proof.
  intros Hd Hf Hh Hs Ht Hthr Hpc. apply (calm_data s); [by apply calm_same|done| | |]; simpl; rewrite Hthr; try apply Hd.
  apply Forall_insert; [apply Hd|done].
Qed.

Lemma close_chan_frame c s :
  w (close_chan c s) = w s ∧ heap (mem (close_chan c s)) = heap (mem s) ∧ srv (close_chan c s) = srv s
  ∧ touched (close_chan c s) = touched s ∧ thr (close_chan c s) = thr s.
Proof. unfold close_chan. destruct (chans (mem s) !! c) as [[]|]; done. Qed.
Lemma close_done_frame s :
  fields (w (close_done s)) = fields (w s) ∧ heap (mem (close_done s)) = heap (mem s)
  ∧ srv (close_done s) = srv s ∧ touched (close_done s) = touched s ∧ thr (close_done s) = thr s.
Proof. unfold close_done. destruct (done (w s)); done. Qed.

Lemma snapshot_data s :
  data_ok s → cursor_ok (version (srv s)) s ∧ answer_ok (version (srv s)) (values_of (snapshot (srv s))) s
    ∧ all_tracked (version (srv s)) (fields (w s)) s.
Proof.
  intros Hd. split_and!.
  - pose proof (so_range _ (do_srv s Hd)). unfold cursor_ok. lia.
  - intros p. apply loaded_snapshot, Hd.
  - intros p [id Hp] Hn. congruence.
Qed.

Lemma start_step_data ph i c s s' :
  life_ok ph (life_of s) → mem_ok s → data_ok s → start_step i c s = Some s' → data_ok s'.
Proof.
  intros Hl Hm Hd. unfold start_step. destruct (starts (thr s) !! i) as [pc|] eqn:Hi; [|done]. simpl.
  pose proof (proj1 (Forall_lookup _ _) (do_starts s Hd) i pc Hi) as Hpc.
  pose proof (proj1 (Forall_lookup _ _) (mo_starts s Hm) i pc Hi) as Hsub.
  destruct pc as [|v vals todo|v|v|v|old|err], c as [| |p rc|rc|n rc]; try done; intros Hstep; step_inv; subst;
    try (by apply (goto_start_data i _ s)).
  - apply (goto_start_data i _ s); try done. simpl. by apply snapshot_data.
  - apply (goto_start_data i _ s); try done. simpl. naive_solver.
  - assert (ph = Active i (SApply v vals todo)) as -> by (by eapply active_phase).
    pose proof (lo_phase _ _ Hl) as (_&_&Hloops&_). simpl in Hloops.
    destruct Hpc as (Hv & Ha & Hall).
    pose proof (visit_tracked v vals todo _ rc p s _ Hm Hd Hv Ha Hsub Hvisit Hall) as (Hall' & Hv' & Ha').
    apply visit_at_entry in Hvisit as (id & _ & -> & ->).
    destruct (frame_at_entry (entry_apply rc (loaded vals p)) id s) as (Hf & Hs & Ht & Hthr & Hh).
    split; simpl; rewrite ?Hs, ?Hf, ?Hthr; try apply Hd.
    + by apply (other_starts i _ s _ Hl).
    + by rewrite Hloops.
    + by apply set_data_frame; [..|apply Hd].
  - destruct (close_chan_frame (cancelReady (w s)) s) as (Hw & ? & ? & ? & ?).
    apply (goto_start_data i _ s); try done. by rewrite Hw.
  - apply (calm_data s); [by apply calm_same|done| | |]; simpl; [|apply Forall_app_2; [apply Hd|auto]|apply Hd].
    apply Forall_insert; [apply Hd|done].
  - destruct (close_chan_frame old s) as (Hw & ? & ? & ? & ?). apply (goto_start_data i _ s); try done. by rewrite Hw.
Qed.

Lemma loop_step_data mn mx ph i c s s' :
  life_ok ph (life_of s) → mem_ok s → data_ok s → loop_step mn mx i c s = Some s' → data_ok s'.
Proof.
  intros Hl Hm Hd. unfold loop_step. destruct (loops (thr s) !! i) as [l|] eqn:Hi; [|done]. simpl.
  pose proof (proj1 (Forall_lookup _ _) (do_loops s Hd) i l Hi) as Hpc.
  pose proof (proj1 (Forall_lookup _ _) (mo_loops s Hm) i l Hi) as Hsub.
  destruct (loop_phase ph i l _ Hl Hi) as (-> & -> & Hloops). simpl in Hloops.
  pose proof (lo_phase _ _ Hl) as (_&_&_&_&_&Hna).
  assert (∀ l' s1, fields (w s1) = fields (w s) → srv s1 = srv s → thr s1 = thr s →
    length (heap (mem s1)) = length (heap (mem s)) → loop_data s1 l' → data_ok (goto_loop 0 l' s1)) as Hgo.
  { intros l' s1 Hf Hs Hthr Hh Hl'. split; simpl; rewrite ?Hs, ?Hf, ?Hthr; try apply Hd.
    - apply Forall_lookup. intros j pc Hj. by pose proof (Hna j pc Hj); destruct pc.
    - rewrite Hloops. simpl. auto.
    - by apply set_data_frame; [..|apply Hd]. }
  destruct (close_done_frame s) as (Hcf & Hch & Hcs & Hct & Hcthr).
  assert (data_ok (goto_loop 0 LExit (close_done s))) as Hexit.
  { apply Hgo; try done. by rewrite Hch. }
  destruct l as [v|v b ps|v b ps base k live|v b ps|v b ps|v b ps|v ps vals todo|], c as [| |p rc|rc|n rc]; try done;
    intros Hstep; step_inv; try done; try (by apply Hgo); simpl in Hpc.
  - apply Hgo; try done. simpl. destruct Hpc as [? ?]. split_and!; try done. intros p Hp.
    by apply elem_of_elements, elem_of_dom.
  - destruct Hpc as (?&?&Hall). destruct (subscribe_streamed v s Hall). by apply Hgo.
  - destruct Hpc as (?&?&?&?). apply Hgo; try done. simpl. eauto using streamed_tracked.
  - destruct Hpc as (Hv & Hps & Hk & Hall). destruct (log (srv s) !! k) as [ch|] eqn:Hck; [|done]. simpl in Hstep. step_inv.
    apply Nat.ltb_lt in Heqb0. pose proof (next_streamed v ps base k live rc ch s Hm Hd Hps Hk Heqb0 Hck Hall) as Hall'.
    assert (stream_ok v base (S k) live (log (srv s))) as Hk'.
    { destruct Hk as [Hb Ha Hlv]. split; [lia|done|]. intros q m Hq. destruct (Hlv q m Hq). lia. }
    destruct (delivers v ps ch); [|by apply Hgo].
    destruct (frame_deliver rc Replay ch s) as (Hf & Hs & Ht & Hthr & Hh). apply Hgo; try done. simpl.
    unfold cursor_ok, paths_ok. rewrite Hs, Hf. split_and!; [apply Hv..|exact Hps|exact Hk'|exact Hall'].
  - destruct Hpc as (Hv & Hps & Hk & Hall). apply Nat.eqb_eq in Heqb0 as ->.
    destruct (log (srv s) !! n) as [ch|] eqn:Hcn; [|done]. simpl in Hstep. step_inv.
    pose proof (event_streamed v ps base live rc n ch s Hm Hd Hcn Heqb0 Hall) as Hall'.
    pose proof (event_stream_ok v ps base live n ch _ Hk Hcn Heqb0) as Hk'.
    destruct (frame_deliver rc Live ch s) as (Hf & Hs & Ht & Hthr & Hh). apply Hgo; try done. simpl.
    unfold cursor_ok, paths_ok. rewrite Hs, Hf. split_and!; [apply Hv..|exact Hps|exact Hk'|exact Hall'].
  - apply Hgo; try done. simpl. destruct Hpc as (? & ? & ?). destruct (snapshot_data s Hd) as (?&?&?). by split_and!.
  - apply Hgo; try done. simpl. naive_solver.
  - destruct Hpc as (Hv & Hps & Ha & Hall).
    pose proof (visit_tracked v vals todo _ rc p s _ Hm Hd Hv Ha Hsub Hvisit Hall) as (Hall' & Hv' & Ha').
    apply visit_at_entry in Hvisit as (id & _ & -> & ->).
    destruct (frame_at_entry (entry_apply rc (loaded vals p)) id s) as (Hf & Hs & Ht & Hthr & Hh).
    apply Hgo; try done. simpl. split_and!; try done. unfold paths_ok. by rewrite Hf.
Qed.

Lemma close_step_data i c s s' : data_ok s → close_step i c s = Some s' → data_ok s'.
Proof.
  intros Hd. unfold close_step. destruct (closers (thr s) !! i) as [pc|]; [|done]. simpl.
  assert (∀ s1 pc', calm s s1 → thr s1 = thr s → data_ok (goto_close i pc' s1)) as Hgo.
  { intros s1 pc' Hc Ht. apply (calm_data s); simpl; rewrite ?Ht; try apply Hd.
    destruct Hc as [? ? ? ? Hsh]. by split. }
  assert (calm s s) by (by apply calm_same).
  destruct pc as [r| | | |all todo|all|], c as [| |p rc|rc|n rc]; try done; intros Hstep; step_inv; auto.
  - destruct (cancel (w s)); step_inv; by apply Hgo; [apply calm_same|].
  - apply visit_at_entry in Hvisit as (id & _ & -> & ->). apply Hgo; [apply calm_at_entry, keeps_close|].
    by apply (frame_at_entry entry_close id s).
Qed.

Lemma set_step_data i r s s' : mem_ok s → data_ok s → set_step i r s = Some s' → data_ok s'.
Proof.
  intros Hm Hd. unfold set_step. destruct (sets (thr s) !! i) as [pc|] eqn:Hi; [|done]. simpl.
  pose proof (proj1 (Forall_lookup _ _) (do_sets s Hd) i pc Hi) as Hpc.
  destruct pc as [p tv|p [id|] tv|]; intros Hstep; step_inv.
  - apply (calm_data s); simpl; try apply Hd; [by apply calm_same|]. apply Forall_insert; [apply Hd|].
    simpl. destruct (fields (w s) !! p) as [id|] eqn:Hp; [|done]. split; [by apply (mo_fields s Hm p)|].
    intros q Hq. by eapply (do_inj s Hd).
  - destruct Hpc as [_ Hq]. destruct (frame_at_entry (entry_apply r (Some tv)) id s) as (_ & _ & _ & Hthr & _).
    destruct (calm_touch r p id tv s Hq) as [? ? ? ? Hsh].
    apply (calm_data s); simpl; rewrite ?Hthr; try apply Hd; [by split|]. apply Forall_insert; [apply Hd|done].
  - apply (calm_data s); simpl; try apply Hd; [by apply calm_same|]. apply Forall_insert; [apply Hd|done].
Qed.

Lemma register_data ph path ty d s :
  life_ok ph (life_of s) → mem_ok s → data_ok s → data_ok (registerField path ty d s).2.
Proof.
  intros Hl Hm Hd. unfold registerField. destruct (started (w s)) eqn:Hst; [done|]. simpl.
  assert (∀ p id, fields (w s) !! p = Some id → id < length (heap (mem s))) as Hlt by (intros; by eapply (mo_fields s Hm)).
  destruct ph as [|i pc|l]; [|destruct (lo_phase _ _ Hl) as (Hs & _); simpl in Hs; congruence..].
  destruct (lo_phase _ _ Hl) as (_&_&Hloops&_&_&Hna). simpl in Hloops. split; simpl.
  - apply Hd.
  - intros p q id. rewrite !lookup_insert_Some. intros [[<- <-]|[? Hp]] [[<- ?]|[? Hq]]; try done.
    + apply Hlt in Hq. lia.
    + apply Hlt in Hp. lia.
    + by eapply (do_inj s Hd).
  - apply Forall_lookup. intros j pc Hj. by pose proof (Hna j pc Hj); destruct pc.
  - by rewrite Hloops.
  - eapply Forall_impl; [exact (do_sets s Hd)|]. intros [|p [id|] tv|]; simpl; try done. intros [Hid Hq].
    split; [rewrite length_app; lia|]. intros q. rewrite lookup_insert_Some. intros [[_ Hn]|[_ Hq']]; [lia|auto].
Qed.

Lemma step_data mn mx a s s' : Inv s → data_ok s → step mn mx a s = Some s' → data_ok s'.
Proof.
  intros [[ph Hl] Hm] Hd. destruct a as [path ty d| |i c| |i c|i c|p tv cs|i r|cs| |id]; simpl; intros Hstep; step_inv;
    eauto using start_step_data, close_step_data, loop_step_data, register_data, set_step_data, commit_data.
  - unfold Start_begin. apply (calm_data s); try done.
    + apply calm_same; by destruct (closed (w s)), (started (w s)).
    + destruct (closed (w s)), (started (w s)); simpl; (apply Forall_app_2; [apply Hd|by constructor]).
    + destruct (closed (w s)), (started (w s)); apply Hd.
    + destruct (closed (w s)), (started (w s)); apply Hd.
  - unfold Close_begin. destruct (closed (w s)); apply (calm_data s); try done; try apply Hd; by apply calm_same.
  - pose proof (commit_data cs s Hd Heqb) as [H1 H2 H3 H4 H5]. split; simpl; auto. apply Forall_app_2; [done|]. by constructor.
  - destruct (cancel (w s)); step_inv. apply (calm_data s); try done; apply Hd.
  - destruct (heap (mem s) !! id) as [e|] eqn:He; [|done]. simpl in Hstep.
    destruct (entry_receive e) as [e'|] eqn:Hr; [|done]. simpl in Hstep. step_inv.
    pose proof (calm_at_entry entry_receive id s keeps_receive) as Hc. unfold at_entry in Hc. rewrite He, Hr in Hc.
    apply (calm_data s); try done; apply Hd.
Qed.

(** *** What a stream has brought *)

(** With the replay over and no live event of its path, a value is the last change
    that the log had when the stream was opened. *)
Lemma told_latest v base live p s :
  data_ok s → cursor_ok v s → stream_ok v base base live (log (srv s)) → live !! p = None →
  match latest p (take base (log (srv s))) with
  | Some c => ∃ ch, ch ∈ [Snapshot; Replay] ∧ told v base live p (log (srv s)) = render ch p (c_value c)
  | None => told v base live p (log (srv s)) = None
  end.
Proof.
  intros [Hsrv _ _ _ _] Hv [Hb Ha _] Hlive. pose proof (startVersion_le v _ Hv Hsrv) as Hstart.
  unfold told. rewrite Hlive. destruct (last (filter (λ c, newer v p c) _)) as [c|] eqn:E.
  - apply last_filter_Some in E as (k & Hk & [Hp Hver] & Hlast).
    assert (latest p (take base (log (srv s))) = Some c) as ->; [|exists Replay; split; [set_solver|done]].
    apply last_filter_Some. exists k. split_and!; [done..|]. intros m d Hm Hd Hpd. apply (Hlast m d Hm Hd).
    split; [done|]. apply lookup_take_elim in Hk as [_ Hk], Hd as [_ Hd].
    pose proof (so_sorted _ Hsrv k m c d ltac:(lia) Hk Hd). lia.
  - rewrite last_filter_None in E.
    assert (loaded_at v p (log (srv s)) = loaded_at v p (take base (log (srv s)))) as Hbase.
    { rewrite <- (take_drop base (log (srv s))) at 1. apply loaded_at_app. intros c [k Hk]%list_elem_of_lookup.
      rewrite lookup_drop in Hk. apply (Ha (base + k)); [lia|done]. }
    assert (∀ k c, take base (log (srv s)) !! k = Some c → c_path c = p → in_version v p c) as Hin.
    { intros k c Hk Hp. unfold in_version. rewrite bool_decide_true by done. apply Is_true_true, Z.leb_le.
      destruct (decide (c_ver c ≤ v)%Z); [done|]. exfalso. apply (E k c Hk). split; [done|lia]. }
    rewrite Hbase. unfold loaded_at. destruct (latest p _) as [c|] eqn:El.
    + apply last_filter_Some in El as (k & Hk & Hp & Hlast). exists Snapshot. split; [set_solver|].
      assert (last (filter (λ c, in_version v p c) (take base (log (srv s)))) = Some c) as ->; [|done].
      apply last_filter_Some. exists k. split_and!; [done|by eapply Hin|]. intros m d Hm Hd.
      intros [Hpd%bool_decide_eq_true _]%Is_true_true%andb_true_iff. by apply (Hlast m d).
    + unfold latest in El. rewrite last_filter_None in El.
      assert (last (filter (λ c, in_version v p c) (take base (log (srv s)))) = None) as ->; [|done].
      apply last_filter_None. intros k c Hk [Hpc%bool_decide_eq_true _]%Is_true_true%andb_true_iff. by apply (El k c).
Qed.

(** The loop was told of the last change of the path: its last live event is that
    change, or there was none and the path has not changed since the stream was
    opened. *)
Definition up_to_date (base : nat) (live : gmap string nat) (p : string) (l : list change) : Prop :=
  ∀ m c, default base (S <$> live !! p) ≤ m → l !! m = Some c → c_path c ≠ p.

Lemma latest_take base p l :
  (∀ m c, base ≤ m → l !! m = Some c → c_path c ≠ p) → latest p l = latest p (take base l).
Proof.
  intros Hn. rewrite <- (take_drop base l) at 1. unfold latest. rewrite filter_app.
  assert (filter (λ c, c_path c = p) (drop base l) = []) as ->; [|by rewrite app_nil_r].
  apply last_None, last_filter_None. intros k c Hk. rewrite lookup_drop in Hk. apply (Hn (base + k)); [lia|done].
Qed.
End invariant.

Section theorems.
Context {rd : Rendering} (minBackoff maxBackoff : Z).
Local Abbreviation reachable := (Watcher.reachable minBackoff maxBackoff).

(** C26: What a registered value shows once its stream has sent the replay, in any
    interleaving and across failed snapshots, broken streams and reconnects,
    unless its path was written through the watcher: the change of its last live
    event; if there was none, the last change that the server's log had when the
    stream was opened, as the replay or the snapshot renders it; nothing if the
    log had none. So the value is the server's current one, as one of the ways
    renders it, whenever the loop was told of the path's last change: its last
    live event was that change, or the path has not changed since the stream was
    opened. The server is taken to number its versions in commit order, to answer
    a snapshot of its newest version, to replay from its store the changes from
    the start version on in that order, and to keep the way it renders values
    (nulls as empty texts or absent, redaction) during the run. Of live events
    nothing is assumed: rollbacks send none, others may be lost, repeated or out
    of order, and then the value stays at what was told. *)
Theorem watcher_converges s i v b ps base live p :
  reachable s → loops (thr s) !! i = Some (LStream v b ps base base live) →
  is_Some (fields (w s) !! p) → p ∉ touched s →
  ∃ id e, fields (w s) !! p = Some id ∧ heap (mem s) !! id = Some e
    ∧ match live !! p with
      | Some n => ∃ c, log (srv s) !! n = Some c ∧ c_path c = p ∧ entry_shows e (render Live p (c_value c))
      | None =>
          match latest p (take base (log (srv s))) with
          | Some c => ∃ ch, ch ∈ [Snapshot; Replay] ∧ entry_shows e (render ch p (c_value c))
          | None => entry_shows e None
          end
      end
    ∧ (up_to_date base live p (log (srv s)) →
       match latest p (log (srv s)) with
       | Some c => ∃ ch, entry_shows e (render ch p (c_value c))
       | None => entry_shows e None
       end).
Proof.
  intros Hr Hi Hp Ht.
  destruct (reachable_ind' minBackoff maxBackoff data_ok init_data) with (s := s) as [_ Hd]; [|done|].
  { intros a s0 s1. apply step_data. }
  pose proof (proj1 (Forall_lookup _ _) (do_loops s Hd) i _ Hi) as (Hv & _ & Hk & Hall).
  destruct (Hall p Hp (lookup_empty _) Ht) as [(n & c & ? & _)|(id & e & Hid & He & Hsh)]; [lia|].
  exists id, e. split; [done|]. split; [done|]. destruct (live !! p) as [n|] eqn:En.
  - destruct (sk_live _ _ _ _ _ Hk p n En) as (_ & c & Hc & [Hpath _]). unfold told in Hsh. rewrite En, Hc in Hsh. simpl in Hsh.
    split; [by exists c|]. unfold up_to_date. rewrite En. simpl. intros Hup.
    assert (latest p (log (srv s)) = Some c) as ->; [|by exists Live].
    apply last_filter_Some. exists n. split_and!; [done..|]. intros m d Hm. by apply Hup.
  - pose proof (told_latest v base live p s Hd Hv Hk En) as Htold. unfold up_to_date. rewrite En. simpl.
    destruct (latest p (take base (log (srv s)))) as [c|] eqn:El.
    + destruct Htold as (ch & Hch & E). rewrite E in Hsh. split; [by exists ch|]. intros Hup.
      rewrite (latest_take base) by done. rewrite El. by exists ch.
    + rewrite Htold in Hsh. split; [done|]. intros Hup. rewrite (latest_take base) by done. by rewrite El.
Qed.
End theorems.
