(* ===== verification/WatchGroup.v ===== *)
(** * Groups of watched fields

    [sdk/configwatcher/fieldgroups.go]: registration of the tagged fields of a
    struct and filling a struct of the same type from the values. The reflected
    type of a struct is the list of its fields; a struct value is the list of
    their values. *)
From S2P Require Import Prelude GoText GoFloat GoTime WatchValue Watcher.

(** The types of fields the switch of [registerGroupField] tells apart; an
    [int] is 64 bits wide. *)
Inductive gtype := GDuration | GString | GBool | GInt (width : Z) | GFloat64 | GFloat32 | GOther (name : string).
Global Instance gtype_eq_dec : EqDecision gtype.
Proof. solve_decision. Defined.

Record gfield := mkField { f_name : string; f_tag : string; f_settable : bool; f_type : gtype }.
Global Instance gfield_eq_dec : EqDecision gfield.
Proof. solve_decision. Defined.

Inductive gval := GStr (s : string) | GBoolean (b : bool) | GInteger (n : Z) | GNumber (x : float64) | GOpaque.
Record gstruct := mkStruct { s_type : list gfield; s_vals : list gval }.

Inductive gerror := NotStructPointer | FieldError (name tag : string) (e : gerror) | Unsupported (ty : gtype)
| Registration (e : werror) | TypeMismatch.

(** [float32(x)], as the [float64] it widens to. *)
Definition to_float32 (x : float64) : float64 :=
  match x with
  | S754_finite s m e => binary_round 24 128 s m e
  | _ => x
  end.

(** A getter: the index of the field, the handle and the conversion of the
    [Set] method. *)
Record getter := mkGetter { g_idx : nat; g_id : nat; g_type : gtype }.
Record Group := mkGroup { getters : list getter; typ : list gfield }.

Definition kind_of (ty : gtype) : option {t : vtype & denote t} :=
  match ty with
  | GDuration => Some (existT VDuration 0%Z)
  | GString => Some (existT VString "")
  | GBool => Some (existT VBool false)
  | GInt _ => Some (existT VInt 0%Z)
  | GFloat64 | GFloat32 => Some (existT VFloat float_zero)
  | GOther _ => None
  end.

Definition registerGroupField (path : string) (ty : gtype) (s : St) : result gerror nat * St :=
  match kind_of ty with
  | None => (Err (Unsupported ty), s)
  | Some (existT t d) =>
      match registerField path t d s with
      | (Ok id, s) => (Ok id, s)
      | (Err e, s) => (Err (Registration e), s)
      end
  end.

Definition skipped (f : gfield) : bool :=
  bool_decide (f_tag f = "") || bool_decide (f_tag f = "-") || negb (f_settable f).

(** The loop of [NewGroup] from field [i] on. *)
Fixpoint group_fields (i : nat) (fs : list gfield) (s : St) : result gerror (list getter) * St :=
  match fs with
  | [] => (Ok [], s)
  | f :: fs =>
      if skipped f then group_fields (S i) fs s
      else
        match registerGroupField (f_tag f) (f_type f) s with
        | (Err e, s) => (Err (FieldError (f_name f) (f_tag f) e), s)
        | (Ok id, s) =>
            match group_fields (S i) fs s with
            | (Ok gs, s) => (Ok (mkGetter i id (f_type f) :: gs), s)
            | (Err e, s) => (Err e, s)
            end
        end
  end.

(** [None] is an argument that is not a non-nil pointer to a struct. *)
Definition NewGroup (p : option gstruct) (s : St) : result gerror Group * St :=
  match p with
  | None => (Err NotStructPointer, s)
  | Some x =>
      match group_fields 0 (s_type x) s with
      | (Ok gs, s) => (Ok (mkGroup gs (s_type x)), s)
      | (Err e, s) => (Err e, s)
      end
  end.

(** What the [Set] method stores of the value's [Get]: [SetInt] keeps the low
    bits of a narrow field, [SetFloat] rounds to [float32]. *)
Definition stored (ty : gtype) (e : fieldEntry) : gval :=
  match e with
  | existT VString v => GStr (Value.Get v)
  | existT VBool v => GBoolean (Value.Get v)
  | existT VFloat v => GNumber (match ty with GFloat32 => to_float32 (Value.Get v) | _ => Value.Get v end)
  | existT VInt v => GInteger (match ty with GInt width => wrap width (Value.Get v) | _ => Value.Get v end)
  | existT VDuration v => GInteger (Value.Get v)
  | existT VTime v => GOpaque
  end.

Definition fill_one (h : list fieldEntry) (g : getter) (vals : list gval) : list gval :=
  match h !! g_id g with Some e => <[g_idx g := stored (g_type g) e]> vals | None => vals end.

Definition Fill (g : Group) (p : option gstruct) (s : St) : result gerror gstruct :=
  match p with
  | None => Err NotStructPointer
  | Some x =>
      if bool_decide (s_type x = typ g)
      then Ok (mkStruct (s_type x) (foldl (λ vals g, fill_one (heap (mem s)) g vals) (s_vals x) (getters g)))
      else Err TypeMismatch
  end.

(** * Properties *)
Lemma register_spec path t d s id s' :
  registerField path t d s = (Ok id, s') →
  id = length (heap (mem s)) ∧ heap (mem s') = heap (mem s) ++ [existT t (Value.newValue d)]
  ∧ fields (w s') = <[path := id]> (fields (w s)).
Proof. unfold registerField. destruct (started (w s)) eqn:E; [done|]. by intros [= <- <-]. Qed.

(** A getter of the field at its index, whose handle is the entry made for the
    field's path. *)
Definition getter_for (f : gfield) (i : nat) (n m : nat) (g : getter) : Prop :=
  g_idx g = i ∧ g_type g = f_type f ∧ n ≤ g_id g < m.

Record group_ok (i : nat) (fs : list gfield) (gs : list getter) (s s' : St) : Prop := {
  go_heap : length (heap (mem s)) ≤ length (heap (mem s'));
  go_all k f : fs !! k = Some f → skipped f = false →
    ∃ g, g ∈ gs ∧ getter_for f (i + k) (length (heap (mem s))) (length (heap (mem s'))) g;
  go_only g : g ∈ gs → ∃ k f, g_idx g = i + k ∧ fs !! k = Some f ∧ skipped f = false;
  go_nodup : NoDup (g_idx <$> gs) }.

Lemma group_fields_ok i fs s gs s' : group_fields i fs s = (Ok gs, s') → group_ok i fs gs s s'.
Proof.
  revert i s gs. induction fs as [|f fs IH]; intros i s gs Hg; simpl in Hg.
  { injection Hg as <- <-. split; simpl; [done|done|by intros g ?%not_elem_of_nil|constructor]. }
  destruct (skipped f) eqn:Hf.
  - apply IH in Hg as [H1 H2 H3 H4]. split; try done.
    + intros [|k] f' Hk Hs; [simpl in Hk; congruence|]. replace (i + S k) with (S i + k) by lia. eauto.
    + intros g Hin. destruct (H3 g Hin) as (k & f' & ? & ? & ?). exists (S k), f'. split_and!; [lia|done..].
  - destruct (registerGroupField (f_tag f) (f_type f) s) as [[id|e] s1] eqn:Hr; [|done].
    destruct (group_fields (S i) fs s1) as [[gs'|e] s2] eqn:Hrest; [|done]. injection Hg as <- <-.
    unfold registerGroupField in Hr. destruct (kind_of (f_type f)) as [[t d]|]; [|done].
    destruct (registerField (f_tag f) t d s) as [[id'|e] s1'] eqn:Hreg; [|done]. injection Hr as <- <-.
    apply register_spec in Hreg as (-> & Hh & _). apply IH in Hrest as [H1 H2 H3 H4].
    rewrite Hh, length_app in H1. simpl in H1. split.
    + lia.
    + intros [|k] f' Hk Hs; simplify_eq/=.
      * eexists. split; [left|]. split_and!; simpl; try done; lia.
      * destruct (H2 k f' Hk Hs) as (g & Hin & ? & ? & ?). exists g. split; [by right|].
        rewrite Hh, length_app in *. split_and!; try done; lia.
    + intros g [->|Hin]%elem_of_cons; [exists 0, f; split_and!; [simpl; lia|done..]|].
      destruct (H3 g Hin) as (k & f' & ? & ? & ?). exists (S k), f'. split_and!; [lia|done..].
    + simpl. constructor; [|done]. intros (g & Heq & Hin)%list_elem_of_fmap.
      destruct (H3 g Hin) as (k & f' & ? & _). simpl in *. lia.
Qed.

Lemma fill_other h gs vals j :
  j ∉ g_idx <$> gs → foldl (λ vals g, fill_one h g vals) vals gs !! j = vals !! j.
Proof.
  revert vals. induction gs as [|g gs IH]; intros vals Hj; simpl; [done|]. rewrite IH by set_solver.
  unfold fill_one. destruct (h !! g_id g); [|done]. apply list_lookup_insert_ne. set_solver.
Qed.
Lemma fill_length h gs vals : length (foldl (λ vals g, fill_one h g vals) vals gs) = length vals.
Proof.
  revert vals. induction gs as [|g gs IH]; intros vals; simpl; [done|]. rewrite IH.
  unfold fill_one. by destruct (h !! g_id g); rewrite ?length_insert.
Qed.
Lemma fill_at h gs vals g e :
  NoDup (g_idx <$> gs) → g ∈ gs → h !! g_id g = Some e → g_idx g < length vals →
  foldl (λ vals g, fill_one h g vals) vals gs !! g_idx g = Some (stored (g_type g) e).
Proof.
  revert vals. induction gs as [|g' gs IH]; intros vals Hnd Hin He Hlt; [by apply not_elem_of_nil in Hin|].
  apply NoDup_cons in Hnd as [Hn Hnd]. apply elem_of_cons in Hin as [->|Hin]; simpl.
  - rewrite fill_other by done. unfold fill_one. rewrite He. by apply list_lookup_insert_eq.
  - apply IH; try done. unfold fill_one. by destruct (h !! g_id g'); rewrite ?length_insert.
Qed.

(** Every tagged field of a filled struct is the current value of a handle of
    its own, converted to the field's type, and the other fields are left
    alone, at any later time of the watcher. *)
Theorem fill_reads_values x y g s s1 s2 z i f :
  NewGroup (Some x) s = (Ok g, s1) → Fill g (Some y) s2 = Ok z →
  length (heap (mem s1)) ≤ length (heap (mem s2)) → length (s_vals y) = length (s_type y) →
  s_type y !! i = Some f →
  if skipped f then s_vals z !! i = s_vals y !! i
  else ∃ id e, length (heap (mem s)) ≤ id < length (heap (mem s1)) ∧ heap (mem s2) !! id = Some e
         ∧ s_vals z !! i = Some (stored (f_type f) e).
Proof.
  unfold NewGroup, Fill. destruct (group_fields 0 (s_type x) s) as [[gs|e] s0] eqn:Hg; [|done].
  intros [= <- <-]. simpl. case_bool_decide as Ht; [|done]. intros [= <-] Hle Hlen Hi. simpl.
  apply group_fields_ok in Hg as [_ Hall Honly Hnd]. rewrite <- Ht in *. destruct (skipped f) eqn:Hf.
  - apply fill_other. intros (g & -> & Hin)%list_elem_of_fmap. destruct (Honly g Hin) as (k & f' & Hk & Hf' & ?).
    simpl in Hk. rewrite Hk in Hi. congruence.
  - destruct (Hall i f Hi Hf) as (g & Hin & Hidx & Hty & Hid). simpl in Hidx.
    destruct (lookup_lt_is_Some_2 (heap (mem s2)) (g_id g)) as [e He]; [lia|].
    exists (g_id g), e. split_and!; [lia..|done|]. rewrite <- Hidx, <- Hty. apply fill_at; try done.
    rewrite Hidx, Hlen. by eapply lookup_lt_Some.
Qed.
