(* ===== verification/WatcherScenario.v ===== *)
(** * Runs of the watcher

    Concrete runs at which the theorems apply, and runs that show what the
    documentation of the watcher does not lead one to expect. *)
From S2P Require Import Prelude GoText GoFloat GoTime WatchValue Watcher WatcherFacts WatcherTheorems WatcherData WatchGroup.
Import TypedValue (TypedValue, StringVal, IntVal, FloatVal).

(** A server that shows texts as they are, and a null as the config service does: as
    an empty text in the answer of [GetConfig] without descriptions and in live
    events, as absent in a replay. *)
#[export] Instance shown_values : Rendering := λ ch _ x,
  match ch, x with (Snapshot | Live), None => Some (StringVal "") | _, _ => x end.
Definition replayed : action := ALoopStep 0 (Next undisturbed).
Definition event (n : nat) : action := ALoopStep 0 (Event n undisturbed).

Definition min_backoff : Z := 500 * Millisecond.
Definition max_backoff : Z := 30 * Second.
Definition run_all (l : list action) : option St := run min_backoff max_backoff l New.
Definition state_of (l : list action) : St := default New (run_all l).

Lemma run_reachable l s s' :
  reachable min_backoff max_backoff s → run min_backoff max_backoff l s = Some s' →
  reachable min_backoff max_backoff s'.
Proof.
  revert s. induction l as [|a l IH]; intros s Hs; simpl; [by intros [= <-]|].
  intros (s1 & Ha & Hl)%bind_Some. apply (IH s1); [|done]. eapply rtc_r; [done|]. by exists a.
Qed.
Lemma state_of_reachable l : is_Some (run_all l) → reachable min_backoff max_backoff (state_of l).
Proof.
  intros [s Hs]. unfold state_of. rewrite Hs. simpl. by apply (run_reachable l New); [apply rtc_refl|].
Qed.

(** What a value shows, for a string field. *)
Definition text_of (id : nat) (s : St) : option (string * bool) :=
  match heap (mem s) !! id with Some (existT VString v) => Some (Value.GetWithNull v) | _ => None end.
Definition queue_of (id : nat) (s : St) : list (string * string) :=
  match heap (mem s) !! id with
  | Some (existT VString v) => (λ c, (Value.Old c, Value.New c)) <$> Value.changes v
  | _ => []
  end.
Definition is_closed (id : nat) (s : St) : option bool := entry_closed <$> heap (mem s) !! id.

(** Two fields, a first version on the server, and a start up to its stream. *)
Definition a_val (x : string) : list (string * option TypedValue) := [("a", Some (StringVal x))].
Definition setup : list action :=
  [ARegister "a" VString "none"; ARegister "n" VInt (7%Z : denote VInt); ACommit (a_val "one")].
Definition start_ok : list action :=
  [AStart; AStartStep 0 Answer; AStartStep 0 (Pick "a" undisturbed); AStartStep 0 (Pick "n" undisturbed); AStartStep 0 Answer;
   AStartStep 0 Answer; AStartStep 0 Answer; AStartStep 0 Answer].
Definition streaming : list action := setup ++ start_ok ++ [ALoopStep 0 Answer; ALoopStep 0 Answer; replayed].
(** Another writer commits; the stream brings the event. *)
Definition delivered : list action := streaming ++ [ACommit (a_val "two"); event 1].

Example streaming_state :
  text_of 0 (state_of streaming) = Some ("one", true)
  ∧ queue_of 0 (state_of streaming) = [("none", "one")]
  ∧ loops (thr (state_of streaming)) = [LStream 1 min_backoff ["a"; "n"] 1 1 ∅].
Proof. vm_compute. done. Qed.
Example delivered_state :
  text_of 0 (state_of delivered) = Some ("two", true)
  ∧ queue_of 0 (state_of delivered) = [("none", "one"); ("one", "two")].
Proof. vm_compute. done. Qed.

(** ** Witnesses *)
Module WatcherWitnesses.

(** A close that comes while the first snapshot is still loading. *)
Definition early_close : list action := setup ++ [AStart; AClose].
Definition closing : list action :=
  delivered ++ [AClose; ACloseStep 0 Answer; ACloseStep 0 Answer; ALoopStep 0 Fail; ALoopStep 0 Answer;
    ACloseStep 0 Answer; ACloseStep 0 Answer; ACloseStep 0 (Pick "a" undisturbed); ACloseStep 0 (Pick "n" undisturbed); ACloseStep 0 Answer].

Lemma watcher_life_safe_witness :
  panicked (mem (state_of closing)) = false ∧ length (loops (thr (state_of closing))) ≤ 1.
Proof.
  destruct (watcher_life_safe min_backoff max_backoff (state_of closing)) as (H1 & H2 & _).
  - apply state_of_reachable. vm_compute. eauto.
  - split; [exact H1|exact H2].
Defined.

Lemma close_always_returns_witness :
  ∃ s' all n, nsteps (ustep min_backoff max_backoff) n (state_of early_close) s'
    ∧ n ≤ weight 0 (state_of early_close) ∧ closers (thr s') !! 0 = Some (CReturned all).
Proof.
  apply (close_always_returns min_backoff max_backoff 0 (CWait 0) (state_of early_close)).
  - apply state_of_reachable. vm_compute. eauto.
  - vm_compute. reflexivity.
  - reflexivity.
Defined.

Lemma close_leaves_nothing_running_witness :
  (loops (thr (state_of closing)) = [] ∨ loops (thr (state_of closing)) = [LExit])
  ∧ started (w (state_of closing)) = true.
Proof.
  destruct (close_leaves_nothing_running min_backoff max_backoff 0 {["a" := 0; "n" := 1]} (state_of closing)) as [H _].
  - apply state_of_reachable. vm_compute. eauto.
  - vm_compute. reflexivity.
  - split; [exact H|vm_compute; reflexivity].
Defined.

Lemma watcher_converges_witness :
  ∃ id e, fields (w (state_of delivered)) !! "a" = Some id ∧ heap (mem (state_of delivered)) !! id = Some e
    ∧ entry_shows e (Some (StringVal "two")).
Proof.
  destruct (watcher_converges min_backoff max_backoff (state_of delivered) 0 1 min_backoff ["a"; "n"] 1 {["a" := 1]} "a")
    as (id & e & Hid & He & Hlive & _).
  - apply state_of_reachable. vm_compute. eauto.
  - vm_compute. reflexivity.
  - vm_compute. eauto.
  - vm_compute. intros H. inversion H.
  - exists id, e. split; [exact Hid|]. split; [exact He|]. rewrite lookup_singleton_eq in Hlive.
    destruct Hlive as (c & Hc & _ & Hsh). vm_compute in Hc. injection Hc as <-. exact Hsh.
Defined.
End WatcherWitnesses.

(** ** Findings *)
Module WatcherFindings.

(** Cancelling the context given to [Start] ends the loop and leaves the
    channels of changes open. *)
Example cancelled_context_leaves_channels_open :
  let s := state_of (delivered ++ [ACancelCtx; ALoopStep 0 Fail; ALoopStep 0 Answer]) in
  loops (thr s) = [LExit] ∧ done (w s) = true ∧ is_closed 0 s = Some false ∧ is_closed 1 s = Some false.
Proof. vm_compute. done. Qed.

(** A write through the watcher updates the value after its commit, beside the
    stream: when the stream has brought a later value in between, the older one
    stays, with nothing left to deliver. *)
Example write_through_leaves_stale_value :
  let s := state_of (streaming ++ [ASet "a" (StringVal "mine") (a_val "mine"); ACommit (a_val "theirs");
      event 1; event 2; ASetStep 0 undisturbed; ASetStep 0 undisturbed]) in
  text_of 0 s = Some ("mine", true) ∧ length (log (srv s)) = 3
  ∧ loops (thr s) = [LStream 1 min_backoff ["a"; "n"] 1 1 {["a" := 2]}]
  ∧ value_at (version (srv s)) "a" (log (srv s)) = Some (StringVal "theirs").
Proof. vm_compute. done. Qed.

(** When the reload after a broken stream fails, the loop subscribes again from
    the version of the first snapshot and the value goes back to what it was. *)
Example failed_reload_goes_back_in_time :
  let before := state_of (delivered ++ [ACommit (a_val "three"); event 2]) in
  let after := state_of (delivered ++ [ACommit (a_val "three"); event 2; ALoopStep 0 Fail; ALoopStep 0 Answer;
      ALoopStep 0 Answer; ALoopStep 0 Fail; ALoopStep 0 Answer; replayed; replayed]) in
  text_of 0 before = Some ("three", true) ∧ text_of 0 after = Some ("two", true)
  ∧ last (queue_of 0 after) = Some ("three", "two").
Proof. vm_compute. done. Qed.

(** A path registered twice: the first handle is never updated or closed. *)
Example second_registration_orphans_first :
  let start := [AStart; AStartStep 0 Answer; AStartStep 0 (Pick "a" undisturbed); AStartStep 0 Answer; AStartStep 0 Answer;
                AStartStep 0 Answer; AStartStep 0 Answer] in
  let finish := [AClose; ACloseStep 0 Answer; ACloseStep 0 Answer; ALoopStep 0 Answer; ALoopStep 0 Fail; ALoopStep 0 Answer;
                 ACloseStep 0 Answer; ACloseStep 0 Answer; ACloseStep 0 (Pick "a" undisturbed); ACloseStep 0 Answer] in
  let s := state_of ([ARegister "a" VString "first"; ARegister "a" VString "second"; ACommit (a_val "one")]
                     ++ start ++ finish) in
  text_of 0 s = Some ("first", false) ∧ text_of 1 s = Some ("one", true)
  ∧ is_closed 0 s = Some false ∧ is_closed 1 s = Some true
  ∧ closers (thr s) = [CReturned {["a" := 1]}].
Proof. vm_compute. done. Qed.

(** A closed watcher that was never started still registers fields, whose
    channels nothing will close. *)
Example registration_after_close :
  let s := state_of [AClose; ACloseStep 0 Answer; ACloseStep 0 Answer; ARegister "a" VString "none"] in
  fields (w s) = {["a" := 0]} ∧ is_closed 0 s = Some false ∧ closers (thr s) = [CReturned ∅].
Proof. vm_compute. done. Qed.

(** NaN differs from itself: the same value again is announced as a change. *)
Example nan_is_announced_again :
  let nan := FloatVal S754_nan in
  let ops := replicate 3 (ValueRun.OApply undisturbed (Some nan)) in
  match ValueRun.vrun ops (ValueRun.mkSt (Value.newValue (ty := VFloat) float_zero) []) with
  | Some s => length (Value.changes (ValueRun.val s))
  | None => 0
  end = 3.
Proof. vm_compute. done. Qed.

(** A consumer that empties the full channel between the failed send and the
    drain: a drop is counted and every change is received. *)
Example drop_counted_nothing_lost :
  let ops := (λ n, ValueRun.OApply (mkRace 16 0) (Some (IntVal (Z.of_nat n)))) <$> seq 1 17 in
  match ValueRun.vrun ops (ValueRun.mkSt (Value.newValue (ty := VInt) (0%Z : denote VInt)) []) with
  | Some s => (Value.DroppedCount (ValueRun.val s), Value.New <$> Value.received (ValueRun.val s) ++ Value.changes (ValueRun.val s))
              = (1%Z, Z.of_nat <$> seq 1 17)
  | None => False
  end.
Proof. vm_compute. done. Qed.

(** A rollback sends no event: the value stays at what the stream told last, and
    with nothing else to come it stays there. *)
Example rollback_is_not_seen :
  let s := state_of (delivered ++ [ACommit (a_val "one")]) in
  text_of 0 s = Some ("two", true) ∧ c_value <$> latest "a" (log (srv s)) = Some (Some (StringVal "one"))
  ∧ loops (thr s) = [LStream 1 min_backoff ["a"; "n"] 1 1 {["a" := 1]}].
Proof. vm_compute. done. Qed.

(** A null is an empty text in a live event and absent in the replay of the next
    subscription. *)
Example null_depends_on_the_way :
  let told := delivered ++ [ACommit [("a", None)]; event 2] in
  let again := told ++ [ALoopStep 0 Fail; ALoopStep 0 Answer; ALoopStep 0 Answer; ALoopStep 0 Fail; ALoopStep 0 Answer;
                        replayed; replayed; replayed] in
  text_of 0 (state_of told) = Some ("", true) ∧ text_of 0 (state_of again) = Some ("none", false).
Proof. vm_compute. done. Qed.

(** With a maximum above [2^62] nanoseconds the doubled backoff overflows and
    the wait becomes negative, which is no wait. *)
Example huge_backoff_overflows : next_backoff max_int64 (2 ^ 62) = min_int64.
Proof. vm_compute. done. Qed.

(** A group cuts a value to a narrow field without an error, and a group that
    is refused leaves the fields before the refused one registered. *)
Definition narrow : gstruct := mkStruct [mkField "Port" "n" true (GInt 8)] [GInteger 0].
Example fill_truncates :
  let '(g, s) := NewGroup (Some narrow) New in
  let acts := [ACommit [("n", Some (IntVal 300))]; AStart; AStartStep 0 Answer; AStartStep 0 (Pick "n" undisturbed)] in
  match g, run min_backoff max_backoff acts s with
  | Ok g, Some s => Fill g (Some narrow) s
  | _, _ => Err TypeMismatch
  end = Ok (mkStruct (s_type narrow) [GInteger 44]).
Proof. vm_compute. done. Qed.
Definition mixed : gstruct :=
  mkStruct [mkField "Name" "a" true GString; mkField "Tags" "t" true (GOther "[]string")] [GStr ""; GOpaque].
Example refused_group_registers :
  let '(g, s) := NewGroup (Some mixed) New in
  g = Err (FieldError "Tags" "t" (Unsupported (GOther "[]string"))) ∧ fields (w s) = {["a" := 0]}.
Proof. vm_compute. done. Qed.
End WatcherFindings.
