(* ===== verification/ConfigClient.v ===== *)
(** * The config client of the SDK

    [sdk/configclient]: reads, conditional and batch writes, snapshots pinned to
    a version and the read-modify-write loop of [Update], over any transport.
    A call of the transport acts on a world that other clients change as well;
    a nil response without an error, which the transport's contract forbids,
    is a value of the model, and dereferencing it is a panic ([None]). The
    retry engine is that of [Retry]. *)
From S2P Require Import Prelude GoText GoFloat GoTime WatchValue Retry.
Import TypedValue (TypedValue, StringVal, IntVal, FloatVal, BoolVal, TimeVal, DurationVal).

(** ** Errors of the package *)
Definition ErrNotFound : go_error := LeafError "not found".
Definition ErrChecksumMismatch : go_error := LeafError "checksum mismatch: value was modified".
Definition ErrTypeMismatch : go_error := LeafError "value type mismatch".
Definition ErrInvalidTransportResponse : go_error :=
  LeafError "transport returned nil response with nil error".
Definition ErrInvalidArgument : go_error := LeafError "invalid argument: ".

(** [errors.Is(err, ErrChecksumMismatch)]: along wraps and joins. *)
Fixpoint is_mismatch (err : go_error) : bool :=
  match err with
  | LeafError m => bool_decide (m = "checksum mismatch: value was modified")
  | RetryableError (Some e) => is_mismatch e
  | WrapError _ e => is_mismatch e
  | JoinError es => existsb is_mismatch es
  | RetryableError None | ContextError _ => false
  end.

(** ** Requests and responses; a [*TypedValue] is an option. *)
Record GetFieldRequest := { gf_TenantID : string; gf_FieldPath : string; gf_Version : option Z }.
Record GetFieldResponse := { gr_FieldPath : string; gr_Value : option TypedValue; gr_Checksum : string }.
Record GetConfigRequest := { gc_TenantID : string; gc_Version : option Z }.
Record ConfigValue := {
  cv_FieldPath : string; cv_Value : option TypedValue; cv_Checksum : string; cv_Description : string }.
Record GetConfigResponse := { cr_TenantID : string; cr_Version : Z; cr_Values : list ConfigValue }.
Record GetFieldsRequest := { gfs_TenantID : string; gfs_FieldPaths : list string; gfs_Version : option Z }.
Record SetFieldRequest := {
  sf_TenantID : string; sf_FieldPath : string; sf_Value : option TypedValue;
  sf_ExpectedChecksum : option string; sf_Description : string; sf_ValueDescription : string;
  sf_IdempotencyKey : string }.
Record FieldUpdate := {
  fu_FieldPath : string; fu_Value : option TypedValue; fu_ExpectedChecksum : option string;
  fu_ValueDescription : string }.
Record SetFieldsRequest := {
  sfs_TenantID : string; sfs_Updates : list FieldUpdate; sfs_Description : string; sfs_IdempotencyKey : string }.
Record ConfigVersion := {
  ver_ID : string; ver_TenantID : string; ver_Version : Z; ver_Description : string;
  ver_CreatedBy : string; ver_CreatedAt : Z }.

(** ** The transport: a response or nil, an error or nil, and the world after. *)
Definition reply (W A : Type) : Type := (option A * option go_error) * W.
Class Transport (W : Type) := {
  t_GetField : GetFieldRequest → W → reply W GetFieldResponse;
  t_GetConfig : GetConfigRequest → W → reply W GetConfigResponse;
  t_GetFields : GetFieldsRequest → W → reply W (list ConfigValue);
  t_SetField : SetFieldRequest → W → reply W (option ConfigVersion);
  t_SetFields : SetFieldsRequest → W → reply W (option ConfigVersion) }.

(** ** Options *)
Record writeOptions := {
  idempotencyKey : string; description : string; valueDescription : string; expectedChecksum : string;
  valueDescriptions : gmap string string; fieldChecksums : gmap string string }.
Inductive WriteOption :=
| WithIdempotencyKey (s : string) | WithDescription (s : string) | WithValueDescription (s : string)
| WithExpectedChecksum (s : string) | WithValueDescriptions (m : gmap string string)
| WithFieldChecksums (m : gmap string string).
Definition apply_write (o : writeOptions) (x : WriteOption) : writeOptions :=
  match x with
  | WithIdempotencyKey s => {| idempotencyKey := s; description := description o; valueDescription := valueDescription o;
      expectedChecksum := expectedChecksum o; valueDescriptions := valueDescriptions o; fieldChecksums := fieldChecksums o |}
  | WithDescription s => {| idempotencyKey := idempotencyKey o; description := s; valueDescription := valueDescription o;
      expectedChecksum := expectedChecksum o; valueDescriptions := valueDescriptions o; fieldChecksums := fieldChecksums o |}
  | WithValueDescription s => {| idempotencyKey := idempotencyKey o; description := description o; valueDescription := s;
      expectedChecksum := expectedChecksum o; valueDescriptions := valueDescriptions o; fieldChecksums := fieldChecksums o |}
  | WithExpectedChecksum s => {| idempotencyKey := idempotencyKey o; description := description o; valueDescription := valueDescription o;
      expectedChecksum := s; valueDescriptions := valueDescriptions o; fieldChecksums := fieldChecksums o |}
  | WithValueDescriptions m => {| idempotencyKey := idempotencyKey o; description := description o; valueDescription := valueDescription o;
      expectedChecksum := expectedChecksum o; valueDescriptions := m; fieldChecksums := fieldChecksums o |}
  | WithFieldChecksums m => {| idempotencyKey := idempotencyKey o; description := description o; valueDescription := valueDescription o;
      expectedChecksum := expectedChecksum o; valueDescriptions := valueDescriptions o; fieldChecksums := m |}
  end.
Definition applyWriteOptions (opts : list WriteOption) : writeOptions :=
  foldl apply_write {| idempotencyKey := ""; description := ""; valueDescription := ""; expectedChecksum := "";
                       valueDescriptions := ∅; fieldChecksums := ∅ |} opts.

(** [if s != "" { p = &s }]. *)
Definition non_empty (s : string) : option string := if bool_decide (s = "") then None else Some s.
(** [String] of a pointer. *)
Definition ptr_text (tv : option TypedValue) : string := from_option TypedValue.text "" tv.

(** ** The client *)
Record Client := mkClient { retryEnabled : bool; retryConfig : Config }.
Definition zero_config : Config :=
  {| MaxAttempts := 0; InitialBackoff := 0; MaxBackoff := 0; Jitter := false; RetryableCheck := None |}.
(** [New], without or with [WithRetry]. *)
Definition New (retry : option Config) : Client :=
  match retry with
  | None => mkClient false zero_config
  | Some cfg => mkClient true (WithDefaults cfg)
  end.

Section client.
Context {W : Type} `{Transport W, MapRange}.
Variable Int64N : Z → W → Z * W.
Variable wait : Z → W → option go_error * W.

(** A call: a result and an error, or a panic. *)
Definition call (A : Type) : Type := W → option ((A * option go_error) * W).

(** [retry]; a panic in the function leaves the loop like a return. *)
Definition retry {A} (c : Client) (zero : A) (fn : call A) : call A := λ w,
  match Run Int64N wait
          (λ w, match fn w with Some ((x, e), w) => ((Some x, e), w) | None => ((None, None), w) end)
          (Some zero) (retryEnabled c) (retryConfig c) w with
  | Some ((Some x, e), w) => Some ((x, e), w)
  | _ => None
  end.

(** *** Reads *)
Definition get_field {A} (c : Client) (zero : A) (req : GetFieldRequest)
    (f : option GetFieldResponse → option (A * option go_error)) : call A :=
  retry c zero (λ w,
    match t_GetField req w with
    | ((_, Some err), w) => Some ((zero, Some err), w)
    | ((resp, None), w) => r ← f resp; Some (r, w)
    end).

Definition latest (tenantID fieldPath : string) : GetFieldRequest :=
  {| gf_TenantID := tenantID; gf_FieldPath := fieldPath; gf_Version := None |}.
(** [resp.Value] of a nil response panics. *)
Definition deref_value {A} (f : option TypedValue → A) (resp : option GetFieldResponse) : option (A * option go_error) :=
  match resp with Some r => Some (f (gr_Value r), None) | None => None end.

Definition Get (c : Client) (tenantID fieldPath : string) : call string :=
  get_field c "" (latest tenantID fieldPath) (deref_value ptr_text).
Definition getTypedValue (c : Client) (tenantID fieldPath : string) : call (option TypedValue) :=
  get_field c None (latest tenantID fieldPath) (deref_value id).

Definition valuesToMap (values : list ConfigValue) : gmap string string :=
  foldl (λ m v, match cv_Value v with
                | Some tv => <[cv_FieldPath v := TypedValue.text tv]> m
                | None => m
                end) ∅ values.
(** The nil map of an empty response reads like an empty one. *)
Definition configToMap (resp : option GetConfigResponse) : gmap string string :=
  match resp with None => ∅ | Some r => valuesToMap (cr_Values r) end.

Definition get_config (c : Client) (req : GetConfigRequest) : call (gmap string string) :=
  retry c ∅ (λ w,
    match t_GetConfig req w with
    | ((_, Some err), w) => Some ((∅, Some err), w)
    | ((resp, None), w) => Some ((configToMap resp, None), w)
    end).
Definition get_fields (c : Client) (req : GetFieldsRequest) : call (gmap string string) :=
  retry c ∅ (λ w,
    match t_GetFields req w with
    | ((_, Some err), w) => Some ((∅, Some err), w)
    | ((Some vs, None), w) => Some ((valuesToMap vs, None), w)
    | ((None, None), w) => None
    end).
Definition GetAll (c : Client) (tenantID : string) : call (gmap string string) :=
  get_config c {| gc_TenantID := tenantID; gc_Version := None |}.
Definition GetFields (c : Client) (tenantID : string) (fieldPaths : list string) : call (gmap string string) :=
  get_fields c {| gfs_TenantID := tenantID; gfs_FieldPaths := fieldPaths; gfs_Version := None |}.

(** The typed getters: [None] of the accessor is a value of another kind. *)
Definition typed_get {A} (zero : A) (access : TypedValue → option A) (c : Client) (tenantID fieldPath : string) : call A := λ w,
  '((tv, err), w) ← getTypedValue c tenantID fieldPath w;
  Some (match err, tv with
        | Some e, _ => ((zero, Some e), w)
        | None, None => ((zero, None), w)
        | None, Some tv =>
            match access tv with Some x => ((x, None), w) | None => ((zero, Some ErrTypeMismatch), w) end
        end).
Definition string_kinds (tv : TypedValue) : option string :=
  match TypedValue.kind tv with
  | TypedValue.KindString | TypedValue.KindURL | TypedValue.KindJSON => Some (TypedValue.str tv)
  | _ => None
  end.
Definition GetString := typed_get "" string_kinds.
Definition GetInt := typed_get 0%Z TypedValue.IntValue.
Definition GetFloat := typed_get float_zero TypedValue.FloatValue.
Definition GetBool := typed_get false TypedValue.BoolValue.
Definition GetTime := typed_get zero_time TypedValue.TimeValue.
Definition GetDuration := typed_get 0%Z TypedValue.DurationValue.
(** The nullable getters: nil for null. *)
Definition GetStringNullable := typed_get None (λ tv, Some (Some (TypedValue.text tv))).
Definition GetIntNullable := typed_get None (λ tv, Some <$> TypedValue.IntValue tv).
Definition GetBoolNullable := typed_get None (λ tv, Some <$> TypedValue.BoolValue tv).

(** *** Snapshots *)
Record Snapshot := mkSnapshot { sn_client : Client; sn_tenantID : string; sn_version : Z }.
Definition Client_Snapshot (c : Client) (tenantID : string) : call (option Snapshot) :=
  retry c None (λ w,
    match t_GetConfig {| gc_TenantID := tenantID; gc_Version := None |} w with
    | ((_, Some err), w) => Some ((None, Some err), w)
    | ((None, None), w) => Some ((None, Some ErrInvalidTransportResponse), w)
    | ((Some r, None), w) => Some ((Some (mkSnapshot c tenantID (cr_Version r)), None), w)
    end).
Definition AtVersion (c : Client) (tenantID : string) (version : Z) : Snapshot := mkSnapshot c tenantID version.
Definition Snapshot_Get (s : Snapshot) (fieldPath : string) : call string :=
  get_field (sn_client s) ""
    {| gf_TenantID := sn_tenantID s; gf_FieldPath := fieldPath; gf_Version := Some (sn_version s) |}
    (deref_value ptr_text).
Definition Snapshot_GetAll (s : Snapshot) : call (gmap string string) :=
  get_config (sn_client s) {| gc_TenantID := sn_tenantID s; gc_Version := Some (sn_version s) |}.
Definition Snapshot_GetFields (s : Snapshot) (fieldPaths : list string) : call (gmap string string) :=
  get_fields (sn_client s)
    {| gfs_TenantID := sn_tenantID s; gfs_FieldPaths := fieldPaths; gfs_Version := Some (sn_version s) |}.

(** *** Writes *)
Definition doWrite {A} (c : Client) (wo : writeOptions) (zero : A) (fn : call A) : call A :=
  if (negb (bool_decide (idempotencyKey wo = "")) || negb (bool_decide (expectedChecksum wo = ""))
      || (0 <? size (fieldChecksums wo))) && retryEnabled c
  then retry c zero fn else fn.

(** A response or [ErrInvalidTransportResponse]. *)
Definition checked (r : reply W (option ConfigVersion)) : (option ConfigVersion * option go_error) * W :=
  match r with
  | ((_, Some err), w) => ((None, Some err), w)
  | ((None, None), w) => ((None, Some ErrInvalidTransportResponse), w)
  | ((Some v, None), w) => ((v, None), w)
  end.
Definition setFieldVersion (req : SetFieldRequest) : call (option ConfigVersion) :=
  λ w, Some (checked (t_SetField req w)).
Definition setFieldsVersion (req : SetFieldsRequest) : call (option ConfigVersion) :=
  λ w, Some (checked (t_SetFields req w)).

Definition set_request (tenantID fieldPath : string) (value : option TypedValue) (valueDesc : string)
    (wo : writeOptions) : SetFieldRequest :=
  {| sf_TenantID := tenantID; sf_FieldPath := fieldPath; sf_Value := value;
     sf_ExpectedChecksum := non_empty (expectedChecksum wo); sf_Description := description wo;
     sf_ValueDescription := valueDesc; sf_IdempotencyKey := idempotencyKey wo |}.
(** [SetTyped]; a nil value sets the field to null. *)
Definition SetTyped (c : Client) (tenantID fieldPath : string) (value : option TypedValue) (opts : list WriteOption) :
    call (option ConfigVersion) :=
  let wo := applyWriteOptions opts in
  doWrite c wo None (setFieldVersion (set_request tenantID fieldPath value (valueDescription wo) wo)).
Definition Set_ (c : Client) (tenantID fieldPath value : string) (opts : list WriteOption) :
    call (option ConfigVersion) :=
  SetTyped c tenantID fieldPath (Some (StringVal value)) opts.
Definition SetInt c t p (n : Z) opts := SetTyped c t p (Some (IntVal n)) opts.
Definition SetFloat c t p (x : float64) opts := SetTyped c t p (Some (FloatVal x)) opts.
Definition SetBool c t p (b : bool) opts := SetTyped c t p (Some (BoolVal b)) opts.
Definition SetTime c t p (x : Z) opts := SetTyped c t p (Some (TimeVal x)) opts.
Definition SetDuration c t p (d : Z) opts := SetTyped c t p (Some (DurationVal d)) opts.
(** [SetNull] sends no description of the value. *)
Definition SetNull (c : Client) (tenantID fieldPath : string) (opts : list WriteOption) : call (option ConfigVersion) :=
  let wo := applyWriteOptions opts in
  doWrite c wo None (setFieldVersion (set_request tenantID fieldPath None "" wo)).

Definition sorted_paths {A} (values : gmap string A) : list string :=
  merge_sort String.le (map_range values).*1.
Definition batch_update (wo : writeOptions) (path : string) (value : option TypedValue) : FieldUpdate :=
  {| fu_FieldPath := path; fu_Value := value;
     fu_ExpectedChecksum := non_empty (default "" (fieldChecksums wo !! path));
     fu_ValueDescription := default "" (valueDescriptions wo !! path) |}.
Definition SetManyTyped (c : Client) (tenantID : string) (values : gmap string (option TypedValue))
    (desc : string) (opts : list WriteOption) : call (option ConfigVersion) :=
  let wo := applyWriteOptions opts in
  let effectiveDescription := if bool_decide (desc = "") then description wo else desc in
  doWrite c wo None (setFieldsVersion
    {| sfs_TenantID := tenantID;
       sfs_Updates := (λ path, batch_update wo path (mjoin (values !! path))) <$> sorted_paths values;
       sfs_Description := effectiveDescription; sfs_IdempotencyKey := idempotencyKey wo |}).
Definition SetMany (c : Client) (tenantID : string) (values : gmap string string)
    (desc : string) (opts : list WriteOption) : call (option ConfigVersion) :=
  SetManyTyped c tenantID ((λ s, Some (StringVal s)) <$> values) desc opts.

(** *** Read-modify-write *)
Record LockedValue := {
  lv_FieldPath : string; lv_Value : string; lv_Checksum : string; lv_tenantID : string; lv_client : Client }.
Definition GetForUpdate (c : Client) (tenantID fieldPath : string) : call (option LockedValue) :=
  get_field c None (latest tenantID fieldPath)
    (λ resp, Some match resp with
                  | None => (None, Some ErrInvalidTransportResponse)
                  | Some r => (Some {| lv_FieldPath := fieldPath; lv_Value := ptr_text (gr_Value r);
                                       lv_Checksum := gr_Checksum r; lv_tenantID := tenantID; lv_client := c |}, None)
                  end).

Definition not_supported (what : string) : go_error := WrapError what ErrInvalidArgument.
Definition LockedValue_Set (lv : LockedValue) (newValue : string) (opts : list WriteOption) : call (option ConfigVersion) := λ w,
  let wo := applyWriteOptions opts in
  if negb (bool_decide (expectedChecksum wo = "")) then
    Some ((None, Some (not_supported "WithExpectedChecksum is not supported on LockedValue.Set")), w)
  else if 0 <? size (valueDescriptions wo) then
    Some ((None, Some (not_supported "WithValueDescriptions is not supported on LockedValue.Set")), w)
  else if 0 <? size (fieldChecksums wo) then
    Some ((None, Some (not_supported "WithFieldChecksums is not supported on LockedValue.Set")), w)
  else
    retry (lv_client lv) None (setFieldVersion
      {| sf_TenantID := lv_tenantID lv; sf_FieldPath := lv_FieldPath lv; sf_Value := Some (StringVal newValue);
         sf_ExpectedChecksum := Some (lv_Checksum lv); sf_Description := description wo;
         sf_ValueDescription := valueDescription wo; sf_IdempotencyKey := idempotencyKey wo |}) w.

Definition updateMaxAttempts : nat := 3.
(** The loop of [Update] with [n] attempts left. *)
Fixpoint update_loop (n : nat) (c : Client) (tenantID fieldPath : string)
    (updateFn : string → string * option go_error) (opts : list WriteOption) : call (option ConfigVersion) := λ w,
  match n with
  | O => Some ((None, Some ErrChecksumMismatch), w)
  | S n =>
      '((lv, err), w) ← GetForUpdate c tenantID fieldPath w;
      match err, lv with
      | Some e, _ => Some ((None, Some e), w)
      | None, None => None
      | None, Some lv =>
          match updateFn (lv_Value lv) with
          | (_, Some e) => Some ((None, Some e), w)
          | (newValue, None) =>
              '((version, err), w) ← LockedValue_Set lv newValue opts w;
              match err with
              | None => Some ((version, None), w)
              | Some e =>
                  if negb (is_mismatch e) || (n =? 0) then Some ((None, Some e), w)
                  else update_loop n c tenantID fieldPath updateFn opts w
              end
          end
      end
  end.
Definition Update (c : Client) (tenantID fieldPath : string) (updateFn : string → string * option go_error)
    (opts : list WriteOption) : call (option ConfigVersion) :=
  update_loop updateMaxAttempts c tenantID fieldPath updateFn opts.
End client.
