(* ===== verification/ConfigClientFacts.v ===== *)
(** * Properties of the config client

    Over any transport that meets the laws of [TransportOk]: which write a
    successful [Update] is, that batch requests are determined by their
    contents, and which calls are repeated. *)
From S2P Require Import Prelude GoText GoFloat GoTime Convert WatchValue Retry ConfigClient.
Import TypedValue (TypedValue, StringVal).

(** ** What the transport promises

    [contents] is the history of a field: the texts committed to it, oldest
    first, a null as [None]; other clients append to it between and during
    calls. A read answers the checksum of the newest text at some moment of the
    call, together with a text that is shown for it: [shown_as t p cur text] are
    the texts the service may show, which need not be the stored one. It shows
    the text of a plain string field as it is and a null as the empty text, a mark
    for a sensitive field, and its own format for a number, time or duration;
    which of these a field is may change with its schema. A write without an idempotency key that succeeds has appended its
    value, at a moment when the expected checksum was that of the newest text.
    A call that fails may or may not have had its effect. *)
Class TransportOk (W : Type) `{Transport W} := {
  contents : W → string → string → list (option string);
  checksum : option string → string;
  shown_as : string → string → option string → string → Prop;
  get_grows req w : ∀ t p, contents w t p `prefix_of` contents (t_GetField req w).2 t p;
  set_grows req w : ∀ t p, contents w t p `prefix_of` contents (t_SetField req w).2 t p;
  get_reads req w r w' :
    t_GetField req w = ((Some r, None), w') → gf_Version req = None →
    ∃ h cur, contents w (gf_TenantID req) (gf_FieldPath req) `prefix_of` h
      ∧ h `prefix_of` contents w' (gf_TenantID req) (gf_FieldPath req)
      ∧ last h = Some cur ∧ gr_Checksum r = checksum cur
      ∧ shown_as (gf_TenantID req) (gf_FieldPath req) cur (ptr_text (gr_Value r));
  set_writes req w v w' :
    t_SetField req w = ((Some v, None), w') → sf_IdempotencyKey req = "" →
    ∃ h, contents w (sf_TenantID req) (sf_FieldPath req) `prefix_of` h
      ∧ h ++ [TypedValue.text <$> sf_Value req] `prefix_of` contents w' (sf_TenantID req) (sf_FieldPath req)
      ∧ ∀ ck, sf_ExpectedChecksum req = Some ck → ∃ cur, last h = Some cur ∧ checksum cur = ck }.

Section facts.
Context {W : Type} `{TransportOk W}.
Variable Int64N : Z → W → Z * W.
Variable wait : Z → W → option go_error * W.

(** No history shrinks. *)
Definition grows (w w' : W) : Prop := ∀ t p, contents w t p `prefix_of` contents w' t p.
#[global] Instance grows_preorder : PreOrder grows.
Proof. split; [by intros w t p|]. intros w1 w2 w3 H1 H2 t p. by trans (contents w2 t p). Qed.

Hypothesis Int64N_grows : ∀ n w, grows w (Int64N n w).2.
Hypothesis wait_grows : ∀ d w, grows w (wait d w).2.

(** *** The retry loop: a success is the success of one call *)
Lemma run_loop_spec {A} cfg check (fn : W → (A * option go_error) * W) zero n attempt last w r e w' :
  (∀ w, grows w (fn w).2) → (0 < n ∨ is_Some last) →
  run_loop Int64N wait fn zero cfg check n attempt last w = ((r, e), w') →
  grows w w' ∧ (e = None → ∃ w1, grows w w1 ∧ fn w1 = ((r, None), w')).
Proof.
  intros Hfn. revert attempt last w. induction n as [|n IH]; intros attempt last w Hn; simpl.
  { intros [= _ -> <-]. split; [done|]. intros ->. destruct Hn as [|[? ?]]; [lia|done]. }
  pose proof (Hfn w) as Hg. destruct (fn w) as [[x [e0|]] w1] eqn:Hcall; simpl in Hg.
  2: { intros [= <- <- <-]. split; [done|]. intros _. by exists w. }
  destruct (negb (check e0)); [by intros [= <- <- <-]|]. case_bool_decide; [by intros [= <- <- <-]|].
  assert (∀ d w2, grows w w2 →
    match wait d w2 with
    | (Some ctx_err, w3) => ((zero, Some ctx_err), w3)
    | (None, w3) => run_loop Int64N wait fn zero cfg check n (attempt + 1)%Z (Some e0) w3
    end = ((r, e), w') → grows w w' ∧ (e = None → ∃ w1, grows w w1 ∧ fn w1 = ((r, None), w'))) as Hrest.
  { intros d w2 Hw2. pose proof (wait_grows d w2) as Hw. destruct (wait d w2) as [[ce|] w3]; simpl in Hw.
    { intros [= <- <- <-]. split; [by trans w2|done]. }
    intros Hr. apply IH in Hr as [Hg' Hs]; [|by right]. assert (grows w w3) as Hw3 by (by trans w2).
    split; [by trans w3|]. intros He. destruct (Hs He) as (w4 & Hg4 & Hf4). exists w4. split; [by trans w3|done]. }
  unfold BackoffDuration. destruct (_ && _).
  - pose proof (Int64N_grows (backoff_base attempt (InitialBackoff cfg) (MaxBackoff cfg)) w1) as Hi.
    destruct (Int64N _ w1) as [d w2]. simpl in Hi. intros Hr. eapply Hrest; [|exact Hr]. by trans w1.
  - intros Hr. by eapply Hrest.
Qed.

Lemma retry_spec {A} c0 (zero : A) fn w r e w' :
  (∀ w r w', fn w = Some (r, w') → grows w w') →
  retry Int64N wait (New c0) zero fn w = Some ((r, e), w') →
  grows w w' ∧ (e = None → ∃ w1, grows w w1 ∧ fn w1 = Some ((r, None), w')).
Proof.
  intros Hfn. unfold retry.
  set (fn' := λ w, match fn w with Some ((x, e), w) => ((Some x, e), w) | None => ((None, None), w) end).
  assert (∀ w, grows w (fn' w).2) as Hg.
  { intros w0. unfold fn'. destruct (fn w0) as [[[x e0] w1]|] eqn:E; simpl; [by eapply Hfn|done]. }
  assert (∀ w1, fn' w1 = ((Some r, None), w') → fn w1 = Some ((r, None), w')) as Hback.
  { intros w1. unfold fn'. destruct (fn w1) as [[[x e0] w2]|]; [|done]. by intros [= -> -> ->]. }
  destruct c0 as [cfg|]; simpl.
  - destruct (run_loop Int64N wait fn' (Some zero) _ _ _ _ _ w) as [[[x|] e0] w2] eqn:E; [|done].
    intros [= -> -> ->]. apply run_loop_spec in E as [Hgr Hs]; [|done|left; simpl; case_bool_decide; lia].
    split; [done|]. intros He. destruct (Hs He) as (w1 & ? & ?). exists w1. auto.
  - pose proof (Hback w) as Hw. pose proof (Hg w) as Hgw. destruct (fn' w) as [[[x|] e0] w2]; [|done].
    intros [= -> -> ->]. split; [done|]. intros ->. exists w. split; [done|]. by apply Hw.
Qed.

(** *** Read-modify-write *)
Lemma get_for_update_spec c0 t p w lv e w' :
  GetForUpdate Int64N wait (New c0) t p w = Some ((lv, e), w') →
  grows w w' ∧ (e = None → ∃ l h cur, lv = Some l
    ∧ contents w t p `prefix_of` h ∧ h `prefix_of` contents w' t p
    ∧ last h = Some cur ∧ lv_Checksum l = checksum cur ∧ shown_as t p cur (lv_Value l)
    ∧ lv_tenantID l = t ∧ lv_FieldPath l = p ∧ lv_client l = New c0).
Proof.
  intros Hr. apply retry_spec in Hr as [Hg Hs].
  - split; [done|]. intros He. destruct (Hs He) as (w1 & Hg1 & Hc). clear Hs.
    destruct (t_GetField (latest t p) w1) as [[resp [err|]] w2] eqn:Hget; [done|]. simpl in Hc.
    destruct resp as [r|]; [|done]. injection Hc as <- <-.
    destruct (get_reads _ _ _ _ Hget eq_refl) as (h & cur & H1 & H2 & H3 & H4 & H5). simpl in *.
    eexists _, h, cur. split_and!; try done. by trans (contents w1 t p).
  - intros w0 r0 w1. pose proof (get_grows (latest t p) w0) as Hgr.
    destruct (t_GetField (latest t p) w0) as [[resp [err|]] w2]; simpl in *; by intros [= _ <-].
Qed.

Lemma locked_set_spec l c0 new opts w v e w' :
  lv_client l = New c0 → idempotencyKey (applyWriteOptions opts) = "" →
  LockedValue_Set Int64N wait l new opts w = Some ((v, e), w') →
  grows w w' ∧ (e = None → ∃ h cur, contents w (lv_tenantID l) (lv_FieldPath l) `prefix_of` h
    ∧ h ++ [Some new] `prefix_of` contents w' (lv_tenantID l) (lv_FieldPath l)
    ∧ last h = Some cur ∧ checksum cur = lv_Checksum l).
Proof.
  intros Hc Hk. unfold LockedValue_Set.
  destruct (negb _); [by intros [= <- <- <-]|]. destruct (0 <? _); [by intros [= <- <- <-]|].
  destruct (0 <? _); [by intros [= <- <- <-]|]. rewrite Hc, Hk. set (req := {| sf_TenantID := _ |}).
  intros Hr. apply retry_spec in Hr as [Hg Hs].
  - split; [done|]. intros He. destruct (Hs He) as (w1 & Hg1 & Hset). unfold setFieldVersion in Hset.
    destruct (t_SetField req w1) as [[[v'|] [err|]] w2] eqn:Hcall; simplify_eq/=.
    destruct (set_writes _ _ _ _ Hcall eq_refl) as (h & H1 & H2 & H3). simpl in *.
    destruct (H3 _ eq_refl) as (cur & ? & ?). exists h, cur. split_and!; try done.
    by trans (contents w1 (lv_tenantID l) (lv_FieldPath l)).
  - intros w0 r0 w1. pose proof (set_grows req w0) as Hgr. unfold setFieldVersion.
    destruct (t_SetField req w0) as [[[v'|] [err|]] w2]; simpl in *; by intros [= _ <-].
Qed.

(** C39: What a successful [Update] without an idempotency key has written, with
    or without retries and whatever other clients write meanwhile: the history of
    the field has a point at which the value written follows a value whose
    checksum is that of the value read (unless checksums collide, exactly the
    value read: no other client's write is lost), and the value written is the
    update function applied to the text the service showed for the value read.
    For a plain string field that text is the value itself. For a sensitive field
    it is the redaction mark, which comes with the stored value's checksum, so
    that Update replaces the secret by the updated mark
    ([ClientRuns.update_overwrites_secret]); for numbers, times and durations it
    is the service's format of the value. *)
Theorem update_replaces_what_it_read c0 t p f opts w v w' :
  idempotencyKey (applyWriteOptions opts) = "" →
  Update Int64N wait (New c0) t p f opts w = Some ((v, None), w') →
  ∃ h read text old new, contents w t p `prefix_of` h ∧ last h = Some old ∧ checksum old = checksum read
    ∧ shown_as t p read text ∧ f text = (new, None) ∧ h ++ [Some new] `prefix_of` contents w' t p.
Proof.
  intros Hk. unfold Update. generalize updateMaxAttempts. intros n. revert w.
  induction n as [|n IH]; intros w; cbn [update_loop]; [done|].
  intros ([[lv e] w1] & Hget & Hrest)%bind_Some. apply get_for_update_spec in Hget as [Hg1 Hlv].
  destruct e as [e|]; [done|]. destruct (Hlv eq_refl) as (l & h & cur & -> & H1 & H2 & H3 & H4 & H5 & Ht & Hp & Hc).
  destruct (f (lv_Value l)) as [new [e|]] eqn:Hf; [done|].
  apply bind_Some in Hrest as ([[v' e] w2] & Hset & Hrest).
  apply (locked_set_spec l c0) in Hset as [Hg2 Hw]; [|done|done]. rewrite Ht, Hp in Hw.
  destruct e as [e|].
  - destruct (negb (is_mismatch e) || (n =? 0)); [done|].
    apply IH in Hrest as (h' & read & text & old & new' & Hpre & ?). exists h', read, text, old, new'. split; [|done].
    trans (contents w2 t p); [|done]. by trans (contents w1 t p).
  - injection Hrest as -> <-. destruct (Hw eq_refl) as (h' & cur' & H1' & H2' & H3' & H5').
    exists h', cur, (lv_Value l), cur', new. rewrite H4 in H5'.
    split_and!; try done. by trans (contents w1 t p).
Qed.
End facts.

(** ** Batch writes *)

(** The request of a batch has one update for each path, in the order of the
    paths, and does not depend on the order in which the map is visited. *)
Theorem batch_paths_determined `{MapRangeOk} {A} (values : gmap string A) :
  StronglySorted String.le (sorted_paths values) ∧ NoDup (sorted_paths values)
  ∧ (∀ p, p ∈ sorted_paths values ↔ is_Some (values !! p))
  ∧ ∀ (r : MapRange) (_ : @MapRangeOk r), @sorted_paths r A values = sorted_paths values.
Proof.
  assert (∀ (r : MapRange) (_ : @MapRangeOk r) p, p ∈ @sorted_paths r A values ↔ is_Some (values !! p)) as Hin.
  { intros r Hr p. unfold sorted_paths. rewrite merge_sort_Permutation, list_elem_of_fmap. split.
    - intros ([q x] & -> & Hq). exists x. by apply elem_of_map_range.
    - intros [x Hx]. exists (p, x). split; [done|]. by apply elem_of_map_range. }
  assert (∀ (r : MapRange) (_ : @MapRangeOk r), NoDup (@sorted_paths r A values)) as Hnd.
  { intros r Hr. unfold sorted_paths. rewrite merge_sort_Permutation. apply NoDup_fst_map_range. }
  split_and!; [apply (StronglySorted_merge_sort String.le)|by apply Hnd|by apply Hin|].
  intros r Hr. apply (StronglySorted_unique String.le); [apply (StronglySorted_merge_sort String.le)..|].
  apply NoDup_Permutation; [by apply Hnd..|]. intros p. etrans; [apply (Hin r Hr)|symmetry; by apply Hin].
Qed.

(** ** A server with one field

    Its checksum is the text, which a read shows unless the field is sensitive.
    Each call takes an item of a plan: what others
    write before it, and whether its reply is lost. Keys are remembered when
    they are seen, also when the write then fails, as the config service does
    ([Findings.failed_write_uses_up_key]). *)
Module OneField.
Record item := { others : list string; lose_reply : bool }.
Record world := mkWorld { cells : list (option string); used : list string; plan : list item }.

(** The field is sensitive when it is called [secret]; the service shows a null
    of it as the mark too. *)
Definition display (path : string) (cur : option string) : option string :=
  if bool_decide (path = "secret") then Some (Convert.redactIfSensitive true (default "" cur)) else cur.

Definition sum (x : option string) : string := match x with Some s => String.append "+" s | None => "" end.
Definition next (w : world) : item * world :=
  match plan w with
  | [] => ({| others := []; lose_reply := false |}, w)
  | i :: rest => (i, mkWorld (cells w ++ (Some <$> others i)) (used w) rest)
  end.
Definition unavailable : go_error := RetryableError (Some (LeafError "unavailable")).

Definition get (req : GetFieldRequest) (w : world) : reply world GetFieldResponse :=
  let '(i, w) := next w in
  match last (cells w) with
  | None => ((None, Some ErrNotFound), w)
  | Some cur =>
      if lose_reply i then ((None, Some unavailable), w)
      else ((Some {| gr_FieldPath := gf_FieldPath req; gr_Value := StringVal <$> display (gf_FieldPath req) cur; gr_Checksum := sum cur |}, None), w)
  end.
Definition set (req : SetFieldRequest) (w : world) : reply world (option ConfigVersion) :=
  let '(i, w) := next w in
  let key := sf_IdempotencyKey req in
  if negb (bool_decide (key = "")) && bool_decide (key ∈ used w) then ((Some None, None), w)
  else
    let w := mkWorld (cells w) (key :: used w) (plan w) in
    match sf_ExpectedChecksum req with
    | Some ck =>
        if bool_decide (sum <$> last (cells w) = Some ck)
        then let w := mkWorld (cells w ++ [TypedValue.text <$> sf_Value req]) (used w) (plan w) in
             if lose_reply i then ((None, Some unavailable), w) else ((Some None, None), w)
        else ((None, Some ErrChecksumMismatch), w)
    | None =>
        let w := mkWorld (cells w ++ [TypedValue.text <$> sf_Value req]) (used w) (plan w) in
        if lose_reply i then ((None, Some unavailable), w) else ((Some None, None), w)
    end.
#[global] Instance one_field : Transport world := {|
  t_GetField := get; t_SetField := set;
  t_GetConfig _ w := ((None, None), w); t_GetFields _ w := ((None, None), w); t_SetFields _ w := ((None, None), w) |}.

Lemma next_grows w : cells w `prefix_of` cells (next w).2.
Proof. unfold next. destruct (plan w); simpl; [done|]. by apply prefix_app_r. Qed.

#[global] Instance one_field_ok : TransportOk world.
Proof.
  refine {| contents w _ _ := cells w; checksum := sum; shown_as _ p cur text := text = default "" (display p cur) |}.
  - intros req w _ _. simpl. unfold get. pose proof (next_grows w) as Hn. destruct (next w) as [i w1]. simpl in Hn.
    destruct (last (cells w1)); [|done]. by destruct (lose_reply i).
  - intros req w _ _. simpl. unfold set. pose proof (next_grows w) as Hn. destruct (next w) as [i w1]. simpl in Hn.
    destruct (_ && _); [done|]. destruct (sf_ExpectedChecksum req); [case_bool_decide|];
      try destruct (lose_reply i); simpl; try done; by apply prefix_app_r.
  - intros req w r w'. simpl. unfold get. pose proof (next_grows w) as Hn. destruct (next w) as [i w1]. simpl in Hn.
    destruct (last (cells w1)) as [cur|] eqn:Hl; [|done]. destruct (lose_reply i); [done|]. intros [= <- <-] _.
    exists (cells w1), cur. split_and!; try done. simpl. by destruct (display _ cur).
  - intros req w v w'. simpl. unfold set. pose proof (next_grows w) as Hn. destruct (next w) as [i w1]. simpl in Hn.
    intros Hs Hk. rewrite Hk in Hs. simpl in Hs. exists (cells w1). split; [done|].
    destruct (sf_ExpectedChecksum req) as [ck|].
    + case_bool_decide as Hck; [|done]. destruct (lose_reply i); [done|]. injection Hs as _ <-. split; [done|].
      intros ck' [= <-]. simpl in Hck. destruct (last (cells w1)) as [cur|]; [|done]. exists cur. naive_solver.
    + destruct (lose_reply i); [done|]. injection Hs as _ <-. by split.
Defined.
End OneField.

(** ** Runs *)
Module ClientRuns.
Import OneField.
Definition draw (n : Z) (w : world) : Z * world := (0%Z, w).
Definition no_wait (d : Z) (w : world) : option go_error * world := (None, w).
Definition client : Client := New (Some zero_config).
Definition quiet : item := {| others := []; lose_reply := false |}.
Definition world_of (x : string) (plan : list item) : world := mkWorld [Some x] [] plan.
(** Appends a mark, so that a value tells how often it was updated. *)
Definition mark (s : string) : string * option go_error := (String.append s "!", None).
Definition outcome (opts : list WriteOption) (w : world) : option (option go_error * list (option string)) :=
  '((_, err), w) ← Update draw no_wait client "t" "f" mark opts w; Some (err, cells w).

(** Another client writes between the read and the write: the second attempt
    updates its value. *)
Definition contended : world := world_of "a" [quiet; {| others := ["b"]; lose_reply := false |}].
Example update_after_conflict : outcome [] contended = Some (None, [Some "a"; Some "b"; Some "b!"]).
Proof. vm_compute. done. Qed.

Definition settled : world := mkWorld [Some "a"; Some "b"; Some "b!"] [""; ""] [].
Lemma update_replaces_what_it_read_witness :
  ∃ h read text old new, contents contended "t" "f" `prefix_of` h ∧ last h = Some old ∧ checksum old = checksum read
    ∧ shown_as "t" "f" read text ∧ mark text = (new, None) ∧ h ++ [Some new] `prefix_of` contents settled "t" "f".
Proof.
  apply (update_replaces_what_it_read draw no_wait (λ _ w t p, reflexivity _) (λ _ w t p, reflexivity _)
           (Some zero_config) "t" "f" mark [] contended None settled).
  - reflexivity.
  - vm_compute. reflexivity.
Defined.

(** With an idempotency key the first attempt, which fails for the checksum,
    uses the key up; the second is answered as a repetition, and [Update]
    reports success without having written. *)
Example key_hides_lost_update :
  outcome [WithIdempotencyKey "k"] contended = Some (None, [Some "a"; Some "b"]).
Proof. vm_compute. done. Qed.

(** The reply of a write that took effect is lost: its repetition fails for
    the checksum, which [Update] takes for another client's write, and the
    function is applied a second time although nobody else wrote. *)
Example lost_reply_updates_twice :
  outcome [] (world_of "a" [quiet; {| others := []; lose_reply := true |}])
  = Some (None, [Some "a"; Some "a!"; Some "a!!"]).
Proof. vm_compute. done. Qed.

(** The read of a sensitive field answers the mark with the checksum of the
    secret: the update is of the mark, and passes for an update of the secret. *)
Example update_overwrites_secret :
  ('((_, err), w) ← Update draw no_wait client "t" "secret" mark [] (world_of "hunter2" []); Some (err, cells w))
  = Some (None, [Some "hunter2"; Some "[REDACTED]!"]).
Proof. vm_compute. done. Qed.

(** A nil response without an error panics in the reads that dereference it,
    and is an error in the others. *)
#[local] Instance nil_transport : Transport unit := {|
  t_GetField _ w := ((None, None), w); t_SetField _ w := ((None, None), w);
  t_GetConfig _ w := ((None, None), w); t_GetFields _ w := ((None, None), w); t_SetFields _ w := ((None, None), w) |}.
Example nil_response_panics :
  let n := (λ (_ : Z) (w : unit), (0%Z, w)) in
  let wait := (λ (_ : Z) (w : unit), (None : option go_error, w)) in
  Get n wait client "t" "f" tt = None ∧ GetInt n wait client "t" "f" tt = None
  ∧ GetFields n wait client "t" ["f"] tt = None
  ∧ GetAll n wait client "t" tt = Some ((∅, None), tt)
  ∧ GetForUpdate n wait client "t" "f" tt = Some ((None, Some ErrInvalidTransportResponse), tt).
Proof. vm_compute. done. Qed.
End ClientRuns.
